(* ===== verification/_CoqProject ===== *)
-Q . S2P
Prelude.v
Core.v
Money.v
Messaging.v
Outbox.v
OutboxDispatcher.v
Inbox.v
Consume.v
Saga.v
EventSourcing.v
EventBus.v
UnitOfWork.v
AggregateStore.v
Realtime.v
RealtimeWs.v
Upcast.v
Tenancy.v
Dispatch.v
Observability.v
Proto.v
ProtoWire.v
Registries.v
Contract.v
Conformance.v
Macros.v
Derived.v
Capture.v
Metrics.v
EndToEnd.v
Settlement.v
CrashSafety.v
Orders.v
Monolith.v
Notes.v
Telemetry.v
Profile.v
TestKit.v
SagaTests.v
EventBusTests.v
ServiceTests.v
StoreTests.v
EsTests.v
RealtimeTests.v
HttpTests.v
TenancyTests.v
EventTests.v
CoreTests.v
MessagingTests.v
DispatcherTests.v
