(* ===== verification/Prelude.v ===== *)
(** * A verification library for pharos-rs

    pharos-rs is a Rust framework for domain-driven, event-driven services.
    An application keeps aggregates that raise domain events; a repository
    saves them under optimistic concurrency; their events are published in
    process on an event bus or stored in an outbox together with the
    aggregate, from which a dispatcher publishes them to a broker; consumers
    deduplicate deliveries with an inbox, retry under a policy and park what
    keeps failing on a dead-letter queue; sagas turn events into commands that
    leave through the outbox again; event-sourced aggregates are replayed from
    streams and snapshots.  Events that leave the service travel in versioned
    envelopes, as JSON or Protobuf, and old versions are upcast on arrival.
    Work runs in the scope of a tenant, which messages carry along and which
    only a recorded elevation crosses.  Commands enter over HTTP through one
    validating seam, and a realtime hub fans messages out to rooms of
    WebSocket connections that may resume where they left off.  This library
    models those parts and proves what each promises to the next.

    ** Files and the code they model (under src/crates)

    - Prelude (this file): results, the state monad with its notations,
      lenses, the environment, machine integers, sorting, list lemmas.
    - Core: pharos-core/src aggregate.rs, entity.rs, errors.rs, repository.rs,
      classify.rs, value_object.rs, secret.rs.
    - Money: pharos-core/src money.rs and allocation.rs.
    - Messaging: pharos-messaging/src messaging.rs and dead_letter.rs, with
      pharos-memory/src in_memory_messaging.rs and in_memory_dead_letter.rs.
    - Outbox: pharos-messaging/src/outbox.rs, pharos-memory in_memory_outbox.rs.
    - OutboxDispatcher: pharos-messaging/src/outbox_dispatcher.rs.
    - Inbox: pharos-messaging/src/inbox.rs, pharos-memory in_memory_inbox.rs.
    - Consume: pharos-messaging/src/consume.rs.
    - Saga: pharos-saga/src/lib.rs, pharos-memory in_memory_saga_store.rs.
    - EventSourcing: pharos-es/src/lib.rs, pharos-memory
      in_memory_event_store.rs.
    - EventBus: pharos-app/src event_bus.rs, event_handler.rs, cascade.rs,
      resilience.rs.
    - UnitOfWork: pharos-app/src/unit_of_work.rs, pharos-memory
      in_memory_repository.rs and in_memory_unit_of_work.rs.
    - AggregateStore: pharos-app/src service.rs, error.rs, aggregate_store.rs,
      default_store.rs.
    - Realtime: pharos-realtime/src hub.rs and memory.rs.
    - RealtimeWs: pharos-realtime/src auth.rs and ws.rs.
    - Upcast: pharos-app/src integration_event.rs, serialization.rs, upcast.rs.
    - Tenancy: pharos-app/src tenant.rs, tenant_local.rs, tenant_iter.rs,
      enrichment.rs, elevation.rs, authorize.rs.
    - Dispatch: pharos-app/src command.rs, query.rs, tower_service.rs and
      pharos-axum/src/lib.rs.
    - Observability: pharos-axum/src/observability.rs and
      pharos-observability/src/filter.rs.
    - Proto: pharos-proto/src envelope.rs, error.rs, serializer.rs; ProtoWire
      gives the envelope its Protobuf bytes, by the tags of its attributes.
    - Registries: pharos-messaging/src schema_registry.rs and
      consumer_group.rs, pharos-memory in_memory_schema_registry.rs and
      in_memory_consumer_group.rs.
    - Contract and Conformance: pharos-testing/src/contract, the suites of the
      adapter conformance kit, and their runs against the in-memory adapters.
    - Macros and Derived: pharos-macros/src/lib.rs, what the macros generate
      from annotated syntax, and what the generated code does.
    - Capture: pharos-testing/src/lib.rs.
    - Metrics: pharos-axum/src/metrics.rs; Profile: pharos-axum/src/profile.rs.
    - Telemetry: pharos-observability/src lib.rs, otel.rs, propagation.rs and
      http.rs.
    - EndToEnd: the way of an event from a saved aggregate through outbox,
      dispatcher, broker and inbox to a handler, composed of the above.
    - Settlement: the dispatcher run again and again against a broker that
      answers as it likes, followed by the dead-letter sweep.
    - CrashSafety: any number of dispatchers on one outbox that may die
      between any two calls.
    - Orders, Monolith and Notes: the three examples under src/examples, from
      their domain to their routes and composition roots.
    - TestKit and the files ending in Tests: the unit tests inside the source
      files, as programs over the definitions above.

    ** How code becomes definitions

    A type keeps its name and its constructors; the method [m] of type [T] is
    [T_m].  An [async fn] is a computation [M W A], a function from a world
    [W] to an answer and a world, each awaited call acting in program order;
    [Result] is [result] and the operator [?] is the notation [try!].  A
    parameter taken by mutable reference comes back in the answer.  A trait
    that has several implementations is a class of operations over [W], and
    what its documentation promises is a second class of laws
    ([AggregateRootLaws], [SagaStoreLaws], [EventSourcedLaws],
    [TransactionLaws]); clients are verified against the laws and the
    in-memory implementations discharge them.  An in-memory store is a
    component of the world reached through a [Lens].  A boxed error is the
    text it displays.  Spans are left out but for what a derived command
    records on its own, and so are log events except those of the HTTP errors,
    which say where a hidden text goes.  A macro is a function from syntax to
    a compile error or a generated item, and the item has a meaning of its
    own; a test suite is a program that may panic.
    [tokio::select!] is a list of the branches that become ready, in any
    order; a task-local is a class with a scope operation; a future that was
    prepared but not yet run is a computation in the answer.

    Integers keep their width: [u32] and [u64] additions wrap, [i128]
    operations are checked as in the code.  An [f64] is an IEEE 754 datum of
    the standard library's SpecFloat, and [Duration] is a number of
    nanoseconds.  A panic is [None] and unwinds through its callers; so does
    waiting for ever on a lock.

    Parameters of the model, with their documented behaviour as class laws or
    named hypotheses: the clock, UUID and random sources ([Env]), chrono's
    range check ([Chrono]), the iteration order of hash maps ([MapIter]),
    serde ([Serde]), Tokio's timer ([Timer]) and notification
    ([OutboxSignal]), its broadcast channel ([Broadcast]), task-locals
    ([TaskLocal]) and time-outs ([TokioTime]), the socket ([WsSink]),
    serde_json ([Json], [SerdeEvent], [FromValue]), prost ([ProstMessage]),
    chrono's milliseconds ([ChronoMillis]), the UUID parser ([UuidText]),
    header values ([HeaderText]), the log ([Tracing]), syn and
    proc_macro_crate ([Syn]), prometheus_client ([Prometheus]), and the user's
    aggregates, sagas, handlers, authenticators and authorisers.

    Concurrency is a transition system where it matters: claims of the outbox
    ([outbox_step]), lanes of the dispatcher ([pool_step]), dispatchers that
    crash ([site_step]), loads and saves of sagas ([occ_step]), transactions of
    the unit of work ([uow_step]), publishers, subscribers and leaving guards
    of the realtime hub ([hub_step]) and requests under the metrics middleware
    ([track_step]); each step is one call of the modelled code, atomic under
    the lock the code holds there.

    Fuel never ends a run: the lane machine takes three calls per message
    ([lane_machine_faithful] runs it with exactly that), the loop of
    [Retrying] is bounded by the policy's attempts
    ([retrying_fuel_irrelevant]), printing an integer has 130 steps for the at
    most 39 digits of 128 bits ([Money_fmt_decimal] and [amount_roundtrip]
    rest on it), [powi] halves a 32-bit exponent, the upcaster loop has one
    round more than there are upcasters ([decode_never_partial] proves that it
    always answers), and a poll of a room's stream has one per message of the
    channel ([RoomStream_next_progress]).  The other loops are
    structural; the retry loop of the saga runner counts down from its own
    constant.

    ** What is proved

    - Dispatcher and outbox: order per key at any concurrency, attempts
      recorded before publications, termination, agreement of the concurrent
      system with the sequential code, complete delivery, leases that are
      exclusive until they run out or a retry or insertion frees them,
      exactly-once parking.
    - Unit of work: saving and enqueueing are atomic over any store that
      honours the contract; in-memory transactions serialise and always
      release their lock.
    - Consumers: at most one success per message of a consumer that takes
      its deliveries in turn, parking after exactly the budget, exclusive
      inbox leases.
    - Sagas: one transition per handled event, no lost update, terminal
      instances stay terminal, exclusive timeout claims.
    - Event sourcing: save and find round trip; with snapshots the same events
      are stored and the same aggregates found, and a snapshot is written
      exactly when a save crosses a boundary.
    - Event bus and services: erasure is invisible, both error policies,
      byte-level and by-name dispatch agree with publishing, retry and
      parking, resumption after a failed publication, the relay round trip.
    - Money: exact checked arithmetic, lossless fair allocation, exact decimal
      display, serialisation round trip.  Backoff stays within the maximum as
      an [f64] has it, which is the maximum itself for whole seconds up to an
      hour.
    - Realtime: versions without holes and the longest backlog within both
      limits, rooms that live as long as their subscribers, lossless handover
      from replay to live stream, exact answers to a resuming client; on a
      connection, authorisation before every handled frame, nothing after a
      failed revalidation, delivery in order, and silent peers cut off.
    - Events on the wire: decoding applies exactly the missing upcasters or
      refuses, never half of them; the Protobuf round trip up to
      milliseconds; the newest schema of a registry.
    - Tenancy: isolated passes over the tenants, the tenant of a message
      restored where it is consumed, every elevation on the record.
    - Edges: internal and invalid commands never reach a handler over HTTP and
      errors underneath never reach the client; trace contexts survive a hop;
      completing a log filter changes nothing the operator asked for; the
      request metrics count every answered request once.
    - Conformance: every suite of the kit passes against the in-memory adapter
      it is meant for, at any clock that does not outrun a lease, with any
      identifiers and in any map order, and finds a repository without
      version check and an outbox without leases.
    - Macros: derived aggregates satisfy the laws the stores are proved
      against, derived events keep the identity their annotations pin, derived
      commands keep their handlers behind their rules and record exactly the
      fields they ask for, guarded functions run for the roles they name only;
      captured events are the published ones.
    - End to end: an event that was saved with its aggregate is handled
      exactly once, whatever a handler that fails a bounded number of times
      does, and nothing stays queued.
    - Settlement: against any broker, a relay with as many runs as the rows
      have attempts left settles every row: published, its message taken
      once, or parked within its budget with its last error.  Dispatchers that
      crash lose nothing: the row is settled later, its message taken at least
      once or parked.
    - Examples: the orders of the example are what their published events say
      and every request gets the status its state calls for; the monolith has
      exactly one invoice per placed order, with its total; no tenant sees or
      disturbs the notes of another.
    - Observability: the environment decides what is installed, and a failure
      says why not; a trace context travels with a message; an exemplar names
      the trace of the request it was observed in.
    - Unit tests: every ported test passes ([saga_tests_pass],
      [event_bus_tests_pass], ...), a check of the definitions against what
      the authors expect of the code.
    - Divergences: a group of theorems about what the code does where its
      documentation says otherwise (the races, lost events, revived
      aggregates and reordered keys listed with the manifest's findings).

    ** What is not modelled

    The facade crate and the re-exports of the others; the builders and
    [Clone] instances that only store or share a value.  In the HTTP adapters
    the routing, the extraction of a request and the encoding of a response
    are axum's and tower's, the text of metrics is prometheus_client's, the
    filter and the rendering of log lines are tracing_subscriber's, the
    exporter is OpenTelemetry's, and the tokens, spans and generics of the
    macros are passed on unread.  The tests that need those (the encoded
    metrics, the served routers, the installed exporter) and the one threaded
    race of pharos-realtime/src/memory.rs, which the transition system of the
    hub covers, are not ported.  In the event bus a handler
    that registers handlers is outside the model (a publication runs the list
    it cloned); memory exhaustion and poisoned locks are too.

    Instants are integers without a bound: chrono's panic when a lease or a
    delay leads past the last representable date ([now + lease] and
    [now + delay] in the outbox and in the claims of sagas) is outside the
    model.  Integer additions wrap as in a release build; a debug build panics
    where they overflow ([with_upcaster], [upcast_loop], [entry_since]).
    [dispatch_pending] runs its lanes one after the other, which is the code
    at a concurrency of one; every other interleaving of the lanes is a run of
    [pool_step].  [InMemoryOutbox_pending] is one atomic call, and
    [outbox_step] lets other calls in between its claims. *)

From stdpp Require Export base tactics decidable option list sorting gmap sets strings pretty.
From Stdlib Require Export ZArith Lia.
From Corelib Require Export SpecFloat.


(** ** Results and stateful computations

    [result] is Rust's [Result<A, E>].  [M W A] is a computation that reads
    and changes a world [W]: an [async fn] run by one task, each awaited call
    acting on the world in program order. *)

Inductive result (A E : Type) : Type :=
| Ok (a : A)
| Err (e : E).
Arguments Ok {A E} _.
Arguments Err {A E} _.

#[export] Instance result_eq_dec {A E} `{EqDecision A, EqDecision E} :
  EqDecision (result A E).
Proof. solve_decision. Defined.

Definition is_ok {A E} (r : result A E) : bool :=
  match r with Ok _ => true | Err _ => false end.

Definition map_err {A E F} (f : E -> F) (r : result A E) : result A F :=
  match r with Ok a => Ok a | Err e => Err (f e) end.

Definition ok_or {A E} (o : option A) (e : E) : result A E :=
  match o with Some a => Ok a | None => Err e end.

(** Rust's [?] in a pure function. *)
Definition rbind {A B E} (r : result A E) (k : A -> result B E) : result B E :=
  match r with Ok a => k a | Err e => Err e end.

Definition M (W A : Type) : Type := W -> A * W.

Definition ret {W A} (a : A) : M W A := fun w => (a, w).

Definition bind {W A B} (c : M W A) (k : A -> M W B) : M W B :=
  fun w => let '(a, w') := c w in k a w'.

(** Rust's [?] in an async function: an error leaves at once. *)
Definition tbind {W A B E} (c : M W (result A E)) (k : A -> M W (result B E))
  : M W (result B E) :=
  fun w => let '(r, w') := c w in
           match r with Ok a => k a w' | Err e => (Err e, w') end.

Definition mmap {W A B} (f : A -> B) (c : M W A) : M W B :=
  fun w => let '(a, w') := c w in (f a, w').

(** A computation that may panic: [None] is an unwinding task, and what the
    caller would have done next does not happen. *)
Definition pbind {W A B} (c : M W (option A)) (k : A -> M W (option B)) : M W (option B) :=
  fun w => let '(o, w') := c w in
           match o with Some a => k a w' | None => (None, w') end.

(** [?] inside a function that may panic later. *)
Definition ptbind {W A B E} (c : M W (result A E)) (k : A -> M W (option (result B E)))
  : M W (option (result B E)) :=
  fun w => let '(r, w') := c w in
           match r with Ok a => k a w' | Err e => (Some (Err e), w') end.

(** [?] on the answer of a call that may itself panic. *)
Definition prbind {W A B E} (c : M W (option (result A E)))
  (k : A -> M W (option (result B E))) : M W (option (result B E)) :=
  pbind c (fun r => match r with Ok a => k a | Err e => ret (Some (Err e)) end).

Declare Scope pharos_scope.
Delimit Scope pharos_scope with pharos.
Notation "'do!' x <- c ; k" := (bind c (fun x => k))
  (at level 10, x name, c at level 100, k at level 200)
  : pharos_scope.
Notation "'try!' x <- c ; k" := (tbind c (fun x => k))
  (at level 10, x name, c at level 100, k at level 200)
  : pharos_scope.
Notation "'live!' x <- c ; k" := (pbind c (fun x => k))
  (at level 10, x name, c at level 100, k at level 200)
  : pharos_scope.
Notation "'ptry!' x <- c ; k" := (ptbind c (fun x => k))
  (at level 10, x name, c at level 100, k at level 200)
  : pharos_scope.
Notation "'await!' x <- c ; k" := (prbind c (fun x => k))
  (at level 10, x name, c at level 100, k at level 200)
  : pharos_scope.
Notation "'res!' x <- c ; k" := (rbind c (fun x => k))
  (at level 10, x name, c at level 100, k at level 200)
  : pharos_scope.
Global Open Scope pharos_scope.

(** [for x in xs { c(x).await?; }] *)
Fixpoint try_each {W A E} (f : A -> M W (result unit E)) (xs : list A)
  : M W (result unit E) :=
  match xs with
  | [] => ret (Ok tt)
  | x :: xs' => try! _ <- f x; try_each f xs'
  end.

(** ** Components of a world

    A store a handle points to is a component [S] of the world [W]. *)

Class Lens (W S : Type) : Type := {
  lget : W -> S;
  lset : S -> W -> W;
}.

Class LensLaws (W S : Type) `{!Lens W S} : Prop := {
  lget_lset (s : S) (w : W) : lget (lset s w) = s;
  lset_lget (w : W) : lset (lget w) w = w;
  lset_lset (s s' : S) (w : W) : lset s (lset s' w) = lset s w;
}.

(** Two components are kept apart. *)
Class LensDisjoint (W S T : Type) `{!Lens W S, !Lens W T} : Prop := {
  lget_lset_other (s : S) (w : W) : lget (lset s w) = lget w :> T;
}.

Definition mget {W S} `{!Lens W S} : M W S := fun w => (lget w, w).
Definition mput {W S} `{!Lens W S} (s : S) : M W unit := fun w => (tt, lset s w).

(** Runs an operation of the component inside the world. *)
Definition zoom {W S A} `{!Lens W S} (c : M S A) : M W A :=
  fun w => let '(a, s) := c (lget w) in (a, lset s w).

(** A call that leaves component [S] alone. *)
Definition keeps (S : Type) {W A} `{!Lens W S} (c : M W A) : Prop :=
  forall w, lget (c w).2 = lget w :> S.

(** ** The ambient environment

    The clock ([chrono::Utc::now]) and the identifier supply
    ([uuid::Uuid::now_v7]) and the random source ([fastrand::f64]) are outside
    the repository: they are operations of a class, and every theorem holds
    for all of their answers.  Instants are nanoseconds since the epoch,
    identifiers are the 128-bit integers whose numeric order is the byte order
    of the UUIDs, and an [f64] is an IEEE 754 binary64 datum. *)

Abbreviation Instant := Z (only parsing).
Abbreviation Uuid := Z (only parsing).
Abbreviation Duration := Z (only parsing).
Abbreviation f64 := spec_float (only parsing).

Class Env (W : Type) : Type := {
  utc_now : M W Instant;
  uuid_now_v7 : M W Uuid;
  fastrand_f64 : M W f64;
}.

(** Reading the environment leaves the component [S] alone. *)
Class EnvFrame (W S : Type) `{!Env W, !Lens W S} : Prop := {
  utc_now_frame w : lget (utc_now w).2 = lget w :> S;
  uuid_now_v7_frame w : lget (uuid_now_v7 w).2 = lget w :> S;
  fastrand_f64_frame w : lget (fastrand_f64 w).2 = lget w :> S;
}.

(** [chrono::Duration::from_std]: fails on a duration chrono cannot hold. *)
Class Chrono : Type := { from_std : Duration -> option Duration }.

(** A concrete conversion: chrono holds up to [i64::MAX] milliseconds. *)
#[export] Instance chrono_millis : Chrono | 100 :=
  {| from_std d := if (d <=? (2 ^ 63 - 1) * 1000000)%Z then Some d else None |}.

(** Iteration over a [DashMap] or [HashMap]: every entry once, in an order
    the map does not promise. *)
Class MapIter (K V : Type) `{Countable K} : Type := {
  map_iter : gmap K V -> list (K * V);
  map_iter_perm m : map_iter m ≡ₚ map_to_list m;
}.

(** A clock, an identifier supply and a random source that answer from
    arbitrary sequences: the concrete environment of the in-memory world. *)
Record EnvState := mkEnvState {
  ticks : nat;
  clock_at : nat -> Instant;
  drawn : nat;
  uuid_at : nat -> Uuid;
  rolled : nat;
  random_at : nat -> f64;
}.

Definition env_now : M EnvState Instant := fun e =>
  (clock_at e (ticks e),
   mkEnvState (S (ticks e)) (clock_at e) (drawn e) (uuid_at e) (rolled e) (random_at e)).

Definition env_uuid : M EnvState Uuid := fun e =>
  (uuid_at e (drawn e),
   mkEnvState (ticks e) (clock_at e) (S (drawn e)) (uuid_at e) (rolled e) (random_at e)).

Definition env_random : M EnvState f64 := fun e =>
  (random_at e (rolled e),
   mkEnvState (ticks e) (clock_at e) (drawn e) (uuid_at e) (S (rolled e)) (random_at e)).

(** One microsecond per clock reading, identifiers 1, 2, 3, ... *)
Definition env_start : EnvState :=
  mkEnvState 0 (fun n => Z.of_nat n * 1000)%Z 0 (fun n => Z.of_nat n + 1)%Z 0
    (fun _ => S754_zero false).

(** A concrete world: an environment and a tuple of stores. *)
Record World (S : Type) := mkWorld { w_env : EnvState; w_stores : S }.
Arguments mkWorld {S} _ _.
Arguments w_env {S} _.
Arguments w_stores {S} _.

Definition in_env {S A} (c : M EnvState A) : M (World S) A :=
  fun w => let '(a, e) := c (w_env w) in (a, mkWorld e (w_stores w)).

#[export] Instance World_env {S} : Env (World S) := {
  utc_now := in_env env_now;
  uuid_now_v7 := in_env env_uuid;
  fastrand_f64 := in_env env_random;
}.

#[export] Instance lens_id {S} : Lens S S | 10 := {
  lget s := s;
  lset s _ := s;
}.

#[export] Instance lens_fst {A B T} `{!Lens A T} : Lens (A * B) T | 20 := {
  lget w := lget w.1;
  lset t w := (lset t w.1, w.2);
}.

#[export] Instance lens_snd {A B T} `{!Lens B T} : Lens (A * B) T | 20 := {
  lget w := lget w.2;
  lset t w := (w.1, lset t w.2);
}.

#[export] Instance World_lens {S T} `{!Lens S T} : Lens (World S) T | 20 := {
  lget w := lget (w_stores w);
  lset t w := mkWorld (w_env w) (lset t (w_stores w));
}.

(** ** Machine integers

    [u64], [u32] and [usize] counters are [Z] kept in range by the operations;
    an addition wraps, as in a release build. *)

Definition u64_max : Z := 2 ^ 64 - 1.
Definition u32_max : Z := 2 ^ 32 - 1.
Definition u64_add (a b : Z) : Z := (a + b) mod 2 ^ 64.
Definition u32_add (a b : Z) : Z := (a + b) mod 2 ^ 32.
Definition i128_min : Z := - 2 ^ 127.
Definition i128_max : Z := 2 ^ 127 - 1.
Definition in_i128 (z : Z) : bool := (i128_min <=? z)%Z && (z <=? i128_max)%Z.
(** [i128::checked_*]: the exact result when it fits. *)
Definition i128_checked (z : Z) : option Z := if in_i128 z then Some z else None.

(** ** Stable sort by key ([slice::sort_by_key]) *)

Section SortByKey.
Context {A K : Type} (key : A -> K) (leb : K -> K -> bool).

Fixpoint insert_by_key (x : A) (l : list A) : list A :=
  match l with
  | [] => [x]
  | y :: l' => if leb (key x) (key y) then x :: l else y :: insert_by_key x l'
  end.

Fixpoint sort_by_key (l : list A) : list A :=
  match l with
  | [] => []
  | x :: l' => insert_by_key x (sort_by_key l')
  end.
End SortByKey.

(** The order of a [(Instant, Uuid)] key. *)
Definition pair_leb (a b : Z * Z) : bool :=
  (a.1 <? b.1)%Z || ((a.1 =? b.1)%Z && (a.2 <=? b.2)%Z).

(** ** Tactics *)

Ltac inv_pair :=
  repeat match goal with
  | H : (_, _) = (_, _) |- _ => injection H; clear H; intros
  | H : Ok _ = Ok _ |- _ => injection H; clear H; intros
  | H : Err _ = Err _ |- _ => injection H; clear H; intros
  | H : Ok _ = Err _ |- _ => discriminate H
  | H : Err _ = Ok _ |- _ => discriminate H
  end; subst.

(** Runs a computation of [M] one awaited call further. *)
Ltac mstep :=
  match goal with
  | H : context [let '(_, _) := ?c in _] |- _ =>
      let a := fresh "a" in let w := fresh "w" in
      destruct c as [a w] eqn:?; cbn in H
  | H : context [match ?r with Ok _ => _ | Err _ => _ end] |- _ =>
      let E := fresh "E" in destruct r eqn:E; cbn in H
  end.

Create HintDb pharos.

Lemma keeps_run {S W A} `{!Lens W S} (c : M W A) w a w' :
  keeps S c -> c w = (a, w') -> lget w' = lget w :> S.
Proof. intros Hk Hc. specialize (Hk w). by rewrite Hc in Hk. Qed.

(** What a computation is built from decides what it leaves alone: the calculus
    of [keeps], as hints for [keeping]. *)
Section Keeping.
Context {S W : Type} `{!Lens W S}.

Lemma keeps_ret {A} (a : A) : keeps S (ret (W := W) a).
Proof. done. Qed.

Lemma keeps_mget {T} `{!Lens W T} : keeps S (mget (W := W) (S := T)).
Proof. done. Qed.

Lemma keeps_mput {T} `{!Lens W T, !LensDisjoint W T S} (x : T) : keeps S (mput (W := W) x).
Proof. intros w. apply lget_lset_other. Qed.

Lemma keeps_zoom {T A} `{!Lens W T, !LensDisjoint W T S} (c : M T A) : keeps S (zoom (W := W) c).
Proof. intros w. unfold zoom. destruct (c (lget w)). apply lget_lset_other. Qed.

Lemma keeps_bind {A B} (c : M W A) (k : A -> M W B) :
  keeps S c -> (forall a, keeps S (k a)) -> keeps S (bind c k).
Proof.
  intros Hc Hk w. unfold bind. specialize (Hc w). destruct (c w) as [a w']. cbn in Hc.
  by rewrite Hk.
Qed.

Lemma keeps_tbind {A B E} (c : M W (result A E)) (k : A -> M W (result B E)) :
  keeps S c -> (forall a, keeps S (k a)) -> keeps S (tbind c k).
Proof.
  intros Hc Hk w. unfold tbind. specialize (Hc w). destruct (c w) as [[a|e] w']; cbn in Hc; [|done].
  by rewrite Hk.
Qed.

Lemma keeps_pbind {A B} (c : M W (option A)) (k : A -> M W (option B)) :
  keeps S c -> (forall a, keeps S (k a)) -> keeps S (pbind c k).
Proof.
  intros Hc Hk w. unfold pbind. specialize (Hc w). destruct (c w) as [[a|] w']; cbn in Hc; [|done].
  by rewrite Hk.
Qed.

Lemma keeps_mmap {A B} (f : A -> B) (c : M W A) : keeps S c -> keeps S (mmap f c).
Proof. intros Hc w. unfold mmap. specialize (Hc w). by destruct (c w). Qed.

Lemma keeps_try_each {A E} (f : A -> M W (result unit E)) xs :
  (forall x, keeps S (f x)) -> keeps S (try_each f xs).
Proof. intros Hf. induction xs as [|x xs IH]; [done|]. by apply keeps_tbind. Qed.

Section KeepingEnv.
Context `{!Env W, !EnvFrame W S}.

Lemma keeps_utc_now : keeps S (utc_now (W := W)).
Proof. intros w. apply utc_now_frame. Qed.

Lemma keeps_uuid_now_v7 : keeps S (uuid_now_v7 (W := W)).
Proof. intros w. apply uuid_now_v7_frame. Qed.

Lemma keeps_fastrand_f64 : keeps S (fastrand_f64 (W := W)).
Proof. intros w. apply fastrand_f64_frame. Qed.
End KeepingEnv.
End Keeping.
Create HintDb keeps.
#[export] Hint Extern 1 (keeps _ (mput _)) => apply keeps_mput : keeps.
#[export] Hint Extern 1 (keeps _ (zoom _)) => apply keeps_zoom : keeps.
#[export] Hint Extern 1 (keeps _ utc_now) => apply keeps_utc_now : keeps.
#[export] Hint Extern 1 (keeps _ uuid_now_v7) => apply keeps_uuid_now_v7 : keeps.
#[export] Hint Extern 1 (keeps _ fastrand_f64) => apply keeps_fastrand_f64 : keeps.
#[export] Hint Resolve keeps_ret keeps_mget : keeps.

(** Goes through a computation, branch by branch. *)
Ltac keeping :=
  repeat first
    [ solve [eauto 2 with keeps]
    | match goal with
      | |- forall _, _ => intro
      | |- keeps _ (bind _ _) => apply keeps_bind
      | |- keeps _ (tbind _ _) => apply keeps_tbind
      | |- keeps _ (pbind _ _) => apply keeps_pbind
      | |- keeps _ (mmap _ _) => apply keeps_mmap
      | |- keeps _ (try_each _ _) => apply keeps_try_each
      | |- keeps _ (match ?x with _ => _ end) => destruct x
      end ].

(** ** Lemmas on integers *)

Lemma u64_add_range a b : (0 <= u64_add a b <= u64_max)%Z.
Proof. unfold u64_add, u64_max. pose proof (Z.mod_pos_bound (a + b) (2 ^ 64)). lia. Qed.

Lemma u64_add_small a b : (0 <= a + b <= u64_max)%Z -> u64_add a b = (a + b)%Z.
Proof. unfold u64_add, u64_max. intros. apply Z.mod_small. lia. Qed.

Lemma u64_add_ne a : (0 <= a <= u64_max)%Z -> u64_add a 1 <> a.
Proof.
  unfold u64_add, u64_max. intros H.
  destruct (decide (a = 2 ^ 64 - 1)%Z) as [->|]; [vm_compute; discriminate|].
  rewrite Z.mod_small; lia.
Qed.

Lemma u32_add_small a b : (0 <= a + b <= u32_max)%Z -> u32_add a b = (a + b)%Z.
Proof. unfold u32_add, u32_max. intros. apply Z.mod_small. lia. Qed.

Lemma in_i128_spec z : in_i128 z = true <-> (i128_min <= z <= i128_max)%Z.
Proof. unfold in_i128. rewrite andb_true_iff, !Z.leb_le. tauto. Qed.

Lemma i128_checked_Some z r :
  i128_checked z = Some r <-> r = z /\ (i128_min <= z <= i128_max)%Z.
Proof.
  unfold i128_checked. destruct (in_i128 z) eqn:E.
  - apply in_i128_spec in E. split; [by intros [= ->]|by intros [-> _]].
  - split; [done|]. intros [-> H]. apply in_i128_spec in H. congruence.
Qed.

Lemma i128_checked_None z :
  i128_checked z = None <-> (z < i128_min \/ i128_max < z)%Z.
Proof.
  unfold i128_checked. destruct (in_i128 z) eqn:E.
  - apply in_i128_spec in E. split; [done|lia].
  - split; [|done]. intros _.
    destruct (Z.lt_ge_cases z i128_min); [by left|].
    destruct (Z.lt_ge_cases i128_max z); [by right|].
    assert (in_i128 z = true) by (apply in_i128_spec; lia). congruence.
Qed.

(** ** Lemmas on sorting *)

Section SortLemmas.
Context {A K : Type} (key : A -> K) (leb : K -> K -> bool).

Lemma insert_by_key_perm x l : insert_by_key key leb x l ≡ₚ x :: l.
Proof.
  induction l as [|y l IH]; cbn; [done|].
  destruct (leb (key x) (key y)); [done|]. rewrite IH. apply Permutation_swap.
Qed.

Lemma sort_by_key_perm l : sort_by_key key leb l ≡ₚ l.
Proof.
  induction l as [|x l IH]; cbn; [done|]. by rewrite insert_by_key_perm, IH.
Qed.

Hypothesis leb_total : forall a b, leb a b = true \/ leb b a = true.
Hypothesis leb_trans : forall a b c, leb a b = true -> leb b c = true -> leb a c = true.

Definition le_key (x y : A) : Prop := leb (key x) (key y) = true.

Lemma insert_by_key_sorted x l :
  StronglySorted le_key l -> StronglySorted le_key (insert_by_key key leb x l).
Proof.
  induction 1 as [|y l Hs IH Hall]; cbn; [repeat constructor|].
  destruct (leb (key x) (key y)) eqn:E.
  - constructor; [by constructor|]. constructor; [done|].
    eapply Forall_impl; [exact Hall|]. intros z Hz. unfold le_key in *. eauto.
  - constructor; [done|]. rewrite insert_by_key_perm. constructor; [|done].
    unfold le_key. destruct (leb_total (key x) (key y)); congruence.
Qed.

Lemma sort_by_key_sorted l : StronglySorted le_key (sort_by_key key leb l).
Proof. induction l; cbn; [constructor|]. by apply insert_by_key_sorted. Qed.
End SortLemmas.

Lemma insert_by_key_fmap {A B K} (f : A -> B) (key : B -> K) leb x l :
  insert_by_key key leb (f x) (f <$> l) = f <$> insert_by_key (fun a => key (f a)) leb x l.
Proof.
  induction l as [|y l IH]; cbn; [done|].
  destruct (leb (key (f x)) (key (f y))); cbn; [done|]. f_equal. exact IH.
Qed.

Lemma sort_by_key_fmap {A B K} (f : A -> B) (key : B -> K) leb l :
  sort_by_key key leb (f <$> l) = f <$> sort_by_key (fun a => key (f a)) leb l.
Proof.
  induction l as [|x l IH]; [done|].
  change (f <$> x :: l) with (f x :: (f <$> l)). cbn. rewrite IH.
  apply insert_by_key_fmap.
Qed.

Lemma pair_leb_total a b : pair_leb a b = true \/ pair_leb b a = true.
Proof. unfold pair_leb. destruct a, b; cbn. lia. Qed.

Lemma pair_leb_trans a b c :
  pair_leb a b = true -> pair_leb b c = true -> pair_leb a c = true.
Proof. unfold pair_leb. destruct a, b, c; cbn. lia. Qed.

Lemma pair_leb_antisym a b : pair_leb a b = true -> pair_leb b a = true -> a = b.
Proof. unfold pair_leb. destruct a, b; cbn. intros. f_equal; lia. Qed.

(** ** The concrete world satisfies the laws *)

#[export] Instance lens_id_laws {S} : LensLaws S S.
Proof. by constructor. Qed.

#[export] Instance lens_fst_laws {A B T} `{!Lens A T, !LensLaws A T} :
  @LensLaws (A * B) T lens_fst.
Proof.
  constructor; intros; cbn; rewrite ?lget_lset, ?lset_lget, ?lset_lset; [done|by destruct w|done].
Qed.

#[export] Instance lens_snd_laws {A B T} `{!Lens B T, !LensLaws B T} :
  @LensLaws (A * B) T lens_snd.
Proof.
  constructor; intros; cbn; rewrite ?lget_lset, ?lset_lget, ?lset_lset; [done|by destruct w|done].
Qed.

#[export] Instance World_lens_laws {S T} `{!Lens S T, !LensLaws S T} :
  @LensLaws (World S) T World_lens.
Proof.
  constructor; intros; cbn; rewrite ?lget_lset, ?lset_lget, ?lset_lset; [done|by destruct w|done].
Qed.

#[export] Instance World_env_frame {S T} `{!Lens S T} :
  @EnvFrame (World S) T World_env World_lens.
Proof. by constructor. Qed.

#[export] Instance disjoint_fst_snd {A B T U} `{!Lens A T, !Lens B U} :
  @LensDisjoint (A * B) T U lens_fst lens_snd.
Proof. by constructor. Qed.

#[export] Instance disjoint_snd_fst {A B T U} `{!Lens A U, !Lens B T} :
  @LensDisjoint (A * B) T U lens_snd lens_fst.
Proof. by constructor. Qed.

#[export] Instance disjoint_fst {A B T U} `{!Lens A T, !Lens A U, !LensDisjoint A T U} :
  @LensDisjoint (A * B) T U lens_fst lens_fst.
Proof. constructor; intros; cbn. apply lget_lset_other. Qed.

#[export] Instance disjoint_snd {A B T U} `{!Lens B T, !Lens B U, !LensDisjoint B T U} :
  @LensDisjoint (A * B) T U lens_snd lens_snd.
Proof. constructor; intros; cbn. apply lget_lset_other. Qed.

#[export] Instance World_disjoint {S T U} `{!Lens S T, !Lens S U, !LensDisjoint S T U} :
  @LensDisjoint (World S) T U World_lens World_lens.
Proof. constructor; intros; cbn. apply lget_lset_other. Qed.

Create Rewrite HintDb lens.
#[export] Hint Rewrite @lget_lset @lget_lset_other @lset_lget @lset_lset @utc_now_frame @uuid_now_v7_frame
  @fastrand_f64_frame using typeclasses eauto : lens.

#[export] Hint Resolve pair_leb_total pair_leb_trans u64_add_range : pharos.

(** ** Lemmas on lists and maps *)

Lemma filter_all {A} (P : A -> Prop) `{!forall x, Decision (P x)} l :
  Forall P l -> filter P l = l.
Proof. induction 1 as [|x l Hx _ IH]; [done|]. by rewrite filter_cons_True, IH. Qed.

Lemma last_drop_lt {A} (l : list A) k : (k < length l)%nat -> last (drop k l) = last l.
Proof. intros Hk. rewrite !last_lookup, lookup_drop, length_drop. f_equal. lia. Qed.

Lemma filter_none {A} (P : A -> Prop) `{!forall x, Decision (P x)} l :
  Forall (fun x => ~ P x) l -> filter P l = [].
Proof. induction 1 as [|x l Hx _ IH]; [done|]. by rewrite filter_cons_False. Qed.

Lemma map_iter_elem {K V} `{Countable K} `{!MapIter K V} (m : gmap K V) k v :
  (k, v) ∈ map_iter m <-> m !! k = Some v.
Proof. rewrite map_iter_perm. apply elem_of_map_to_list. Qed.

Lemma map_iter_NoDup_keys {K V} `{Countable K} `{!MapIter K V} (m : gmap K V) :
  NoDup (map_iter m).*1.
Proof. rewrite map_iter_perm. apply NoDup_fst_map_to_list. Qed.

#[export] Instance map_iter_default {K V} `{Countable K} : MapIter K V | 100 :=
  {| map_iter := map_to_list; map_iter_perm m := reflexivity _ |}.
