(* ===== verification/Core.v ===== *)
(** * Core: error classification, aggregates and their pending events

    Models [crates/pharos-core/src]: [classify.rs], [errors.rs],
    [repository.rs], [aggregate.rs], [entity.rs], [value_object.rs] and
    [secret.rs].  The [AggregateRoot] trait becomes a class of operations with
    a second class of laws; the buffer [AggregateEvents] is the
    implementation that discharges them. *)

From S2P Require Import Prelude.

(** ** Error classification (classify.rs) *)

Inductive ErrorKind :=
| KNotFound | KValidation | KConflict | KUnauthorized
| KForbidden | KRateLimited | KUnavailable | KInternal.

#[export] Instance ErrorKind_eq_dec : EqDecision ErrorKind.
Proof. solve_decision. Defined.

(** The [ClassifiedError] trait; [display] is the [Error] supertrait's
    [Display], which may carry details of lower layers. *)
Class ClassifiedError (E : Type) : Type := {
  display : E -> string;
  kind : E -> ErrorKind;
  public_message : E -> string;
}.

(** ** Domain errors (errors.rs) *)

Inductive DomainError :=
| NotFound (m : string)
| Validation (m : string)
| BusinessRule (m : string)
| Conflict (m : string).

Definition DomainError_to_string (e : DomainError) : string :=
  match e with
  | NotFound m => "not found: " +:+ m
  | Validation m => "validation: " +:+ m
  | BusinessRule m => "business rule violation: " +:+ m
  | Conflict m => "conflict: " +:+ m
  end.

Definition DomainError_kind (e : DomainError) : ErrorKind :=
  match e with
  | NotFound _ => KNotFound
  | Validation _ => KValidation
  | BusinessRule _ | Conflict _ => KConflict
  end.

#[export] Instance DomainError_classified : ClassifiedError DomainError := {
  display := DomainError_to_string;
  kind := DomainError_kind;
  public_message e := DomainError_to_string e;
}.

(** ** Repository errors (repository.rs) *)

Inductive RepositoryError (E : Type) :=
| ConcurrencyConflict (expected : Z) (actual : option Z)
| Storage (e : E).
Arguments ConcurrencyConflict {E} _ _.
Arguments Storage {E} _.

(** [{expected}] and [{actual:?}] of an integer and an optional integer. *)
Definition fmt_opt_Z (o : option Z) : string :=
  match o with None => "None" | Some v => "Some(" +:+ pretty v +:+ ")" end.

Definition conflict_text (expected : Z) (actual : option Z) : string :=
  "optimistic concurrency conflict: expected version " +:+ pretty expected
  +:+ ", found " +:+ fmt_opt_Z actual.

Section RepositoryErrorClass.
Context {E : Type} (display_e : E -> string).

Definition RepositoryError_to_string (e : RepositoryError E) : string :=
  match e with
  | ConcurrencyConflict expected actual => conflict_text expected actual
  | Storage e => display_e e
  end.

Definition RepositoryError_kind (e : RepositoryError E) : ErrorKind :=
  match e with
  | ConcurrencyConflict _ _ => KConflict
  | Storage _ => KInternal
  end.

Definition RepositoryError_public_message (e : RepositoryError E) : string :=
  match e with
  | ConcurrencyConflict _ _ => RepositoryError_to_string e
  | Storage _ => "internal storage error"
  end.

Definition RepositoryError_classified : ClassifiedError (RepositoryError E) := {|
  display := RepositoryError_to_string;
  kind := RepositoryError_kind;
  public_message := RepositoryError_public_message;
|}.
End RepositoryErrorClass.

(** ** Pending events of an aggregate (aggregate.rs) *)

Record AggregateEvents (Ev : Type) := mkAggregateEvents { pending : list Ev }.
Arguments mkAggregateEvents {Ev} _.
Arguments pending {Ev} _.

Definition AggregateEvents_default {Ev} : AggregateEvents Ev := mkAggregateEvents [].

Definition AggregateEvents_raise {Ev} (e : Ev) (b : AggregateEvents Ev)
  : AggregateEvents Ev := mkAggregateEvents (pending b ++ [e]).

(** [std::mem::take]: hands the buffer out and leaves an empty one. *)
Definition AggregateEvents_drain {Ev} (b : AggregateEvents Ev)
  : list Ev * AggregateEvents Ev := (pending b, mkAggregateEvents []).

Definition AggregateEvents_restore {Ev} (events : list Ev) (b : AggregateEvents Ev)
  : AggregateEvents Ev :=
  match events with
  | [] => b
  | _ => let raised_since := pending b in mkAggregateEvents (events ++ raised_since)
  end.

(** The [Entity] and [AggregateRoot] traits. *)
Class AggregateRoot (A Id Ev : Type) : Type := {
  agg_id : A -> Id;
  pending_events : A -> list Ev;
  drain_events : A -> list Ev * A;
  restore_events : list Ev -> A -> A;
  version : A -> Z;
  set_version : Z -> A -> A;
}.

(** What the trait's documentation asks of an implementation: draining hands
    out exactly the pending events and touches nothing else, restoring puts
    events ahead of what was raised since, and the version is a field of its
    own. *)
Class AggregateRootLaws {A Id Ev : Type} (AR : AggregateRoot A Id Ev) : Prop := {
  drain_events_fst a : (drain_events a).1 = pending_events a;
  drain_events_pending a : pending_events (drain_events a).2 = [];
  drain_events_id a : agg_id (drain_events a).2 = agg_id a;
  drain_events_version a : version (drain_events a).2 = version a;
  restore_events_pending es a :
    pending_events (restore_events es a) = es ++ pending_events a;
  restore_events_id es a : agg_id (restore_events es a) = agg_id a;
  restore_events_version es a : version (restore_events es a) = version a;
  set_version_version v a : version (set_version v a) = v;
  set_version_pending v a : pending_events (set_version v a) = pending_events a;
  set_version_id v a : agg_id (set_version v a) = agg_id a;
}.

Create Rewrite HintDb agg.
#[export] Hint Rewrite @drain_events_fst @drain_events_pending @drain_events_id
  @drain_events_version @restore_events_pending @restore_events_id
  @restore_events_version @set_version_version @set_version_pending
  @set_version_id using typeclasses eauto : agg.

(** An aggregate built on the buffer the way every aggregate of the
    repository is: an identity, a state, a version and an
    [AggregateEvents]. *)
Record PlainAggregate (Id St Ev : Type) := mkPlain {
  p_id : Id;
  p_state : St;
  p_version : Z;
  p_events : AggregateEvents Ev;
}.
Arguments mkPlain {Id St Ev} _ _ _ _.
Arguments p_id {Id St Ev} _.
Arguments p_state {Id St Ev} _.
Arguments p_version {Id St Ev} _.
Arguments p_events {Id St Ev} _.

#[export] Instance PlainAggregate_root {Id St Ev} :
  AggregateRoot (PlainAggregate Id St Ev) Id Ev := {
  agg_id := p_id;
  pending_events a := pending (p_events a);
  drain_events a :=
    let '(es, b) := AggregateEvents_drain (p_events a) in
    (es, mkPlain (p_id a) (p_state a) (p_version a) b);
  restore_events es a :=
    mkPlain (p_id a) (p_state a) (p_version a) (AggregateEvents_restore es (p_events a));
  version := p_version;
  set_version v a := mkPlain (p_id a) (p_state a) v (p_events a);
}.

(** The [Repository] trait; [save] takes the aggregate by mutable reference,
    so it answers with the aggregate it leaves. *)
Class Repository (W A Id E : Type) : Type := {
  find_by_id : Id -> M W (result (option A) E);
  repo_save : A -> M W (result unit (RepositoryError E) * A);
  repo_delete : Id -> M W (result unit E);
}.

(** ** Validated value objects and secrets (value_object.rs, secret.rs) *)

(** The constructor the [value_object!] macro generates for an inner type,
    a predicate and a message. *)
Record ValueObject (T : Type) := mkValueObject { vo_inner : T }.
Arguments mkValueObject {T} _.
Arguments vo_inner {T} _.

Definition value_object_new {T} (pred : T -> bool) (msg : string) (value : T)
  : result (ValueObject T) DomainError :=
  if pred value then Ok (mkValueObject value) else Err (Validation msg).

Definition value_object_value {T} (v : ValueObject T) : T := vo_inner v.
Definition value_object_into_inner {T} (v : ValueObject T) : T := vo_inner v.

Definition value_object_try_from {T} (pred : T -> bool) (msg : string) (value : T)
  : result (ValueObject T) DomainError := value_object_new pred msg value.

Definition value_object_to_string {T} (to_string : T -> string) (v : ValueObject T) : string :=
  to_string (vo_inner v).

Definition REDACTED : string := "[redacted]".

Record Secret (T : Type) := mkSecret { secret_inner : T }.
Arguments mkSecret {T} _.
Arguments secret_inner {T} _.

Definition Secret_expose {T} (s : Secret T) : T := secret_inner s.
Definition Secret_into_inner {T} (s : Secret T) : T := secret_inner s.
Definition Secret_from {T} (value : T) : Secret T := mkSecret value.
Definition Secret_clone {T} (clone : T -> T) (s : Secret T) : Secret T := mkSecret (clone (secret_inner s)).
Definition Secret_default {T} (default : T) : Secret T := mkSecret default.

(** [Deserialize]: whatever the inner type's deserializer answers, wrapped. *)
Definition Secret_deserialize {T D E} (deserialize : D -> result T E) (d : D) : result (Secret T) E :=
  res! value <- deserialize d; Ok (mkSecret value).

Definition Secret_debug {T} (_ : Secret T) : string := REDACTED.
Definition Secret_display {T} (_ : Secret T) : string := REDACTED.

(** ** Lemmas *)

Lemma AggregateEvents_restore_pending {Ev} es (b : AggregateEvents Ev) :
  pending (AggregateEvents_restore es b) = es ++ pending b.
Proof. by destruct es. Qed.

(** A value object always satisfies its predicate, however it was made, and
    converting it back and forth changes nothing. *)
Lemma value_object_valid {T} (pred : T -> bool) msg value v :
  value_object_try_from pred msg value = Ok v ->
  pred (value_object_value v) = true /\ value_object_into_inner v = value
  /\ value_object_new pred msg (value_object_into_inner v) = Ok v.
Proof.
  unfold value_object_try_from, value_object_new, value_object_value, value_object_into_inner.
  destruct (pred value) eqn:E; [|done]. intros [= <-]. cbn. by rewrite E.
Qed.

#[export] Instance PlainAggregate_laws {Id St Ev} :
  AggregateRootLaws (@PlainAggregate_root Id St Ev).
Proof.
  constructor; intros; cbn; try done. apply AggregateEvents_restore_pending.
Qed.

(** Putting back what was drained, whatever was raised in between, gives the
    events of an uninterrupted run. *)
Lemma drain_raise_restore {Ev} (b : AggregateEvents Ev) (later : list Ev) :
  let '(es, b') := AggregateEvents_drain b in
  pending (AggregateEvents_restore es (foldl (fun b e => AggregateEvents_raise e b) b' later))
  = pending b ++ later.
Proof.
  cbn. rewrite AggregateEvents_restore_pending. f_equal.
  cut (forall b0 : AggregateEvents Ev,
    pending (foldl (fun b e => AggregateEvents_raise e b) b0 later) = pending b0 ++ later).
  { intros H. apply H. }
  induction later as [|e later IH]; intros b0; cbn; [by rewrite app_nil_r|].
  rewrite IH. cbn. by rewrite <- app_assoc.
Qed.

(** ** Displayed identifiers

    The [Display] of a UUID: 32 hexadecimal digits in groups of 8, 4, 4, 4 and
    12. *)

Definition hex_digit (d : Z) : Ascii.ascii :=
  Ascii.ascii_of_nat (Z.to_nat (if d <? 10 then 48 + d else 87 + d)%Z).

Fixpoint hex (n : nat) (z : Z) (acc : string) : string :=
  match n with
  | O => acc
  | S n' => hex n' (z / 16)%Z (String (hex_digit (z mod 16)%Z) acc)
  end.

Definition uuid_to_string (u : Uuid) : string :=
  hex 8 (u / 2 ^ 96)%Z "" +:+ "-" +:+ hex 4 (u / 2 ^ 80)%Z "" +:+ "-" +:+
  hex 4 (u / 2 ^ 64)%Z "" +:+ "-" +:+ hex 4 (u / 2 ^ 48)%Z "" +:+ "-" +:+ hex 12 u "".
