(* ===== verification/Money.v ===== *)
(** * Money: checked minor-unit amounts and lossless allocation

    Models [crates/pharos-core/src/money.rs] and [allocation.rs]: currencies,
    amounts in [i128] minor units, checked arithmetic, allocation over parts,
    the decimal display and the string form an amount is serialised to. *)

From S2P Require Import Prelude.
From Stdlib Require Import Ascii.
Local Open Scope Z_scope.

(** ** Allocation (allocation.rs) *)

Inductive AllocationError :=
| InvalidAllocation_
| TooManyParts_ (parts max : Z).

(** [i128::div_euclid] and [i128::rem_euclid], from truncating division. *)
Definition div_euclid (a b : Z) : Z :=
  let q := Z.quot a b in
  if Z.rem a b <? 0 then (if 0 <? b then q - 1 else q + 1) else q.

Definition rem_euclid (a b : Z) : Z :=
  let r := Z.rem a b in
  if r <? 0 then r + Z.abs b else r.

Definition i128_from_bool (b : bool) : Z := if b then 1 else 0.

Definition allocate_minor_units (total parts max_parts : Z)
  : result (list Z) AllocationError :=
  if parts =? 0 then Err InvalidAllocation_
  else if max_parts <? parts then Err (TooManyParts_ parts max_parts)
  else
    let base := div_euclid total parts in
    let remainder := rem_euclid total parts in
    Ok (map (fun index => base + i128_from_bool (index <? remainder)) (seqZ 0 parts)).

(** ** Currency (money.rs) *)

(** What the [InvalidCurrency] message is formatted from. *)
Inductive CurrencyFault :=
| BadCode (code : string)
| BadExponent (exponent : Z).

Inductive MoneyError :=
| CurrencyMismatch (left_code right_code : string)
| Overflow
| InvalidCurrency (fault : CurrencyFault)
| InvalidAllocation
| TooManyParts (parts max : Z).

Record Currency := mkCurrency { code : string; exponent : Z }.

#[export] Instance Currency_eq_dec : EqDecision Currency.
Proof. solve_decision. Defined.

Definition MAX_EXPONENT : Z := 38.

Definition is_ascii_uppercase (c : ascii) : bool :=
  let n := nat_of_ascii c in (65 <=? n)%nat && (n <=? 90)%nat.
Definition is_ascii_digit (c : ascii) : bool :=
  let n := nat_of_ascii c in (48 <=? n)%nat && (n <=? 57)%nat.

(** [str::chars().all]: a byte of a multi-byte character is not ASCII, so the
    test on bytes agrees with the test on characters. *)
Fixpoint string_forallb (f : ascii -> bool) (s : string) : bool :=
  match s with
  | EmptyString => true
  | String c s' => f c && string_forallb f s'
  end.

Definition Currency_new (code : string) (exponent : Z) : result Currency MoneyError :=
  let valid_length := (2 <=? String.length code)%nat && (String.length code <=? 12)%nat in
  let valid_chars := string_forallb (fun c => is_ascii_uppercase c || is_ascii_digit c) code in
  if negb valid_length || negb valid_chars then Err (InvalidCurrency (BadCode code))
  else if MAX_EXPONENT <? exponent then Err (InvalidCurrency (BadExponent exponent))
  else Ok (mkCurrency code exponent).

Definition Currency_brl : Currency := mkCurrency "BRL" 2.
Definition Currency_usd : Currency := mkCurrency "USD" 2.
Definition Currency_eur : Currency := mkCurrency "EUR" 2.
Definition Currency_btc : Currency := mkCurrency "BTC" 8.
Definition Currency_eth : Currency := mkCurrency "ETH" 18.

(** ** Money (money.rs) *)

Record Money := mkMoney { amount : Z; currency : Currency }.

Definition Money_new (amount : Z) (currency : Currency) : Money := mkMoney amount currency.
Definition Money_zero (currency : Currency) : Money := Money_new 0 currency.
Definition Money_is_negative (m : Money) : bool := amount m <? 0.
Definition Money_is_zero (m : Money) : bool := amount m =? 0.
Definition Money_is_positive (m : Money) : bool := 0 <? amount m.

Definition ensure_same_currency (self other : Money) : result unit MoneyError :=
  if decide (currency self = currency other) then Ok tt
  else Err (CurrencyMismatch (code (currency self)) (code (currency other))).

Definition Money_checked_add (self other : Money) : result Money MoneyError :=
  res! _ <- ensure_same_currency self other;
  res! a <- ok_or (i128_checked (amount self + amount other)) Overflow;
  Ok (Money_new a (currency self)).

Definition Money_checked_sub (self other : Money) : result Money MoneyError :=
  res! _ <- ensure_same_currency self other;
  res! a <- ok_or (i128_checked (amount self - amount other)) Overflow;
  Ok (Money_new a (currency self)).

Definition Money_checked_mul (self : Money) (factor : Z) : result Money MoneyError :=
  res! a <- ok_or (i128_checked (amount self * factor)) Overflow;
  Ok (Money_new a (currency self)).

Definition Money_neg (self : Money) : result Money MoneyError :=
  res! a <- ok_or (i128_checked (- amount self)) Overflow;
  Ok (Money_new a (currency self)).

Definition Money_abs (self : Money) : result Money MoneyError :=
  res! a <- ok_or (i128_checked (Z.abs (amount self))) Overflow;
  Ok (Money_new a (currency self)).

Definition MAX_ALLOCATION_PARTS : Z := 10000.

Definition Money_allocate (self : Money) (parts : Z) : result (list Money) MoneyError :=
  res! shares <-
    map_err (fun error => match error with
                          | InvalidAllocation_ => InvalidAllocation
                          | TooManyParts_ parts max => TooManyParts parts max
                          end)
      (allocate_minor_units (amount self) parts MAX_ALLOCATION_PARTS);
  Ok (map (fun a => Money_new a (currency self)) shares).

(** ** Decimal text *)

Definition digit_char (d : Z) : ascii := ascii_of_nat (48 + Z.to_nat d).

(** [u128::to_string]: digits, most significant first; [fuel] bounds their
    number, and the number of bits is always enough. *)
Fixpoint digits (fuel : nat) (n : Z) : string :=
  match fuel with
  | O => EmptyString
  | S fuel' =>
      if n <? 10 then String (digit_char n) EmptyString
      else digits fuel' (n / 10) +:+ String (digit_char (n mod 10)) EmptyString
  end.

Definition u128_to_string (n : Z) : string := digits 130 n.

Definition i128_to_string (z : Z) : string :=
  if z <? 0 then String "-"%char (u128_to_string (- z)) else u128_to_string z.

(** [format!("{digits:0>width$}")]. *)
Fixpoint zeros (n : nat) : string :=
  match n with O => EmptyString | S n' => String "0"%char (zeros n') end.

Definition pad_left (width : nat) (s : string) : string :=
  zeros (width - String.length s) +:+ s.

(** [str::split_at] *)
Definition split_at (i : nat) (s : string) : string * string :=
  (String.substring 0 i s, String.substring i (String.length s - i) s).

(** [impl Display for Money] *)
Definition Money_fmt (m : Money) : string :=
  let exponent := Z.to_nat (exponent (currency m)) in
  let sign := if amount m <? 0 then "-" else "" in
  let digits := u128_to_string (Z.abs (amount m)) in
  if (exponent =? 0)%nat then sign +:+ digits +:+ " " +:+ code (currency m)
  else
    let padded := pad_left (exponent + 1) digits in
    let '(whole, frac) := split_at (String.length padded - exponent) padded in
    sign +:+ whole +:+ "." +:+ frac +:+ " " +:+ code (currency m).

(** ** The serialised amount ([amount_as_string]) *)

Definition amount_serialize (a : Z) : string := i128_to_string a.

(** [str::parse::<i128>]: an optional sign, at least one digit, no overflow. *)
Fixpoint parse_digits (acc : Z) (s : string) : option Z :=
  match s with
  | EmptyString => Some acc
  | String c s' =>
      if is_ascii_digit c
      then parse_digits (acc * 10 + (Z.of_nat (nat_of_ascii c) - 48)) s'
      else None
  end.

Definition parse_nonempty (s : string) : option Z :=
  match s with EmptyString => None | _ => parse_digits 0 s end.

Definition amount_deserialize (raw : string) : option Z :=
  let parsed :=
    match raw with
    | String "-"%char s => Z.opp <$> parse_nonempty s
    | String "+"%char s => parse_nonempty s
    | _ => parse_nonempty raw
    end in
  parsed ≫= i128_checked.

(** ** Lemmas on Euclidean division and allocation *)

Lemma euclid_div_mod a b : 0 < b -> div_euclid a b = a / b /\ rem_euclid a b = a mod b.
Proof.
  intros Hb. unfold div_euclid, rem_euclid.
  pose proof (Z.quot_rem' a b) as Hqr.
  pose proof (Z.rem_bound_abs a b ltac:(lia)) as Hbd.
  rewrite (Z.abs_eq b) in * by lia.
  destruct (Z.rem a b <? 0) eqn:E; [replace (0 <? b) with true by lia|].
  - split; [eapply Z.div_unique_pos with (r := Z.rem a b + b)
           |eapply Z.mod_unique_pos with (q := Z.quot a b - 1)]; lia.
  - split; [eapply Z.div_unique_pos with (r := Z.rem a b)
           |eapply Z.mod_unique_pos with (q := Z.quot a b)]; lia.
Qed.

Definition Zsum (l : list Z) : Z := foldr Z.add 0 l.

Lemma Zsum_app l1 l2 : Zsum (l1 ++ l2) = Zsum l1 + Zsum l2.
Proof. induction l1 as [|x l1 IH]; cbn; [done|]. unfold Zsum in *. lia. Qed.

Definition share (base remainder index : Z) : Z :=
  base + i128_from_bool (index <? remainder).

Lemma Zsum_shares base r (k : nat) :
  0 <= r ->
  Zsum (map (share base r) (seqZ 0 (Z.of_nat k))) = Z.of_nat k * base + Z.min (Z.of_nat k) r.
Proof.
  intros Hr. induction k as [|k IH]; [rewrite Z.min_l by lia; reflexivity|].
  rewrite Nat2Z.inj_succ, <- Z.add_1_r, seqZ_app, map_app, Zsum_app, IH by lia.
  replace (seqZ (0 + Z.of_nat k) 1) with [Z.of_nat k] by (cbn; f_equal; lia).
  cbn. unfold share, i128_from_bool. destruct (Z.of_nat k <? r) eqn:E; lia.
Qed.

Lemma allocate_minor_units_ok total parts max_parts :
  0 < parts <= max_parts ->
  allocate_minor_units total parts max_parts
  = Ok (map (share (total / parts) (total mod parts)) (seqZ 0 parts)).
Proof.
  intros H. unfold allocate_minor_units.
  destruct (euclid_div_mod total parts) as [-> ->]; [lia|].
  destruct (parts =? 0) eqn:?; [lia|]. by destruct (max_parts <? parts) eqn:?; [lia|].
Qed.

Lemma allocate_shares_sum total parts :
  0 < parts ->
  Zsum (map (share (total / parts) (total mod parts)) (seqZ 0 parts)) = total.
Proof.
  intros H. rewrite <- (Z2Nat.id parts) at 3 by lia.
  pose proof (Z.mod_pos_bound total parts H).
  rewrite Zsum_shares, Z2Nat.id by lia. pose proof (Z.div_mod total parts). lia.
Qed.

Lemma share_range total parts index :
  0 < parts -> 0 <= index -> in_i128 total = true ->
  in_i128 (share (total / parts) (total mod parts) index) = true.
Proof.
  rewrite !in_i128_spec. unfold share, i128_from_bool. intros H Hi [Hlo Hhi].
  assert (i128_min < 0 < i128_max) by (unfold i128_min, i128_max; lia).
  assert (i128_min <= total / parts) by (apply Z.div_le_lower_bound; nia).
  destruct (Z.eq_dec parts 1) as [->|].
  - rewrite Z.div_1_r, Z.mod_1_r in *. destruct (index <? 0) eqn:E; [|lia].
    lia.
  - assert (total / parts < i128_max) by (apply Z.div_lt_upper_bound; nia).
    destruct (index <? total mod parts); lia.
Qed.

(** ** Lemmas on decimal text *)

Lemma string_cons_app c (s t : string) : String c s +:+ t = String c (s +:+ t).
Proof. reflexivity. Qed.

Lemma string_app_assoc (s t u : string) : (s +:+ t) +:+ u = s +:+ (t +:+ u).
Proof. induction s as [|c s IH]; [done|]. rewrite !string_cons_app. by rewrite IH. Qed.

Lemma string_length_app (s t : string) :
  String.length (s +:+ t) = (String.length s + String.length t)%nat.
Proof.
  induction s as [|c s IH]; [done|]. rewrite string_cons_app. cbn. by rewrite IH.
Qed.

Lemma parse_digits_app acc s t :
  parse_digits acc (s +:+ t) = parse_digits acc s ≫= fun a => parse_digits a t.
Proof.
  revert acc. induction s as [|c s IH]; intros acc; [done|].
  rewrite string_cons_app. cbn.
  destruct (is_ascii_digit c); [apply IH|done].
Qed.

Lemma nat_of_digit_char d : 0 <= d < 10 -> nat_of_ascii (digit_char d) = (48 + Z.to_nat d)%nat.
Proof. intros. unfold digit_char. apply nat_ascii_embedding. lia. Qed.

Lemma is_digit_digit_char d : 0 <= d < 10 -> is_ascii_digit (digit_char d) = true.
Proof.
  intros H. unfold is_ascii_digit. rewrite nat_of_digit_char by done.
  apply andb_true_iff. rewrite !Nat.leb_le. lia.
Qed.

Lemma parse_digit_char acc d s :
  0 <= d < 10 -> parse_digits acc (String (digit_char d) s) = parse_digits (acc * 10 + d) s.
Proof.
  intros H. cbn [parse_digits]. rewrite is_digit_digit_char, nat_of_digit_char by done.
  f_equal. lia.
Qed.

Lemma parse_digits_digits fuel n :
  0 <= n < 10 ^ Z.of_nat fuel -> parse_digits 0 (digits fuel n) = Some n.
Proof.
  revert n. induction fuel as [|fuel IH]; intros n Hn; [cbn in *; f_equal; lia|].
  rewrite Nat2Z.inj_succ, Z.pow_succ_r in Hn by lia. cbn [digits].
  destruct (n <? 10) eqn:E; [rewrite parse_digit_char by lia; cbn; f_equal; lia|].
  pose proof (Z.div_mod n 10 ltac:(lia)). pose proof (Z.mod_pos_bound n 10 ltac:(lia)).
  rewrite parse_digits_app, IH by lia. cbn [mbind option_bind].
  rewrite parse_digit_char by lia. cbn. f_equal. lia.
Qed.

Lemma digits_head fuel n :
  0 <= n -> (0 < fuel)%nat ->
  exists c s, digits fuel n = String c s /\ is_ascii_digit c = true.
Proof.
  revert n. induction fuel as [|fuel IH]; intros n Hn Hf; [lia|]. cbn.
  pose proof is_digit_digit_char as Hd.
  destruct (n <? 10) eqn:E; [exists (digit_char n), EmptyString; split; [done|apply Hd; lia]|].
  destruct fuel as [|fuel].
  { exists (digit_char (n mod 10)), EmptyString. split; [done|]. apply Hd. apply Z.mod_pos_bound. lia. }
  destruct (IH (n / 10)) as (c & s & -> & Hc); [apply Z.div_pos; lia|lia|].
  eexists _, _. split; [cbn; reflexivity|done].
Qed.

Lemma parse_zeros k s : parse_digits 0 (zeros k +:+ s) = parse_digits 0 s.
Proof.
  induction k as [|k IH]; [done|]. cbn [zeros]. rewrite string_cons_app. exact IH.
Qed.

Lemma zeros_length k : String.length (zeros k) = k.
Proof. induction k; cbn; congruence. Qed.

Lemma substring_0_all (s : string) : String.substring 0 (String.length s) s = s.
Proof. induction s as [|c s IH]; cbn; congruence. Qed.

Lemma split_at_app i s :
  (i <= String.length s)%nat ->
  (split_at i s).1 +:+ (split_at i s).2 = s
  /\ String.length (split_at i s).1 = i
  /\ String.length (split_at i s).2 = (String.length s - i)%nat.
Proof.
  unfold split_at. cbn. revert i. induction s as [|c s IH]; intros [|i] H; cbn in *; try lia.
  - done.
  - rewrite substring_0_all. done.
  - destruct (IH i) as (H1 & H2 & H3); [lia|].
    rewrite string_cons_app, H1, H2, H3. done.
Qed.

Lemma u128_to_string_parse n : 0 <= n <= 2 ^ 127 -> parse_digits 0 (u128_to_string n) = Some n.
Proof.
  intros [H1 H2]. apply parse_digits_digits. split; [done|].
  eapply Z.le_lt_trans; [exact H2|]. vm_compute. reflexivity.
Qed.

Lemma u128_to_string_head n :
  0 <= n -> exists c s, u128_to_string n = String c s /\ is_ascii_digit c = true.
Proof. intros. apply digits_head; [done|lia]. Qed.

Lemma parse_nonempty_u128 n :
  0 <= n <= 2 ^ 127 -> parse_nonempty (u128_to_string n) = Some n.
Proof.
  intros H. destruct (u128_to_string_head n) as (c & s & E & _); [lia|].
  unfold parse_nonempty. rewrite E, <- E. by apply u128_to_string_parse.
Qed.

Lemma deserialize_minus s :
  amount_deserialize (String "-"%char s) = (Z.opp <$> parse_nonempty s) ≫= i128_checked.
Proof. reflexivity. Qed.

Lemma deserialize_digit c s :
  is_ascii_digit c = true ->
  amount_deserialize (String c s) = parse_nonempty (String c s) ≫= i128_checked.
Proof.
  intros H. unfold amount_deserialize.
  destruct c as [b0 b1 b2 b3 b4 b5 b6 b7].
  destruct b0, b1, b2, b3, b4, b5, b6, b7; try reflexivity; vm_compute in H; discriminate.
Qed.

Lemma pad_left_parse w s : parse_digits 0 (pad_left w s) = parse_digits 0 s.
Proof. apply parse_zeros. Qed.

Lemma pad_left_length w s : (w <= String.length (pad_left w s))%nat.
Proof. unfold pad_left. rewrite string_length_app, zeros_length. lia. Qed.

Lemma ensure_same_currency_spec a b :
  ensure_same_currency a b =
  if decide (currency a = currency b) then Ok tt
  else Err (CurrencyMismatch (code (currency a)) (code (currency b))).
Proof. reflexivity. Qed.

Lemma i128_checked_in z : in_i128 z = true -> i128_checked z = Some z.
Proof. unfold i128_checked. by intros ->. Qed.

(** ** Properties *)

(** What [allocate] promises of the shares it hands out. *)
Definition fair_split (total : Money) (parts : Z) (shares : list Money) : Prop :=
  Z.of_nat (length shares) = parts
  /\ Zsum (amount <$> shares) = amount total
  /\ Forall (fun s => currency s = currency total /\ in_i128 (amount s) = true) shares
  /\ (forall i j si sj, (i <= j)%nat -> shares !! i = Some si -> shares !! j = Some sj ->
        amount sj <= amount si <= amount sj + 1).

Lemma amount_Money_new c l : amount <$> map (fun a => Money_new a c) l = l.
Proof. induction l as [|x l IH]; [done|]. cbn. f_equal. exact IH. Qed.

Lemma fair_split_shares m parts :
  0 < parts -> in_i128 (amount m) = true ->
  fair_split m parts
    (map (fun a => Money_new a (currency m))
       (map (share (amount m / parts) (amount m mod parts)) (seqZ 0 parts))).
Proof.
  intros Hp Hr. unfold fair_split. split; [|split; [|split]].
  - rewrite !length_map, length_seqZ. lia.
  - rewrite amount_Money_new. by apply allocate_shares_sum.
  - apply Forall_forall. intros s Hs. rewrite map_map in Hs.
    apply list_elem_of_fmap in Hs as (k & -> & Hk). apply elem_of_seqZ in Hk.
    split; [done|]. apply share_range; [done|lia|done].
  - intros i j si sj Hij Hi Hj. rewrite map_map in Hi, Hj.
    apply list_lookup_fmap_Some in Hi as (ki & -> & Hi), Hj as (kj & -> & Hj).
    apply lookup_seqZ in Hi as [-> Hi], Hj as [-> Hj]. cbn.
    unfold share, i128_from_bool.
    destruct (0 + Z.of_nat i <? _) eqn:E1, (0 + Z.of_nat j <? _) eqn:E2; lia.
Qed.

(** C22: [allocate] never creates or loses a minor unit: on an [i128] amount and
    a part count between 1 and 10,000 the shares are as many as asked, add up
    to the amount, stay in [i128] and in the currency, and an earlier share
    exceeds a later one by at most one unit; zero parts and more than 10,000
    are the only failures. *)
Theorem Money_allocate_spec (m : Money) (parts : Z) :
  in_i128 (amount m) = true -> 0 <= parts ->
  match Money_allocate m parts with
  | Ok shares => 0 < parts <= MAX_ALLOCATION_PARTS /\ fair_split m parts shares
  | Err InvalidAllocation => parts = 0
  | Err (TooManyParts p max) =>
      p = parts /\ max = MAX_ALLOCATION_PARTS /\ MAX_ALLOCATION_PARTS < parts
  | Err _ => False
  end.
Proof.
  intros Hr Hp. unfold Money_allocate.
  destruct (decide (0 < parts <= MAX_ALLOCATION_PARTS)) as [H|H].
  - rewrite allocate_minor_units_ok by done. cbn. split; [done|].
    apply fair_split_shares; [lia|done].
  - unfold allocate_minor_units. destruct (parts =? 0) eqn:E; cbn; [lia|].
    destruct (MAX_ALLOCATION_PARTS <? parts) eqn:E'; cbn; [|lia].
    repeat split; lia.
Qed.

Lemma Money_allocate_spec_witness :
  fair_split (mkMoney (-100) Currency_usd) 3
    [mkMoney (-33) Currency_usd; mkMoney (-33) Currency_usd; mkMoney (-34) Currency_usd].
Proof.
  exact (proj2 (Money_allocate_spec (mkMoney (-100) Currency_usd) 3
           ltac:(vm_compute; reflexivity) ltac:(lia))).
Defined.

(** The checked operations are exact integer arithmetic that reports
    overflow: each returns the mathematical result in the left operand's
    currency when it fits an [i128] and [Overflow] otherwise, and addition
    and subtraction of different currencies fail with both codes before any
    arithmetic. *)
Theorem Money_checked_ops_exact (a b : Money) (factor : Z) :
  let exact z := if in_i128 z then Ok (mkMoney z (currency a)) else Err Overflow in
  let same r := if decide (currency a = currency b) then r
                else Err (CurrencyMismatch (code (currency a)) (code (currency b))) in
  Money_checked_add a b = same (exact (amount a + amount b))
  /\ Money_checked_sub a b = same (exact (amount a - amount b))
  /\ Money_checked_mul a factor = exact (amount a * factor)
  /\ Money_neg a = exact (- amount a)
  /\ Money_abs a = exact (Z.abs (amount a)).
Proof.
  cbn zeta.
  unfold Money_checked_add, Money_checked_sub, Money_checked_mul, Money_neg, Money_abs,
    ensure_same_currency, i128_checked.
  destruct (decide (currency a = currency b));
    repeat split; cbn; repeat destruct (in_i128 _); done.
Qed.

(** Subtracting what was added gives the first amount back. *)
Theorem Money_add_sub_roundtrip (a b c : Money) :
  in_i128 (amount a) = true -> Money_checked_add a b = Ok c -> Money_checked_sub c b = Ok a.
Proof.
  destruct a as [x ca]. unfold Money_checked_add, Money_checked_sub, ensure_same_currency. cbn.
  intros Hx H. destruct (decide (ca = currency b)) as [Hc|]; [|discriminate]. cbn in H.
  destruct (i128_checked (x + amount b)) as [z|] eqn:E; [|discriminate]. cbn in H.
  apply i128_checked_Some in E as [-> _]. inv_pair. cbn.
  rewrite decide_True by done. cbn.
  replace (x + amount b - amount b) with x by lia. by rewrite i128_checked_in.
Qed.

Lemma Money_add_sub_roundtrip_witness :
  Money_checked_sub (mkMoney 12 Currency_eur) (mkMoney 5 Currency_eur)
  = Ok (mkMoney 7 Currency_eur).
Proof. apply (Money_add_sub_roundtrip (mkMoney 7 Currency_eur)); vm_compute; reflexivity. Defined.

(** The displayed text is the exact decimal: sign, whole part and as many
    fraction digits as the currency's exponent, whose digits read together
    are the absolute amount, followed by the currency code. *)
Theorem Money_fmt_decimal (m : Money) :
  in_i128 (amount m) = true ->
  exists whole frac : string,
    Money_fmt m =
      (if amount m <? 0 then "-" else "")
      +:+ whole +:+ (match frac with EmptyString => EmptyString | _ => "." +:+ frac end)
      +:+ " " +:+ code (currency m)
    /\ whole <> EmptyString
    /\ String.length frac = Z.to_nat (exponent (currency m))
    /\ parse_digits 0 (whole +:+ frac) = Some (Z.abs (amount m)).
Proof.
  intros Hr. apply in_i128_spec in Hr. unfold i128_min, i128_max in Hr.
  assert (Ha : 0 <= Z.abs (amount m) <= 2 ^ 127) by lia.
  unfold Money_fmt. set (e := Z.to_nat _). set (d := u128_to_string _).
  destruct (u128_to_string_head (Z.abs (amount m))) as (c0 & s0 & Hd & _); [lia|].
  destruct (e =? 0)%nat eqn:E.
  - exists d, EmptyString. apply Nat.eqb_eq in E. split; [done|].
    split; [unfold d; by rewrite Hd|]. split; [by rewrite E|].
    rewrite <- (u128_to_string_parse _ Ha). f_equal. fold d.
    clear. induction d as [|c d IH]; [done|]. rewrite string_cons_app. by rewrite IH.
  - apply Nat.eqb_neq in E.
    pose proof (pad_left_length (e + 1) d) as Hl. set (p := pad_left (e + 1) d) in *.
    destruct (split_at_app (String.length p - e) p) as (H1 & H2 & H3); [lia|].
    destruct (split_at (String.length p - e) p) as [whole frac]. cbn in H1, H2, H3.
    exists whole, frac.
    replace (String.length p - (String.length p - e))%nat with e in H3 by lia.
    destruct frac as [|c f]; [cbn in H3; lia|]. split; [|split; [|split; [done|]]].
    + by rewrite !string_app_assoc.
    + intros ->. cbn in H2. lia.
    + rewrite H1. unfold p. rewrite pad_left_parse. by apply u128_to_string_parse.
Qed.

Lemma Money_fmt_decimal_witness :
  Money_fmt (mkMoney (-5) Currency_brl) = "-0.05 BRL" /\
  exists whole frac : string,
    "-0.05 BRL" = "-" +:+ whole +:+ (match frac with EmptyString => EmptyString | _ => "." +:+ frac end)
      +:+ " " +:+ "BRL"
    /\ whole <> EmptyString /\ String.length frac = 2%nat
    /\ parse_digits 0 (whole +:+ frac) = Some 5.
Proof.
  split; [vm_compute; reflexivity|].
  exact (Money_fmt_decimal (mkMoney (-5) Currency_brl) ltac:(vm_compute; reflexivity)).
Defined.

(** An amount serialised as a decimal string deserialises to itself over
    the whole [i128] range. *)
Theorem amount_roundtrip (a : Z) :
  in_i128 a = true -> amount_deserialize (amount_serialize a) = Some a.
Proof.
  intros Hr. pose proof Hr as H. apply in_i128_spec in H. unfold i128_min, i128_max in H.
  unfold amount_serialize, i128_to_string. destruct (a <? 0) eqn:E.
  - rewrite deserialize_minus, parse_nonempty_u128 by lia. cbn [mbind option_bind fmap option_fmap option_map].
    rewrite Z.opp_involutive. by apply i128_checked_in.
  - destruct (u128_to_string_head a) as (c & s & Hs & Hc); [lia|].
    rewrite Hs, deserialize_digit, <- Hs, parse_nonempty_u128 by (done || lia).
    by apply i128_checked_in.
Qed.

Lemma amount_roundtrip_witness :
  amount_deserialize (amount_serialize i128_min) = Some i128_min.
Proof. apply amount_roundtrip. vm_compute. reflexivity. Defined.

(** The constructor of a currency accepts exactly the codes of 2 to 12
    upper-case letters and digits with an exponent of at most 38, and keeps
    both unchanged. *)
Theorem Currency_new_valid (c : string) (e : Z) :
  match Currency_new c e with
  | Ok cur =>
      cur = mkCurrency c e /\ (2 <= String.length c <= 12)%nat /\ e <= MAX_EXPONENT
      /\ string_forallb (fun x => is_ascii_uppercase x || is_ascii_digit x) c = true
  | Err (InvalidCurrency (BadCode c')) =>
      c' = c /\ ~ ((2 <= String.length c <= 12)%nat
                  /\ string_forallb (fun x => is_ascii_uppercase x || is_ascii_digit x) c = true)
  | Err (InvalidCurrency (BadExponent e')) => e' = e /\ MAX_EXPONENT < e
  | Err _ => False
  end.
Proof.
  unfold Currency_new.
  destruct (2 <=? String.length c)%nat eqn:E1, (String.length c <=? 12)%nat eqn:E2; cbn;
    rewrite ?Nat.leb_le, ?Nat.leb_gt in *; try (split; [done|lia]).
  destruct (string_forallb _ c) eqn:E3; cbn; [|split; [done|]; intros [_ ?]; discriminate].
  destruct (MAX_EXPONENT <? e) eqn:E4; split; try done; lia.
Qed.
