(* ===== verification/Messaging.v ===== *)
(** * Messaging: messages, failures, retry policy and the in-memory broker

    Models [crates/pharos-messaging/src/messaging.rs] and [dead_letter.rs]
    with the adapters [crates/pharos-memory/src/in_memory_messaging.rs] and
    [in_memory_dead_letter.rs].  The publisher, acknowledger and dead-letter
    traits are classes over a world [W]; a boxed error is the text it
    displays. *)

From S2P Require Import Prelude.
Local Open Scope Z_scope.

(** ** Messages and deliveries *)

Record Message := mkMessage {
  message_id : Uuid;
  topic : string;
  key : option string;
  headers : gmap string string;
  payload : string;
  content_type : string;
}.

#[export] Instance Message_eq_dec : EqDecision Message.
Proof. solve_decision. Defined.

(** [Message::new]; the identifier is the one drawn for it. *)
Definition Message_new (id : Uuid) (topic payload content_type : string) : Message :=
  mkMessage id topic None ∅ payload content_type.

Definition Message_with_key (k : string) (m : Message) : Message :=
  mkMessage (message_id m) (topic m) (Some k) (headers m) (payload m) (content_type m).

Definition Message_with_header (k v : string) (m : Message) : Message :=
  mkMessage (message_id m) (topic m) (key m) (<[k := v]> (headers m)) (payload m)
    (content_type m).

Record Delivery := mkDelivery { delivery_message : Message; attempt : Z }.

Definition Delivery_new (m : Message) : Delivery := mkDelivery m 1.

(** ** Failures *)

Inductive MessagingError :=
| Publish (e : string)
| Consume (e : string)
| Ack (e : string)
| Nack (e : string)
| PublishPoisoned (e : string).

Definition MessagingError_to_string (e : MessagingError) : string :=
  match e with
  | Publish e => "publish failed: " +:+ e
  | Consume e => "consume failed: " +:+ e
  | Ack e => "ack failed: " +:+ e
  | Nack e => "nack failed: " +:+ e
  | PublishPoisoned e => "publish rejected (poisoned message): " +:+ e
  end.

(** The adapters wrap their own error, here the text it displays. *)
Definition MessagingError_publish (e : string) : MessagingError := Publish e.
Definition MessagingError_consume (e : string) : MessagingError := Consume e.
Definition MessagingError_ack (e : string) : MessagingError := Ack e.
Definition MessagingError_nack (e : string) : MessagingError := Nack e.
Definition MessagingError_publish_poisoned (e : string) : MessagingError := PublishPoisoned e.

Inductive FailureKind := Transient | Poison.

Definition MessagingError_failure_kind (e : MessagingError) : FailureKind :=
  match e with
  | PublishPoisoned _ => Poison
  | _ => Transient
  end.

(** ** Traits *)

Class MessagePublisher (W : Type) : Type := {
  publish : Message -> M W (result unit MessagingError);
}.

(** The provided method: one [publish] per message, up to the first error. *)
Definition publish_batch {W} `{!MessagePublisher W} (messages : list Message)
  : M W (result unit MessagingError) := try_each publish messages.

Class MessageConsumer (W : Type) : Type := {
  next : string -> M W (result (option Delivery) MessagingError);
}.

Class MessageAcknowledger (W : Type) : Type := {
  ack : Delivery -> M W (result unit MessagingError);
  nack : Delivery -> bool -> M W (result unit MessagingError);
}.

(** ** Floating point: the [f64] and [Duration] operations backoff uses *)

Definition f64_of_Z (z : Z) : f64 := binary_normalize 53 1024 z 0 false.
Definition f64_one : f64 := f64_of_Z 1.
Definition f64_half : f64 := S754_finite false 4503599627370496 (-53).
Definition f64_mul (x y : f64) : f64 := SFmul 53 1024 x y.
Definition f64_add (x y : f64) : f64 := SFadd 53 1024 x y.
Definition f64_div (x y : f64) : f64 := SFdiv 53 1024 x y.

(** [x < y] on the numbers the data stand for; false when one is a NaN. *)
Definition f64_signed (s : bool) (m : positive) : Z := if s then Z.neg m else Z.pos m.

Definition f64_ltb (x y : f64) : bool :=
  match x, y with
  | S754_nan, _ | _, S754_nan => false
  | S754_infinity true, S754_infinity true => false
  | S754_infinity true, _ => true
  | _, S754_infinity true => false
  | S754_infinity false, _ => false
  | _, S754_infinity false => true
  | S754_zero _, S754_zero _ => false
  | S754_zero _, S754_finite s _ _ => negb s
  | S754_finite s _ _, S754_zero _ => s
  | S754_finite s1 m1 e1, S754_finite s2 m2 e2 =>
      let e := Z.min e1 e2 in
      f64_signed s1 m1 * 2 ^ (e1 - e) <? f64_signed s2 m2 * 2 ^ (e2 - e)
  end.

Definition f64_is_nan (x : f64) : bool := match x with S754_nan => true | _ => false end.

(** [f64::max] and [f64::min]: a NaN operand is ignored. *)
Definition f64_max (x y : f64) : f64 :=
  if f64_is_nan x then y else if f64_ltb x y then y else x.
Definition f64_min (x y : f64) : f64 :=
  if f64_is_nan x then y else if f64_ltb y x then y else x.

(** [f64::powi], by repeated squaring as the compiler's runtime computes it;
    32 rounds consume every [i32] exponent. *)
Fixpoint powi_loop (fuel : nat) (a r : f64) (b : Z) : f64 :=
  match fuel with
  | O => r
  | S fuel' =>
      let r' := if Z.odd b then f64_mul r a else r in
      let b' := Z.quot b 2 in
      if b' =? 0 then r' else powi_loop fuel' (f64_mul a a) r' b'
  end.

Definition f64_powi (a : f64) (b : Z) : f64 :=
  let r := powi_loop 32 a f64_one b in
  if b <? 0 then f64_div f64_one r else r.

(** [u32 as i32] *)
Definition u32_as_i32 (z : Z) : Z := if z <? 2 ^ 31 then z else z - 2 ^ 32.

Definition NANOS_PER_SEC : Z := 1000000000.
Definition Duration_MAX : Duration := 2 ^ 64 * NANOS_PER_SEC - 1.

Definition Duration_as_secs_f64 (d : Duration) : f64 :=
  f64_add (f64_of_Z (d / NANOS_PER_SEC))
    (f64_div (f64_of_Z (d mod NANOS_PER_SEC)) (f64_of_Z NANOS_PER_SEC)).

(** [n / 2^k] to the nearest integer, ties to even. *)
Definition div_pow2_nearest (n k : Z) : Z :=
  let d := 2 ^ k in
  let q := n / d in
  let r := n mod d in
  if 2 * r <? d then q else if d <? 2 * r then q + 1 else q + q mod 2.

(** The value in nanoseconds, to the nearest one. *)
Definition f64_nanos (m : positive) (e : Z) : Z :=
  if 0 <=? e then Z.pos m * NANOS_PER_SEC * 2 ^ e
  else div_pow2_nearest (Z.pos m * NANOS_PER_SEC) (- e).

(** [Duration::from_secs_f64]; [None] is its panic on a negative, NaN or too
    large argument. *)
Definition Duration_from_secs_f64 (x : f64) : option Duration :=
  match x with
  | S754_zero _ => Some 0
  | S754_finite false m e =>
      let n := f64_nanos m e in if n <=? Duration_MAX then Some n else None
  | _ => None
  end.

(** ** Retry policy *)

Inductive RetryDecision :=
| RetryAfter (d : Duration)
| DeadLetter_.

Inductive BackoffStrategy :=
| Fixed (delay : Duration)
| Exponential (base : Duration) (multiplier : f64) (max : Duration) (jitter : bool).

Section Retry.
Context {W : Type} `{!Env W}.

Definition jitter_factor : M W f64 :=
  do! r <- fastrand_f64;
  ret (f64_add f64_half (f64_mul f64_half r)).

Definition capped_secs (base : Duration) (multiplier : f64) (max : Duration) (attempt : Z)
  : f64 :=
  let exponent := Z.max 0 (attempt - 1) in
  let factor := f64_powi (f64_max multiplier f64_one) (u32_as_i32 exponent) in
  let raw := f64_mul (Duration_as_secs_f64 base) factor in
  f64_min raw (Duration_as_secs_f64 max).

(** [BackoffStrategy::delay_for]; [None] when [from_secs_f64] panics. *)
Definition BackoffStrategy_delay_for (b : BackoffStrategy) (attempt : Z)
  : M W (option Duration) :=
  match b with
  | Fixed delay => ret (Some delay)
  | Exponential base multiplier max jitter =>
      let capped := capped_secs base multiplier max attempt in
      do! scaled <-
        (if jitter then do! f <- jitter_factor; ret (f64_mul capped f) else ret capped);
      ret (Duration_from_secs_f64 (f64_max scaled (S754_zero false)))
  end.

Record RetryPolicy := mkRetryPolicy { max_attempts : Z; backoff : BackoffStrategy }.

Definition RetryPolicy_new (max_attempts : Z) (delay : Duration) : RetryPolicy :=
  mkRetryPolicy max_attempts (Fixed delay).

Definition RetryPolicy_exponential (max_attempts : Z) (base : Duration) (multiplier : f64)
  (max : Duration) : RetryPolicy :=
  mkRetryPolicy max_attempts (Exponential base multiplier max true).

Definition RetryPolicy_decide (p : RetryPolicy) (attempt : Z) : M W (option RetryDecision) :=
  if attempt <? max_attempts p
  then live! d <- BackoffStrategy_delay_for (backoff p) attempt; ret (Some (RetryAfter d))
  else ret (Some DeadLetter_).

Definition RetryPolicy_decide_for (p : RetryPolicy) (attempt : Z) (failure : FailureKind)
  : M W (option RetryDecision) :=
  match failure with
  | Poison => ret (Some DeadLetter_)
  | Transient => RetryPolicy_decide p attempt
  end.
End Retry.

(** ** Dead letters *)

Record DeadLetterMessage := mkDeadLetterMessage {
  dl_id : Uuid;
  dl_message : Message;
  dl_reason : string;
  dl_attempts : Z;
  dead_lettered_at : Instant;
}.

Inductive DeadLetterError := DLStorage (e : string).

Definition DeadLetterMessage_new {W} `{!Env W} (message : Message) (reason : string)
  (attempts : Z) : M W DeadLetterMessage :=
  do! id <- uuid_now_v7;
  do! now <- utc_now;
  ret (mkDeadLetterMessage id message reason attempts now).

Class DeadLetterQueue (W : Type) : Type := {
  dead_letter : DeadLetterMessage -> M W (result unit DeadLetterError);
  dead_letter_list : nat -> M W (result (list DeadLetterMessage) DeadLetterError);
}.

Record InMemoryDeadLetterQueue := mkInMemoryDeadLetterQueue {
  dlq_messages : list DeadLetterMessage;
}.

Definition InMemoryDeadLetterQueue_dead_letter (m : DeadLetterMessage)
  : M InMemoryDeadLetterQueue (result unit DeadLetterError) :=
  fun q => (Ok tt, mkInMemoryDeadLetterQueue (dlq_messages q ++ [m])).

Definition InMemoryDeadLetterQueue_list (limit : nat)
  : M InMemoryDeadLetterQueue (result (list DeadLetterMessage) DeadLetterError) :=
  fun q => (Ok (take limit (dlq_messages q)), q).

#[export] Instance InMemoryDeadLetterQueue_queue {W} `{!Lens W InMemoryDeadLetterQueue} :
  DeadLetterQueue W := {
  dead_letter m := zoom (InMemoryDeadLetterQueue_dead_letter m);
  dead_letter_list limit := zoom (InMemoryDeadLetterQueue_list limit);
}.

(** ** The in-memory broker *)

Record InMemoryMessageBroker := mkInMemoryMessageBroker {
  topics : gmap string (list Delivery);
  acked : gmap Uuid Delivery;
  nacked : gmap Uuid Delivery;
}.

Definition InMemoryMessageBroker_new : InMemoryMessageBroker :=
  mkInMemoryMessageBroker ∅ ∅ ∅.

Definition queue_of (b : InMemoryMessageBroker) (t : string) : list Delivery :=
  default [] (topics b !! t).

Definition queued_len (b : InMemoryMessageBroker) (t : string) : nat := length (queue_of b t).
Definition was_acked (b : InMemoryMessageBroker) (id : Uuid) : bool :=
  bool_decide (is_Some (acked b !! id)).
Definition was_nacked (b : InMemoryMessageBroker) (id : Uuid) : bool :=
  bool_decide (is_Some (nacked b !! id)).

(** [topics.entry(t).or_insert_with(..)] and [push_back] under its lock. *)
Definition push_back (t : string) (d : Delivery) (b : InMemoryMessageBroker)
  : InMemoryMessageBroker :=
  mkInMemoryMessageBroker (<[t := queue_of b t ++ [d]]> (topics b)) (acked b) (nacked b).

Definition InMemoryMessageBroker_publish (m : Message)
  : M InMemoryMessageBroker (result unit MessagingError) :=
  fun b => (Ok tt, push_back (topic m) (Delivery_new m) b).

Definition InMemoryMessageBroker_next (t : string)
  : M InMemoryMessageBroker (result (option Delivery) MessagingError) :=
  fun b => match topics b !! t with
           | None => (Ok None, b)
           | Some [] => (Ok None, b)
           | Some (d :: q) =>
               (Ok (Some d), mkInMemoryMessageBroker (<[t := q]> (topics b)) (acked b) (nacked b))
           end.

Definition InMemoryMessageBroker_ack (d : Delivery)
  : M InMemoryMessageBroker (result unit MessagingError) :=
  fun b => (Ok tt, mkInMemoryMessageBroker (topics b)
                     (<[message_id (delivery_message d) := d]> (acked b)) (nacked b)).

Definition InMemoryMessageBroker_nack (d : Delivery) (requeue : bool)
  : M InMemoryMessageBroker (result unit MessagingError) :=
  fun b =>
    let b := mkInMemoryMessageBroker (topics b) (acked b)
               (<[message_id (delivery_message d) := d]> (nacked b)) in
    (Ok tt, if requeue
            then push_back (topic (delivery_message d))
                   (mkDelivery (delivery_message d) (u32_add (attempt d) 1)) b
            else b).

Section BrokerInstances.
Context {W : Type} `{!Lens W InMemoryMessageBroker}.

#[export] Instance InMemoryMessageBroker_publisher : MessagePublisher W := {
  publish m := zoom (InMemoryMessageBroker_publish m);
}.

#[export] Instance InMemoryMessageBroker_consumer : MessageConsumer W := {
  next t := zoom (InMemoryMessageBroker_next t);
}.

#[export] Instance InMemoryMessageBroker_acknowledger : MessageAcknowledger W := {
  ack d := zoom (InMemoryMessageBroker_ack d);
  nack d requeue := zoom (InMemoryMessageBroker_nack d requeue);
}.
End BrokerInstances.

(** ** Lemmas on rounding *)

Lemma div_pow2_nearest_0 n : div_pow2_nearest n 0 = n.
Proof. unfold div_pow2_nearest. cbn. rewrite Z.div_1_r, Z.mod_1_r. done. Qed.

Lemma div_pow2_nearest_scale n j k :
  0 <= j -> 0 <= k -> div_pow2_nearest (n * 2 ^ j) (k + j) = div_pow2_nearest n k.
Proof.
  intros Hj Hk. unfold div_pow2_nearest. rewrite Z.pow_add_r by done.
  assert (0 < 2 ^ j) by (apply Z.pow_pos_nonneg; lia).
  assert (0 < 2 ^ k) by (apply Z.pow_pos_nonneg; lia).
  rewrite Z.div_mul_cancel_r, Z.mul_mod_distr_r by lia.
  set (r := n mod 2 ^ k). set (d := 2 ^ k) in *. set (s := 2 ^ j) in *.
  replace (2 * (r * s) <? d * s) with (2 * r <? d) by
    (destruct (2 * r <? d) eqn:E; symmetry; [apply Z.ltb_lt|apply Z.ltb_ge]; nia).
  replace (d * s <? 2 * (r * s)) with (d <? 2 * r) by
    (destruct (d <? 2 * r) eqn:E; symmetry; [apply Z.ltb_lt|apply Z.ltb_ge]; nia).
  done.
Qed.

Lemma div_pow2_nearest_bounds n k :
  0 <= k -> 2 * n - 2 ^ k <= 2 * (2 ^ k * div_pow2_nearest n k) <= 2 * n + 2 ^ k.
Proof.
  intros Hk. assert (0 < 2 ^ k) by (apply Z.pow_pos_nonneg; lia). unfold div_pow2_nearest.
  pose proof (Z.div_mod n (2 ^ k) ltac:(lia)). pose proof (Z.mod_pos_bound n (2 ^ k) ltac:(lia)).
  pose proof (Z.mod_pos_bound (n / 2 ^ k) 2 ltac:(lia)).
  destruct (2 * (n mod 2 ^ k) <? 2 ^ k) eqn:E1; [nia|].
  destruct (2 ^ k <? 2 * (n mod 2 ^ k)) eqn:E2; nia.
Qed.

Lemma div_pow2_nearest_mono n1 n2 k :
  0 <= k -> n1 <= n2 -> div_pow2_nearest n1 k <= div_pow2_nearest n2 k.
Proof.
  intros Hk Hn. assert (Hd : 0 < 2 ^ k) by (apply Z.pow_pos_nonneg; lia).
  destruct (Z.le_gt_cases (div_pow2_nearest n1 k) (div_pow2_nearest n2 k)) as [|Hgt]; [done|].
  exfalso. pose proof (div_pow2_nearest_bounds n1 k Hk) as B1.
  pose proof (div_pow2_nearest_bounds n2 k Hk) as B2.
  assert (n1 = n2) as <-; [|lia].
  assert (2 ^ k * div_pow2_nearest n1 k >= 2 ^ k * div_pow2_nearest n2 k + 2 ^ k) by nia.
  lia.
Qed.

Lemma f64_nanos_scale m e k :
  0 <= k -> 0 <= e + k ->
  f64_nanos m e = div_pow2_nearest (Z.pos m * NANOS_PER_SEC * 2 ^ (e + k)) k.
Proof.
  intros Hk Hek. unfold f64_nanos. destruct (0 <=? e) eqn:E.
  - rewrite Z.pow_add_r, Z.mul_assoc by lia.
    rewrite <- (Z.add_0_l k) at 2. rewrite div_pow2_nearest_scale by lia.
    by rewrite div_pow2_nearest_0.
  - rewrite <- (div_pow2_nearest_scale _ (e + k) (- e)) by lia. f_equal. lia.
Qed.

Lemma f64_nanos_mono m1 e1 m2 e2 :
  f64_ltb (S754_finite false m2 e2) (S754_finite false m1 e1) = false ->
  f64_nanos m1 e1 <= f64_nanos m2 e2.
Proof.
  cbn [f64_ltb f64_signed]. intros H. apply Z.ltb_ge in H.
  set (e := Z.min e2 e1) in *. set (k := Z.max 0 (- e)).
  rewrite (f64_nanos_scale m1 e1 k), (f64_nanos_scale m2 e2 k) by lia.
  apply div_pow2_nearest_mono; [lia|].
  assert (0 < 2 ^ (e + k)) by (apply Z.pow_pos_nonneg; lia).
  replace (e1 + k) with ((e1 - e) + (e + k)) by lia.
  replace (e2 + k) with ((e2 - e) + (e + k)) by lia.
  rewrite (Z.pow_add_r 2 (e1 - e)), (Z.pow_add_r 2 (e2 - e)) by lia.
  unfold NANOS_PER_SEC. nia.
Qed.

Lemma f64_nanos_nonneg m e : 0 <= f64_nanos m e.
Proof.
  unfold f64_nanos. destruct (0 <=? e) eqn:E.
  - assert (0 <= 2 ^ e) by (apply Z.pow_nonneg; lia). unfold NANOS_PER_SEC. nia.
  - replace 0 with (div_pow2_nearest (0 * 2 ^ (- e)) (0 + - e)) at 1
      by (by rewrite div_pow2_nearest_scale, div_pow2_nearest_0 by lia).
    replace (0 + - e) with (- e) by lia.
    apply div_pow2_nearest_mono; unfold NANOS_PER_SEC; lia.
Qed.

(** A number between zero and a convertible cap converts, below the cap. *)
Lemma from_secs_capped x c cap :
  Duration_from_secs_f64 c = Some cap ->
  exists d, Duration_from_secs_f64 (f64_max (f64_min x c) (S754_zero false)) = Some d
            /\ 0 <= d <= cap.
Proof.
  intros Hc.
  assert (Hself : exists d, Duration_from_secs_f64 (f64_max c (S754_zero false)) = Some d
                            /\ 0 <= d <= cap).
  { destruct c as [[]| | |[] m e]; cbn in Hc |- *; try discriminate; try naive_solver lia.
    pose proof (f64_nanos_nonneg m e). rewrite Hc. exists cap. split; [done|].
    destruct (f64_nanos m e <=? _); naive_solver lia. }
  unfold f64_min. destruct (f64_is_nan x) eqn:En; [done|].
  destruct (f64_ltb c x) eqn:Elt; [done|].
  assert (Hz : 0 <= cap).
  { destruct Hself as (d & _ & ?). lia. }
  destruct x as [s|[]| |[] m e]; cbn in En; try discriminate; cbn [f64_max f64_is_nan f64_ltb].
  - exists 0. split; [done|lia].
  - exists 0. split; [done|lia].
  - destruct c as [|[]| |[]]; cbn in *; discriminate.
  - exists 0. split; [done|lia].
  - destruct c as [s|s| |[] m' e']; try (cbn in Elt, Hc; discriminate).
    pose proof (f64_nanos_mono _ _ _ _ Elt). pose proof (f64_nanos_nonneg m e). cbn in Hc |- *.
    destruct (f64_nanos m' e' <=? Duration_MAX) eqn:E; [|discriminate].
    injection Hc as <-. exists (f64_nanos m e).
    replace (f64_nanos m e <=? Duration_MAX) with true by lia. split; [done|lia].
Qed.

(** ** Lemmas on the broker *)

Lemma queue_push_back t t' d b :
  queue_of (push_back t' d b) t = queue_of b t ++ (if decide (t = t') then [d] else []).
Proof.
  unfold queue_of at 1, push_back. cbn. destruct (decide (t = t')) as [->|].
  - by rewrite lookup_insert_eq.
  - rewrite lookup_insert_ne by done. by rewrite app_nil_r.
Qed.

(** The operations of the broker, as a client calls them. *)
Inductive BrokerOp :=
| OpPublish (m : Message)
| OpNext (t : string)
| OpAck (d : Delivery)
| OpNack (d : Delivery) (requeue : bool).

Definition broker_step (op : BrokerOp) (b : InMemoryMessageBroker)
  : option Delivery * InMemoryMessageBroker :=
  match op with
  | OpPublish m => (None, (InMemoryMessageBroker_publish m b).2)
  | OpNext t => let '(r, b') := InMemoryMessageBroker_next t b in
                (match r with Ok o => o | Err _ => None end, b')
  | OpAck d => (None, (InMemoryMessageBroker_ack d b).2)
  | OpNack d requeue => (None, (InMemoryMessageBroker_nack d requeue b).2)
  end.

(** What a sequence of operations hands out for topic [t], and the broker it
    leaves. *)
Fixpoint broker_run (t : string) (ops : list BrokerOp) (b : InMemoryMessageBroker)
  : list Delivery * InMemoryMessageBroker :=
  match ops with
  | [] => ([], b)
  | op :: ops =>
      let '(o, b') := broker_step op b in
      let '(out, b'') := broker_run t ops b' in
      (match op, o with
       | OpNext t', Some d => if decide (t' = t) then d :: out else out
       | _, _ => out
       end, b'')
  end.

(** What a sequence of operations asks the broker to queue for topic [t]: a
    first delivery per publication and the next attempt per requeueing
    rejection. *)
Definition enqueued (t : string) (op : BrokerOp) : list Delivery :=
  match op with
  | OpPublish m => if decide (t = topic m) then [Delivery_new m] else []
  | OpNack d true =>
      if decide (t = topic (delivery_message d))
      then [mkDelivery (delivery_message d) (u32_add (attempt d) 1)] else []
  | _ => []
  end.

(** ** Properties *)

(** A maximum of whole seconds, up to an hour, survives the way through [f64]. *)
Lemma whole_seconds_exact n :
  0 <= n <= 3600 ->
  Duration_from_secs_f64 (Duration_as_secs_f64 (n * NANOS_PER_SEC)) = Some (n * NANOS_PER_SEC).
Proof.
  set (exact k := match Duration_from_secs_f64 (Duration_as_secs_f64 (Z.of_nat k * NANOS_PER_SEC)) with
                  | Some d => d =? Z.of_nat k * NANOS_PER_SEC | None => false end).
  assert (forallb exact (seq 0 3601) = true) as H by (vm_compute; reflexivity).
  intros Hn. rewrite forallb_forall in H. specialize (H (Z.to_nat n)). unfold exact in H.
  rewrite Z2Nat.id in H by lia. specialize (H ltac:(apply in_seq; lia)).
  destruct (Duration_from_secs_f64 _); [|done]. apply Z.eqb_eq in H. by f_equal.
Qed.

(** C23: without jitter the exponential backoff yields a delay, never negative
    and never above the configured maximum as an [f64] carries it, for every
    base and multiplier, NaN and infinities included, and every attempt,
    whenever that value can be turned back into a duration.  A maximum of
    whole seconds of up to an hour is carried exactly, so the delay is then
    between zero and the maximum itself, without any further condition. *)
Theorem delay_for_capped {W} `{!Env W} (base : Duration) (multiplier : f64) (max : Duration)
  (attempt : Z) (w : W) :
  (forall cap, Duration_from_secs_f64 (Duration_as_secs_f64 max) = Some cap ->
     exists d,
       BackoffStrategy_delay_for (Exponential base multiplier max false) attempt w = (Some d, w)
       /\ 0 <= d <= cap)
  /\ (forall n, 0 <= n <= 3600 -> max = n * NANOS_PER_SEC ->
     exists d,
       BackoffStrategy_delay_for (Exponential base multiplier max false) attempt w = (Some d, w)
       /\ 0 <= d <= max).
Proof.
  assert (forall cap, Duration_from_secs_f64 (Duration_as_secs_f64 max) = Some cap ->
    exists d, BackoffStrategy_delay_for (Exponential base multiplier max false) attempt w = (Some d, w)
      /\ 0 <= d <= cap) as Hcap.
  { intros cap Hcap. destruct (from_secs_capped
      (f64_mul (Duration_as_secs_f64 base)
         (f64_powi (f64_max multiplier f64_one) (u32_as_i32 (Z.max 0 (attempt - 1)))))
      _ _ Hcap) as (d & Hd & Hr).
    exists d. split; [|done]. cbn. unfold bind, ret, capped_secs. by rewrite Hd. }
  split; [exact Hcap|]. intros n Hn ->. apply Hcap. by apply whole_seconds_exact.
Qed.

Lemma delay_for_capped_witness :
  exists d,
    BackoffStrategy_delay_for
      (Exponential 200000000 (f64_of_Z 2) (30 * NANOS_PER_SEC) false) 9 (mkWorld env_start tt)
    = (Some d, mkWorld env_start tt) /\ 0 <= d <= 30000000000.
Proof.
  refine (proj2 (delay_for_capped 200000000 (f64_of_Z 2) (30 * NANOS_PER_SEC) 9 (mkWorld env_start tt))
    30 _ _); [lia|reflexivity].
Defined.

(** The default dispatcher backoff (200 ms, doubled, capped at 30 s) gives
    200, 400, 800, 1600 ms before jitter; but a maximum of [Duration::MAX],
    the natural way to ask for no cap, panics in [from_secs_f64] once the
    growth passes it, and a zero base jumps from no delay to the maximum when
    the power overflows to infinity, because the product is then a NaN that
    [min] discards. *)
Theorem delay_for_extremes :
  let delay base max attempt :=
    (BackoffStrategy_delay_for (Exponential base (f64_of_Z 2) max false) attempt
       (mkWorld env_start tt)).1 in
  map (delay 200000000 (30 * NANOS_PER_SEC)) [1; 2; 3; 4; 9; 100]
    = map Some [200000000; 400000000; 800000000; 1600000000; 30000000000; 30000000000]
  /\ delay NANOS_PER_SEC Duration_MAX 64 = Some (2 ^ 63 * NANOS_PER_SEC)
  /\ delay NANOS_PER_SEC Duration_MAX 65 = None
  /\ delay 0 (30 * NANOS_PER_SEC) 1024 = Some 0
  /\ delay 0 (30 * NANOS_PER_SEC) 1025 = Some 30000000000.
Proof. vm_compute. repeat split. Qed.

