(* ===== verification/Outbox.v ===== *)
(** * Outbox: durable messages, the claim lease and the dead-letter sweep

    Models [crates/pharos-messaging/src/outbox.rs] and its in-memory
    repository [crates/pharos-memory/src/in_memory_outbox.rs].  The
    [OutboxRepository] trait is a class; the in-memory repository is a
    component of the world, and each of its methods an operation that reads
    the clock as often as the code does. *)

From S2P Require Import Prelude Messaging.
Local Open Scope Z_scope.

(** ** Records (outbox.rs) *)

Inductive OutboxStatus := Pending | Published | Failed | DeadLettered.

#[export] Instance OutboxStatus_eq_dec : EqDecision OutboxStatus.
Proof. solve_decision. Defined.

Record OutboxMessage := mkOutboxMessage {
  ob_id : Uuid;
  ob_message : Message;
  ob_status : OutboxStatus;
  ob_attempts : Z;
  ob_created_at : Instant;
  ob_updated_at : Instant;
  ob_next_attempt_at : Instant;
  ob_last_error : option string;
}.

#[export] Instance OutboxMessage_eq_dec : EqDecision OutboxMessage.
Proof. solve_decision. Defined.

Definition set_ob_status (s : OutboxStatus) (now : Instant) (err : option string)
  (m : OutboxMessage) : OutboxMessage :=
  mkOutboxMessage (ob_id m) (ob_message m) s (ob_attempts m) (ob_created_at m) now
    (ob_next_attempt_at m) err.

Definition set_next_attempt_at (t : Instant) (m : OutboxMessage) : OutboxMessage :=
  mkOutboxMessage (ob_id m) (ob_message m) (ob_status m) (ob_attempts m) (ob_created_at m)
    (ob_updated_at m) t (ob_last_error m).

Definition set_ob_updated_at (t : Instant) (m : OutboxMessage) : OutboxMessage :=
  mkOutboxMessage (ob_id m) (ob_message m) (ob_status m) (ob_attempts m) (ob_created_at m) t
    (ob_next_attempt_at m) (ob_last_error m).

Inductive OutboxError :=
| OutboxNotFound (id : Uuid)
| OutboxStorage (e : string).

Section OutboxMessageOps.
Context {W : Type} `{!Env W}.

Definition OutboxMessage_new (message : Message) : M W OutboxMessage :=
  do! now <- utc_now;
  do! id <- uuid_now_v7;
  ret (mkOutboxMessage id message Pending 0 now now now None).

Definition OutboxMessage_mark_published (m : OutboxMessage) : M W OutboxMessage :=
  do! now <- utc_now; ret (set_ob_status Published now None m).

Definition OutboxMessage_mark_failed (error : string) (m : OutboxMessage) : M W OutboxMessage :=
  do! now <- utc_now; ret (set_ob_status Failed now (Some error) m).

Definition OutboxMessage_record_attempt (m : OutboxMessage) : M W OutboxMessage :=
  do! now <- utc_now;
  ret (mkOutboxMessage (ob_id m) (ob_message m) (ob_status m) (u32_add (ob_attempts m) 1)
         (ob_created_at m) now (ob_next_attempt_at m) (ob_last_error m)).
End OutboxMessageOps.

(** ** The repository trait *)

Class OutboxRepository (W : Type) : Type := {
  outbox_insert : OutboxMessage -> M W (result unit OutboxError);
  outbox_pending : nat -> M W (result (list OutboxMessage) OutboxError);
  outbox_record_attempt : Uuid -> M W (result unit OutboxError);
  outbox_schedule_retry : Uuid -> Duration -> M W (result unit OutboxError);
  outbox_mark_published : Uuid -> M W (result unit OutboxError);
  outbox_mark_failed : Uuid -> string -> M W (result unit OutboxError);
  outbox_failed : nat -> M W (result (list OutboxMessage) OutboxError);
  outbox_mark_dead_lettered : Uuid -> M W (result unit OutboxError);
}.

(** The provided method: one [insert] per message, up to the first error. *)
Definition outbox_insert_many {W} `{!OutboxRepository W} (messages : list OutboxMessage)
  : M W (result unit OutboxError) := try_each outbox_insert messages.

(** ** The dead-letter sweep *)

Inductive SweepError :=
| SweepOutbox (e : OutboxError)
| SweepDeadLetter (e : DeadLetterError).

Section Sweep.
Context {W : Type} `{!Env W, !OutboxRepository W, !DeadLetterQueue W}.

(** The body of the loop for one failed message. *)
Definition sweep_one (message : OutboxMessage) : M W (result unit SweepError) :=
  let reason := default "publish failed" (ob_last_error message) in
  do! dead <- DeadLetterMessage_new (ob_message message) reason (ob_attempts message);
  try! _ <- mmap (map_err SweepDeadLetter) (dead_letter dead);
  mmap (map_err SweepOutbox) (outbox_mark_dead_lettered (ob_id message)).

Fixpoint sweep_loop (failed : list OutboxMessage) (swept : nat)
  : M W (result nat SweepError) :=
  match failed with
  | [] => ret (Ok swept)
  | message :: rest =>
      try! _ <- sweep_one message;
      sweep_loop rest (S swept)
  end.

Definition sweep_failed_to_dead_letter (limit : nat) : M W (result nat SweepError) :=
  try! failed <- mmap (map_err SweepOutbox) (outbox_failed limit);
  sweep_loop failed 0.
End Sweep.

(** ** The in-memory repository *)

Record InMemoryOutbox := mkInMemoryOutbox {
  ob_store : gmap Uuid OutboxMessage;
  claim_lease : Duration;
}.

Definition DEFAULT_CLAIM_LEASE : Duration := 30 * NANOS_PER_SEC.

Definition InMemoryOutbox_default `{!Chrono} : InMemoryOutbox :=
  mkInMemoryOutbox ∅ (default (30 * NANOS_PER_SEC) (from_std DEFAULT_CLAIM_LEASE)).

Definition InMemoryOutbox_with_claim_lease `{!Chrono} (lease : Duration) (s : InMemoryOutbox)
  : InMemoryOutbox :=
  match from_std lease with
  | Some lease => mkInMemoryOutbox (ob_store s) lease
  | None => s
  end.

Definition InMemoryOutbox_len (s : InMemoryOutbox) : nat := size (ob_store s).
Definition InMemoryOutbox_get (id : Uuid) (s : InMemoryOutbox) : option OutboxMessage :=
  ob_store s !! id.

Definition ob_put (m : OutboxMessage) (id : Uuid) (s : InMemoryOutbox) : InMemoryOutbox :=
  mkInMemoryOutbox (<[id := m]> (ob_store s)) (claim_lease s).

(** The test of both passes of [pending]. *)
Definition due (now : Instant) (m : OutboxMessage) : bool :=
  bool_decide (ob_status m = Pending) && (ob_next_attempt_at m <=? now).

(** Pass 1: the due messages in claim order, at most [limit] of them. *)
Definition pending_candidates `{!MapIter Uuid OutboxMessage} (now : Instant) (limit : nat)
  (s : InMemoryOutbox) : list (Uuid * Instant) :=
  let candidates :=
    (fun e : Uuid * OutboxMessage => (ob_id e.2, ob_created_at e.2))
      <$> filter (fun e => due now e.2 = true) (map_iter (ob_store s)) in
  take limit (sort_by_key (fun c : Uuid * Instant => (c.2, c.1)) pair_leb candidates).

(** Pass 2, one candidate: under its lock, claim it if it is still due. *)
Definition claim_one (now : Instant) (id : Uuid) (s : InMemoryOutbox)
  : option OutboxMessage * InMemoryOutbox :=
  match ob_store s !! id with
  | Some entry =>
      if due now entry then
        let entry := set_next_attempt_at (now + claim_lease s) entry in
        (Some entry, ob_put entry id s)
      else (None, s)
  | None => (None, s)
  end.

Fixpoint claim_all (now : Instant) (ids : list Uuid) (s : InMemoryOutbox)
  : list OutboxMessage * InMemoryOutbox :=
  match ids with
  | [] => ([], s)
  | id :: ids =>
      let '(o, s) := claim_one now id s in
      let '(claimed, s) := claim_all now ids s in
      (match o with Some m => m :: claimed | None => claimed end, s)
  end.

Section InMemoryOutboxOps.
Context {W : Type} `{!Env W, !Lens W InMemoryOutbox, !Chrono, !MapIter Uuid OutboxMessage}.

(** [store.get_mut(&id).ok_or(NotFound)?] and an update under the lock. *)
Definition ob_update (id : Uuid) (f : OutboxMessage -> M W (result OutboxMessage OutboxError))
  : M W (result unit OutboxError) :=
  do! s <- mget;
  match ob_store s !! id with
  | None => ret (Err (OutboxNotFound id))
  | Some message =>
      try! message <- f message;
      do! _ <- mput (ob_put message id s);
      ret (Ok tt)
  end.

Definition InMemoryOutbox_insert (m : OutboxMessage) : M W (result unit OutboxError) :=
  do! s <- mget; do! _ <- mput (ob_put m (ob_id m) s); ret (Ok tt).

Definition InMemoryOutbox_pending (limit : nat) : M W (result (list OutboxMessage) OutboxError) :=
  do! now <- utc_now;
  do! s <- mget;
  let '(claimed, s) := claim_all now (pending_candidates now limit s).*1 s in
  do! _ <- mput s;
  ret (Ok claimed).

Definition InMemoryOutbox_schedule_retry (id : Uuid) (delay : Duration)
  : M W (result unit OutboxError) :=
  ob_update id (fun message =>
    match from_std delay with
    | None => ret (Err (OutboxStorage "OutOfRangeError"))
    | Some delay =>
        do! t1 <- utc_now;
        do! t2 <- utc_now;
        ret (Ok (set_ob_updated_at t2 (set_next_attempt_at (t1 + delay) message)))
    end).

Definition InMemoryOutbox_record_attempt (id : Uuid) : M W (result unit OutboxError) :=
  ob_update id (fun m => mmap Ok (OutboxMessage_record_attempt m)).

Definition InMemoryOutbox_mark_published (id : Uuid) : M W (result unit OutboxError) :=
  ob_update id (fun m => mmap Ok (OutboxMessage_mark_published m)).

Definition InMemoryOutbox_mark_failed (id : Uuid) (error : string)
  : M W (result unit OutboxError) :=
  ob_update id (fun m => mmap Ok (OutboxMessage_mark_failed error m)).

Definition InMemoryOutbox_failed (limit : nat) : M W (result (list OutboxMessage) OutboxError) :=
  do! s <- mget;
  let messages := filter (fun m => ob_status m = Failed) (map_iter (ob_store s)).*2 in
  ret (Ok (take limit (sort_by_key (fun m => (ob_created_at m, ob_id m)) pair_leb messages))).

Definition InMemoryOutbox_mark_dead_lettered (id : Uuid) : M W (result unit OutboxError) :=
  ob_update id (fun m => do! now <- utc_now;
                         ret (Ok (set_ob_status DeadLettered now (ob_last_error m) m))).

#[export] Instance InMemoryOutbox_repository : OutboxRepository W := {
  outbox_insert := InMemoryOutbox_insert;
  outbox_pending := InMemoryOutbox_pending;
  outbox_record_attempt := InMemoryOutbox_record_attempt;
  outbox_schedule_retry := InMemoryOutbox_schedule_retry;
  outbox_mark_published := InMemoryOutbox_mark_published;
  outbox_mark_failed := InMemoryOutbox_mark_failed;
  outbox_failed := InMemoryOutbox_failed;
  outbox_mark_dead_lettered := InMemoryOutbox_mark_dead_lettered;
}.
End InMemoryOutboxOps.

#[global] Arguments InMemoryOutbox_insert : simpl never.
#[global] Arguments InMemoryOutbox_pending : simpl never.
#[global] Arguments InMemoryOutbox_schedule_retry : simpl never.
#[global] Arguments InMemoryOutbox_record_attempt : simpl never.
#[global] Arguments InMemoryOutbox_mark_published : simpl never.
#[global] Arguments InMemoryOutbox_mark_failed : simpl never.
#[global] Arguments InMemoryOutbox_failed : simpl never.
#[global] Arguments InMemoryOutbox_mark_dead_lettered : simpl never.

(** ** Specifications *)

(** Every record is stored under its own identifier. *)
Definition well_keyed (s : InMemoryOutbox) : Prop :=
  map_Forall (fun id m => ob_id m = id) (ob_store s).

(** The claim order: creation time, then identifier. *)
Definition claim_le (m1 m2 : OutboxMessage) : Prop :=
  pair_leb (ob_created_at m1, ob_id m1) (ob_created_at m2, ob_id m2) = true.

Definition leased (now : Instant) (s : InMemoryOutbox) (m : OutboxMessage) : OutboxMessage :=
  set_next_attempt_at (now + claim_lease s) m.

(** What [pending] promises: it claims the [limit] oldest due messages, in
    order, leases each of them and touches nothing else. *)
Record claims_oldest (now : Instant) (limit : nat) (s : InMemoryOutbox)
  (claimed : list OutboxMessage) (s' : InMemoryOutbox) : Prop := {
  claims_limit : (length claimed <= limit)%nat;
  claims_sorted : StronglySorted claim_le claimed;
  claims_nodup : NoDup (ob_id <$> claimed);
  claims_due m : m ∈ claimed ->
    exists m0, ob_store s !! ob_id m = Some m0 /\ due now m0 = true /\ m = leased now s m0;
  claims_complete id m0 : ob_store s !! id = Some m0 -> due now m0 = true ->
    leased now s m0 ∈ claimed
    \/ (length claimed = limit /\ forall m, m ∈ claimed -> claim_le m m0);
  claims_store id :
    ob_store s' !! id =
      if decide (id ∈ ob_id <$> claimed) then leased now s <$> ob_store s !! id
      else ob_store s !! id;
  claims_lease : claim_lease s' = claim_lease s;
}.

(** ** Lemmas on claiming *)

(** What claiming [id] yields in a store. *)
Definition claimable (now : Instant) (s : InMemoryOutbox) (id : Uuid) : option OutboxMessage :=
  m ← ob_store s !! id; if due now m then Some (leased now s m) else None.

Lemma claim_one_spec now id s :
  (claim_one now id s).1 = claimable now s id
  /\ claim_lease (claim_one now id s).2 = claim_lease s
  /\ forall id', ob_store (claim_one now id s).2 !! id' =
       if decide (id' = id) then
         match claimable now s id with Some m => Some m | None => ob_store s !! id end
       else ob_store s !! id'.
Proof.
  unfold claim_one, claimable. destruct (ob_store s !! id) as [m|] eqn:E; cbn.
  - destruct (due now m); cbn; (split; [done|split; [done|]]); intros id'.
    + destruct (decide (id' = id)) as [->|]; [by rewrite lookup_insert_eq|by rewrite lookup_insert_ne].
    + destruct (decide (id' = id)) as [->|]; done.
  - split; [done|split; [done|]]. intros id'. destruct (decide (id' = id)) as [->|]; done.
Qed.

Lemma claim_all_spec now ids s :
  NoDup ids ->
  (claim_all now ids s).1 = omap (claimable now s) ids
  /\ claim_lease (claim_all now ids s).2 = claim_lease s
  /\ forall id, ob_store (claim_all now ids s).2 !! id =
       if decide (id ∈ ids) then
         match claimable now s id with Some m => Some m | None => ob_store s !! id end
       else ob_store s !! id.
Proof.
  intros Hnd. revert s. induction Hnd as [|id ids Hni Hnd IH]; intros s; cbn.
  { split; [done|split; [done|]]. intros id. rewrite decide_False; [done|set_solver]. }
  destruct (claim_one_spec now id s) as (H1 & H2 & H3).
  destruct (claim_one now id s) as [o s1]. cbn in H1, H2, H3.
  destruct (IH s1) as (I1 & I2 & I3). destruct (claim_all now ids s1) as [c s2].
  cbn in *. subst o.
  assert (Hsame : forall id', id' <> id -> claimable now s1 id' = claimable now s id').
  { intros id' Hne. unfold claimable, leased. rewrite H3, H2, decide_False by done. done. }
  split; [|split; [congruence|]].
  - rewrite I1. rewrite (list_omap_ext (claimable now s1) (claimable now s) ids ids).
    { by destruct (claimable now s id). }
    apply Forall2_same_length_lookup. split; [done|]. intros i x y Hx Hy.
    simplify_eq. apply Hsame. intros ->. apply Hni. by eapply list_elem_of_lookup_2.
  - intros id'. rewrite I3, H3. destruct (decide (id' = id)) as [->|Hne].
    + rewrite decide_False by done. rewrite decide_True by set_solver. done.
    + rewrite Hsame by done. destruct (decide (id' ∈ ids)).
      * by rewrite decide_True by set_solver.
      * by rewrite decide_False by set_solver.
Qed.

(** The stored records that satisfy [P], in iteration order. *)
Definition select `{!MapIter Uuid OutboxMessage} (P : OutboxMessage -> Prop)
  `{!forall m, Decision (P m)} (s : InMemoryOutbox) : list OutboxMessage :=
  filter P (map_iter (ob_store s)).*2.

Definition due_messages `{!MapIter Uuid OutboxMessage} (now : Instant) (s : InMemoryOutbox)
  : list OutboxMessage := select (fun m => due now m = true) s.

Definition oldest_due `{!MapIter Uuid OutboxMessage} (now : Instant) (limit : nat)
  (s : InMemoryOutbox) : list OutboxMessage :=
  take limit (sort_by_key (fun m => (ob_created_at m, ob_id m)) pair_leb (due_messages now s)).

Lemma filter_snd {K A} (P : A -> Prop) `{!forall x, Decision (P x)} (l : list (K * A)) :
  (filter (fun e => P e.2) l).*2 = filter P l.*2.
Proof.
  induction l as [|[k a] l IH]; [done|]. rewrite fmap_cons, !filter_cons. cbn [snd].
  destruct (decide (P a)); rewrite ?fmap_cons; by rewrite IH.
Qed.

Section ClaimLemmas.
Context `{!MapIter Uuid OutboxMessage}.

Lemma pending_candidates_ids now limit s :
  (pending_candidates now limit s).*1 = ob_id <$> oldest_due now limit s.
Proof.
  unfold pending_candidates, oldest_due, due_messages, select. rewrite <- filter_snd.
  set (D := filter _ _).
  change ((fun e : Uuid * OutboxMessage => (ob_id e.2, ob_created_at e.2)) <$> D)
    with ((fun m => (ob_id m, ob_created_at m)) ∘ snd <$> D).
  rewrite list_fmap_compose, sort_by_key_fmap. cbn.
  rewrite <- fmap_take, <- list_fmap_compose. done.
Qed.

Lemma elem_of_select P `{!forall m, Decision (P m)} s m :
  well_keyed s -> m ∈ select P s <-> ob_store s !! ob_id m = Some m /\ P m.
Proof.
  intros Hk. unfold select. rewrite list_elem_of_filter, list_elem_of_fmap.
  split.
  - intros [Hd ([id m'] & -> & Hin)]. apply map_iter_elem in Hin. cbn in *.
    by rewrite (Hk _ _ Hin).
  - intros [Hl Hd]. split; [done|]. exists (ob_id m, m). split; [done|]. by apply map_iter_elem.
Qed.

Lemma NoDup_select_ids P `{!forall m, Decision (P m)} s :
  well_keyed s -> NoDup (ob_id <$> select P s).
Proof.
  intros Hk. unfold select.
  assert (He : forall l : list (Uuid * OutboxMessage),
             (forall e, e ∈ l -> ob_id e.2 = e.1) -> ob_id <$> l.*2 = l.*1).
  { intros l Hl. rewrite <- list_fmap_compose. apply list_fmap_ext.
    intros i e He. apply Hl. by eapply list_elem_of_lookup_2. }
  eapply sublist_NoDup; [|apply fmap_sublist, sublist_filter].
  rewrite He; [apply map_iter_NoDup_keys|].
  intros [id m] Hin. apply map_iter_elem in Hin. cbn. by apply Hk.
Qed.

Lemma elem_of_due_messages now s m :
  well_keyed s ->
  m ∈ due_messages now s <-> ob_store s !! ob_id m = Some m /\ due now m = true.
Proof. apply elem_of_select. Qed.

Lemma oldest_due_elem now limit s m :
  m ∈ oldest_due now limit s -> m ∈ due_messages now s.
Proof.
  intros (i & Hi & _)%elem_of_take. apply list_elem_of_lookup_2 in Hi.
  by rewrite sort_by_key_perm in Hi.
Qed.

Lemma NoDup_oldest_ids now limit s : well_keyed s -> NoDup (ob_id <$> oldest_due now limit s).
Proof.
  intros Hk. unfold oldest_due. rewrite fmap_take.
  eapply sublist_NoDup; [|apply sublist_take].
  rewrite sort_by_key_perm. by apply NoDup_select_ids.
Qed.

Lemma claimable_oldest now limit s :
  well_keyed s ->
  omap (claimable now s) (ob_id <$> oldest_due now limit s)
  = leased now s <$> oldest_due now limit s.
Proof.
  intros Hk. assert (H : Forall (fun m => claimable now s (ob_id m) = Some (leased now s m))
                           (oldest_due now limit s)).
  { apply Forall_forall. intros m Hm%oldest_due_elem.
    apply elem_of_due_messages in Hm as [Hl Hd]; [|done].
    unfold claimable. by rewrite Hl; cbn; rewrite Hd. }
  induction H as [|m l Hm _ IH]; [done|]. cbn. rewrite Hm. f_equal. exact IH.
Qed.

Lemma oldest_due_rest now limit s m :
  m ∈ due_messages now s -> m ∉ oldest_due now limit s ->
  length (oldest_due now limit s) = limit
  /\ forall m', m' ∈ oldest_due now limit s -> claim_le m' m.
Proof.
  unfold oldest_due. set (k := fun m => _). intros Hm Hn.
  pose proof (sort_by_key_sorted k pair_leb pair_leb_total pair_leb_trans (due_messages now s)) as Hs.
  rewrite <- (sort_by_key_perm k pair_leb) in Hm. set (l := sort_by_key _ _ _) in *.
  rewrite <- (take_drop limit l) in Hm, Hs. apply elem_of_app in Hm as [Hm|Hm]; [done|].
  split.
  - apply length_take_le. destruct (decide (limit <= length l)%nat); [done|].
    rewrite drop_ge in Hm by lia. by apply elem_of_nil in Hm.
  - intros m' Hm'. exact (StronglySorted_app_1_elem_of _ _ _ _ _ Hs Hm' Hm).
Qed.

Lemma claim_all_oldest now limit s :
  well_keyed s ->
  let '(claimed, s') := claim_all now (pending_candidates now limit s).*1 s in
  claimed = leased now s <$> oldest_due now limit s /\ claims_oldest now limit s claimed s'.
Proof.
  intros Hk. rewrite pending_candidates_ids.
  destruct (claim_all_spec now (ob_id <$> oldest_due now limit s) s) as (H1 & H2 & H3);
    [by apply NoDup_oldest_ids|].
  rewrite claimable_oldest in H1 by done.
  destruct (claim_all _ _ _) as [claimed s']. cbn in *. subst claimed. split; [done|].
  assert (Hids : ob_id <$> (leased now s <$> oldest_due now limit s)
                 = ob_id <$> oldest_due now limit s)
    by (by rewrite <- list_fmap_compose).
  constructor.
  - rewrite length_fmap. unfold oldest_due. rewrite length_take. lia.
  - eapply StronglySorted_fmap; [|unfold oldest_due; eapply StronglySorted_app_1_l].
    + exact (fun x y H => H).
    + rewrite take_drop. apply sort_by_key_sorted; auto with pharos.
      exact pair_leb_trans.
  - rewrite Hids. by apply NoDup_oldest_ids.
  - intros m (m0 & -> & Hm0)%list_elem_of_fmap.
    apply oldest_due_elem, elem_of_due_messages in Hm0 as [? ?]; [|done]. by exists m0.
  - intros id m0 Hl Hd. pose proof (Hk _ _ Hl) as Hid. cbn in Hid. subst id.
    destruct (decide (m0 ∈ oldest_due now limit s)) as [Hin|Hni];
      [left; by apply list_elem_of_fmap_2|right].
    destruct (oldest_due_rest now limit s m0) as [Hlen Hle];
      [by apply elem_of_due_messages|done|].
    split; [by rewrite length_fmap|]. intros m (m1 & -> & Hm1)%list_elem_of_fmap.
    by apply Hle in Hm1.
  - intros id. rewrite H3, Hids. destruct (decide _) as [Hin|]; [|done].
    apply list_elem_of_fmap in Hin as (m & -> & Hm).
    apply oldest_due_elem, elem_of_due_messages in Hm as [Hl Hd]; [|done].
    unfold claimable. by rewrite Hl; cbn; rewrite Hd.
  - done.
Qed.
End ClaimLemmas.

(** ** Lemmas on the repository's methods *)

(** The methods that update one entry, and what each writes at time [now]. *)
Inductive EntryOp :=
| ERecordAttempt
| EMarkPublished
| EMarkFailed (error : string)
| EMarkDeadLettered.

Definition entry_effect (op : EntryOp) (now : Instant) (m : OutboxMessage) : OutboxMessage :=
  match op with
  | ERecordAttempt =>
      mkOutboxMessage (ob_id m) (ob_message m) (ob_status m) (u32_add (ob_attempts m) 1)
        (ob_created_at m) now (ob_next_attempt_at m) (ob_last_error m)
  | EMarkPublished => set_ob_status Published now None m
  | EMarkFailed error => set_ob_status Failed now (Some error) m
  | EMarkDeadLettered => set_ob_status DeadLettered now (ob_last_error m) m
  end.

Section MethodLemmas.
Context {W : Type} `{!Env W, !Lens W InMemoryOutbox, !LensLaws W InMemoryOutbox,
  !EnvFrame W InMemoryOutbox, !Chrono, !MapIter Uuid OutboxMessage}.

Definition entry_method (op : EntryOp) (id : Uuid) : M W (result unit OutboxError) :=
  match op with
  | ERecordAttempt => InMemoryOutbox_record_attempt id
  | EMarkPublished => InMemoryOutbox_mark_published id
  | EMarkFailed error => InMemoryOutbox_mark_failed id error
  | EMarkDeadLettered => InMemoryOutbox_mark_dead_lettered id
  end.

Lemma entry_method_spec op id (w : W) :
  entry_method op id w =
  match ob_store (lget w) !! id with
  | None => (Err (OutboxNotFound id), w)
  | Some m => (Ok tt, lset (ob_put (entry_effect op (utc_now w).1 m) id (lget w)) (utc_now w).2)
  end.
Proof.
  destruct op; cbn;
    unfold InMemoryOutbox_record_attempt, InMemoryOutbox_mark_published,
      InMemoryOutbox_mark_failed, InMemoryOutbox_mark_dead_lettered, ob_update,
      OutboxMessage_record_attempt, OutboxMessage_mark_published, OutboxMessage_mark_failed,
      bind, tbind, mmap, mget, mput, ret;
    destruct (ob_store (lget w) !! id) as [m|]; cbn; try done;
    by destruct (utc_now w) as [now w'].
Qed.

Lemma pending_method_spec limit (w : W) :
  InMemoryOutbox_pending limit w =
  let '(now, w') := utc_now w in
  let '(claimed, s') := claim_all now (pending_candidates now limit (lget w)).*1 (lget w) in
  (Ok claimed, lset s' w').
Proof.
  unfold InMemoryOutbox_pending, bind, mget, mput, ret.
  pose proof (utc_now_frame w) as Hf. destruct (utc_now w) as [now w']. cbn in Hf.
  rewrite Hf. by destruct (claim_all _ _ _).
Qed.

Lemma entry_effect_id op now m : ob_id (entry_effect op now m) = ob_id m.
Proof. by destruct op. Qed.

Lemma well_keyed_put m s : well_keyed s -> well_keyed (ob_put m (ob_id m) s).
Proof. intros Hs. apply map_Forall_insert_2; done. Qed.

Lemma well_keyed_claims now limit s claimed s' :
  claims_oldest now limit s claimed s' -> well_keyed s -> well_keyed s'.
Proof.
  intros Hc Hk id m. rewrite (claims_store _ _ _ _ _ Hc).
  destruct (decide _); [|apply Hk].
  intros (m0 & Hl & ->)%fmap_Some_1. cbn. by apply (Hk _ _ Hl).
Qed.
End MethodLemmas.

(** ** Concurrent callers

    Every access of the store locks one entry, so concurrent callers
    interleave entry by entry: a claim attempt of pass 2 (with the instant
    its caller read at the start), a one-entry update, a rescheduling, an
    insertion. *)

Inductive OutboxEvent :=
| EvClaim (now : Instant) (id : Uuid) (claimed : option OutboxMessage)
| EvEntry (op : EntryOp) (now : Instant) (id : Uuid)
| EvRetry (id : Uuid) (next : Instant)
| EvInsert (m : OutboxMessage).

Inductive outbox_step : InMemoryOutbox -> OutboxEvent -> InMemoryOutbox -> Prop :=
| step_claim s now id :
    outbox_step s (EvClaim now id (claim_one now id s).1) (claim_one now id s).2
| step_entry s op now id m :
    ob_store s !! id = Some m ->
    outbox_step s (EvEntry op now id) (ob_put (entry_effect op now m) id s)
| step_retry s id m next now :
    ob_store s !! id = Some m ->
    outbox_step s (EvRetry id next)
      (ob_put (set_ob_updated_at now (set_next_attempt_at next m)) id s)
| step_insert s m :
    outbox_step s (EvInsert m) (ob_put m (ob_id m) s).

Inductive outbox_steps : InMemoryOutbox -> list OutboxEvent -> InMemoryOutbox -> Prop :=
| steps_nil s : outbox_steps s [] s
| steps_cons s ev s1 evs s2 :
    outbox_step s ev s1 -> outbox_steps s1 evs s2 -> outbox_steps s (ev :: evs) s2.

(** The event makes [id] due by [t]: a rescheduling, or another insertion of
    a row under that identifier. *)
Definition frees_lease (t : Instant) (id : Uuid) (ev : OutboxEvent) : Prop :=
  match ev with
  | EvRetry id' next => id' = id /\ next <= t
  | EvInsert m => ob_id m = id /\ ob_next_attempt_at m <= t
  | _ => False
  end.

#[export] Instance frees_lease_dec t id ev : Decision (frees_lease t id ev).
Proof. destruct ev; cbn; apply _. Defined.

(** The entry of [id] is not due before [t0]. *)
Definition held_until (t0 : Instant) (id : Uuid) (s : InMemoryOutbox) : Prop :=
  exists m, ob_store s !! id = Some m /\ t0 <= ob_next_attempt_at m.

Lemma claim_one_held now id s m :
  (claim_one now id s).1 = Some m ->
  held_until (now + claim_lease s) id (claim_one now id s).2
  /\ forall t0, held_until t0 id s -> t0 <= now.
Proof.
  destruct (claim_one_spec now id s) as (H1 & H2 & H3). rewrite H1.
  unfold claimable. destruct (ob_store s !! id) as [m0|] eqn:E; [|done]. cbn.
  destruct (due now m0) eqn:Ed; [|done]. intros [= <-]. split.
  - exists (leased now s m0). rewrite H3, decide_True by done.
    unfold claimable. rewrite E. cbn. rewrite Ed. split; [done|]. cbn. lia.
  - intros t0 (m & Hm & Hu). simplify_eq. unfold due in Ed.
    apply andb_true_iff in Ed as [_ Ed]. lia.
Qed.

Lemma outbox_step_lease s ev s' : outbox_step s ev s' -> claim_lease s' = claim_lease s.
Proof. destruct 1; try done. apply claim_one_spec. Qed.

Lemma outbox_step_held t0 id s ev s' :
  0 <= claim_lease s -> outbox_step s ev s' -> ~ frees_lease (t0 - 1) id ev ->
  held_until t0 id s -> held_until t0 id s'.
Proof.
  intros Hl Hs Hk (m & Hm & Hu). destruct Hs as [s now id'|s op now id' m' Hm'|s id' m' nx now Hm'|s m'];
    cbn in Hk.
  - destruct ((claim_one now id' s).1) as [c|] eqn:Ec.
    + destruct (decide (id' = id)) as [->|Hne].
      * destruct (claim_one_held _ _ _ _ Ec) as [(m' & ? & ?) Hb].
        exists m'. split; [done|]. specialize (Hb t0 ltac:(by exists m)). lia.
      * exists m. split; [|done].
        destruct (claim_one_spec now id' s) as (_ & _ & ->). by rewrite decide_False.
    + destruct (claim_one_spec now id' s) as (H1 & _ & H3). rewrite Ec in H1.
      exists m. split; [|done]. rewrite H3, <- H1. by destruct (decide (id = id')) as [<-|].
  - destruct (decide (id' = id)) as [->|Hne].
    + assert (m' = m) as -> by congruence. exists (entry_effect op now m). cbn. rewrite lookup_insert_eq.
      split; [done|]. by destruct op.
    + exists m. cbn. by rewrite lookup_insert_ne.
  - destruct (decide (id' = id)) as [->|Hne]; [|exists m; cbn; by rewrite lookup_insert_ne].
    eexists. cbn. rewrite lookup_insert_eq. split; [done|]. cbn. apply Z.nlt_ge. intros Hlt. apply Hk. lia.
  - destruct (decide (ob_id m' = id)) as [<-|Hne]; [|exists m; cbn; by rewrite lookup_insert_ne].
    exists m'. cbn. rewrite lookup_insert_eq. split; [done|]. apply Z.nlt_ge. intros Hlt. apply Hk. lia.
Qed.

Lemma outbox_steps_held t0 id s evs s' :
  0 <= claim_lease s -> outbox_steps s evs s' -> Forall (fun ev => ~ frees_lease (t0 - 1) id ev) evs ->
  held_until t0 id s -> held_until t0 id s' /\ claim_lease s' = claim_lease s.
Proof.
  intros Hl Hs. induction Hs as [|s ev s1 evs s2 H1 _ IH]; intros Hk Hh; [done|].
  inversion Hk; subst. pose proof (outbox_step_lease _ _ _ H1) as E.
  rewrite <- E. apply IH; [lia|done|]. by eapply outbox_step_held.
Qed.

Lemma outbox_steps_app s evs1 evs2 s' :
  outbox_steps s (evs1 ++ evs2) s' ->
  exists s1, outbox_steps s evs1 s1 /\ outbox_steps s1 evs2 s'.
Proof.
  revert s. induction evs1 as [|ev evs1 IH]; intros s H; cbn in *.
  - exists s. split; [constructor|done].
  - inversion H as [|? ? s2 ? ? H1 H2]; subst. destruct (IH s2 H2) as (s1 & ? & ?).
    exists s1. split; [by econstructor|done].
Qed.

(** ** Lemmas on the sweep *)

Section SweepLemmas.
Context {W : Type} `{!Env W, !Lens W InMemoryOutbox, !LensLaws W InMemoryOutbox,
  !Lens W InMemoryDeadLetterQueue, !LensLaws W InMemoryDeadLetterQueue,
  !EnvFrame W InMemoryOutbox, !EnvFrame W InMemoryDeadLetterQueue,
  !LensDisjoint W InMemoryOutbox InMemoryDeadLetterQueue,
  !LensDisjoint W InMemoryDeadLetterQueue InMemoryOutbox,
  !Chrono, !MapIter Uuid OutboxMessage}.

Let outbox (w : W) : gmap Uuid OutboxMessage := ob_store (lget w).
Let parked (w : W) : list DeadLetterMessage := dlq_messages (lget w).

(** The dead letter [d] carries the message, reason and attempts of [m]. *)
Definition parks (m : OutboxMessage) (d : DeadLetterMessage) : Prop :=
  dl_message d = ob_message m
  /\ dl_reason d = default "publish failed" (ob_last_error m)
  /\ dl_attempts d = ob_attempts m.

(** [m'] is [m] marked dead-lettered. *)
Definition dead_lettered (m m' : OutboxMessage) : Prop :=
  exists now, m' = set_ob_status DeadLettered now (ob_last_error m) m.

Lemma sweep_one_spec m w :
  outbox w !! ob_id m = Some m ->
  exists w' d m', sweep_one m w = (Ok tt, w') /\ parks m d /\ dead_lettered m m'
    /\ parked w' = parked w ++ [d] /\ outbox w' = <[ob_id m := m']> (outbox w).
Proof.
  intros Hl. unfold sweep_one, DeadLetterMessage_new, bind, tbind, mmap, ret. cbn.
  pose proof (uuid_now_v7_frame (S := InMemoryOutbox) w) as F1.
  pose proof (uuid_now_v7_frame (S := InMemoryDeadLetterQueue) w) as F1'.
  destruct (uuid_now_v7 w) as [id w1]. cbn in F1, F1'.
  pose proof (utc_now_frame (S := InMemoryOutbox) w1) as F2.
  pose proof (utc_now_frame (S := InMemoryDeadLetterQueue) w1) as F2'.
  destruct (utc_now w1) as [now w2]. cbn in F2, F2' |- *.
  unfold zoom, InMemoryDeadLetterQueue_dead_letter. cbn.
  set (w3 := lset _ w2).
  pose proof (entry_method_spec EMarkDeadLettered (ob_id m) w3) as Hmd.
  cbn [entry_method] in Hmd. rewrite Hmd. unfold outbox in Hl.
  assert (Ho : lget w3 = lget w :> InMemoryOutbox)
    by (unfold w3; rewrite lget_lset_other; congruence).
  rewrite Ho, Hl. cbn.
  eexists _, (mkDeadLetterMessage id (ob_message m) _ (ob_attempts m) now), _.
  split; [done|]. split; [done|].
  split; [by eexists|]. unfold parked, outbox.
  rewrite lget_lset_other, utc_now_frame, lget_lset. unfold w3.
  rewrite lget_lset, F2', F1'. done.
Qed.

Lemma sweep_loop_spec ms n w :
  NoDup (ob_id <$> ms) -> Forall (fun m => outbox w !! ob_id m = Some m) ms ->
  exists w' ds, sweep_loop ms n w = (Ok (n + length ms)%nat, w')
    /\ Forall2 parks ms ds /\ parked w' = parked w ++ ds
    /\ (forall id, id ∉ ob_id <$> ms -> outbox w' !! id = outbox w !! id)
    /\ Forall (fun m => exists m', outbox w' !! ob_id m = Some m' /\ dead_lettered m m') ms.
Proof.
  revert n w. induction ms as [|m ms IH]; intros n w Hnd Hall.
  { exists w, []. rewrite Nat.add_0_r, app_nil_r. by repeat split. }
  apply NoDup_cons in Hnd as [Hni Hnd]. apply Forall_cons in Hall as [Hm Hall].
  destruct (sweep_one_spec m w Hm) as (w1 & d & m' & E1 & Hp & Hd & Hq & Ho).
  destruct (IH (S n) w1 Hnd) as (w2 & ds & E2 & Hps & Hq2 & Hrest & Hdone).
  { apply Forall_forall. intros x Hx. rewrite Ho, lookup_insert_ne.
    - rewrite Forall_forall in Hall. by apply Hall.
    - intros Heq. apply Hni. rewrite Heq. by apply list_elem_of_fmap_2. }
  exists w2, (d :: ds). split; [|split; [by constructor|split; [|split]]].
  - cbn. unfold tbind. rewrite E1, E2. do 2 f_equal. lia.
  - by rewrite Hq2, Hq, <- app_assoc.
  - intros id Hid. cbn in Hid. apply not_elem_of_cons in Hid as [Hne Hid].
    by rewrite Hrest, Ho, lookup_insert_ne by done.
  - constructor; [|done]. exists m'. by rewrite Hrest, Ho, lookup_insert_eq by done.
Qed.
End SweepLemmas.

(** ** Properties *)

(** C6: [pending] of the in-memory repository claims exactly the oldest due
    messages: at most [limit], in (creation time, id) order, each of them
    pending and due at the instant read, every due message left out coming
    later than all those claimed with the limit reached; the claimed entries
    and no others are leased until now plus the claim lease. *)
Theorem InMemoryOutbox_pending_claims_oldest {W}
  `{!Env W, !Lens W InMemoryOutbox, !LensLaws W InMemoryOutbox, !EnvFrame W InMemoryOutbox,
    !MapIter Uuid OutboxMessage} (limit : nat) (w : W) :
  well_keyed (lget w) ->
  exists claimed w',
    InMemoryOutbox_pending limit w = (Ok claimed, w')
    /\ claims_oldest (utc_now w).1 limit (lget w) claimed (lget w')
    /\ well_keyed (lget w').
Proof.
  intros Hk. rewrite pending_method_spec.
  destruct (utc_now w) as [now w1]. cbn [fst].
  pose proof (claim_all_oldest now limit (lget w) Hk) as H.
  destruct (claim_all _ _ _) as [claimed s']. destruct H as [_ H].
  exists claimed, (lset s' w1). rewrite lget_lset. split; [done|]. split; [done|].
  by eapply well_keyed_claims.
Qed.

(** Three messages: the first two due, the second of them older. *)
Definition sample_outbox : InMemoryOutbox :=
  let msg id created next :=
    mkOutboxMessage id (Message_new id "orders" "{}" "application/json") Pending 0 created created
      next None in
  mkInMemoryOutbox
    (<[1 := msg 1 (-5) (-5)]> (<[2 := msg 2 (-9) (-9)]> (<[3 := msg 3 (-7) 1000]> ∅)))
    (30 * NANOS_PER_SEC).

Lemma sample_outbox_keyed : well_keyed sample_outbox.
Proof. apply (bool_decide_unpack _). vm_compute. exact I. Qed.

Lemma InMemoryOutbox_pending_claims_oldest_witness :
  exists claimed w',
    InMemoryOutbox_pending 10 (mkWorld env_start sample_outbox) = (Ok claimed, w')
    /\ claims_oldest 0 10 sample_outbox claimed (lget w') /\ well_keyed (lget w').
Proof.
  exact (InMemoryOutbox_pending_claims_oldest 10 (mkWorld env_start sample_outbox)
           sample_outbox_keyed).
Defined.

(** C7: the claim lease excludes: however concurrent callers interleave their
    accesses to the repository, two claims of a message that both succeed lie
    at least the lease apart, or else somewhere between them the message was
    rescheduled, or inserted again, for a time the second claim had reached.
    So two dispatchers whose clocks agree to within the lease never both hold
    a message that nobody gave back early. *)
Theorem claim_lease_exclusive (s s' : InMemoryOutbox) (id : Uuid) (now1 now2 : Instant)
  (m1 m2 : OutboxMessage) (mid : list OutboxEvent) :
  0 <= claim_lease s ->
  outbox_steps s (EvClaim now1 id (Some m1) :: mid ++ [EvClaim now2 id (Some m2)]) s' ->
  now1 + claim_lease s <= now2 \/ Exists (frees_lease now2 id) mid.
Proof.
  intros Hl Hs. destruct (decide (Exists (frees_lease now2 id) mid)) as [|Hno]; [by right|left].
  apply not_Exists_Forall in Hno; [|apply _].
  inversion Hs as [|? ? s1 ? ? Hfirst Hrest]; subst. clear Hs.
  apply outbox_steps_app in Hrest as (s2 & Hm & Hlast).
  pose proof (outbox_step_lease _ _ _ Hfirst) as El. inversion Hfirst as [? ? ? Hc| | |]; subst.
  destruct (claim_one_held now1 id s m1) as [Hh _]; [done|].
  assert (Hl' : 0 <= claim_lease (claim_one now1 id s).2) by (by rewrite El).
  set (t := Z.min (now1 + claim_lease s) (now2 + 1)).
  assert (held_until t id (claim_one now1 id s).2) as Ht
    by (destruct Hh as (m & Hm' & Hle); exists m; split; [done|lia]).
  destruct (outbox_steps_held t id _ _ _ Hl' Hm) as [Hh2 _]; [|done|].
  { eapply Forall_impl; [exact Hno|]. intros ev Hev Hf. apply Hev. revert Hf.
    destruct ev; cbn; try done; intros [? ?]; (split; [done|lia]). }
  inversion Hlast as [|? ? ? ? ? Hend _]; subst. inversion Hend; subst.
  destruct (claim_one_held now2 id s2 m2) as [_ Hb]; [done|]. specialize (Hb _ Hh2). lia.
Qed.

(** The dead-letter sweep over the in-memory stores parks the oldest
    failed messages, at most [limit], each exactly once: one dead letter per
    message with its body, reason and attempt count, in order, each swept
    record moved to the dead-lettered state and no other record touched. *)
Theorem sweep_parks_failed {W}
  `{!Env W, !Lens W InMemoryOutbox, !LensLaws W InMemoryOutbox,
    !Lens W InMemoryDeadLetterQueue, !LensLaws W InMemoryDeadLetterQueue,
    !EnvFrame W InMemoryOutbox, !EnvFrame W InMemoryDeadLetterQueue,
    !LensDisjoint W InMemoryOutbox InMemoryDeadLetterQueue,
    !LensDisjoint W InMemoryDeadLetterQueue InMemoryOutbox,
    !Chrono, !MapIter Uuid OutboxMessage} (limit : nat) (w : W) :
  well_keyed (lget w) ->
  exists w' ds ms,
    sweep_failed_to_dead_letter limit w = (Ok (length ms), w')
    /\ (exists rest, ms ++ rest ≡ₚ select (fun m => ob_status m = Failed) (lget w)
          /\ length ms = Nat.min limit (length (ms ++ rest))
          /\ StronglySorted claim_le (ms ++ rest))
    /\ Forall2 parks ms ds
    /\ dlq_messages (lget w') = dlq_messages (lget w) ++ ds
    /\ (forall id, id ∉ ob_id <$> ms -> ob_store (lget w') !! id = ob_store (lget w) !! id)
    /\ Forall (fun m => exists m', ob_store (lget w') !! ob_id m = Some m'
                                  /\ dead_lettered m m') ms.
Proof.
  intros Hk. set (F := select (fun m => ob_status m = Failed) (lget w)).
  set (k := fun m => (ob_created_at m, ob_id m)). set (l := sort_by_key k pair_leb F).
  destruct (sweep_loop_spec (take limit l) 0 w) as (w' & ds & E & H1 & H2 & H3 & H4).
  - rewrite fmap_take. eapply sublist_NoDup; [|apply sublist_take].
    unfold l. rewrite sort_by_key_perm. by apply NoDup_select_ids.
  - apply Forall_take. unfold l. rewrite sort_by_key_perm. apply Forall_forall.
    intros m Hm. by apply elem_of_select in Hm as [? _].
  - exists w', ds, (take limit l). split; [exact E|].
    split; [|by repeat split]. exists (drop limit l). rewrite take_drop. split; [|split].
    + apply sort_by_key_perm.
    + apply length_take.
    + apply sort_by_key_sorted; [apply pair_leb_total|apply pair_leb_trans].
Qed.

(** Message 7 is claimed at 0, its attempt is recorded, and it is claimed
    again when the lease of 10 has run out. *)
Definition lease_store : InMemoryOutbox :=
  mkInMemoryOutbox
    {[7 := mkOutboxMessage 7 (Message_new 7 "t" "" "") Pending 0 0 0 0 None]} 10.

Lemma claim_lease_exclusive_witness :
  exists s' m1 m2,
    outbox_steps lease_store
      (EvClaim 0 7 (Some m1) :: [EvEntry ERecordAttempt 1 7] ++ [EvClaim 12 7 (Some m2)]) s'
    /\ 0 + claim_lease lease_store <= 12.
Proof.
  assert (H : exists s' m1 m2, outbox_steps lease_store
      (EvClaim 0 7 (Some m1) :: [EvEntry ERecordAttempt 1 7] ++ [EvClaim 12 7 (Some m2)]) s').
  { eexists _, _, _. eapply steps_cons; [exact (step_claim _ 0 7)|].
    eapply steps_cons; [apply step_entry; vm_compute; reflexivity|].
    eapply steps_cons; [exact (step_claim _ 12 7)|apply steps_nil]. }
  destruct H as (s' & m1 & m2 & H). exists s', m1, m2. split; [exact H|].
  destruct (claim_lease_exclusive lease_store s' 7 0 12 m1 m2 [EvEntry ERecordAttempt 1 7]) as [Hle|Hf].
  - vm_compute. discriminate.
  - exact H.
  - exact Hle.
  - exfalso. inversion Hf as [? ? Hx|? ? Hx]; [exact Hx|inversion Hx].
Defined.

(** The second case does happen: a stale dispatcher reschedules the message
    under the one that claimed it at 0, and a claim at 2 succeeds. *)
Example stale_retry_frees :
  exists s' m1 m2, outbox_steps lease_store
    [EvClaim 0 7 (Some m1); EvRetry 7 1; EvClaim 2 7 (Some m2)] s' /\ 2 < 0 + claim_lease lease_store.
Proof.
  eexists _, _, _. split; [|vm_compute; reflexivity].
  eapply steps_cons; [exact (step_claim _ 0 7)|].
  eapply steps_cons; [eapply (step_retry _ 7 _ 1 1); vm_compute; reflexivity|].
  eapply steps_cons; [exact (step_claim _ 2 7)|apply steps_nil].
Qed.

Definition sweep_world : World (InMemoryOutbox * InMemoryDeadLetterQueue) :=
  mkWorld env_start
    (mkInMemoryOutbox
       {[7 := mkOutboxMessage 7 (Message_new 7 "t" "" "") Failed 5 0 0 0 (Some "rejected")]} 10,
     mkInMemoryDeadLetterQueue []).

Lemma sweep_parks_failed_witness :
  exists w' ds ms,
    sweep_failed_to_dead_letter 10 sweep_world = (Ok (length ms), w')
    /\ Forall2 parks ms ds /\ dlq_messages (lget w') = [] ++ ds.
Proof.
  destruct (sweep_parks_failed 10 sweep_world) as (w' & ds & ms & H1 & _ & H2 & H3 & _).
  - apply (bool_decide_unpack _). vm_compute. exact I.
  - exists w', ds, ms. split; [exact H1|split; [exact H2|exact H3]].
Defined.
