(* ===== verification/OutboxDispatcher.v ===== *)
(** * OutboxDispatcher: publishing claimed messages, lane by lane

    Models [crates/pharos-messaging/src/outbox_dispatcher.rs] over any
    repository and publisher.  [dispatch_one], [dispatch_lane] and
    [dispatch_pending] follow the code call by call for the default
    concurrency of one, where [buffer_unordered] runs the lanes one after the
    other; for a larger concurrency the lanes become the threads of a
    transition system ([pool_step]) that interleaves their awaited calls. *)

From S2P Require Import Prelude Messaging Outbox.

(** ** Configuration and results *)

Record DispatchConfig := mkDispatchConfig {
  batch_size : nat;
  retry : RetryPolicy;
  concurrency : nat;
}.

Definition DispatchConfig_default : DispatchConfig :=
  mkDispatchConfig 100
    (mkRetryPolicy 5 (Exponential 200000000 (f64_of_Z 2) (30 * NANOS_PER_SEC) true)) 1.

Definition DispatchConfig_new (batch_size : nat) (retry : RetryPolicy) : DispatchConfig :=
  mkDispatchConfig batch_size retry (concurrency DispatchConfig_default).
Definition DispatchConfig_with_batch_size (n : nat) (c : DispatchConfig) : DispatchConfig :=
  mkDispatchConfig n (retry c) (concurrency c).
Definition DispatchConfig_with_retry (r : RetryPolicy) (c : DispatchConfig) : DispatchConfig :=
  mkDispatchConfig (batch_size c) r (concurrency c).
Definition DispatchConfig_with_concurrency (n : nat) (c : DispatchConfig) : DispatchConfig :=
  mkDispatchConfig (batch_size c) (retry c) n.

Inductive OutboxDispatchError :=
| DispatchOutbox (e : OutboxError)
| DispatchMessaging (e : MessagingError).

Record DispatchResult := mkDispatchResult {
  published : nat;
  errors : list OutboxDispatchError;
}.

Definition DispatchResult_default : DispatchResult := mkDispatchResult 0 [].
Definition DispatchResult_is_ok (r : DispatchResult) : bool :=
  match errors r with [] => true | _ => false end.
Definition DispatchResult_failure_count (r : DispatchResult) : nat := length (errors r).

(** ** Lanes

    One lane per routing key, in claim order, and one per key-less message.
    [lanes[index].push] on an index of the map. *)

Definition lane_push (st : list (list OutboxMessage) * gmap string nat) (message : OutboxMessage)
  : list (list OutboxMessage) * gmap string nat :=
  let '(lanes, lane_by_key) := st in
  match key (ob_message message) with
  | Some k =>
      match lane_by_key !! k with
      | Some index => (alter (fun lane => lane ++ [message]) index lanes, lane_by_key)
      | None => (lanes ++ [[message]], <[k := length lanes]> lane_by_key)
      end
  | None => (lanes ++ [[message]], lane_by_key)
  end.

Definition partition_lanes (pending : list OutboxMessage) : list (list OutboxMessage) :=
  (foldl lane_push ([], ∅) pending).1.

(** ** Dispatching *)

Section Dispatch.
Context {W : Type} `{!Env W, !OutboxRepository W, !MessagePublisher W}.
Variable config : DispatchConfig.

(** The errors a failed bookkeeping call adds. *)
Definition outbox_errors (r : result unit OutboxError) : list OutboxDispatchError :=
  match r with Ok _ => [] | Err e => [DispatchOutbox e] end.

(** [dispatch_one]: published, errors, delivered; [None] when the retry
    policy panics. *)
Definition dispatch_one (m : OutboxMessage)
  : M W (option (nat * list OutboxDispatchError * bool)) :=
  let attempt := u32_add (ob_attempts m) 1 in
  do! recorded <- outbox_record_attempt (ob_id m);
  match recorded with
  | Err error => ret (Some (0, [DispatchOutbox error], false))
  | Ok _ =>
      do! sent <- publish (ob_message m);
      match sent with
      | Ok _ =>
          do! marked <- outbox_mark_published (ob_id m);
          match marked with
          | Ok _ => ret (Some (1, [], true))
          | Err error => ret (Some (0, [DispatchOutbox error], true))
          end
      | Err error =>
          live! decision <-
            RetryPolicy_decide_for (retry config) attempt (MessagingError_failure_kind error);
          do! bookkept <-
            match decision with
            | DeadLetter_ => outbox_mark_failed (ob_id m) (MessagingError_to_string error)
            | RetryAfter delay => outbox_schedule_retry (ob_id m) delay
            end;
          ret (Some (0, outbox_errors bookkept ++ [DispatchMessaging error], false))
      end
  end.

(** The future of one lane: head-of-line blocking at the first message that
    is not delivered. *)
Fixpoint dispatch_lane (lane : list OutboxMessage) (pub : nat) (errs : list OutboxDispatchError)
  : M W (option (nat * list OutboxDispatchError)) :=
  match lane with
  | [] => ret (Some (pub, errs))
  | m :: rest =>
      live! out <- dispatch_one m;
      let '(p, e, delivered) := out in
      if delivered : bool then dispatch_lane rest (pub + p) (errs ++ e)
      else ret (Some (pub + p, errs ++ e))
  end.

Fixpoint dispatch_lanes (lanes : list (list OutboxMessage))
  : M W (option (list (nat * list OutboxDispatchError))) :=
  match lanes with
  | [] => ret (Some [])
  | lane :: lanes =>
      live! outcome <- dispatch_lane lane 0 [];
      live! outcomes <- dispatch_lanes lanes;
      ret (Some (outcome :: outcomes))
  end.

Definition collect_outcomes (outcomes : list (nat * list OutboxDispatchError)) : DispatchResult :=
  foldl (fun r '(p, es) => mkDispatchResult (published r + p) (errors r ++ es))
    DispatchResult_default outcomes.

Definition dispatch_pending (limit : nat) : M W (option DispatchResult) :=
  do! claimed <- outbox_pending limit;
  match claimed with
  | Err error => ret (Some (mkDispatchResult 0 [DispatchOutbox error]))
  | Ok pending =>
      live! outcomes <- dispatch_lanes (partition_lanes pending);
      ret (Some (collect_outcomes outcomes))
  end.

Definition dispatch_batch : M W (option DispatchResult) := dispatch_pending (batch_size config).
End Dispatch.

(** ** The lanes as concurrent threads

    The state of a lane between two awaited calls. *)

Inductive LanePhase :=
| PRecord
| PPublish
| PMarkPublished
| PMarkFailed (e : MessagingError)
| PSchedule (e : MessagingError) (delay : Duration).

Record LaneState := mkLaneState {
  ls_current : OutboxMessage;
  ls_rest : list OutboxMessage;
  ls_phase : LanePhase;
  ls_published : nat;
  ls_errors : list OutboxDispatchError;
}.

Inductive Lane :=
| LWaiting (messages : list OutboxMessage)
| LRunning (ls : LaneState)
| LDone (pub : nat) (errs : list OutboxDispatchError)
| LPanicked.

(** What a lane awaits in a phase, and the answers it may get.  The answer to
    a publication carries the retry decision taken on its error. *)
Inductive Call :=
| CRecordAttempt (id : Uuid)
| CPublish (m : Message)
| CMarkPublished (id : Uuid)
| CMarkFailed (id : Uuid) (error : string)
| CScheduleRetry (id : Uuid) (delay : Duration).

Definition phase_call (m : OutboxMessage) (p : LanePhase) : Call :=
  match p with
  | PRecord => CRecordAttempt (ob_id m)
  | PPublish => CPublish (ob_message m)
  | PMarkPublished => CMarkPublished (ob_id m)
  | PMarkFailed e => CMarkFailed (ob_id m) (MessagingError_to_string e)
  | PSchedule _ delay => CScheduleRetry (ob_id m) delay
  end.

Inductive PublishAnswer :=
| PubOk
| PubErr (e : MessagingError) (decision : option RetryDecision).

Definition phase_answer (p : LanePhase) : Type :=
  match p with
  | PPublish => PublishAnswer
  | _ => result unit OutboxError
  end.

(** The answer reports success. *)
Definition answer_ok (p : LanePhase) : phase_answer p -> bool :=
  match p with
  | PPublish => fun a => match a with PubOk => true | PubErr _ _ => false end
  | PRecord | PMarkPublished | PMarkFailed _ | PSchedule _ _ => is_ok
  end.

Definition lane_start (messages : list OutboxMessage) (pub : nat)
  (errs : list OutboxDispatchError) : Lane :=
  match messages with
  | [] => LDone pub errs
  | m :: rest => LRunning (mkLaneState m rest PRecord pub errs)
  end.

(** How a lane goes on from an answer. *)
Definition lane_resume (ls : LaneState) : phase_answer (ls_phase ls) -> Lane :=
  let m := ls_current ls in
  let goto p := LRunning (mkLaneState m (ls_rest ls) p (ls_published ls) (ls_errors ls)) in
  let stop es := LDone (ls_published ls) (ls_errors ls ++ es) in
  match ls_phase ls as p return phase_answer p -> Lane with
  | PRecord => fun a =>
      match a with Ok _ => goto PPublish | Err e => stop [DispatchOutbox e] end
  | PPublish => fun a =>
      match a with
      | PubOk => goto PMarkPublished
      | PubErr e (Some DeadLetter_) => goto (PMarkFailed e)
      | PubErr e (Some (RetryAfter delay)) => goto (PSchedule e delay)
      | PubErr _ None => LPanicked
      end
  | PMarkPublished => fun a =>
      match a with
      | Ok _ => lane_start (ls_rest ls) (ls_published ls + 1) (ls_errors ls)
      | Err e => lane_start (ls_rest ls) (ls_published ls) (ls_errors ls ++ [DispatchOutbox e])
      end
  | PMarkFailed e | PSchedule e _ => fun a =>
      stop (outbox_errors a ++ [DispatchMessaging e])
  end.

(** The decisions the retry policy can take on a failure. *)
Definition decision_allowed (p : RetryPolicy) (attempt : Z) (kind : FailureKind)
  (d : option RetryDecision) : Prop :=
  match kind with
  | Poison => d = Some DeadLetter_
  | Transient =>
      if (attempt <? max_attempts p)%Z then d <> Some DeadLetter_ else d = Some DeadLetter_
  end.

Definition answer_allowed (config : DispatchConfig) (ls : LaneState)
  : phase_answer (ls_phase ls) -> Prop :=
  match ls_phase ls as p return phase_answer p -> Prop with
  | PPublish => fun a =>
      match a with
      | PubOk => True
      | PubErr e d => decision_allowed (retry config) (u32_add (ob_attempts (ls_current ls)) 1)
                        (MessagingError_failure_kind e) d
      end
  | _ => fun _ => True
  end.

(** One awaited call of one lane, as the outside sees it. *)
Record LogEntry := mkLogEntry { le_lane : nat; le_call : Call; le_ok : bool }.

Definition running (l : Lane) : bool := match l with LRunning _ => true | _ => false end.
Definition waiting (l : Lane) : bool := match l with LWaiting _ => true | _ => false end.
Definition panicked (l : Lane) : bool := match l with LPanicked => true | _ => false end.
Definition count_running (pool : list Lane) : nat :=
  sum_list_with (fun l => Nat.b2n (running l)) pool.

(** [buffer_unordered(concurrency.max(1))]: the next waiting lane, in order,
    starts when fewer than that many run; a running lane makes its next call.
    A panic unwinds the whole run. *)
Inductive pool_step (config : DispatchConfig) :
  list Lane * list LogEntry -> list Lane * list LogEntry -> Prop :=
| pool_start pool log i messages :
    existsb panicked pool = false ->
    count_running pool < Nat.max 1 (concurrency config) ->
    pool !! i = Some (LWaiting messages) ->
    (forall j l, j < i -> pool !! j = Some l -> waiting l = false) ->
    pool_step config (pool, log) (<[i := lane_start messages 0 []]> pool, log)
| pool_call pool log i ls (a : phase_answer (ls_phase ls)) :
    existsb panicked pool = false ->
    pool !! i = Some (LRunning ls) ->
    answer_allowed config ls a ->
    pool_step config (pool, log)
      (<[i := lane_resume ls a]> pool,
       log ++ [mkLogEntry i (phase_call (ls_current ls) (ls_phase ls)) (answer_ok _ a)]).

Definition pool_init (pending : list OutboxMessage) : list Lane * list LogEntry :=
  (LWaiting <$> partition_lanes pending, []).

Definition pool_reachable (config : DispatchConfig) (pending : list OutboxMessage)
  (st : list Lane * list LogEntry) : Prop :=
  rtc (pool_step config) (pool_init pending) st.

(** ** Lemmas on the partition into lanes *)

Abbreviation has_key k := (fun m => key (ob_message m) = Some k) (only parsing).

Record lanes_ok (batch : list OutboxMessage) (lanes : list (list OutboxMessage))
  (by_key : gmap string nat) : Prop := {
  lanes_perm : concat lanes ≡ₚ batch;
  lanes_keyed k i : by_key !! k = Some i -> lanes !! i = Some (filter (has_key k) batch);
  lanes_unkeyed k : by_key !! k = None -> filter (has_key k) batch = [];
  lanes_inj k k' i : by_key !! k = Some i -> by_key !! k' = Some i -> k = k';
  lanes_shape i lane : lanes !! i = Some lane ->
    (exists k, by_key !! k = Some i)
    \/ (exists m, lane = [m] /\ key (ob_message m) = None);
}.

Lemma concat_alter_snoc {A} (x : A) i (ls : list (list A)) :
  i < length ls -> concat (alter (fun l => l ++ [x]) i ls) ≡ₚ x :: concat ls.
Proof.
  revert i. induction ls as [|l ls IH]; intros [|i] Hi; cbn in *; try lia.
  - rewrite <- app_assoc. cbn. by rewrite Permutation_middle.
  - rewrite IH by lia. by rewrite Permutation_middle.
Qed.

Lemma filter_snoc {A} (P : A -> Prop) `{!forall x, Decision (P x)} l x :
  filter P (l ++ [x]) = filter P l ++ (if decide (P x) then [x] else []).
Proof. by rewrite filter_app, filter_cons, filter_nil. Qed.

Lemma lane_push_keyed batch lanes by_key m k i :
  lanes_ok batch lanes by_key -> key (ob_message m) = Some k -> by_key !! k = Some i ->
  lanes_ok (batch ++ [m]) (alter (fun lane => lane ++ [m]) i lanes) by_key.
Proof.
  intros [Hp Hk Hu Hi Hs] Ek Eb.
  pose proof (Hk _ _ Eb) as Hl. pose proof (lookup_lt_Some _ _ _ Hl). constructor.
  - rewrite concat_alter_snoc, Hp by done. apply Permutation_cons_append.
  - intros k' i' Hi'. rewrite filter_snoc. destruct (decide (i' = i)) as [->|Hne].
    + rewrite (Hi _ _ _ Hi' Eb), list_lookup_alter_eq, Hl. cbn. by rewrite decide_True.
    + rewrite list_lookup_alter_ne, (Hk _ _ Hi') by done.
      rewrite decide_False, app_nil_r; [done|]. intros Hm. congruence.
  - intros k' Hk'. rewrite filter_snoc, (Hu _ Hk'), decide_False; [done|congruence].
  - done.
  - intros i' lane. destruct (decide (i' = i)) as [->|Hne]; [by left; exists k|].
    rewrite list_lookup_alter_ne by done. apply Hs.
Qed.

Lemma lane_push_new batch lanes by_key m :
  lanes_ok batch lanes by_key ->
  match key (ob_message m) with
  | Some k => by_key !! k = None -> lanes_ok (batch ++ [m]) (lanes ++ [[m]]) (<[k := length lanes]> by_key)
  | None => lanes_ok (batch ++ [m]) (lanes ++ [[m]]) by_key
  end.
Proof.
  intros [Hp Hk Hu Hi Hs].
  assert (Hp' : concat (lanes ++ [[m]]) ≡ₚ batch ++ [m]) by (rewrite concat_app; cbn; by rewrite Hp).
  assert (Hold : forall k i, by_key !! k = Some i -> i < length lanes)
    by (intros k i Hki; by eapply lookup_lt_Some, Hk).
  destruct (key (ob_message m)) as [k|] eqn:Ek; [intros Eb|]; (constructor; [done|..]).
  - intros k' i'. rewrite filter_snoc, Ek. intros [[<- <-]|[Hne Hi']]%lookup_insert_Some.
    + rewrite list_lookup_middle, Hu, decide_True by done. done.
    + rewrite lookup_app_l by eauto. rewrite decide_False, app_nil_r by congruence. by apply Hk.
  - intros k' [Hk' Hne]%lookup_insert_None. rewrite filter_snoc, Ek, (Hu _ Hk'), decide_False;
      [done|congruence].
  - intros k1 k2 i1 [[<- <-]|[? H1]]%lookup_insert_Some [[<- ?]|[? H2]]%lookup_insert_Some;
      try done; [apply Hold in H2; lia|apply Hold in H1; lia|by eapply Hi].
  - intros i' lane [Hl|[Hge Hl]]%lookup_app_Some.
    + destruct (Hs _ _ Hl) as [[k' Hk']|?]; [left|by right].
      exists k'. apply lookup_insert_Some. right. split; [congruence|done].
    + left. exists k. apply list_lookup_singleton_Some in Hl as [Hz _].
      rewrite lookup_insert_eq. f_equal. lia.
  - intros k' i' Hi'. rewrite filter_snoc, Ek, decide_False, app_nil_r by done.
    rewrite lookup_app_l by eauto. by apply Hk.
  - intros k' Hk'. by rewrite filter_snoc, Ek, (Hu _ Hk').
  - done.
  - intros i' lane [Hl|[Hge Hl]]%lookup_app_Some; [by apply Hs in Hl|].
    right. apply list_lookup_singleton_Some in Hl as [_ <-]. by exists m.
Qed.

Lemma lane_push_ok batch st m :
  lanes_ok batch st.1 st.2 -> lanes_ok (batch ++ [m]) (lane_push st m).1 (lane_push st m).2.
Proof.
  destruct st as [lanes by_key]. cbn. intros H. pose proof (lane_push_new _ _ _ m H) as Hn.
  destruct (key (ob_message m)) as [k|] eqn:Ek; [|done].
  destruct (by_key !! k) as [i|] eqn:Eb; cbn; [by eapply lane_push_keyed|by apply Hn].
Qed.

Lemma partition_lanes_ok batch :
  exists by_key, lanes_ok batch (partition_lanes batch) by_key.
Proof.
  unfold partition_lanes.
  cut (lanes_ok batch (foldl lane_push ([], ∅) batch).1 (foldl lane_push ([], ∅) batch).2).
  { intros H. by eexists. }
  induction batch as [|m batch IH] using rev_ind.
  - by constructor.
  - rewrite foldl_app. cbn. by apply lane_push_ok.
Qed.

(** The messages of a key are one lane, and no other lane has any. *)
Lemma key_lane batch k :
  filter (has_key k) batch <> [] ->
  exists i, partition_lanes batch !! i = Some (filter (has_key k) batch)
    /\ forall j lane m, partition_lanes batch !! j = Some lane -> m ∈ lane ->
         key (ob_message m) = Some k -> j = i.
Proof.
  intros Hne. destruct (partition_lanes_ok batch) as [by_key [Hp Hk Hu Hi Hs]].
  destruct (by_key !! k) as [i|] eqn:Eb; [|by apply Hu in Eb].
  exists i. split; [by apply Hk|]. intros j lane m Hj Hm Hkm.
  destruct (Hs _ _ Hj) as [[k' Hk']|(m' & -> & Hm')].
  - rewrite (Hk _ _ Hk') in Hj. injection Hj as <-.
    apply list_elem_of_filter in Hm as [Hm _]. congruence.
  - apply list_elem_of_singleton in Hm. congruence.
Qed.

(** ** Lemmas on one lane *)

(** The calls of lane [i] in a log, with their outcome. *)
Definition lane_log (i : nat) (log : list LogEntry) : list (Call * bool) :=
  (fun e => (le_call e, le_ok e)) <$> filter (fun e => le_lane e = i) log.

(** The calls made for a delivered message; [b] tells whether it could be
    marked. *)
Definition delivered_calls (m : OutboxMessage) (b : bool) : list (Call * bool) :=
  [(CRecordAttempt (ob_id m), true); (CPublish (ob_message m), true);
   (CMarkPublished (ob_id m), b)].

Inductive delivered_trace : list OutboxMessage -> list (Call * bool) -> Prop :=
| delivered_nil : delivered_trace [] []
| delivered_snoc ms tr m b :
    delivered_trace ms tr -> delivered_trace (ms ++ [m]) (tr ++ delivered_calls m b).

(** The calls already made for the current message in a phase. *)
Definition phase_calls (m : OutboxMessage) (p : LanePhase) : list (Call * bool) :=
  match p with
  | PRecord => []
  | PPublish => [(CRecordAttempt (ob_id m), true)]
  | PMarkPublished => [(CRecordAttempt (ob_id m), true); (CPublish (ob_message m), true)]
  | PMarkFailed _ | PSchedule _ _ =>
      [(CRecordAttempt (ob_id m), true); (CPublish (ob_message m), false)]
  end.

(** How the calls of a lane that will make no more end: nothing after the
    delivered messages, an unrecorded attempt, or a failed publication with
    at most one bookkeeping call after it. *)
Definition stopped_calls (rest : list OutboxMessage) (tr : list (Call * bool)) : Prop :=
  (rest = [] /\ tr = [])
  \/ exists m rest', rest = m :: rest' /\
       (tr = [(CRecordAttempt (ob_id m), false)]
        \/ exists last, length last <= 1
             /\ Forall (fun c => forall x, c.1 <> CPublish x) last
             /\ tr = [(CRecordAttempt (ob_id m), true); (CPublish (ob_message m), false)] ++ last).

Definition lane_inv (msgs : list OutboxMessage) (l : Lane) (tr : list (Call * bool)) : Prop :=
  match l with
  | LWaiting ms => ms = msgs /\ tr = []
  | LRunning ls =>
      exists done tr0, delivered_trace done tr0
        /\ msgs = done ++ ls_current ls :: ls_rest ls
        /\ tr = tr0 ++ phase_calls (ls_current ls) (ls_phase ls)
  | LDone _ _ | LPanicked =>
      exists done rest tr0 tr1, delivered_trace done tr0 /\ msgs = done ++ rest
        /\ tr = tr0 ++ tr1 /\ stopped_calls rest tr1
  end.

Lemma lane_inv_start done rest tr0 pub errs :
  delivered_trace done tr0 -> lane_inv (done ++ rest) (lane_start rest pub errs) tr0.
Proof.
  intros Hd. destruct rest as [|m rest]; cbn.
  - exists done, [], tr0, []. rewrite !app_nil_r. split; [done|]. split; [done|]. split; [done|].
    by left.
  - exists done, tr0. by rewrite app_nil_r.
Qed.

Lemma lane_inv_stop done m rest tr0 tr1 :
  delivered_trace done tr0 -> stopped_calls (m :: rest) tr1 ->
  exists done' rest' tr0' tr1', delivered_trace done' tr0' /\ done ++ m :: rest = done' ++ rest'
    /\ tr0 ++ tr1 = tr0' ++ tr1' /\ stopped_calls rest' tr1'.
Proof. intros. by exists done, (m :: rest), tr0, tr1. Qed.

Lemma lane_inv_resume msgs ls (a : phase_answer (ls_phase ls)) tr :
  lane_inv msgs (LRunning ls) tr ->
  lane_inv msgs (lane_resume ls a)
    (tr ++ [(phase_call (ls_current ls) (ls_phase ls), answer_ok _ a)]).
Proof.
  destruct ls as [m rest p pub errs]. cbn in a |- *.
  intros (done & tr0 & Hd & -> & ->).
  assert (Hstop : forall c b, (forall x, c <> CPublish x) ->
    stopped_calls (m :: rest)
      ([(CRecordAttempt (ob_id m), true); (CPublish (ob_message m), false)] ++ [(c, b)])).
  { intros c b Hc. right. exists m, rest. split; [done|]. right. exists [(c, b)].
    split; [done|]. split; [|done]. by constructor. }
  rewrite <- app_assoc. destruct p; cbn in a |- *.
  - destruct a as [u|e]; cbn; [by exists done, tr0|].
    apply lane_inv_stop; [done|]. right. exists m, rest. split; [done|by left].
  - destruct a as [|e [[d|]|]]; cbn; try (by exists done, tr0).
    apply lane_inv_stop; [done|]. right. exists m, rest. split; [done|right].
    exists []. split; [cbn; lia|done].
  - rewrite cons_middle, app_assoc.
    destruct a as [u|e]; apply lane_inv_start, (delivered_snoc _ _ m); done.
  - apply lane_inv_stop; [done|]. by apply Hstop.
  - apply lane_inv_stop; [done|]. by apply Hstop.
Qed.

(** ** Lemmas on the pool *)

Lemma lane_log_snoc i log e :
  lane_log i (log ++ [e]) =
  lane_log i log ++ (if decide (le_lane e = i) then [(le_call e, le_ok e)] else []).
Proof. unfold lane_log. rewrite filter_snoc, fmap_app. by destruct (decide _). Qed.

Definition pool_inv (lanes : list (list OutboxMessage)) (st : list Lane * list LogEntry) : Prop :=
  length st.1 = length lanes
  /\ (forall i msgs l, lanes !! i = Some msgs -> st.1 !! i = Some l ->
        lane_inv msgs l (lane_log i st.2))
  /\ Forall (fun e => le_lane e < length lanes) st.2.

Lemma pool_inv_init pending : pool_inv (partition_lanes pending) (pool_init pending).
Proof.
  split; [|split]; cbn; [by rewrite length_fmap| |done].
  intros i msgs l Hm Hl. rewrite list_lookup_fmap, Hm in Hl. by injection Hl as <-.
Qed.

Lemma pool_inv_step config lanes st st' :
  pool_step config st st' -> pool_inv lanes st -> pool_inv lanes st'.
Proof.
  intros Hs (Hlen & Hinv & Hlog).
  destruct Hs as [pool log i ms _ _ Hi _|pool log i ls a _ Hi _];
    unfold pool_inv; cbn [fst snd] in *; (split; [by rewrite length_insert|split]); try done.
  - intros j msgs l Hm. rewrite list_lookup_insert. case_decide as Hji; [|by apply Hinv].
    destruct Hji as [-> _]. intros [= <-]. pose proof (Hinv _ _ _ Hm Hi) as [-> ->].
    apply (lane_inv_start []). constructor.
  - intros j msgs l Hm. rewrite lane_log_snoc, list_lookup_insert. cbn.
    destruct (decide (i = j)) as [->|Hne].
    + rewrite decide_True by (split; [done|]; by eapply lookup_lt_Some). intros [= <-].
      apply lane_inv_resume. by apply Hinv.
    + rewrite app_nil_r, decide_False by tauto. by apply Hinv.
  - apply Forall_app. split; [done|]. constructor; [|done]. cbn. rewrite <- Hlen.
    by eapply lookup_lt_Some.
Qed.

Lemma pool_inv_reachable config pending st :
  pool_reachable config pending st -> pool_inv (partition_lanes pending) st.
Proof.
  intros H. unfold pool_reachable in H. remember (pool_init pending) as st0 eqn:E.
  assert (pool_inv (partition_lanes pending) st0) as H0 by (subst; apply pool_inv_init).
  clear E. induction H as [|x y z Hxy _ IH]; [done|]. apply IH. by eapply pool_inv_step.
Qed.

(** ** Publications, in order *)

Definition publication (c : Call * bool) : option (Message * bool) :=
  match c.1 with CPublish m => Some (m, c.2) | _ => None end.

(** The publications of messages with key [k] in a log, with their outcome. *)
Definition key_publications (k : string) (log : list LogEntry) : list (Message * bool) :=
  omap (fun e => p ← publication (le_call e, le_ok e);
                 if decide (key p.1 = Some k) then Some p else None) log.

(** [pubs] delivers a prefix of [expected] in order; a failed publication can
    only be the last one, and of the message next in line. *)
Definition in_order (expected : list Message) (pubs : list (Message * bool)) : Prop :=
  exists done rest, expected = done ++ rest /\
    (pubs = (fun m => (m, true)) <$> done
     \/ exists m rest', rest = m :: rest' /\ pubs = ((fun m => (m, true)) <$> done) ++ [(m, false)]).

Lemma delivered_publications ms tr :
  delivered_trace ms tr -> omap publication tr = (fun m => (ob_message m, true)) <$> ms.
Proof.
  induction 1 as [|ms tr m b _ IH]; [done|]. rewrite omap_app, fmap_app, IH. done.
Qed.

Lemma stopped_publications rest tr :
  stopped_calls rest tr ->
  omap publication tr = []
  \/ exists m rest', rest = m :: rest' /\ omap publication tr = [(ob_message m, false)].
Proof.
  intros [[_ ->]|(m & rest' & -> & [->|(last & _ & Hl & ->)])]; [by left|by left|right].
  exists m, rest'. split; [done|]. rewrite omap_app.
  assert (omap publication last = []) as ->; [|done].
  induction Hl as [|[c b] l Hc _ IH]; [done|]. cbn.
  destruct c; cbn in *; try exact IH. by destruct (Hc m0).
Qed.

Lemma in_order_intro done rest pubs :
  pubs = ((fun m => (ob_message m, true)) <$> done)
  \/ (exists m rest', rest = m :: rest' /\
       pubs = ((fun m => (ob_message m, true)) <$> done) ++ [(ob_message m, false)]) ->
  in_order (ob_message <$> (done ++ rest)) pubs.
Proof.
  intros Hp. exists (ob_message <$> done), (ob_message <$> rest).
  rewrite fmap_app, <- list_fmap_compose. split; [done|].
  destruct Hp as [->|(m & rest' & -> & ->)]; [by left|right].
  by exists (ob_message m), (ob_message <$> rest').
Qed.

Lemma stopped_in_order done rest tr0 tr1 :
  delivered_trace done tr0 -> stopped_calls rest tr1 ->
  in_order (ob_message <$> (done ++ rest)) (omap publication (tr0 ++ tr1)).
Proof.
  intros Hd Hs. apply in_order_intro. rewrite omap_app, (delivered_publications _ _ Hd).
  destruct (stopped_publications _ _ Hs) as [->|(m & rest' & -> & ->)].
  - left. by rewrite app_nil_r.
  - right. by exists m, rest'.
Qed.

Lemma lane_inv_in_order msgs l tr :
  lane_inv msgs l tr -> in_order (ob_message <$> msgs) (omap publication tr).
Proof.
  destruct l as [ms|[m rest p pub errs]|pub errs|]; cbn.
  - intros [-> ->]. apply (in_order_intro [] msgs). by left.
  - intros (done & tr0 & Hd & -> & ->). rewrite omap_app, (delivered_publications _ _ Hd).
    destruct p; cbn; rewrite ?app_nil_r.
    + apply in_order_intro. by left.
    + apply in_order_intro. by left.
    + rewrite cons_middle, app_assoc. apply in_order_intro. left. by rewrite fmap_app.
    + apply in_order_intro. right. by eexists _, _.
    + apply in_order_intro. right. by eexists _, _.
  - intros (done & rest & tr0 & tr1 & Hd & -> & -> & Hs). by apply stopped_in_order.
  - intros (done & rest & tr0 & tr1 & Hd & -> & -> & Hs). by apply stopped_in_order.
Qed.

Lemma in_order_elem expected pubs m b :
  in_order expected pubs -> (m, b) ∈ pubs -> m ∈ expected.
Proof.
  intros (done & rest & -> & [->|(m' & rest' & -> & ->)]) Hin.
  - apply list_elem_of_fmap in Hin as (x & [= -> ->] & ?). set_solver.
  - apply elem_of_app in Hin as [Hin|Hin].
    + apply list_elem_of_fmap in Hin as (x & [= -> ->] & ?). set_solver.
    + apply list_elem_of_singleton in Hin as [= -> ->]. set_solver.
Qed.

Lemma publication_in_lane_log log e m :
  e ∈ log -> le_call e = CPublish m ->
  (m, le_ok e) ∈ omap publication (lane_log (le_lane e) log).
Proof.
  intros He Hc. apply list_elem_of_omap. exists (le_call e, le_ok e). split.
  - unfold lane_log. apply list_elem_of_fmap. exists e. split; [done|].
    by apply list_elem_of_filter.
  - unfold publication. cbn. by rewrite Hc.
Qed.

(** A publication in the log is of a message of its lane. *)
Lemma logged_in_lane lanes pool log e m :
  pool_inv lanes (pool, log) -> e ∈ log -> le_call e = CPublish m ->
  exists lane om, lanes !! le_lane e = Some lane /\ om ∈ lane /\ ob_message om = m.
Proof.
  intros (Hlen & Hinv & Hlog) He Hc. cbn in *.
  rewrite Forall_forall in Hlog. specialize (Hlog _ He). cbn in Hlog.
  destruct (lookup_lt_is_Some_2 lanes (le_lane e) Hlog) as [lane Hlane].
  destruct (lookup_lt_is_Some_2 pool (le_lane e)) as [l Hl]; [lia|].
  exists lane. pose proof (lane_inv_in_order _ _ _ (Hinv _ _ _ Hlane Hl)) as Ho.
  eapply in_order_elem in Ho; [|by apply publication_in_lane_log].
  apply list_elem_of_fmap in Ho as (om & -> & Hom). by exists om.
Qed.

(** Selecting the publications of a key is looking at its lane. *)
Lemma key_publications_lane k i log :
  (forall e m, e ∈ log -> le_call e = CPublish m -> key m = Some k <-> le_lane e = i) ->
  key_publications k log = omap publication (lane_log i log).
Proof.
  intros H. unfold key_publications, lane_log. induction log as [|e log IH]; [done|].
  assert (IH' := IH (fun e' m He => H e' m (list_elem_of_further _ _ _ He))). clear IH.
  rewrite filter_cons. pose proof (H e) as He. cbn.
  destruct (decide (le_lane e = i)) as [Hi|Hi]; cbn;
    destruct (publication (le_call e, le_ok e)) as [[m b]|] eqn:Ep; cbn;
    try exact IH'.
  - unfold publication in Ep. cbn in Ep. destruct (le_call e); try done. injection Ep as -> <-.
    rewrite decide_True; [f_equal; exact IH'|]. cbn. apply He; [left|done|done].
  - unfold publication in Ep. cbn in Ep. destruct (le_call e); try done. injection Ep as -> <-.
    rewrite decide_False; [exact IH'|]. cbn. rewrite He; [done|left|done].
Qed.

Lemma key_publications_nil k log :
  (forall e m, e ∈ log -> le_call e = CPublish m -> key m <> Some k) ->
  key_publications k log = [].
Proof.
  intros H. unfold key_publications. induction log as [|e log IH]; [done|].
  cbn. pose proof (H e) as He. unfold publication. cbn.
  assert (IH' := IH (fun e' m He => H e' m (list_elem_of_further _ _ _ He))). clear IH.
  destruct (le_call e) as [| m | | |]; cbn; try exact IH'.
  rewrite decide_False; [exact IH'|]. apply He; [left|done].
Qed.

Lemma lane_elem_pending pending i lane m :
  partition_lanes pending !! i = Some lane -> m ∈ lane -> m ∈ pending.
Proof.
  intros Hl Hm. destruct (partition_lanes_ok pending) as [by_key [Hp _ _ _ _]].
  rewrite <- Hp. apply list_elem_of_In, in_concat. exists lane.
  split; apply list_elem_of_In; [|done]. by eapply list_elem_of_lookup_2.
Qed.

(** ** Recorded attempts *)

(** Every publication directly follows the recorded attempt of its message. *)
Definition recorded_first (ms : list OutboxMessage) (tr : list (Call * bool)) : Prop :=
  forall i m b, tr !! i = Some (CPublish m, b) ->
    exists i' om, i = S i' /\ om ∈ ms /\ ob_message om = m
      /\ tr !! i' = Some (CRecordAttempt (ob_id om), true).

Lemma recorded_first_app ms tr1 tr2 :
  recorded_first ms tr1 -> recorded_first ms tr2 -> recorded_first ms (tr1 ++ tr2).
Proof.
  intros H1 H2 i m b [Hi|[Hge Hi]]%lookup_app_Some.
  - destruct (H1 _ _ _ Hi) as (i' & om & -> & ? & ? & ?). exists i', om.
    repeat split; try done. by apply lookup_app_l_Some.
  - destruct (H2 _ _ _ Hi) as (i' & om & E & ? & ? & ?). exists (length tr1 + i'), om.
    repeat split; try done; [lia|]. rewrite lookup_app_r by lia. by rewrite Nat.add_sub_swap, Nat.sub_diag.
Qed.

Lemma recorded_first_calls ms m b last :
  m ∈ ms -> Forall (fun c => forall x, c.1 <> CPublish x) last ->
  recorded_first ms
    ([(CRecordAttempt (ob_id m), true); (CPublish (ob_message m), b)] ++ last).
Proof.
  intros Hm Hl [|[|i]] x b' Hi; cbn in Hi; try discriminate.
  - injection Hi as <- <-. by exists 0, m.
  - rewrite Forall_lookup in Hl. by destruct (Hl _ _ Hi x).
Qed.

Lemma recorded_first_none ms tr :
  Forall (fun c => forall x, c.1 <> CPublish x) tr -> recorded_first ms tr.
Proof. intros Hl i m b Hi. rewrite Forall_lookup in Hl. by destruct (Hl _ _ Hi m). Qed.

Lemma recorded_first_delivered ms done tr :
  delivered_trace done tr -> done ⊆ ms -> recorded_first ms tr.
Proof.
  induction 1 as [|done tr m b _ IH]; intros Hsub; [by intros i ? ? ?|].
  apply recorded_first_app; [apply IH; set_solver|].
  apply (recorded_first_calls _ m true [(CMarkPublished (ob_id m), b)]); [set_solver|].
  by repeat constructor.
Qed.

Lemma recorded_first_stopped ms rest tr :
  stopped_calls rest tr -> rest ⊆ ms -> recorded_first ms tr.
Proof.
  intros [[_ ->]|(m & rest' & -> & [->|(last & _ & Hl & ->)])] Hsub.
  - by intros i ? ? ?.
  - apply recorded_first_none. by repeat constructor.
  - apply recorded_first_calls; [set_solver|done].
Qed.

Lemma lane_inv_recorded msgs l tr : lane_inv msgs l tr -> recorded_first msgs tr.
Proof.
  assert (Hstop : forall done rest tr0 tr1, delivered_trace done tr0 -> stopped_calls rest tr1 ->
            recorded_first (done ++ rest) (tr0 ++ tr1)).
  { intros. apply recorded_first_app; [eapply recorded_first_delivered|eapply recorded_first_stopped];
      eauto; set_solver. }
  destruct l as [ms|[m rest p pub errs]|pub errs|]; cbn.
  - intros [_ ->]. by intros i ? ? ?.
  - intros (done & tr0 & Hd & -> & ->).
    apply recorded_first_app; [eapply recorded_first_delivered; [done|set_solver]|].
    destruct p; cbn; [by intros i ? ? ?| | | |].
    + apply recorded_first_none. by repeat constructor.
    + apply (recorded_first_calls _ m true []); [set_solver|done].
    + apply (recorded_first_calls _ m false []); [set_solver|done].
    + apply (recorded_first_calls _ m false []); [set_solver|done].
  - intros (done & rest & tr0 & tr1 & Hd & -> & -> & Hs). by apply Hstop.
  - intros (done & rest & tr0 & tr1 & Hd & -> & -> & Hs). by apply Hstop.
Qed.

(** ** Progress and termination *)

Definition phase_weight (p : LanePhase) : nat :=
  match p with PRecord => 3 | PPublish => 2 | _ => 1 end.

Definition lane_measure (l : Lane) : nat :=
  match l with
  | LWaiting ms => 1 + 3 * length ms
  | LRunning ls => phase_weight (ls_phase ls) + 3 * length (ls_rest ls)
  | LDone _ _ | LPanicked => 0
  end.

Definition pool_measure (pool : list Lane) : nat := sum_list_with lane_measure pool.

Lemma lane_start_measure ms pub errs : lane_measure (lane_start ms pub errs) <= 3 * length ms.
Proof. destruct ms; cbn; lia. Qed.

Lemma lane_resume_measure ls (a : phase_answer (ls_phase ls)) :
  lane_measure (lane_resume ls a) < lane_measure (LRunning ls).
Proof.
  destruct ls as [m rest p pub errs]. destruct p; cbn in a |- *.
  - destruct a; cbn; lia.
  - destruct a as [|e [[]|]]; cbn; lia.
  - apply Nat.lt_succ_r. destruct a; apply lane_start_measure.
  - lia.
  - lia.
Qed.

Lemma sum_list_with_insert {A} (f : A -> nat) (l : list A) i x y :
  l !! i = Some x -> sum_list_with f (<[i := y]> l) + f x = sum_list_with f l + f y.
Proof.
  revert i. induction l as [|z l IH]; intros [|i] Hi; try discriminate.
  - injection Hi as ->. change (<[0 := y]> (x :: l)) with (y :: l). cbn. lia.
  - specialize (IH i Hi). change (<[S i := y]> (z :: l)) with (z :: <[i := y]> l).
    cbn [sum_list_with]. lia.
Qed.

Lemma pool_step_measure config st st' :
  pool_step config st st' -> pool_measure st'.1 < pool_measure st.1.
Proof.
  intros [pool log i ms _ _ Hi _|pool log i ls a _ Hi _]; cbn [fst]; unfold pool_measure.
  - pose proof (sum_list_with_insert lane_measure _ _ _ (lane_start ms 0 []) Hi) as H.
    pose proof (lane_start_measure ms 0 []). cbn in H. lia.
  - pose proof (sum_list_with_insert lane_measure _ _ _ (lane_resume ls a) Hi) as H.
    pose proof (lane_resume_measure ls a). lia.
Qed.

Lemma pool_measure_init pending :
  pool_measure (pool_init pending).1 = length (partition_lanes pending) + 3 * length pending.
Proof.
  destruct (partition_lanes_ok pending) as [by_key [Hp _ _ _ _]].
  rewrite <- (Permutation_length Hp). unfold pool_measure, pool_init. cbn [fst].
  clear Hp. generalize (partition_lanes pending). intros lanes.
  induction lanes as [|lane lanes IH]; [done|].
  cbn. rewrite length_app. cbn in IH. rewrite IH. lia.
Qed.

Lemma lane_start_not_waiting ms pub errs :
  Nat.b2n (running (lane_start ms pub errs)) <= 1.
Proof. destruct (running _); cbn; lia. Qed.

Lemma pool_step_running config st st' :
  pool_step config st st' -> count_running st.1 <= Nat.max 1 (concurrency config) ->
  count_running st'.1 <= Nat.max 1 (concurrency config).
Proof.
  intros [pool log i ms _ Hc Hi _|pool log i ls a _ Hi _] Hle; cbn [fst] in *;
    unfold count_running in *.
  - pose proof (sum_list_with_insert (fun l => Nat.b2n (running l)) _ _ _ (lane_start ms 0 []) Hi) as H.
    pose proof (lane_start_not_waiting ms 0 []). cbn [running Nat.b2n] in H. lia.
  - pose proof (sum_list_with_insert (fun l => Nat.b2n (running l)) _ _ _ (lane_resume ls a) Hi) as H.
    cbn [running Nat.b2n] in H. destruct (running (lane_resume ls a)); cbn in H; lia.
Qed.

Definition lane_done (l : Lane) : bool := match l with LDone _ _ => true | _ => false end.

Lemma allowed_answer config ls : exists a, answer_allowed config ls a.
Proof.
  destruct ls as [m rest p pub errs]. unfold answer_allowed. cbn.
  destruct p; [exists (Ok tt)|exists PubOk|exists (Ok tt)|exists (Ok tt)|exists (Ok tt)]; done.
Qed.

Lemma count_running_0 pool :
  (forall i ls, pool !! i <> Some (LRunning ls)) -> count_running pool = 0.
Proof.
  intros H. unfold count_running. induction pool as [|l pool IH]; [done|]. cbn.
  rewrite (IH (fun i => H (S i))). destruct l as [|ls| |]; cbn; try done.
  by destruct (H 0 ls).
Qed.

Lemma pool_progress config pool log :
  existsb panicked pool = false -> forallb lane_done pool = false ->
  exists st', pool_step config (pool, log) st'.
Proof.
  intros Hp Hd.
  destruct (list_find (fun l => running l = true) pool) as [[i l]|] eqn:Er.
  - apply list_find_Some in Er as (Hi & Hr & _). destruct l as [|ls| |]; try discriminate.
    destruct (allowed_answer config ls) as [a Ha]. eexists. by eapply pool_call.
  - apply list_find_None in Er. rewrite Forall_lookup in Er.
    destruct (list_find (fun l => waiting l = true) pool) as [[i l]|] eqn:Ew.
    + apply list_find_Some in Ew as (Hi & Hw & Hfirst). destruct l as [ms| | |]; try discriminate.
      eexists. eapply pool_start; [done| |done|].
      * rewrite count_running_0; [lia|]. intros j ls Hj. by apply (Er _ _ Hj).
      * intros j l Hj Hlt. destruct (waiting l) eqn:E; [|done].
        by destruct (Hfirst j l Hlt ltac:(lia)).
    + exfalso. apply list_find_None in Ew. rewrite Forall_lookup in Ew.
      assert (forallb lane_done pool = true); [|congruence].
      apply Is_true_true, forallb_True, Forall_lookup. intros i l Hi.
      destruct l as [ms|ls| |]; [by destruct (Ew _ _ Hi)|by destruct (Er _ _ Hi)|done|].
      assert (existsb panicked pool = true); [|congruence].
      apply existsb_exists. exists LPanicked. split; [|done].
      apply list_elem_of_In. by eapply list_elem_of_lookup_2.
Qed.

(** ** The lane of the pool is the lane of the code *)

Section LaneMachine.
Context {W : Type} `{!Env W, !OutboxRepository W, !MessagePublisher W}.
Variable config : DispatchConfig.

(** Makes the call of a phase. *)
Definition exec_phase (m : OutboxMessage) (p : LanePhase) : M W (phase_answer p) :=
  match p as p return M W (phase_answer p) with
  | PRecord => outbox_record_attempt (ob_id m)
  | PPublish =>
      do! r <- publish (ob_message m);
      match r with
      | Ok _ => ret PubOk
      | Err e =>
          do! d <- RetryPolicy_decide_for (retry config) (u32_add (ob_attempts m) 1)
                     (MessagingError_failure_kind e);
          ret (PubErr e d)
      end
  | PMarkPublished => outbox_mark_published (ob_id m)
  | PMarkFailed e => outbox_mark_failed (ob_id m) (MessagingError_to_string e)
  | PSchedule _ delay => outbox_schedule_retry (ob_id m) delay
  end.

(** Runs a lane alone, call after call. *)
Fixpoint run_lane (fuel : nat) (l : Lane) : M W (option (nat * list OutboxDispatchError)) :=
  match l, fuel with
  | LDone pub errs, _ => ret (Some (pub, errs))
  | LRunning ls, S fuel =>
      do! a <- exec_phase (ls_current ls) (ls_phase ls);
      run_lane fuel (lane_resume ls a)
  | _, _ => ret None
  end.

Lemma decide_for_allowed p attempt kind (w : W) :
  decision_allowed p attempt kind (RetryPolicy_decide_for p attempt kind w).1.
Proof.
  destruct kind; cbn; [|done]. unfold RetryPolicy_decide.
  destruct (attempt <? max_attempts p)%Z; [|done].
  unfold pbind, ret. by destruct (BackoffStrategy_delay_for _ _ w) as [[d|] w'].
Qed.

Lemma exec_phase_allowed ls (w : W) :
  answer_allowed config ls (exec_phase (ls_current ls) (ls_phase ls) w).1.
Proof.
  destruct ls as [m rest p pub errs]. unfold answer_allowed. cbn.
  destruct p; try done. unfold exec_phase, bind, ret.
  destruct (publish (ob_message m) w) as [[u|e] w1]; [done|].
  pose proof (decide_for_allowed (retry config) (u32_add (ob_attempts m) 1)
                (MessagingError_failure_kind e) w1) as H.
  by destruct (RetryPolicy_decide_for _ _ _ w1).
Qed.

Lemma run_lane_done fuel pub errs (w : W) : run_lane fuel (LDone pub errs) w = (Some (pub, errs), w).
Proof. by destruct fuel. Qed.

Lemma run_lane_dispatch_lane ms pub errs fuel (w : W) :
  3 * length ms <= fuel -> run_lane fuel (lane_start ms pub errs) w = dispatch_lane config ms pub errs w.
Proof.
  revert pub errs fuel w. induction ms as [|m ms IH]; intros pub errs fuel w Hf.
  { apply run_lane_done. }
  destruct fuel as [|[|[|fuel]]]; cbn in Hf; try lia.
  cbn [lane_start dispatch_lane run_lane]. unfold dispatch_one, pbind, bind, ret. cbn.
  destruct (outbox_record_attempt (ob_id m) w) as [[u|err] w1]; cbn;
    [|by rewrite Nat.add_0_r].
  unfold bind, ret. destruct (publish (ob_message m) w1) as [[u'|err] w2]; cbn.
  - unfold bind, ret.
    destruct (outbox_mark_published (ob_id m) w2) as [[u''|err] w3]; cbn;
      rewrite IH by lia; [by rewrite app_nil_r|by rewrite Nat.add_0_r].
  - destruct (RetryPolicy_decide_for _ _ _ w2) as [[[delay|]|] w3]; cbn; unfold bind, ret;
      [destruct (outbox_schedule_retry (ob_id m) delay w3) as [a w4]
      |destruct (outbox_mark_failed (ob_id m) _ w3) as [a w4]|done];
      rewrite run_lane_done, Nat.add_0_r; done.
Qed.
End LaneMachine.

(** ** Dispatching from the in-memory outbox to the in-memory broker *)

Definition deliver (b : InMemoryMessageBroker) (m : OutboxMessage) : InMemoryMessageBroker :=
  push_back (topic (ob_message m)) (Delivery_new (ob_message m)) b.

(** [m'] is [m] after one more attempt, published. *)
Definition published_from (m m' : OutboxMessage) : Prop :=
  exists t1 t2, m' = entry_effect EMarkPublished t2 (entry_effect ERecordAttempt t1 m).

Section InMemoryDispatch.
Context {W : Type} `{!Env W, !Lens W InMemoryOutbox, !LensLaws W InMemoryOutbox,
  !Lens W InMemoryMessageBroker, !LensLaws W InMemoryMessageBroker,
  !EnvFrame W InMemoryOutbox, !EnvFrame W InMemoryMessageBroker,
  !LensDisjoint W InMemoryOutbox InMemoryMessageBroker,
  !LensDisjoint W InMemoryMessageBroker InMemoryOutbox,
  !Chrono, !MapIter Uuid OutboxMessage}.
Variable config : DispatchConfig.

Let outbox (w : W) : gmap Uuid OutboxMessage := ob_store (lget w).
Let broker (w : W) : InMemoryMessageBroker := lget w.

Lemma dispatch_one_in_memory m m0 (w : W) :
  outbox w !! ob_id m = Some m0 ->
  exists w' m', dispatch_one config m w = (Some (1, [], true), w')
    /\ published_from m0 m'
    /\ outbox w' = <[ob_id m := m']> (outbox w) /\ broker w' = deliver (broker w) m.
Proof.
  intros Hl. unfold dispatch_one, bind, ret. cbn.
  pose proof (entry_method_spec ERecordAttempt (ob_id m) w) as H1. cbn [entry_method] in H1.
  rewrite H1. clear H1. unfold outbox in Hl. rewrite Hl.
  set (m1 := entry_effect ERecordAttempt _ m0). set (w1 := lset _ (utc_now w).2).
  unfold zoom, InMemoryMessageBroker_publish. cbn. set (w2 := lset _ w1).
  assert (Ho2 : lget w2 = ob_put m1 (ob_id m) (lget w) :> InMemoryOutbox)
    by (unfold w2, w1; by rewrite lget_lset_other, lget_lset).
  pose proof (entry_method_spec EMarkPublished (ob_id m) w2) as H2. cbn [entry_method] in H2.
  rewrite H2, Ho2. clear H2. cbn. rewrite lookup_insert_eq.
  eexists _, _. split; [done|]. split; [by eexists _, _|].
  unfold outbox, broker. rewrite lget_lset, lget_lset_other, utc_now_frame. cbn.
  split; [by rewrite insert_insert_eq|].
  unfold w2, w1, deliver. by rewrite lget_lset, lget_lset_other, utc_now_frame.
Qed.

Lemma dispatch_lane_in_memory ms pub errs (w : W) :
  NoDup (ob_id <$> ms) -> Forall (fun m => outbox w !! ob_id m = Some m) ms ->
  exists w', dispatch_lane config ms pub errs w = (Some (pub + length ms, errs), w')
    /\ Forall (fun m => exists m', outbox w' !! ob_id m = Some m' /\ published_from m m') ms
    /\ (forall id, id ∉ ob_id <$> ms -> outbox w' !! id = outbox w !! id)
    /\ broker w' = foldl deliver (broker w) ms.
Proof.
  revert pub errs w. induction ms as [|m ms IH]; intros pub errs w Hnd Hall.
  { exists w. by rewrite Nat.add_0_r. }
  apply NoDup_cons in Hnd as [Hni Hnd]. apply Forall_cons in Hall as [Hm Hall].
  destruct (dispatch_one_in_memory m m w Hm) as (w1 & m' & E1 & Hp & Ho & Hb).
  destruct (IH (pub + 1) (errs ++ []) w1 Hnd) as (w2 & E2 & H2 & Hrest & Hb2).
  { apply Forall_forall. intros x Hx. rewrite Ho, lookup_insert_ne.
    - rewrite Forall_forall in Hall. by apply Hall.
    - intros Heq. apply Hni. rewrite Heq. by apply list_elem_of_fmap_2. }
  exists w2. split; [|split; [|split]].
  - cbn. unfold pbind. rewrite E1, E2, app_nil_r. do 3 f_equal. lia.
  - constructor; [|done]. exists m'. by rewrite Hrest, Ho, lookup_insert_eq by done.
  - intros id Hid. cbn in Hid. apply not_elem_of_cons in Hid as [Hne Hid].
    by rewrite Hrest, Ho, lookup_insert_ne by done.
  - by rewrite Hb2, Hb.
Qed.

Lemma dispatch_lanes_in_memory lanes (w : W) :
  NoDup (ob_id <$> concat lanes) ->
  Forall (fun m => outbox w !! ob_id m = Some m) (concat lanes) ->
  exists w', dispatch_lanes config lanes w
             = (Some ((fun lane => (length lane, [])) <$> lanes), w')
    /\ Forall (fun m => exists m', outbox w' !! ob_id m = Some m' /\ published_from m m')
         (concat lanes)
    /\ (forall id, id ∉ ob_id <$> concat lanes -> outbox w' !! id = outbox w !! id)
    /\ broker w' = foldl deliver (broker w) (concat lanes).
Proof.
  revert w. induction lanes as [|lane lanes IH]; intros w Hnd Hall; [by exists w|].
  cbn [concat] in *. rewrite fmap_app in *. apply NoDup_app in Hnd as (Hnd1 & Hdisj & Hnd2).
  apply Forall_app in Hall as [Hall1 Hall2].
  destruct (dispatch_lane_in_memory lane 0 [] w Hnd1 Hall1) as (w1 & E1 & H1 & Hr1 & Hb1).
  destruct (IH w1 Hnd2) as (w2 & E2 & H2 & Hr2 & Hb2).
  { rewrite Forall_forall in *. intros m Hm. rewrite Hr1; [by apply Hall2|].
    intros Hin. eapply Hdisj; [exact Hin|]. by apply list_elem_of_fmap_2. }
  exists w2. split; [|split; [|split]].
  - cbn. unfold pbind, ret. by rewrite E1, E2.
  - apply Forall_app. split; [|done]. rewrite Forall_forall in *. intros m Hm.
    rewrite Hr2; [by apply H1|]. apply Hdisj. by apply list_elem_of_fmap_2.
  - intros id Hid. apply not_elem_of_app in Hid as [Hid1 Hid2]. by rewrite Hr2, Hr1.
  - by rewrite Hb2, Hb1, foldl_app.
Qed.

Lemma collect_outcomes_ok (lanes : list (list OutboxMessage)) :
  collect_outcomes ((fun lane => (length lane, [])) <$> lanes)
  = mkDispatchResult (length (concat lanes)) [].
Proof.
  unfold collect_outcomes. change DispatchResult_default with (mkDispatchResult 0 []).
  change (length (concat lanes)) with (0 + length (concat lanes)).
  generalize 0. induction lanes as [|lane lanes IH]; intros n; cbn; [by rewrite Nat.add_0_r|].
  cbn in IH. rewrite IH, length_app. f_equal. lia.
Qed.
(** A sequential run over the in-memory stores: what it claims, it delivers. *)
Lemma dispatch_pending_in_memory limit (w : W) :
  well_keyed (lget w) ->
  exists claimed s1 w',
    claims_oldest (utc_now w).1 limit (lget w) claimed s1
    /\ dispatch_pending config limit w = (Some (mkDispatchResult (length claimed) []), w')
    /\ Forall (fun m => exists m', ob_store (lget w') !! ob_id m = Some m'
                                  /\ published_from m m') claimed
    /\ (forall id, id ∉ ob_id <$> claimed ->
          ob_store (lget w') !! id = ob_store (lget w) !! id)
    /\ exists sent, sent ≡ₚ claimed /\ lget w' = foldl deliver (lget w) sent.
Proof.
  intros Hk. unfold dispatch_pending, bind. cbn [outbox_pending InMemoryOutbox_repository].
  rewrite pending_method_spec. pose proof (utc_now_frame (S := InMemoryMessageBroker) w) as Fb.
  destruct (utc_now w) as [now w1]. cbn [fst snd] in *.
  pose proof (claim_all_oldest now limit (lget w) Hk) as Hc.
  destruct (claim_all _ _ _) as [claimed s1]. destruct Hc as [_ Hc].
  destruct (partition_lanes_ok claimed) as [by_key [Hp _ _ _ _]].
  destruct (dispatch_lanes_in_memory (partition_lanes claimed) (lset s1 w1))
    as (w' & E & Hpub & Hrest & Hb).
  { rewrite Hp. by apply (claims_nodup _ _ _ _ _ Hc). }
  { unfold outbox. rewrite Hp, lget_lset. apply Forall_forall. intros m Hm.
    rewrite (claims_store _ _ _ _ _ Hc), decide_True by (by apply list_elem_of_fmap_2).
    destruct (claims_due _ _ _ _ _ Hc m Hm) as (m0 & -> & _ & ->). done. }
  exists claimed, s1, w'. split; [done|]. unfold pbind, ret. rewrite E, collect_outcomes_ok.
  rewrite Hp in Hpub. split; [by rewrite (Permutation_length Hp)|]. split; [done|]. split.
  - intros id Hid. unfold outbox in Hrest. rewrite Hrest by (by rewrite Hp). rewrite lget_lset.
    by rewrite (claims_store _ _ _ _ _ Hc), decide_False.
  - exists (concat (partition_lanes claimed)). split; [done|].
    unfold broker in Hb. by rewrite Hb, lget_lset_other, Fb.
Qed.
End InMemoryDispatch.

(** ** Properties *)

(** C1: within one run, at any concurrency and under any interleaving of the
    lanes' calls and any failures of the store and the broker, the messages
    of a routing key reach the broker in claim order: the successful
    publications are a prefix of the key's claimed messages, and a failed
    publication is the last one of the key, of the message next in line. *)
Theorem dispatch_per_key_order (config : DispatchConfig) (pending : list OutboxMessage)
  (st : list Lane * list LogEntry) (k : string) :
  pool_reachable config pending st ->
  in_order (ob_message <$> filter (has_key k) pending) (key_publications k st.2).
Proof.
  intros Hr. apply pool_inv_reachable in Hr. destruct st as [pool log]. cbn [snd].
  destruct (decide (filter (has_key k) pending = [])) as [Hnil|Hne].
  - rewrite Hnil, key_publications_nil; [by exists [], []; split; [|left]|].
    intros e m He Hc Hk. destruct (logged_in_lane _ _ _ _ _ Hr He Hc) as (lane & om & Hl & Hin & <-).
    assert (om ∈ filter (has_key k) pending) as Hf
      by (apply list_elem_of_filter; split; [done|by eapply lane_elem_pending]).
    rewrite Hnil in Hf. by apply elem_of_nil in Hf.
  - destruct (key_lane pending k Hne) as (i & Hi & Huniq).
    rewrite (key_publications_lane k i log).
    + destruct Hr as (Hlen & Hinv & _). cbn in *.
      destruct (lookup_lt_is_Some_2 pool i) as [l Hl].
      { rewrite Hlen. by eapply lookup_lt_Some. }
      by apply (lane_inv_in_order _ l), Hinv.
    + intros e m He Hc. destruct (logged_in_lane _ _ _ _ _ Hr He Hc) as (lane & om & Hl & Hin & <-).
      split; [by eapply Huniq|]. intros Heq. rewrite Heq, Hi in Hl. injection Hl as <-.
      by apply list_elem_of_filter in Hin as [? _].
Qed.

(** No message is ever published without its attempt having been recorded:
    at any concurrency, in the sequence of calls of each lane every
    publication directly follows the successful [record_attempt] of the same
    claimed message. *)
Theorem dispatch_attempt_recorded (config : DispatchConfig) (pending : list OutboxMessage)
  (st : list Lane * list LogEntry) (lane : nat) :
  pool_reachable config pending st -> recorded_first pending (lane_log lane st.2).
Proof.
  intros (Hlen & Hinv & Hlog)%pool_inv_reachable. destruct st as [pool log]. cbn [snd fst] in *.
  destruct (partition_lanes pending !! lane) as [msgs|] eqn:Em.
  - destruct (lookup_lt_is_Some_2 pool lane) as [l Hl].
    { rewrite Hlen. by eapply lookup_lt_Some. }
    intros i m b Hi. destruct (lane_inv_recorded _ _ _ (Hinv _ _ _ Em Hl) _ _ _ Hi)
      as (i' & om & ? & Hom & ? & ?).
    exists i', om. repeat split; try done. by eapply lane_elem_pending.
  - intros i m b Hi. apply list_elem_of_lookup_2 in Hi. unfold lane_log in Hi.
    apply list_elem_of_fmap in Hi as (e & _ & He). apply list_elem_of_filter in He as [<- He].
    rewrite Forall_forall in Hlog. specialize (Hlog _ He). apply lookup_ge_None in Em. lia.
Qed.

(** C5: a run always ends: it makes at most one start per lane and three calls
    per claimed message, at most [concurrency.max(1)] lanes run at a time,
    and a state in which nothing more can happen has every lane finished,
    unless the retry policy panicked. *)
Theorem dispatch_terminates (config : DispatchConfig) (pending : list OutboxMessage) (n : nat)
  (st : list Lane * list LogEntry) :
  nsteps (pool_step config) n (pool_init pending) st ->
  n <= length (partition_lanes pending) + 3 * length pending
  /\ count_running st.1 <= Nat.max 1 (concurrency config)
  /\ ((forall st', ~ pool_step config st st') ->
      existsb panicked st.1 = true \/ forallb lane_done st.1 = true).
Proof.
  intros Hn. split; [|split].
  - enough (n + pool_measure st.1 <= pool_measure (pool_init pending).1) as Hm.
    { rewrite pool_measure_init in Hm. lia. }
    induction Hn as [|n x y z Hs _ IH]; [lia|].
    pose proof (pool_step_measure _ _ _ Hs). lia.
  - assert (H0 : count_running (pool_init pending).1 <= Nat.max 1 (concurrency config)).
    { rewrite count_running_0; [lia|]. intros i ls Hi. cbn in Hi.
      apply list_lookup_fmap_Some in Hi as (? & ? & ?). done. }
    induction Hn as [|n x y z Hs _ IH]; [done|]. apply IH. by eapply pool_step_running.
  - intros Hstuck. destruct st as [pool log]. cbn.
    destruct (existsb panicked pool) eqn:Ep; [by left|].
    destruct (forallb lane_done pool) eqn:Ed; [by right|].
    destruct (pool_progress config pool log Ep Ed) as [st' Hst]. by destruct (Hstuck st').
Qed.

(** The transition system is the code: a lane run alone, call after call
    through the store and the publisher with [3] units of fuel per message,
    is [dispatch_lane], and every answer it gets, retry decisions included,
    is one the transition system allows. *)
Theorem lane_machine_faithful {W} `{!Env W, !OutboxRepository W, !MessagePublisher W}
  (config : DispatchConfig) (lane : list OutboxMessage) (w : W) :
  run_lane config (3 * length lane) (lane_start lane 0 []) w = dispatch_lane config lane 0 [] w
  /\ forall ls w', answer_allowed config ls (exec_phase config (ls_current ls) (ls_phase ls) w').1.
Proof.
  split; [by apply run_lane_dispatch_lane|]. intros. apply exec_phase_allowed.
Qed.

(** Over the in-memory outbox and broker a sequential run delivers
    everything it claims: it reports as many publications as claimed
    messages and no error, leaves each of them published with one more
    attempt and every other record as it was, and appends the messages to the
    broker lane by lane, each exactly once. *)
Theorem dispatch_pending_delivers {W}
  `{!Env W, !Lens W InMemoryOutbox, !LensLaws W InMemoryOutbox,
    !Lens W InMemoryMessageBroker, !LensLaws W InMemoryMessageBroker,
    !EnvFrame W InMemoryOutbox, !EnvFrame W InMemoryMessageBroker,
    !LensDisjoint W InMemoryOutbox InMemoryMessageBroker,
    !LensDisjoint W InMemoryMessageBroker InMemoryOutbox,
    !Chrono, !MapIter Uuid OutboxMessage}
  (config : DispatchConfig) (limit : nat) (w : W) :
  well_keyed (lget w) ->
  exists claimed s1 w',
    claims_oldest (utc_now w).1 limit (lget w) claimed s1
    /\ dispatch_pending config limit w = (Some (mkDispatchResult (length claimed) []), w')
    /\ Forall (fun m => exists m', ob_store (lget w') !! ob_id m = Some m'
                                  /\ published_from m m') claimed
    /\ (forall id, id ∉ ob_id <$> claimed ->
          ob_store (lget w') !! id = ob_store (lget w) !! id)
    /\ exists sent, sent ≡ₚ claimed /\ lget w' = foldl deliver (lget w) sent.
Proof. apply dispatch_pending_in_memory. Qed.

(** ** Concrete runs *)

Definition sample_message (id : Uuid) (k : string) (created : Instant) : OutboxMessage :=
  mkOutboxMessage id (Message_with_key k (Message_new id "orders" "{}" "application/json"))
    Pending 0 created created created None.

Definition sample_batch : list OutboxMessage :=
  [sample_message 1 "a" (-3); sample_message 2 "b" (-2); sample_message 3 "a" (-1)].

Definition sample_log : list LogEntry :=
  [mkLogEntry 0 (CRecordAttempt 1) true;
   mkLogEntry 0 (CPublish (ob_message (sample_message 1 "a" (-3)))) true].

(** The first lane, started, records the attempt and publishes. *)
Lemma sample_run : exists pool,
  nsteps (pool_step DispatchConfig_default) 3 (pool_init sample_batch) (pool, sample_log).
Proof.
  set (m := sample_message 1 "a" (-3)). set (rest := [sample_message 3 "a" (-1)]).
  eexists. eapply nsteps_l.
  { apply (pool_start _ _ _ 0 (m :: rest)); [reflexivity|by apply Nat.ltb_lt|reflexivity|].
    intros j l Hj. lia. }
  eapply nsteps_l.
  { apply (pool_call _ _ _ 0 (mkLaneState m rest PRecord 0 []) (Ok tt)); done. }
  eapply nsteps_l.
  { apply (pool_call _ _ _ 0 (mkLaneState m rest PPublish 0 []) PubOk); done. }
  apply nsteps_O.
Qed.

Lemma dispatch_per_key_order_witness :
  in_order (ob_message <$> filter (has_key "a") sample_batch) (key_publications "a" sample_log).
Proof.
  destruct sample_run as [pool H].
  apply (dispatch_per_key_order DispatchConfig_default sample_batch (pool, sample_log) "a").
  by eapply rtc_nsteps_2.
Defined.

Lemma dispatch_attempt_recorded_witness :
  recorded_first sample_batch (lane_log 0 sample_log).
Proof.
  destruct sample_run as [pool H].
  apply (dispatch_attempt_recorded DispatchConfig_default sample_batch (pool, sample_log) 0).
  by eapply rtc_nsteps_2.
Defined.

Lemma dispatch_terminates_witness :
  exists pool,
    nsteps (pool_step DispatchConfig_default) 3 (pool_init sample_batch) (pool, sample_log)
    /\ 3 <= length (partition_lanes sample_batch) + 3 * length sample_batch
    /\ count_running pool <= Nat.max 1 (concurrency DispatchConfig_default).
Proof.
  destruct sample_run as [pool H]. exists pool. split; [exact H|].
  destruct (dispatch_terminates _ _ _ _ H) as (H1 & H2 & _). split; [exact H1|exact H2].
Defined.

(** The batch of three, due, in an in-memory world. *)
Definition sample_world : World (InMemoryOutbox * InMemoryMessageBroker) :=
  mkWorld env_start
    (mkInMemoryOutbox (list_to_map ((fun m => (ob_id m, m)) <$> sample_batch))
       DEFAULT_CLAIM_LEASE, InMemoryMessageBroker_new).

Lemma dispatch_pending_delivers_witness :
  exists claimed s1 w',
    claims_oldest 0 100 (lget sample_world) claimed s1
    /\ dispatch_pending DispatchConfig_default 100 sample_world
       = (Some (mkDispatchResult (length claimed) []), w').
Proof.
  destruct (dispatch_pending_delivers DispatchConfig_default 100 sample_world)
    as (claimed & s1 & w' & H1 & H2 & _).
  - apply (bool_decide_unpack _). vm_compute. exact I.
  - exists claimed, s1, w'. split; [exact H1|exact H2].
Defined.

(** With the default concurrency of one the claim order is not the order
    of publication: claimed as 1, 2, 3 with keys a, b, a, the batch reaches
    the broker as 1, 3, 2, because the batch is split into lanes at every
    concurrency. *)
Theorem sequential_dispatch_reorders_claims :
  concurrency DispatchConfig_default = 1
  /\ (exists claimed, (outbox_pending 100 sample_world).1 = Ok claimed
                      /\ ob_id <$> claimed = [1; 2; 3]%Z)
  /\ (fun d => message_id (delivery_message d))
       <$> queue_of (lget (dispatch_batch DispatchConfig_default sample_world).2) "orders"
     = [1; 3; 2]%Z.
Proof. split; [done|]. split; [eexists; split|]; vm_compute; reflexivity. Qed.

(** A broker that refuses its first publications with a transient error. *)
Record FlakyBroker := mkFlakyBroker { refusals : nat; accepted : list Message }.

Definition FlakyBroker_publish (m : Message) : M FlakyBroker (result unit MessagingError) :=
  fun b => match refusals b with
           | O => (Ok tt, mkFlakyBroker 0 (accepted b ++ [m]))
           | S n => (Err (Publish "connection refused"), mkFlakyBroker n (accepted b))
           end.

#[export] Instance FlakyBroker_publisher {W} `{!Lens W FlakyBroker} : MessagePublisher W | 50 := {
  publish m := zoom (FlakyBroker_publish m);
}.

(** The first four clock readings at 0, then 31 s (past the claim lease),
    then 131 s (past the backoff of 100 s). *)
Definition retry_world : World (InMemoryOutbox * FlakyBroker) :=
  let sec n := (n * NANOS_PER_SEC)%Z in
  mkWorld
    (mkEnvState 0 (fun n => if (n <? 4)%nat then sec 0%Z else if (n <? 7)%nat then sec 31%Z else sec 131%Z)
       0 (fun n => Z.of_nat n) 0 (fun _ => S754_zero false))
    (mkInMemoryOutbox
       {[1%Z := sample_message 1 "a" (-3); 2%Z := sample_message 2 "a" (-2)]}
       DEFAULT_CLAIM_LEASE, mkFlakyBroker 1 []).

Definition retry_config : DispatchConfig :=
  DispatchConfig_new 100 (RetryPolicy_new 5 (100 * NANOS_PER_SEC)).

(** Across runs of a single dispatcher a transient failure does reorder a
    key's messages: message 1 is refused once and backs off 100 s, message 2
    of the same key is not attempted in that run, but its claim lease of 30 s
    runs out first, so the next run publishes it and message 1 follows. *)
Theorem transient_failure_reorders_key :
  let '(r1, w1) := dispatch_batch retry_config retry_world in
  let '(r2, w2) := dispatch_batch retry_config w1 in
  let '(r3, w3) := dispatch_batch retry_config w2 in
  r1 = Some (mkDispatchResult 0 [DispatchMessaging (Publish "connection refused")])
  /\ (ob_attempts <$> ob_store (lget w1) !! 2%Z) = Some 0%Z
  /\ r2 = Some (mkDispatchResult 1 []) /\ r3 = Some (mkDispatchResult 1 [])
  /\ message_id <$> accepted (lget w3) = [2; 1]%Z.
Proof. vm_compute. repeat split. Qed.
