(* ===== verification/Inbox.v ===== *)
(** * Inbox: idempotency records with a stale-processing lease

    Models [crates/pharos-messaging/src/inbox.rs] and the in-memory store
    [crates/pharos-memory/src/in_memory_inbox.rs]. *)

From S2P Require Import Prelude Messaging.
Local Open Scope Z_scope.

(** ** Records (inbox.rs) *)

Inductive InboxStatus := IProcessing | ICompleted | IFailed.

#[export] Instance InboxStatus_eq_dec : EqDecision InboxStatus.
Proof. solve_decision. Defined.

Record InboxMessage := mkInboxMessage {
  ib_message_id : Uuid;
  ib_consumer : string;
  ib_status : InboxStatus;
  ib_received_at : Instant;
  ib_updated_at : Instant;
  ib_last_error : option string;
}.

Definition set_ib (s : InboxStatus) (now : Instant) (err : option string) (m : InboxMessage)
  : InboxMessage :=
  mkInboxMessage (ib_message_id m) (ib_consumer m) s (ib_received_at m) now err.

Section InboxMessageOps.
Context {W : Type} `{!Env W}.

Definition InboxMessage_processing (message_id : Uuid) (consumer : string) : M W InboxMessage :=
  do! now <- utc_now;
  ret (mkInboxMessage message_id consumer IProcessing now now None).

Definition InboxMessage_mark_completed (m : InboxMessage) : M W InboxMessage :=
  do! now <- utc_now; ret (set_ib ICompleted now None m).

Definition InboxMessage_mark_failed (error : string) (m : InboxMessage) : M W InboxMessage :=
  do! now <- utc_now; ret (set_ib IFailed now (Some error) m).
End InboxMessageOps.

Inductive IdempotencyDecision :=
| StartProcessing
| AlreadyProcessing
| AlreadyCompleted
| RetryPreviousFailure.

#[export] Instance IdempotencyDecision_eq_dec : EqDecision IdempotencyDecision.
Proof. solve_decision. Defined.

Inductive InboxError :=
| InboxNotFound (message_id : Uuid) (consumer : string)
| InboxStorage (e : string).

Class InboxStore (W : Type) : Type := {
  begin_processing : Uuid -> string -> M W (result IdempotencyDecision InboxError);
  inbox_mark_completed : Uuid -> string -> M W (result unit InboxError);
  inbox_mark_failed : Uuid -> string -> string -> M W (result unit InboxError);
  inbox_get : Uuid -> string -> M W (result (option InboxMessage) InboxError);
}.

(** ** The in-memory store *)

Record InMemoryInbox := mkInMemoryInbox {
  ib_store : gmap (Uuid * string) InboxMessage;
  stale_after : Duration;
}.

Definition DEFAULT_STALE_AFTER : Duration := 300 * NANOS_PER_SEC.
Definition InMemoryInbox_default : InMemoryInbox := mkInMemoryInbox ∅ DEFAULT_STALE_AFTER.
Definition InMemoryInbox_with_stale_after (d : Duration) (s : InMemoryInbox) : InMemoryInbox :=
  mkInMemoryInbox (ib_store s) d.

Definition ib_put (k : Uuid * string) (m : InboxMessage) (s : InMemoryInbox) : InMemoryInbox :=
  mkInMemoryInbox (<[k := m]> (ib_store s)) (stale_after s).

Section InMemoryInboxOps.
Context {W : Type} `{!Env W, !Lens W InMemoryInbox, !Chrono}.

Definition InMemoryInbox_begin_processing (message_id : Uuid) (consumer : string)
  : M W (result IdempotencyDecision InboxError) :=
  do! s <- mget;
  match ib_store s !! (message_id, consumer) with
  | None =>
      do! m <- InboxMessage_processing message_id consumer;
      do! _ <- mput (ib_put (message_id, consumer) m s);
      ret (Ok StartProcessing)
  | Some entry =>
      match ib_status entry with
      | IProcessing =>
          match from_std (stale_after s) with
          | None => ret (Err (InboxStorage "OutOfRangeError"))
          | Some stale_after =>
              do! now <- utc_now;
              if now - stale_after <? ib_updated_at entry then ret (Ok AlreadyProcessing)
              else
                do! now' <- utc_now;
                do! _ <- mput (ib_put (message_id, consumer) (set_ib IProcessing now' None entry) s);
                ret (Ok StartProcessing)
          end
      | ICompleted => ret (Ok AlreadyCompleted)
      | IFailed => ret (Ok RetryPreviousFailure)
      end
  end.

(** [get_mut(&key).ok_or_else(NotFound)?] and an update under the lock. *)
Definition ib_update (message_id : Uuid) (consumer : string)
  (f : InboxMessage -> M W InboxMessage) : M W (result unit InboxError) :=
  do! s <- mget;
  match ib_store s !! (message_id, consumer) with
  | None => ret (Err (InboxNotFound message_id consumer))
  | Some m =>
      do! m <- f m;
      do! _ <- mput (ib_put (message_id, consumer) m s);
      ret (Ok tt)
  end.

Definition InMemoryInbox_mark_completed (message_id : Uuid) (consumer : string)
  : M W (result unit InboxError) :=
  ib_update message_id consumer InboxMessage_mark_completed.

Definition InMemoryInbox_mark_failed (message_id : Uuid) (consumer error : string)
  : M W (result unit InboxError) :=
  ib_update message_id consumer (InboxMessage_mark_failed error).

Definition InMemoryInbox_get (message_id : Uuid) (consumer : string)
  : M W (result (option InboxMessage) InboxError) :=
  do! s <- mget; ret (Ok (ib_store s !! (message_id, consumer))).

#[export] Instance InMemoryInbox_inbox : InboxStore W := {
  begin_processing := InMemoryInbox_begin_processing;
  inbox_mark_completed := InMemoryInbox_mark_completed;
  inbox_mark_failed := InMemoryInbox_mark_failed;
  inbox_get := InMemoryInbox_get;
}.
End InMemoryInboxOps.

#[global] Arguments InMemoryInbox_begin_processing : simpl never.
#[global] Arguments InMemoryInbox_mark_completed : simpl never.
#[global] Arguments InMemoryInbox_mark_failed : simpl never.
#[global] Arguments InMemoryInbox_get : simpl never.

(** ** What an inbox promises its consumers

    The state of a record as a consumer sees it; [Running since] is a lease. *)

Inductive InboxState :=
| Unseen
| Running (since : Instant)
| Completed
| FailedBefore.

Definition inbox_state (s : InMemoryInbox) (id : Uuid) (consumer : string) : InboxState :=
  match ib_store s !! (id, consumer) with
  | None => Unseen
  | Some m => match ib_status m with
              | IProcessing => Running (ib_updated_at m)
              | ICompleted => Completed
              | IFailed => FailedBefore
              end
  end.

(** The outcomes [begin_processing] may have in a state, at an instant [now],
    with a lease [d]. *)
Definition begin_outcome (d : Duration) (now : Instant) (st : InboxState)
  : IdempotencyDecision :=
  match st with
  | Unseen => StartProcessing
  | Running since => if now - d <? since then AlreadyProcessing else StartProcessing
  | Completed => AlreadyCompleted
  | FailedBefore => RetryPreviousFailure
  end.

Section InboxLemmas.
Context {W : Type} `{!Env W, !Lens W InMemoryInbox, !LensLaws W InMemoryInbox,
  !EnvFrame W InMemoryInbox, !Chrono}.

Let state (w : W) := inbox_state (lget w).

Lemma inbox_state_put k m s id consumer :
  inbox_state (ib_put k m s) id consumer =
  if decide (k = (id, consumer)) then
    match ib_status m with
    | IProcessing => Running (ib_updated_at m) | ICompleted => Completed | IFailed => FailedBefore
    end
  else inbox_state s id consumer.
Proof.
  unfold inbox_state. cbn. destruct (decide (k = (id, consumer))) as [->|].
  - by rewrite lookup_insert_eq.
  - by rewrite lookup_insert_ne.
Qed.

(** The decision is the one of the state; only [StartProcessing] changes the
    record, to a lease from an instant read during the call. *)
Lemma begin_processing_spec id consumer (w : W) d :
  from_std (stale_after (lget w)) = Some d ->
  exists now w',
    InMemoryInbox_begin_processing id consumer w
      = (Ok (begin_outcome d now (state w id consumer)), w')
    /\ stale_after (lget w') = stale_after (lget w)
    /\ (forall id' consumer', (id', consumer') <> (id, consumer) ->
          state w' id' consumer' = state w id' consumer')
    /\ match begin_outcome d now (state w id consumer) with
       | StartProcessing => exists since, state w' id consumer = Running since
           /\ (since = (utc_now w).1 \/ since = (utc_now (utc_now w).2).1)
       | _ => lget w' = lget w :> InMemoryInbox
       end.
Proof.
  intros Hd. unfold InMemoryInbox_begin_processing, InboxMessage_processing, state, bind, mget,
    mput, ret. unfold inbox_state at 1 4.
  destruct (ib_store (lget w) !! (id, consumer)) as [m|] eqn:Em; [destruct (ib_status m) eqn:Es|].
  - rewrite Hd. pose proof (utc_now_frame w) as F1. destruct (utc_now w) as [now w1]. cbn in F1.
    exists now. cbn. destruct (now - d <? ib_updated_at m) eqn:Ed.
    + exists w1. rewrite F1. by repeat split.
    + pose proof (utc_now_frame w1) as F2. destruct (utc_now w1) as [now' w2]. cbn in F2.
      eexists. split; [done|]. rewrite lget_lset. split; [done|]. split.
      * intros id' c' Hne. rewrite inbox_state_put, decide_False by congruence. done.
      * exists now'. rewrite inbox_state_put, decide_True by done. split; [done|by right].
  - exists 0, w. by repeat split.
  - exists 0, w. by repeat split.
  - pose proof (utc_now_frame w) as F1. destruct (utc_now w) as [now w1]. cbn in F1.
    exists now. eexists. split; [done|]. rewrite lget_lset. split; [done|]. split.
    + intros id' c' Hne. rewrite inbox_state_put, decide_False by congruence. done.
    + exists now. rewrite inbox_state_put, decide_True by done. split; [done|by left].
Qed.

(** Marking a record that exists. *)
Lemma ib_update_spec id consumer (f : InboxMessage -> M W InboxMessage) (w : W) :
  (forall m w, lget (f m w).2 = lget w :> InMemoryInbox) ->
  state w id consumer <> Unseen ->
  exists m m' w', ib_update id consumer f w = (Ok tt, w')
    /\ lget w' = ib_put (id, consumer) m' (lget w) /\ exists wf, m' = (f m wf).1.
Proof.
  intros Hf Hs. unfold state, inbox_state in Hs. unfold ib_update, bind, mget, mput, ret.
  destruct (ib_store (lget w) !! (id, consumer)) as [m|]; [|done].
  specialize (Hf m w). destruct (f m w) as [m' w1] eqn:E. cbn in Hf.
  exists m, m', (lset (ib_put (id, consumer) m' (lget w)) w1). split; [done|].
  split; [by rewrite lget_lset|]. exists w. by rewrite E.
Qed.

Lemma mark_completed_spec id consumer (w : W) :
  state w id consumer <> Unseen ->
  exists w', InMemoryInbox_mark_completed id consumer w = (Ok tt, w')
    /\ stale_after (lget w') = stale_after (lget w)
    /\ forall id' c', state w' id' c'
         = if decide ((id, consumer) = (id', c')) then Completed else state w id' c'.
Proof.
  intros Hs. destruct (ib_update_spec id consumer InboxMessage_mark_completed w)
    as (m & m' & w' & E & Hl & wf & Hm); [|done|].
  - intros. unfold InboxMessage_mark_completed, bind, ret.
    pose proof (utc_now_frame w0). by destruct (utc_now w0).
  - exists w'. split; [exact E|]. unfold state. rewrite Hl. split; [done|]. intros id' c'.
    rewrite inbox_state_put. subst m'. unfold InboxMessage_mark_completed, bind, ret.
    destruct (utc_now wf). done.
Qed.

Lemma mark_failed_spec id consumer error (w : W) :
  state w id consumer <> Unseen ->
  exists w', InMemoryInbox_mark_failed id consumer error w = (Ok tt, w')
    /\ stale_after (lget w') = stale_after (lget w)
    /\ forall id' c', state w' id' c'
         = if decide ((id, consumer) = (id', c')) then FailedBefore else state w id' c'.
Proof.
  intros Hs. destruct (ib_update_spec id consumer (InboxMessage_mark_failed error) w)
    as (m & m' & w' & E & Hl & wf & Hm); [|done|].
  - intros. unfold InboxMessage_mark_failed, bind, ret.
    pose proof (utc_now_frame w0). by destruct (utc_now w0).
  - exists w'. split; [exact E|]. unfold state. rewrite Hl. split; [done|]. intros id' c'.
    rewrite inbox_state_put. subst m'. unfold InboxMessage_mark_failed, bind, ret.
    destruct (utc_now wf). done.
Qed.

Lemma begin_processing_cases id consumer (w : W) d :
  from_std (stale_after (lget w)) = Some d ->
  exists decision w',
    InMemoryInbox_begin_processing id consumer w = (Ok decision, w')
    /\ stale_after (lget w') = stale_after (lget w)
    /\ (forall id' consumer', (id', consumer') <> (id, consumer) ->
          state w' id' consumer' = state w id' consumer')
    /\ match decision with
       | StartProcessing | RetryPreviousFailure =>
           state w id consumer <> Completed /\ state w' id consumer <> Completed
           /\ state w' id consumer <> Unseen
       | AlreadyCompleted => state w id consumer = Completed /\ lget w' = lget w :> InMemoryInbox
       | AlreadyProcessing => lget w' = lget w :> InMemoryInbox
       end.
Proof.
  intros Hd. destruct (begin_processing_spec id consumer w d Hd) as (now & w' & E & Hst & Ho & Hs).
  exists (begin_outcome d now (state w id consumer)), w'.
  split; [exact E|]. split; [exact Hst|]. split; [exact Ho|].
  unfold state in *. destruct (inbox_state (lget w) id consumer) as [|since| |] eqn:Es;
    cbn in Hs |- *; [| |done|].
  - destruct Hs as (t & Hs & _). rewrite Hs. done.
  - destruct (now - d <? since); [done|]. destruct Hs as (t & Hs & _). by rewrite Hs.
  - rewrite Hs, Es. done.
Qed.

(** The store's operations keep to themselves. *)
Section Frame.
Context {T : Type} `{!Lens W T, !EnvFrame W T, !LensDisjoint W InMemoryInbox T}.

Lemma begin_processing_frame id consumer (w : W) :
  lget (InMemoryInbox_begin_processing id consumer w).2 = lget w :> T.
Proof.
  unfold InMemoryInbox_begin_processing, InboxMessage_processing, bind, mget, mput, ret.
  destruct (ib_store (lget w) !! (id, consumer)) as [m|]; [destruct (ib_status m)|]; try done.
  - destruct (from_std _); [|done]. pose proof (utc_now_frame (S := T) w) as F1.
    destruct (utc_now w) as [now w1]. cbn in F1. destruct (_ <? _); [done|].
    pose proof (utc_now_frame (S := T) w1) as F2. destruct (utc_now w1) as [now' w2]. cbn in F2 |- *.
    rewrite lget_lset_other. congruence.
  - pose proof (utc_now_frame (S := T) w) as F1. destruct (utc_now w) as [now w1]. cbn in F1 |- *.
    by rewrite lget_lset_other.
Qed.

Lemma ib_update_frame id consumer f (w : W) :
  (forall m w, lget (f m w).2 = lget w :> T) -> lget (ib_update id consumer f w).2 = lget w :> T.
Proof.
  intros Hf. unfold ib_update, bind, mget, mput, ret.
  destruct (ib_store (lget w) !! (id, consumer)) as [m|]; [|done].
  specialize (Hf m w). destruct (f m w) as [m' w1]. cbn in Hf |- *. by rewrite lget_lset_other.
Qed.

Lemma mark_completed_frame id consumer (w : W) :
  lget (InMemoryInbox_mark_completed id consumer w).2 = lget w :> T.
Proof.
  apply ib_update_frame. intros m w0. unfold InboxMessage_mark_completed, bind, ret.
  pose proof (utc_now_frame (S := T) w0). by destruct (utc_now w0).
Qed.

Lemma mark_failed_frame id consumer error (w : W) :
  lget (InMemoryInbox_mark_failed id consumer error w).2 = lget w :> T.
Proof.
  apply ib_update_frame. intros m w0. unfold InboxMessage_mark_failed, bind, ret.
  pose proof (utc_now_frame (S := T) w0). by destruct (utc_now w0).
Qed.
End Frame.
End InboxLemmas.

(** ** Properties *)

(** A started message is leased: when [begin_processing] answers
    [StartProcessing] the record runs from an instant the call read, and any
    later call on it answers [AlreadyProcessing] and changes nothing while
    less than the stale-processing lease has passed, so two consumers whose
    clocks agree to within the lease never both start the message. *)
Theorem inbox_lease_excludes {W}
  `{!Env W, !Lens W InMemoryInbox, !LensLaws W InMemoryInbox, !EnvFrame W InMemoryInbox, !Chrono}
  (id : Uuid) (consumer : string) (d : Duration) (w w1 : W) :
  from_std (stale_after (lget w)) = Some d ->
  InMemoryInbox_begin_processing id consumer w = (Ok StartProcessing, w1) ->
  exists since,
    (since = (utc_now w).1 \/ since = (utc_now (utc_now w).2).1)
    /\ inbox_state (lget w1) id consumer = Running since
    /\ forall w2, lget w2 = lget w1 :> InMemoryInbox -> (utc_now w2).1 < since + d ->
         exists w3, InMemoryInbox_begin_processing id consumer w2 = (Ok AlreadyProcessing, w3)
           /\ lget w3 = lget w2 :> InMemoryInbox.
Proof.
  intros Hd Hb. destruct (begin_processing_spec id consumer w d Hd) as (now & w' & E & Hst & _ & Hs).
  rewrite E in Hb. injection Hb as Ho ->. rewrite Ho in Hs.
  destruct Hs as (since & Hs & Hsince). exists since. split; [done|]. split; [done|].
  intros w2 Hl2 Hlt. unfold inbox_state in Hs.
  unfold InMemoryInbox_begin_processing, bind, mget, ret. rewrite Hl2.
  destruct (ib_store (lget w1) !! (id, consumer)) as [m|]; [|done].
  destruct (ib_status m); try done. injection Hs as Hs. rewrite Hst, Hd.
  pose proof (utc_now_frame w2) as F. destruct (utc_now w2) as [now2 w3]. cbn in F, Hlt |- *.
  destruct (now2 - d <? ib_updated_at m) eqn:El; [|lia]. exists w3. split; [done|]. congruence.
Qed.

Definition empty_inbox_world : World InMemoryInbox := mkWorld env_start InMemoryInbox_default.

Lemma inbox_lease_excludes_witness :
  exists since, inbox_state (lget (InMemoryInbox_begin_processing 7 "billing" empty_inbox_world).2)
                  7 "billing" = Running since.
Proof.
  destruct (inbox_lease_excludes 7 "billing" DEFAULT_STALE_AFTER empty_inbox_world
              (InMemoryInbox_begin_processing 7 "billing" empty_inbox_world).2)
    as (since & _ & H & _).
  - vm_compute. reflexivity.
  - vm_compute. reflexivity.
  - exists since. exact H.
Defined.

(** A failed message takes no lease when it is retried: any number of
    consumers that begin it while it is recorded as failed are all told
    [RetryPreviousFailure] and leave the record unchanged, so all of them run
    the handler. *)
Theorem retry_takes_no_lease {W} `{!Env W, !Lens W InMemoryInbox, !Chrono}
  (id : Uuid) (consumer : string) (w : W) :
  inbox_state (lget w) id consumer = FailedBefore ->
  InMemoryInbox_begin_processing id consumer w = (Ok RetryPreviousFailure, w).
Proof.
  unfold inbox_state, InMemoryInbox_begin_processing, bind, mget, ret. intros Hs.
  destruct (ib_store (lget w) !! (id, consumer)) as [m|]; [|done]. by destruct (ib_status m).
Qed.

Lemma retry_takes_no_lease_witness :
  let w := (InMemoryInbox_mark_failed 7 "billing" "timeout"
              (InMemoryInbox_begin_processing 7 "billing" empty_inbox_world).2).2 in
  InMemoryInbox_begin_processing 7 "billing" w = (Ok RetryPreviousFailure, w).
Proof. apply retry_takes_no_lease. vm_compute. reflexivity. Defined.
