(* ===== verification/Consume.v ===== *)
(** * Consume: the idempotent-consumer flow

    Models [crates/pharos-messaging/src/consume.rs] over any inbox,
    acknowledger and dead-letter queue, and proves what a consumer gets from
    it over the in-memory inbox. *)

From S2P Require Import Prelude Messaging Inbox.
Local Open Scope Z_scope.

Inductive ProcessOutcome :=
| Processed
| SkippedDuplicate
| StillProcessing
| OutcomeDeadLettered.

Inductive ProcessError (E : Type) :=
| ProcessInbox (e : InboxError)
| ProcessMessaging (e : MessagingError)
| ProcessDeadLetter (source : DeadLetterError) (handler_error : string)
| ProcessHandler (e : E).
Arguments ProcessInbox {E} _.
Arguments ProcessMessaging {E} _.
Arguments ProcessDeadLetter {E} _ _.
Arguments ProcessHandler {E} _.

Section Consume.
Context {W E : Type} `{!Env W, !InboxStore W, !MessageAcknowledger W, !DeadLetterQueue W}.
Variable to_string : E -> string.

(** [?] on an inbox or messaging call. *)
Definition inbox_call {A} (c : M W (result A InboxError)) : M W (result A (ProcessError E)) :=
  mmap (map_err ProcessInbox) c.
Definition messaging_call {A} (c : M W (result A MessagingError))
  : M W (result A (ProcessError E)) := mmap (map_err ProcessMessaging) c.

Definition process_idempotent (consumer : string) (delivery : Delivery)
  (handle : Delivery -> M W (result unit E)) : M W (result ProcessOutcome (ProcessError E)) :=
  let message_id := message_id (delivery_message delivery) in
  try! decision <- inbox_call (begin_processing message_id consumer);
  match decision with
  | AlreadyCompleted =>
      try! _ <- messaging_call (ack delivery);
      ret (Ok SkippedDuplicate)
  | AlreadyProcessing =>
      try! _ <- messaging_call (nack delivery true);
      ret (Ok StillProcessing)
  | StartProcessing | RetryPreviousFailure =>
      do! handled <- handle delivery;
      match handled with
      | Ok _ =>
          try! _ <- inbox_call (inbox_mark_completed message_id consumer);
          try! _ <- messaging_call (ack delivery);
          ret (Ok Processed)
      | Err error =>
          try! _ <- inbox_call (inbox_mark_failed message_id consumer (to_string error));
          try! _ <- messaging_call (nack delivery true);
          ret (Err (ProcessHandler error))
      end
  end.

(** [None] when the retry policy panics. *)
Definition process_idempotent_with_retry (consumer : string) (delivery : Delivery)
  (retry : RetryPolicy) (handle : Delivery -> M W (result unit E))
  : M W (option (result ProcessOutcome (ProcessError E))) :=
  let message_id := message_id (delivery_message delivery) in
  ptry! decision <- inbox_call (begin_processing message_id consumer);
  match decision with
  | AlreadyCompleted =>
      ptry! _ <- messaging_call (ack delivery);
      ret (Some (Ok SkippedDuplicate))
  | AlreadyProcessing =>
      ptry! _ <- messaging_call (nack delivery true);
      ret (Some (Ok StillProcessing))
  | StartProcessing | RetryPreviousFailure =>
      do! handled <- handle delivery;
      match handled with
      | Ok _ =>
          ptry! _ <- inbox_call (inbox_mark_completed message_id consumer);
          ptry! _ <- messaging_call (ack delivery);
          ret (Some (Ok Processed))
      | Err error =>
          ptry! _ <- inbox_call (inbox_mark_failed message_id consumer (to_string error));
          live! decision <- RetryPolicy_decide retry (attempt delivery);
          match decision with
          | RetryAfter _ =>
              ptry! _ <- messaging_call (nack delivery true);
              ret (Some (Err (ProcessHandler error)))
          | DeadLetter_ =>
              let handler_error := to_string error in
              do! dead <- DeadLetterMessage_new (delivery_message delivery) handler_error
                            (attempt delivery);
              do! parked <- dead_letter dead;
              match parked with
              | Err source => ret (Some (Err (ProcessDeadLetter source handler_error)))
              | Ok _ =>
                  ptry! _ <- messaging_call (nack delivery false);
                  ret (Some (Err (ProcessHandler error)))
              end
          end
      end
  end.
End Consume.

(** ** Consumers over the in-memory inbox *)

(** The journal of a handler: which message it ran for and whether it
    succeeded. *)
Record Journal := mkJournal { ran : list (Uuid * bool) }.

(** A handler whose outcome is any function of the delivery and of what
    happened before. *)
Definition journaled {W E} `{!Lens W Journal} (behaviour : list (Uuid * bool) -> Delivery -> result unit E)
  (d : Delivery) : M W (result unit E) :=
  zoom (fun j => let r := behaviour (ran j) d in
                 (r, mkJournal (ran j ++ [(message_id (delivery_message d), is_ok r)]))).

Section Once.
Context {W E : Type} `{!Env W, !Chrono, !Lens W InMemoryInbox, !LensLaws W InMemoryInbox,
  !EnvFrame W InMemoryInbox, !Lens W Journal, !LensLaws W Journal, !EnvFrame W Journal,
  !LensDisjoint W InMemoryInbox Journal, !LensDisjoint W Journal InMemoryInbox,
  !MessageAcknowledger W}.
Variable to_string : E -> string.
Variable consumer : string.
Variable behaviour : list (Uuid * bool) -> Delivery -> result unit E.
Hypothesis ack_inbox : forall d, keeps InMemoryInbox (ack d).
Hypothesis nack_inbox : forall d b, keeps InMemoryInbox (nack d b).
Hypothesis ack_journal : forall d, keeps Journal (ack d).
Hypothesis nack_journal : forall d b, keeps Journal (nack d b).

(** The journal's successes are recorded as completed, each once, and the
    lease is one chrono can hold. *)
Definition once_inv (w : W) : Prop :=
  (exists d, from_std (stale_after (lget w)) = Some d) /\
  (forall id, (id, true) ∈ ran (lget w) -> inbox_state (lget w) id consumer = Completed)
  /\ NoDup ((filter (fun e => e.2 = true) (ran (lget w))).*1).

Fixpoint consume_all (ds : list Delivery) : M W unit :=
  match ds with
  | [] => ret tt
  | d :: ds =>
      do! _ <- process_idempotent to_string consumer d (journaled behaviour);
      consume_all ds
  end.

Lemma once_inv_ext w w' :
  lget w' = lget w :> InMemoryInbox -> lget w' = lget w :> Journal -> once_inv w -> once_inv w'.
Proof. unfold once_inv. by intros -> ->. Qed.

(** After the handler ran for a message not yet completed, marking it
    restores the invariant. *)
Lemma once_inv_handled w w' id (ok : bool) :
  once_inv w -> inbox_state (lget w) id consumer <> Completed ->
  stale_after (lget w') = stale_after (lget w) ->
  ran (lget w') = ran (lget w) ++ [(id, ok)] ->
  (forall id', inbox_state (lget w') id' consumer =
     if decide (id = id') then (if ok then Completed else FailedBefore)
     else inbox_state (lget w) id' consumer) ->
  once_inv w'.
Proof.
  intros ([d Hd] & Hc & Hn) Hnc Hst Hr Hs. split; [exists d; congruence|].
  assert (Hni : (id, true) ∉ ran (lget w)) by (intros Hin; by apply Hnc, Hc).
  split.
  - intros id' Hin. rewrite Hr in Hin. rewrite Hs. apply elem_of_app in Hin as [Hin|Hin].
    + destruct (decide (id = id')) as [<-|]; [done|by apply Hc].
    + apply list_elem_of_singleton in Hin as [= <- <-]. by rewrite decide_True.
  - rewrite Hr, filter_app, fmap_app. destruct ok; [|by rewrite app_nil_r].
    apply NoDup_app. split; [done|]. split; [|apply NoDup_singleton].
    intros x Hx Hx'. apply list_elem_of_singleton in Hx'.
    apply list_elem_of_fmap in Hx as ([y b] & Ey & Hy).
    apply list_elem_of_filter in Hy as [Hb Hy]. cbn in *. congruence.
Qed.

Lemma handled_once d w w1 :
  let id := message_id (delivery_message d) in
  once_inv w -> inbox_state (lget w) id consumer <> Completed ->
  lget w1 = lget w :> Journal -> stale_after (lget w1) = stale_after (lget w) ->
  (forall id', id' <> id -> inbox_state (lget w1) id' consumer = inbox_state (lget w) id' consumer) ->
  inbox_state (lget w1) id consumer <> Unseen ->
  let '(handled, w2) := journaled behaviour d w1 in
  exists w3, once_inv w3 /\
    match handled with
    | Ok _ => inbox_mark_completed id consumer w2 = (Ok tt, w3)
    | Err e => inbox_mark_failed id consumer (to_string e) w2 = (Ok tt, w3)
    end.
Proof.
  intros id Hinv Hnc Hj Hst Ho Hu. unfold journaled, zoom. cbn.
  set (r := behaviour _ d). set (w2 := lset _ w1).
  assert (Hi2 : lget w2 = lget w1 :> InMemoryInbox) by (unfold w2; by rewrite lget_lset_other).
  assert (Hj2 : ran (lget w2) = ran (lget w) ++ [(id, is_ok r)])
    by (unfold w2; rewrite lget_lset; cbn; by rewrite Hj).
  destruct r as [u|e]; cbn in Hj2.
  - destruct (mark_completed_spec id consumer w2) as (w3 & Em & Hst3 & Hs3); [by rewrite Hi2|].
    pose proof (mark_completed_frame (T := Journal) id consumer w2) as F. rewrite Em in F. cbn in F.
    exists w3. split; [|exact Em]. eapply (once_inv_handled w w3 id true); try done.
    + congruence.
    + by rewrite F.
    + intros id'. rewrite Hs3, Hi2. destruct (decide (id = id')) as [<-|Hne].
      * by rewrite decide_True.
      * rewrite decide_False by congruence. apply Ho. congruence.
  - destruct (mark_failed_spec id consumer (to_string e) w2) as (w3 & Em & Hst3 & Hs3); [by rewrite Hi2|].
    pose proof (mark_failed_frame (T := Journal) id consumer (to_string e) w2) as F.
    rewrite Em in F. cbn in F.
    exists w3. split; [|exact Em]. eapply (once_inv_handled w w3 id false); try done.
    + congruence.
    + by rewrite F.
    + intros id'. rewrite Hs3, Hi2. destruct (decide (id = id')) as [<-|Hne].
      * by rewrite decide_True.
      * rewrite decide_False by congruence. apply Ho. congruence.
Qed.

Lemma ack_nack_once d b w : once_inv w -> once_inv (ack d w).2 /\ once_inv (nack d b w).2.
Proof.
  intros Hw. split; (eapply once_inv_ext; [| |exact Hw]).
  - apply ack_inbox.
  - apply ack_journal.
  - apply nack_inbox.
  - apply nack_journal.
Qed.

Lemma process_idempotent_once d w :
  once_inv w -> once_inv (process_idempotent to_string consumer d (journaled behaviour) w).2.
Proof.
  intros Hinv. pose proof Hinv as ([st Hst] & _ & _).
  unfold process_idempotent, inbox_call, messaging_call, tbind, bind, mmap, ret.
  cbn [begin_processing InMemoryInbox_inbox].
  set (id := message_id (delivery_message d)).
  pose proof (begin_processing_frame (T := Journal) id consumer w) as Fb.
  destruct (begin_processing_cases id consumer w st Hst) as (dec & w1 & Eb & Hst1 & Ho & Hd).
  rewrite Eb in Fb |- *. cbn in Fb.
  assert (Ho' : forall id', id' <> id ->
    inbox_state (lget w1) id' consumer = inbox_state (lget w) id' consumer)
    by (intros id' Hne; apply Ho; congruence).
  destruct dec; cbn [map_err].
  2:{ destruct (ack_nack_once d true w1) as [_ Hn]; [by eapply once_inv_ext|].
      by destruct (nack d true w1) as [[] w2]. }
  2:{ destruct (ack_nack_once d true w1) as [Ha _]; [eapply once_inv_ext; [apply Hd|done|done]|].
      by destruct (ack d w1) as [[] w2]. }
  all: destruct Hd as (Hnc & _ & Hu);
    pose proof (handled_once d w w1 Hinv Hnc Fb Hst1 Ho' Hu) as Hh;
    fold id in Hh; destruct (journaled behaviour d w1) as [[u|e] w2];
    destruct Hh as (w3 & H3 & ->); cbn [map_err].
  all: destruct (ack_nack_once d true w3 H3) as [Ha Hn].
  all: destruct (ack d w3) as [[] ?], (nack d true w3) as [[] ?]; done.
Qed.

Lemma consume_all_once ds w : once_inv w -> once_inv (consume_all ds w).2.
Proof.
  revert w. induction ds as [|d ds IH]; intros w Hw; [done|]. cbn. unfold bind.
  pose proof (process_idempotent_once d w Hw) as Hp.
  destruct (process_idempotent _ _ _ _ w) as [r w1]. by apply IH.
Qed.
End Once.

(** ** A message whose handler always fails *)

Abbreviation ConsumerWorld :=
  (World (InMemoryInbox * (InMemoryMessageBroker * InMemoryDeadLetterQueue))) (only parsing).

Section Failing.
Context {E : Type} `{!Chrono}.
Variable to_string : E -> string.
Variable consumer : string.
Variable error : E.

Definition failing_handler (_ : Delivery) : M ConsumerWorld (result unit E) := ret (Err error).

(** One turn of a consumer loop on topic [t]. *)
Definition poll (retry : RetryPolicy) (t : string) : M ConsumerWorld unit :=
  do! r <- next t;
  match r with
  | Ok (Some d) =>
      do! _ <- process_idempotent_with_retry to_string consumer d retry failing_handler;
      ret tt
  | _ => ret tt
  end.

Fixpoint polls (n : nat) (retry : RetryPolicy) (t : string) (w : ConsumerWorld) : ConsumerWorld :=
  match n with
  | O => w
  | S n => polls n retry t (poll retry t w).2
  end.

(** The loop is about to see attempt [a] of message [m], not processed so
    far; [parked] is the dead-letter queue. *)
Definition about_to_fail (m : Message) (a : Z) (parked : list DeadLetterMessage)
  (w : ConsumerWorld) : Prop :=
  queue_of (lget w) (topic m) = [mkDelivery m a]
  /\ dlq_messages (lget w) = parked
  /\ (inbox_state (lget w) (message_id m) consumer = Unseen
      \/ inbox_state (lget w) (message_id m) consumer = FailedBefore).

Definition parked_as (m : Message) (a : Z) (d : DeadLetterMessage) : Prop :=
  dl_message d = m /\ dl_reason d = to_string error /\ dl_attempts d = a.

(** The inbox side of a turn: the message is begun and then marked failed. *)
Lemma begin_then_fail id (w : ConsumerWorld) :
  (inbox_state (lget w) id consumer = Unseen
   \/ inbox_state (lget w) id consumer = FailedBefore) ->
  exists dec e1 s1 e2 s2,
    InMemoryInbox_begin_processing id consumer w
      = (Ok dec, mkWorld e1 (s1, (w_stores w).2))
    /\ (dec = StartProcessing \/ dec = RetryPreviousFailure)
    /\ InMemoryInbox_mark_failed id consumer (to_string error) (mkWorld e1 (s1, (w_stores w).2))
      = (Ok tt, mkWorld e2 (s2, (w_stores w).2))
    /\ inbox_state s2 id consumer = FailedBefore.
Proof.
  destruct w as [env [inbox rest]]. cbn. unfold inbox_state. intros Hs.
  unfold InMemoryInbox_begin_processing, InMemoryInbox_mark_failed, ib_update, bind, mget, mput, ret.
  cbn. destruct (ib_store inbox !! (id, consumer)) as [m|] eqn:Em.
  - destruct (ib_status m) eqn:Es; destruct Hs as [Hs|Hs]; try discriminate.
    eexists _, _, _, _, _. split; [reflexivity|]. split; [by right|]. cbn. rewrite Em. cbn.
    split; [reflexivity|]. cbn. by rewrite lookup_insert_eq.
  - eexists _, _, _, _, _. split; [reflexivity|]. split; [by left|]. cbn.
    rewrite lookup_insert_eq. cbn. split; [reflexivity|]. cbn. by rewrite lookup_insert_eq.
Qed.

Lemma queue_pop t d q b :
  queue_of b t = d :: q ->
  exists b', InMemoryMessageBroker_next t b = (Ok (Some d), b') /\ queue_of b' t = q.
Proof.
  unfold queue_of, InMemoryMessageBroker_next. destruct (topics b !! t) as [[|d' q']|]; cbn; try done.
  intros [= -> ->]. eexists. split; [done|]. cbn. by rewrite lookup_insert_eq.
Qed.

Lemma poll_fails m a parked delay max (w : ConsumerWorld) :
  0 <= a <= max -> max <= u32_max -> about_to_fail m a parked w ->
  let w' := (poll (RetryPolicy_new max delay) (topic m) w).2 in
  if a <? max then about_to_fail m (a + 1) parked w'
  else exists d, parked_as m a d /\ queue_of (lget w') (topic m) = []
                 /\ dlq_messages (lget w') = parked ++ [d].
Proof.
  intros Ha Hmax (Hq & Hp & Hs). destruct w as [env [inbox [broker dlq]]]. cbn in Hq, Hp, Hs.
  destruct (queue_pop _ _ _ _ Hq) as (b' & En & Hq').
  destruct (begin_then_fail (message_id m) (mkWorld env (inbox, (b', dlq))) Hs)
    as (dec & e1 & s1 & e2 & s2 & Eb & Hdec & Em & Hf).
  unfold poll, bind. cbn. unfold zoom. cbn. rewrite En.
  unfold process_idempotent_with_retry, ptbind, inbox_call, mmap. cbn in Eb, Em |- *. rewrite Eb.
  destruct Hdec as [-> | ->]; cbn; unfold bind; cbn; rewrite Em; cbn;
    unfold pbind, RetryPolicy_decide; cbn;
    (destruct (a <? max) eqn:Elt; cbn;
      [unfold about_to_fail; cbn; rewrite queue_push_back, decide_True by done; cbn;
       unfold queue_of in Hq' |- *; cbn; rewrite Hq', u32_add_small by lia;
       split; [done|]; split; [done|by right]
      |eexists; split; [|split; [exact Hq'|by rewrite Hp]]; done]).
Qed.

Lemma polls_S n retry t w : polls (S n) retry t w = (poll retry t (polls n retry t w)).2.
Proof. revert w. induction n as [|n IH]; intros w; [done|]. cbn [polls] in *. by rewrite <- IH. Qed.

Lemma polls_fail m parked delay max w n :
  max <= u32_max -> Z.of_nat n < max -> about_to_fail m 1 parked w ->
  about_to_fail m (Z.of_nat n + 1) parked (polls n (RetryPolicy_new max delay) (topic m) w).
Proof.
  intros Hmax Hn Hw. induction n as [|n IH]; [done|].
  rewrite polls_S. specialize (IH ltac:(lia)).
  pose proof (poll_fails m (Z.of_nat n + 1) parked delay max _ ltac:(lia) Hmax IH) as Hf.
  cbn zeta in Hf. replace (Z.of_nat n + 1 <? max) with true in Hf by lia.
  by replace (Z.of_nat (S n) + 1) with (Z.of_nat n + 1 + 1) by lia.
Qed.
End Failing.

(** ** Properties *)

(** C10: a consumer that processes its deliveries one after the other succeeds
    at most once per message: however often deliveries arrive, in whatever
    order, duplicates included, and whatever the handler and the broker
    answer, going through the in-memory inbox it runs its handler
    successfully at most once for each message, and every message it
    succeeded on is recorded as completed.  Deliveries handled at the same
    time are not covered: the inbox gives no lease on a retry. *)
Theorem handler_succeeds_at_most_once {W E}
  `{!Env W, !Chrono, !Lens W InMemoryInbox, !LensLaws W InMemoryInbox,
    !EnvFrame W InMemoryInbox, !Lens W Journal, !LensLaws W Journal, !EnvFrame W Journal,
    !LensDisjoint W InMemoryInbox Journal, !LensDisjoint W Journal InMemoryInbox,
    !MessageAcknowledger W}
  (to_string : E -> string) (consumer : string)
  (behaviour : list (Uuid * bool) -> Delivery -> result unit E) (ds : list Delivery) (d : Duration)
  (w : W) :
  (forall d, keeps InMemoryInbox (ack d)) -> (forall d b, keeps InMemoryInbox (nack d b)) ->
  (forall d, keeps Journal (ack d)) -> (forall d b, keeps Journal (nack d b)) ->
  from_std (stale_after (lget w)) = Some d -> ran (lget w) = [] ->
  let w' := (consume_all to_string consumer behaviour ds w).2 in
  NoDup ((filter (fun e => e.2 = true) (ran (lget w'))).*1)
  /\ forall id, (id, true) ∈ ran (lget w') -> inbox_state (lget w') id consumer = Completed.
Proof.
  intros H1 H2 H3 H4 Hd Hr.
  destruct (consume_all_once to_string consumer behaviour H1 H2 H3 H4 ds w) as (_ & Hc & Hn).
  - split; [by exists d|]. rewrite Hr. split; [set_solver|apply NoDup_nil_2].
  - split; [exact Hn|exact Hc].
Qed.

(** The second delivery of message 7 fails, the others would succeed. *)
Definition once_world : World (InMemoryInbox * (Journal * InMemoryMessageBroker)) :=
  mkWorld env_start (InMemoryInbox_default, (mkJournal [], InMemoryMessageBroker_new)).

Definition once_behaviour (past : list (Uuid * bool)) (d : Delivery) : result unit string :=
  if bool_decide (past = []) then Err "first try" else Ok tt.

Definition once_deliveries : list Delivery :=
  let d id := Delivery_new (Message_new id "t" "" "") in [d 7; d 7; d 8; d 7; d 8].

Lemma handler_succeeds_at_most_once_witness :
  let w' := (consume_all (fun e => e) "billing" once_behaviour once_deliveries once_world).2 in
  ran (lget w') = [(7, false); (7, true); (8, true)]
  /\ NoDup ((filter (fun e => e.2 = true) (ran (lget w'))).*1).
Proof.
  cbn zeta. split; [vm_compute; reflexivity|].
  refine (proj1 (handler_succeeds_at_most_once (fun e => e) "billing" once_behaviour
                   once_deliveries DEFAULT_STALE_AFTER once_world _ _ _ _ _ _)).
  - intros d w. reflexivity.
  - intros d b w. reflexivity.
  - intros d w. reflexivity.
  - intros d b w. reflexivity.
  - vm_compute. reflexivity.
  - reflexivity.
Defined.

(** C11: a message whose handler always fails stops being redelivered: with a
    retry policy of [max] attempts it is requeued with the next attempt
    number by each of the first [max - 1] turns of the consumer loop, and the
    turn that sees attempt [max] parks it as one dead letter with the
    handler's error and that attempt count and leaves the topic empty. *)
Theorem failing_message_parked {E} `{!Chrono} (to_string : E -> string) (consumer : string)
  (error : E) (m : Message) (delay : Duration) (n : nat) (parked : list DeadLetterMessage)
  (w : ConsumerWorld) :
  let max := Z.of_nat n + 1 in
  let retry := RetryPolicy_new max delay in
  max <= u32_max -> about_to_fail consumer m 1 parked w ->
  (forall k, (k <= n)%nat ->
     about_to_fail consumer m (Z.of_nat k + 1) parked
       (polls to_string consumer error k retry (topic m) w))
  /\ let w' := polls to_string consumer error (S n) retry (topic m) w in
     exists d, parked_as to_string error m max d
       /\ queue_of (lget w') (topic m) = [] /\ dlq_messages (lget w') = parked ++ [d].
Proof.
  intros max retry Hmax Hw. split.
  - intros k Hk. apply polls_fail; [done|lia|done].
  - cbn zeta. rewrite polls_S.
    pose proof (polls_fail to_string consumer error m parked delay max w n Hmax ltac:(lia) Hw) as Hn.
    pose proof (poll_fails to_string consumer error m (Z.of_nat n + 1) parked delay max _
                  ltac:(lia) Hmax Hn) as Hf.
    cbn zeta in Hf. by replace (Z.of_nat n + 1 <? max) with false in Hf by lia.
Qed.

Definition failing_message : Message := Message_new 7 "t" "" "".

Definition failing_world : ConsumerWorld :=
  mkWorld env_start
    (InMemoryInbox_default,
     ((InMemoryMessageBroker_publish failing_message InMemoryMessageBroker_new).2,
      mkInMemoryDeadLetterQueue [])).

Lemma failing_message_parked_witness :
  let w' := polls (fun e => e) "billing" "boom" 3 (RetryPolicy_new 3 5) "t" failing_world in
  exists d, parked_as (fun e => e) "boom" failing_message 3 d
    /\ queue_of (lget w') "t" = [] /\ dlq_messages (lget w') = [] ++ [d].
Proof.
  refine (proj2 (failing_message_parked (fun e => e) "billing" "boom" failing_message 5 2 []
                   failing_world _ _)).
  - vm_compute. discriminate.
  - split; [vm_compute; reflexivity|]. split; [reflexivity|]. left. vm_compute. reflexivity.
Defined.

(** While the retry budget lasts, [process_idempotent_with_retry] is
    [process_idempotent]: same answer, same effects, for every inbox, broker
    and handler. *)
Theorem with_retry_within_budget {W E}
  `{!Env W, !InboxStore W, !MessageAcknowledger W, !DeadLetterQueue W}
  (to_string : E -> string) (consumer : string) (delivery : Delivery) (max : Z) (delay : Duration)
  (handle : Delivery -> M W (result unit E)) (w : W) :
  attempt delivery < max ->
  process_idempotent_with_retry to_string consumer delivery (RetryPolicy_new max delay) handle w
  = let '(r, w') := process_idempotent to_string consumer delivery handle w in (Some r, w').
Proof.
  intros Ha. unfold process_idempotent_with_retry, process_idempotent, ptbind, tbind, bind, pbind,
    inbox_call, messaging_call, mmap, ret, RetryPolicy_decide. cbn.
  replace (attempt delivery <? max) with true by lia. cbn.
  destruct (begin_processing _ consumer w) as [[dec|e] w1]; cbn; [|done].
  destruct dec; [| destruct (nack delivery true w1) as [[] ?]; done
                 | destruct (ack delivery w1) as [[] ?]; done |];
    destruct (handle delivery w1) as [[u|e] w2].
  1,3: destruct (inbox_mark_completed _ consumer w2) as [[] w3]; cbn; [|done];
       by destruct (ack delivery w3) as [[] ?].
  all: destruct (inbox_mark_failed _ consumer _ w2) as [[] w3]; cbn; [|done];
       by destruct (nack delivery true w3) as [[] ?].
Qed.

Lemma with_retry_within_budget_witness :
  let d := Delivery_new failing_message in
  process_idempotent_with_retry (fun e => e) "billing" d (RetryPolicy_new 3 5)
    (failing_handler "boom") failing_world
  = let '(r, w') := process_idempotent (fun e => e) "billing" d (failing_handler "boom")
                      failing_world in (Some r, w').
Proof. apply with_retry_within_budget. vm_compute. reflexivity. Defined.

(** [process_idempotent_with_retry] never reports [DeadLettered]: a message
    it parks is answered with the handler's error (and rejected without
    requeueing, not acknowledged), for every inbox, broker, dead-letter queue
    and handler. *)
Theorem with_retry_never_reports_dead_lettered {W E}
  `{!Env W, !InboxStore W, !MessageAcknowledger W, !DeadLetterQueue W}
  (to_string : E -> string) (consumer : string) (delivery : Delivery) (retry : RetryPolicy)
  (handle : Delivery -> M W (result unit E)) (w : W) :
  (process_idempotent_with_retry to_string consumer delivery retry handle w).1
  <> Some (Ok OutcomeDeadLettered).
Proof.
  unfold process_idempotent_with_retry, ptbind, bind, pbind, inbox_call, messaging_call, mmap, ret.
  repeat match goal with
  | |- context [let '(_, _) := ?c in _] => destruct c as [? ?] eqn:?; cbn
  | |- context [match ?r with Ok _ => _ | Err _ => _ end] => destruct r; cbn
  | |- context [match ?o with Some _ => _ | None => _ end] => destruct o; cbn
  | |- context [match ?d with StartProcessing => _ | _ => _ end] => destruct d; cbn
  | |- context [match ?d with RetryAfter _ => _ | _ => _ end] => destruct d; cbn
  end; discriminate.
Qed.
