(* ===== verification/Saga.v ===== *)
(** * Saga: process managers with optimistic concurrency and timeouts

    Models [crates/pharos-saga/src/lib.rs] and the in-memory store
    [crates/pharos-memory/src/in_memory_saga_store.rs].  The saga itself is
    user code: a class with arbitrary effects.  The runner is written against
    the store's class; [SagaStoreLaws] states the contract of [save] and the
    in-memory store discharges it. *)

From S2P Require Import Prelude Messaging Outbox.
Local Open Scope Z_scope.

(** ** Instances and transitions *)

Inductive SagaStatus := SRunning | SCompleted | SFailed.

#[export] Instance SagaStatus_eq_dec : EqDecision SagaStatus.
Proof. solve_decision. Defined.

Record SagaInstance (I S : Type) := mkSagaInstance {
  sg_id : I;
  sg_state : S;
  sg_status : SagaStatus;
  sg_deadline : option Instant;
  sg_updated_at : Instant;
  sg_version : Z;
}.
Arguments mkSagaInstance {I S} _ _ _ _ _ _.
Arguments sg_id {I S} _.
Arguments sg_state {I S} _.
Arguments sg_status {I S} _.
Arguments sg_deadline {I S} _.
Arguments sg_updated_at {I S} _.
Arguments sg_version {I S} _.

Definition set_sg_version {I S} (v : Z) (i : SagaInstance I S) : SagaInstance I S :=
  mkSagaInstance (sg_id i) (sg_state i) (sg_status i) (sg_deadline i) (sg_updated_at i) v.

Definition set_sg_deadline {I S} (d : option Instant) (i : SagaInstance I S) : SagaInstance I S :=
  mkSagaInstance (sg_id i) (sg_state i) (sg_status i) d (sg_updated_at i) (sg_version i).

Definition SagaInstance_running {W I S} `{!Env W} (id : I) (state : S) : M W (SagaInstance I S) :=
  do! now <- utc_now;
  ret (mkSagaInstance id state SRunning None now 0).

Definition SagaInstance_running_until {W I S} `{!Env W} (id : I) (state : S) (deadline : Instant)
  : M W (SagaInstance I S) :=
  do! i <- SagaInstance_running id state;
  ret (set_sg_deadline (Some deadline) i).

Inductive SagaTransition (S C : Type) :=
| Ignore
| Start (state : S) (commands : list C) (deadline : option Instant)
| Advance (state : S) (commands : list C) (deadline : option Instant)
| Complete (state : S) (commands : list C)
| Fail_ (reason : string) (commands : list C).
Arguments Ignore {S C}.
Arguments Start {S C} _ _ _.
Arguments Advance {S C} _ _ _.
Arguments Complete {S C} _ _.
Arguments Fail_ {S C} _ _.

(** ** Traits *)

Class Saga (W I S Ev C SE : Type) : Type := {
  id_for : Ev -> option I;
  react : option (SagaInstance I S) -> Ev -> M W (result (SagaTransition S C) SE);
  on_timeout : SagaInstance I S -> M W (result (SagaTransition S C) SE);
}.

(** The provided [on_timeout]. *)
Definition on_timeout_default {W I S C SE} (_ : SagaInstance I S)
  : M W (result (SagaTransition S C) SE) :=
  ret (Ok (Fail_ "saga deadline elapsed" [])).

Inductive SagaSaveError (StoreE : Type) :=
| SaveConflict (expected : Z) (actual : option Z)
| SaveStorage (e : StoreE).
Arguments SaveConflict {StoreE} _ _.
Arguments SaveStorage {StoreE} _.

Class SagaStore (W I S StoreE : Type) : Type := {
  saga_load : I -> M W (result (option (SagaInstance I S)) StoreE);
  saga_save : SagaInstance I S -> M W (result unit (SagaSaveError StoreE));
  claim_due : Instant -> Duration -> nat -> M W (result (list (SagaInstance I S)) StoreE);
}.

Inductive SagaRunnerError (SE StoreE : Type) :=
| RunnerSaga (e : SE)
| RunnerStore (e : StoreE)
| RunnerEnqueue (e : OutboxError)
| RunnerFailed (reason : string)
| RunnerConflict (expected : Z) (actual : option Z).
Arguments RunnerSaga {SE StoreE} _.
Arguments RunnerStore {SE StoreE} _.
Arguments RunnerEnqueue {SE StoreE} _.
Arguments RunnerFailed {SE StoreE} _.
Arguments RunnerConflict {SE StoreE} _ _.

Definition from_save_error {SE StoreE} (e : SagaSaveError StoreE) : SagaRunnerError SE StoreE :=
  match e with
  | SaveConflict expected actual => RunnerConflict expected actual
  | SaveStorage e => RunnerStore e
  end.

Definition MAX_CONFLICT_RETRIES : nat := 8.

(** [matches!(transition, SagaTransition::Ignore)] *)
Definition is_ignore {S C} (t : SagaTransition S C) : bool :=
  match t with Ignore => true | _ => false end.

(** [!matches!(instance.status, SagaStatus::Running)] *)
Definition terminal {I S} (i : SagaInstance I S) : bool :=
  negb (bool_decide (sg_status i = SRunning)).

(** ** The runner *)

Section Runner.
Context {W I S Ev C SE StoreE : Type}.
Context `{!Env W, !Saga W I S Ev C SE, !SagaStore W I S StoreE, !OutboxRepository W}.
Variable map_command : C -> M W Message.

Abbreviation RunnerError := (SagaRunnerError SE StoreE) (only parsing).

(** One outbox record per command, in order. *)
Fixpoint outbox_messages (commands : list C) : M W (list OutboxMessage) :=
  match commands with
  | [] => ret []
  | c :: commands =>
      do! mapped <- map_command c;
      do! m <- OutboxMessage_new mapped;
      do! ms <- outbox_messages commands;
      ret (m :: ms)
  end.

Definition enqueue_all (commands : list C) : M W (result unit RunnerError) :=
  match commands with
  | [] => ret (Ok tt)
  | _ =>
      do! messages <- outbox_messages commands;
      mmap (map_err RunnerEnqueue) (outbox_insert_many messages)
  end.

Definition save_instance (i : SagaInstance I S) : M W (result unit RunnerError) :=
  mmap (map_err from_save_error) (saga_save i).

(** [current.unwrap_or_else(|| SagaInstance::running(id, state.clone()))] *)
Definition current_or_running (id : I) (current : option (SagaInstance I S)) (state : S)
  : M W (SagaInstance I S) :=
  match current with
  | Some i => ret i
  | None => SagaInstance_running id state
  end.

Definition apply_transition (id : I) (current : option (SagaInstance I S))
  (transition : SagaTransition S C) : M W (result unit RunnerError) :=
  match transition with
  | Ignore => ret (Ok tt)
  | Start state commands deadline =>
      do! i <- SagaInstance_running id state;
      try! _ <- save_instance (set_sg_deadline deadline i);
      enqueue_all commands
  | Advance state commands deadline =>
      do! i <- current_or_running id current state;
      do! now <- utc_now;
      try! _ <- save_instance (mkSagaInstance (sg_id i) state SRunning deadline now (sg_version i));
      enqueue_all commands
  | Complete state commands =>
      do! i <- current_or_running id current state;
      do! now <- utc_now;
      try! _ <- save_instance (mkSagaInstance (sg_id i) state SCompleted None now (sg_version i));
      enqueue_all commands
  | Fail_ reason commands =>
      try! _ <-
        match current with
        | Some i =>
            do! now <- utc_now;
            save_instance (mkSagaInstance (sg_id i) (sg_state i) SFailed None now (sg_version i))
        | None => ret (Ok tt)
        end;
      try! _ <- enqueue_all commands;
      ret (Err (RunnerFailed reason))
  end.

(** The retry loop of [handle], [n] turns left. *)
Fixpoint handle_loop (n : nat) (id : I) (event : Ev) (last_conflict : option (Z * option Z))
  : M W (result unit RunnerError) :=
  match n with
  | O =>
      let '(expected, actual) := default (0, None) last_conflict in
      ret (Err (RunnerConflict expected actual))
  | Datatypes.S n =>
      try! current <- mmap (map_err RunnerStore) (saga_load id);
      try! transition <- mmap (map_err RunnerSaga) (react current event);
      if is_ignore transition then ret (Ok tt)
      else if match current with Some i => terminal i | None => false end then ret (Ok tt)
      else
        do! r <- apply_transition id current transition;
        match r with
        | Ok _ => ret (Ok tt)
        | Err (RunnerConflict expected actual) =>
            handle_loop n id event (Some (expected, actual))
        | Err other => ret (Err other)
        end
  end.

Definition handle (event : Ev) : M W (result unit RunnerError) :=
  match id_for event with
  | None => ret (Ok tt)
  | Some id => handle_loop MAX_CONFLICT_RETRIES id event None
  end.

Definition handle_any {E} (into : E -> Ev) (event : E) : M W (result unit RunnerError) :=
  handle (into event).

(** The body of the sweep for one claimed instance. *)
Definition timeout_one (i : SagaInstance I S) : M W (result unit RunnerError) :=
  try! transition <- mmap (map_err RunnerSaga) (on_timeout i);
  match transition with
  | Ignore =>
      do! now <- utc_now;
      save_instance (mkSagaInstance (sg_id i) (sg_state i) (sg_status i) None now (sg_version i))
  | _ =>
      do! r <- apply_transition (sg_id i) (Some i) transition;
      match r with
      | Ok _ | Err (RunnerFailed _) => ret (Ok tt)
      | Err error => ret (Err error)
      end
  end.

Fixpoint timeout_loop (due : list (SagaInstance I S)) (processed : nat)
  : M W (result nat RunnerError) :=
  match due with
  | [] => ret (Ok processed)
  | i :: due =>
      try! _ <- timeout_one i;
      timeout_loop due (Datatypes.S processed)
  end.

Definition run_due_timeouts (now : Instant) (lease : Duration) (limit : nat)
  : M W (result nat RunnerError) :=
  try! due <- mmap (map_err RunnerStore) (claim_due now lease limit);
  timeout_loop due 0.
End Runner.

(** ** Delivering queued commands *)

Class CommandDispatcher (W C DE : Type) : Type := {
  dispatch_command : C -> M W (result unit DE);
}.

Definition DurableCommandPublisher_publish {W C DE E} `{!CommandDispatcher W C DE}
  (decode : string -> result C E) (show_e : E -> string) (show_de : DE -> string)
  (message : Message) : M W (result unit MessagingError) :=
  match decode (payload message) with
  | Err e => ret (Err (Publish (show_e e)))
  | Ok command => mmap (map_err (fun e => Publish (show_de e))) (dispatch_command command)
  end.

(** ** The in-memory store *)

Record InMemorySagaStore (I S : Type) `{Countable I} := mkInMemorySagaStore {
  sagas : gmap I (SagaInstance I S);
}.
Arguments mkInMemorySagaStore {I S _ _} _.
Arguments sagas {I S _ _} _.

Inductive InMemorySagaStoreError := SagaStoreNever.

Section InMemorySaga.
Context {W I S : Type} `{Countable I, !Lens W (InMemorySagaStore I S),
  !MapIter I (SagaInstance I S)}.

Definition InMemorySagaStore_load (id : I)
  : M W (result (option (SagaInstance I S)) InMemorySagaStoreError) :=
  do! s <- mget; ret (Ok (sagas s !! id)).

(** The check-and-write under the store's lock. *)
Definition save_entry (instance : SagaInstance I S) (s : InMemorySagaStore I S)
  : result unit (SagaSaveError InMemorySagaStoreError) * InMemorySagaStore I S :=
  let expected := sg_version instance in
  let new_version := u64_add expected 1 in
  let write := mkInMemorySagaStore
                 (<[sg_id instance := set_sg_version new_version instance]> (sagas s)) in
  match sagas s !! sg_id instance with
  | None => if negb (expected =? 0) then (Err (SaveConflict expected None), s) else (Ok tt, write)
  | Some occupied =>
      let actual := sg_version occupied in
      if negb (actual =? expected) then (Err (SaveConflict expected (Some actual)), s)
      else (Ok tt, write)
  end.

Definition InMemorySagaStore_save (instance : SagaInstance I S)
  : M W (result unit (SagaSaveError InMemorySagaStoreError)) := zoom (save_entry instance).

Definition saga_due (now : Instant) (i : SagaInstance I S) : bool :=
  bool_decide (sg_status i = SRunning)
  && match sg_deadline i with Some d => d <=? now | None => false end.

(** The identifiers of the due instances, soonest deadline first. *)
Definition due_sagas (now : Instant) (limit : nat) (s : InMemorySagaStore I S) : list I :=
  let due := (filter (fun e => saga_due now e.2 = true) (map_iter (sagas s))).*1 in
  let deadline id := default now (sagas s !! id ≫= sg_deadline) in
  take limit (sort_by_key deadline Z.leb due).

(** Claims one instance: lease and version bump in the store, the original
    deadline to the caller. *)
Definition claim_saga (now : Instant) (lease : Duration) (id : I) (s : InMemorySagaStore I S)
  : option (SagaInstance I S) * InMemorySagaStore I S :=
  match sagas s !! id with
  | None => (None, s)
  | Some entry =>
      let entry' := set_sg_version (u64_add (sg_version entry) 1)
                      (set_sg_deadline (Some (now + lease)) entry) in
      (Some (set_sg_deadline (sg_deadline entry) entry'),
       mkInMemorySagaStore (<[id := entry']> (sagas s)))
  end.

Fixpoint claim_sagas (now : Instant) (lease : Duration) (ids : list I) (s : InMemorySagaStore I S)
  : list (SagaInstance I S) * InMemorySagaStore I S :=
  match ids with
  | [] => ([], s)
  | id :: ids =>
      let '(o, s) := claim_saga now lease id s in
      let '(claimed, s) := claim_sagas now lease ids s in
      (match o with Some i => i :: claimed | None => claimed end, s)
  end.

Definition InMemorySagaStore_claim_due (now : Instant) (lease : Duration) (limit : nat)
  : M W (result (list (SagaInstance I S)) InMemorySagaStoreError) :=
  zoom (fun s => let '(claimed, s') := claim_sagas now lease (due_sagas now limit s) s in
                 (Ok claimed, s')).

#[export] Instance InMemorySagaStore_store : SagaStore W I S InMemorySagaStoreError := {
  saga_load := InMemorySagaStore_load;
  saga_save := InMemorySagaStore_save;
  claim_due := InMemorySagaStore_claim_due;
}.
End InMemorySaga.

#[global] Arguments InMemorySagaStore_load : simpl never.
#[global] Arguments InMemorySagaStore_save : simpl never.
#[global] Arguments InMemorySagaStore_claim_due : simpl never.

(** ** The store's contract *)

Section Contract.
Context {I S : Type} `{Countable I}.

(** [save] may write: the instance is new, or the stored version is the one
    it was loaded at. *)
Definition cas_ok (stored : gmap I (SagaInstance I S)) (i : SagaInstance I S) : Prop :=
  match stored !! sg_id i with
  | None => sg_version i = 0
  | Some c => sg_version c = sg_version i
  end.

Definition saved (i : SagaInstance I S) : SagaInstance I S :=
  set_sg_version (u64_add (sg_version i) 1) i.

(** What [SagaStore] documents of [load] and [save]. *)
Class SagaStoreLaws (W StoreE : Type) `{!SagaStore W I S StoreE}
  (view : W -> gmap I (SagaInstance I S)) : Prop := {
  load_law id w :
    view (saga_load id w).2 = view w
    /\ match (saga_load id w).1 with
       | Ok o => o = view w !! id
       | Err _ => True
       end;
  save_law i w :
    match (saga_save i w).1 with
    | Ok _ => cas_ok (view w) i /\ view (saga_save i w).2 = <[sg_id i := saved i]> (view w)
    | Err (SaveConflict expected actual) =>
        ~ cas_ok (view w) i /\ expected = sg_version i
        /\ actual = sg_version <$> view w !! sg_id i
        /\ view (saga_save i w).2 = view w
    | Err (SaveStorage _) => view (saga_save i w).2 = view w
    end;
}.

(** The instance a transition saves at time [now], when it saves one. *)
Definition transitioned {C} (id : I) (current : option (SagaInstance I S))
  (transition : SagaTransition S C) (now : Instant) : option (SagaInstance I S) :=
  let id' := match current with Some i => sg_id i | None => id end in
  let version := match current with Some i => sg_version i | None => 0 end in
  match transition with
  | Ignore => None
  | Start state _ deadline => Some (mkSagaInstance id state SRunning deadline now 0)
  | Advance state _ deadline => Some (mkSagaInstance id' state SRunning deadline now version)
  | Complete state _ => Some (mkSagaInstance id' state SCompleted None now version)
  | Fail_ _ _ =>
      (fun i => mkSagaInstance (sg_id i) (sg_state i) SFailed None now version) <$> current
  end.
End Contract.

Section RunnerLemmas.
Context {W I S Ev C SE StoreE : Type} `{Countable I}.
Context `{!Env W, !Saga W I S Ev C SE, !SagaStore W I S StoreE, !OutboxRepository W}.
Variable view : W -> gmap I (SagaInstance I S).
Context `{!SagaStoreLaws W StoreE view}.
Variable map_command : C -> M W Message.
Hypothesis clock_view : forall w, view (utc_now w).2 = view w.
Hypothesis uuid_view : forall w, view (uuid_now_v7 w).2 = view w.
Hypothesis insert_view : forall m w, view (outbox_insert m w).2 = view w.
Hypothesis map_view : forall c w, view (map_command c w).2 = view w.
Hypothesis react_view : forall c e w, view (react c e w).2 = view w.

Lemma outbox_messages_view cs w : view (outbox_messages map_command cs w).2 = view w.
Proof.
  revert w. induction cs as [|c cs IH]; intros w; [done|].
  cbn. unfold OutboxMessage_new, bind, ret.
  pose proof (map_view c w) as H0. destruct (map_command c w) as [mapped w0]. cbn in H0.
  pose proof (clock_view w0) as H1. destruct (utc_now w0) as [now w1]. cbn in H1.
  pose proof (uuid_view w1) as H2. destruct (uuid_now_v7 w1) as [id w2]. cbn in H2.
  specialize (IH w2). destruct (outbox_messages map_command cs w2) as [ms w3]. cbn in *. congruence.
Qed.

Lemma insert_many_view ms w : view (outbox_insert_many ms w).2 = view w.
Proof.
  unfold outbox_insert_many. revert w. induction ms as [|m ms IH]; intros w; [done|].
  cbn. unfold tbind. pose proof (insert_view m w) as H1.
  destruct (outbox_insert m w) as [[u|e] w1]; cbn in *; [|done]. by rewrite IH.
Qed.

(** Enqueueing never touches the sagas and fails only with [Enqueue]. *)
Lemma enqueue_all_view cs w :
  view (enqueue_all (SE := SE) (StoreE := StoreE) map_command cs w).2 = view w
  /\ match (enqueue_all (SE := SE) (StoreE := StoreE) map_command cs w).1 with
     | Ok _ | Err (RunnerEnqueue _) => True
     | _ => False
     end.
Proof.
  destruct cs as [|c cs]; [done|]. unfold enqueue_all, bind, mmap.
  pose proof (outbox_messages_view (c :: cs) w) as H1.
  destruct (outbox_messages map_command (c :: cs) w) as [ms w1]. cbn in H1.
  pose proof (insert_many_view ms w1) as H2.
  destruct (outbox_insert_many ms w1) as [[u|e] w2]; cbn in *; split; try done; congruence.
Qed.

(** An error that leaves every saga as it was. *)
Definition unsaved_error (e : SagaRunnerError SE StoreE) : Prop :=
  match e with
  | RunnerConflict _ _ | RunnerStore _ | RunnerSaga _ => True
  | RunnerEnqueue _ | RunnerFailed _ => False
  end.

(** The effect of [apply_transition] on the sagas. *)
Definition transition_effect (id : I) (current : option (SagaInstance I S))
  (transition : SagaTransition S C) (r : result unit (SagaRunnerError SE StoreE))
  (v v' : gmap I (SagaInstance I S)) : Prop :=
  (v' = v /\ exists e, r = Err e /\ unsaved_error e
     /\ (forall x a, e = RunnerConflict x a -> exists now i,
           transitioned id current transition now = Some i /\ ~ cas_ok v i
           /\ x = sg_version i /\ a = sg_version <$> v !! sg_id i))
  \/ (forall e, r = Err e -> ~ unsaved_error e)
     /\ exists now,
          match transitioned id current transition now with
          | Some i => cas_ok v i /\ v' = <[sg_id i := saved i]> v
          | None => v' = v
          end.

(** Saving an instance and then enqueueing commands. *)
Lemma save_then_effect id current transition now i (k : M W (result unit (SagaRunnerError SE StoreE)))
  (w0 w : W) :
  transitioned id current transition now = Some i ->
  view w = view w0 ->
  (forall w, view (k w).2 = view w /\ forall e, (k w).1 = Err e -> ~ unsaved_error e) ->
  let '(r, w') := (try! _ <- save_instance i; k) w in
  transition_effect id current transition r (view w0) (view w').
Proof.
  intros Ht Hv Hk. unfold tbind, save_instance, mmap.
  pose proof (save_law i w) as Hs. destruct (saga_save i w) as [[u|[x a|e]] w1]; cbn in Hs |- *.
  - destruct Hs as [Hc Hw1]. destruct (Hk w1) as [Hkv Hke].
    destruct (k w1) as [r w2]. cbn in *. right. split; [done|].
    exists now. rewrite Ht. rewrite <- Hv. split; [done|]. congruence.
  - destruct Hs as (Hc & -> & -> & Hw1). left. split; [congruence|].
    eexists. split; [done|]. split; [done|]. intros x a [= <- <-]. exists now, i.
    rewrite <- Hv. done.
  - left. split; [congruence|]. eexists. split; [done|]. by split.
Qed.

Lemma enqueue_all_ok cs w :
  view (enqueue_all (SE := SE) (StoreE := StoreE) map_command cs w).2 = view w
  /\ forall e, (enqueue_all (SE := SE) (StoreE := StoreE) map_command cs w).1 = Err e ->
       ~ unsaved_error e.
Proof.
  destruct (enqueue_all_view cs w) as [Hv Hr]. split; [done|]. intros e He. rewrite He in Hr.
  destruct e; cbn in *; tauto.
Qed.

Lemma current_or_running_view (id : I) (current : option (SagaInstance I S)) (state : S) (w : W) :
  let '(i, w') := current_or_running id current state w in
  view w' = view w
  /\ sg_id i = match current with Some i => sg_id i | None => id end
  /\ sg_version i = match current with Some i => sg_version i | None => 0 end.
Proof.
  destruct current as [i|]; [done|]. cbn. unfold SagaInstance_running, bind, ret.
  pose proof (clock_view w). by destruct (utc_now w).
Qed.

(** What [Fail] does once the failed state is saved. *)
Definition fail_tail (reason : string) (cs : list C) : M W (result unit (SagaRunnerError SE StoreE)) :=
  try! _ <- enqueue_all map_command cs;
  ret (Err (RunnerFailed reason)).

Lemma fail_tail_ok reason cs w :
  view (fail_tail reason cs w).2 = view w
  /\ forall e, (fail_tail reason cs w).1 = Err e -> ~ unsaved_error e.
Proof.
  unfold fail_tail, tbind, ret. destruct (enqueue_all_ok cs w) as [Hv He].
  destruct (enqueue_all map_command cs w) as [[u|e] w1]; cbn in *; split; try done.
  intros e [= <-]. cbn. tauto.
Qed.

Lemma apply_transition_effect id current transition w :
  let '(r, w') := apply_transition (SE := SE) (StoreE := StoreE) map_command id current transition w in
  transition_effect id current transition r (view w) (view w').
Proof.
  destruct transition as [|state cs dl|state cs dl|state cs|reason cs]; cbn [apply_transition].
  - right. split; [done|]. by exists 0.
  - unfold bind, SagaInstance_running, ret. unfold bind.
    pose proof (clock_view w) as Hc. destruct (utc_now w) as [now w1]. cbn in Hc.
    eapply save_then_effect; [reflexivity|done|apply enqueue_all_ok].
  - unfold bind. pose proof (current_or_running_view id current state w) as Hi.
    destruct (current_or_running id current state w) as [i w1]. destruct Hi as (Hv & Hid & Hver).
    pose proof (clock_view w1) as Hc. destruct (utc_now w1) as [now w2]. cbn in Hc.
    rewrite Hid, Hver. eapply save_then_effect; [reflexivity|congruence|apply enqueue_all_ok].
  - unfold bind. pose proof (current_or_running_view id current state w) as Hi.
    destruct (current_or_running id current state w) as [i w1]. destruct Hi as (Hv & Hid & Hver).
    pose proof (clock_view w1) as Hc. destruct (utc_now w1) as [now w2]. cbn in Hc.
    rewrite Hid, Hver. eapply save_then_effect; [reflexivity|congruence|apply enqueue_all_ok].
  - pose proof (fail_tail_ok reason cs) as Hk. fold (fail_tail reason cs).
    destruct current as [i|].
    + unfold tbind at 1. unfold bind. pose proof (clock_view w) as Hc.
      destruct (utc_now w) as [now w1]. cbn in Hc.
      eapply (save_then_effect id (Some i) (Fail_ reason cs) now); [reflexivity|done|exact Hk].
    + unfold tbind at 1. cbn [ret]. destruct (Hk w) as [Hv He].
      destruct (fail_tail reason cs w) as [r w'].
      cbn in *. right. split; [exact He|]. exists 0. exact Hv.
Qed.

(** Handling an event is one transition of the saga's state machine or
    nothing: the stored instance is replaced by the one [react] computed from
    it, at the next version. *)
Definition one_transition (event : Ev) (v v' : gmap I (SagaInstance I S)) : Prop :=
  exists id tr now i w1,
    id_for event = Some id
    /\ (react (v !! id) event w1).1 = Ok tr
    /\ (forall c, v !! id = Some c -> terminal c = false)
    /\ transitioned id (v !! id) tr now = Some i /\ cas_ok v i
    /\ v' = <[sg_id i := saved i]> v.

Lemma handle_loop_effect n id event last w :
  id_for event = Some id ->
  let '(r, w') := handle_loop (StoreE := StoreE) map_command n id event last w in
  (view w' = view w \/ one_transition event (view w) (view w'))
  /\ (forall e, r = Err e -> unsaved_error e -> view w' = view w).
Proof.
  intros Hid. revert last w. induction n as [|n IH]; intros last w; cbn [handle_loop].
  { destruct (default (0, None) last). cbn. by split; [left|]. }
  unfold tbind, mmap. destruct (load_law id w) as [Hlv Hlr].
  destruct (saga_load id w) as [[cur|e] w1]; cbn in Hlv, Hlr |- *;
    [|split; [by left|done]]. subst cur.
  pose proof (react_view (view w !! id) event w1) as Hrv.
  destruct (react (view w !! id) event w1) as [[tr|e] w2] eqn:Er; cbn in Hrv |- *;
    [|split; [left; congruence|intros; congruence]].
  assert (Hsame : view w2 = view w) by congruence.
  destruct (is_ignore tr) eqn:Ei; [split; [by left|done]|].
  destruct (match view w !! id with Some i => terminal i | None => false end) eqn:Et;
    [split; [by left|done]|].
  unfold bind. pose proof (apply_transition_effect id (view w !! id) tr w2) as Ha.
  destruct (apply_transition map_command id (view w !! id) tr w2) as [r w3].
  destruct Ha as [(Hv & e & -> & Hu & _)|(Hok & now & Hi)].
  - assert (Hv3 : view w3 = view w) by congruence. destruct e as [| | | |x a]; try done.
    + split; [by left|done].
    + split; [by left|done].
    + specialize (IH (Some (x, a)) w3). destruct (handle_loop _ _ _ _ _ w3) as [r' w4].
      rewrite Hv3 in IH. exact IH.
  - assert (Hone : view w3 = view w \/ one_transition event (view w) (view w3)).
    { destruct (transitioned id (view w !! id) tr now) as [i|] eqn:Etr; [right|left; congruence].
      rewrite Hsame in Hi. destruct Hi as [Hcas Hi]. exists id, tr, now, i, w1.
      rewrite Er. repeat split; try done. intros c Hc. by rewrite Hc in Et. }
    destruct r as [u|e]; [by split|]. specialize (Hok e eq_refl).
    destruct e; try (by destruct Hok); (split; [done|]; by intros ? [= <-]).
Qed.
End RunnerLemmas.

(** ** The in-memory store honours the contract *)

Section InMemoryLaws.
Context {W I S : Type} `{Countable I, !Lens W (InMemorySagaStore I S),
  !LensLaws W (InMemorySagaStore I S), !MapIter I (SagaInstance I S)}.

Lemma save_entry_spec (i : SagaInstance I S) s :
  match (save_entry i s).1 with
  | Ok _ => cas_ok (sagas s) i /\ sagas (save_entry i s).2 = <[sg_id i := saved i]> (sagas s)
  | Err (SaveConflict expected actual) =>
      ~ cas_ok (sagas s) i /\ expected = sg_version i
      /\ actual = sg_version <$> sagas s !! sg_id i /\ (save_entry i s).2 = s
  | Err (SaveStorage _) => False
  end.
Proof.
  unfold save_entry, cas_ok. destruct (sagas s !! sg_id i) as [c|] eqn:E.
  - destruct (sg_version c =? sg_version i) eqn:Ev; cbn.
    + split; [lia|done].
    + repeat split; try done. lia.
  - destruct (sg_version i =? 0) eqn:Ev; cbn.
    + split; [lia|done].
    + repeat split; try done. lia.
Qed.

#[export] Instance InMemorySagaStore_laws :
  SagaStoreLaws W InMemorySagaStoreError (fun w => sagas (lget w)).
Proof.
  constructor.
  - intros id w. done.
  - intros i w. cbn. unfold InMemorySagaStore_save, zoom.
    pose proof (save_entry_spec i (lget w)) as Hs. destruct (save_entry i (lget w)) as [r s'].
    cbn in *. rewrite lget_lset. destruct r as [u|[x a|e]]; [done| |done].
    destruct Hs as (? & ? & ? & ->). done.
Qed.

(** ** Claiming due sagas *)

(** The claimed instance the caller gets, and the leased one in the store. *)
Definition claimed_from (i : SagaInstance I S) : SagaInstance I S := saved i.
Definition leased_saga (now : Instant) (lease : Duration) (i : SagaInstance I S)
  : SagaInstance I S := saved (set_sg_deadline (Some (now + lease)) i).

Lemma claim_saga_spec now lease id (s : InMemorySagaStore I S) :
  (claim_saga now lease id s).1 = claimed_from <$> sagas s !! id
  /\ forall id', sagas (claim_saga now lease id s).2 !! id' =
       if decide (id' = id) then leased_saga now lease <$> sagas s !! id else sagas s !! id'.
Proof.
  unfold claim_saga. destruct (sagas s !! id) as [i|] eqn:E; cbn.
  - split; [by destruct i|]. intros id'. destruct (decide (id' = id)) as [->|].
    + by rewrite lookup_insert_eq.
    + by rewrite lookup_insert_ne.
  - split; [done|]. intros id'. by destruct (decide (id' = id)) as [->|].
Qed.

Lemma claim_sagas_spec now lease ids (s : InMemorySagaStore I S) :
  NoDup ids ->
  (claim_sagas now lease ids s).1 = omap (fun id => claimed_from <$> sagas s !! id) ids
  /\ forall id, sagas (claim_sagas now lease ids s).2 !! id =
       if decide (id ∈ ids) then leased_saga now lease <$> sagas s !! id else sagas s !! id.
Proof.
  intros Hnd. revert s. induction Hnd as [|id ids Hni Hnd IH]; intros s; cbn.
  { split; [done|]. intros id. rewrite decide_False; [done|set_solver]. }
  destruct (claim_saga_spec now lease id s) as [H1 H2].
  destruct (claim_saga now lease id s) as [o s1]. cbn in H1, H2. subst o.
  destruct (IH s1) as [I1 I2]. destruct (claim_sagas now lease ids s1) as [c s2]. cbn in *.
  split.
  - rewrite I1. rewrite (list_omap_ext (fun id => claimed_from <$> sagas s1 !! id)
                           (fun id => claimed_from <$> sagas s !! id) ids ids).
    { by destruct (sagas s !! id). }
    apply Forall2_same_length_lookup. split; [done|]. intros i x y Hx Hy. simplify_eq.
    rewrite H2, decide_False; [done|]. intros ->. apply Hni. by eapply list_elem_of_lookup_2.
  - intros id'. rewrite I2, H2. destruct (decide (id' = id)) as [->|Hne].
    + rewrite decide_False by done. rewrite decide_True by set_solver. done.
    + destruct (decide (id' ∈ ids)).
      * by rewrite decide_True by set_solver.
      * by rewrite decide_False by set_solver.
Qed.

Lemma NoDup_due_sagas now limit (s : InMemorySagaStore I S) : NoDup (due_sagas now limit s).
Proof.
  unfold due_sagas. eapply sublist_NoDup; [|apply sublist_take]. rewrite sort_by_key_perm.
  eapply sublist_NoDup; [|apply fmap_sublist, sublist_filter]. apply map_iter_NoDup_keys.
Qed.

Lemma elem_of_due_sagas now limit (s : InMemorySagaStore I S) id :
  id ∈ due_sagas now limit s -> exists i, sagas s !! id = Some i /\ saga_due now i = true.
Proof.
  unfold due_sagas. intros (k & Hk & _)%elem_of_take. apply list_elem_of_lookup_2 in Hk.
  rewrite sort_by_key_perm in Hk. apply list_elem_of_fmap in Hk as ([id' i] & -> & Hin).
  apply list_elem_of_filter in Hin as [Hd Hin]. apply map_iter_elem in Hin. by exists i.
Qed.
End InMemoryLaws.

(** ** Concurrent runners

    Runners, event handlers and timeout sweepers share a store.  Each works
    on instances it loaded or claimed earlier; between that and its [save]
    anything may happen. *)

Section Occ.
Context {I S : Type} `{Countable I, !MapIter I (SagaInstance I S)}.

(** A store and every instance ever handed out of it ([None]: the saga did
    not exist when it was loaded). *)
Record OccState := mkOcc {
  occ_store : InMemorySagaStore I S;
  occ_known : list (I * option (SagaInstance I S));
}.

(** [i] is saved on the strength of what was handed out as [base]. *)
Definition based_on (id : I) (base : option (SagaInstance I S)) (i : SagaInstance I S) : Prop :=
  sg_id i = id /\ sg_version i = match base with Some b => sg_version b | None => 0 end.

Inductive occ_step : OccState -> OccState -> Prop :=
| occ_load s known id :
    occ_step (mkOcc s known) (mkOcc s ((id, sagas s !! id) :: known))
| occ_save s known id base i :
    (id, base) ∈ known -> based_on id base i ->
    occ_step (mkOcc s known) (mkOcc (save_entry i s).2 known)
| occ_claim s known now lease limit :
    occ_step (mkOcc s known)
      (mkOcc (claim_sagas now lease (due_sagas now limit s) s).2
         (((fun i => (sg_id i, Some i)) <$> (claim_sagas now lease (due_sagas now limit s) s).1)
            ++ known)).

Definition occ_init : OccState := mkOcc (mkInMemorySagaStore ∅) [].

(** What was handed out is what is stored, but for the deadline a claim
    moves. *)
Definition agrees (b c : SagaInstance I S) : Prop :=
  sg_id b = sg_id c /\ sg_state b = sg_state c /\ sg_status b = sg_status c
  /\ sg_updated_at b = sg_updated_at c /\ sg_version b = sg_version c.

Definition occ_inv (n : nat) (st : OccState) : Prop :=
  (forall id c, sagas (occ_store st) !! id = Some c ->
     sg_id c = id /\ 1 <= sg_version c <= Z.of_nat n)
  /\ (forall id b, (id, Some b) ∈ occ_known st ->
        exists c, sagas (occ_store st) !! id = Some c /\ sg_version b <= sg_version c
                  /\ (sg_version b = sg_version c -> agrees b c)).

Lemma occ_inv_init : occ_inv 0 occ_init.
Proof. split; cbn; [intros id c; by rewrite lookup_empty|]. intros id b Hin. by apply elem_of_nil in Hin. Qed.

Lemma occ_inv_mono n st : occ_inv n st -> occ_inv (Datatypes.S n) st.
Proof. intros [H1 H2]. split; [|done]. intros id c Hc. destruct (H1 _ _ Hc). split; [done|lia]. Qed.

(** Bumping the version of entry [id] keeps older snapshots behind it. *)
Lemma occ_inv_save n s known i :
  Z.of_nat n < u64_max -> occ_inv n (mkOcc s known) -> occ_inv (Datatypes.S n) (mkOcc (save_entry i s).2 known).
Proof.
  intros Hn Hinv. pose proof (save_entry_spec i s) as Hs.
  destruct (save_entry i s) as [[u|[x a|e]] s']; cbn in Hs |- *; [|destruct Hs as (_ & _ & _ & ->);
    by apply occ_inv_mono|done].
  destruct Hinv as [H1 H2]. cbn in *. destruct Hs as [Hc Hs]. unfold cas_ok in Hc.
  assert (Hv : 0 <= sg_version i <= Z.of_nat n).
  { destruct (sagas s !! sg_id i) as [c|] eqn:E; [|lia]. destruct (H1 _ _ E). lia. }
  assert (Hsv : sg_version (saved i) = sg_version i + 1) by (cbn; apply u64_add_small; lia).
  split; cbn; rewrite Hs.
  - intros id c [[<- <-]|[Hne Hl]]%lookup_insert_Some.
    + split; [done|]. rewrite Hsv. lia.
    + destruct (H1 _ _ Hl). split; [done|lia].
  - intros id b Hin. destruct (H2 _ _ Hin) as (c & Hl & Hle & Hag).
    destruct (decide (id = sg_id i)) as [->|Hne].
    + exists (saved i). rewrite lookup_insert_eq. split; [done|]. rewrite Hl in Hc.
      split; [lia|]. intros Heq. exfalso. lia.
    + exists c. by rewrite lookup_insert_ne.
Qed.

Lemma occ_inv_claim n s known now lease limit :
  Z.of_nat n < u64_max -> occ_inv n (mkOcc s known) ->
  occ_inv (Datatypes.S n)
    (mkOcc (claim_sagas now lease (due_sagas now limit s) s).2
       (((fun i => (sg_id i, Some i)) <$> (claim_sagas now lease (due_sagas now limit s) s).1) ++ known)).
Proof.
  intros Hn [H1 H2]. cbn in *.
  destruct (claim_sagas_spec now lease (due_sagas now limit s) s) as [Hc Hs];
    [apply NoDup_due_sagas|].
  set (ids := due_sagas now limit s) in *.
  assert (Hbump : forall id c, sagas s !! id = Some c -> sg_version (saved c) = sg_version c + 1).
  { intros id c Hl. destruct (H1 _ _ Hl). cbn. apply u64_add_small. lia. }
  split; cbn.
  - intros id c. rewrite Hs. destruct (decide (id ∈ ids)).
    + intros (c0 & Hl & ->)%fmap_Some_1. destruct (H1 _ _ Hl). split; [done|].
      specialize (Hbump _ _ Hl). cbn in Hbump |- *. lia.
    + intros Hl. destruct (H1 _ _ Hl). split; [done|lia].
  - intros id b [Hin|Hin]%elem_of_app.
    + apply list_elem_of_fmap in Hin as (i & [= -> ->] & Hi). rewrite Hc in Hi.
      apply list_elem_of_omap in Hi as (id & Hid & Hl).
      apply fmap_Some_1 in Hl as (c & Hl & ->). cbn. destruct (H1 _ _ Hl) as [<- _].
      exists (leased_saga now lease c). rewrite Hs, decide_True, Hl by done. split; [done|].
      split; [done|]. done.
    + destruct (H2 _ _ Hin) as (c & Hl & Hle & Hag). rewrite Hs, Hl.
      destruct (decide (id ∈ ids)); [|by exists c]. exists (leased_saga now lease c).
      split; [done|]. specialize (Hbump _ _ Hl). cbn in Hbump |- *. split; [lia|].
      intros Heq. exfalso. lia.
Qed.

Lemma occ_inv_step n st st' :
  Z.of_nat n < u64_max -> occ_inv n st -> occ_step st st' -> occ_inv (Datatypes.S n) st'.
Proof.
  intros Hn Hinv Hs. destruct Hs as [s known id|s known id base i Hin Hb|s known now lease limit].
  - apply occ_inv_mono. destruct Hinv as [H1 H2]. split; [exact H1|]. cbn in *.
    intros id' b [[= -> Hl]|Hin]%elem_of_cons; [|by apply H2].
    exists b. split; [done|]. split; [lia|done].
  - by apply occ_inv_save.
  - by apply occ_inv_claim.
Qed.

Lemma occ_inv_reachable n st :
  Z.of_nat n <= u64_max -> nsteps occ_step n occ_init st -> occ_inv n st.
Proof.
  revert st. induction n as [|n IH]; intros st Hn Hs.
  - inversion Hs; subst. apply occ_inv_init.
  - apply nsteps_inv_r in Hs as (st1 & Hs & Hstep). eapply occ_inv_step; [lia| |exact Hstep].
    apply IH; [lia|done].
Qed.
End Occ.

(** ** Lemmas on the timeout sweep *)

Section Timeouts.
Context {W I S Ev C SE : Type} `{Countable I}.
Context `{!Env W, !Saga W I S Ev C SE, !OutboxRepository W}.
Context `{!Lens W (InMemorySagaStore I S), !LensLaws W (InMemorySagaStore I S),
  !EnvFrame W (InMemorySagaStore I S), !MapIter I (SagaInstance I S)}.
Variable map_command : C -> M W Message.
Hypothesis default_timeout : forall (i : SagaInstance I S) w, on_timeout i w = on_timeout_default i w.

Let stored (w : W) : gmap I (SagaInstance I S) := sagas (lget w).

(** [i] marked failed at some instant, at the next version. *)
Definition timed_out (i i' : SagaInstance I S) : Prop :=
  exists now, i' = saved (mkSagaInstance (sg_id i) (sg_state i) SFailed None now (sg_version i)).

Lemma timeout_one_fails i c w :
  stored w !! sg_id i = Some c -> sg_version c = sg_version i ->
  exists w' i', timeout_one map_command i w = (Ok tt, w') /\ timed_out i i'
    /\ stored w' = <[sg_id i := i']> (stored w).
Proof.
  intros Hl Hv. unfold timeout_one, tbind, mmap. rewrite default_timeout. cbn.
  unfold bind, tbind, save_instance, mmap, bind.
  pose proof (utc_now_frame w) as F. destruct (utc_now w) as [now w1]. cbn in F. cbn.
  unfold InMemorySagaStore_save, zoom. rewrite F.
  set (i1 := mkSagaInstance (sg_id i) (sg_state i) SFailed None now (sg_version i)).
  pose proof (save_entry_spec i1 (lget w)) as Hs.
  destruct (save_entry i1 (lget w)) as [[u|[x a|e]] s'] eqn:E; cbn in Hs |- *.
  - eexists _, _. split; [done|]. split; [by eexists|]. unfold stored. rewrite lget_lset. apply Hs.
  - destruct Hs as (Hc & _). destruct Hc. unfold cas_ok. cbn. unfold stored in Hl. by rewrite Hl.
  - done.
Qed.

Lemma timeout_loop_fails il n w :
  NoDup (sg_id <$> il) ->
  Forall (fun i => exists c, stored w !! sg_id i = Some c /\ sg_version c = sg_version i) il ->
  exists w', timeout_loop map_command il n w = (Ok (n + length il)%nat, w')
    /\ Forall (fun i => exists i', stored w' !! sg_id i = Some i' /\ timed_out i i') il
    /\ forall id, id ∉ sg_id <$> il -> stored w' !! id = stored w !! id.
Proof.
  revert n w. induction il as [|i il IH]; intros n w Hnd Hall.
  { exists w. rewrite Nat.add_0_r. by repeat split. }
  apply NoDup_cons in Hnd as [Hni Hnd]. apply Forall_cons in Hall as [(c & Hc & Hv) Hall].
  destruct (timeout_one_fails i c w Hc Hv) as (w1 & i' & E1 & Ht & Hs1).
  destruct (IH (Datatypes.S n) w1 Hnd) as (w2 & E2 & H2 & Hrest).
  { apply Forall_forall. intros x Hx. rewrite Forall_forall in Hall. rewrite Hs1, lookup_insert_ne.
    - by apply Hall.
    - intros Heq. apply Hni. rewrite Heq. by apply list_elem_of_fmap_2. }
  exists w2. split; [|split].
  - cbn. unfold tbind. rewrite E1, E2. do 2 f_equal. lia.
  - constructor; [|done]. exists i'. by rewrite Hrest, Hs1, lookup_insert_eq by done.
  - intros id Hid. apply not_elem_of_cons in Hid as [Hne Hid].
    by rewrite Hrest, Hs1, lookup_insert_ne by done.
Qed.
End Timeouts.

(** ** Properties *)

(** C16: handling an event is one step of the saga's state machine: over any
    store that honours the contract of [save], [handle] either leaves every
    saga as it was or replaces the one instance the event concerns by what
    the saga's own transition computed from the stored instance, at the next
    version, and only if that instance was not terminal; a conflict, a store
    error or a saga error means nothing was written. *)
Theorem saga_handle_one_transition {W I S Ev C SE StoreE} `{Countable I}
  `{!Env W, !Saga W I S Ev C SE, !SagaStore W I S StoreE, !OutboxRepository W}
  (view : W -> gmap I (SagaInstance I S)) `{!SagaStoreLaws W StoreE view}
  (map_command : C -> M W Message) (event : Ev) (w : W) :
  (forall w, view (utc_now w).2 = view w) -> (forall w, view (uuid_now_v7 w).2 = view w) ->
  (forall m w, view (outbox_insert m w).2 = view w) ->
  (forall c w, view (map_command c w).2 = view w) ->
  (forall c e w, view (react c e w).2 = view w) ->
  let '(r, w') := handle (StoreE := StoreE) map_command event w in
  (view w' = view w \/ one_transition event (view w) (view w'))
  /\ (forall e, r = Err e -> unsaved_error e -> view w' = view w).
Proof.
  intros H1 H2 H3 H4 H5. unfold handle. destruct (id_for event) as [id|] eqn:E.
  - exact (handle_loop_effect view map_command H1 H2 H3 H4 H5 _ id event None w E).
  - cbn. split; [by left|done].
Qed.

(** A terminal saga cannot be revived: for an event of an instance that is
    completed or failed, [handle] only loads it and consults [react]; it
    writes nothing, enqueues nothing and reports success unless the load or
    [react] itself fails. *)
Theorem terminal_saga_not_revived {W I S Ev C SE StoreE} `{Countable I}
  `{!Env W, !Saga W I S Ev C SE, !SagaStore W I S StoreE, !OutboxRepository W}
  (view : W -> gmap I (SagaInstance I S)) `{!SagaStoreLaws W StoreE view}
  (map_command : C -> M W Message) (event : Ev) (id : I) (i : SagaInstance I S) (w : W) :
  id_for event = Some id -> view w !! id = Some i -> terminal i = true ->
  handle (StoreE := StoreE) map_command event w =
  let '(r, w1) := saga_load id w in
  match r with
  | Err e => (Err (RunnerStore e), w1)
  | Ok current =>
      let '(t, w2) := react current event w1 in
      (match t with Ok _ => Ok tt | Err e => Err (RunnerSaga e) end, w2)
  end.
Proof.
  intros Hid Hi Ht. unfold handle. rewrite Hid. cbn [MAX_CONFLICT_RETRIES handle_loop].
  unfold tbind, mmap. destruct (load_law id w) as [_ Hl].
  destruct (saga_load id w) as [[cur|e] w1]; cbn in Hl |- *; [|done]. subst cur.
  destruct (react (view w !! id) event w1) as [[tr|e] w2]; cbn; [|done].
  rewrite Hi, Ht. by destruct (is_ignore tr).
Qed.


(** A timeout claim is exclusive for its lease: [claim_due] hands out at
    most [limit] running instances past their deadline, each at its bumped
    version with its original deadline, moves exactly those to the lease, and
    no claim at an instant before the lease ends finds any of them due. *)
Theorem claim_due_exclusive {I S} `{Countable I, !MapIter I (SagaInstance I S)}
  (now : Instant) (lease : Duration) (limit : nat) (s : InMemorySagaStore I S) :
  let ids := due_sagas now limit s in
  let '(claimed, s') := claim_sagas now lease ids s in
  (length ids <= limit)%nat
  /\ Forall2 (fun id c => exists i, sagas s !! id = Some i /\ saga_due now i = true
                                    /\ c = saved i) ids claimed
  /\ (forall id, sagas s' !! id = if decide (id ∈ ids)
                                  then leased_saga now lease <$> sagas s !! id
                                  else sagas s !! id)
  /\ (forall now' limit', now' < now + lease ->
        Forall (fun id => id ∉ due_sagas now' limit' s') ids).
Proof.
  cbn zeta. destruct (claim_sagas_spec now lease (due_sagas now limit s) s) as [Hc Hs];
    [apply NoDup_due_sagas|].
  destruct (claim_sagas now lease (due_sagas now limit s) s) as [claimed s']. cbn in Hc, Hs.
  split; [|split; [|split; [exact Hs|]]].
  - unfold due_sagas. rewrite length_take. lia.
  - subst claimed. pose proof (elem_of_due_sagas now limit s) as Hd.
    generalize dependent (due_sagas now limit s). intros ids _ Hd.
    induction ids as [|id ids IH]; [constructor|]. cbn.
    destruct (Hd id ltac:(left)) as (i & Hi & Hdue). rewrite Hi. cbn.
    constructor; [by exists i|]. apply IH. intros id' Hid'. apply Hd. by right.
  - intros now' limit' Hlt. apply Forall_forall. intros id Hid Hin.
    apply elem_of_due_sagas in Hin as (i & Hi & Hdue). rewrite Hs, decide_True in Hi by done.
    apply fmap_Some_1 in Hi as (i0 & _ & ->). unfold saga_due in Hdue.
    apply andb_true_iff in Hdue as [_ Hdue]. cbn in Hdue. lia.
Qed.

(** With the default [on_timeout] a sweep over the in-memory store fails
    every due saga it claims and nothing else: it reports their number, each
    ends failed with no deadline and its state kept, two versions on, and no
    other instance changes. *)
Theorem default_timeout_fails_due {W I S Ev C SE} `{Countable I}
  `{!Env W, !Saga W I S Ev C SE, !OutboxRepository W,
    !Lens W (InMemorySagaStore I S), !LensLaws W (InMemorySagaStore I S),
    !EnvFrame W (InMemorySagaStore I S), !MapIter I (SagaInstance I S)}
  (map_command : C -> M W Message) (now : Instant) (lease : Duration) (limit : nat) (w : W) :
  (forall (i : SagaInstance I S) (w : W), on_timeout i w = on_timeout_default i w) ->
  map_Forall (fun id i => sg_id i = id) (sagas (lget w)) ->
  let ids := due_sagas now limit (lget w) in
  exists w',
    run_due_timeouts (StoreE := InMemorySagaStoreError) map_command now lease limit w
      = (Ok (length ids), w')
    /\ Forall (fun id => exists i i', sagas (lget w) !! id = Some i
                 /\ sagas (lget w') !! id = Some i' /\ timed_out (saved i) i') ids
    /\ forall id, id ∉ ids -> sagas (lget w') !! id = sagas (lget w) !! id.
Proof.
  intros Hdef Hk ids. subst ids. unfold run_due_timeouts, tbind, mmap. cbn [claim_due InMemorySagaStore_store].
  unfold InMemorySagaStore_claim_due, zoom.
  destruct (claim_sagas_spec now lease (due_sagas now limit (lget w)) (lget w)) as [Hc Hs];
    [apply NoDup_due_sagas|].
  pose proof (elem_of_due_sagas now limit (lget w)) as Hd.
  pose proof (NoDup_due_sagas now limit (lget w)) as Hnd.
  destruct (claim_sagas _ _ _ (lget w)) as [claimed s']. cbn in Hc, Hs |- *.
  set (ids := due_sagas now limit (lget w)) in *.
  assert (Hcl : Forall2 (fun id c => exists i, sagas (lget w) !! id = Some i /\ c = saved i) ids claimed).
  { subst claimed. clearbody ids. clear Hs Hnd. induction ids as [|id ids IH]; [constructor|]. cbn.
    destruct (Hd id ltac:(left)) as (i & Hi & _). rewrite Hi. cbn.
    constructor; [by exists i|]. apply IH. intros id' Hid'. apply Hd. by right. }
  assert (Hids : sg_id <$> claimed = ids).
  { clear -Hcl Hk. induction Hcl as [|id c ids cs (i & Hi & ->) _ IH]; [done|].
    cbn. rewrite IH. f_equal. exact (Hk _ _ Hi). }
  destruct (timeout_loop_fails map_command Hdef claimed 0 (lset s' w)) as (w' & E & Hf & Hrest).
  - by rewrite Hids.
  - apply Forall_forall. intros c Hin. rewrite lget_lset, Hs.
    rewrite decide_True by (rewrite <- Hids; by apply list_elem_of_fmap_2).
    apply list_elem_of_lookup in Hin as [k Hc'].
    destruct (Forall2_lookup_r _ _ _ _ _ Hcl Hc') as (id & Hid & i & Hi & ->).
    rewrite (Hk _ _ Hi : sg_id (saved i) = id), Hi. cbn. by eexists.
  - exists w'. split; [by rewrite E, <- Hids, length_fmap|]. split.
    + apply Forall_lookup. intros k id Hid.
      destruct (Forall2_lookup_l _ _ _ _ _ Hcl Hid) as (c & Hc' & i & Hi & ->).
      rewrite Forall_lookup in Hf. destruct (Hf _ _ Hc') as (i' & Hi' & Ht).
      exists i, i'. rewrite (Hk _ _ Hi : sg_id (saved i) = id) in Hi'. done.
    + intros id Hid. rewrite Hrest by (by rewrite Hids). by rewrite lget_lset, Hs, decide_False.
Qed.

(** A saga that answers [Start] for an instance that already runs cannot
    make progress: [Start] always saves at version 0, so every one of the
    eight attempts conflicts and the event ends in [Conflict] with the store
    unchanged; no number of redeliveries succeeds. *)
Theorem start_on_running_conflicts {W I S Ev C SE} `{Countable I}
  `{!Env W, !Saga W I S Ev C SE, !OutboxRepository W,
    !Lens W (InMemorySagaStore I S), !LensLaws W (InMemorySagaStore I S),
    !EnvFrame W (InMemorySagaStore I S), !MapIter I (SagaInstance I S)}
  (map_command : C -> M W Message) (event : Ev) (id : I) (i : SagaInstance I S) (state : S)
  (commands : list C) (deadline : option Instant) (w : W) :
  id_for event = Some id -> sagas (lget w) !! id = Some i -> terminal i = false ->
  sg_version i <> 0 ->
  (forall w : W, react (Some i) event w = (Ok (Start state commands deadline), w)) ->
  exists w',
    handle (StoreE := InMemorySagaStoreError) map_command event w
      = (Err (RunnerConflict 0 (Some (sg_version i))), w')
    /\ sagas (lget w') = sagas (lget w).
Proof.
  intros Hid Hi Ht Hv Hreact. unfold handle. rewrite Hid.
  assert (Hloop : forall n last w, sagas (lget w) !! id = Some i ->
    (last = Some (0, Some (sg_version i)) \/ (0 < n)%nat) ->
    exists w', handle_loop (StoreE := InMemorySagaStoreError) map_command n id event last w
               = (Err (RunnerConflict 0 (Some (sg_version i))), w')
               /\ sagas (lget w') = sagas (lget w)).
  { clear w Hi. induction n as [|n IH]; intros last w Hi Hn.
    { exists w. destruct Hn as [->|?]; [done|lia]. }
    cbn [handle_loop]. unfold tbind, mmap. cbn [saga_load InMemorySagaStore_store].
    unfold InMemorySagaStore_load, bind, mget, ret. rewrite Hi. cbn. rewrite Hreact. cbn. rewrite Ht.
    unfold SagaInstance_running, bind, ret.
    pose proof (utc_now_frame w) as F. destruct (utc_now w) as [now w1]. cbn in F.
    unfold tbind, save_instance, mmap. cbn. unfold InMemorySagaStore_save, zoom. rewrite F.
    unfold save_entry. cbn. rewrite Hi. replace (sg_version i =? 0) with false by lia. cbn.
    destruct (IH (Some (0, Some (sg_version i))) (lset (lget w) w1)) as (w2 & E & Hs);
      [by rewrite lget_lset|by left|].
    exists w2. rewrite E, Hs, lget_lset. done. }
  apply Hloop; [done|]. right. unfold MAX_CONFLICT_RETRIES. lia.
Qed.

(** ** A concrete saga

    An order is opened by its first event, paid by positive ones and closed
    by a zero. *)

Abbreviation SagaWorld := (World (InMemorySagaStore Z Z * InMemoryOutbox)) (only parsing).

Definition demo_react (restart : bool) (current : option (SagaInstance Z Z)) (event : Z * Z)
  : SagaTransition Z Z :=
  match current with
  | None => Start event.2 [event.2] (Some 0)
  | Some i => if restart then Start event.2 [] None
              else if event.2 =? 0 then Complete (sg_state i) [1; 2]
              else Advance (sg_state i + event.2) [] None
  end.

Definition demo_saga (restart : bool) : Saga SagaWorld Z Z (Z * Z) Z unit := {|
  id_for e := Some e.1;
  react c e := ret (Ok (demo_react restart c e));
  on_timeout := on_timeout_default;
|}.

Definition demo_command (c : Z) : M SagaWorld Message :=
  do! id <- uuid_now_v7; ret (Message_new id "commands" (pretty c) "text/plain").

Definition demo_start : SagaWorld :=
  mkWorld env_start (mkInMemorySagaStore ∅, InMemoryOutbox_default).

(** Order 5 opened. *)
Definition demo_running : SagaWorld :=
  (handle (Saga0 := demo_saga false) (StoreE := InMemorySagaStoreError) demo_command (5, 7)
     demo_start).2.

(** Order 5 closed. *)
Definition demo_completed : SagaWorld :=
  (handle (Saga0 := demo_saga false) (StoreE := InMemorySagaStoreError) demo_command (5, 0)
     demo_running).2.

Lemma saga_handle_one_transition_witness :
  let stored := fun w : SagaWorld => sagas (lget w) in
  let '(r, w') := handle (Saga0 := demo_saga false) (StoreE := InMemorySagaStoreError)
                    demo_command (5, 0) demo_running in
  (stored w' = stored demo_running
   \/ one_transition (Saga0 := demo_saga false) (5, 0) (stored demo_running) (stored w'))
  /\ (forall e, r = Err e -> unsaved_error e -> stored w' = stored demo_running).
Proof.
  refine (saga_handle_one_transition (Saga0 := demo_saga false)
            (fun w : SagaWorld => sagas (lget w)) demo_command (5, 0) demo_running _ _ _ _ _).
  - intros w. reflexivity.
  - intros w. reflexivity.
  - intros m w. reflexivity.
  - intros c w. reflexivity.
  - intros c e w. reflexivity.
Defined.

Lemma terminal_saga_not_revived_witness :
  handle (Saga0 := demo_saga false) (StoreE := InMemorySagaStoreError) demo_command (5, 3)
    demo_completed
  = (Ok tt, demo_completed).
Proof.
  refine (terminal_saga_not_revived (Saga0 := demo_saga false)
            (fun w : SagaWorld => sagas (lget w)) demo_command (5, 3) 5
            (mkSagaInstance 5 7 SCompleted None 2000 2) demo_completed _ _ _).
  - reflexivity.
  - vm_compute. reflexivity.
  - reflexivity.
Defined.

(** Saga 5 is loaded before it exists, created, and loaded again. *)
Definition occ_first : SagaInstance Z Z := mkSagaInstance 5 7 SRunning None 0 0.

Definition occ_sample : OccState (I := Z) (S := Z) :=
  mkOcc (mkInMemorySagaStore {[5 := saved occ_first]}) [(5, Some (saved occ_first)); (5, None)].

Lemma occ_sample_reachable : nsteps occ_step 3 occ_init occ_sample.
Proof.
  eapply nsteps_l; [exact (occ_load _ _ 5)|].
  eapply nsteps_l; [apply (occ_save _ _ 5 None occ_first); [left|done]|].
  eapply nsteps_l; [exact (occ_load _ _ 5)|]. apply nsteps_O.
Qed.


Lemma default_timeout_fails_due_witness :
  exists w',
    run_due_timeouts (Saga0 := demo_saga false) (StoreE := InMemorySagaStoreError)
      demo_command 10 60 100 demo_running = (Ok 1%nat, w')
    /\ Forall (fun id => exists i i', sagas (lget demo_running) !! id = Some i
                 /\ sagas (lget w') !! id = Some i' /\ timed_out (saved i) i') [5].
Proof.
  destruct (default_timeout_fails_due (Saga0 := demo_saga false) demo_command 10 60 100 demo_running)
    as (w' & H1 & H2 & _).
  - intros i w. reflexivity.
  - apply (bool_decide_unpack _). vm_compute. exact Logic.I.
  - exists w'. split; [exact H1|exact H2].
Defined.

Lemma start_on_running_conflicts_witness :
  exists w',
    handle (Saga0 := demo_saga true) (StoreE := InMemorySagaStoreError) demo_command (5, 3)
      demo_running = (Err (RunnerConflict 0 (Some 1)), w')
    /\ sagas (lget w') = sagas (lget demo_running).
Proof.
  refine (start_on_running_conflicts (Saga0 := demo_saga true) demo_command (5, 3) 5
            (mkSagaInstance 5 7 SRunning (Some 0) 0 1) 3 [] None demo_running _ _ _ _ _).
  - reflexivity.
  - vm_compute. reflexivity.
  - reflexivity.
  - discriminate.
  - intros w. reflexivity.
Defined.
