(* ===== verification/EventSourcing.v ===== *)
(** * EventSourcing: append-only streams, rehydration and snapshots

    Models [crates/pharos-es/src/lib.rs] and the in-memory stores
    [crates/pharos-memory/src/in_memory_event_store.rs]. *)

From S2P Require Import Prelude Core.
Local Open Scope Z_scope.

(** ** Stored events and snapshots *)

Record StoredEvent (Ev : Type) := mkStoredEvent {
  sequence : Z;
  event : Ev;
  recorded_at : Instant;
}.
Arguments mkStoredEvent {Ev} _ _ _.
Arguments sequence {Ev} _.
Arguments event {Ev} _.
Arguments recorded_at {Ev} _.

Definition StoredEvent_new {W Ev} `{!Env W} (sequence : Z) (e : Ev) : M W (StoredEvent Ev) :=
  do! now <- utc_now; ret (mkStoredEvent sequence e now).

Record Snapshot (A : Type) := mkSnapshot {
  snap_state : A;
  snap_version : Z;
  taken_at : Instant;
  schema_version : Z;
}.
Arguments mkSnapshot {A} _ _ _ _.
Arguments snap_state {A} _.
Arguments snap_version {A} _.
Arguments taken_at {A} _.
Arguments schema_version {A} _.

Definition Snapshot_new {W A} `{!Env W} (state : A) (version : Z) : M W (Snapshot A) :=
  do! now <- utc_now; ret (mkSnapshot state version now 0).

Definition Snapshot_with_schema_version {A} (v : Z) (s : Snapshot A) : Snapshot A :=
  mkSnapshot (snap_state s) (snap_version s) (taken_at s) v.

(** ** Traits *)

(** [EventSourced + Default] *)
Class EventSourced (A Id Ev : Type) `{!AggregateRoot A Id Ev} : Type := {
  default_aggregate : A;
  apply : A -> Ev -> A;
}.

Class EventStore (W Id Ev E : Type) : Type := {
  es_load : Id -> M W (result (list (StoredEvent Ev)) E);
  es_append : Id -> Z -> list Ev -> M W (result unit (RepositoryError E));
  es_delete_stream : Id -> M W (result unit E);
}.

(** The provided method. *)
Definition load_after {W Id Ev E} `{!EventStore W Id Ev E} (id : Id) (after : Z)
  : M W (result (list (StoredEvent Ev)) E) :=
  try! events <- es_load id;
  ret (Ok (filter (fun stored => after < sequence stored) events)).

Class SnapshotStore (W Id A E : Type) : Type := {
  snap_load : Id -> M W (result (option (Snapshot A)) E);
  snap_save : Id -> Snapshot A -> M W (result unit E);
}.

(** ** Repositories *)

Section Repositories.
Context {W A Id Ev E SE : Type} `{!AggregateRoot A Id Ev, !EventSourced A Id Ev}.
Context `{!Env W, !EventStore W Id Ev E, !SnapshotStore W Id A SE}.

(** The replay loop: the aggregate and the sequence of the last event. *)
Definition replay (aggregate : A) (version : Z) (events : list (StoredEvent Ev)) : A * Z :=
  foldl (fun '(a, _) stored => (apply a (event stored), sequence stored)) (aggregate, version) events.

Definition EventSourcedRepository_find_by_id (id : Id) : M W (result (option A) E) :=
  try! events <- es_load id;
  match events with
  | [] => ret (Ok None)
  | _ =>
      let '(aggregate, version) := replay default_aggregate 0 events in
      ret (Ok (Some (set_version version aggregate)))
  end.

Definition EventSourcedRepository_save (aggregate : A)
  : M W (result unit (RepositoryError E) * A) :=
  let expected_version := version aggregate in
  let '(events, aggregate) := drain_events aggregate in
  let event_count := Z.of_nat (length events) in
  do! r <- es_append (agg_id aggregate) expected_version events;
  match r with
  | Err e => ret (Err e, aggregate)
  | Ok _ => ret (Ok tt, set_version (u64_add expected_version event_count) aggregate)
  end.

Definition EventSourcedRepository_delete (id : Id) : M W (result unit E) := es_delete_stream id.

(** The snapshotting repository; [snapshot_every] as [new] clamps it. *)
Definition snapshot_every_new (n : Z) : Z := Z.max n 1.

Definition Snapshotting_find_by_id (id : Id) : M W (result (option A) E) :=
  do! loaded <- snap_load id;
  let snapshot := match loaded with Ok s => s | Err _ => None end in
  let '(aggregate, version) :=
    match snapshot with
    | Some s => (snap_state s, snap_version s)
    | None => (default_aggregate, 0)
    end in
  try! events <- load_after id version;
  if (version =? 0) && match events with [] => true | _ => false end then ret (Ok None)
  else
    let '(aggregate, version) := replay aggregate version events in
    ret (Ok (Some (set_version version aggregate))).

Definition Snapshotting_save (snapshot_every : Z) (aggregate : A)
  : M W (result unit (RepositoryError E) * A) :=
  let expected_version := version aggregate in
  let '(events, aggregate) := drain_events aggregate in
  let event_count := Z.of_nat (length events) in
  do! r <- es_append (agg_id aggregate) expected_version events;
  match r with
  | Err e => ret (Err e, aggregate)
  | Ok _ =>
      let new_version := u64_add expected_version event_count in
      let aggregate := set_version new_version aggregate in
      let previous_boundary := expected_version / snapshot_every in
      let new_boundary := new_version / snapshot_every in
      if previous_boundary <? new_boundary then
        do! s <- Snapshot_new aggregate new_version;
        do! _ <- snap_save (agg_id aggregate) s;
        ret (Ok tt, aggregate)
      else ret (Ok tt, aggregate)
  end.

Definition Snapshotting_delete (id : Id) : M W (result unit E) := es_delete_stream id.
End Repositories.

(** ** In-memory stores *)

Record InMemoryEventStore (Id Ev : Type) `{Countable Id} := mkInMemoryEventStore {
  streams : gmap Id (list (StoredEvent Ev));
}.
Arguments mkInMemoryEventStore {Id Ev _ _} _.
Arguments streams {Id Ev _ _} _.

Record InMemorySnapshotStore (Id A : Type) `{Countable Id} := mkInMemorySnapshotStore {
  snapshots : gmap Id (Snapshot A);
}.
Arguments mkInMemorySnapshotStore {Id A _ _} _.
Arguments snapshots {Id A _ _} _.

Inductive InMemoryEventStoreError := EventStoreNever.

Section InMemoryStores.
Context {W Id Ev A : Type} `{Countable Id, !Env W, !Lens W (InMemoryEventStore Id Ev),
  !Lens W (InMemorySnapshotStore Id A)}.

Definition stream_of (s : InMemoryEventStore Id Ev) (id : Id) : list (StoredEvent Ev) :=
  default [] (streams s !! id).

Definition InMemoryEventStore_load (id : Id)
  : M W (result (list (StoredEvent Ev)) InMemoryEventStoreError) :=
  do! s <- mget; ret (Ok (stream_of s id)).

(** [StoredEvent::new] for each event, numbered after [last]. *)
Fixpoint stored_events (last : Z) (events : list Ev) : M W (list (StoredEvent Ev)) :=
  match events with
  | [] => ret []
  | e :: events =>
      let sequence := u64_add last 1 in
      do! stored <- StoredEvent_new sequence e;
      do! rest <- stored_events sequence events;
      ret (stored :: rest)
  end.

Definition InMemoryEventStore_append (id : Id) (expected_version : Z) (events : list Ev)
  : M W (result unit (RepositoryError InMemoryEventStoreError)) :=
  do! s <- mget;
  match streams s !! id with
  | Some stream =>
      let actual := Z.of_nat (length stream) in
      if negb (actual =? expected_version)
      then ret (Err (ConcurrencyConflict expected_version (Some actual)))
      else
        do! stored <- stored_events actual events;
        do! _ <- mput (mkInMemoryEventStore (<[id := stream ++ stored]> (streams s)));
        ret (Ok tt)
  | None =>
      if negb (expected_version =? 0)
      then ret (Err (ConcurrencyConflict expected_version None))
      else
        do! stored <- stored_events 0 events;
        do! _ <- mput (mkInMemoryEventStore (<[id := stored]> (streams s)));
        ret (Ok tt)
  end.

Definition InMemoryEventStore_delete_stream (id : Id) : M W (result unit InMemoryEventStoreError) :=
  do! s <- mget;
  do! _ <- mput (mkInMemoryEventStore (delete id (streams s)));
  ret (Ok tt).

#[export] Instance InMemoryEventStore_store : EventStore W Id Ev InMemoryEventStoreError := {
  es_load := InMemoryEventStore_load;
  es_append := InMemoryEventStore_append;
  es_delete_stream := InMemoryEventStore_delete_stream;
}.

Definition InMemorySnapshotStore_load (id : Id)
  : M W (result (option (Snapshot A)) InMemoryEventStoreError) :=
  do! s <- mget; ret (Ok (snapshots s !! id)).

Definition InMemorySnapshotStore_save (id : Id) (snapshot : Snapshot A)
  : M W (result unit InMemoryEventStoreError) :=
  do! s <- mget;
  do! _ <- mput (mkInMemorySnapshotStore (<[id := snapshot]> (snapshots s)));
  ret (Ok tt).

#[export] Instance InMemorySnapshotStore_store : SnapshotStore W Id A InMemoryEventStoreError := {
  snap_load := InMemorySnapshotStore_load;
  snap_save := InMemorySnapshotStore_save;
}.
End InMemoryStores.

#[global] Arguments InMemoryEventStore_load : simpl never.
#[global] Arguments InMemoryEventStore_append : simpl never.
#[global] Arguments InMemoryEventStore_delete_stream : simpl never.
#[global] Arguments InMemorySnapshotStore_load : simpl never.
#[global] Arguments InMemorySnapshotStore_save : simpl never.

(** ** What rehydration relies on

    The version is a field [apply] neither reads nor writes. *)
Class EventSourcedLaws {A Id Ev : Type} `{!AggregateRoot A Id Ev} (ES : EventSourced A Id Ev)
  : Prop := {
  set_version_twice u v (a : A) : set_version v (set_version u a) = set_version v a;
  apply_set_version v (a : A) e : apply (set_version v a) e = set_version v (apply a e);
}.

(** An aggregate over a state machine: a start state and a step. *)
Definition plain_sourced {Id St Ev} (id : Id) (start : St) (step : St -> Ev -> St)
  : EventSourced (PlainAggregate Id St Ev) Id Ev := {|
  default_aggregate := mkPlain id start 0 AggregateEvents_default;
  apply a e := mkPlain (p_id a) (step (p_state a) e) (p_version a) (p_events a);
|}.

Lemma plain_sourced_laws {Id St Ev} (id : Id) (start : St) (step : St -> Ev -> St) :
  EventSourcedLaws (plain_sourced id start step).
Proof. by constructor. Qed.

(** ** Lemmas on streams *)

(** Sequences count from one without gaps. *)
Definition wf_stream {Ev} (l : list (StoredEvent Ev)) : Prop :=
  forall i s, l !! i = Some s -> sequence s = Z.of_nat i + 1.

Lemma wf_stream_snoc {Ev} (l l' : list (StoredEvent Ev)) :
  wf_stream l ->
  (forall i s, l' !! i = Some s -> sequence s = Z.of_nat (length l) + Z.of_nat i + 1) ->
  wf_stream (l ++ l').
Proof.
  intros Hl Hl' i s [Hi|[Hge Hi]]%lookup_app_Some; [by apply Hl|]. rewrite (Hl' _ _ Hi). lia.
Qed.

Lemma wf_load_after {Ev} (l : list (StoredEvent Ev)) (k : nat) :
  wf_stream l -> filter (fun s => Z.of_nat k < sequence s) l = drop k l.
Proof.
  intros Hl. rewrite <- (take_drop k l) at 1. rewrite filter_app, filter_none, filter_all; [done|..].
  - apply Forall_lookup. intros i s. rewrite lookup_drop. intros Hi. rewrite (Hl _ _ Hi). lia.
  - apply Forall_lookup. intros i s [Hi Hlt]%lookup_take_Some. rewrite (Hl _ _ Hi). lia.
Qed.

Section StreamLemmas.
Context {W Id Ev A : Type} `{Countable Id, !Env W, !Lens W (InMemoryEventStore Id Ev),
  !LensLaws W (InMemoryEventStore Id Ev), !EnvFrame W (InMemoryEventStore Id Ev)}.

Lemma stored_events_spec last (es : list Ev) (w : W) :
  0 <= last -> last + Z.of_nat (length es) <= u64_max ->
  let '(l, w') := stored_events last es w in
  event <$> l = es /\ (forall i s, l !! i = Some s -> sequence s = last + Z.of_nat i + 1)
  /\ lget w' = lget w :> InMemoryEventStore Id Ev.
Proof.
  revert last w. induction es as [|e es IH]; intros last w Hl Hb; cbn in *.
  { split; [done|]. split; [|done]. intros i s. by rewrite lookup_nil. }
  unfold bind, StoredEvent_new, bind, ret.
  pose proof (utc_now_frame w) as F. destruct (utc_now w) as [now w1]. cbn in F.
  rewrite u64_add_small by lia. specialize (IH (last + 1) w1 ltac:(lia) ltac:(lia)).
  destruct (stored_events (last + 1) es w1) as [l w2]. destruct IH as (He & Hs & Hw).
  cbn. split; [by rewrite He|]. split; [|congruence].
  intros [|i] s Hi; cbn in Hi; [injection Hi as <-; cbn; lia|]. rewrite (Hs _ _ Hi). lia.
Qed.

Definition stream (w : W) (id : Id) : list (StoredEvent Ev) := stream_of (lget w) id.

(** [append] on a stream of the expected length extends it; on any other it
    reports the length and changes nothing. *)
Lemma append_spec id expected (es : list Ev) (w : W) :
  wf_stream (stream w id) -> Z.of_nat (length (stream w id) + length es) <= u64_max ->
  exists w',
    if Z.of_nat (length (stream w id)) =? expected then
      InMemoryEventStore_append id expected es w = (Ok tt, w')
      /\ wf_stream (stream w' id)
      /\ (exists l, stream w' id = stream w id ++ l /\ event <$> l = es)
      /\ forall id', id' <> id -> stream w' id' = stream w id'
    else
      (exists actual, InMemoryEventStore_append id expected es w
                      = (Err (ConcurrencyConflict expected actual), w')
                      /\ (actual = None \/ actual = Some (Z.of_nat (length (stream w id)))))
      /\ w' = w.
Proof.
  unfold stream, stream_of. intros Hwf Hb.
  unfold InMemoryEventStore_append, bind, mget, mput, ret.
  destruct (streams (lget w) !! id) as [l|] eqn:El.
  - change (default [] (Some l)) with l in *. destruct (Z.of_nat (length l) =? expected) eqn:Ee; cbn [negb].
    + pose proof (stored_events_spec (Z.of_nat (length l)) es w ltac:(lia) ltac:(lia)) as Hs.
      destruct (stored_events (Z.of_nat (length l)) es w) as [l' w1]. destruct Hs as (He & Hs & Hw).
      eexists. split; [done|]. rewrite lget_lset. cbn. rewrite lookup_insert_eq. cbn.
      split; [by apply wf_stream_snoc|]. split; [by exists l'|].
      intros id' Hne. by rewrite lookup_insert_ne.
    + exists w. split; [|done]. eexists. split; [done|by right].
  - change (default [] None) with (@nil (StoredEvent Ev)) in *.
    change (Z.of_nat (length [])) with 0. rewrite (Z.eqb_sym expected). destruct (0 =? expected) eqn:Ee; cbn [negb].
    + pose proof (stored_events_spec 0 es w ltac:(lia) ltac:(lia)) as Hs.
      destruct (stored_events 0 es w) as [l' w1]. destruct Hs as (He & Hs & Hw).
      eexists. split; [done|]. rewrite lget_lset. cbn. rewrite lookup_insert_eq. cbn.
      split; [by apply (wf_stream_snoc [])|]. split; [by exists l'|].
      intros id' Hne. by rewrite lookup_insert_ne.
    + exists w. split; [|done]. eexists. split; [done|by left].
Qed.

Lemma append_frame {T} `{!Lens W T, !EnvFrame W T, !LensDisjoint W (InMemoryEventStore Id Ev) T}
  id expected (es : list Ev) (w : W) :
  lget (InMemoryEventStore_append id expected es w).2 = lget w :> T.
Proof.
  assert (Hs : forall last w, lget (stored_events last es w).2 = lget w :> T).
  { induction es as [|e es' IH]; intros last w0; [done|]. cbn. unfold bind, StoredEvent_new, bind, ret.
    pose proof (utc_now_frame (S := T) w0) as F. destruct (utc_now w0) as [now w1]. cbn in F.
    specialize (IH (u64_add last 1) w1). destruct (stored_events _ es' w1) as [l w2]. cbn in *.
    congruence. }
  unfold InMemoryEventStore_append, bind, mget, mput, ret.
  destruct (streams (lget w) !! id) as [l|]; destruct (negb _); try done;
    match goal with |- context [stored_events ?n es w] =>
      specialize (Hs n w); destruct (stored_events n es w) as [l' w1] end;
    cbn in *; by rewrite lget_lset_other.
Qed.
End StreamLemmas.

Section ReplayLemmas.
Context {A Id Ev : Type} `{!AggregateRoot A Id Ev, !AggregateRootLaws AggregateRoot0,
  !EventSourced A Id Ev, !EventSourcedLaws EventSourced0}.

(** The aggregate a history leads to. *)
Definition rehydrated (es : list Ev) : A := foldl apply default_aggregate es.

Lemma replay_spec (a : A) v l :
  replay a v l = (foldl apply a (event <$> l), default v (sequence <$> last l)).
Proof.
  unfold replay. revert a v. induction l as [|s l IH]; intros a v; [done|]. cbn.
  rewrite IH. f_equal. destruct l as [|s' l]; [done|]. cbn.
  by destruct (last (s' :: l)) eqn:E; [|apply last_None in E].
Qed.

Lemma wf_last (l : list (StoredEvent Ev)) v :
  wf_stream l -> l <> [] -> default v (sequence <$> last l) = Z.of_nat (length l).
Proof.
  intros Hwf Hne. destruct l as [|s l] using rev_ind; [done|]. rewrite last_snoc. cbn.
  rewrite (Hwf (length l) s) by (by rewrite lookup_app_r, Nat.sub_diag).
  rewrite length_app. cbn. lia.
Qed.

Lemma foldl_apply_set_version v (a : A) es :
  foldl apply (set_version v a) es = set_version v (foldl apply a es).
Proof. revert a. induction es as [|e es IH]; intros a; [done|]. cbn. by rewrite apply_set_version. Qed.

(** The aggregate carries the state its stream and its pending events lead
    to, at the version of its stream. *)
Definition faithful (a : A) (history : list Ev) : Prop :=
  version a = Z.of_nat (length history)
  /\ (drain_events a).2 = set_version (version a) (rehydrated (history ++ pending_events a)).
End ReplayLemmas.

Section RepositoryLemmas.
Context {W A Id Ev : Type} `{Countable Id, !Env W}.
Context `{!AggregateRoot A Id Ev, !AggregateRootLaws AggregateRoot0,
  !EventSourced A Id Ev, !EventSourcedLaws EventSourced0}.
Context `{!Lens W (InMemoryEventStore Id Ev), !LensLaws W (InMemoryEventStore Id Ev),
  !EnvFrame W (InMemoryEventStore Id Ev), !Lens W (InMemorySnapshotStore Id A),
  !LensLaws W (InMemorySnapshotStore Id A), !EnvFrame W (InMemorySnapshotStore Id A),
  !LensDisjoint W (InMemoryEventStore Id Ev) (InMemorySnapshotStore Id A),
  !LensDisjoint W (InMemorySnapshotStore Id A) (InMemoryEventStore Id Ev)}.

Definition history (w : W) (id : Id) : list Ev := event <$> stream w id.

(** The aggregate a stream stands for. *)
Definition stored_aggregate (h : list Ev) : option A :=
  match h with [] => None | _ => Some (set_version (Z.of_nat (length h)) (rehydrated h)) end.

Lemma find_by_id_spec id (w : W) :
  wf_stream (stream w id) ->
  EventSourcedRepository_find_by_id id w = (Ok (stored_aggregate (history w id)), w).
Proof.
  intros Hwf. unfold EventSourcedRepository_find_by_id, tbind. cbn.
  unfold InMemoryEventStore_load, bind, mget, ret. fold (stream w id). unfold history.
  destruct (stream w id) as [|s l] eqn:E; [done|].
  rewrite replay_spec, wf_last by done. cbn. by rewrite length_fmap.
Qed.

(** The snapshot of a stream is one of its prefixes, replayed. *)
Definition snap_ok (w : W) (id : Id) : Prop :=
  match snapshots (lget w) !! id with
  | None => True
  | Some s => exists k, (0 < k <= length (stream w id))%nat /\ snap_version s = Z.of_nat k
      /\ snap_state s = set_version (Z.of_nat k) (rehydrated (take k (history w id)))
  end.

(** Replaying the rest of the stream over a snapshot of [k] events. *)
Lemma replay_tail id (w : W) k :
  wf_stream (stream w id) -> (0 < k <= length (stream w id))%nat ->
  let '(a, v) := replay (set_version (Z.of_nat k) (rehydrated (take k (history w id))))
                   (Z.of_nat k) (drop k (stream w id)) in
  Some (set_version v a) = stored_aggregate (history w id).
Proof.
  intros Hwf Hk. rewrite replay_spec, foldl_apply_set_version, set_version_twice.
  unfold history. rewrite fmap_drop. unfold rehydrated. rewrite <- foldl_app, take_drop.
  unfold stored_aggregate. destruct (event <$> stream w id) as [|e es] eqn:Ee.
  { apply (f_equal length) in Ee. rewrite length_fmap in Ee. cbn in Ee. lia. }
  rewrite <- Ee, length_fmap. do 2 f_equal.
  destruct (decide (k = length (stream w id))) as [->|Hne].
  - by rewrite drop_all.
  - rewrite last_drop_lt by lia. apply wf_last; [done|]. intros Hn. rewrite Hn in Hk. cbn in Hk. lia.
Qed.

Lemma snapshotting_find_spec id (w : W) :
  wf_stream (stream w id) -> snap_ok w id ->
  Snapshotting_find_by_id id w = (Ok (stored_aggregate (history w id)), w).
Proof.
  intros Hwf Hs. unfold Snapshotting_find_by_id, bind, tbind. cbn.
  unfold InMemorySnapshotStore_load, bind, mget, ret. unfold snap_ok in Hs.
  destruct (snapshots (lget w) !! id) as [s|].
  - destruct Hs as (k & Hk & -> & ->). unfold load_after, tbind. cbn.
    unfold InMemoryEventStore_load, bind, mget, ret. fold (stream w id).
    rewrite wf_load_after by done. replace (Z.of_nat k =? 0) with false by lia. cbn [andb].
    pose proof (replay_tail id w k Hwf Hk) as Hr. destruct (replay _ _ _). by rewrite Hr.
  - unfold load_after, tbind. cbn. unfold InMemoryEventStore_load, bind, mget, ret.
    fold (stream w id). rewrite (wf_load_after _ 0) by done. rewrite drop_0. unfold history.
    destruct (stream w id) as [|s l] eqn:E; [done|]. cbn [andb].
    rewrite replay_spec, wf_last by done. cbn. by rewrite length_fmap.
Qed.

(** What saving a faithful aggregate leaves: the drained aggregate at the
    version of its extended stream. *)
Definition saved_aggregate (a : A) : A :=
  set_version (Z.of_nat (length (pending_events a)) + version a) (drain_events a).2.

Lemma saved_aggregate_spec (a : A) (h : list Ev) :
  faithful a h -> h ++ pending_events a <> [] ->
  stored_aggregate (h ++ pending_events a) = Some (saved_aggregate a).
Proof.
  intros [Hv Hd] Hne. unfold stored_aggregate, saved_aggregate.
  rewrite Hd, set_version_twice, Hv, length_app.
  destruct (h ++ pending_events a); [done|]. do 2 f_equal. lia.
Qed.

Lemma append_faithful (a : A) (w : W) :
  wf_stream (stream w (agg_id a)) -> faithful a (history w (agg_id a)) ->
  Z.of_nat (length (stream w (agg_id a)) + length (pending_events a)) <= u64_max ->
  exists w', InMemoryEventStore_append (agg_id a) (version a) (pending_events a) w = (Ok tt, w')
    /\ wf_stream (stream w' (agg_id a))
    /\ history w' (agg_id a) = history w (agg_id a) ++ pending_events a
    /\ (exists l, stream w' (agg_id a) = stream w (agg_id a) ++ l)
    /\ (forall id', id' <> agg_id a -> stream w' id' = stream w id')
    /\ lget w' = lget w :> InMemorySnapshotStore Id A.
Proof.
  intros Hwf [Hv Hd] Hb. unfold history in Hv. rewrite length_fmap in Hv.
  destruct (append_spec (agg_id a) (version a) (pending_events a) w Hwf Hb) as [w' Hw'].
  replace (Z.of_nat (length (stream w (agg_id a))) =? version a) with true in Hw' by lia.
  destruct Hw' as (E & Hwf' & (l & Hl & He) & Ho). exists w'.
  split; [done|]. split; [done|]. split; [unfold history; by rewrite Hl, fmap_app, He|].
  split; [by exists l|]. split; [done|].
  pose proof (append_frame (agg_id a) (version a) (pending_events a) w) as F. by rewrite E in F.
Qed.

(** Every stream well numbered, every snapshot a prefix. *)
Definition snap_inv (w : W) : Prop := forall id, wf_stream (stream w id) /\ snap_ok w id.

(** Snapshots survive an append. *)
Lemma snap_inv_append id (w w' : W) :
  snap_inv w -> wf_stream (stream w' id) -> (exists l, stream w' id = stream w id ++ l) ->
  (forall id', id' <> id -> stream w' id' = stream w id') ->
  lget w' = lget w :> InMemorySnapshotStore Id A -> snap_inv w'.
Proof.
  intros Hinv Hwf [l Hl] Ho Hsnap id'. destruct (Hinv id') as [Hwf' Hs].
  destruct (decide (id' = id)) as [->|Hne].
  - split; [done|]. unfold snap_ok, history in *. rewrite Hsnap.
    destruct (snapshots (lget w) !! id) as [s|]; [|done]. destruct Hs as (k & Hk & Hv & Hst).
    exists k. rewrite Hl, length_app, fmap_app. split; [lia|]. split; [done|].
    rewrite take_app_le; [done|]. rewrite length_fmap. lia.
  - unfold snap_ok, history in *. rewrite Hsnap, !Ho by done. done.
Qed.

(** A snapshot of the whole stream may be stored. *)
Lemma snap_inv_snapshot id s (w w' : W) :
  snap_inv w -> lget w' = lget w :> InMemoryEventStore Id Ev ->
  snapshots (lget w') = <[id := s]> (snapshots (lget w)) ->
  (0 < length (stream w id))%nat -> snap_version s = Z.of_nat (length (stream w id)) ->
  snap_state s = set_version (snap_version s) (rehydrated (history w id)) -> snap_inv w'.
Proof.
  intros Hinv Hst Hsn Hpos Hv Hs id'. destruct (Hinv id') as [Hwf Hok].
  assert (Hstr : forall i, stream w' i = stream w i) by (intros i; unfold stream; by rewrite Hst).
  split; [by rewrite Hstr|]. unfold snap_ok, history in *. rewrite Hsn, !Hstr.
  destruct (decide (id' = id)) as [->|Hne]; [|by rewrite lookup_insert_ne].
  rewrite lookup_insert_eq. exists (length (stream w id)). split; [lia|]. split; [done|].
  rewrite take_ge by (by rewrite length_fmap). congruence.
Qed.

Lemma faithful_saved_state (a : A) (h : list Ev) :
  faithful a h ->
  saved_aggregate a
  = set_version (Z.of_nat (length (h ++ pending_events a))) (rehydrated (h ++ pending_events a)).
Proof.
  intros [Hv Hd]. unfold saved_aggregate. rewrite Hd, set_version_twice, Hv, length_app.
  f_equal. lia.
Qed.

(** What a save through the snapshotting repository leaves of the snapshots:
    a new one, of the saved state, when the version crossed a multiple of the
    interval, and otherwise those there were. *)
Definition snapshots_after (every : Z) (a : A) (before after : gmap Id (Snapshot A)) : Prop :=
  if version a / every <? version (saved_aggregate a) / every
  then exists now, after = <[agg_id a := mkSnapshot (saved_aggregate a) (version (saved_aggregate a)) now 0]> before
  else after = before.

Lemma snapshotting_save_inv (a : A) (every : Z) (w : W) :
  snap_inv w -> faithful a (history w (agg_id a)) ->
  Z.of_nat (length (stream w (agg_id a)) + length (pending_events a)) <= u64_max ->
  exists w' w1, Snapshotting_save (snapshot_every_new every) a w = ((Ok tt, saved_aggregate a), w')
    /\ EventSourcedRepository_save a w = ((Ok tt, saved_aggregate a), w1)
    /\ lget w' = lget w1 :> InMemoryEventStore Id Ev
    /\ history w' (agg_id a) = history w (agg_id a) ++ pending_events a
    /\ snapshots_after (snapshot_every_new every) a (snapshots (lget w)) (snapshots (lget w'))
    /\ snap_inv w'.
Proof.
  intros Hinv Hf Hb. set (id := agg_id a) in *.
  destruct (append_faithful a w) as (w1 & E & Hwf1 & Hh1 & Hpre & Ho & Hsnap); [apply Hinv|done|done|].
  assert (Hinv1 : snap_inv w1) by (by eapply snap_inv_append). fold id in E, Hh1.
  pose proof (faithful_saved_state a _ Hf) as Hsa. rewrite <- Hh1 in Hsa.
  assert (Hlen : length (history w1 id) = length (stream w1 id)) by (unfold history; apply length_fmap).
  destruct Hf as [Hv _]. rewrite Hh1, length_app in Hlen. unfold history in Hv, Hlen.
  rewrite length_fmap in Hv, Hlen.
  assert (Hver : version (saved_aggregate a) = Z.of_nat (length (pending_events a)) + version a)
    by (unfold saved_aggregate; by rewrite set_version_version).
  unfold snapshots_after. rewrite Hver.
  unfold Snapshotting_save, EventSourcedRepository_save, bind, ret. unfold saved_aggregate in Hsa |- *.
  pose proof (drain_events_fst a) as Hd1. pose proof (drain_events_id a) as Hd2.
  destruct (drain_events a) as [es a1] eqn:Ed. cbn in Hd1, Hd2, Hsa |- *. subst es.
  rewrite Hd2. fold id. rewrite E, u64_add_small, (Z.add_comm (version a)) by lia.
  destruct (_ <? _) eqn:Eb; [|exists w1, w1; split_and!; try done; by rewrite Hsnap].
  unfold Snapshot_new, bind, ret.
  pose proof (utc_now_frame (S := InMemorySnapshotStore Id A) w1) as F1.
  pose proof (utc_now_frame (S := InMemoryEventStore Id Ev) w1) as F2.
  destruct (utc_now w1) as [now w2]. cbn in F1, F2 |- *.
  unfold InMemorySnapshotStore_save, bind, mget, mput, ret. eexists _, w1. split; [reflexivity|].
  split; [done|]. split; [by rewrite lget_lset_other|].
  split; [unfold history, stream; rewrite lget_lset_other, F2; exact Hh1|].
  split; [exists now; rewrite lget_lset, set_version_id, Hd2; cbn; by rewrite F1, Hsnap|].
  assert (Hgrow : version a < Z.of_nat (length (pending_events a)) + version a).
  { apply Z.nle_gt. intros Hle. apply Z.ltb_lt in Eb.
    apply (Z.div_le_mono _ _ (snapshot_every_new every)) in Hle; [|unfold snapshot_every_new; lia].
    lia. }
  eapply (snap_inv_snapshot id); [exact Hinv1| | | | |].
  - by rewrite lget_lset_other.
  - rewrite lget_lset, set_version_id, Hd2. cbn. by rewrite F1.
  - lia.
  - cbn. lia.
  - cbn. rewrite Hsa at 1. f_equal. unfold history. rewrite length_fmap. lia.
Qed.
End RepositoryLemmas.

(** ** Properties *)

(** Appending is optimistic: on a stream as long as the expected version
    [append] adds exactly the given events after the existing ones, numbered
    on without a gap, and touches no other stream; on any other length it
    reports a conflict with that length and leaves the store unchanged. *)
Theorem append_optimistic {W Id Ev} `{Countable Id, !Env W, !Lens W (InMemoryEventStore Id Ev),
  !LensLaws W (InMemoryEventStore Id Ev), !EnvFrame W (InMemoryEventStore Id Ev)}
  (id : Id) (expected : Z) (es : list Ev) (w : W) :
  wf_stream (stream w id) -> Z.of_nat (length (stream w id) + length es) <= u64_max ->
  exists w',
    if Z.of_nat (length (stream w id)) =? expected then
      InMemoryEventStore_append id expected es w = (Ok tt, w')
      /\ wf_stream (stream w' id)
      /\ (exists l, stream w' id = stream w id ++ l /\ event <$> l = es)
      /\ forall id', id' <> id -> stream w' id' = stream w id'
    else
      (exists actual, InMemoryEventStore_append id expected es w
                      = (Err (ConcurrencyConflict expected actual), w')
                      /\ (actual = None \/ actual = Some (Z.of_nat (length (stream w id)))))
      /\ w' = w.
Proof. apply append_spec. Qed.

(** C18: saving and finding are inverse: when an aggregate that carries the
    state its history leads to is saved at the right version, the save
    succeeds, leaves it with no pending event at the advanced version, and
    [find_by_id] then rebuilds exactly that aggregate from the stream. *)
Theorem es_save_find_roundtrip {W A Id Ev} `{Countable Id, !Env W}
  `{!AggregateRoot A Id Ev, !AggregateRootLaws AggregateRoot0,
    !EventSourced A Id Ev, !EventSourcedLaws EventSourced0}
  `{!Lens W (InMemoryEventStore Id Ev), !LensLaws W (InMemoryEventStore Id Ev),
    !EnvFrame W (InMemoryEventStore Id Ev)} (a : A) (w : W) :
  wf_stream (stream w (agg_id a)) -> faithful a (history w (agg_id a)) ->
  history w (agg_id a) ++ pending_events a <> [] ->
  Z.of_nat (length (stream w (agg_id a)) + length (pending_events a)) <= u64_max ->
  exists w',
    EventSourcedRepository_save a w = ((Ok tt, saved_aggregate a), w')
    /\ pending_events (saved_aggregate a) = []
    /\ version (saved_aggregate a) = Z.of_nat (length (pending_events a)) + version a
    /\ EventSourcedRepository_find_by_id (agg_id a) w' = (Ok (Some (saved_aggregate a)), w').
Proof.
  intros Hwf Hf Hne Hb. pose proof Hf as [Hv Hd]. unfold history in Hv. rewrite length_fmap in Hv.
  destruct (append_spec (agg_id a) (version a) (pending_events a) w Hwf Hb) as [w' Hw'].
  replace (Z.of_nat (length (stream w (agg_id a))) =? version a) with true in Hw' by lia.
  destruct Hw' as (E & Hwf' & (l & Hl & He) & _). exists w'.
  assert (Hh : history w' (agg_id a) = history w (agg_id a) ++ pending_events a)
    by (unfold history; by rewrite Hl, fmap_app, He).
  split; [|split; [|split]].
  - unfold EventSourcedRepository_save, bind, ret. unfold saved_aggregate.
    pose proof (drain_events_fst a) as Hf1. pose proof (drain_events_id a) as Hf2.
    destruct (drain_events a) as [es a1]. cbn in Hf1, Hf2 |- *. rewrite Hf1, Hf2, E.
    rewrite u64_add_small by lia. do 3 f_equal. lia.
  - unfold saved_aggregate. by rewrite set_version_pending, drain_events_pending.
  - unfold saved_aggregate. by rewrite set_version_version.
  - rewrite find_by_id_spec, Hh by done. by rewrite saved_aggregate_spec.
Qed.


(** Deleting through the snapshotting repository does not delete: the
    stream goes, the snapshot stays, and [find_by_id] answers with the
    snapshotted aggregate where a full replay answers that there is none. *)
Theorem snapshotting_delete_resurrects {W A Id Ev} `{Countable Id, !Env W}
  `{!AggregateRoot A Id Ev, !EventSourced A Id Ev}
  `{!Lens W (InMemoryEventStore Id Ev), !LensLaws W (InMemoryEventStore Id Ev),
    !Lens W (InMemorySnapshotStore Id A),
    !LensDisjoint W (InMemoryEventStore Id Ev) (InMemorySnapshotStore Id A)}
  (id : Id) (s : Snapshot A) (w : W) :
  snapshots (lget w) !! id = Some s -> 0 < snap_version s ->
  exists w',
    Snapshotting_delete id w = (Ok tt, w')
    /\ stream w' id = []
    /\ Snapshotting_find_by_id id w' = (Ok (Some (set_version (snap_version s) (snap_state s))), w')
    /\ EventSourcedRepository_find_by_id (A := A) id w' = (Ok None, w').
Proof.
  intros Hs Hv. eexists. split; [reflexivity|].
  set (w' := lset _ w).
  assert (Hst : stream w' id = [])
    by (unfold w', stream, stream_of; by rewrite lget_lset; cbn; rewrite lookup_delete_eq).
  assert (Hsn : snapshots (lget w') !! id = Some s) by (unfold w'; by rewrite lget_lset_other).
  split; [done|]. split.
  - unfold Snapshotting_find_by_id, bind, tbind. cbn.
    unfold InMemorySnapshotStore_load, bind, mget, ret. rewrite Hsn. unfold load_after, tbind. cbn.
    unfold InMemoryEventStore_load, bind, mget, ret. fold (stream w' id). rewrite Hst.
    cbn. by replace (snap_version s =? 0) with false by lia.
  - unfold EventSourcedRepository_find_by_id, tbind. cbn.
    unfold InMemoryEventStore_load, bind, mget, ret. fold (stream w' id). by rewrite Hst.
Qed.

(** A failed save of an event-sourced aggregate loses its events: the
    pending events are drained before the append, and when the append reports
    any error the aggregate is handed back with none. *)
Theorem es_failed_save_loses_events {W A Id Ev E}
  `{!AggregateRoot A Id Ev, !AggregateRootLaws AggregateRoot0, !EventStore W Id Ev E}
  (a a' : A) (e : RepositoryError E) (w w' : W) :
  EventSourcedRepository_save a w = ((Err e, a'), w') -> pending_events a' = [].
Proof.
  unfold EventSourcedRepository_save, bind, ret.
  pose proof (drain_events_pending a) as Hd. destruct (drain_events a) as [es a1]. cbn in Hd.
  destruct (es_append _ _ es w) as [[u|e'] w1]; intros [= _ <- _]; done.
Qed.

(** ** A concrete aggregate: a counter that adds up its events *)

Abbreviation Counter := (PlainAggregate Z Z Z) (only parsing).
Abbreviation CounterWorld :=
  (World (InMemoryEventStore Z Z * InMemorySnapshotStore Z Counter)) (only parsing).

#[local] Instance counter_sourced : EventSourced Counter Z Z := plain_sourced 5 0 Z.add.
#[local] Instance counter_laws : EventSourcedLaws counter_sourced := plain_sourced_laws 5 0 Z.add.

Definition counter_world : CounterWorld :=
  mkWorld env_start (mkInMemoryEventStore ∅, mkInMemorySnapshotStore ∅).

(** Counter 5 after 3 and 4, not saved yet. *)
Definition counter_fresh : Counter := mkPlain 5 7 0 (mkAggregateEvents [3; 4]).

Lemma counter_fresh_faithful : faithful counter_fresh (history counter_world 5).
Proof. split; reflexivity. Qed.

Lemma empty_stream_wf id : wf_stream (stream counter_world id).
Proof.
  intros i s. unfold stream, stream_of. cbn. by rewrite lookup_empty.
Qed.

Lemma append_optimistic_witness :
  exists w' : CounterWorld, InMemoryEventStore_append 5 0 [3; 4] counter_world = (Ok tt, w')
    /\ wf_stream (stream w' 5).
Proof.
  destruct (append_optimistic 5 0 [3; 4] counter_world) as (w' & H1 & H2 & _).
  - apply empty_stream_wf.
  - vm_compute. discriminate.
  - exists w'. split; [exact H1|exact H2].
Defined.

Lemma es_save_find_roundtrip_witness :
  exists w' : CounterWorld,
    EventSourcedRepository_find_by_id 5 w' = (Ok (Some (mkPlain 5 7 2 (mkAggregateEvents []))), w').
Proof.
  destruct (es_save_find_roundtrip counter_fresh counter_world) as (w' & _ & _ & _ & H).
  - apply empty_stream_wf.
  - apply counter_fresh_faithful.
  - vm_compute. discriminate.
  - vm_compute. discriminate.
  - exists w'. exact H.
Defined.


(** The counter saved with a snapshot at version 2. *)
Definition counter_snapshotted : CounterWorld :=
  (Snapshotting_save (snapshot_every_new 2) counter_fresh counter_world).2.

Lemma snapshotting_delete_resurrects_witness :
  exists w' : CounterWorld,
    Snapshotting_delete 5 counter_snapshotted = (Ok tt, w')
    /\ Snapshotting_find_by_id 5 w' = (Ok (Some (mkPlain 5 7 2 (mkAggregateEvents []))), w').
Proof.
  destruct (snapshotting_delete_resurrects 5
              (mkSnapshot (mkPlain 5 7 2 (mkAggregateEvents [])) 2 2000 0) counter_snapshotted)
    as (w' & H1 & _ & H2 & _).
  - vm_compute. reflexivity.
  - vm_compute. reflexivity.
  - exists w'. split; [exact H1|exact H2].
Defined.

(** Counter 5 claims version 1 of a stream that is empty. *)
Lemma es_failed_save_loses_events_witness :
  let a := mkPlain 5 7 1 (mkAggregateEvents [3; 4]) in
  pending_events (EventSourcedRepository_save (E := InMemoryEventStoreError) a counter_world).1.2 = [].
Proof.
  apply (es_failed_save_loses_events (E := InMemoryEventStoreError)
           (mkPlain 5 7 1 (mkAggregateEvents [3; 4]))
           _ (ConcurrencyConflict 1 None) counter_world counter_world).
  vm_compute. reflexivity.
Defined.
