(* ===== verification/EventBus.v ===== *)
(** * The in-process event bus and the handler decorators

    Models crates/pharos-app: src/event_bus.rs ([EventBus], its typed
    registrations, publication, decoders and the trusted-bytes entry points),
    src/event_handler.rs, src/cascade.rs (commands a handler returns) and
    src/resilience.rs ([Retrying], [DeadLettering]).

    Rust keys handlers by [TypeId] and hands events over as [&dyn Any].  Here a
    type of event is an element of a countable type [T] with its [carrier], an
    [&dyn Any] is a value paired with its type, and [downcast_ref] compares
    the types.  A handler may panic ([None]), which unwinds through the
    publisher.  The bus is a value: a handler that registers handlers while
    the bus publishes changes later publications only, because [publish]
    clones the list it is going to run. *)

From S2P Require Import Prelude Core Messaging.

Local Open Scope Z_scope.

(** ** Domain events *)

(** The event types of an application, with what [DomainEvent] asks of
    each. *)
Class EventTypes (T : Type) : Type := {
  carrier : T -> Type;
  event_type : forall t, carrier t -> string;
  aggregate_id : forall t, carrier t -> string;
}.

(** [serde_json] on the event types: the text is the payload, an error is its
    display. *)
Class Serde (T : Type) `{!EventTypes T} : Type := {
  to_vec : forall t, carrier t -> result string string;
  from_slice : forall t, string -> result (carrier t) string;
}.

(** [&(dyn Any + Send + Sync)]. *)
Record AnyEvent (T : Type) `{!EventTypes T} := mkAny {
  any_type : T;
  any_value : carrier any_type;
}.
Arguments mkAny {T _} _ _.
Arguments any_type {T _} _.
Arguments any_value {T _} _.

Definition downcast_ref {T} `{!EventTypes T, EqDecision T} (t : T) (a : AnyEvent T)
  : option (carrier t) :=
  match decide (any_type a = t) with
  | left e => Some (eq_rect _ carrier (any_value a) _ e)
  | right _ => None
  end.

(** ** Errors *)

Record CascadeError := mkCascadeError { command_name : string; cascade_source : string }.

#[warnings="-register-all"]
Inductive EventBusError :=
| HandlerError (event_type source : string)
| HandlerErrors (event_type : string) (errors : list EventBusError)
| DecodeError (topic source : string)
| CascadeFailed (event_type : string) (source : CascadeError).

Inductive PublishErrorPolicy := FailFast | CollectAll.

(** ** Handlers *)

(** A command bound to its handler; [cascade] discards the output. *)
Definition CascadedCommand (W : Type) : Type := M W (option (result unit CascadeError)).

Definition cascade {W C Out} (NAME : string) (handle : C -> M W (option (result Out string)))
  (command : C) : CascadedCommand W :=
  live! r <- handle command;
  ret (Some (match r with Ok _ => Ok tt | Err e => Err (mkCascadeError NAME e) end)).

Section Handlers.
Context {W T : Type} `{!EventTypes T, EqDecision T}.

(** The [EventHandler] trait at event type [t], with the handler's type name;
    its boxed error is the error's display. *)
Record EventHandler (t : T) := mkEventHandler {
  eh_name : string;
  eh_handle : carrier t -> M W (option (result unit string));
}.

Record CascadingEventHandler (t : T) := mkCascadingEventHandler {
  ch_name : string;
  ch_handle : carrier t -> M W (option (result (list (CascadedCommand W)) string));
}.

Record ErasedHandler := mkErasedHandler {
  handler_name : string;
  handler_call : AnyEvent T -> M W (option (result unit EventBusError));
}.

Definition INVARIANT_VIOLATED : EventBusError :=
  HandlerError "<unknown>" "event bus invariant violated: TypeId matched but downcast failed".

Definition HandlerWrapper_call (t : T) (h : EventHandler t) (a : AnyEvent T)
  : M W (option (result unit EventBusError)) :=
  match downcast_ref t a with
  | None => ret (Some (Err INVARIANT_VIOLATED))
  | Some typed =>
      live! r <- eh_handle t h typed;
      ret (Some (map_err (HandlerError (event_type t typed)) r))
  end.

Definition HandlerWrapper (t : T) (h : EventHandler t) : ErasedHandler :=
  mkErasedHandler (eh_name t h) (HandlerWrapper_call t h).

(** [for command in cascaded { command.dispatch().await.map_err(..)?; }] *)
Fixpoint dispatch_cascaded (ty : string) (cascaded : list (CascadedCommand W))
  : M W (option (result unit EventBusError)) :=
  match cascaded with
  | [] => ret (Some (Ok tt))
  | command :: rest =>
      live! r <- command;
      match r with
      | Ok _ => dispatch_cascaded ty rest
      | Err source => ret (Some (Err (CascadeFailed ty source)))
      end
  end.

Definition CascadingHandlerWrapper_call (t : T) (h : CascadingEventHandler t) (a : AnyEvent T)
  : M W (option (result unit EventBusError)) :=
  match downcast_ref t a with
  | None => ret (Some (Err INVARIANT_VIOLATED))
  | Some typed =>
      await! cascaded <-
        live! r <- ch_handle t h typed;
        ret (Some (map_err (HandlerError (event_type t typed)) r));
      dispatch_cascaded (event_type t typed) cascaded
  end.

Definition CascadingHandlerWrapper (t : T) (h : CascadingEventHandler t) : ErasedHandler :=
  mkErasedHandler (ch_name t h) (CascadingHandlerWrapper_call t h).
End Handlers.
Arguments EventHandler : clear implicits.
Arguments EventHandler W {T _} t.
Arguments mkEventHandler {W T _} t _ _.
Arguments eh_name {W T _ t} _.
Arguments eh_handle {W T _ t} _ _.
Arguments CascadingEventHandler : clear implicits.
Arguments CascadingEventHandler W {T _} t.
Arguments mkCascadingEventHandler {W T _} t _ _.
Arguments ch_name {W T _ t} _.
Arguments ch_handle {W T _ t} _ _.
Arguments ErasedHandler : clear implicits.
Arguments ErasedHandler W T {_}.
Arguments mkErasedHandler {W T _} _ _.
Arguments handler_name {W T _} _.
Arguments handler_call {W T _} _ _.
Arguments HandlerWrapper {W T _ _} t _.
Arguments CascadingHandlerWrapper {W T _ _} t _.

(** ** The bus *)

Section Bus.
Context {W T : Type} `{!EventTypes T, Countable T, !Serde T}.

Record EventBus := mkEventBus {
  handlers : gmap T (list (ErasedHandler W T));
  decoders : gmap string (T * (string -> result (AnyEvent T) string));
  error_policy : PublishErrorPolicy;
}.

Definition EventBus_with_error_policy (policy : PublishErrorPolicy) : EventBus :=
  mkEventBus ∅ ∅ policy.

Definition EventBus_new : EventBus := EventBus_with_error_policy FailFast.

(** [entry(type_id).or_default().push(wrapper)] *)
Definition push_handler (t : T) (h : ErasedHandler W T) (b : EventBus) : EventBus :=
  mkEventBus (<[t := default [] (handlers b !! t) ++ [h]]> (handlers b)) (decoders b)
    (error_policy b).

Definition EventBus_register (t : T) (h : EventHandler W t) (b : EventBus) : EventBus :=
  push_handler t (HandlerWrapper t h) b.

Definition EventBus_register_cascading (t : T) (h : CascadingEventHandler W t) (b : EventBus)
  : EventBus :=
  push_handler t (CascadingHandlerWrapper t h) b.

Definition decode_as (t : T) (bytes : string) : result (AnyEvent T) string :=
  match from_slice t bytes with Ok v => Ok (mkAny t v) | Err e => Err e end.

Definition EventBus_register_decoder (t : T) (topic : string) (b : EventBus) : EventBus :=
  mkEventBus (handlers b) (<[topic := (t, decode_as t)]> (decoders b)) (error_policy b).

(** The loop over the cloned handlers: under [FailFast] the first error
    leaves it, under [CollectAll] errors accumulate. *)
Fixpoint call_handlers (policy : PublishErrorPolicy) (hs : list (ErasedHandler W T))
  (a : AnyEvent T) (errors : list EventBusError)
  : M W (option (result (list EventBusError) EventBusError)) :=
  match hs with
  | [] => ret (Some (Ok errors))
  | h :: hs' =>
      live! r <- handler_call h a;
      match r with
      | Ok _ => call_handlers policy hs' a errors
      | Err error =>
          match policy with
          | FailFast => ret (Some (Err error))
          | CollectAll => call_handlers policy hs' a (errors ++ [error])
          end
      end
  end.

(** The report on the collected errors. *)
Definition report (ty : string) (errors : list EventBusError) : result unit EventBusError :=
  match errors with
  | [] => Ok tt
  | [error] => Err error
  | _ => Err (HandlerErrors ty errors)
  end.

Definition deliver_to (b : EventBus) (ty : string) (hs : list (ErasedHandler W T)) (a : AnyEvent T)
  : M W (option (result unit EventBusError)) :=
  await! errors <- call_handlers (error_policy b) hs a [];
  ret (Some (report ty errors)).

Definition EventBus_publish (b : EventBus) (t : T) (e : carrier t)
  : M W (option (result unit EventBusError)) :=
  match handlers b !! t with
  | None => ret (Some (Ok tt))
  | Some hs => deliver_to b (event_type t e) hs (mkAny t e)
  end.

Definition EventBus_publish_trusted_bytes (b : EventBus) (topic payload : string)
  : M W (option (result unit EventBusError)) :=
  match decoders b !! topic with
  | None => ret (Some (Ok tt))
  | Some (type_id, decoder) =>
      match decoder payload with
      | Err source => ret (Some (Err (DecodeError topic source)))
      | Ok boxed =>
          match handlers b !! type_id with
          | None => ret (Some (Ok tt))
          | Some hs => deliver_to b "<erased>" hs boxed
          end
      end
  end.

(** The deprecated alias. *)
Definition EventBus_publish_erased (b : EventBus) (topic payload : string)
  : M W (option (result unit EventBusError)) := EventBus_publish_trusted_bytes b topic payload.

Definition handler_names_for_topic (b : EventBus) (topic : string) : list string :=
  match decoders b !! topic with
  | None => []
  | Some (type_id, _) =>
      match handlers b !! type_id with
      | None => []
      | Some hs => handler_name <$> hs
      end
  end.

Definition dispatch_trusted_bytes_to_handler (b : EventBus) (topic payload name : string)
  : M W (option (result unit EventBusError)) :=
  match decoders b !! topic with
  | None => ret (Some (Ok tt))
  | Some (type_id, decoder) =>
      match decoder payload with
      | Err source => ret (Some (Err (DecodeError topic source)))
      | Ok boxed =>
          let handler :=
            match handlers b !! type_id with
            | Some hs => List.find (fun h => bool_decide (handler_name h = name)) hs
            | None => None
            end in
          match handler with
          | None => ret (Some (Ok tt))
          | Some h => handler_call h boxed
          end
      end
  end.
End Bus.
Arguments EventBus : clear implicits.
Arguments EventBus W T {_ _ _}.

(** ** Handler decorators *)

(** [tokio::time::sleep]. *)
Class Timer (W : Type) : Type := { sleep : Duration -> M W unit }.

Section Resilience.
Context {W Ev E : Type} `{!Env W, !Timer W, !DeadLetterQueue W}.
Variable handle : Ev -> M W (option (result unit E)).

(** The loop of [Retrying::handle]; [left] bounds the attempts still to come
    (see [retrying_fuel_irrelevant]). *)
Fixpoint retrying_loop (left : nat) (policy : RetryPolicy) (event : Ev) (attempt : Z)
  : M W (option (result unit E)) :=
  live! r <- handle event;
  match r with
  | Ok _ => ret (Some (Ok tt))
  | Err error =>
      live! decision <- RetryPolicy_decide policy attempt;
      match decision, left with
      | RetryAfter delay, S left' =>
          do! _ <- sleep delay;
          retrying_loop left' policy event (u32_add attempt 1)
      | _, _ => ret (Some (Err error))
      end
  end.

Definition Retrying_handle (policy : RetryPolicy) (event : Ev) : M W (option (result unit E)) :=
  retrying_loop (Z.to_nat (max_attempts policy)) policy event 1.

Record DeadLetteringError := mkDeadLetteringError {
  handler_error : string;
  dead_letter_error : DeadLetterError;
}.

Definition set_topic (t : string) (m : Message) : Message :=
  mkMessage (message_id m) t (key m) (headers m) (payload m) (content_type m).

Definition DeadLettering_handle (to_string : E -> string) (topic : string)
  (map_event : Ev -> M W Message) (event : Ev) : M W (option (result unit DeadLetteringError)) :=
  live! r <- handle event;
  match r with
  | Ok _ => ret (Some (Ok tt))
  | Err error =>
      do! message <- map_event event;
      do! dead <- DeadLetterMessage_new (set_topic topic message) (to_string error) 1;
      do! parked <- dead_letter dead;
      ret (Some (map_err (mkDeadLetteringError (to_string error)) parked))
  end.
End Resilience.

(** ** Dispatch lemmas *)

(** Runs every computation in turn and keeps the answers; a panic unwinds. *)
Fixpoint run_all {W A} (cs : list (M W (option A))) : M W (option (list A)) :=
  match cs with
  | [] => ret (Some [])
  | c :: cs' => live! a <- c; live! l <- run_all cs'; ret (Some (a :: l))
  end.

(** Computations that never panic. *)
Definition live {W A} (c : M W (option A)) : Prop := forall w, is_Some (c w).1.

Definition errors_of {A E} (rs : list (result A E)) : list E :=
  omap (fun r => match r with Ok _ => None | Err e => Some e end) rs.

(** What the policy promises about a run that executed the handlers up to
    [post], got [results] and answered [r]. *)
Definition policy_met {A} (policy : PublishErrorPolicy) (ty : string) (post : list A)
  (results : list (result unit EventBusError)) (r : result unit EventBusError) : Prop :=
  match policy with
  | CollectAll => post = [] /\ r = report ty (errors_of results)
  | FailFast =>
      exists oks, Forall (fun x => x = Ok tt) oks
        /\ ((results = oks /\ post = [] /\ r = Ok tt)
            \/ exists e, results = oks ++ [Err e] /\ r = Err e)
  end.

Section BusLemmas.
Context {W T : Type} `{!EventTypes T, Countable T, !Serde T}.
Implicit Types (b : EventBus W T) (hs : list (ErasedHandler W T)) (a : AnyEvent T).

Lemma downcast_ref_same (t : T) (v : carrier t) : downcast_ref t (mkAny t v) = Some v.
Proof.
  unfold downcast_ref; cbn. destruct (decide (t = t)) as [e|]; [|done].
  by rewrite (proof_irrel e eq_refl).
Qed.

Definition calls hs a : list (M W (option (result unit EventBusError))) :=
  (fun h => handler_call h a) <$> hs.
Arguments calls : simpl never.

Lemma calls_cons h hs a : calls (h :: hs) a = handler_call h a :: calls hs a.
Proof. done. Qed.

Lemma call_collect_all hs a errors w :
  Forall live (calls hs a) ->
  exists results w', run_all (calls hs a) w = (Some results, w')
    /\ call_handlers CollectAll hs a errors w = (Some (Ok (errors ++ errors_of results)), w').
Proof.
  revert errors w. induction hs as [|h hs IH]; intros errors w Hl.
  { eexists [], w. cbn. by rewrite app_nil_r. }
  rewrite calls_cons in Hl |- *. cbn [run_all call_handlers].
  apply Forall_cons in Hl as [Hh Hl]. destruct (Hh w) as [r Hr].
  unfold pbind. destruct (handler_call h a w) as [o w1]; cbn in Hr; subst o.
  destruct r as [u|e].
  - destruct (IH errors w1 Hl) as (rs & w' & Hrun & ->).
    exists (Ok u :: rs), w'. by rewrite Hrun.
  - destruct (IH (errors ++ [e]) w1 Hl) as (rs & w' & Hrun & ->).
    exists (Err e :: rs), w'. rewrite Hrun. cbn. by rewrite <- app_assoc.
Qed.

Lemma call_fail_fast hs a w :
  Forall live (calls hs a) ->
  exists pre post results w' oks, calls hs a = pre ++ post
    /\ run_all pre w = (Some results, w') /\ Forall (fun x => x = Ok tt) oks
    /\ ((results = oks /\ post = []
         /\ call_handlers FailFast hs a [] w = (Some (Ok []), w'))
        \/ exists e, results = oks ++ [Err e]
             /\ call_handlers FailFast hs a [] w = (Some (Err e), w')).
Proof.
  revert w. induction hs as [|h hs IH]; intros w Hl.
  { exists [], [], [], w, []. split_and!; auto. }
  rewrite calls_cons in Hl |- *. cbn [call_handlers].
  apply Forall_cons in Hl as [Hh Hl]. destruct (Hh w) as [r Hr].
  unfold pbind. destruct (handler_call h a w) as [o w1] eqn:Ho; cbn in Hr; subst o.
  destruct r as [[]|e].
  - destruct (IH w1 Hl) as (pre & post & rs & w' & oks & -> & Hrun & Hoks & Hcase).
    exists (handler_call h a :: pre), post, (Ok tt :: rs), w', (Ok tt :: oks).
    split_and!; [done| |by constructor|].
    + cbn. unfold pbind, ret. by rewrite Ho, Hrun.
    + destruct Hcase as [(-> & -> & ->)|(e & -> & ->)]; [by left|right; by exists e].
  - exists [handler_call h a], (calls hs a), [Err e], w1, [].
    split_and!; [done| |constructor|right; by exists e].
    cbn. unfold pbind, ret. by rewrite Ho.
Qed.

Lemma deliver_to_spec b ty hs a w :
  Forall live (calls hs a) ->
  exists r w' pre post results, deliver_to b ty hs a w = (Some r, w')
    /\ calls hs a = pre ++ post /\ run_all pre w = (Some results, w')
    /\ policy_met (error_policy b) ty post results r.
Proof.
  intros Hl. unfold deliver_to, prbind, pbind.
  destruct (error_policy b); cbn.
  - destruct (call_fail_fast hs a w Hl)
      as (pre & post & rs & w' & oks & Hsplit & Hrun & Hoks & Hcase).
    destruct Hcase as [(-> & -> & ->)|(e & -> & ->)];
      eexists _, _, pre, _, _; split_and!; eauto 10.
  - destruct (call_collect_all hs a [] w Hl) as (rs & w' & Hrun & ->).
    eexists _, _, (calls hs a), [], rs. split_and!; eauto. by rewrite app_nil_r.
Qed.
End BusLemmas.

(** ** Typed registrations

    The bus an application builds is the result of a sequence of
    registrations.  Its reactions to an event are described without erasure:
    the handlers registered at the event's own type, applied to the event. *)

Section Registered.
Context {W T : Type} `{!EventTypes T, Countable T, !Serde T}.

Inductive Registration :=
| RegPlain (t : T) (h : EventHandler W t)
| RegCascading (t : T) (h : CascadingEventHandler W t)
| RegDecoder (t : T) (topic : string).

Definition register_one (b : EventBus W T) (r : Registration) : EventBus W T :=
  match r with
  | RegPlain t h => EventBus_register t h b
  | RegCascading t h => EventBus_register_cascading t h b
  | RegDecoder t topic => EventBus_register_decoder t topic b
  end.

Definition bus_of (policy : PublishErrorPolicy) (regs : list Registration) : EventBus W T :=
  foldl register_one (EventBus_with_error_policy policy) regs.

Definition react_plain (t : T) (h : EventHandler W t) (v : carrier t)
  : M W (option (result unit EventBusError)) :=
  live! r <- eh_handle h v; ret (Some (map_err (HandlerError (event_type t v)) r)).

Definition react_cascading (t : T) (h : CascadingEventHandler W t) (v : carrier t)
  : M W (option (result unit EventBusError)) :=
  await! commands <-
    live! r <- ch_handle h v; ret (Some (map_err (HandlerError (event_type t v)) r));
  dispatch_cascaded (event_type t v) commands.

Definition reaction (t : T) (v : carrier t) (r : Registration)
  : option (string * M W (option (result unit EventBusError))) :=
  match r with
  | RegPlain t' h =>
      match decide (t = t') with
      | left e => Some (eh_name h, react_plain t' h (eq_rect t carrier v t' e))
      | right _ => None
      end
  | RegCascading t' h =>
      match decide (t = t') with
      | left e => Some (ch_name h, react_cascading t' h (eq_rect t carrier v t' e))
      | right _ => None
      end
  | RegDecoder _ _ => None
  end.

(** The handlers of type [t], in registration order, with their names. *)
Definition reactions (t : T) (v : carrier t) (regs : list Registration)
  : list (string * M W (option (result unit EventBusError))) := omap (reaction t v) regs.

(** The type a topic decodes into: the last one registered for it. *)
Definition topic_type (topic : string) (regs : list Registration) : option T :=
  last (omap (fun r => match r with
                       | RegDecoder t topic' => if decide (topic' = topic) then Some t else None
                       | _ => None
                       end) regs).

Lemma bus_of_snoc policy regs r :
  bus_of policy (regs ++ [r]) = register_one (bus_of policy regs) r.
Proof. unfold bus_of. by rewrite foldl_app. Qed.

Lemma bus_of_policy policy regs : error_policy (bus_of policy regs) = policy.
Proof.
  induction regs as [|r regs IH] using rev_ind; [done|].
  rewrite bus_of_snoc. by destruct r.
Qed.

(** The handlers under a type, as name and action. *)
Definition named_calls (hs : list (ErasedHandler W T)) (a : AnyEvent T)
  : list (string * M W (option (result unit EventBusError))) :=
  (fun h => (handler_name h, handler_call h a)) <$> hs.
Arguments named_calls : simpl never.

Lemma named_calls_names hs a : (named_calls hs a).*1 = handler_name <$> hs.
Proof. unfold named_calls. rewrite <- list_fmap_compose. by apply list_fmap_ext. Qed.

Lemma named_calls_calls hs a : (named_calls hs a).*2 = calls hs a.
Proof. unfold named_calls. rewrite <- list_fmap_compose. by apply list_fmap_ext. Qed.

Lemma push_handler_calls (b : EventBus W T) (t t' : T) h (v : carrier t) :
  named_calls (default [] (handlers (push_handler t' h b) !! t)) (mkAny t v)
  = named_calls (default [] (handlers b !! t)) (mkAny t v)
    ++ (if decide (t = t') then [(handler_name h, handler_call h (mkAny t v))] else []).
Proof.
  cbn. case_decide as E; [subst t'; rewrite lookup_insert_eq|rewrite lookup_insert_ne by done].
  - unfold named_calls. cbn. by rewrite fmap_app.
  - by rewrite app_nil_r.
Qed.

(** Erasure is invisible: what the bus calls for an event are its typed
    reactions; the downcast never fails. *)
Lemma bus_of_reactions policy regs (t : T) (v : carrier t) :
  named_calls (default [] (handlers (bus_of policy regs) !! t)) (mkAny t v) = reactions t v regs.
Proof.
  induction regs as [|r regs IH] using rev_ind; [done|].
  rewrite bus_of_snoc. unfold reactions. rewrite omap_app. fold (reactions t v regs).
  destruct r as [t' h|t' h|t' topic]; cbn [register_one].
  1,2: unfold EventBus_register, EventBus_register_cascading; rewrite push_handler_calls, IH;
    f_equal; cbn; case_decide as E; [|done]; subst t'; cbn;
    unfold HandlerWrapper_call, CascadingHandlerWrapper_call; by rewrite downcast_ref_same.
  cbn. by rewrite app_nil_r.
Qed.

Lemma bus_of_decoder policy regs topic :
  decoders (bus_of policy regs) !! topic = (fun t => (t, decode_as t)) <$> topic_type topic regs.
Proof.
  induction regs as [|r regs IH] using rev_ind; [done|].
  rewrite bus_of_snoc. unfold topic_type. rewrite omap_app.
  destruct r as [t' h|t' h|t' topic']; cbn [register_one omap list_omap].
  1,2: by rewrite app_nil_r.
  cbn. case_decide as E.
  - subst topic'. by rewrite lookup_insert_eq, last_snoc.
  - rewrite lookup_insert_ne, app_nil_r by done. done.
Qed.

(** *** Errors a handler can report *)

(** The two shapes a wrapper answers with. *)
Definition handler_shaped (e : EventBusError) : Prop :=
  match e with HandlerError _ _ | CascadeFailed _ _ => True | _ => False end.

Definition answers_shaped (c : M W (option (result unit EventBusError))) : Prop :=
  forall w e, (c w).1 = Some (Err e) -> handler_shaped e.

Lemma react_plain_shaped t h v : answers_shaped (react_plain t h v).
Proof.
  intros w e. unfold react_plain, pbind, ret.
  destruct (eh_handle h v w) as [[[|]|] w']; cbn; naive_solver.
Qed.

Lemma dispatch_cascaded_shaped ty cs : answers_shaped (dispatch_cascaded ty cs).
Proof.
  induction cs as [|c cs IH]; intros w e; cbn; unfold pbind, ret; [done|].
  destruct (c w) as [[[|]|] w']; cbn; [apply IH|naive_solver|done].
Qed.

Lemma react_cascading_shaped t h v : answers_shaped (react_cascading t h v).
Proof.
  intros w e. unfold react_cascading, prbind, pbind, ret.
  destruct (ch_handle h v w) as [[[cs|]|] w']; cbn; [apply dispatch_cascaded_shaped|naive_solver|done].
Qed.

Lemma reactions_shaped t v regs : Forall answers_shaped (reactions t v regs).*2.
Proof.
  apply Forall_fmap, Forall_forall. intros [n c] Hin.
  apply list_elem_of_omap in Hin as (r & _ & Hr). destruct r as [t' h|t' h|]; cbn in Hr; [| |done].
  all: destruct (decide (t = t')); [|done]; injection Hr as <- <-; cbn.
  - apply react_plain_shaped.
  - apply react_cascading_shaped.
Qed.

(** The name under which several failures are reported is the only thing the
    erased entry point changes. *)
Definition relabel (r : result unit EventBusError) : result unit EventBusError :=
  match r with
  | Err (HandlerErrors _ errors) => Err (HandlerErrors "<erased>" errors)
  | _ => r
  end.

Lemma call_handlers_shaped policy hs a errors w :
  Forall answers_shaped (calls hs a) -> Forall handler_shaped errors ->
  match (call_handlers policy hs a errors w).1 with
  | Some (Ok errors') => Forall handler_shaped errors'
  | Some (Err e) => handler_shaped e
  | None => True
  end.
Proof.
  revert errors w. induction hs as [|h hs IH]; intros errors w Hs He; [done|].
  rewrite calls_cons in Hs. apply Forall_cons in Hs as [Hh Hs].
  cbn [call_handlers]. unfold pbind. specialize (Hh w).
  destruct (handler_call h a w) as [[[u|e]|] w1]; cbn in *; [by apply IH| |done].
  specialize (Hh e eq_refl). destruct policy; cbn; [done|].
  apply IH; [done|]. apply Forall_app. auto.
Qed.

Lemma deliver_to_relabel (b : EventBus W T) ty hs a w :
  Forall answers_shaped (calls hs a) ->
  deliver_to b "<erased>" hs a w = mmap (fmap relabel) (deliver_to b ty hs a) w.
Proof.
  intros Hs. unfold deliver_to, prbind, pbind, mmap, ret.
  pose proof (call_handlers_shaped (error_policy b) hs a [] w Hs (Forall_nil_2 _)) as Hc.
  destruct (call_handlers (error_policy b) hs a [] w) as [[[errors|e]|] w']; cbn in *; [| |done].
  - destruct errors as [|e [|e' errors]]; cbn; [done| |done].
    apply Forall_inv in Hc. by destruct e.
  - by destruct e.
Qed.

(** *** Dispatch by name *)

Lemma find_by_name hs h :
  NoDup (handler_name <$> hs) -> h ∈ hs ->
  List.find (fun h' : ErasedHandler W T => bool_decide (handler_name h' = handler_name h)) hs
  = Some h.
Proof.
  induction hs as [|h0 hs IH]; cbn; intros Hnd Hin; [by apply not_elem_of_nil in Hin|].
  apply NoDup_cons in Hnd as [Hn Hnd]. case_bool_decide as E.
  - apply elem_of_cons in Hin as [->|Hin]; [done|].
    destruct Hn. rewrite E. by apply list_elem_of_fmap_2.
  - apply elem_of_cons in Hin as [->|Hin]; [done|]. by apply IH.
Qed.

Lemma dispatch_by_name (b : EventBus W T) topic payload t a (hs : list (ErasedHandler W T)) :
  decoders b !! topic = Some (t, decode_as t) -> decode_as t payload = Ok a ->
  handlers b !! t = Some hs -> NoDup (handler_name <$> hs) ->
  dispatch_trusted_bytes_to_handler b topic payload <$> (handler_name <$> hs) = calls hs a.
Proof.
  intros Hd Ha Hh Hnd. rewrite <- list_fmap_compose. unfold calls.
  apply list_fmap_ext. intros i h Hi. cbn. unfold dispatch_trusted_bytes_to_handler.
  rewrite Hd, Ha, Hh, find_by_name; [done|done|]. by eapply list_elem_of_lookup_2.
Qed.
Lemma trusted_bytes_decoded policy (regs : list Registration) topic payload w :
  EventBus_publish_trusted_bytes (bus_of policy regs) topic payload w =
  match topic_type topic regs with
  | None => (Some (Ok tt), w)
  | Some t =>
      match from_slice t payload with
      | Err e => (Some (Err (DecodeError topic e)), w)
      | Ok v => mmap (fmap relabel) (EventBus_publish (bus_of policy regs) t v) w
      end
  end.
Proof.
  unfold EventBus_publish_trusted_bytes. rewrite bus_of_decoder.
  destruct (topic_type topic regs) as [t|]; cbn; [|done].
  unfold decode_as. destruct (from_slice t payload) as [v|e]; [|done].
  unfold EventBus_publish. pose proof (bus_of_reactions policy regs t v) as Hr.
  destruct (handlers (bus_of policy regs) !! t) as [hs|]; cbn in *; [|done].
  apply deliver_to_relabel. rewrite <- named_calls_calls, Hr. apply reactions_shaped.
Qed.
End Registered.
Arguments Registration : clear implicits.
Arguments Registration W T {_}.
Arguments named_calls : simpl never.
Arguments calls : simpl never.

(** ** Retrying and parking *)

(** What a handler did so far: whether each of its runs succeeded. *)
Record Runs := mkRuns { runs : list bool }.

(** A handler whose outcome is any function of its past runs and the event. *)
Definition recorded {W Ev E} `{!Lens W Runs} (behaviour : list bool -> Ev -> result unit E)
  (event : Ev) : M W (option (result unit E)) :=
  zoom (fun j => let r := behaviour (runs j) event in (Some r, mkRuns (runs j ++ [is_ok r]))).
Arguments recorded : simpl never.

Section RetryLemmas.
Context {W Ev E : Type} `{!Env W, !Timer W}.
Variable handle : Ev -> M W (option (result unit E)).

Lemma decide_kind policy attempt w :
  match (RetryPolicy_decide policy attempt w).1 with
  | Some (RetryAfter _) => attempt < max_attempts policy
  | Some DeadLetter_ => max_attempts policy <= attempt
  | None => attempt < max_attempts policy
  end.
Proof.
  unfold RetryPolicy_decide. destruct (attempt <? max_attempts policy) eqn:El; [|cbn; lia].
  unfold pbind, ret. destruct (BackoffStrategy_delay_for (backoff policy) attempt w) as [[d|] w'];
    cbn; lia.
Qed.

Lemma u32_succ attempt bound : 0 <= attempt < bound -> bound <= u32_max ->
  u32_add attempt 1 = attempt + 1.
Proof. unfold u32_add, u32_max. intros. apply Z.mod_small. lia. Qed.

(** The bound on the attempts is never what ends the loop: any larger bound
    gives the same run. *)
Lemma retrying_fuel_irrelevant policy event n m attempt w :
  max_attempts policy <= u32_max -> 0 <= attempt ->
  max_attempts policy - attempt <= Z.of_nat n -> max_attempts policy - attempt <= Z.of_nat m ->
  retrying_loop handle n policy event attempt w = retrying_loop handle m policy event attempt w.
Proof.
  intros Hmax. revert m attempt w. induction n as [|n IH]; intros m attempt w Ha Hn Hm.
  all: destruct m as [|m]; cbn; unfold pbind, ret, bind; [try done|..].
  all: destruct (handle event w) as [[[u|e]|] w1]; try done.
  all: pose proof (decide_kind policy attempt w1) as Hd;
    destruct (RetryPolicy_decide policy attempt w1) as [[[delay|]|] w2]; cbn in Hd; try done; try lia.
  destruct (sleep delay w2) as [[] w3]. rewrite (u32_succ _ (max_attempts policy)) by lia.
  apply IH; lia.
Qed.
End RetryLemmas.

Lemma delay_for_keeps (S : Type) {W} `{!Env W, !Lens W S, !EnvFrame W S} b attempt :
  keeps S (BackoffStrategy_delay_for (W := W) b attempt).
Proof.
  intros w. destruct b as [d|base mult max [] ]; cbn; [done| |done].
  unfold jitter_factor, bind, ret. pose proof (fastrand_f64_frame (S := S) w) as F.
  by destruct (fastrand_f64 w) as [x w'].
Qed.

Lemma decide_keeps (S : Type) {W} `{!Env W, !Lens W S, !EnvFrame W S} policy attempt :
  keeps S (RetryPolicy_decide (W := W) policy attempt).
Proof.
  intros w. unfold RetryPolicy_decide. destruct (attempt <? max_attempts policy); [|done].
  unfold pbind, ret. pose proof (delay_for_keeps S (backoff policy) attempt w) as F.
  by destruct (BackoffStrategy_delay_for (backoff policy) attempt w) as [[d|] w'].
Qed.

Section Parking.
Context {W Ev E : Type} `{!Env W, !Timer W, !Lens W InMemoryDeadLetterQueue,
  !LensLaws W InMemoryDeadLetterQueue, !EnvFrame W InMemoryDeadLetterQueue, !Lens W Runs,
  !LensLaws W Runs, !EnvFrame W Runs, !LensDisjoint W Runs InMemoryDeadLetterQueue,
  !LensDisjoint W InMemoryDeadLetterQueue Runs}.
Variable behaviour : list bool -> Ev -> result unit E.
Hypothesis sleep_runs : forall d, keeps Runs (sleep (W := W) d).
Hypothesis sleep_dlq : forall d, keeps InMemoryDeadLetterQueue (sleep (W := W) d).

Lemma recorded_step event w :
  recorded behaviour event w =
  (Some (behaviour (runs (lget w)) event),
   lset (mkRuns (runs (lget w) ++ [is_ok (behaviour (runs (lget w)) event)])) w).
Proof. done. Qed.

(** The runs of a retried handler: failures, then either a success or the
    last error of a spent budget. *)
Definition retried_as (past : list bool) (event : Ev) (attempt budget : Z)
  (after : list bool) (r : result unit E) : Prop :=
  exists k : nat, attempt + Z.of_nat k <= Z.max attempt budget
    /\ match r with
       | Ok _ => after = past ++ replicate k false ++ [true]
       | Err e => attempt + Z.of_nat k = Z.max attempt budget
                  /\ after = past ++ replicate k false ++ [false]
                  /\ behaviour (past ++ replicate k false) event = Err e
       end.

Lemma retried_as_step past event attempt budget after r :
  attempt < budget ->
  retried_as (past ++ [false]) event (attempt + 1) budget after r ->
  retried_as past event attempt budget after r.
Proof.
  intros Ha (k & Hk & Hr). exists (S k). split; [lia|].
  destruct r as [u|e]; rewrite <- !app_assoc in Hr; cbn in *; [done|].
  destruct Hr as (? & ? & ?). split_and!; [lia|done|done].
Qed.

Lemma retrying_recorded policy event left attempt w :
  (forall a, live (BackoffStrategy_delay_for (W := W) (backoff policy) a)) ->
  max_attempts policy <= u32_max -> 0 <= attempt -> max_attempts policy - attempt <= Z.of_nat left ->
  exists r w', retrying_loop (recorded behaviour) left policy event attempt w = (Some r, w')
    /\ lget w' = lget w :> InMemoryDeadLetterQueue
    /\ retried_as (runs (lget w)) event attempt (max_attempts policy) (runs (lget w')) r.
Proof.
  intros Hdelay Hmax. revert attempt w. induction left as [|left IH]; intros attempt w Ha Hl.
  all: cbn; unfold pbind; rewrite recorded_step; set (w1 := lset _ w).
  all: assert (F1 : lget w1 = lget w :> InMemoryDeadLetterQueue) by apply lget_lset_other.
  all: assert (R1 : runs (lget w1) = runs (lget w)
         ++ [is_ok (behaviour (runs (lget w)) event)]) by (unfold w1; by rewrite lget_lset).
  all: destruct (behaviour (runs (lget w)) event) as [[]|e] eqn:Hb; cbn in R1;
    [exists (Ok tt), w1; split_and!; [done|done|]; exists 0%nat; split; [lia|done]|].
  all: pose proof (decide_kind policy attempt w1) as Hd;
    pose proof (decide_keeps Runs policy attempt w1) as F2;
    pose proof (decide_keeps InMemoryDeadLetterQueue policy attempt w1) as F2'.
  all: assert (Hstop : max_attempts policy <= attempt ->
         retried_as (runs (lget w)) event attempt (max_attempts policy)
           (runs (lget w) ++ [false]) (Err e)).
  1,3: intros; exists 0%nat; split; [lia|]; rewrite app_nil_r; split_and!; [lia|done|done].
  all: destruct (RetryPolicy_decide policy attempt w1) as [[[delay|]|] w2] eqn:Ed;
    cbn in Hd, F2, F2'.
  all: try (exists (Err e), w2; split_and!; [done|congruence|rewrite F2, R1; auto with lia]).
  - lia.
  - unfold bind. pose proof (sleep_runs delay w2) as F3. pose proof (sleep_dlq delay w2) as F3'.
    destruct (sleep delay w2) as [[] w3]; cbn in F3, F3'.
    rewrite (u32_succ _ (max_attempts policy)) by lia.
    destruct (IH (attempt + 1) w3) as (r & w' & -> & Fq & Hr); [lia|lia|].
    exists r, w'. split_and!; [done|congruence|].
    rewrite F3, F2, R1 in Hr. by apply retried_as_step.
  - exfalso. unfold RetryPolicy_decide in Ed. replace (attempt <? max_attempts policy) with true
      in Ed by lia. unfold pbind, ret in Ed. destruct (Hdelay attempt w1) as [d Hd'].
    by destruct (BackoffStrategy_delay_for (backoff policy) attempt w1) as [[?|] ?].
Qed.

(** A spent budget, with its one dead letter; the letter always says one
    attempt. *)
Definition parked_after (to_string : E -> string) (topic_name : string) (event : Ev)
  (budget : nat) (past after : list bool) (letters letters' : list DeadLetterMessage) : Prop :=
  exists e d, after = past ++ replicate budget false
    /\ behaviour (past ++ replicate (pred budget) false) event = Err e
    /\ letters' = letters ++ [d] /\ topic (dl_message d) = topic_name
    /\ dl_reason d = to_string e /\ dl_attempts d = 1.

Lemma park_letter (to_string : E -> string) topic_name (map_event : Ev -> M W Message) event e w :
  keeps Runs (map_event event) -> keeps InMemoryDeadLetterQueue (map_event event) ->
  exists d w',
    (do! message <- map_event event;
     do! dead <- DeadLetterMessage_new (set_topic topic_name message) (to_string e) 1;
     do! parked <- dead_letter dead;
     ret (Some (map_err (mkDeadLetteringError (to_string e)) parked))) w = (Some (Ok tt), w')
    /\ lget w' = lget w :> Runs
    /\ dlq_messages (lget w') = dlq_messages (lget w) ++ [d]
    /\ topic (dl_message d) = topic_name /\ dl_reason d = to_string e /\ dl_attempts d = 1.
Proof.
  intros Kr Kq. unfold DeadLetterMessage_new, bind, ret.
  specialize (Kr w). specialize (Kq w). destruct (map_event event w) as [m w1]; cbn in Kr, Kq.
  pose proof (uuid_now_v7_frame (S := Runs) w1) as F1.
  pose proof (uuid_now_v7_frame (S := InMemoryDeadLetterQueue) w1) as F1'.
  destruct (uuid_now_v7 w1) as [id w2]; cbn in F1, F1'.
  pose proof (utc_now_frame (S := Runs) w2) as F2.
  pose proof (utc_now_frame (S := InMemoryDeadLetterQueue) w2) as F2'.
  destruct (utc_now w2) as [now w3]; cbn in F2, F2'.
  cbn. unfold zoom. cbn.
  exists (mkDeadLetterMessage id (set_topic topic_name m) (to_string e) 1 now).
  eexists. split; [done|].
  rewrite lget_lset, lget_lset_other. cbn. split_and!; congruence.
Qed.

Lemma retry_then_park_run (to_string : E -> string) topic_name (map_event : Ev -> M W Message)
  policy event w :
  (forall a, live (BackoffStrategy_delay_for (W := W) (backoff policy) a)) ->
  0 <= max_attempts policy <= u32_max ->
  keeps Runs (map_event event) -> keeps InMemoryDeadLetterQueue (map_event event) ->
  let budget := Z.to_nat (Z.max 1 (max_attempts policy)) in
  exists w',
    DeadLettering_handle (Retrying_handle (recorded behaviour) policy) to_string topic_name
      map_event event w = (Some (Ok tt), w')
    /\ ((exists k, (k < budget)%nat
            /\ runs (lget w') = runs (lget w) ++ replicate k false ++ [true]
            /\ lget w' = lget w :> InMemoryDeadLetterQueue)
        \/ parked_after to_string topic_name event budget (runs (lget w)) (runs (lget w'))
             (dlq_messages (lget w)) (dlq_messages (lget w'))).
Proof.
  intros Hdelay Hmax Kr Kq budget. unfold DeadLettering_handle, Retrying_handle, pbind.
  destruct (retrying_recorded policy event (Z.to_nat (max_attempts policy)) 1 w Hdelay)
    as (r & w1 & -> & Fq & k & Hk & Hr); [lia|lia|lia|].
  destruct r as [u|e].
  - exists w1. split; [done|]. left. exists k. split_and!; [lia|done|done].
  - destruct Hr as (Hk' & Hruns & Hb).
    destruct (park_letter to_string topic_name map_event event e w1 Kr Kq)
      as (d & w' & -> & Fr & Hq & Hd).
    exists w'. split; [done|]. right. exists e, d. rewrite Fr, Hruns, Hq, Fq.
    replace budget with (S k) by lia.
    change [false] with (replicate 1 false). rewrite <- replicate_add, Nat.add_1_r. auto.
Qed.
End Parking.

(** ** Properties *)

Section BusTheorems.
Context {W T : Type} `{!EventTypes T, Countable T, !Serde T}.


(** The trusted-bytes entry point mirrors [publish]: an unknown topic is
    dropped, a payload its topic's type rejects is a [DecodeError], neither
    touching anything; any other payload is published as the event it
    decodes to, with the same handlers, effects and answer, except that
    several failures are reported under the name [<erased>].  The decoder is
    the last one registered for the topic. *)
Theorem trusted_bytes_mirror_publish (policy : PublishErrorPolicy)
  (regs : list (Registration W T)) (topic payload : string) (w : W) :
  EventBus_publish_trusted_bytes (bus_of policy regs) topic payload w =
  match topic_type topic regs with
  | None => (Some (Ok tt), w)
  | Some t =>
      match from_slice t payload with
      | Err e => (Some (Err (DecodeError topic e)), w)
      | Ok v => mmap (fmap relabel) (EventBus_publish (bus_of policy regs) t v) w
      end
  end.
Proof. apply trusted_bytes_decoded. Qed.

(** Dispatching by name reaches every handler: when the handlers of a
    topic's type have distinct names, dispatching to each of the names
    [handler_names_for_topic] lists performs every registered reaction once,
    in registration order. *)
Theorem dispatch_by_name_covers (policy : PublishErrorPolicy) (regs : list (Registration W T))
  (topic payload : string) (t : T) (v : carrier t)
  (Htopic : topic_type topic regs = Some t) (Hdecode : from_slice t payload = Ok v)
  (Hnames : NoDup (reactions t v regs).*1) :
  let b := bus_of policy regs in
  handler_names_for_topic b topic = (reactions t v regs).*1
  /\ dispatch_trusted_bytes_to_handler b topic payload <$> handler_names_for_topic b topic
     = (reactions t v regs).*2.
Proof.
  cbn zeta. pose proof (bus_of_decoder policy regs topic) as Hd. rewrite Htopic in Hd. cbn in Hd.
  pose proof (bus_of_reactions policy regs t v) as Hr.
  unfold handler_names_for_topic. rewrite Hd.
  destruct (handlers (bus_of policy regs) !! t) as [hs|] eqn:Hh; cbn in Hr.
  - rewrite <- Hr, named_calls_names in Hnames. rewrite <- Hr, named_calls_names.
    split; [done|]. rewrite named_calls_calls. eapply dispatch_by_name; [done| |done|done].
    unfold decode_as. by rewrite Hdecode.
  - by rewrite <- Hr.
Qed.
End BusTheorems.

(** Handlers of the same Rust type share a name and only the first is
    reachable by it: with two of them registered, dispatching to each listed
    name runs the first handler twice and the second never, where [publish]
    runs both. *)
Theorem same_name_handler_starved {W T : Type} `{!EventTypes T, Countable T, !Serde T}
  (policy : PublishErrorPolicy) (topic payload : string) (t : T) (v : carrier t)
  (h1 h2 : EventHandler W t)
  (Hname : eh_name h1 = eh_name h2) (Hdecode : from_slice t payload = Ok v) :
  let regs := [RegPlain t h1; RegPlain t h2; RegDecoder t topic] in
  let b := bus_of policy regs in
  (reactions t v regs).*2 = [react_plain t h1 v; react_plain t h2 v]
  /\ dispatch_trusted_bytes_to_handler b topic payload <$> handler_names_for_topic b topic
     = [react_plain t h1 v; react_plain t h1 v].
Proof.
  cbn zeta. split.
  - unfold reactions. cbn. destruct (decide (t = t)) as [e|]; [|done].
    by rewrite (proof_irrel e eq_refl).
  - unfold bus_of, handler_names_for_topic, dispatch_trusted_bytes_to_handler. cbn.
    rewrite lookup_insert_eq. cbn. rewrite !lookup_insert_eq. cbn.
    unfold decode_as. rewrite Hdecode, lookup_empty. cbn. rewrite <- Hname.
    rewrite bool_decide_true by done. cbn. unfold HandlerWrapper_call. rewrite downcast_ref_same. done.
Qed.

(** A retried and dead-lettered handler never fails and never loses an
    event: [DeadLettering] around [Retrying] answers [Ok]; the handler ran at
    most [max(1, max_attempts)] times, stopping at its first success with
    nothing parked, or, when every one of those runs failed, leaving exactly
    one dead letter on the configured topic with the last error as its
    reason.  That letter records one attempt, however many were made. *)
Theorem retry_then_park {W Ev E : Type} `{!Env W, !Timer W, !Lens W InMemoryDeadLetterQueue,
  !LensLaws W InMemoryDeadLetterQueue, !EnvFrame W InMemoryDeadLetterQueue, !Lens W Runs,
  !LensLaws W Runs, !EnvFrame W Runs, !LensDisjoint W Runs InMemoryDeadLetterQueue,
  !LensDisjoint W InMemoryDeadLetterQueue Runs}
  (behaviour : list bool -> Ev -> result unit E) (to_string : E -> string) (topic_name : string)
  (map_event : Ev -> M W Message) (policy : RetryPolicy) (event : Ev) (w : W)
  (Hsleep_runs : forall d, keeps Runs (sleep (W := W) d))
  (Hsleep_dlq : forall d, keeps InMemoryDeadLetterQueue (sleep (W := W) d))
  (Hmap_runs : keeps Runs (map_event event))
  (Hmap_dlq : keeps InMemoryDeadLetterQueue (map_event event))
  (Hdelay : forall a, live (BackoffStrategy_delay_for (W := W) (backoff policy) a))
  (Hmax : 0 <= max_attempts policy <= u32_max) :
  let budget := Z.to_nat (Z.max 1 (max_attempts policy)) in
  exists w',
    DeadLettering_handle (Retrying_handle (recorded behaviour) policy) to_string topic_name
      map_event event w = (Some (Ok tt), w')
    /\ ((exists k, (k < budget)%nat
            /\ runs (lget w') = runs (lget w) ++ replicate k false ++ [true]
            /\ lget w' = lget w :> InMemoryDeadLetterQueue)
        \/ parked_after behaviour to_string topic_name event budget (runs (lget w))
             (runs (lget w')) (dlq_messages (lget w)) (dlq_messages (lget w'))).
Proof. by apply retry_then_park_run. Qed.

(** ** Witnesses *)

(** Two event types: numbers and texts. *)
#[local] Instance demo_events : EventTypes bool := {
  carrier b := if b then Z else string;
  event_type t _ := if t then "number" else "text";
  aggregate_id _ _ := "1";
}.

#[local] Instance demo_serde : Serde bool := {
  to_vec t := match t with true => fun z => Ok (pretty z) | false => fun s => Ok s end;
  from_slice t bytes :=
    match t with
    | true => if decide (bytes = "7") then Ok 7 else Err "expected a number"
    | false => Ok bytes
    end;
}.

Definition seven : carrier true := 7.

(** A handler that logs its name and answers [r]. *)
Definition logging (t : bool) (name : string) (r : result unit string)
  : EventHandler (list string) t :=
  mkEventHandler t name (fun _ log => (Some r, log ++ [name])).

Definition demo_regs : list (Registration (list string) bool) :=
  [RegPlain true (logging true "a" (Ok tt)); RegPlain false (logging false "t" (Ok tt));
   RegPlain true (logging true "b" (Err "broken")); RegPlain true (logging true "c" (Ok tt));
   RegDecoder true "numbers"].


Lemma dispatch_by_name_covers_witness :
  let b := bus_of CollectAll demo_regs in
  (reactions true 7 demo_regs).*1 = ["a"; "b"; "c"]
  /\ handler_names_for_topic b "numbers" = (reactions true 7 demo_regs).*1
  /\ dispatch_trusted_bytes_to_handler b "numbers" "7" <$> handler_names_for_topic b "numbers"
     = (reactions true 7 demo_regs).*2.
Proof.
  split; [reflexivity|].
  apply (dispatch_by_name_covers CollectAll demo_regs "numbers" "7" true 7);
    [reflexivity|reflexivity|].
  exact (bool_decide_unpack (NoDup ["a"; "b"; "c"]) I).
Defined.

Lemma same_name_handler_starved_witness :
  let regs := [RegPlain true (logging true "a" (Ok tt)); RegPlain true (logging true "a" (Err "x"));
               RegDecoder true "numbers"] in
  let b := bus_of FailFast regs in
  (reactions true seven regs).*2
  = [react_plain true (logging true "a" (Ok tt)) seven; react_plain true (logging true "a" (Err "x")) seven]
  /\ dispatch_trusted_bytes_to_handler b "numbers" "7" <$> handler_names_for_topic b "numbers"
     = [react_plain true (logging true "a" (Ok tt)) seven; react_plain true (logging true "a" (Ok tt)) seven].
Proof.
  apply (same_name_handler_starved FailFast "numbers" "7" true seven
           (logging true "a" (Ok tt)) (logging true "a" (Err "x"))); reflexivity.
Defined.

#[local] Instance still_timer {S} : Timer (World S) := { sleep _ := ret tt }.

Definition parking_world : World (Runs * InMemoryDeadLetterQueue) :=
  mkWorld env_start (mkRuns [], mkInMemoryDeadLetterQueue []).

Lemma retry_then_park_witness :
  let budget := Z.to_nat (Z.max 1 (max_attempts (RetryPolicy_new 3 5))) in
  exists w',
    DeadLettering_handle (Retrying_handle (recorded (fun _ _ => Err "down")) (RetryPolicy_new 3 5))
      (fun e => e) "dead" (fun _ => ret (Message_new 1 "t" "" "")) tt parking_world
    = (Some (Ok tt), w')
    /\ ((exists k, (k < budget)%nat
            /\ runs (lget w') = runs (lget parking_world) ++ replicate k false ++ [true]
            /\ lget w' = lget parking_world :> InMemoryDeadLetterQueue)
        \/ parked_after (fun _ _ => Err "down") (fun e => e) "dead" tt budget (runs (lget parking_world))
             (runs (lget w')) (dlq_messages (lget parking_world)) (dlq_messages (lget w'))).
Proof.
  apply (retry_then_park (fun _ _ => Err "down") (fun e => e) "dead"
           (fun _ => ret (Message_new 1 "t" "" "")) (RetryPolicy_new 3 5) tt parking_world).
  - intros d w. reflexivity.
  - intros d w. reflexivity.
  - intros w. reflexivity.
  - intros w. reflexivity.
  - intros a w. eexists. reflexivity.
  - vm_compute. split; discriminate.
Defined.
