(* ===== verification/UnitOfWork.v ===== *)
(** * Units of work: saving an aggregate and enqueueing its events together

    Models crates/pharos-app/src/unit_of_work.rs ([TransactionalStore],
    [TransactionalRepository], [save_and_enqueue_in]) and, from
    crates/pharos-memory/src, in_memory_repository.rs and
    in_memory_unit_of_work.rs.  The transactional contract is a class of laws
    the atomicity theorem is proved against, and the in-memory unit of work
    discharges it.  Concurrent tasks are a transition system over the same
    operations. *)

From S2P Require Import Prelude Core Messaging Outbox.
Local Open Scope Z_scope.

(** ** The traits *)

Inductive UnitOfWorkError :=
| UBegin (e : string)
| UCommit (e : string)
| URollback (e : string)
| UOperation (e : string).

(** [TransactionalStore]: [tx_begin] may wait for ever ([None]), and a handle
    that is not committed is dropped. *)
Class TransactionalStore (W Tx E : Type) : Type := {
  tx_begin : M W (option (result Tx E));
  tx_commit : Tx -> M W (result unit E);
  insert_outbox_in_tx : Tx -> OutboxMessage -> M W (result unit E * Tx);
  tx_drop : Tx -> M W unit;
}.

(** [TransactionalRepository]: the handle and the aggregate are taken by
    mutable reference, so both are part of the answer. *)
Class TransactionalRepository (W A Tx E : Type) : Type := {
  save_in_tx : Tx -> A -> M W (result unit (RepositoryError E) * Tx * A);
}.

Inductive SaveAndEnqueueError (RE SE : Type) :=
| SERepository (e : RepositoryError RE)
| SEStore (e : SE)
| SEMapping (e : string).
Arguments SERepository {RE SE} _.
Arguments SEStore {RE SE} _.
Arguments SEMapping {RE SE} _.

(** ** [save_and_enqueue_in] *)

Section SaveAndEnqueue.
Context {W A Id Ev Tx RE SE : Type} `{!AggregateRoot A Id Ev, !Env W,
  !TransactionalStore W Tx SE, !TransactionalRepository W A Tx RE}.
Variable map_event : Ev -> M W (result Message string).

Abbreviation EnqueueError := (SaveAndEnqueueError RE SE).

(** The outbox messages of the pending events, up to the first that cannot be
    mapped. *)
Fixpoint map_pending (events : list Ev) : M W (result (list OutboxMessage) EnqueueError) :=
  match events with
  | [] => ret (Ok [])
  | event :: rest =>
      do! mapped <- map_event event;
      match mapped with
      | Err e => ret (Err (SEMapping e))
      | Ok message =>
          do! m <- OutboxMessage_new message;
          try! messages <- map_pending rest;
          ret (Ok (m :: messages))
      end
  end.

Fixpoint insert_all (tx : Tx) (messages : list OutboxMessage)
  : M W (result unit EnqueueError * Tx) :=
  match messages with
  | [] => ret (Ok tt, tx)
  | message :: rest =>
      do! rt <- insert_outbox_in_tx tx message;
      match rt.1 with
      | Err e => ret (Err (SEStore e), rt.2)
      | Ok _ => insert_all rt.2 rest
      end
  end.

(** The work between the two ends of a transaction; the handle is committed
    or dropped here, whichever way it goes. *)
Definition in_transaction (tx : Tx) (aggregate : A) (messages : list OutboxMessage)
  : M W (result unit EnqueueError * A) :=
  do! rta <- save_in_tx tx aggregate;
  let '(r, tx, aggregate) := rta in
  match r with
  | Err e => do! _ <- tx_drop tx; ret (Err (SERepository e), aggregate)
  | Ok _ =>
      do! rt <- insert_all tx messages;
      let '(r, tx) := rt in
      match r with
      | Err e => do! _ <- tx_drop tx; ret (Err e, aggregate)
      | Ok _ =>
          do! c <- tx_commit tx;
          ret (map_err SEStore c, aggregate)
      end
  end.

Definition save_and_enqueue_in (aggregate : A) : M W (option (result unit EnqueueError * A)) :=
  let expected := version aggregate in
  do! mapped <- map_pending (pending_events aggregate);
  match mapped with
  | Err e => ret (Some (Err e, aggregate))
  | Ok messages =>
      live! began <- tx_begin;
      do! result <-
        match began with
        | Err e => ret (Err (SEStore e), aggregate)
        | Ok tx => in_transaction tx aggregate messages
        end;
      let '(r, aggregate) := result in
      match r with
      | Ok _ => let '(_, aggregate) := drain_events aggregate in ret (Some (Ok tt, aggregate))
      | Err error => ret (Some (Err error, set_version expected aggregate))
      end
  end.
End SaveAndEnqueue.

(** ** The in-memory repository *)

(** Clones the aggregate with its pending events dropped. *)
Definition snapshot_without_pending_events {A Id Ev} `{!AggregateRoot A Id Ev} (a : A) : A :=
  (drain_events a).2.

(** The version check of the entry and the write, under the entry's lock. *)
Definition save_checked {A Id Ev E} `{!AggregateRoot A Id Ev, Countable Id}
  (store : gmap Id A) (aggregate : A) : result unit (RepositoryError E) * A * gmap Id A :=
  let expected := version aggregate in
  let new_version := u64_add expected 1 in
  let written :=
    let aggregate := set_version new_version aggregate in
    (Ok tt, aggregate,
     <[agg_id aggregate := snapshot_without_pending_events aggregate]> store) in
  match store !! agg_id aggregate with
  | Some occupied =>
      let actual := version occupied in
      if actual =? expected then written
      else (Err (ConcurrencyConflict expected (Some actual)), aggregate, store)
  | None =>
      if expected =? 0 then written
      else (Err (ConcurrencyConflict expected None), aggregate, store)
  end.

Record InMemoryRepository (Id A : Type) `{Countable Id} := mkInMemoryRepository {
  repo_store : gmap Id A;
}.
Arguments mkInMemoryRepository {Id A _ _} _.
Arguments repo_store {Id A _ _} _.

Inductive InMemoryRepoError := RepoNever.

Section InMemoryRepo.
Context {W Id A Ev : Type} `{Countable Id, !AggregateRoot A Id Ev, !Lens W (InMemoryRepository Id A)}.

Definition InMemoryRepository_find_by_id (id : Id) : M W (result (option A) InMemoryRepoError) :=
  do! s <- mget; ret (Ok (repo_store s !! id)).

Definition InMemoryRepository_save (aggregate : A)
  : M W (result unit (RepositoryError InMemoryRepoError) * A) :=
  do! s <- mget;
  let '(r, aggregate, store) := save_checked (repo_store s) aggregate in
  do! _ <- mput (mkInMemoryRepository store);
  ret (r, aggregate).

Definition InMemoryRepository_delete (id : Id) : M W (result unit InMemoryRepoError) :=
  do! s <- mget; do! _ <- mput (mkInMemoryRepository (delete id (repo_store s))); ret (Ok tt).

#[export] Instance InMemoryRepository_repository : Repository W A Id InMemoryRepoError := {
  find_by_id := InMemoryRepository_find_by_id;
  repo_save := InMemoryRepository_save;
  repo_delete := InMemoryRepository_delete;
}.
End InMemoryRepo.

(** ** The in-memory unit of work *)

(** The aggregates and whether the single-writer mutex is held; the outbox it
    shares with a dispatcher is a component of its own. *)
Record InMemoryUnitOfWork (Id A : Type) `{Countable Id} := mkInMemoryUnitOfWork {
  aggregates : gmap Id A;
  locked : bool;
}.
Arguments mkInMemoryUnitOfWork {Id A _ _} _ _.
Arguments aggregates {Id A _ _} _.
Arguments locked {Id A _ _} _.

(** The guard a transaction holds is the mutex being [locked]. *)
Record InMemoryTx (A : Type) := mkInMemoryTx {
  staged_aggregate : option A;
  staged_outbox : list OutboxMessage;
}.
Arguments mkInMemoryTx {A} _ _.
Arguments staged_aggregate {A} _.
Arguments staged_outbox {A} _.

Inductive InMemoryUnitOfWorkError := UowNever.

Definition InMemoryUnitOfWork_new {Id A} `{Countable Id} : InMemoryUnitOfWork Id A :=
  mkInMemoryUnitOfWork ∅ false.

(** The version check of [save_in_tx]: the conflict it reports, if any. *)
Definition tx_conflict {E} (expected : Z) (actual : option Z) : option (RepositoryError E) :=
  match actual with
  | Some actual =>
      if negb (actual =? expected) then Some (ConcurrencyConflict expected (Some actual)) else None
  | None => if negb (expected =? 0) then Some (ConcurrencyConflict expected None) else None
  end.

Section InMemoryUow.
Context {W Id A Ev : Type} `{Countable Id, !AggregateRoot A Id Ev,
  !Lens W (InMemoryUnitOfWork Id A), !OutboxRepository W}.

Definition InMemoryUnitOfWork_find_by_id (id : Id)
  : M W (result (option A) InMemoryUnitOfWorkError) :=
  do! s <- mget; ret (Ok (aggregates s !! id)).

(** [Repository::save] does not take the mutex. *)
Definition InMemoryUnitOfWork_save (aggregate : A)
  : M W (result unit (RepositoryError InMemoryUnitOfWorkError) * A) :=
  do! s <- mget;
  let '(r, aggregate, store) := save_checked (aggregates s) aggregate in
  do! _ <- mput (mkInMemoryUnitOfWork store (locked s));
  ret (r, aggregate).

Definition InMemoryUnitOfWork_delete (id : Id) : M W (result unit InMemoryUnitOfWorkError) :=
  do! s <- mget;
  do! _ <- mput (mkInMemoryUnitOfWork (delete id (aggregates s)) (locked s));
  ret (Ok tt).

(** [lock_owned().await]: waits while another transaction holds the guard. *)
Definition InMemoryUnitOfWork_begin
  : M W (option (result (InMemoryTx A) InMemoryUnitOfWorkError)) :=
  do! s <- mget;
  if locked s then ret None
  else do! _ <- mput (mkInMemoryUnitOfWork (aggregates s) true);
       ret (Some (Ok (mkInMemoryTx None []))).

(** Dropping the handle drops its guard. *)
Definition InMemoryUnitOfWork_drop (tx : InMemoryTx A) : M W unit :=
  do! s <- mget; mput (mkInMemoryUnitOfWork (aggregates s) false).

(** [commit] consumes the handle, whose guard goes when it returns. *)
Definition InMemoryUnitOfWork_commit (tx : InMemoryTx A)
  : M W (result unit InMemoryUnitOfWorkError) :=
  do! s <- mget;
  do! _ <- match staged_aggregate tx with
           | Some aggregate =>
               mput (mkInMemoryUnitOfWork
                       (<[agg_id aggregate := aggregate]> (aggregates s)) (locked s))
           | None => ret tt
           end;
  do! r <- try_each (fun message => mmap (map_err (fun _ => UowNever)) (outbox_insert message))
             (staged_outbox tx);
  do! _ <- InMemoryUnitOfWork_drop tx;
  ret r.

Definition InMemoryUnitOfWork_insert_outbox_in_tx (tx : InMemoryTx A) (message : OutboxMessage)
  : M W (result unit InMemoryUnitOfWorkError * InMemoryTx A) :=
  ret (Ok tt, mkInMemoryTx (staged_aggregate tx) (staged_outbox tx ++ [message])).

Definition InMemoryUnitOfWork_save_in_tx (tx : InMemoryTx A) (aggregate : A)
  : M W (result unit (RepositoryError InMemoryUnitOfWorkError) * InMemoryTx A * A) :=
  let expected := version aggregate in
  do! s <- mget;
  let actual := version <$> aggregates s !! agg_id aggregate in
  match tx_conflict expected actual with
  | Some conflict => ret (Err conflict, tx, aggregate)
  | None =>
      let aggregate := set_version (u64_add expected 1) aggregate in
      ret (Ok tt,
           mkInMemoryTx (Some (snapshot_without_pending_events aggregate)) (staged_outbox tx),
           aggregate)
  end.

#[export] Instance InMemoryUnitOfWork_repository : Repository W A Id InMemoryUnitOfWorkError := {
  find_by_id := InMemoryUnitOfWork_find_by_id;
  repo_save := InMemoryUnitOfWork_save;
  repo_delete := InMemoryUnitOfWork_delete;
}.

#[export] Instance InMemoryUnitOfWork_store :
  TransactionalStore W (InMemoryTx A) InMemoryUnitOfWorkError := {
  tx_begin := InMemoryUnitOfWork_begin;
  tx_commit := InMemoryUnitOfWork_commit;
  insert_outbox_in_tx := InMemoryUnitOfWork_insert_outbox_in_tx;
  tx_drop := InMemoryUnitOfWork_drop;
}.

#[export] Instance InMemoryUnitOfWork_transactional :
  TransactionalRepository W A (InMemoryTx A) InMemoryUnitOfWorkError := {
  save_in_tx := InMemoryUnitOfWork_save_in_tx;
}.
End InMemoryUow.
Arguments InMemoryUnitOfWork_begin : simpl never.
Arguments InMemoryUnitOfWork_commit : simpl never.
Arguments InMemoryUnitOfWork_save_in_tx : simpl never.
Arguments InMemoryUnitOfWork_drop : simpl never.

(** ** The transactional contract

    What the documentation of the two traits promises: nothing a transaction
    does is visible before [commit]; [save_in_tx] checks the expected version,
    advances the aggregate on success only and reports a stale write without
    writing; [commit] installs what was staged or nothing. *)

Section Contract.
Context {Id A Ev : Type} `{Countable Id, !AggregateRoot A Id Ev}.

(** The committed state: aggregates and outbox. *)
Abbreviation View := (gmap Id A * gmap Uuid OutboxMessage)%type.

Definition version_ok (aggs : gmap Id A) (a : A) : Prop :=
  match aggs !! agg_id a with
  | Some stored => version stored = version a
  | None => version a = 0
  end.

Definition bumped (a : A) : A := set_version (u64_add (version a) 1) a.

(** The version check of the in-memory stores is exactly [version_ok]. *)
Lemma save_checked_ok {E} (store : gmap Id A) (a : A) :
  version_ok store a ->
  save_checked (E := E) store a
  = (Ok tt, bumped a, <[agg_id (bumped a) := snapshot_without_pending_events (bumped a)]> store).
Proof.
  unfold version_ok, save_checked.
  destruct (store !! agg_id a) as [b|]; intros Hv; by rewrite (proj2 (Z.eqb_eq _ _) Hv).
Qed.

Lemma save_checked_conflict {E} (store : gmap Id A) (a : A) :
  ~ version_ok store a ->
  save_checked (E := E) store a
  = (Err (ConcurrencyConflict (version a) (version <$> store !! agg_id a)), a, store).
Proof.
  unfold version_ok, save_checked. destruct (store !! agg_id a) as [b|]; intros Hne; cbn.
  - destruct (Z.eqb_spec (version b) (version a)); [done|done].
  - destruct (Z.eqb_spec (version a) 0); [done|done].
Qed.

Definition install (staged : option A * list OutboxMessage) (v : View) : View :=
  (match staged.1 with Some a => <[agg_id a := a]> v.1 | None => v.1 end,
   foldl (fun ob m => <[ob_id m := m]> ob) v.2 staged.2).

Class TransactionLaws (W Tx RE SE : Type) `{!Env W, !TransactionalStore W Tx SE,
  !TransactionalRepository W A Tx RE} (view : W -> View)
  (staged : Tx -> option A * list OutboxMessage) : Prop := {
  tx_now_view w : view (utc_now w).2 = view w;
  tx_uuid_view w : view (uuid_now_v7 w).2 = view w;
  tx_begin_view w : view (tx_begin w).2 = view w;
  tx_begin_staged w tx w' : tx_begin w = (Some (Ok tx), w') -> staged tx = (None, []);
  tx_save_view tx a w : view (save_in_tx tx a w).2 = view w;
  tx_save_ok tx a w u tx' a' w' :
    save_in_tx tx a w = (Ok u, tx', a', w') ->
    version_ok (view w).1 a /\ a' = bumped a
    /\ staged tx' = (Some (snapshot_without_pending_events (bumped a)), (staged tx).2);
  tx_save_err tx a w e tx' a' w' : save_in_tx tx a w = (Err e, tx', a', w') -> a' = a;
  tx_insert_view tx m w : view (insert_outbox_in_tx tx m w).2 = view w;
  tx_insert_ok tx m w u tx' w' :
    insert_outbox_in_tx tx m w = (Ok u, tx', w') ->
    staged tx' = ((staged tx).1, (staged tx).2 ++ [m]);
  tx_commit_ok tx w u w' : tx_commit tx w = (Ok u, w') -> view w' = install (staged tx) (view w);
  tx_commit_err tx w e w' : tx_commit tx w = (Err e, w') -> view w' = view w;
  tx_drop_view tx w : view (tx_drop tx w).2 = view w;
}.
End Contract.

(** ** Atomicity *)

Section Atomicity.
Context {W Id A Ev Tx RE SE : Type} `{Countable Id, !AggregateRoot A Id Ev, !Env W,
  !TransactionalStore W Tx SE, !TransactionalRepository W A Tx RE}
  (view : W -> gmap Id A * gmap Uuid OutboxMessage)
  (staged : Tx -> option A * list OutboxMessage)
  `{!TransactionLaws W Tx RE SE view staged}.
Variable map_event : Ev -> M W (result Message string).
Hypothesis map_event_view : forall ev w, view (map_event ev w).2 = view w.

(** A fresh outbox message for the event. *)
Definition enqueued_for (ev : Ev) (m : OutboxMessage) : Prop :=
  (exists w1 w2, map_event ev w1 = (Ok (ob_message m), w2))
  /\ ob_status m = Pending /\ ob_attempts m = 0.

Lemma map_pending_spec evs w :
  view (map_pending (RE := RE) (SE := SE) map_event evs w).2 = view w
  /\ forall ms w', map_pending (RE := RE) (SE := SE) map_event evs w = (Ok ms, w') ->
     Forall2 enqueued_for evs ms.
Proof.
  revert w. induction evs as [|ev evs IH]; intros w; cbn [map_pending].
  { split; [done|]. intros ms w' [= <- <-]. constructor. }
  unfold bind. pose proof (map_event_view ev w) as V1.
  destruct (map_event ev w) as [[message|e] w1] eqn:Em; cbn in V1; [|split; [done|naive_solver]].
  unfold OutboxMessage_new, bind, ret.
  pose proof (tx_now_view w1) as V2. destruct (utc_now w1) as [now w2]; cbn in V2.
  pose proof (tx_uuid_view w2) as V3. destruct (uuid_now_v7 w2) as [id w3]; cbn in V3.
  unfold tbind. destruct (IH w3) as [V4 Hms].
  destruct (map_pending map_event evs w3) as [[ms|e] w4]; cbn in V4 |- *.
  - split; [congruence|]. intros ms' w' [= <- <-]. constructor; [|by eapply Hms].
    split_and!; cbn; eauto.
  - split; [congruence|]. naive_solver.
Qed.

Lemma insert_all_spec tx ms w :
  view (insert_all (RE := RE) tx ms w).2 = view w
  /\ forall u tx' w', insert_all (RE := RE) tx ms w = (Ok u, tx', w') ->
     staged tx' = ((staged tx).1, (staged tx).2 ++ ms).
Proof.
  revert tx w. induction ms as [|m ms IH]; intros tx w; cbn [insert_all].
  { split; [done|]. intros u tx' w' [= <- <- <-]. rewrite app_nil_r. by destruct (staged tx). }
  unfold bind. pose proof (tx_insert_view tx m w) as V1.
  destruct (insert_outbox_in_tx tx m w) as [[[u|e] tx1] w1] eqn:Ei; cbn in V1 |- *.
  - destruct (IH tx1 w1) as [V2 Hs]. split; [congruence|]. intros u' tx' w' E.
    rewrite (Hs _ _ _ E), (tx_insert_ok _ _ _ _ _ _ Ei). cbn. by rewrite <- app_assoc.
  - split; [congruence|]. naive_solver.
Qed.

Lemma in_transaction_spec tx a ms w r a' w' :
  staged tx = (None, []) -> in_transaction (RE := RE) tx a ms w = (r, a', w') ->
  (a' = a \/ a' = bumped a) /\
  match r with
  | Ok _ => version_ok (view w).1 a /\ a' = bumped a
            /\ view w' = install (Some (snapshot_without_pending_events (bumped a)), ms) (view w)
  | Err _ => view w' = view w
  end.
Proof.
  intros Hst. unfold in_transaction, bind, ret.
  pose proof (tx_save_view tx a w) as V1.
  destruct (save_in_tx tx a w) as [[[[u|e] tx1] a1] w1] eqn:Es; cbn in V1.
  - destruct (tx_save_ok _ _ _ _ _ _ _ Es) as (Hv & -> & Hs1).
    destruct (insert_all_spec tx1 ms w1) as [V2 Hins].
    destruct (insert_all tx1 ms w1) as [[[u'|e] tx2] w2]; cbn in V2.
    + specialize (Hins u' tx2 w2 eq_refl). rewrite Hs1, Hst in Hins. cbn in Hins.
      destruct (tx_commit tx2 w2) as [[c|e] w3] eqn:Ec; intros [= <- <- <-]; (split; [by right|]).
      * pose proof (tx_commit_ok _ _ _ _ Ec) as V3. rewrite V3, Hins, V2, V1. done.
      * pose proof (tx_commit_err _ _ _ _ Ec) as V3. cbn. congruence.
    + pose proof (tx_drop_view tx2 w2) as V3. destruct (tx_drop tx2 w2) as [[] w3].
      intros [= <- <- <-]. split; [by right|]. cbn in *. congruence.
  - pose proof (tx_save_err _ _ _ _ _ _ _ Es) as ->.
    pose proof (tx_drop_view tx1 w1) as V3. destruct (tx_drop tx1 w1) as [[] w3].
    intros [= <- <- <-]. split; [by left|]. cbn in *. congruence.
Qed.

Lemma save_and_enqueue_spec `{!AggregateRootLaws AggregateRoot0} (a a' : A) (w w' : W)
  (r : result unit (SaveAndEnqueueError RE SE)) :
  save_and_enqueue_in map_event a w = (Some (r, a'), w') ->
  match r with
  | Ok _ =>
      version_ok (view w).1 a /\ a' = snapshot_without_pending_events (bumped a)
      /\ exists ms, (map_pending (RE := RE) (SE := SE) map_event (pending_events a) w).1 = Ok ms
                    /\ Forall2 enqueued_for (pending_events a) ms
                    /\ view w' = install (Some a', ms) (view w)
  | Err _ =>
      view w' = view w /\ agg_id a' = agg_id a /\ version a' = version a
      /\ pending_events a' = pending_events a
  end.
Proof.
  intros Hrun. unfold save_and_enqueue_in, bind, pbind in Hrun.
  destruct (map_pending_spec (pending_events a) w) as [V1 Hms].
  destruct (map_pending map_event (pending_events a) w) as [[ms|e] w1]; cbn in V1;
    [|injection Hrun as <- <- <-; done].
  specialize (Hms ms w1 eq_refl). pose proof (tx_begin_view w1) as V2.
  destruct (tx_begin w1) as [[[tx|e]|] w2] eqn:Eb; cbn in V2; [| |done].
  - destruct (in_transaction tx a ms w2) as [[r1 a1] w3] eqn:Et.
    destruct (in_transaction_spec tx a ms w2 r1 a1 w3) as [Ha Hr];
      [by eapply tx_begin_staged|done|].
    rewrite V2, V1 in Hr. destruct r1 as [u|e].
    + destruct Hr as (Hv & -> & Hview). destruct (drain_events (bumped a)) as [es a2] eqn:Ed.
      injection Hrun as <- <- <-. unfold snapshot_without_pending_events in *.
      rewrite Ed in *. eauto 6.
    + injection Hrun as <- <- <-.
      destruct Ha as [->| ->]; unfold bumped; autorewrite with agg; done.
  - injection Hrun as <- <- <-. autorewrite with agg. split_and!; [congruence|done..].
Qed.
End Atomicity.

(** ** The in-memory unit of work honours the contract *)

Section InMemoryUowLaws.
Context {W Id A Ev : Type} `{Countable Id, !AggregateRoot A Id Ev, !AggregateRootLaws AggregateRoot0,
  !Env W, !Chrono, !MapIter Uuid OutboxMessage,
  !Lens W (InMemoryUnitOfWork Id A), !LensLaws W (InMemoryUnitOfWork Id A),
  !EnvFrame W (InMemoryUnitOfWork Id A),
  !Lens W InMemoryOutbox, !LensLaws W InMemoryOutbox, !EnvFrame W InMemoryOutbox,
  !LensDisjoint W (InMemoryUnitOfWork Id A) InMemoryOutbox,
  !LensDisjoint W InMemoryOutbox (InMemoryUnitOfWork Id A)}.

Definition uow (w : W) : InMemoryUnitOfWork Id A := lget w.
Definition uow_view (w : W) : gmap Id A * gmap Uuid OutboxMessage :=
  (aggregates (uow w), ob_store (lget w)).
Definition uow_staged (tx : InMemoryTx A) : option A * list OutboxMessage :=
  (staged_aggregate tx, staged_outbox tx).

Lemma uow_view_lset s w : uow_view (lset s w) = (aggregates s, ob_store (lget w)).
Proof. unfold uow_view, uow. by rewrite lget_lset, lget_lset_other. Qed.

Lemma insert_staged_spec ms w :
  exists w', try_each (fun m => mmap (map_err (fun _ => UowNever)) (outbox_insert m)) ms w
             = (Ok tt, w')
    /\ uow w' = uow w
    /\ ob_store (lget w') = foldl (fun ob m => <[ob_id m := m]> ob) (ob_store (lget w)) ms.
Proof.
  set (f := fun m => mmap _ (outbox_insert m)). revert w. induction ms as [|m ms IH]; intros w; [by exists w|].
  set (w1 := lset (ob_put m (ob_id m) (lget w)) w).
  cbn [try_each]. unfold tbind. change (f m w) with (Ok (E := InMemoryUnitOfWorkError) tt, w1).
  destruct (IH w1) as (w' & -> & Hu & Ho). exists w'. split_and!; [done| |].
  - rewrite Hu. unfold uow, w1. apply lget_lset_other.
  - rewrite Ho. unfold w1. by rewrite lget_lset.
Qed.

Lemma uow_commit_spec tx w :
  exists w', InMemoryUnitOfWork_commit tx w = (Ok tt, w')
    /\ uow_view w' = install (uow_staged tx) (uow_view w) /\ locked (uow w') = false.
Proof.
  unfold InMemoryUnitOfWork_commit, bind at 1, mget.
  set (aggs := match staged_aggregate tx with
               | Some a => <[agg_id a := a]> (aggregates (lget w))
               | None => aggregates (lget w)
               end).
  set (stage := match staged_aggregate tx with Some _ => _ | None => _ end).
  assert (exists w1, stage w = (tt, w1) /\ aggregates (uow w1) = aggs
                           /\ lget w1 = lget w :> InMemoryOutbox) as (w1 & Est & Ha & Ho).
  { subst stage aggs. destruct (staged_aggregate tx) as [a|]; [|by exists w].
    eexists. split; [done|]. unfold uow. rewrite lget_lset. split; [done|apply lget_lset_other]. }
  unfold bind. rewrite Est. destruct (insert_staged_spec (staged_outbox tx) w1)
    as (w2 & -> & Hu2 & Ho2).
  unfold InMemoryUnitOfWork_drop, bind, mget, mput, ret.
  eexists. split; [done|]. rewrite uow_view_lset. split; [|unfold uow; by rewrite lget_lset].
  unfold install, uow_view, uow_staged. cbn. f_equal; [|by rewrite Ho2, Ho].
  change (lget w2) with (uow w2). by rewrite Hu2, Ha.
Qed.

Lemma tx_conflict_None aggs (a : A) :
  tx_conflict (E := InMemoryUnitOfWorkError) (version a) (version <$> aggs !! agg_id a) = None
  <-> version_ok aggs a.
Proof.
  unfold version_ok. destruct (aggs !! agg_id a) as [b|]; cbn.
  - destruct (Z.eqb_spec (version b) (version a)); cbn; naive_solver.
  - destruct (Z.eqb_spec (version a) 0); cbn; naive_solver.
Qed.

Lemma save_in_tx_spec tx a w :
  InMemoryUnitOfWork_save_in_tx tx a w =
  match tx_conflict (version a) (version <$> aggregates (uow w) !! agg_id a) with
  | Some c => (Err c, tx, a, w)
  | None => (Ok tt, mkInMemoryTx (Some (snapshot_without_pending_events (bumped a)))
                      (staged_outbox tx), bumped a, w)
  end.
Proof.
  unfold InMemoryUnitOfWork_save_in_tx, bind, mget, ret. cbn. fold (uow w).
  by destruct (tx_conflict _ _).
Qed.

#[export] Instance InMemoryUnitOfWork_laws :
  TransactionLaws W (InMemoryTx A) InMemoryUnitOfWorkError InMemoryUnitOfWorkError
    uow_view uow_staged.
Proof.
  split; cbn.
  - intros w. unfold uow_view, uow. by rewrite !utc_now_frame.
  - intros w. unfold uow_view, uow. by rewrite !uuid_now_v7_frame.
  - intros w. unfold InMemoryUnitOfWork_begin, bind, mget. fold (uow w).
    destruct (locked (uow w)); [done|]. apply uow_view_lset.
  - intros w tx w'. unfold InMemoryUnitOfWork_begin, bind, mget. fold (uow w).
    destruct (locked (uow w)); [done|]. by intros [= <- <-].
  - intros tx a w. rewrite save_in_tx_spec. by destruct (tx_conflict _ _).
  - intros tx a w u tx' a' w'. rewrite save_in_tx_spec.
    destruct (tx_conflict _ _) eqn:E; [done|]. intros [= <- <- <- <-].
    split; [by apply tx_conflict_None|done].
  - intros tx a w e tx' a' w'. rewrite save_in_tx_spec.
    destruct (tx_conflict _ _) eqn:E; [|done]. by intros [= <- <- <- <-].
  - done.
  - by intros tx m w u tx' w' [= <- <- <-].
  - intros tx w u w'. destruct (uow_commit_spec tx w) as (w1 & -> & Hv & _). by intros [= <- <-].
  - intros tx w e w'. destruct (uow_commit_spec tx w) as (w1 & -> & _). done.
  - intros tx w. apply uow_view_lset.
Qed.

Lemma uow_env_frame w : uow (utc_now w).2 = uow w /\ uow (uuid_now_v7 w).2 = uow w.
Proof. unfold uow. split; [apply utc_now_frame|apply uuid_now_v7_frame]. Qed.

(** Mapping the events touches no aggregate and fails only with an event's own
    error. *)
Lemma map_pending_uow (map_event : Ev -> M W (result Message string)) evs w :
  (forall ev, keeps (InMemoryUnitOfWork Id A) (map_event ev)) ->
  exists r w', map_pending (RE := InMemoryUnitOfWorkError) (SE := InMemoryUnitOfWorkError)
                 map_event evs w = (r, w')
    /\ uow w' = uow w
    /\ forall e, r = Err e -> exists ev w1 x, e = SEMapping x /\ ev ∈ evs
                                              /\ (map_event ev w1).1 = Err x.
Proof.
  intros Hk. revert w. induction evs as [|ev evs IH]; intros w; cbn [map_pending].
  { by exists (Ok []), w. }
  unfold bind. pose proof (Hk ev w) as F1. fold (uow w) in F1.
  destruct (map_event ev w) as [[message|x] w1] eqn:Em; cbn in F1.
  - unfold OutboxMessage_new, bind, ret. destruct (uow_env_frame w1) as [F2 _].
    destruct (utc_now w1) as [now w2]. destruct (uow_env_frame w2) as [_ F3].
    destruct (uuid_now_v7 w2) as [id w3]. cbn in F2, F3. unfold tbind.
    destruct (IH w3) as (r & w' & -> & F4 & He).
    assert (Hu : uow w' = uow w) by (rewrite F4, F3, F2; done).
    destruct r as [ms|e]; eexists _, w'; (split; [done|split; [done|]]); [done|].
    intros e' [= <-]. destruct (He e eq_refl) as (ev' & w'' & x & -> & Hin & Hx).
    exists ev', w'', x. split_and!; [done|by right|done].
  - exists (Err (SEMapping x)), w1. split_and!; [done|done|]. intros e [= <-].
    exists ev, w, x. split_and!; [done|left|by rewrite Em].
Qed.

Lemma insert_all_uow (tx : InMemoryTx A) ms (w : W) :
  insert_all (RE := InMemoryUnitOfWorkError) tx ms w
  = (Ok tt, mkInMemoryTx (staged_aggregate tx) (staged_outbox tx ++ ms), w).
Proof.
  revert tx. induction ms as [|m ms IH]; intros tx; cbn.
  - rewrite app_nil_r. by destruct tx.
  - unfold bind. cbn. rewrite IH. cbn. by rewrite <- app_assoc.
Qed.

(** One transaction, from the free mutex to the free mutex. *)
Lemma in_transaction_uow tx (a : A) ms (w : W) :
  exists r a' w', in_transaction (RE := InMemoryUnitOfWorkError)
                    (SE := InMemoryUnitOfWorkError) tx a ms w = (r, a', w')
    /\ locked (uow w') = false
    /\ match tx_conflict (version a) (version <$> aggregates (uow w) !! agg_id a) with
       | Some c => r = Err (SERepository c)
       | None => r = Ok tt
       end.
Proof.
  unfold in_transaction, bind, ret. cbn [save_in_tx InMemoryUnitOfWork_transactional].
  rewrite save_in_tx_spec. destruct (tx_conflict _ _) as [c|].
  - eexists _, _, _. split_and!; [done| |done]. unfold uow. cbn. by rewrite lget_lset.
  - rewrite insert_all_uow. cbn [tx_commit InMemoryUnitOfWork_store staged_aggregate].
    set (tx' := mkInMemoryTx _ _). destruct (uow_commit_spec tx' w) as (w' & -> & _ & Hl).
    eexists _, _, _. split_and!; [done|done|done].
Qed.

Lemma tx_conflict_Some aggs (a : A) c :
  tx_conflict (E := InMemoryUnitOfWorkError) (version a) (version <$> aggs !! agg_id a) = Some c ->
  c = ConcurrencyConflict (version a) (version <$> aggs !! agg_id a) /\ ~ version_ok aggs a.
Proof.
  unfold version_ok. destruct (aggs !! agg_id a) as [b|]; cbn.
  - destruct (Z.eqb_spec (version b) (version a)); cbn; naive_solver.
  - destruct (Z.eqb_spec (version a) 0); cbn; naive_solver.
Qed.
End InMemoryUowLaws.

(** ** Concurrent tasks on one in-memory unit of work

    Any number of tasks call the operations of one unit of work; each call is
    atomic and their order is arbitrary.  [us_open] are the live transaction
    handles and [us_written] logs, in order, every write of an aggregate that
    became visible, with its version.  [plain] says whether tasks may also
    call [Repository::save]. *)

Section Interleaving.
Context {W Id A Ev : Type} `{Countable Id, !AggregateRoot A Id Ev, !AggregateRootLaws AggregateRoot0,
  !Env W, !Chrono, !MapIter Uuid OutboxMessage,
  !Lens W (InMemoryUnitOfWork Id A), !LensLaws W (InMemoryUnitOfWork Id A),
  !Lens W InMemoryOutbox, !LensLaws W InMemoryOutbox,
  !LensDisjoint W (InMemoryUnitOfWork Id A) InMemoryOutbox,
  !LensDisjoint W InMemoryOutbox (InMemoryUnitOfWork Id A)}.

Record UowState := mkUowState {
  us_world : W;
  us_open : list (InMemoryTx A);
  us_written : list (Id * Z);
}.

Definition written_by (o : option A) : list (Id * Z) :=
  match o with Some a => [(agg_id a, version a)] | None => [] end.

Inductive uow_step (plain : bool) : UowState -> UowState -> Prop :=
| step_begin s op wr tx s' :
    InMemoryUnitOfWork_begin s = (Some (Ok tx), s') ->
    uow_step plain (mkUowState s op wr) (mkUowState s' (tx :: op) wr)
| step_save_in_tx s op1 tx op2 wr a r tx' a' s' :
    InMemoryUnitOfWork_save_in_tx tx a s = (r, tx', a', s') ->
    uow_step plain (mkUowState s (op1 ++ tx :: op2) wr) (mkUowState s' (op1 ++ tx' :: op2) wr)
| step_insert_in_tx s op1 tx op2 wr m r tx' s' :
    InMemoryUnitOfWork_insert_outbox_in_tx tx m s = (r, tx', s') ->
    uow_step plain (mkUowState s (op1 ++ tx :: op2) wr) (mkUowState s' (op1 ++ tx' :: op2) wr)
| step_commit s op1 tx op2 wr r s' :
    InMemoryUnitOfWork_commit tx s = (r, s') ->
    uow_step plain (mkUowState s (op1 ++ tx :: op2) wr)
      (mkUowState s' (op1 ++ op2) (wr ++ written_by (staged_aggregate tx)))
| step_drop s op1 tx op2 wr s' :
    InMemoryUnitOfWork_drop tx s = (tt, s') ->
    uow_step plain (mkUowState s (op1 ++ tx :: op2) wr) (mkUowState s' (op1 ++ op2) wr)
| step_plain_save s op wr a r a' s' :
    plain = true -> InMemoryUnitOfWork_save a s = (r, a', s') ->
    uow_step plain (mkUowState s op wr)
      (mkUowState s' op (wr ++ (if is_ok r then written_by (Some a') else []))).

(** No aggregates, no transaction. *)
Definition uow_start (w : W) : UowState := mkUowState w [] [].

(** The versions written for one aggregate, in order. *)
Definition versions_of (id : Id) (wr : list (Id * Z)) : list Z :=
  (filter (fun e => e.1 = id) wr).*2.

Lemma versions_of_app id wr wr' : versions_of id (wr ++ wr') = versions_of id wr ++ versions_of id wr'.
Proof. unfold versions_of. by rewrite filter_app, fmap_app. Qed.

Lemma versions_of_written id (a : A) :
  versions_of id (written_by (Some a)) = if decide (agg_id a = id) then [version a] else [].
Proof.
  unfold versions_of, written_by. rewrite filter_cons. cbn.
  case_decide; by destruct (decide (agg_id a = id)).
Qed.

Definition stored_version (aggs : gmap Id A) (id : Id) : Z :=
  default 0 (version <$> aggs !! id).

(** Every aggregate was written at versions 1, 2, 3, ..., the last being the
    stored one; the mutex is held by the one open transaction, if any, and
    what it staged is the successor of what is stored. *)
Definition serial_inv (n : nat) (st : UowState) : Prop :=
  (length (us_written st) <= n)%nat
  /\ (forall id, versions_of id (us_written st)
                 = seqZ 1 (stored_version (aggregates (uow (us_world st))) id))
  /\ (forall id, 0 <= stored_version (aggregates (uow (us_world st))) id)
  /\ match us_open st with
     | [] => locked (uow (us_world st)) = false
     | [tx] => locked (uow (us_world st)) = true
               /\ forall a, staged_aggregate tx = Some a ->
                  version a = stored_version (aggregates (uow (us_world st))) (agg_id a) + 1
     | _ => False
     end.

Lemma version_ok_stored aggs (a : A) :
  version_ok aggs a -> version a = stored_version aggs (agg_id a).
Proof. unfold version_ok, stored_version. by destruct (aggs !! agg_id a). Qed.

Lemma stored_version_bound n st id :
  serial_inv n st -> 0 <= stored_version (aggregates (uow (us_world st))) id <= Z.of_nat n.
Proof.
  intros (Hn & Hv & Hpos & _). specialize (Hv id). specialize (Hpos id). split; [done|].
  assert (Hl : (length (versions_of id (us_written st)) <= length (us_written st))%nat).
  { unfold versions_of. rewrite length_fmap. apply length_filter. }
  rewrite Hv, length_seqZ in Hl. lia.
Qed.

Lemma stored_version_insert aggs (a : A) id :
  stored_version (<[agg_id a := a]> aggs) id
  = if decide (agg_id a = id) then version a else stored_version aggs id.
Proof.
  unfold stored_version. case_decide as E; [subst id; by rewrite lookup_insert_eq|].
  by rewrite lookup_insert_ne.
Qed.

(** The one handle in the list. *)
Lemma one_handle (op1 op2 : list (InMemoryTx A)) tx (P : Prop) (Q : InMemoryTx A -> Prop) :
  match op1 ++ tx :: op2 with [] => P | [tx'] => Q tx' | _ => False end ->
  op1 = [] /\ op2 = [] /\ Q tx.
Proof. destruct op1 as [|? [|]], op2; cbn; naive_solver. Qed.

Lemma serial_inv_mono n st : serial_inv n st -> serial_inv (S n) st.
Proof. intros (? & ?). split; [lia|done]. Qed.

Lemma uow_drop_spec tx w :
  exists w', InMemoryUnitOfWork_drop tx w = (tt, w')
    /\ uow w' = mkInMemoryUnitOfWork (aggregates (uow w)) false.
Proof. eexists. split; [done|]. unfold uow. by rewrite lget_lset. Qed.

(** Writing the successor of what is stored keeps the log a count. *)
Lemma serial_write n st (a : A) aggs' :
  serial_inv n st ->
  version a = stored_version (aggregates (uow (us_world st))) (agg_id a) + 1 ->
  aggs' = <[agg_id a := a]> (aggregates (uow (us_world st))) ->
  (forall id, versions_of id (us_written st ++ written_by (Some a))
              = seqZ 1 (stored_version aggs' id))
  /\ forall id, 0 <= stored_version aggs' id.
Proof.
  intros (Hn & Hv & Hpos & _) Ha ->. split; intros id; rewrite stored_version_insert.
  - rewrite versions_of_app, versions_of_written, Hv. case_decide as E; [|apply app_nil_r].
    subst id. specialize (Hpos (agg_id a)). rewrite Ha.
    rewrite <- (Z2Nat.id (stored_version _ _)) by done. rewrite Z.add_1_r, <- Nat2Z.inj_succ.
    rewrite seqZ_S. f_equal. f_equal. lia.
  - specialize (Hpos id). case_decide as E; [|done]. subst id. lia.
Qed.

Lemma serial_inv_step n st st' :
  Z.of_nat (S n) <= u64_max -> serial_inv n st -> uow_step false st st' -> serial_inv (S n) st'.
Proof.
  intros Hn Hinv Hstep. pose proof (fun id => stored_version_bound n st id Hinv) as Hb.
  pose proof Hinv as (Hlen & Hv & Hpos & Hopen).
  destruct Hstep as [s op wr tx s' E|s op1 tx op2 wr a r tx' a' s' E|s op1 tx op2 wr m r tx' s' E
    |s op1 tx op2 wr r s' E|s op1 tx op2 wr s' E|]; cbn in *; [..|done].
  - unfold InMemoryUnitOfWork_begin, bind, mget, mput, ret in E. fold (uow s) in E.
    destruct (locked (uow s)) eqn:El; [done|]. injection E as <- <-.
    destruct op as [|? [|]]; [|naive_solver|done].
    split_and!; cbn; [lia|..]; unfold uow at 1; rewrite lget_lset; cbn; [done..|].
    split; [done|]. naive_solver.
  - apply one_handle in Hopen as (-> & -> & Hlk & Hst). cbn. rewrite save_in_tx_spec in E.
    destruct (tx_conflict _ _) eqn:Ec; injection E as <- <- <- <-.
    { by apply serial_inv_mono. }
    split_and!; cbn; [lia|done|done|]. split; [done|]. intros b [= <-]. apply tx_conflict_None, version_ok_stored in Ec.
    unfold snapshot_without_pending_events, bumped. autorewrite with agg. rewrite Ec.
    unfold u64_add. apply Z.mod_small. specialize (Hb (agg_id a)). unfold u64_max in Hn. lia.
  - apply one_handle in Hopen as (-> & -> & Hlk & Hst). injection E as <- <- <-.
    split_and!; cbn; [lia|done|done|done].
  - apply one_handle in Hopen as (-> & -> & Hlk & Hst).
    destruct (uow_commit_spec tx s) as (w' & Ec & Hview & Hunl). rewrite Ec in E.
    injection E as <- <-. injection Hview as Haggs _. cbn in Haggs.
    unfold serial_inv. cbn. rewrite Haggs.
    destruct (staged_aggregate tx) as [a|] eqn:Ea; cbn.
    + destruct (serial_write n _ a _ Hinv (Hst a eq_refl) eq_refl) as [H1 H2].
      rewrite length_app. cbn. split_and!; [lia|done|done|done].
    + rewrite app_nil_r. split_and!; [lia|done|done|done].
  - apply one_handle in Hopen as (-> & -> & Hlk & Hst).
    destruct (uow_drop_spec tx s) as (w' & Ed & Hu). rewrite Ed in E. injection E as <-.
    unfold serial_inv. cbn. rewrite Hu. cbn. split_and!; [lia|done|done|done].
Qed.

Lemma serial_inv_reachable n w st :
  Z.of_nat n <= u64_max -> uow w = InMemoryUnitOfWork_new ->
  nsteps (uow_step false) n (uow_start w) st -> serial_inv n st.
Proof.
  intros Hn Hw. revert st Hn. induction n as [|n IH]; intros st Hn Hs.
  - inversion Hs; subst. unfold serial_inv, uow_start, stored_version. cbn.
    rewrite Hw. cbn. split_and!; [lia|..|done]; intros id; by rewrite lookup_empty.
  - apply nsteps_inv_r in Hs as (mid & Hs & Hstep). eapply serial_inv_step; [done| |done].
    apply IH; [lia|done].
Qed.
End Interleaving.

(** ** Properties *)

(** C8: saving and enqueueing are one: over any store and repository that
    honour the transactional contract, when [save_and_enqueue_in] answers [Ok]
    the aggregate was at the stored version, it is now stored one version
    further without pending events, and the outbox gained exactly one fresh
    pending message per pending event, in order; the caller's aggregate is
    what is stored.  When it answers an error, stored aggregates and outbox
    are untouched and the caller's aggregate keeps its version and every
    pending event. *)
Theorem save_and_enqueue_atomic {W Id A Ev Tx RE SE : Type}
  `{Countable Id, !AggregateRoot A Id Ev, !AggregateRootLaws AggregateRoot0, !Env W,
    !TransactionalStore W Tx SE, !TransactionalRepository W A Tx RE}
  (view : W -> gmap Id A * gmap Uuid OutboxMessage)
  (staged : Tx -> option A * list OutboxMessage)
  (Hlaws : TransactionLaws W Tx RE SE view staged)
  (map_event : Ev -> M W (result Message string))
  (Hmap : forall ev w, view (map_event ev w).2 = view w)
  (a a' : A) (w w' : W) (r : result unit (SaveAndEnqueueError RE SE))
  (Hrun : save_and_enqueue_in map_event a w = (Some (r, a'), w')) :
  match r with
  | Ok _ =>
      version_ok (view w).1 a /\ a' = snapshot_without_pending_events (bumped a)
      /\ exists ms, Forall2 (enqueued_for map_event) (pending_events a) ms
                    /\ view w' = install (Some a', ms) (view w)
  | Err _ =>
      view w' = view w /\ agg_id a' = agg_id a /\ version a' = version a
      /\ pending_events a' = pending_events a
  end.
Proof.
  pose proof (save_and_enqueue_spec view staged map_event Hmap a a' w w' r Hrun) as Hs.
  destruct r; [|done]. destruct Hs as (? & ? & ms & _ & ? & ?). eauto.
Qed.

(** The in-memory unit of work always answers and never keeps its lock:
    started while no transaction is open, [save_and_enqueue_in] returns and
    leaves the mutex free; it succeeds only at the stored version, and fails
    only for an event that cannot be mapped or with a conflict naming the
    expected and the stored version. *)
Theorem uow_save_answers {W Id A Ev : Type}
  `{Countable Id, !AggregateRoot A Id Ev, !AggregateRootLaws AggregateRoot0, !Env W, !Chrono,
    !MapIter Uuid OutboxMessage, !Lens W (InMemoryUnitOfWork Id A),
    !LensLaws W (InMemoryUnitOfWork Id A), !EnvFrame W (InMemoryUnitOfWork Id A),
    !Lens W InMemoryOutbox, !LensLaws W InMemoryOutbox, !EnvFrame W InMemoryOutbox,
    !LensDisjoint W (InMemoryUnitOfWork Id A) InMemoryOutbox,
    !LensDisjoint W InMemoryOutbox (InMemoryUnitOfWork Id A)}
  (map_event : Ev -> M W (result Message string)) (a : A) (w : W)
  (Hmap : forall ev, keeps (InMemoryUnitOfWork Id A) (map_event ev))
  (Hfree : locked (uow w) = false) :
  exists r a' w',
    save_and_enqueue_in (RE := InMemoryUnitOfWorkError) (SE := InMemoryUnitOfWorkError)
      map_event a w = (Some (r, a'), w')
    /\ locked (uow w') = false
    /\ match r with
       | Ok _ => version_ok (aggregates (uow w)) a
       | Err (SERepository (ConcurrencyConflict expected actual)) =>
           expected = version a /\ actual = version <$> aggregates (uow w) !! agg_id a
           /\ ~ version_ok (aggregates (uow w)) a
       | Err (SEMapping e) =>
           exists ev w1, ev ∈ pending_events a /\ (map_event ev w1).1 = Err e
       | _ => False
       end.
Proof.
  unfold save_and_enqueue_in, bind at 1, pbind.
  destruct (map_pending_uow map_event (pending_events a) w Hmap) as (mapped & w1 & -> & F1 & Hm).
  destruct mapped as [ms|e].
  2:{ destruct (Hm e eq_refl) as (ev & w0 & x & -> & Hin & Hx).
      exists (Err (SEMapping x)), a, w1. split_and!; [done|by rewrite F1|eauto]. }
  cbn [tx_begin InMemoryUnitOfWork_store]. unfold InMemoryUnitOfWork_begin, bind at 1, mget.
  change (lget w1) with (uow w1). rewrite F1, Hfree. unfold bind at 1, mput, ret.
  set (w2 := lset _ w1). unfold bind.
  destruct (in_transaction_uow (mkInMemoryTx None []) a ms w2) as (r & a1 & w3 & -> & Hl & Hr).
  assert (Hw2 : aggregates (uow w2) = aggregates (uow w)).
  { unfold w2, uow at 1. by rewrite lget_lset. }
  rewrite Hw2 in Hr. destruct (tx_conflict _ _) as [c|] eqn:Ec; subst r.
  - apply tx_conflict_Some in Ec as [-> Hnv]. eexists _, _, w3. split_and!; [done|done|].
    cbn. split_and!; done.
  - destruct (drain_events a1) as [es a2]. exists (Ok tt), a2, w3. split_and!; [done|done|].
    by apply tx_conflict_None.
Qed.

(** C9: transactions lose no update: however any number of tasks interleave the
    calls of their transactions on one in-memory unit of work (fewer than
    [2^64] calls), the versions written for each aggregate are 1, 2, 3, ...,
    each once and in order, ending at the stored one; at most one transaction
    is open at a time. *)
Theorem transactions_serialise {W Id A Ev : Type}
  `{Countable Id, !AggregateRoot A Id Ev, !AggregateRootLaws AggregateRoot0, !Env W, !Chrono,
    !MapIter Uuid OutboxMessage, !Lens W (InMemoryUnitOfWork Id A),
    !LensLaws W (InMemoryUnitOfWork Id A), !Lens W InMemoryOutbox, !LensLaws W InMemoryOutbox,
    !LensDisjoint W (InMemoryUnitOfWork Id A) InMemoryOutbox,
    !LensDisjoint W InMemoryOutbox (InMemoryUnitOfWork Id A)}
  (n : nat) (w : W) (st : UowState (W := W) (A := A))
  (Hn : Z.of_nat n <= u64_max) (Hfresh : uow w = InMemoryUnitOfWork_new)
  (Hsteps : nsteps (uow_step false) n (uow_start w) st) :
  (forall id, versions_of id (us_written st)
              = seqZ 1 (stored_version (aggregates (uow (us_world st))) id))
  /\ (length (us_open st) <= 1)%nat.
Proof.
  destruct (serial_inv_reachable n w st Hn Hfresh Hsteps) as (_ & Hv & _ & Ho).
  split; [done|]. destruct (us_open st) as [|? [|]]; cbn; [lia|lia|done].
Qed.

(** A cart: a number as its state, numbers as its events. *)
Abbreviation Cart := (PlainAggregate Z Z Z) (only parsing).

Definition cart (state version : Z) (events : list Z) : Cart :=
  mkPlain 5 state version (mkAggregateEvents events).

Definition uow_world : World (InMemoryUnitOfWork Z Cart * InMemoryOutbox) :=
  mkWorld env_start (InMemoryUnitOfWork_new, InMemoryOutbox_default).

Definition cart_event (e : Z) : M (World (InMemoryUnitOfWork Z Cart * InMemoryOutbox))
  (result Message string) :=
  do! id <- uuid_now_v7;
  ret (if e <? 0 then Err "negative" else Ok (Message_new id "carts" (pretty e) "text/plain")).

(** The plain [Repository::save] of the in-memory unit of work breaks that
    guarantee: it does not take the transactions' mutex, so it can succeed
    between the version check of [save_in_tx] and the [commit].  Both writers
    are told [Ok], version 1 is written twice, and what the plain save stored
    is gone. *)
Theorem plain_save_races_transaction :
  exists st : UowState,
    rtc (uow_step true) (uow_start uow_world) st
    /\ versions_of 5 (us_written st) = [1; 1]
    /\ us_open st = []
    /\ aggregates (uow (us_world st)) !! 5 = Some (cart 10 1 []).
Proof.
  eexists. split.
  - eapply rtc_l; [by eapply step_begin|].
    eapply rtc_l; [by eapply (step_save_in_tx true _ [] _ [] _ (cart 10 0 []))|].
    eapply rtc_l; [by eapply (step_plain_save true _ _ _ (cart 20 0 []))|].
    eapply rtc_l; [by eapply (step_commit true _ [] _ [])|]. apply rtc_refl.
  - vm_compute. done.
Qed.

(** ** Witnesses *)

Lemma save_and_enqueue_atomic_witness :
  let run := save_and_enqueue_in (RE := InMemoryUnitOfWorkError) (SE := InMemoryUnitOfWorkError)
               cart_event (cart 10 0 [3; 4]) uow_world in
  run.1 = Some (Ok tt, cart 10 1 [])
  /\ version_ok (uow_view uow_world).1 (cart 10 0 [3; 4])
  /\ cart 10 1 [] = snapshot_without_pending_events (bumped (cart 10 0 [3; 4]))
  /\ exists ms, Forall2 (enqueued_for cart_event) [3; 4] ms
       /\ uow_view run.2 = install (Some (cart 10 1 []), ms) (uow_view uow_world).
Proof.
  split; [vm_compute; reflexivity|].
  apply (save_and_enqueue_atomic uow_view uow_staged InMemoryUnitOfWork_laws cart_event
           ltac:(intros ev []; reflexivity) (cart 10 0 [3; 4]) (cart 10 1 []) uow_world _ (Ok tt)).
  vm_compute. reflexivity.
Defined.

Lemma uow_save_answers_witness :
  exists r a' w',
    save_and_enqueue_in (RE := InMemoryUnitOfWorkError) (SE := InMemoryUnitOfWorkError)
      cart_event (cart 10 2 [3]) uow_world = (Some (r, a'), w')
    /\ locked (uow w') = false.
Proof.
  destruct (uow_save_answers cart_event (cart 10 2 [3]) uow_world) as (r & a' & w' & Hr & Hl & _);
    [intros ev []; reflexivity|reflexivity|].
  exists r, a', w'. split; [exact Hr|exact Hl].
Defined.

Definition serial_sample
  : UowState (W := World (InMemoryUnitOfWork Z Cart * InMemoryOutbox)) (Id := Z) (A := Cart) :=
  mkUowState (mkWorld env_start (mkInMemoryUnitOfWork {[5 := cart 10 1 []]} false,
                                 InMemoryOutbox_default)) [] [(5, 1)].

Lemma transactions_serialise_witness :
  (forall id, versions_of id (us_written serial_sample)
              = seqZ 1 (stored_version (aggregates (uow (us_world serial_sample))) id))
  /\ (length (us_open serial_sample) <= 1)%nat.
Proof.
  apply (transactions_serialise 3 uow_world serial_sample).
  - vm_compute. discriminate.
  - reflexivity.
  - eapply nsteps_l; [by eapply step_begin|].
    eapply nsteps_l; [by eapply (step_save_in_tx false _ [] _ [] _ (cart 10 0 [3]))|].
    eapply nsteps_l; [by eapply (step_commit false _ [] _ [])|]. apply nsteps_O.
Defined.
