(* ===== verification/AggregateStore.v ===== *)
(** * Application services: saving aggregates and delivering their events

    Models crates/pharos-app/src: error.rs ([ApplicationError]), service.rs
    ([save_and_publish], [republish_pending], [save_and_enqueue]),
    aggregate_store.rs ([StoreError], [AggregateStore]), default_store.rs
    ([DefaultAggregateStore]) and the [MessageEnricher] of enrichment.rs. *)

From S2P Require Import Prelude Core Messaging Outbox EventBus UnitOfWork.
Local Open Scope Z_scope.

(** ** Displayed errors *)

Definition OutboxError_to_string (e : OutboxError) : string :=
  match e with
  | OutboxNotFound id => "outbox message not found: " +:+ uuid_to_string id
  | OutboxStorage e => "outbox storage failed: " +:+ e
  end.

Definition CascadeError_to_string (e : CascadeError) : string :=
  "cascaded command '" +:+ command_name e +:+ "' failed: " +:+ cascade_source e.

Definition EventBusError_to_string (e : EventBusError) : string :=
  match e with
  | HandlerError ty source => "event handler failed for '" +:+ ty +:+ "': " +:+ source
  | HandlerErrors ty errors =>
      pretty (length errors) +:+ " event handlers failed for '" +:+ ty +:+ "'"
  | DecodeError topic source =>
      "failed to decode payload for topic '" +:+ topic +:+ "': " +:+ source
  | CascadeFailed ty source =>
      "cascaded command failed for '" +:+ ty +:+ "': " +:+ CascadeError_to_string source
  end.

(** ** [ApplicationError] *)

Inductive ApplicationError :=
| AppDomain (e : DomainError)
| AppRepository (e : string)
| AppConflict (expected : Z) (actual : option Z)
| AppEventBus (e : EventBusError)
| AppOutbox (e : OutboxError).

Definition ApplicationError_to_string (e : ApplicationError) : string :=
  match e with
  | AppDomain e => DomainError_to_string e
  | AppRepository e => "repository failure: " +:+ e
  | AppConflict expected actual => conflict_text expected actual
  | AppEventBus e => EventBusError_to_string e
  | AppOutbox e => OutboxError_to_string e
  end.

Definition ApplicationError_kind (e : ApplicationError) : ErrorKind :=
  match e with
  | AppDomain e => kind e
  | AppConflict _ _ => KConflict
  | AppRepository _ => KInternal
  | AppEventBus _ => KInternal
  | AppOutbox _ => KInternal
  end.

Definition ApplicationError_public_message (e : ApplicationError) : string :=
  match e with
  | AppDomain e => public_message e
  | AppConflict _ _ => ApplicationError_to_string e
  | _ => "internal application error"
  end.

#[export] Instance ApplicationError_classified : ClassifiedError ApplicationError := {
  display := ApplicationError_to_string;
  kind := ApplicationError_kind;
  public_message := ApplicationError_public_message;
}.

(** ** [StoreError] *)

Inductive StoreError :=
| StNotFound
| StConflict (expected : Z) (actual : option Z)
| StStorage (e : string).

Definition StoreError_to_string (e : StoreError) : string :=
  match e with
  | StNotFound => "aggregate not found"
  | StConflict expected actual => conflict_text expected actual
  | StStorage e => "aggregate store failed: " +:+ e
  end.

Definition StoreError_kind (e : StoreError) : ErrorKind :=
  match e with
  | StNotFound => KNotFound
  | StConflict _ _ => KConflict
  | StStorage _ => KInternal
  end.

Definition StoreError_public_message (e : StoreError) : string :=
  match e with
  | StNotFound | StConflict _ _ => StoreError_to_string e
  | StStorage _ => "internal storage error"
  end.

#[export] Instance StoreError_classified : ClassifiedError StoreError := {
  display := StoreError_to_string;
  kind := StoreError_kind;
  public_message := StoreError_public_message;
}.

Definition StoreError_from_application (e : ApplicationError) : StoreError :=
  match e with
  | AppConflict expected actual => StConflict expected actual
  | other => StStorage (ApplicationError_to_string other)
  end.

Definition StoreError_from_repository {E} (display_e : E -> string) (e : RepositoryError E)
  : StoreError :=
  match e with
  | ConcurrencyConflict expected actual => StConflict expected actual
  | Storage e => StStorage (display_e e)
  end.

(** ** Services (service.rs) *)

Section Services.
Context {W T A Id E : Type} `{!EventTypes T, Countable T} {t : T}
  `{!AggregateRoot A Id (carrier t), !Repository W A Id E}.
Variable display_e : E -> string.

Definition map_repository_error (e : RepositoryError E) : ApplicationError :=
  match e with
  | ConcurrencyConflict expected actual => AppConflict expected actual
  | Storage e => AppRepository (display_e e)
  end.

(** [publish_batch]: what did not get published goes back to the
    aggregate. *)
Fixpoint publish_events (bus : EventBus W T) (aggregate : A) (events : list (carrier t))
  : M W (option (result unit ApplicationError * A)) :=
  match events with
  | [] => ret (Some (Ok tt, aggregate))
  | event :: remaining =>
      live! r <- EventBus_publish bus t event;
      match r with
      | Err error =>
          ret (Some (Err (AppEventBus error), restore_events (event :: remaining) aggregate))
      | Ok _ => publish_events bus aggregate remaining
      end
  end.

Definition save_and_publish (bus : EventBus W T) (aggregate : A)
  : M W (option (result unit ApplicationError * A)) :=
  let events := pending_events aggregate in
  do! saved <- repo_save aggregate;
  let '(r, aggregate) := saved in
  match r with
  | Err e => ret (Some (Err (map_repository_error e), aggregate))
  | Ok _ =>
      let '(_, aggregate) := drain_events aggregate in
      publish_events bus aggregate events
  end.

Definition republish_pending (bus : EventBus W T) (aggregate : A)
  : M W (option (result unit ApplicationError * A)) :=
  let '(events, aggregate) := drain_events aggregate in
  publish_events bus aggregate events.

Section Enqueue.
Context `{!Env W, !OutboxRepository W}.
Variable map_event : carrier t -> M W Message.

Fixpoint enqueue_events (aggregate : A) (events : list (carrier t))
  : M W (result unit ApplicationError * A) :=
  match events with
  | [] => ret (Ok tt, aggregate)
  | event :: remaining =>
      do! message <- map_event event;
      do! m <- OutboxMessage_new message;
      do! r <- outbox_insert m;
      match r with
      | Err error => ret (Err (AppOutbox error), restore_events (event :: remaining) aggregate)
      | Ok _ => enqueue_events aggregate remaining
      end
  end.

Definition save_and_enqueue (aggregate : A) : M W (result unit ApplicationError * A) :=
  let events := pending_events aggregate in
  do! saved <- repo_save aggregate;
  let '(r, aggregate) := saved in
  match r with
  | Err e => ret (Err (map_repository_error e), aggregate)
  | Ok _ =>
      let '(_, aggregate) := drain_events aggregate in
      enqueue_events aggregate events
  end.
End Enqueue.
End Services.

(** ** [DefaultAggregateStore] *)

(** [OutboxSignal::notify], Tokio's notification. *)
Class OutboxSignal (W : Type) : Type := { signal_notify : M W unit }.

Inductive DeliveryMode :=
| Inline
| OutboxDelivery (topic : string) (signal : bool).

Section DefaultStore.
Context {W T A Id RE Tx TE SE : Type} `{!EventTypes T, Countable T, !Serde T} {t : T}
  `{!AggregateRoot A Id (carrier t), !Env W, !Repository W A Id RE,
    !TransactionalStore W Tx SE, !TransactionalRepository W A Tx TE, !OutboxSignal W}.
Variable display_re : RE -> string.
Variable display_te : TE -> string.
Variable display_se : SE -> string.

(** An enricher changes the message in place; it may read task-local
    state. *)
Record DefaultAggregateStore := mkDefaultAggregateStore {
  das_bus : EventBus W T;
  das_delivery : DeliveryMode;
  das_enrichers : list (Message -> M W Message);
}.

Definition DefaultAggregateStore_new (bus : EventBus W T) : DefaultAggregateStore :=
  mkDefaultAggregateStore bus Inline [].

Definition with_outbox (topic : string) (signal : bool) (s : DefaultAggregateStore)
  : DefaultAggregateStore :=
  mkDefaultAggregateStore (das_bus s) (OutboxDelivery topic signal) (das_enrichers s).

Definition with_enricher (enricher : Message -> M W Message) (s : DefaultAggregateStore)
  : DefaultAggregateStore :=
  mkDefaultAggregateStore (das_bus s) (das_delivery s) (das_enrichers s ++ [enricher]).

Fixpoint enrich_all (enrichers : list (Message -> M W Message)) (message : Message)
  : M W Message :=
  match enrichers with
  | [] => ret message
  | enricher :: rest => do! message <- enricher message; enrich_all rest message
  end.

Definition store_map_event (s : DefaultAggregateStore) (topic : string) (event : carrier t)
  : M W (result Message string) :=
  match to_vec t event with
  | Err e => ret (Err e)
  | Ok payload =>
      do! id <- uuid_now_v7;
      do! message <-
        enrich_all (das_enrichers s)
          (Message_with_header "event_type" (event_type t event)
             (Message_with_key (aggregate_id t event)
                (Message_new id topic payload "application/json")));
      ret (Ok message)
  end.

Definition SaveAndEnqueueError_to_string (e : SaveAndEnqueueError TE SE) : string :=
  match e with
  | SERepository e => RepositoryError_to_string display_te e
  | SEStore e => display_se e
  | SEMapping e => "event mapping failed: " +:+ e
  end.

Definition from_enqueue_error (e : SaveAndEnqueueError TE SE) : StoreError :=
  match e with
  | SERepository (ConcurrencyConflict expected actual) => StConflict expected actual
  | other => StStorage (SaveAndEnqueueError_to_string other)
  end.

Definition store_find (id : Id) : M W (result (option A) StoreError) :=
  mmap (map_err (fun e => StStorage (display_re e))) (find_by_id id).

(** The provided method of [AggregateStore]. *)
Definition store_load (id : Id) : M W (result A StoreError) :=
  try! found <- store_find id; ret (ok_or found StNotFound).

Definition store_save (s : DefaultAggregateStore) (aggregate : A)
  : M W (option (result unit StoreError * A)) :=
  match das_delivery s with
  | Inline =>
      live! saved <- save_and_publish display_re (das_bus s) aggregate;
      ret (Some (map_err StoreError_from_application saved.1, saved.2))
  | OutboxDelivery topic signal =>
      live! saved <- save_and_enqueue_in (store_map_event s topic) aggregate;
      match saved.1 with
      | Err e => ret (Some (Err (from_enqueue_error e), saved.2))
      | Ok _ =>
          do! _ <- (if signal then signal_notify else ret tt);
          ret (Some (Ok tt, saved.2))
      end
  end.
End DefaultStore.

(** ** Publishing the remainder *)

Section Publishing.
Context {W T A Id E : Type} `{!EventTypes T, Countable T} {t : T}
  `{!AggregateRoot A Id (carrier t), !AggregateRootLaws AggregateRoot0, !Repository W A Id E}.
Variable display_e : E -> string.

(** The events [evs] were all published, taking [w] to [w']. *)
Definition published (bus : EventBus W T) (evs : list (carrier t)) (w w' : W) : Prop :=
  exists oks, run_all (EventBus_publish bus t <$> evs) w = (Some oks, w')
              /\ Forall (fun r => r = Ok tt) oks.

Lemma published_cons bus ev evs u w w1 w' :
  EventBus_publish bus t ev w = (Some (Ok u), w1) -> published bus evs w1 w' ->
  published bus (ev :: evs) w w'.
Proof.
  intros Hp (oks & Hr & Hoks). exists (Ok tt :: oks). split; [|by constructor].
  cbn. unfold pbind, ret. rewrite Hp, Hr. by destruct u.
Qed.

Lemma publish_events_spec bus (a : A) evs w r a' w' :
  publish_events bus a evs w = (Some (r, a'), w') ->
  (r = Ok tt /\ a' = a /\ published bus evs w w')
  \/ exists done_ e rest err w1, evs = done_ ++ e :: rest
       /\ published bus done_ w w1 /\ EventBus_publish bus t e w1 = (Some (Err err), w')
       /\ r = Err (AppEventBus err) /\ a' = restore_events (e :: rest) a.
Proof.
  revert w. induction evs as [|ev evs IH]; intros w; cbn [publish_events].
  { intros [= <- <- <-]. left. split_and!; [done|done|]. by exists []. }
  unfold pbind, ret. destruct (EventBus_publish bus t ev w) as [[[u|err]|] w1] eqn:Ep; [| |done].
  - intros Hr. destruct (IH w1 Hr) as [(-> & -> & Hp)|(d & e & rest & err & w2 & -> & Hp & He)].
    + left. split_and!; [done|done|]. by eapply published_cons.
    + right. exists (ev :: d), e, rest, err, w2. split; [done|]. split; [by eapply published_cons|].
      done.
  - intros [= <- <- <-]. right. exists [], ev, evs, err, w. split_and!; [done| |done..]. by exists [].
Qed.

Lemma save_and_publish_failed bus (a a1 : A) err w w1 :
  save_and_publish display_e bus a w = (Some (Err (AppEventBus err), a1), w1) ->
  exists done_ e rest u as_ ws wd,
    repo_save a w = (Ok u, as_, ws) /\ pending_events a = done_ ++ e :: rest
    /\ published bus done_ ws wd /\ EventBus_publish bus t e wd = (Some (Err err), w1)
    /\ a1 = restore_events (e :: rest) (drain_events as_).2.
Proof.
  unfold save_and_publish, bind, ret. destruct (repo_save a w) as [[[u|e] as_] ws].
  - destruct (drain_events as_) as [es ad] eqn:Ed. intros Hp.
    destruct (publish_events_spec _ _ _ _ _ _ _ Hp)
      as [(? & _)|(d & e & rest & err' & wd & Hpend & Hd & He & [= <-] & ->)]; [done|].
    exists d, e, rest, u, as_, ws, wd. rewrite Ed. done.
  - destruct e; by intros [= <- <- <-].
Qed.
End Publishing.

(** Enrichers that leave the routing of a message alone. *)
Definition keeps_routing {W} (f : Message -> M W Message) : Prop :=
  forall m w, topic (f m w).1 = topic m /\ key (f m w).1 = key m /\ payload (f m w).1 = payload m.

Lemma enrich_all_routing {W} (fs : list (Message -> M W Message)) m w :
  Forall keeps_routing fs ->
  topic (enrich_all fs m w).1 = topic m /\ key (enrich_all fs m w).1 = key m
  /\ payload (enrich_all fs m w).1 = payload m.
Proof.
  intros Hfs. revert m w. induction Hfs as [|f fs Hf Hfs IH]; intros m w; [done|].
  cbn. unfold bind. destruct (Hf m w) as (H1 & H2 & H3). destruct (f m w) as [m1 w1]; cbn in *.
  destruct (IH m1 w1) as (-> & -> & ->). done.
Qed.

(** ** Properties *)

(** A retry after a failed publication resumes it: when [save_and_publish]
    fails on the bus, the save had succeeded, every event before the failing
    one was published, and the aggregate holds exactly the failing event and
    those after it at the version the save gave it; a successful
    [republish_pending] then publishes just these, in order, empties the
    buffer and leaves the version alone. *)
Theorem republish_resumes {W T A Id E : Type} `{!EventTypes T, Countable T} {t : T}
  `{!AggregateRoot A Id (carrier t), !AggregateRootLaws AggregateRoot0, !Repository W A Id E}
  (display_e : E -> string) (bus : EventBus W T) (a a1 a2 : A) (err : EventBusError)
  (w w1 w2 : W)
  (Hsave : save_and_publish display_e bus a w = (Some (Err (AppEventBus err), a1), w1))
  (Hretry : republish_pending bus a1 w1 = (Some (Ok tt, a2), w2)) :
  exists done_ e rest u saved ws wd,
    repo_save a w = (Ok u, saved, ws)
    /\ pending_events a = done_ ++ e :: rest
    /\ published bus done_ ws wd
    /\ EventBus_publish bus t e wd = (Some (Err err), w1)
    /\ pending_events a1 = e :: rest /\ version a1 = version saved
    /\ published bus (e :: rest) w1 w2
    /\ pending_events a2 = [] /\ version a2 = version saved.
Proof.
  destruct (save_and_publish_failed _ _ _ _ _ _ _ Hsave)
    as (d & e & rest & u & saved & ws & wd & Hs & Hp & Hd & He & ->).
  exists d, e, rest, u, saved, ws, wd. unfold republish_pending in Hretry.
  set (a1 := restore_events _ _) in *.
  assert (Hpend : pending_events a1 = e :: rest).
  { unfold a1. autorewrite with agg. by rewrite app_nil_r. }
  assert (Hver : version a1 = version saved) by (unfold a1; by autorewrite with agg).
  destruct (drain_events a1) as [es ad] eqn:Ed.
  pose proof (drain_events_fst a1) as H1. pose proof (drain_events_pending a1) as H2.
  pose proof (drain_events_version a1) as H3. rewrite Ed in H1, H2, H3. cbn in H1, H2, H3. subst es.
  rewrite Hpend in Hretry.
  destruct (publish_events_spec _ _ _ _ _ _ _ Hretry) as [(_ & -> & Hpub)|Hbad].
  - split_and!; congruence.
  - naive_solver.
Qed.

(** C21: what a store enqueues the relay publishes: the outbox message of an
    event carries the store's topic and the aggregate's id as key, and, when
    serialisation round trips, the enrichers leave topic, key and payload alone
    and the relay's bus has a decoder of the event's type for that topic, the
    trusted-bytes entry point runs for its payload the handlers that publishing
    the event itself runs, with the same effects and the same answer but for
    the name under which several handler failures are collected. *)
Theorem outbox_relay_roundtrip {W T : Type} `{!EventTypes T, Countable T, !Serde T, !Env W}
  (policy : PublishErrorPolicy) (regs : list (Registration W T)) (t : T)
  (s : DefaultAggregateStore (W := W) (T := T)) (topic_name : string) (e : carrier t)
  (m : Message) (w w' relay : W)
  (Hserde : forall (v : carrier t) bytes, to_vec t v = Ok bytes -> from_slice t bytes = Ok v)
  (Henrich : Forall keeps_routing (das_enrichers s))
  (Htopic : topic_type topic_name regs = Some t)
  (Hmap : store_map_event s topic_name e w = (Ok m, w')) :
  topic m = topic_name /\ key m = Some (aggregate_id t e)
  /\ EventBus_publish_trusted_bytes (bus_of policy regs) (topic m) (payload m) relay
     = mmap (fmap relabel) (EventBus_publish (bus_of policy regs) t e) relay.
Proof.
  unfold store_map_event in Hmap. destruct (to_vec t e) as [bytes|] eqn:Ev; [|done].
  unfold bind, ret in Hmap. destruct (uuid_now_v7 w) as [id w1].
  set (m0 := Message_with_header _ _ _) in Hmap.
  destruct (enrich_all_routing (das_enrichers s) m0 w1 Henrich) as (H1 & H2 & H3).
  destruct (enrich_all (das_enrichers s) m0 w1) as [m1 w2]. cbn in H1, H2, H3.
  injection Hmap as -> ->. split_and!; [done|done|].
  rewrite H1, H3. cbn. rewrite trusted_bytes_decoded, Htopic. by rewrite (Hserde _ _ Ev).
Qed.

(** ** An example application

    One event type, numbers, and a ledger over the in-memory stores. *)

#[local] Instance entry_events : EventTypes unit := {
  carrier _ := Z;
  event_type _ _ := "entry";
  aggregate_id _ _ := "5";
}.

#[local] Instance entry_serde : Serde unit := {
  to_vec _ e := if e =? 7 then Ok "7" else Err "unsupported";
  from_slice _ bytes := if decide (bytes = "7") then Ok 7 else Err "unsupported";
}.

Abbreviation Ledger := (PlainAggregate Z Z Z) (only parsing).

#[local] Instance Ledger_root : AggregateRoot Ledger Z (carrier tt) := PlainAggregate_root.
#[local] Instance Ledger_laws : AggregateRootLaws Ledger_root := PlainAggregate_laws.

Definition ledger (version : Z) (events : list Z) : Ledger :=
  mkPlain 5 100 version (mkAggregateEvents events).

(** A handler that counts its calls and refuses the second one. *)
Record Calls := mkCalls { called : list Z }.

Abbreviation LedgerWorld := (World (InMemoryRepository Z Ledger * Calls)) (only parsing).

Definition flaky_bus : EventBus LedgerWorld unit :=
  EventBus_register tt
    (mkEventHandler (W := LedgerWorld) tt "flaky" (fun e => zoom (W := LedgerWorld) (fun c =>
       (Some (if Nat.eqb (length (called c)) 1 then Err "down" else Ok tt), mkCalls (called c ++ [e])))))
    EventBus_new.

Definition ledger_world : LedgerWorld := mkWorld env_start (mkInMemoryRepository ∅, mkCalls []).

(** The same application on the in-memory unit of work, with a handler that
    always fails. *)
Abbreviation StoreWorld := (World (InMemoryUnitOfWork Z Ledger * InMemoryOutbox)) (only parsing).

#[local] Instance quiet_signal : OutboxSignal StoreWorld := { signal_notify := ret tt }.

Definition broken_bus : EventBus StoreWorld unit :=
  EventBus_register tt (mkEventHandler tt "broken" (fun _ => ret (Some (Err "down")))) EventBus_new.

Definition store_world : StoreWorld :=
  mkWorld env_start (InMemoryUnitOfWork_new, InMemoryOutbox_default).

Definition ledger_save (a : Ledger) : M StoreWorld (option (result unit StoreError * Ledger)) :=
  store_save (t := tt) (Tx := InMemoryTx Ledger) (RE := InMemoryUnitOfWorkError)
    (TE := InMemoryUnitOfWorkError) (SE := InMemoryUnitOfWorkError)
    (fun _ => "infallible") (fun _ => "infallible") (fun _ => "infallible")
    (DefaultAggregateStore_new broken_bus) a.

(** A failed [save] of the store is not always a clean start for a retry:
    with in-process delivery a failing handler makes [save] answer a storage
    error although the aggregate is already stored one version further, and
    calling [save] again, as after any other error, stores it once more, so
    one change leaves the aggregate at version 2. *)
Theorem inline_retry_saves_twice :
  exists a1 w1 a2 w2,
    ledger_save (ledger 0 [3]) store_world
    = (Some (Err (StStorage "event handler failed for 'entry': down"), a1), w1)
    /\ version a1 = 1 /\ pending_events a1 = [3]
    /\ version <$> aggregates (uow w1) !! 5 = Some 1
    /\ ledger_save a1 w1
       = (Some (Err (StStorage "event handler failed for 'entry': down"), a2), w2)
    /\ version a2 = 2 /\ version <$> aggregates (uow w2) !! 5 = Some 2.
Proof.
  eexists _, _, _, _. split; [vm_compute; reflexivity|].
  split; [reflexivity|]. split; [reflexivity|]. split; [vm_compute; reflexivity|].
  split; [vm_compute; reflexivity|]. split; vm_compute; reflexivity.
Qed.

(** ** Witnesses *)

Lemma republish_resumes_witness :
  let first := save_and_publish (t := tt) (E := InMemoryRepoError) (fun _ => "infallible") flaky_bus
                 (ledger 0 [3; 4; 6]) ledger_world in
  let retry := republish_pending (t := tt) flaky_bus (ledger 1 [4; 6]) first.2 in
  first.1 = Some (Err (AppEventBus (HandlerError "entry" "down")), ledger 1 [4; 6])
  /\ retry.1 = Some (Ok tt, ledger 1 [])
  /\ called (lget retry.2) = [3; 4; 4; 6]
  /\ exists done_ e rest, [3; 4; 6] = done_ ++ e :: rest /\ [4; 6] = e :: rest
       /\ published (t := tt) flaky_bus (e :: rest) first.2 retry.2.
Proof.
  split_and!; [vm_compute; reflexivity|vm_compute; reflexivity|vm_compute; reflexivity|].
  set (first := save_and_publish _ _ _ _). set (retry := republish_pending _ _ _).
  destruct (republish_resumes (t := tt) (E := InMemoryRepoError) (fun _ => "infallible") flaky_bus
              (ledger 0 [3; 4; 6]) (ledger 1 [4; 6]) (ledger 1 []) (HandlerError "entry" "down")
              ledger_world first.2 retry.2)
    as (d & e & rest & u & saved & ws & wd & _ & Hp & _ & _ & Hp1 & _ & Hpub & _).
  - vm_compute. reflexivity.
  - vm_compute. reflexivity.
  - exists d, e, rest. split; [exact Hp|]. split; [exact Hp1|exact Hpub].
Defined.

(** The relay's bus: the handler that keeps its calls, and the decoder. *)
Definition relay_registrations : list (Registration LedgerWorld unit) :=
  [RegPlain tt (mkEventHandler (W := LedgerWorld) tt "ledger" (fun e => zoom (W := LedgerWorld) (fun c =>
     (Some (Ok tt), mkCalls (called c ++ [e])))));
   RegDecoder tt "entries"].

Lemma outbox_relay_roundtrip_witness :
  let s := mkDefaultAggregateStore flaky_bus (OutboxDelivery "entries" false) [] in
  let bus := bus_of FailFast relay_registrations in
  exists m w', store_map_event (t := tt) s "entries" 7 ledger_world = (Ok m, w')
    /\ topic m = "entries" /\ key m = Some "5"
    /\ EventBus_publish_trusted_bytes bus (topic m) (payload m) w'
       = mmap (fmap relabel) (EventBus_publish bus tt 7) w'
    /\ called (lget (EventBus_publish_trusted_bytes bus (topic m) (payload m) w').2) = [7].
Proof.
  cbn zeta. eexists _, _. split; [reflexivity|].
  match goal with |- ?A /\ ?B /\ ?C /\ _ => assert (A /\ B /\ C) as (H1 & H2 & H3) end.
  - eapply (outbox_relay_roundtrip FailFast relay_registrations tt
      (mkDefaultAggregateStore flaky_bus (OutboxDelivery "entries" false) []) "entries" 7
      _ ledger_world).
    + intros v bytes. cbn. destruct (Z.eqb_spec v 7) as [->|]; [|discriminate]. by intros [= <-].
    + constructor.
    + reflexivity.
    + reflexivity.
  - split; [exact H1|]. split; [exact H2|]. split; [exact H3|]. vm_compute. reflexivity.
Defined.
