(* ===== verification/Realtime.v ===== *)
(** * Realtime hub: rooms, replay and fan-out

    Models [crates/pharos-realtime/src/hub.rs] and [memory.rs]: the shape of a
    room identifier, the in-memory hub with its versioned backlog, and the
    reconnection path [subscribe_since].

    The per-room channel is [tokio::sync::broadcast], outside the repository:
    it is the class [Broadcast], and what its documentation promises is the
    class [BroadcastLaws].  The map of rooms is a [DashMap]; each of its calls
    holds the lock of the entry it touches, so an operation of the hub is a
    sequence of atomic calls.  Those calls are separate definitions here
    ([stamp_and_retain], [register_check], [register_enter], [read_backlog],
    [RoomGuard_release], [RoomGuard_collect]), the operations compose them in
    program order, and [hub_step] interleaves the calls of any number of
    tasks. *)

From S2P Require Import Prelude.
Local Open Scope Z_scope.

(** ** Characters of a string

    A Rust string is UTF-8 bytes; [str::chars] decodes them.  Byte sequences
    that are no UTF-8, which no [&str] holds, decode to U+FFFD. *)

Definition byte_of (a : Ascii.ascii) : Z := Z.of_N (Ascii.N_of_ascii a).
Definition replacement_char : Z := 65533.

(** A scalar value read from several bytes is at least U+0080. *)
Definition wide_char (c : Z) : Z := if c <? 128 then replacement_char else c.

Definition continuation (acc : Z) (a : Ascii.ascii) : Z :=
  Z.lor (Z.shiftl acc 6) (Z.land (byte_of a) 63).

Fixpoint chars (s : string) : list Z :=
  match s with
  | EmptyString => []
  | String a s1 =>
      let b := byte_of a in
      if b <? 128 then b :: chars s1
      else if b <? 224 then
        match s1 with
        | String c1 s2 => wide_char (continuation (Z.land b 31) c1) :: chars s2
        | EmptyString => [replacement_char]
        end
      else if b <? 240 then
        match s1 with
        | String c1 (String c2 s3) =>
            wide_char (continuation (continuation (Z.land b 15) c1) c2) :: chars s3
        | _ => [replacement_char]
        end
      else
        match s1 with
        | String c1 (String c2 (String c3 s4)) =>
            wide_char
              (continuation (continuation (continuation (Z.land b 7) c1) c2) c3) :: chars s4
        | _ => [replacement_char]
        end
  end.

(** [str::len] counts bytes. *)
Definition str_len (s : string) : Z := Z.of_nat (String.length s).

(** ** Room identifiers (hub.rs) *)

Definition MAX_ROOM_ID_LEN : Z := 128.

Inductive InvalidRoomId :=
| IREmpty
| IRTooLong (len : Z)
| IRDisallowedCharacter (character : Z).

Record RoomId := mkRoomId { as_str : string }.

#[export] Instance RoomId_eq_dec : EqDecision RoomId.
Proof. solve_decision. Defined.
#[export] Instance RoomId_countable : Countable RoomId.
Proof. by refine (inj_countable' as_str mkRoomId _); intros []. Defined.

Definition is_ascii_alphanumeric (c : Z) : bool :=
  ((48 <=? c) && (c <=? 57)) || ((65 <=? c) && (c <=? 90)) || ((97 <=? c) && (c <=? 122)).

(** The five others are [: - _ . /]. *)
Definition is_allowed (c : Z) : bool :=
  is_ascii_alphanumeric c
  || (c =? 58) || (c =? 45) || (c =? 95) || (c =? 46) || (c =? 47).

Definition RoomId_parse (id : string) : result RoomId InvalidRoomId :=
  if str_len id =? 0 then Err IREmpty
  else if MAX_ROOM_ID_LEN <? str_len id then Err (IRTooLong (str_len id))
  else match List.find (fun c => negb (is_allowed c)) (chars id) with
       | Some character => Err (IRDisallowedCharacter character)
       | None => Ok (mkRoomId id)
       end.

(** [Display] and [FromStr] *)
Definition RoomId_to_string (id : RoomId) : string := as_str id.
Definition RoomId_from_str (id : string) : result RoomId InvalidRoomId := RoomId_parse id.

(** ** Messages and errors (hub.rs) *)

Record RealtimeMessage := mkRealtimeMessage {
  room : RoomId;
  kind : string;
  payload : string;
  version : Z;
}.

#[export] Instance RealtimeMessage_eq_dec : EqDecision RealtimeMessage.
Proof. solve_decision. Defined.

Definition RealtimeMessage_new (room : RoomId) (kind payload : string) : RealtimeMessage :=
  mkRealtimeMessage room kind payload 0.

Definition stamp_version (v : Z) (m : RealtimeMessage) : RealtimeMessage :=
  mkRealtimeMessage (room m) (kind m) (payload m) v.

Inductive RealtimeError :=
| RePublish (e : string)
| ReSubscribe (e : string)
| ReUnauthorized (reason : string)
| ReForbidden (identity room : string)
| ReCapacity (reason : string)
| ReInvalidRoom (e : InvalidRoomId)
| ReTransport (e : string).

Definition RealtimeError_publish (e : string) : RealtimeError := RePublish e.
Definition RealtimeError_subscribe (e : string) : RealtimeError := ReSubscribe e.
Definition RealtimeError_transport (e : string) : RealtimeError := ReTransport e.

Inductive Backlog :=
| Replayed (messages : list RealtimeMessage)
| Gap (oldest_retained : Z)
| Unavailable.

#[export] Instance Backlog_eq_dec : EqDecision Backlog.
Proof. solve_decision. Defined.

(** The traits [RealtimePublisher] and [RealtimeSubscriber], with the default
    body of [subscribe_since]. *)
Class RealtimePublisher (W : Type) : Type := {
  rt_publish : RealtimeMessage -> M W (result unit RealtimeError);
}.

Class RealtimeSubscriber (W Stream : Type) : Type := {
  rt_subscribe : RoomId -> M W (result Stream RealtimeError);
  rt_subscribe_since : RoomId -> option Z -> M W (result (Backlog * Stream) RealtimeError);
}.

Definition default_subscribe_since {W Stream}
  (subscribe : RoomId -> M W (result Stream RealtimeError))
  (room : RoomId) (since : option Z) : M W (result (Backlog * Stream) RealtimeError) :=
  try! stream <- subscribe room;
  ret (Ok (Unavailable, stream)).

(** ** The broadcast channel

    [bc_recv] answers what one poll of [Receiver::recv] can: a message, how
    many were skipped because the receiver lags, the end of the channel, or
    [RecvPending]. *)

Inductive RecvPoll :=
| RecvOk (m : RealtimeMessage)
| RecvLagged (skipped : Z)
| RecvClosed
| RecvPending.

Class Broadcast (W Sender Receiver : Type) : Type := {
  bc_channel : Z -> M W (Sender * Receiver);
  bc_subscribe : Sender -> M W Receiver;
  bc_send : Sender -> RealtimeMessage -> M W (result Z RealtimeMessage);
  bc_recv : Receiver -> M W RecvPoll;
}.

(** What is observable of the channels: which senders and receivers exist,
    the messages a sender has sent, and where in them each receiver stands.  A
    receiver sees every message sent after it was created, in order; lagging
    moves it forward, never past what was sent. *)
Class BroadcastLaws (W Sender Receiver : Type) `{!Broadcast W Sender Receiver} : Type := {
  bc_sender : W -> Sender -> Prop;
  bc_receiver : W -> Receiver -> Prop;
  bc_sent : W -> Sender -> list RealtimeMessage;
  bc_at : W -> Receiver -> Sender * nat;
  bc_channel_spec w capacity s r w' :
    bc_channel capacity w = ((s, r), w') ->
    ~ bc_sender w s /\ ~ bc_receiver w r /\
    bc_sent w' s = [] /\ bc_at w' r = (s, 0%nat) /\
    (forall s', bc_sender w' s' <-> s' = s \/ bc_sender w s') /\
    (forall r', bc_receiver w' r' <-> r' = r \/ bc_receiver w r') /\
    (forall s', bc_sender w s' -> bc_sent w' s' = bc_sent w s') /\
    (forall r', bc_receiver w r' -> bc_at w' r' = bc_at w r');
  bc_subscribe_spec w s r w' :
    bc_sender w s -> bc_subscribe s w = (r, w') ->
    ~ bc_receiver w r /\ bc_at w' r = (s, length (bc_sent w s)) /\
    (forall s', bc_sender w' s' <-> bc_sender w s') /\
    (forall r', bc_receiver w' r' <-> r' = r \/ bc_receiver w r') /\
    (forall s', bc_sender w s' -> bc_sent w' s' = bc_sent w s') /\
    (forall r', bc_receiver w r' -> bc_at w' r' = bc_at w r');
  bc_send_spec w s m a w' :
    bc_sender w s -> bc_send s m w = (a, w') ->
    bc_sent w' s = bc_sent w s ++ [m] /\
    (forall s', bc_sender w' s' <-> bc_sender w s') /\
    (forall r, bc_receiver w' r <-> bc_receiver w r) /\
    (forall s', bc_sender w s' -> s' <> s -> bc_sent w' s' = bc_sent w s') /\
    (forall r, bc_receiver w r -> bc_at w' r = bc_at w r);
  bc_recv_spec w r a w' :
    bc_receiver w r -> bc_recv r w = (a, w') ->
    (forall s', bc_sender w' s' <-> bc_sender w s') /\
    (forall r', bc_receiver w' r' <-> bc_receiver w r') /\
    (forall s', bc_sender w s' -> bc_sent w' s' = bc_sent w s') /\
    (forall r', bc_receiver w r' -> r' <> r -> bc_at w' r' = bc_at w r') /\
    match a with
    | RecvOk m => bc_sent w (bc_at w r).1 !! (bc_at w r).2 = Some m /\
                  bc_at w' r = ((bc_at w r).1, S (bc_at w r).2)
    | RecvLagged k => 0 < k /\
                      ((bc_at w r).2 + Z.to_nat k <= length (bc_sent w (bc_at w r).1))%nat /\
                      bc_at w' r = ((bc_at w r).1, ((bc_at w r).2 + Z.to_nat k)%nat)
    | RecvClosed | RecvPending =>
        (bc_at w r).2 = length (bc_sent w (bc_at w r).1) /\ bc_at w' r = bc_at w r
    end;
}.

(** ** The in-memory hub (memory.rs) *)

Definition DEFAULT_CHANNEL_CAPACITY : Z := 32.
Definition DEFAULT_MAX_ROOMS : Z := 10000.
Definition DEFAULT_BACKLOG : Z := 64.
Definition DEFAULT_MAX_BACKLOG_BYTES : Z := 64 * 1024.

Record RoomEntry (Sender : Type) := mkRoomEntry {
  sender : Sender;
  subscribers : Z;
  next_version : Z;
  entry_backlog : list RealtimeMessage;
  backlog_bytes : Z;
}.
Arguments mkRoomEntry {Sender} _ _ _ _ _.
Arguments sender {Sender} _.
Arguments subscribers {Sender} _.
Arguments next_version {Sender} _.
Arguments entry_backlog {Sender} _.
Arguments backlog_bytes {Sender} _.

Abbreviation Rooms Sender := (gmap RoomId (RoomEntry Sender)).

(** The handle; [rooms] is shared state, a component of the world. *)
Record InMemoryHub := mkInMemoryHub {
  capacity : Z;
  max_rooms : Z;
  hub_backlog : Z;
  max_backlog_bytes : Z;
}.

Definition InMemoryHub_with_limits (capacity max_rooms : Z) : InMemoryHub :=
  mkInMemoryHub (Z.max capacity 1) (Z.max max_rooms 1) DEFAULT_BACKLOG DEFAULT_MAX_BACKLOG_BYTES.

Definition InMemoryHub_new : InMemoryHub :=
  InMemoryHub_with_limits DEFAULT_CHANNEL_CAPACITY DEFAULT_MAX_ROOMS.

Definition InMemoryHub_default : InMemoryHub := InMemoryHub_new.
Definition InMemoryHub_backlog_limit (self : InMemoryHub) : Z := hub_backlog self.

Definition InMemoryHub_with_capacity (capacity : Z) : InMemoryHub :=
  InMemoryHub_with_limits capacity DEFAULT_MAX_ROOMS.

Definition InMemoryHub_with_backlog (backlog : Z) (h : InMemoryHub) : InMemoryHub :=
  mkInMemoryHub (capacity h) (max_rooms h) backlog (max_backlog_bytes h).

Definition InMemoryHub_with_max_backlog_bytes (bytes : Z) (h : InMemoryHub) : InMemoryHub :=
  mkInMemoryHub (capacity h) (max_rooms h) (hub_backlog h) bytes.

(** [usize] subtraction. *)
Definition u64_sub (a b : Z) : Z := (a - b) mod 2 ^ 64.

Definition vec_len {A} (l : list A) : Z := Z.of_nat (length l).

(** The eviction loop of [stamp_and_retain]. *)
Fixpoint evict (h : InMemoryHub) (backlog : list RealtimeMessage) (bytes : Z)
  : list RealtimeMessage * Z :=
  if (hub_backlog h <? vec_len backlog) || (max_backlog_bytes h <? bytes) then
    match backlog with
    | [] => (backlog, bytes)
    | evicted :: rest => evict h rest (u64_sub bytes (str_len (payload evicted)))
    end
  else (backlog, bytes).

Section Hub.
Context {W Sender Receiver : Type} `{!Lens W (Rooms Sender), !Broadcast W Sender Receiver}.
Implicit Types (h : InMemoryHub) (r : RoomId).

Definition InMemoryHub_room_count : M W Z :=
  do! rooms <- mget (S := Rooms Sender); ret (Z.of_nat (size rooms)).

Definition contains_key r : M W bool :=
  do! rooms <- mget (S := Rooms Sender); ret (bool_decide (is_Some (rooms !! r))).

(** One critical section of the room's entry.  The message taken by mutable
    reference comes back in the answer. *)
Definition stamp_and_retain h (msg : RealtimeMessage)
  : M W (option Sender * RealtimeMessage) :=
  do! rooms <- mget;
  match rooms !! room msg with
  | None => ret (None, msg)
  | Some e =>
      let msg := stamp_version (next_version e) msg in
      let '(backlog, bytes) :=
        if (0 <? hub_backlog h) && (0 <? max_backlog_bytes h)
        then evict h (entry_backlog e ++ [msg])
               (u64_add (backlog_bytes e) (str_len (payload msg)))
        else (entry_backlog e, backlog_bytes e) in
      do! _ <- mput (<[room msg := mkRoomEntry (sender e) (subscribers e)
                                     (u64_add (next_version e) 1) backlog bytes]> rooms);
      ret (Some (sender e), msg)
  end.

(** The ceiling, checked before the entry is locked. *)
Definition register_check h r : M W (result unit RealtimeError) :=
  do! known <- contains_key r;
  do! count <- InMemoryHub_room_count;
  ret (if negb known && (max_rooms h <=? count)
       then Err (ReCapacity ("hub is already tracking " +:+ pretty (max_rooms h) +:+ " rooms"))
       else Ok tt).

(** The occupied or vacant entry, under its lock. *)
Definition register_enter h r : M W Receiver :=
  do! rooms <- mget;
  match rooms !! r with
  | Some e =>
      do! _ <- mput (<[r := mkRoomEntry (sender e) (u64_add (subscribers e) 1)
                              (next_version e) (entry_backlog e) (backlog_bytes e)]> rooms);
      bc_subscribe (sender e)
  | None =>
      do! ch <- bc_channel (capacity h);
      do! _ <- mput (<[r := mkRoomEntry ch.1 1 1 [] 0]> rooms);
      ret ch.2
  end.

(** A guard is the room it releases. *)
Record RoomGuard := mkRoomGuard { guard_room : RoomId }.

Definition register_subscriber h r : M W (result (Receiver * RoomGuard) RealtimeError) :=
  try! _ <- register_check h r;
  do! receiver <- register_enter h r;
  ret (Ok (receiver, mkRoomGuard r)).

(** [Drop for RoomGuard]: two critical sections. *)
Definition RoomGuard_release r : M W bool :=
  do! rooms <- mget;
  match rooms !! r with
  | Some e =>
      let n := Z.max 0 (subscribers e - 1) in
      do! _ <- mput (<[r := mkRoomEntry (sender e) n (next_version e) (entry_backlog e)
                              (backlog_bytes e)]> rooms);
      ret (n =? 0)
  | None => ret false
  end.

Definition RoomGuard_collect r : M W unit :=
  do! rooms <- mget (S := Rooms Sender);
  match rooms !! r with
  | Some e => if subscribers e =? 0 then mput (delete r rooms) else ret tt
  | None => ret tt
  end.

Definition RoomGuard_drop (g : RoomGuard) : M W unit :=
  do! collected <- RoomGuard_release (guard_room g);
  if collected then RoomGuard_collect (guard_room g) else ret tt.

Record RoomStream := mkRoomStream { rs_receiver : Receiver; rs_guard : RoomGuard }.

(** One poll of the stream: [None] is pending, [Some None] the end.  Skipped
    messages are passed over; a lagging receiver moves at most to the end of
    what was sent, so the loop has fuel for every message in the channel. *)
Fixpoint RoomStream_next (fuel : nat) (st : RoomStream) : M W (option (option RealtimeMessage)) :=
  match fuel with
  | O => ret None
  | S fuel' =>
      do! a <- bc_recv (rs_receiver st);
      match a with
      | RecvOk message => ret (Some (Some message))
      | RecvLagged _ => RoomStream_next fuel' st
      | RecvClosed => ret (Some None)
      | RecvPending => ret None
      end
  end.

Definition InMemoryHub_publish h (msg : RealtimeMessage) : M W (result unit RealtimeError) :=
  do! st <- stamp_and_retain h msg;
  match st.1 with
  | Some s => do! _ <- bc_send s st.2; ret (Ok tt)
  | None => ret (Ok tt)
  end.

Definition InMemoryHub_subscribe h r : M W (result RoomStream RealtimeError) :=
  try! reg <- register_subscriber h r;
  ret (Ok (mkRoomStream reg.1 reg.2)).

(** What the entry of a room answers to a client that saw up to [since]. *)
Definition entry_since (since : Z) (e : RoomEntry Sender) : Backlog :=
  match head (entry_backlog e) with
  | None => if next_version e =? 1 then Replayed [] else Unavailable
  | Some front =>
      if u64_add since 1 <? version front then Gap (version front)
      else Replayed (filter (fun m => since < version m) (entry_backlog e))
  end.

Definition read_backlog h r (since : option Z) (existed : bool) : M W Backlog :=
  match since with
  | None => ret Unavailable
  | Some since =>
      if hub_backlog h =? 0 then ret Unavailable
      else if negb existed then ret Unavailable
      else
        do! rooms <- mget;
        ret (match rooms !! r with None => Unavailable | Some e => entry_since since e end)
  end.

Definition InMemoryHub_subscribe_since h r (since : option Z)
  : M W (result (Backlog * RoomStream) RealtimeError) :=
  do! existed <- contains_key r;
  try! reg <- register_subscriber h r;
  do! backlog <- read_backlog h r since existed;
  ret (Ok (backlog, mkRoomStream reg.1 reg.2)).
End Hub.
Arguments RoomStream Receiver : clear implicits.
Arguments InMemoryHub_room_count {W Sender _}.

(** ** Interleavings

    Any number of tasks publish, subscribe, read their streams and drop them.
    A step is one critical section of the code, or one poll of a receiver.
    Beside the world the state keeps, for each room of the map, the messages
    stamped since the room was created. *)

Inductive Task (Sender Receiver : Type) :=
| TPublish (msg : RealtimeMessage)
| TSend (s : Sender) (msg : RealtimeMessage)
| TSubscribe (r : RoomId) (since : option Z)
| TRegister (r : RoomId) (since : option Z) (existed : bool)
| TEnter (r : RoomId) (since : option Z) (existed : bool)
| TRead (r : RoomId) (since : option Z) (existed : bool) (rcv : Receiver) (start : nat)
| TLive (r : RoomId) (since : option Z) (backlog : Backlog) (rcv : Receiver) (start : nat)
    (got : list RealtimeMessage)
| TDropping (r : RoomId)
| TCollect (r : RoomId)
| TDone.
Arguments TPublish {_ _} _.
Arguments TSend {_ _} _ _.
Arguments TSubscribe {_ _} _ _.
Arguments TRegister {_ _} _ _ _.
Arguments TEnter {_ _} _ _ _.
Arguments TRead {_ _} _ _ _ _ _.
Arguments TLive {_ _} _ _ _ _ _ _.
Arguments TDropping {_ _} _.
Arguments TCollect {_ _} _.
Arguments TDone {_ _}.

#[export] Instance Task_eq_dec {Sender Receiver} `{!EqDecision Sender, !EqDecision Receiver} :
  EqDecision (Task Sender Receiver).
Proof. solve_decision. Defined.

Abbreviation History := (gmap RoomId (list RealtimeMessage)) (only parsing).

Record HubState (W Sender Receiver : Type) := mkHubState {
  hs_world : W;
  hs_hist : History;
  hs_tasks : list (Task Sender Receiver);
}.
Arguments mkHubState {W Sender Receiver} _ _ _.
Arguments hs_world {W Sender Receiver} _.
Arguments hs_hist {W Sender Receiver} _.
Arguments hs_tasks {W Sender Receiver} _.

(** [Vec::len] is at most [isize::MAX]. *)
Definition isize_max : Z := 2 ^ 63 - 1.
Definition payload_fits (m : RealtimeMessage) : Prop := str_len (payload m) <= isize_max.
Definition since_fits (since : option Z) : Prop :=
  match since with None => True | Some n => 0 <= n <= u64_max end.

(** The map of rooms and the channels are kept apart. *)
Class HubFrame (W Sender Receiver : Type) `{!Lens W (Rooms Sender)}
  `{!Broadcast W Sender Receiver, !BroadcastLaws W Sender Receiver} : Prop := {
  bc_channel_keeps c : keeps (Rooms Sender) (bc_channel c);
  bc_subscribe_keeps s : keeps (Rooms Sender) (bc_subscribe s);
  bc_send_keeps s m : keeps (Rooms Sender) (bc_send s m);
  bc_recv_keeps r : keeps (Rooms Sender) (bc_recv r);
  bc_sender_lset (rooms : Rooms Sender) w s : bc_sender (lset rooms w) s <-> bc_sender w s;
  bc_receiver_lset (rooms : Rooms Sender) w r : bc_receiver (lset rooms w) r <-> bc_receiver w r;
  bc_sent_lset (rooms : Rooms Sender) w s : bc_sent (lset rooms w) s = bc_sent w s;
  bc_at_lset (rooms : Rooms Sender) w r : bc_at (lset rooms w) r = bc_at w r;
}.

Section Steps.
Context {W Sender Receiver : Type} `{!Lens W (Rooms Sender), !LensLaws W (Rooms Sender)}
  `{!Broadcast W Sender Receiver, !BroadcastLaws W Sender Receiver, !HubFrame W Sender Receiver}.
Abbreviation Tasks := (list (Task Sender Receiver)).

(** The next call of a task. *)
Definition task_step (h : InMemoryHub) (t : Task Sender Receiver) : M W (Task Sender Receiver) :=
  match t with
  | TPublish msg =>
      do! st <- stamp_and_retain h msg;
      ret (match st.1 with Some s => TSend s st.2 | None => TDone end)
  | TSend s msg => do! _ <- bc_send s msg; ret TDone
  | TSubscribe r since =>
      do! existed <- contains_key r; ret (TRegister r since existed)
  | TRegister r since existed =>
      do! c <- register_check h r;
      ret (match c with Ok _ => TEnter r since existed | Err _ => TDone end)
  | TEnter r since existed =>
      do! rcv <- register_enter h r;
      fun w => (TRead r since existed rcv (bc_at w rcv).2, w)
  | TRead r since existed rcv start =>
      do! backlog <- read_backlog h r since existed; ret (TLive r since backlog rcv start [])
  | TLive r since backlog rcv start got =>
      do! a <- bc_recv rcv;
      ret (match a with
           | RecvOk m => TLive r since backlog rcv start (got ++ [m])
           | RecvClosed => TDropping r
           | RecvLagged _ | RecvPending => t
           end)
  | TDropping r =>
      do! collected <- RoomGuard_release r;
      ret (if collected : bool then TCollect r else TDone)
  | TCollect r => do! _ <- RoomGuard_collect r; ret TDone
  | TDone => ret TDone
  end.

(** The history a call leaves: a stamped message joins its room's, a room
    that is created starts anew. *)
Definition hist_after (t : Task Sender Receiver) (rooms : Rooms Sender) (hist : History)
  : History :=
  match t with
  | TPublish msg =>
      match rooms !! room msg with
      | Some e => alter (.++ [stamp_version (next_version e) msg]) (room msg) hist
      | None => hist
      end
  | TEnter r _ _ => match rooms !! r with None => <[r := []]> hist | Some _ => hist end
  | _ => hist
  end.

Inductive hub_step (h : InMemoryHub) : HubState W Sender Receiver -> HubState W Sender Receiver -> Prop :=
| hub_publish st msg :
    payload_fits msg ->
    hub_step h st (mkHubState (hs_world st) (hs_hist st) (hs_tasks st ++ [TPublish msg]))
| hub_subscribe st r since :
    since_fits since ->
    hub_step h st (mkHubState (hs_world st) (hs_hist st) (hs_tasks st ++ [TSubscribe r since]))
| hub_call st i t t' w' :
    hs_tasks st !! i = Some t ->
    task_step h t (hs_world st) = (t', w') ->
    hub_step h st (mkHubState w' (hist_after t (lget (hs_world st)) (hs_hist st))
                     (<[i := t']> (hs_tasks st)))
| hub_drop st i r since backlog rcv start got :
    hs_tasks st !! i = Some (TLive r since backlog rcv start got) ->
    hub_step h st (mkHubState (hs_world st) (hs_hist st) (<[i := TDropping r]> (hs_tasks st))).

(** Reached from an empty hub in [n] steps. *)
Inductive hub_reach (h : InMemoryHub) : nat -> HubState W Sender Receiver -> Prop :=
| hub_start w : lget w = (∅ : Rooms Sender) -> hub_reach h 0 (mkHubState w ∅ [])
| hub_more n st st' : hub_reach h n st -> hub_step h st st' -> hub_reach h (S n) st'.

(** ** The invariant *)

(** Reference: the longest suffix of a history that both limits allow. *)
Definition payload_bytes (l : list RealtimeMessage) : Z :=
  foldr (fun m acc => str_len (payload m) + acc) 0 l.

Definition fits (h : InMemoryHub) (l : list RealtimeMessage) : bool :=
  (vec_len l <=? hub_backlog h) && (payload_bytes l <=? max_backlog_bytes h).

Fixpoint longest_fit (h : InMemoryHub) (l : list RealtimeMessage) : list RealtimeMessage :=
  if fits h l then l else match l with [] => [] | _ :: l' => longest_fit h l' end.

Definition retains (h : InMemoryHub) : bool := (0 <? hub_backlog h) && (0 <? max_backlog_bytes h).

Definition retained (h : InMemoryHub) (hist : list RealtimeMessage) : list RealtimeMessage :=
  if retains h then longest_fit h hist else [].

Record room_ok (h : InMemoryHub) (r : RoomId) (e : RoomEntry Sender)
  (hist : list RealtimeMessage) : Prop := {
  ro_versions i m : hist !! i = Some m ->
    version m = Z.of_nat i + 1 /\ room m = r /\ payload_fits m;
  ro_next : next_version e = vec_len hist + 1;
  ro_backlog : entry_backlog e = retained h hist;
  ro_bytes : backlog_bytes e = payload_bytes (entry_backlog e);
}.

(** Tasks whose guard holds the room open. *)
Definition holds (r : RoomId) (t : Task Sender Receiver) : bool :=
  match t with
  | TRead r' _ _ _ _ | TLive r' _ _ _ _ _ | TDropping r' => bool_decide (r' = r)
  | _ => false
  end.

Definition holders (r : RoomId) (ts : Tasks) : Z := vec_len (filter (fun t => holds r t = true) ts).

(** The receiver listens on the channel the room publishes to. *)
Definition attached (w : W) (rooms : Rooms Sender) (r : RoomId) (rcv : Receiver) (start : nat)
  : Prop :=
  exists e, rooms !! r = Some e /\ bc_receiver w rcv /\ (bc_at w rcv).1 = sender e /\
    (start <= (bc_at w rcv).2 <= length (bc_sent w (sender e)))%nat.

(** Every message after [since] was replayed, or was sent to the receiver, or
    is about to be. *)
Definition handed_over (w : W) (rooms : Rooms Sender) (hist : History) (ts : Tasks)
  (r : RoomId) (since : Z) (replay : list RealtimeMessage) (start : nat) : Prop :=
  forall e hs m, rooms !! r = Some e -> hist !! r = Some hs -> m ∈ hs -> since < version m ->
    m ∈ replay \/ m ∈ drop start (bc_sent w (sender e)) \/ TSend (sender e) m ∈ ts.

(** What the stream has yielded: messages sent since it was created, in
    order, none twice. *)
Definition yielded (w : W) (rcv : Receiver) (start : nat) (got : list RealtimeMessage) : Prop :=
  got `sublist_of` take ((bc_at w rcv).2 - start) (drop start (bc_sent w (bc_at w rcv).1)).

Definition task_ok (w : W) (rooms : Rooms Sender) (hist : History) (ts : Tasks)
  (t : Task Sender Receiver) : Prop :=
  match t with
  | TPublish msg => payload_fits msg
  | TSend s _ => bc_sender w s
  | TSubscribe _ since | TRegister _ since _ | TEnter _ since _ => since_fits since
  | TRead r since _ rcv start => since_fits since /\ attached w rooms r rcv start
  | TLive r since backlog rcv start got =>
      attached w rooms r rcv start /\ yielded w rcv start got /\
      match since, backlog with
      | Some since, Replayed replay => handed_over w rooms hist ts r since replay start
      | _, _ => True
      end
  | TDropping r => is_Some (rooms !! r)
  | TCollect _ | TDone => True
  end.

Record hub_inv (h : InMemoryHub) (n : nat) (w : W) (hist : History) (ts : Tasks) : Prop := {
  inv_rooms r e : lget w !! r = Some e ->
    exists hs, hist !! r = Some hs /\ room_ok h r e hs /\ (length hs <= n)%nat /\
      bc_sender w (sender e) /\ subscribers e = holders r ts /\
      (subscribers e = 0 -> TCollect r ∈ ts);
  inv_tasks : Forall (task_ok w (lget w) hist ts) ts;
  inv_size : (length ts <= n)%nat;
}.
End Steps.

(** ** Lemmas on retention *)

Lemma str_len_nonneg s : 0 <= str_len s.
Proof. unfold str_len. lia. Qed.
Lemma vec_len_nonneg {A} (l : list A) : 0 <= vec_len l.
Proof. unfold vec_len. lia. Qed.
#[export] Hint Resolve str_len_nonneg vec_len_nonneg : pharos.

Lemma payload_bytes_cons m l : payload_bytes (m :: l) = str_len (payload m) + payload_bytes l.
Proof. done. Qed.

Lemma payload_bytes_nonneg l : 0 <= payload_bytes l.
Proof.
  induction l as [|m l IH]; [done|]. rewrite payload_bytes_cons.
  pose proof (str_len_nonneg (payload m)). lia.
Qed.

Lemma payload_bytes_app l k : payload_bytes (l ++ k) = payload_bytes l + payload_bytes k.
Proof.
  induction l as [|m l IH]; [done|]. rewrite <- app_comm_cons, !payload_bytes_cons, IH. lia.
Qed.

Lemma payload_bytes_snoc l m : payload_bytes (l ++ [m]) = payload_bytes l + str_len (payload m).
Proof. rewrite payload_bytes_app. cbn. lia. Qed.

Lemma u64_sub_add a b : 0 <= b <= u64_max -> u64_sub (a + b) a = b.
Proof. unfold u64_sub, u64_max. intros. rewrite Z.mod_small; lia. Qed.

Lemma fits_spec h l :
  fits h l = true <-> vec_len l <= hub_backlog h /\ payload_bytes l <= max_backlog_bytes h.
Proof. unfold fits. rewrite andb_true_iff, !Z.leb_le. done. Qed.

Lemma evict_guard h l :
  (hub_backlog h <? vec_len l) || (max_backlog_bytes h <? payload_bytes l) = negb (fits h l).
Proof. unfold fits. lia. Qed.

(** The eviction loop computes the reference. *)
Lemma evict_longest_fit h l :
  payload_bytes l <= u64_max ->
  evict h l (payload_bytes l) = (longest_fit h l, payload_bytes (longest_fit h l)).
Proof.
  induction l as [|m l IH]; intros Hmax; cbn [evict longest_fit];
    rewrite evict_guard; destruct (fits _ _); try done; cbn [negb].
  rewrite payload_bytes_cons in *.
  pose proof (payload_bytes_nonneg l). pose proof (str_len_nonneg (payload m)).
  rewrite u64_sub_add by lia. apply IH. lia.
Qed.

Lemma fits_app_l h l k : fits h (l ++ k) = true -> fits h l = true.
Proof.
  rewrite !fits_spec, payload_bytes_app. unfold vec_len. rewrite length_app.
  pose proof (payload_bytes_nonneg k). lia.
Qed.

(** Retaining incrementally is retaining from the whole history. *)
Lemma longest_fit_snoc h l m :
  longest_fit h (longest_fit h l ++ [m]) = longest_fit h (l ++ [m]).
Proof.
  induction l as [|x l IH]; cbn [longest_fit]; [by destruct (fits h [])|].
  destruct (fits h (x :: l)) eqn:E; [done|]. rewrite IH. cbn [app longest_fit].
  destruct (fits h (x :: l ++ [m])) eqn:E'; [|done].
  rewrite (fits_app_l h (x :: l) [m] E') in E. discriminate.
Qed.

Lemma longest_fit_suffix h l : exists k, longest_fit h l = drop k l.
Proof.
  induction l as [|x l [k IH]]; cbn; [exists 0%nat; by destruct (fits h [])|].
  destruct (fits h (x :: l)); [by exists 0%nat|by exists (S k)].
Qed.

Lemma longest_fit_fits h l :
  0 <= hub_backlog h -> 0 <= max_backlog_bytes h -> fits h (longest_fit h l) = true.
Proof.
  intros. induction l as [|x l IH]; cbn [longest_fit]; [|by destruct (fits h (x :: l)) eqn:E].
  assert (fits h [] = true) as E by (by apply fits_spec). by rewrite E.
Qed.

Lemma retained_suffix h l : exists k, retained h l = drop k l.
Proof.
  unfold retained. destruct (retains h); [apply longest_fit_suffix|].
  exists (length l). by rewrite drop_all.
Qed.

(** Limits a 64-bit process can hold. *)
Definition hub_wf (h : InMemoryHub) : Prop :=
  0 <= hub_backlog h /\ 0 <= max_backlog_bytes h <= isize_max.

Lemma retained_fits h l : hub_wf h -> fits h (retained h l) = true.
Proof.
  intros [? [? ?]]. unfold retained. destruct (retains h); [by apply longest_fit_fits|].
  by apply fits_spec.
Qed.

Section RoomLemmas.
Context {Sender : Type}.
Implicit Types (e : RoomEntry Sender) (h : InMemoryHub).

(** Stamping keeps a room consistent with its history. *)
Lemma stamp_room_ok h r e hs msg :
  hub_wf h -> room_ok h r e hs -> room msg = r -> payload_fits msg ->
  vec_len hs + 2 <= u64_max ->
  let m := stamp_version (next_version e) msg in
  let '(backlog, bytes) :=
    if retains h
    then evict h (entry_backlog e ++ [m]) (u64_add (backlog_bytes e) (str_len (payload m)))
    else (entry_backlog e, backlog_bytes e) in
  room_ok h r (mkRoomEntry (sender e) (subscribers e) (u64_add (next_version e) 1) backlog bytes)
    (hs ++ [m]).
Proof.
  intros Hwf [Hv Hn Hb Hby] Hr Hp Hmax m.
  assert (Hnv : u64_add (next_version e) 1 = vec_len (hs ++ [m]) + 1).
  { unfold vec_len in *. rewrite Hn, u64_add_small, length_app; cbn; lia. }
  assert (Hvs : forall i x, (hs ++ [m]) !! i = Some x ->
    version x = Z.of_nat i + 1 /\ room x = r /\ payload_fits x).
  { intros i x [Hx|[Hi Hx]]%lookup_app_Some; [by apply Hv|].
    apply list_lookup_singleton_Some in Hx as [Hi' <-]. cbn.
    unfold vec_len in *. split; [lia|done]. }
  destruct (retains h) eqn:Er.
  - pose proof (retained_fits h hs Hwf) as [_ Hfit]%fits_spec.
    pose proof (payload_bytes_nonneg (retained h hs)) as Hpos.
    assert (0 <= payload_bytes (retained h hs) + str_len (payload m) <= u64_max) as Hsum.
    { pose proof (str_len_nonneg (payload m)). change (payload m) with (payload msg) in *.
      unfold payload_fits, hub_wf, isize_max, u64_max in *. lia. }
    assert (Hadd : u64_add (backlog_bytes e) (str_len (payload m))
                   = payload_bytes (entry_backlog e ++ [m])).
    { rewrite payload_bytes_snoc, <- Hby. apply u64_add_small. rewrite Hby, Hb. lia. }
    rewrite Hadd, evict_longest_fit by (rewrite payload_bytes_snoc, Hb; lia).
    constructor; cbn; [done|done| |done].
    rewrite Hb. unfold retained. rewrite Er. apply longest_fit_snoc.
  - constructor; cbn; [done|done| |done]. rewrite Hb. unfold retained. by rewrite Er.
Qed.

(** What a client is told, in terms of the room's history. *)
Lemma entry_since_spec h r e hs since :
  room_ok h r e hs -> 0 <= since < u64_max ->
  match entry_since since e with
  | Replayed l => l = filter (fun m => since < version m) hs
  | Gap o => exists k m, retained h hs = drop k hs /\ hs !! k = Some m /\ version m = o /\
               since + 1 < o
  | Unavailable => hs <> [] /\ retained h hs = []
  end.
Proof.
  intros [Hv Hn Hb _] Hs. unfold entry_since. rewrite Hb.
  destruct (retained_suffix h hs) as [k Hk].
  destruct (head (retained h hs)) as [front|] eqn:Hf.
  - rewrite u64_add_small by lia.
    assert (Hfr : hs !! k = Some front).
    { rewrite Hk, head_lookup, lookup_drop in Hf. by rewrite Nat.add_0_r in Hf. }
    pose proof (Hv _ _ Hfr) as [Hver _]. destruct (Z.ltb_spec (since + 1) (version front)).
    + exists k, front. split; [done|]. split; [done|]. split; [done|]. lia.
    + rewrite Hk. rewrite <- (take_drop k hs) at 2. rewrite filter_app, (filter_none _ (take k hs)); [done|].
      apply Forall_lookup. intros i m Hm.
      apply lookup_take_Some in Hm as [Hm Hi]. apply Hv in Hm as [-> _]. lia.
  - assert (retained h hs = []) as Hnil by (destruct (retained h hs); done).
    rewrite Hn. destruct (Z.eqb_spec (vec_len hs + 1) 1) as [E|E].
    + assert (hs = []) as -> by (destruct hs; [done|unfold vec_len in E; cbn in E; lia]). done.
    + split; [|done]. intros ->. by apply E.
Qed.
End RoomLemmas.

(** ** Lemmas on tasks and channels *)

Section StepLemmas.
Context {W Sender Receiver : Type} `{!Lens W (Rooms Sender), !LensLaws W (Rooms Sender)}
  `{!Broadcast W Sender Receiver, !BroadcastLaws W Sender Receiver, !HubFrame W Sender Receiver}
  `{!EqDecision Sender, !EqDecision Receiver}.
Implicit Types (w : W) (rooms : Rooms Sender) (hist : History)
  (ts : list (Task Sender Receiver)) (t : Task Sender Receiver).

Lemma holders_perm r ts ts' : ts ≡ₚ ts' -> holders r ts = holders r ts'.
Proof. intros Hp. unfold holders, vec_len. by rewrite Hp. Qed.

Lemma holders_cons r t ts : holders r (t :: ts) = Z.b2z (holds r t) + holders r ts.
Proof.
  unfold holders, vec_len. destruct (holds r t) eqn:E.
  - rewrite filter_cons_True by done. cbn. lia.
  - by rewrite filter_cons_False by congruence.
Qed.

Lemma holders_insert r ts i t t' :
  ts !! i = Some t ->
  holders r (<[i := t']> ts) = holders r ts - Z.b2z (holds r t) + Z.b2z (holds r t').
Proof.
  intros Hi. pose proof (lookup_lt_Some _ _ _ Hi) as Hlt.
  rewrite (holders_perm r ts (t :: delete i ts)) by by apply delete_Permutation.
  rewrite (holders_perm r (<[i := t']> ts) (t' :: delete i ts)).
  - rewrite !holders_cons. lia.
  - rewrite (delete_Permutation (<[i := t']> ts) i t') by by apply list_lookup_insert_eq.
    f_equiv. by rewrite !delete_take_drop, take_insert_ge, drop_insert_lt by lia.
Qed.

Lemma holders_snoc r ts t : holders r (ts ++ [t]) = holders r ts + Z.b2z (holds r t).
Proof.
  rewrite (holders_perm r (ts ++ [t]) (t :: ts)) by by rewrite Permutation_app_comm.
  rewrite holders_cons. lia.
Qed.

Lemma holders_pos r ts i t : ts !! i = Some t -> holds r t = true -> 0 < holders r ts.
Proof.
  intros Hi Ht. rewrite (holders_perm r ts (t :: delete i ts)) by by apply delete_Permutation.
  rewrite holders_cons, Ht. pose proof (vec_len_nonneg (filter (fun t => holds r t = true) (delete i ts))).
  unfold holders. cbn. lia.
Qed.

Lemma holders_le r ts : holders r ts <= vec_len ts.
Proof. unfold holders, vec_len. pose proof (length_filter (fun t => holds r t = true) ts). lia. Qed.

Lemma elem_insert_other ts i t t' u :
  ts !! i = Some t -> u ∈ ts -> u <> t -> u ∈ <[i := t']> ts.
Proof.
  intros Hi [j Hj]%list_elem_of_lookup_1 Hne. apply list_elem_of_lookup_2 with j.
  rewrite list_lookup_insert_ne; [done|]. intros ->. congruence.
Qed.

Lemma elem_insert_self ts i t t' : ts !! i = Some t -> t' ∈ <[i := t']> ts.
Proof.
  intros Hi. apply list_elem_of_lookup_2 with i. apply list_lookup_insert_eq.
  by eapply lookup_lt_Some.
Qed.

(** Channels only grow. *)
Record grows w w' : Prop := {
  gr_sender s : bc_sender w s -> bc_sender w' s;
  gr_receiver r : bc_receiver w r -> bc_receiver w' r;
  gr_sent s : bc_sender w s -> bc_sent w s `prefix_of` bc_sent w' s;
  gr_at r : bc_receiver w r -> bc_sender w (bc_at w r).1 ->
    (bc_at w' r).1 = (bc_at w r).1 /\ ((bc_at w r).2 <= (bc_at w' r).2)%nat /\
    ((bc_at w r).2 <= length (bc_sent w (bc_at w r).1) ->
     (bc_at w' r).2 <= length (bc_sent w' (bc_at w r).1))%nat;
}.

Lemma grows_refl w : grows w w.
Proof. constructor; auto. Qed.

Lemma grows_lset rooms w : grows w (lset rooms w).
Proof.
  constructor; intros *; rewrite ?bc_sender_lset, ?bc_receiver_lset, ?bc_sent_lset, ?bc_at_lset;
    auto.
Qed.

Lemma grows_trans w1 w2 w3 : grows w1 w2 -> grows w2 w3 -> grows w1 w3.
Proof.
  intros [S1 R1 T1 A1] [S2 R2 T2 A2]. constructor; [auto|auto| |].
  - intros s Hs. etrans; [by apply T1|by apply T2, S1].
  - intros r Hr Hs. destruct (A1 r Hr Hs) as (E1 & L1 & B1).
    destruct (A2 r (R1 r Hr)) as (E2 & L2 & B2); [rewrite E1; auto|].
    rewrite E1 in E2, B2. split; [done|]. split; [lia|]. auto.
Qed.

Lemma grows_keep w w' :
  (forall s, bc_sender w s -> bc_sender w' s) -> (forall r, bc_receiver w r -> bc_receiver w' r) ->
  (forall s, bc_sender w s -> bc_sent w s `prefix_of` bc_sent w' s) ->
  (forall r, bc_receiver w r -> bc_at w' r = bc_at w r) -> grows w w'.
Proof.
  intros Hs Hr Hp Ha. constructor; auto. intros r Hrr Hss. rewrite Ha by done.
  split; [done|]. split; [done|]. intros. pose proof (prefix_length _ _ (Hp _ Hss)). lia.
Qed.

Lemma grows_channel w c s r w' : bc_channel c w = ((s, r), w') -> grows w w'.
Proof.
  intros (_ & _ & _ & _ & Hs & Hr & Hsent & Hat)%bc_channel_spec. apply grows_keep; try done.
  - intros. apply Hs. auto.
  - intros. apply Hr. auto.
  - intros s' Hs'. by rewrite Hsent.
Qed.

Lemma grows_subscribe w s r w' : bc_sender w s -> bc_subscribe s w = (r, w') -> grows w w'.
Proof.
  intros Hk H. apply bc_subscribe_spec in H as (_ & _ & Hs & Hr & Hsent & Hat); [|done].
  apply grows_keep; try done.
  - intros. by apply Hs.
  - intros. apply Hr. auto.
  - intros s' Hs'. by rewrite Hsent.
Qed.

Lemma grows_send w s m a w' : bc_sender w s -> bc_send s m w = (a, w') -> grows w w'.
Proof.
  intros Hk H. apply bc_send_spec in H as (Happ & Hs & Hr & Hsent & Hat); [|done].
  apply grows_keep; try done.
  - intros. by apply Hs.
  - intros. by apply Hr.
  - intros s' Hs'. destruct (decide (s' = s)) as [->|]; [rewrite Happ; by eexists|by rewrite Hsent].
Qed.

Lemma grows_recv w r a w' : bc_receiver w r -> bc_recv r w = (a, w') -> grows w w'.
Proof.
  intros Hk H. apply bc_recv_spec in H as (Hs & Hr & Hsent & Hat & Ha); [|done].
  constructor.
  - intros. by apply Hs.
  - intros. by apply Hr.
  - intros s' Hs'. by rewrite Hsent.
  - intros r' Hr' Hs'. rewrite (Hsent _ Hs').
    destruct (decide (r' = r)) as [->|]; [|by rewrite Hat].
    destruct a; [destruct Ha as [Hm ->]|destruct Ha as (? & ? & ->)| |];
      try (destruct Ha as [? ->]); cbn; repeat split; try lia.
    apply lookup_lt_Some in Hm. lia.
Qed.

Lemma take_sublist_grow {A} (l k : list A) i j :
  (i <= j)%nat -> take i l `sublist_of` take j (l ++ k).
Proof.
  intros Hij. rewrite take_app. apply sublist_inserts_r.
  rewrite <- (take_drop i (take j l)), take_take, Nat.min_l by done.
  by apply sublist_inserts_r.
Qed.

Lemma yielded_grows w w' rcv start got :
  grows w w' -> bc_receiver w rcv -> bc_sender w (bc_at w rcv).1 ->
  yielded w rcv start got -> yielded w' rcv start got.
Proof.
  intros G Hr Hs Hy. destruct (gr_at _ _ G rcv Hr Hs) as (E & Hle & _).
  destruct (gr_sent _ _ G _ Hs) as [k Hk]. unfold yielded in *. rewrite E, Hk, drop_app.
  etrans; [exact Hy|]. apply take_sublist_grow. lia.
Qed.

(** What one task relies on survives the steps of the others. *)
Record step_frame w rooms hist ts w' rooms' hist' ts' : Prop := {
  sf_grows : grows w w';
  sf_rooms r e : rooms !! r = Some e -> 0 < holders r ts ->
    bc_sender w (sender e) /\ exists e', rooms' !! r = Some e' /\ sender e' = sender e;
  sf_hist r e' hs' : 0 < holders r ts -> rooms' !! r = Some e' -> hist' !! r = Some hs' ->
    exists hs, hist !! r = Some hs /\
      forall m, m ∈ hs' -> m ∈ hs \/ TSend (sender e') m ∈ ts';
  sf_send s m : TSend s m ∈ ts -> bc_sender w s ->
    TSend s m ∈ ts' \/ m ∈ drop (length (bc_sent w s)) (bc_sent w' s);
}.

Lemma attached_frame w rooms hist ts w' rooms' hist' ts' r rcv start :
  step_frame w rooms hist ts w' rooms' hist' ts' -> 0 < holders r ts ->
  attached w rooms r rcv start -> attached w' rooms' r rcv start.
Proof.
  intros [G Hrooms _ _] Hh (e & He & Hrcv & Hat & Hpos).
  destruct (Hrooms r e He Hh) as (Hs & e' & He' & Hse). exists e'.
  rewrite <- Hat in *. destruct (gr_at _ _ G rcv Hrcv Hs) as (E & Hle & Hlen).
  split; [done|]. split; [by apply G|]. split; [congruence|].
  rewrite Hse. split; [lia|]. apply Hlen. lia.
Qed.

Lemma elem_drop_grows {A} (m : A) start l l' :
  l `prefix_of` l' -> m ∈ drop start l -> m ∈ drop start l'.
Proof. intros [k ->]. rewrite drop_app. set_solver. Qed.

Lemma elem_drop_le {A} (m : A) i j (l : list A) : (i <= j)%nat -> m ∈ drop j l -> m ∈ drop i l.
Proof.
  intros Hij. replace j with (i + (j - i))%nat by lia. rewrite <- drop_drop.
  intros Hm. rewrite <- (take_drop (j - i) (drop i l)). set_solver.
Qed.

Lemma handed_over_frame w rooms hist ts w' rooms' hist' ts' r since replay start rcv :
  step_frame w rooms hist ts w' rooms' hist' ts' -> 0 < holders r ts ->
  Forall (task_ok w rooms hist ts) ts -> attached w rooms r rcv start ->
  handed_over w rooms hist ts r since replay start ->
  handed_over w' rooms' hist' ts' r since replay start.
Proof.
  intros [G Hrooms Hhist Hsend] Hh Hok (e & He & _ & _ & Hpos) HO e' hs' m He' Hhs' Hm Hv.
  destruct (Hrooms r e He Hh) as (Hs & e'' & He'' & Hse). simplify_eq.
  destruct (Hhist r e' hs' Hh He' Hhs') as (hs & Hhs & Hsub).
  destruct (Hsub m Hm) as [Hin|]; [|by right; right].
  destruct (HO e hs m He Hhs Hin Hv) as [?|[Hd|Ht]]; [by left|right; left|].
  - rewrite Hse. eapply elem_drop_grows; [|exact Hd]. by apply G.
  - right. rewrite Hse. destruct (Hsend _ _ Ht Hs) as [?|Hd]; [by right|left].
    eapply elem_drop_le; [|exact Hd]. lia.
Qed.

Lemma task_ok_frame w rooms hist ts w' rooms' hist' ts' i t :
  step_frame w rooms hist ts w' rooms' hist' ts' ->
  Forall (task_ok w rooms hist ts) ts -> ts !! i = Some t ->
  task_ok w' rooms' hist' ts' t.
Proof.
  intros F Hall Hi. pose proof (Forall_lookup_1 _ _ _ _ Hall Hi) as Hok.
  assert (Hh : forall r, holds r t = true -> 0 < holders r ts).
  { intros r. by apply holders_pos with i. }
  destruct t as [| | | | |r since ? rcv start|r since bl rcv start got|r| |]; cbn in *; try done.
  - by apply (gr_sender _ _ (sf_grows _ _ _ _ _ _ _ _ F)).
  - destruct Hok as [? Hat]. split; [done|]. eapply attached_frame; eauto.
    apply Hh. by apply bool_decide_eq_true.
  - specialize (Hh r ltac:(by apply bool_decide_eq_true)). destruct Hok as (Hat & Hy & HO).
    split; [by eapply attached_frame|]. split.
    + destruct Hat as (e & He & Hrcv & Hse & _).
      eapply yielded_grows; [apply F|done| |done]. rewrite Hse.
      by eapply (sf_rooms _ _ _ _ _ _ _ _ F).
    + destruct since; [|done]. destruct bl; try done. by eapply handed_over_frame.
  - destruct Hok as [e He]. specialize (Hh r ltac:(by apply bool_decide_eq_true)).
    destruct (sf_rooms _ _ _ _ _ _ _ _ F r e He Hh) as (_ & e' & -> & _). by eexists.
Qed.

(** ** Every step keeps the invariant *)

Local Ltac run H := cbn in H; unfold bind, tbind, mget, mput, ret in H; cbn in H.

Lemma hub_inv_call h n w hist ts i t t' w' hist' :
  hub_inv h n w hist ts -> ts !! i = Some t ->
  (forall r e', lget w' !! r = Some e' ->
    exists hs', hist' !! r = Some hs' /\ room_ok h r e' hs' /\ (length hs' <= S n)%nat /\
      bc_sender w' (sender e') /\
      subscribers e' = holders r ts - Z.b2z (holds r t) + Z.b2z (holds r t') /\
      (subscribers e' = 0 -> TCollect r ∈ <[i := t']> ts)) ->
  step_frame w (lget w) hist ts w' (lget w') hist' (<[i := t']> ts) ->
  task_ok w' (lget w') hist' (<[i := t']> ts) t' ->
  hub_inv h (S n) w' hist' (<[i := t']> ts).
Proof.
  intros [Hrooms Htasks Hsize] Hi Hb Hf Ht'. constructor.
  - intros r e' He'. destruct (Hb r e' He') as (hs & ? & ? & ? & ? & Hsub & ?).
    exists hs. rewrite (holders_insert _ _ _ _ _ Hi). by split_and!.
  - apply Forall_lookup. intros j u Hj. destruct (decide (j = i)) as [->|Hne].
    + rewrite list_lookup_insert_eq in Hj by (by eapply lookup_lt_Some). by simplify_eq.
    + rewrite list_lookup_insert_ne in Hj by done. by eapply task_ok_frame.
  - rewrite length_insert. lia.
Qed.

(** A call that leaves the map alone. *)
Lemma hub_inv_quiet h n w hist ts i t t' w' :
  hub_inv h n w hist ts -> ts !! i = Some t -> grows w w' -> lget w' = lget w ->
  (forall r, holds r t' = holds r t) -> (forall r, t <> TCollect r) ->
  (forall s m, t = TSend s m -> m ∈ drop (length (bc_sent w s)) (bc_sent w' s)) ->
  task_ok w' (lget w) hist (<[i := t']> ts) t' ->
  hub_inv h (S n) w' hist (<[i := t']> ts).
Proof.
  intros Hinv Hi G Hw Hh Hc Hs Ht'. eapply hub_inv_call; [done|done| | |by rewrite Hw].
  - rewrite Hw. intros r e He.
    destruct (inv_rooms _ _ _ _ _ Hinv r e He) as (hs & ? & ? & ? & ? & -> & Hcol).
    exists hs. split; [done|]. split; [done|]. split; [lia|]. split; [by apply G|].
    split; [rewrite Hh; lia|]. intros Hz. eapply elem_insert_other; [done|auto|done].
  - constructor; [done| | |]; rewrite ?Hw.
    + intros r e He _. destruct (inv_rooms _ _ _ _ _ Hinv r e He) as (? & ? & ? & ? & ? & _).
      eauto.
    + intros. eexists. split; [done|]. auto.
    + intros s m Hm Hk. destruct (decide (TSend s m = t)) as [E|E].
      * right. by apply Hs.
      * left. by eapply elem_insert_other.
Qed.

(** A task joins. *)
Lemma hub_inv_spawn h n w hist ts t :
  hub_inv h n w hist ts -> (forall r, holds r t = false) ->
  task_ok w (lget w) hist (ts ++ [t]) t ->
  hub_inv h (S n) w hist (ts ++ [t]).
Proof.
  intros [Hrooms Htasks Hsize] Hh Ht.
  assert (step_frame w (lget w) hist ts w (lget w) hist (ts ++ [t])) as F.
  { constructor; [apply grows_refl| | |].
    - intros r e He _. destruct (Hrooms r e He) as (? & ? & ? & ? & ? & _). eauto.
    - intros. eexists. split; [done|]. auto.
    - intros. left. set_solver. }
  constructor.
  - intros r e He. destruct (Hrooms r e He) as (hs & ? & ? & ? & ? & Hsub & ?).
    exists hs. rewrite holders_snoc, Hh. split_and!; try done; [lia|cbn; lia|set_solver].
  - apply Forall_app. split; [|by constructor]. apply Forall_lookup. intros j u Hj.
    by eapply task_ok_frame.
  - rewrite length_app. cbn. lia.
Qed.

(** A call that changes one room and keeps its channel. *)
Lemma hub_inv_update h n w hist ts i t t' w' hist' r0 e e' hs hs' :
  hub_inv h n w hist ts -> ts !! i = Some t -> lget w !! r0 = Some e -> hist !! r0 = Some hs ->
  grows w w' -> lget w' = <[r0 := e']> (lget w) -> sender e' = sender e ->
  hist' !! r0 = Some hs' -> (forall r, r <> r0 -> hist' !! r = hist !! r) ->
  (forall m, m ∈ hs' -> m ∈ hs \/ TSend (sender e') m ∈ <[i := t']> ts) ->
  room_ok h r0 e' hs' -> (length hs' <= S n)%nat ->
  subscribers e' = subscribers e - Z.b2z (holds r0 t) + Z.b2z (holds r0 t') ->
  (subscribers e' = 0 -> TCollect r0 ∈ <[i := t']> ts) ->
  (forall r, r <> r0 -> holds r t' = holds r t) -> (forall r, t <> TCollect r) ->
  (forall s m, t <> TSend s m) -> task_ok w' (lget w') hist' (<[i := t']> ts) t' ->
  hub_inv h (S n) w' hist' (<[i := t']> ts).
Proof.
  intros Hinv Hi He Hhs G Hw Hse Hhs' Hoth Hnew Hok Hlen Hsub Hcol Hh Hnc Hns Ht'.
  destruct (inv_rooms _ _ _ _ _ Hinv r0 e He) as (? & ? & _ & _ & Hs & Hsub0 & _).
  eapply hub_inv_call; [done|done| | |done].
  - rewrite Hw. intros r e1 He1. destruct (decide (r = r0)) as [->|Hne].
    + rewrite lookup_insert_eq in He1. simplify_eq. exists hs'.
      rewrite Hse. split_and!; try done; [by apply G|lia].
    + rewrite lookup_insert_ne in He1 by done. rewrite Hoth, Hh by done.
      destruct (inv_rooms _ _ _ _ _ Hinv r e1 He1) as (hs1 & ? & ? & ? & ? & ? & ?).
      exists hs1. split_and!; try done; [lia|by apply G|lia|].
      intros. eapply elem_insert_other; [done|auto|done].
  - constructor; [done| | |]; rewrite ?Hw.
    + intros r e1 He1 _. destruct (inv_rooms _ _ _ _ _ Hinv r e1 He1) as (? & ? & ? & ? & ? & _).
      split; [done|]. destruct (decide (r = r0)) as [->|Hne].
      * rewrite lookup_insert_eq. simplify_eq. eauto.
      * rewrite lookup_insert_ne by done. eauto.
    + intros r e1 hs1 _ He1 Hhs1. destruct (decide (r = r0)) as [->|Hne].
      * rewrite lookup_insert_eq in He1. simplify_eq. eauto.
      * rewrite Hoth in Hhs1 by done. eauto.
    + intros s m Hm _. left. eapply elem_insert_other; [done|done|]. intros E. by apply (Hns s m).
Qed.

Lemma hub_inv_stamp h n w hist ts i msg t t' w' :
  hub_wf h -> Z.of_nat n + 2 <= u64_max -> hub_inv h n w hist ts ->
  ts !! i = Some t -> task_step h t w = (t', w') -> t = TPublish msg ->
  hub_inv h (S n) w' (hist_after t (lget w) hist) (<[i := t']> ts).
Proof.
  intros Hwf Hn Hinv Hi Hstep ->.
  pose proof (Forall_lookup_1 _ _ _ _ (inv_tasks _ _ _ _ _ Hinv) Hi) as Hp.
  cbn in Hp |- *. unfold stamp_and_retain in Hstep. run Hstep.
  destruct (lget w !! room msg) as [e|] eqn:He; cbn in Hstep.
  2:{ inv_pair. eapply hub_inv_quiet; [done|done|apply grows_refl|done..]. }
  destruct (inv_rooms _ _ _ _ _ Hinv _ e He) as (hs & Hhs & Hok & Hlen & Hs & Hsub & Hcol).
  pose proof (stamp_room_ok h (room msg) e hs msg Hwf Hok eq_refl Hp) as Hroom.
  assert (vec_len hs + 2 <= u64_max) as Hlt by (unfold vec_len; lia). specialize (Hroom Hlt).
  unfold retains in Hroom. cbn in Hroom.
  match type of Hroom with context [if ?b then ?x else ?y] =>
    destruct (if b then x else y) as [backlog bytes] end.
  set (m := stamp_version _ msg) in *. cbn in Hstep. inv_pair.
  eapply (hub_inv_update h n w hist ts i _ _ _ _ (room msg) e _ hs (hs ++ [m]));
    rewrite ?lget_lset; try done.
  - apply grows_lset.
  - by rewrite lookup_alter_eq, Hhs.
  - intros. by rewrite lookup_alter_ne.
  - intros m' [|Hm]%elem_of_app; [by left|right].
    apply list_elem_of_singleton in Hm as ->. by eapply elem_insert_self.
  - rewrite length_app. cbn. lia.
  - cbn. lia.
  - intros. eapply elem_insert_other; [done|auto|done].
  - cbn. by rewrite bc_sender_lset.
Qed.

(** Registering or releasing changes only the count of subscribers. *)
Definition set_subscribers (e : RoomEntry Sender) (k : Z) : RoomEntry Sender :=
  mkRoomEntry (sender e) k (next_version e) (entry_backlog e) (backlog_bytes e).

Lemma set_subscribers_ok h r e hs k : room_ok h r e hs -> room_ok h r (set_subscribers e k) hs.
Proof. by intros [? ? ? ?]. Qed.

Lemma hub_inv_enter_occupied h n w hist ts i r since existed t t' w' e :
  Z.of_nat n + 2 <= u64_max -> hub_inv h n w hist ts -> ts !! i = Some t ->
  task_step h t w = (t', w') -> t = TEnter r since existed -> lget w !! r = Some e ->
  hub_inv h (S n) w' hist (<[i := t']> ts).
Proof.
  intros Hn Hinv Hi Hstep -> He.
  pose proof (Forall_lookup_1 _ _ _ _ (inv_tasks _ _ _ _ _ Hinv) Hi) as Hp.
  cbn in Hp. unfold register_enter in Hstep. run Hstep. rewrite He in Hstep. run Hstep.
  destruct (inv_rooms _ _ _ _ _ Hinv _ e He) as (hs & Hhs & Hok & Hlen & Hs & Hsub & Hcol).
  destruct (bc_subscribe _ _) as [rcv w1] eqn:Hbc. cbn in Hstep. injection Hstep as <- <-.
  fold (set_subscribers e (u64_add (subscribers e) 1)) in Hbc.
  set (e' := set_subscribers _ _) in *. set (w0 := lset _ w) in *.
  assert (bc_sender w0 (sender e)) as Hs0 by by apply bc_sender_lset.
  assert (grows w w1) as G by (eapply grows_trans; [apply grows_lset|by eapply grows_subscribe]).
  assert (lget w1 = <[r := e']> (lget w)) as Hw1.
  { rewrite (keeps_run _ _ _ _ (bc_subscribe_keeps _) Hbc). apply lget_lset. }
  apply bc_subscribe_spec in Hbc as (_ & Hat & _ & Hr & Hsent & _); [|done].
  assert (0 <= holders r ts <= Z.of_nat n) as Hb.
  { pose proof (holders_le r ts). pose proof (inv_size _ _ _ _ _ Hinv).
    unfold holders, vec_len in *. lia. }
  eapply (hub_inv_update h n w hist ts i _ _ _ _ r e e' hs hs); try done; auto.
  - by apply set_subscribers_ok.
  - cbn. rewrite bool_decide_true by done. rewrite u64_add_small by lia. cbn. lia.
  - cbn. rewrite u64_add_small by lia. lia.
  - intros r' Hne. cbn. by rewrite bool_decide_false by congruence.
  - rewrite Hw1. cbn. split; [done|]. exists e'. rewrite lookup_insert_eq, Hat. cbn.
    split_and!; try done; [apply Hr; by left|]. by rewrite Hsent.
Qed.

Lemma inv_absent_holders h n w hist ts r :
  hub_inv h n w hist ts -> lget w !! r = None -> holders r ts = 0.
Proof.
  intros Hinv Hr. destruct (decide (holders r ts = 0)) as [|Hne]; [done|exfalso].
  assert (exists i t, ts !! i = Some t /\ holds r t = true) as (i & t & Hi & Ht).
  { unfold holders, vec_len in Hne. destruct (filter _ ts) as [|t l] eqn:E; [done|].
    assert (t ∈ filter (fun t => holds r t = true) ts) as Hf by (rewrite E; left).
    apply list_elem_of_filter in Hf as [? [i ?]%list_elem_of_lookup_1]. eauto. }
  pose proof (Forall_lookup_1 _ _ _ _ (inv_tasks _ _ _ _ _ Hinv) Hi) as Hok.
  destruct t; cbn in Ht; try done; apply bool_decide_eq_true in Ht as ->; cbn in Hok.
  - destruct Hok as [_ (e & He & _)]. congruence.
  - destruct Hok as [(e & He & _) _]. congruence.
  - destruct Hok as [e He]. congruence.
Qed.

Lemma room_ok_fresh h r (s : Sender) k : room_ok h r (mkRoomEntry s k 1 [] 0) [].
Proof.
  constructor; cbn; [done|done| |done]. unfold retained.
  destruct (retains h); [|done]. cbn. by destruct (fits h []).
Qed.

Lemma hub_inv_enter_vacant h n w hist ts i r since existed t t' w' :
  hub_inv h n w hist ts -> ts !! i = Some t -> task_step h t w = (t', w') ->
  t = TEnter r since existed -> lget w !! r = None ->
  hub_inv h (S n) w' (<[r := []]> hist) (<[i := t']> ts).
Proof.
  intros Hinv Hi Hstep -> He.
  pose proof (Forall_lookup_1 _ _ _ _ (inv_tasks _ _ _ _ _ Hinv) Hi) as Hp.
  pose proof (inv_absent_holders _ _ _ _ _ _ Hinv He) as Hz.
  cbn in Hp. unfold register_enter in Hstep. run Hstep. rewrite He in Hstep. run Hstep.
  destruct (bc_channel _ _) as [[s rcv] w1] eqn:Hbc. cbn in Hstep. injection Hstep as <- <-.
  assert (lget w1 = lget w) as Hw1
    by exact (keeps_run _ _ _ _ (bc_channel_keeps _) Hbc).
  assert (grows w w1) as G by by eapply grows_channel.
  apply bc_channel_spec in Hbc as (_ & _ & Hsent & Hat & Hs & Hr & _).
  set (e' := mkRoomEntry s 1 1 [] 0) in *.
  assert (grows w (lset (<[r:=e']> (lget w)) w1)) as G'
    by (eapply grows_trans; [exact G|apply grows_lset]).
  eapply hub_inv_call; [done|done| | |]; rewrite ?lget_lset.
  - intros r1 e1 He1. destruct (decide (r1 = r)) as [->|Hne].
    + rewrite lookup_insert_eq in He1. simplify_eq. exists []. rewrite lookup_insert_eq.
      cbn. rewrite bool_decide_true, bc_sender_lset, Hz by done.
      split_and!; try done; [apply room_ok_fresh|lia|apply Hs; by left].
    + rewrite lookup_insert_ne in He1 by done. rewrite lookup_insert_ne by done.
      destruct (inv_rooms _ _ _ _ _ Hinv r1 e1 He1) as (hs1 & ? & ? & ? & ? & ? & ?).
      exists hs1. cbn. rewrite bool_decide_false by congruence.
      split_and!; try done; [lia|by apply G'|cbn; lia|].
      intros. eapply elem_insert_other; [done|auto|done].
  - constructor; [done| | |].
    + intros r1 e1 He1 _. destruct (inv_rooms _ _ _ _ _ Hinv r1 e1 He1) as (? & ? & ? & ? & ? & _).
      split; [done|]. exists e1. rewrite lookup_insert_ne by congruence. done.
    + intros r1 e1 hs1 Hpos He1 Hhs1. rewrite lookup_insert_ne in Hhs1; [eauto|]. intros ->. lia.
    + intros s1 m Hm _. left. by eapply elem_insert_other.
  - cbn. split; [done|]. exists e'. rewrite lookup_insert_eq, bc_receiver_lset, bc_at_lset,
      bc_sent_lset, Hat. cbn. rewrite Hsent. split_and!; try done. apply Hr. by left.
Qed.

Lemma hub_inv_release h n w hist ts i r t t' w' :
  hub_inv h n w hist ts -> ts !! i = Some t -> task_step h t w = (t', w') -> t = TDropping r ->
  hub_inv h (S n) w' hist (<[i := t']> ts).
Proof.
  intros Hinv Hi Hstep ->.
  pose proof (Forall_lookup_1 _ _ _ _ (inv_tasks _ _ _ _ _ Hinv) Hi) as [e He].
  unfold RoomGuard_release in Hstep. run Hstep. rewrite He in Hstep. run Hstep.
  injection Hstep as <- <-.
  destruct (inv_rooms _ _ _ _ _ Hinv _ e He) as (hs & Hhs & Hok & Hlen & Hs & Hsub & Hcol).
  assert (0 < holders r ts) as Hpos.
  { eapply holders_pos; [done|]. cbn. by apply bool_decide_eq_true. }
  set (k := Z.max 0 (subscribers e - 1)) in *.
  fold (set_subscribers e k).
  eapply (hub_inv_update h n w hist ts i _ _ _ _ r e (set_subscribers e k) hs hs);
    rewrite ?lget_lset; try done; auto using grows_lset.
  - by apply set_subscribers_ok.
  - cbn. rewrite bool_decide_true by done. destruct (k =? 0); cbn; lia.
  - cbn. intros ->. cbn. by eapply elem_insert_self.
  - intros r' Hne. cbn. rewrite bool_decide_false by congruence. by destruct (k =? 0).
  - by destruct (k =? 0).
Qed.

Lemma hub_inv_collect h n w hist ts i r t t' w' :
  hub_inv h n w hist ts -> ts !! i = Some t -> task_step h t w = (t', w') -> t = TCollect r ->
  hub_inv h (S n) w' hist (<[i := t']> ts).
Proof.
  intros Hinv Hi Hstep ->.
  unfold RoomGuard_collect in Hstep. run Hstep.
  assert (t' = TDone /\ lget w' = match lget w !! r with
     | Some e => if subscribers e =? 0 then delete r (lget w) else lget w
     | None => lget w end /\ grows w w') as (-> & Hw & G).
  { destruct (lget w !! r) as [e|]; [|injection Hstep as <- <-; auto using grows_refl].
    destruct (subscribers e =? 0); cbn in Hstep; injection Hstep as <- <-;
      rewrite ?lget_lset; auto using grows_refl, grows_lset. }
  clear Hstep. assert (forall r1 e1, lget w' !! r1 = Some e1 ->
    lget w !! r1 = Some e1 /\ (r1 = r -> subscribers e1 <> 0)) as Hsub.
  { intros r1 e1. rewrite Hw. destruct (lget w !! r) as [e|] eqn:E; [|naive_solver].
    destruct (Z.eqb_spec (subscribers e) 0); [|naive_solver].
    intros [? ?]%lookup_delete_Some. naive_solver. }
  assert (forall r1 e1, lget w !! r1 = Some e1 -> 0 < holders r1 ts -> lget w' !! r1 = Some e1)
    as Hkeep.
  { intros r1 e1 He1 Hpos. destruct (inv_rooms _ _ _ _ _ Hinv r1 e1 He1) as (? & ? & ? & ? & ? & Hk & _).
    rewrite Hw. destruct (lget w !! r) as [e|] eqn:E; [|done].
    destruct (Z.eqb_spec (subscribers e) 0); [|done].
    rewrite lookup_delete_ne; [done|]. intros ->. simplify_eq. lia. }
  eapply hub_inv_call; [done|done| | |done].
  - intros r1 e1 He1. destruct (Hsub r1 e1 He1) as [He Hne].
    destruct (inv_rooms _ _ _ _ _ Hinv r1 e1 He) as (hs1 & ? & ? & ? & ? & ? & Hc).
    exists hs1. split_and!; try done; [lia|by apply G|cbn; lia|].
    intros Hz. eapply elem_insert_other; [done|by apply Hc|]. intros [= ->]. by apply Hne.
  - constructor; [done| | |].
    + intros r1 e1 He1 Hpos. destruct (inv_rooms _ _ _ _ _ Hinv r1 e1 He1) as (? & ? & ? & ? & ? & _).
      eauto.
    + intros r1 e1 hs1 _ He1 Hhs1. eauto.
    + intros s m Hm _. left. by eapply elem_insert_other.
Qed.

Lemma read_backlog_pure h r since existed w :
  (read_backlog h r since existed w).2 = w /\
  (forall replay, (read_backlog h r since existed w).1 = Replayed replay ->
    exists n, since = Some n /\
      forall e, lget w !! r = Some e -> entry_since n e = Replayed replay).
Proof.
  unfold read_backlog. destruct since as [n|]; [|done].
  destruct (hub_backlog h =? 0); [done|]. destruct existed; [|done].
  unfold bind, mget, ret. cbn. split; [done|]. intros replay Hr. exists n. split; [done|].
  intros e He. by rewrite He in Hr.
Qed.

Lemma hub_inv_read h n w hist ts i r since existed rcv start t t' w' :
  Z.of_nat n + 2 <= u64_max -> hub_inv h n w hist ts -> ts !! i = Some t ->
  task_step h t w = (t', w') -> t = TRead r since existed rcv start ->
  hub_inv h (S n) w' hist (<[i := t']> ts).
Proof.
  intros Hn Hinv Hi Hstep ->.
  pose proof (Forall_lookup_1 _ _ _ _ (inv_tasks _ _ _ _ _ Hinv) Hi) as [Hsf Hat].
  cbn in Hstep. unfold bind in Hstep.
  destruct (read_backlog_pure h r since existed w) as [Hw Hr].
  destruct (read_backlog h r since existed w) as [bl w1]. cbn in Hw, Hr. subst w1.
  injection Hstep as <- <-.
  eapply hub_inv_quiet; [done|done|apply grows_refl|done..|]. cbn.
  split; [done|]. split; [apply sublist_nil_l|].
  destruct since as [k|]; [|done]. destruct bl as [replay| |]; [|done..].
  intros e hs m He Hhs Hm Hv. left. destruct (Hr _ eq_refl) as (? & [= <-] & Hes).
  destruct (inv_rooms _ _ _ _ _ Hinv r e He) as (? & ? & Hok & Hlen & _). simplify_eq.
  assert (version m <= Z.of_nat n) as Hvm.
  { apply list_elem_of_lookup_1 in Hm as [j Hj].
    pose proof (lookup_lt_Some _ _ _ Hj). destruct (ro_versions _ _ _ _ Hok _ _ Hj). lia. }
  pose proof (entry_since_spec h r e hs k Hok) as Hspec. rewrite (Hes e He) in Hspec.
  cbn in Hsf. rewrite Hspec by lia. by apply list_elem_of_filter.
Qed.

Lemma hub_inv_recv h n w hist ts i r since bl rcv start got t t' w' :
  hub_inv h n w hist ts -> ts !! i = Some t -> task_step h t w = (t', w') ->
  t = TLive r since bl rcv start got ->
  hub_inv h (S n) w' hist (<[i := t']> ts).
Proof.
  intros Hinv Hi Hstep Et. subst t. pose proof (inv_tasks _ _ _ _ _ Hinv) as Hall.
  pose proof (Forall_lookup_1 _ _ _ _ Hall Hi) as (Hat & Hy & HO).
  pose proof Hat as (e & He & Hrcv & Hse & Hpos).
  run Hstep. destruct (bc_recv rcv w) as [a w1] eqn:Hbc. injection Hstep as <- <-.
  assert (lget w1 = lget w) as Hw1
    by exact (keeps_run _ _ _ _ (bc_recv_keeps _) Hbc).
  assert (grows w w1) as G by by eapply grows_recv.
  destruct (inv_rooms _ _ _ _ _ Hinv _ e He) as (hs & Hhs & _ & _ & Hs & _).
  assert (forall got', yielded w1 rcv start got' ->
    hub_inv h (S n) w1 hist (<[i := TLive r since bl rcv start got']> ts)) as Hlive.
  { intros got' Hy'. eapply hub_inv_quiet; [done|done|done|done|done..|].
    assert (step_frame w (lget w) hist ts w1 (lget w) hist
      (<[i := TLive r since bl rcv start got']> ts)) as F.
    { constructor; [done| | |]; [|eauto|].
      - intros r1 e1 He1 _. destruct (inv_rooms _ _ _ _ _ Hinv r1 e1 He1) as (? & ? & ? & ? & ? & _).
        eauto.
      - intros s m Hm _. left. by eapply elem_insert_other. }
    pose proof (task_ok_frame _ _ _ _ _ _ _ _ _ _ F Hall Hi) as (? & _ & ?). done. }
  assert (Hyg : yielded w1 rcv start got).
  { eapply yielded_grows; [done|done|by rewrite Hse|done]. }
  apply bc_recv_spec in Hbc as (_ & _ & Hsent & _ & Ha); [|done]. rewrite Hse in *.
  destruct a as [m| | |]; [|by apply Hlive| |by apply Hlive].
  - apply Hlive. destruct Ha as [Hm Hat']. unfold yielded in *. rewrite Hat'. cbn.
    rewrite Hsent, Nat.sub_succ_l by (done || lia).
    erewrite take_S_r; [|rewrite lookup_drop; by replace (start + _)%nat with (bc_at w rcv).2 by lia].
    apply sublist_app; [|done]. by rewrite Hse in Hy.
  - eapply hub_inv_quiet; [done|done|done|done|done..|]. cbn. by eexists.
Qed.

Lemma hub_inv_step h n st st' :
  hub_wf h -> Z.of_nat n + 2 <= u64_max ->
  hub_inv h n (hs_world st) (hs_hist st) (hs_tasks st) -> hub_step h st st' ->
  hub_inv h (S n) (hs_world st') (hs_hist st') (hs_tasks st').
Proof.
  intros Hwf Hn Hinv Hstep. destruct Hstep as
    [st msg Hp|st r since Hs|st i t t' w' Hi Hcall|st i r since bl rcv start got Hi]; cbn.
  - by apply hub_inv_spawn.
  - by apply hub_inv_spawn.
  - pose proof (Forall_lookup_1 _ _ _ _ (inv_tasks _ _ _ _ _ Hinv) Hi) as Hok.
    destruct t as [msg|s m|r since|r since ex|r since ex|r since ex rcv start
                  |r since bl rcv start got|r|r|].
    + by eapply hub_inv_stamp.
    + run Hcall. destruct (bc_send s m (hs_world st)) as [a w1] eqn:Hbc. injection Hcall as <- <-.
      eapply hub_inv_quiet; [done|done|by eapply grows_send| |done|done| |done].
      * exact (keeps_run _ _ _ _ (bc_send_keeps _ _) Hbc).
      * intros s' m' [= <- <-]. apply bc_send_spec in Hbc as (-> & _); [|done].
        rewrite drop_app_length. by left.
    + run Hcall. injection Hcall as <- <-.
      by eapply hub_inv_quiet; [done|done|apply grows_refl|done..].
    + unfold register_check in Hcall. run Hcall. revert Hcall.
      match goal with |- context [if ?b then Err _ else _] => destruct b end;
        intros Hcall; injection Hcall as <- <-;
        by eapply hub_inv_quiet; [done|done|apply grows_refl|done..].
    + cbn [hist_after]. destruct (lget (hs_world st) !! r) as [e|] eqn:E.
      * by eapply hub_inv_enter_occupied.
      * by eapply hub_inv_enter_vacant.
    + by eapply hub_inv_read.
    + by eapply hub_inv_recv.
    + by eapply hub_inv_release.
    + by eapply hub_inv_collect.
    + run Hcall. injection Hcall as <- <-.
      by eapply hub_inv_quiet; [done|done|apply grows_refl|done..].
  - pose proof (Forall_lookup_1 _ _ _ _ (inv_tasks _ _ _ _ _ Hinv) Hi) as ((e & He & _) & _).
    eapply hub_inv_quiet; [done|done|apply grows_refl|done..|]. cbn. by eexists.
Qed.

Lemma hub_reach_inv h n st :
  hub_wf h -> Z.of_nat n + 1 <= u64_max -> hub_reach h n st ->
  hub_inv h n (hs_world st) (hs_hist st) (hs_tasks st).
Proof.
  intros Hwf Hn. induction 1 as [w Hw|n st st' Hr IH Hstep]; cbn.
  - constructor; cbn; [|done|done]. rewrite Hw. intros r e He. by rewrite lookup_empty in He.
  - eapply hub_inv_step; [done| |apply IH|done]; lia.
Qed.
End StepLemmas.

(** ** Room identifiers: what parsing accepts *)

Lemma wide_char_disallowed c : is_allowed (wide_char c) = false.
Proof.
  unfold wide_char, is_allowed, is_ascii_alphanumeric, replacement_char.
  destruct (c <? 128) eqn:E; [done|lia].
Qed.

Lemma high_byte_disallowed b : 128 <= b -> is_allowed b = false.
Proof. unfold is_allowed, is_ascii_alphanumeric. lia. Qed.

(** The first character decides whether its byte is ASCII. *)
Lemma chars_cons a s :
  (byte_of a < 128 /\ chars (String a s) = byte_of a :: chars s) \/
  (128 <= byte_of a /\ exists c cs, chars (String a s) = c :: cs /\ is_allowed c = false).
Proof.
  cbn [chars]. destruct (Z.ltb_spec (byte_of a) 128) as [Hlt|Hge]; [by left|right].
  split; [done|]. destruct (byte_of a <? 224).
  { destruct s; do 2 eexists; split; try done. apply wide_char_disallowed. }
  destruct (byte_of a <? 240).
  { destruct s as [|? [|? ?]]; do 2 eexists; split; try done. apply wide_char_disallowed. }
  destruct s as [|? [|? [|? ?]]]; do 2 eexists; split; try done. apply wide_char_disallowed.
Qed.

Lemma chars_allowed s :
  List.find (fun c => negb (is_allowed c)) (chars s) = None <->
  Forall (fun a => is_allowed (byte_of a) = true) (String.list_ascii_of_string s).
Proof.
  induction s as [|a s IH]; cbn [String.list_ascii_of_string]; [cbn; done|].
  rewrite Forall_cons, <- IH. destruct (chars_cons a s) as [[_ ->]|[Hge (c & cs & -> & Hc)]]; cbn.
  - destruct (is_allowed (byte_of a)); cbn; naive_solver.
  - rewrite Hc. cbn. rewrite (high_byte_disallowed _ Hge). naive_solver.
Qed.

Lemma find_split {A} (f : A -> bool) l x :
  List.find f l = Some x ->
  exists pre suf, l = pre ++ x :: suf /\ f x = true /\ Forall (fun y => f y = false) pre.
Proof.
  induction l as [|y l IH]; cbn; [done|]. destruct (f y) eqn:E.
  - intros [= ->]. exists [], l. auto.
  - intros (pre & suf & -> & ? & ?)%IH. exists (y :: pre), suf. auto.
Qed.

Lemma allowed_printable b :
  is_allowed b = true -> 45 <= b <= 122 /\ b <> 62 /\ b <> 42.
Proof. unfold is_allowed, is_ascii_alphanumeric. lia. Qed.


(** ** A concrete broadcast channel

    Messages are kept in full and a receiver counts the messages it has not
    read; one further behind than the capacity is moved to the oldest message
    the capacity covers. *)

Record Bus := mkBus {
  bus_chans : list (Z * list RealtimeMessage);
  bus_receivers : list (nat * nat);
}.

Definition bus_capacity (b : Bus) (s : nat) : Z := from_option fst 0 (bus_chans b !! s).
Definition bus_sent (b : Bus) (s : nat) : list RealtimeMessage :=
  from_option snd [] (bus_chans b !! s).
Definition bus_at (b : Bus) (r : nat) : nat * nat :=
  let '(s, unread) := default (0%nat, 0%nat) (bus_receivers b !! r) in
  (s, (length (bus_sent b s) - unread)%nat).
Definition bus_seek (b : Bus) (r s n : nat) : Bus :=
  mkBus (bus_chans b) (<[r := (s, (length (bus_sent b s) - n)%nat)]> (bus_receivers b)).

Abbreviation HubWorld := (Rooms nat * Bus)%type (only parsing).

Definition bus_recv (r : nat) : M HubWorld RecvPoll := fun w =>
  let b := w.2 in
  let '(s, n) := bus_at b r in
  match bus_sent b s !! n with
  | None => (RecvPending, w)
  | Some m =>
      let behind := (length (bus_sent b s) - n)%nat in
      let keep := Nat.max 1 (Z.to_nat (bus_capacity b s)) in
      if (keep <? behind)%nat
      then (RecvLagged (Z.of_nat (behind - keep)), (w.1, bus_seek b r s (n + (behind - keep))))
      else (RecvOk m, (w.1, bus_seek b r s (S n)))
  end.

#[export] Instance bus_broadcast : Broadcast HubWorld nat nat := {
  bc_channel cap := fun w =>
    let b := w.2 in
    ((length (bus_chans b), length (bus_receivers b)),
     (w.1, mkBus (bus_chans b ++ [(cap, [])])
             (bus_receivers b ++ [(length (bus_chans b), 0%nat)])));
  bc_subscribe s := fun w =>
    let b := w.2 in
    (length (bus_receivers b), (w.1, mkBus (bus_chans b) (bus_receivers b ++ [(s, 0%nat)])));
  bc_send s m := fun w =>
    let b := w.2 in
    (Ok (vec_len (bus_receivers b)),
     (w.1, mkBus (<[s := (bus_capacity b s, bus_sent b s ++ [m])]> (bus_chans b))
             ((fun p => if decide (p.1 = s) then (p.1, S p.2) else p) <$> bus_receivers b)));
  bc_recv := bus_recv;
}.

Lemma bus_sent_snoc cs rs rs' cap s :
  bus_sent (mkBus (cs ++ [(cap, [])]) rs') s = bus_sent (mkBus cs rs) s.
Proof.
  unfold bus_sent. cbn. destruct (decide (s < length cs)%nat).
  - by rewrite lookup_app_l.
  - rewrite (lookup_ge_None_2 cs s) by lia. rewrite lookup_app_r by lia.
    by destruct (s - length cs)%nat.
Qed.

Lemma bus_seek_at b r s n :
  (r < length (bus_receivers b))%nat -> (n <= length (bus_sent b s))%nat ->
  bus_at (bus_seek b r s n) r = (s, n).
Proof.
  intros Hr Hn. unfold bus_at, bus_seek. cbn. rewrite list_lookup_insert_eq by done. cbn.
  unfold bus_sent in *. cbn. f_equal. lia.
Qed.

Lemma bus_recv_at b r s n :
  bus_at b r = (s, n) -> bus_sent b s !! n = None -> n = length (bus_sent b s).
Proof.
  unfold bus_at. destruct (default _ _) as [s' u]. intros [= -> <-] ?%lookup_ge_None_1. lia.
Qed.

Lemma bus_at_send cs rs s m r cap :
  (s < length cs)%nat -> (r < length rs)%nat ->
  bus_at (mkBus (<[s := (cap, bus_sent (mkBus cs rs) s ++ [m])]> cs)
            ((fun p => if decide (p.1 = s) then (p.1, S p.2) else p) <$> rs)) r
  = bus_at (mkBus cs rs) r.
Proof.
  intros Hs Hr. unfold bus_at. cbn. rewrite list_lookup_fmap.
  destruct (lookup_lt_is_Some_2 rs r Hr) as [[s' u] ->]. cbn.
  unfold bus_sent. cbn. destruct (decide (s' = s)) as [->|Hne]; cbn.
  - rewrite list_lookup_insert_eq by done. cbn. rewrite length_app. cbn. f_equal. lia.
  - by rewrite list_lookup_insert_ne.
Qed.

Lemma bus_at_seek_ne b r r' s n : r' <> r -> bus_at (bus_seek b r s n) r' = bus_at b r'.
Proof. intros. unfold bus_at, bus_seek. cbn. by rewrite list_lookup_insert_ne. Qed.

Lemma bus_recv_law (w : HubWorld) r a w' :
  (r < length (bus_receivers w.2))%nat -> bc_recv r w = (a, w') ->
  (exists k, bus_chans w'.2 = bus_chans w.2 /\
     length (bus_receivers w'.2) = length (bus_receivers w.2) /\
     (forall r', r' <> r -> bus_at w'.2 r' = bus_at w.2 r') /\
     bus_at w'.2 r = ((bus_at w.2 r).1, ((bus_at w.2 r).2 + k)%nat) /\
     match a with
     | RecvOk m => bus_sent w.2 (bus_at w.2 r).1 !! (bus_at w.2 r).2 = Some m /\ k = 1%nat
     | RecvLagged j => 0 < j /\ k = Z.to_nat j /\
         ((bus_at w.2 r).2 + k <= length (bus_sent w.2 (bus_at w.2 r).1))%nat
     | RecvClosed | RecvPending =>
         (bus_at w.2 r).2 = length (bus_sent w.2 (bus_at w.2 r).1) /\ k = 0%nat
     end).
Proof.
  intros Hr H. change (bus_recv r w = (a, w')) in H. unfold bus_recv in H.
  destruct (bus_at w.2 r) as [s n] eqn:Hat.
  destruct (bus_sent w.2 s !! n) as [m|] eqn:Hm.
  - pose proof (lookup_lt_Some _ _ _ Hm) as Hlt.
    destruct (Nat.ltb_spec (Nat.max 1 (Z.to_nat (bus_capacity w.2 s)))
                (length (bus_sent w.2 s) - n)) as [Hlag|Hok]; injection H as <- <-; cbn.
    + eexists. rewrite length_insert, bus_seek_at by (done || lia).
      split_and!; try done; [|lia|lia|lia]. intros. by apply bus_at_seek_ne.
    + exists 1%nat. rewrite length_insert, bus_seek_at by (done || lia).
      split_and!; try done; [intros; by apply bus_at_seek_ne|f_equal; lia].
  - injection H as <- <-. exists 0%nat. rewrite Hat. cbn. rewrite Nat.add_0_r.
    split_and!; try done. by eapply bus_recv_at.
Qed.

#[export] Instance bus_laws : BroadcastLaws HubWorld nat nat.
Proof.
  refine {|
    bc_sender w s := (s < length (bus_chans w.2))%nat;
    bc_receiver w r := (r < length (bus_receivers w.2))%nat;
    bc_sent w s := bus_sent w.2 s;
    bc_at w r := bus_at w.2 r;
  |}.
  - intros [rooms [cs rs]] cap s r w' [= <- <- <-]. cbn.
    assert (bus_sent (mkBus cs rs) (length cs) = []) as Hnil.
    { unfold bus_sent. cbn. by rewrite lookup_ge_None_2. }
    rewrite !length_app, (bus_sent_snoc cs rs), Hnil. cbn. unfold bus_at. cbn.
    rewrite list_lookup_middle by done. cbn. rewrite (bus_sent_snoc cs rs), Hnil.
    split_and!; try lia; try done; intros; try (cbn; lia); [by apply bus_sent_snoc|].
    rewrite lookup_app_l by lia. destruct (default _ _). by rewrite (bus_sent_snoc cs rs).
  - intros [rooms [cs rs]] s r w' Hs [= <- <-]. cbn. unfold bus_at. cbn.
    rewrite !length_app, !list_lookup_middle by done. cbn.
    split_and!; try lia; try done; intros; try (cbn; lia).
    + f_equal. apply Nat.sub_0_r.
    + by rewrite lookup_app_l by lia.
  - intros [rooms [cs rs]] s m a w' Hs [= <- <-]. cbn in *.
    rewrite length_insert, length_fmap. split_and!; try done; intros.
    + unfold bus_sent at 1. cbn. by rewrite list_lookup_insert_eq.
    + unfold bus_sent. cbn. by rewrite list_lookup_insert_ne.
    + by apply bus_at_send.
  - intros w r a w' Hr H. destruct (bus_recv_law w r a w' Hr H) as (k & Hc & Hl & Hoth & Hat & Ha).
    rewrite Hc, Hl, Hat. unfold bus_sent in *. rewrite Hc in *.
    split_and!; try done; [auto|]. destruct (bus_at w.2 r) as [s n]. cbn in *.
    destruct a; destruct Ha; subst; cbn; rewrite ?Nat.add_1_r, ?Nat.add_0_r; naive_solver.
Defined.

#[export] Instance bus_frame : HubFrame HubWorld nat nat.
Proof.
  constructor; try done. intros r w. change (bc_recv r w) with (bus_recv r w). unfold bus_recv.
  destruct (bus_at w.2 r) as [s n].
  destruct (bus_sent w.2 s !! n); [|done]. by destruct (_ <? _)%nat.
Qed.

(** ** Executable plans *)

Inductive Act :=
| APublish (msg : RealtimeMessage)
| ASubscribe (r : RoomId) (since : option Z)
| ACall (i : nat)
| ADrop (i : nat).

#[export] Instance since_fits_dec since : Decision (since_fits since).
Proof. destruct since; cbn; apply _. Defined.
#[export] Instance payload_fits_dec m : Decision (payload_fits m).
Proof. unfold payload_fits. apply _. Defined.

Section Plans.
Context {W Sender Receiver : Type} `{!Lens W (Rooms Sender), !LensLaws W (Rooms Sender)}
  `{!Broadcast W Sender Receiver, !BroadcastLaws W Sender Receiver}.

Definition act (h : InMemoryHub) (a : Act) (st : HubState W Sender Receiver)
  : option (HubState W Sender Receiver) :=
  let '(mkHubState w hist ts) := st in
  match a with
  | APublish msg =>
      if decide (payload_fits msg) then Some (mkHubState w hist (ts ++ [TPublish msg])) else None
  | ASubscribe r since =>
      if decide (since_fits since) then Some (mkHubState w hist (ts ++ [TSubscribe r since])) else None
  | ACall i =>
      t ← ts !! i;
      let '(t', w') := task_step h t w in
      Some (mkHubState w' (hist_after t (lget w) hist) (<[i := t']> ts))
  | ADrop i =>
      match ts !! i with
      | Some (TLive r _ _ _ _ _) => Some (mkHubState w hist (<[i := TDropping r]> ts))
      | _ => None
      end
  end.

Fixpoint acts (h : InMemoryHub) (plan : list Act) (st : HubState W Sender Receiver)
  : option (HubState W Sender Receiver) :=
  match plan with
  | [] => Some st
  | a :: plan' => st' ← act h a st; acts h plan' st'
  end.

Lemma act_step h a st st' : act h a st = Some st' -> hub_step h st st'.
Proof.
  destruct st as [w hist ts], a as [msg|r since|i|i]; cbn.
  - destruct (decide _); [|done]. intros [= <-]. by apply (hub_publish h (mkHubState w hist ts)).
  - destruct (decide _); [|done]. intros [= <-]. by apply (hub_subscribe h (mkHubState w hist ts)).
  - destruct (ts !! i) as [t|] eqn:Hi; cbn; [|done].
    destruct (task_step h t w) as [t' w'] eqn:Ht. intros [= <-].
    by apply (hub_call h (mkHubState w hist ts) i t t' w').
  - destruct (ts !! i) as [[]|] eqn:Hi; try done. intros [= <-].
    by eapply (hub_drop h (mkHubState w hist ts)).
Qed.

Lemma acts_reach h plan n st st' :
  hub_reach h n st -> acts h plan st = Some st' -> hub_reach h (length plan + n) st'.
Proof.
  revert n st. induction plan as [|a plan IH]; intros n st Hr; cbn; [by intros [= <-]|].
  destruct (act h a st) as [st1|] eqn:Ha; cbn; [|done]. intros H.
  replace (S (length plan + n)) with (length plan + S n)%nat by lia.
  eapply IH; [|exact H]. econstructor; [exact Hr|]. by apply act_step in Ha.
Qed.
End Plans.

(** ** What the hub promises *)

Section HubTheorems.
Context {W Sender Receiver : Type} `{!Lens W (Rooms Sender), !LensLaws W (Rooms Sender)}
  `{!Broadcast W Sender Receiver, !BroadcastLaws W Sender Receiver, !HubFrame W Sender Receiver}
  `{!EqDecision Sender, !EqDecision Receiver}.
Context (h : InMemoryHub) (Hwf : hub_wf h).
Context (n : nat) (st : HubState W Sender Receiver).
Context (Hn : Z.of_nat n + 1 <= u64_max) (Hreach : hub_reach h n st).

(** Where a message can be for a client whose stream reads channel [s] from
    position [start]: in its replay, sent to the channel since, or stamped
    and about to be sent there. *)
Definition accounted_for (replay : list RealtimeMessage) (start : nat) (s : Sender)
  (m : RealtimeMessage) : Prop :=
  m ∈ replay \/ m ∈ drop start (bc_sent (hs_world st) s) \/ TSend s m ∈ hs_tasks st.

(** C26: Under any interleaving of publishers and subscribers, the messages
    stamped in a room since it was created carry the versions 1, 2, 3, ...
    with none repeated or skipped, the next version follows them, and the
    retained backlog is the longest suffix of those messages within both the
    message and the byte limit (empty when retention is off); the running byte
    count is the exact size of the backlog. *)
Theorem hub_backlog_longest_suffix r e :
  lget (hs_world st) !! r = Some e ->
  exists hs, hs_hist st !! r = Some hs /\
    (forall i m, hs !! i = Some m -> version m = Z.of_nat i + 1 /\ room m = r) /\
    next_version e = vec_len hs + 1 /\
    entry_backlog e = (if retains h then longest_fit h hs else []) /\
    backlog_bytes e = payload_bytes (entry_backlog e) /\
    vec_len (entry_backlog e) <= hub_backlog h /\ backlog_bytes e <= max_backlog_bytes h.
Proof.
  intros He. destruct (inv_rooms _ _ _ _ _ (hub_reach_inv _ _ _ Hwf Hn Hreach) r e He)
    as (hs & Hhs & [Hv Hnx Hb Hby] & _).
  exists hs. pose proof (retained_fits h hs Hwf) as [? ?]%fits_spec. rewrite Hby, Hb.
  split_and!; try done. intros i m Hm. apply Hv in Hm as (? & ? & _). done.
Qed.

(** C27: Rooms follow their subscribers under any interleaving: a room counts
    exactly the subscriptions that hold it; the room of a live stream is in
    the map, and its stream listens on the channel the room publishes to; a
    room nobody holds is only in the map while the guard that emptied it is
    about to remove it.  What a stream has yielded are messages sent since it
    was created, in order and none twice. *)
Theorem rooms_follow_subscribers :
  (forall r e, lget (hs_world st) !! r = Some e ->
    subscribers e = holders r (hs_tasks st) /\
    (holders r (hs_tasks st) = 0 -> TCollect r ∈ hs_tasks st)) /\
  (forall i r since bl rcv start got,
    hs_tasks st !! i = Some (TLive r since bl rcv start got) ->
    exists e, lget (hs_world st) !! r = Some e /\ 0 < subscribers e /\
      (bc_at (hs_world st) rcv).1 = sender e /\
      got `sublist_of` drop start (bc_sent (hs_world st) (sender e))).
Proof.
  pose proof (hub_reach_inv _ _ _ Hwf Hn Hreach) as Hinv. split.
  - intros r e He. destruct (inv_rooms _ _ _ _ _ Hinv r e He) as (? & _ & _ & _ & _ & Hs & Hc).
    split; [done|]. rewrite <- Hs. done.
  - intros i r since bl rcv start got Hi.
    pose proof (Forall_lookup_1 _ _ _ _ (inv_tasks _ _ _ _ _ Hinv) Hi) as ((e & He & _ & Hse & _) & Hy & _).
    destruct (inv_rooms _ _ _ _ _ Hinv r e He) as (? & _ & _ & _ & _ & Hs & _).
    exists e. split_and!; try done.
    + rewrite Hs. eapply holders_pos; [exact Hi|]. cbn. by apply bool_decide_eq_true.
    + unfold yielded in Hy. rewrite Hse in Hy. etrans; [exact Hy|].
      rewrite <- (take_drop ((bc_at (hs_world st) rcv).2 - start) (drop start _)) at 2.
      by apply sublist_inserts_r.
Qed.


(** What a reconnecting client is told is exact: [Replayed] holds every
    message of the room after [since]; [Gap] names the oldest version that is
    still retained, when the one after [since] is not; [Unavailable] means
    that retention is off, that the room did not exist before, or that
    something was published and nothing is retained. *)
Theorem since_answer_exact r e hs since existed :
  lget (hs_world st) !! r = Some e -> hs_hist st !! r = Some hs -> 0 <= since < u64_max ->
  match (read_backlog h r (Some since) existed (hs_world st)).1 with
  | Replayed l => existed = true /\ l = filter (fun m => since < version m) hs
  | Gap o => since + 1 < o /\
      exists k m, retained h hs = drop k hs /\ hs !! k = Some m /\ version m = o
  | Unavailable => existed = false \/ hub_backlog h = 0 \/ (hs <> [] /\ retained h hs = [])
  end.
Proof.
  intros He Hhs Hs. unfold read_backlog.
  destruct (Z.eqb_spec (hub_backlog h) 0); [by right; left|].
  destruct existed; [|by left]. cbn. rewrite He.
  destruct (inv_rooms _ _ _ _ _ (hub_reach_inv _ _ _ Hwf Hn Hreach) r e He) as (? & ? & Hok & _).
  simplify_eq. pose proof (entry_since_spec h r e hs since Hok Hs) as Hspec.
  destruct (entry_since since e); [done| |by right; right].
  destruct Hspec as (k & m & ? & ? & ? & ?). eauto 10.
Qed.

(** A room that was collected and created again restarts its versions: a
    client that saw up to [since] in the earlier life of the room is answered
    [Replayed] with nothing whenever the new life has published no more than
    [since] messages and all of them are retained, although it has seen none
    of them. *)
Theorem recreated_room_hides_messages r e hs since :
  lget (hs_world st) !! r = Some e -> hs_hist st !! r = Some hs ->
  retained h hs = hs -> 0 < hub_backlog h -> vec_len hs <= since < u64_max ->
  (read_backlog h r (Some since) true (hs_world st)).1 = Replayed [].
Proof.
  intros He Hhs Hret Hb Hs. unfold read_backlog. rewrite (proj2 (Z.eqb_neq _ _)) by lia.
  cbn. rewrite He.
  destruct (inv_rooms _ _ _ _ _ (hub_reach_inv _ _ _ Hwf Hn Hreach) r e He) as (? & ? & Hok & _).
  simplify_eq. pose proof (vec_len_nonneg hs).
  pose proof (entry_since_spec h r e hs since Hok ltac:(lia)) as Hspec.
  destruct (entry_since since e) as [l|o|].
  - rewrite Hspec. f_equal. apply filter_none, Forall_lookup. intros i m Hm.
    pose proof (lookup_lt_Some _ _ _ Hm). apply (ro_versions _ _ _ _ Hok) in Hm as [-> _].
    unfold vec_len in *. lia.
  - destruct Hspec as (k & m & _ & Hm & <- & Hgap). exfalso.
    pose proof (lookup_lt_Some _ _ _ Hm). apply (ro_versions _ _ _ _ Hok) in Hm as [? _].
    unfold vec_len in *. lia.
  - destruct Hspec as [? ?]. congruence.
Qed.
End HubTheorems.

(** ** Sequential calls *)

Section Sequential.
Context {W Sender Receiver : Type} `{!Lens W (Rooms Sender), !LensLaws W (Rooms Sender)}
  `{!Broadcast W Sender Receiver, !BroadcastLaws W Sender Receiver, !HubFrame W Sender Receiver}.

(** A poll of a room's stream always ends, given one step per message in
    its channel: it yields the next message the receiver still holds, passing
    over those it lagged behind, or answers pending or closed with everything
    read; the position only moves forward. *)
Theorem RoomStream_next_progress (st : RoomStream Receiver) (w : W) (fuel : nat) :
  bc_receiver w (rs_receiver st) -> bc_sender w (bc_at w (rs_receiver st)).1 ->
  ((bc_at w (rs_receiver st)).2 <= length (bc_sent w (bc_at w (rs_receiver st)).1) < fuel)%nat ->
  let '(a, w') := RoomStream_next fuel st w in
  let '(s, n) := bc_at w (rs_receiver st) in
  exists k, (n <= k <= length (bc_sent w s))%nat /\
    match a with
    | Some (Some m) => bc_sent w s !! k = Some m /\ bc_at w' (rs_receiver st) = (s, S k)
    | Some None | None => k = length (bc_sent w s) /\ bc_at w' (rs_receiver st) = (s, k)
    end.
Proof.
  destruct (bc_at w (rs_receiver st)) as [s n] eqn:Hat. cbn. intros Hr Hs [Hle Hfuel].
  assert (length (bc_sent w s) - n < fuel)%nat as Hf by lia. clear Hfuel.
  revert w n Hat Hr Hs Hle Hf. induction fuel as [|fuel IH]; intros w n Hat Hr Hs Hle Hf; [lia|].
  cbn. unfold bind. destruct (bc_recv (rs_receiver st) w) as [a w1] eqn:Hbc.
  apply bc_recv_spec in Hbc as (Hs' & Hr' & Hsent & _ & Ha); [|done]. rewrite Hat in Ha. cbn in Ha.
  destruct a as [m|j| |]; cbn.
  - destruct Ha as [Hm Hat']. exists n. pose proof (lookup_lt_Some _ _ _ Hm). auto with lia.
  - destruct Ha as (Hj & Hle' & Hat').
    specialize (IH w1 _ Hat' ltac:(by apply Hr') ltac:(by apply Hs')). rewrite (Hsent s Hs) in IH.
    specialize (IH Hle' ltac:(lia)). destruct (RoomStream_next fuel st w1) as [a w2].
    destruct IH as (k & Hk & Hres). exists k. split; [lia|done].
  - destruct Ha as [-> Hat']. exists (length (bc_sent w s)). rewrite Hat'. auto with lia.
  - destruct Ha as [-> Hat']. exists (length (bc_sent w s)). rewrite Hat'. auto with lia.
Qed.

(** One subscription at a time never passes the ceiling: it is refused with
    the documented text and without effect when the room is new and the hub
    full, and otherwise adds at most the room asked for. *)
Lemma register_subscriber_ceiling h r (w : W) :
  let '(a, w') := register_subscriber h r w in
  match a with
  | Ok _ => dom (lget w' : Rooms Sender) = {[r]} ∪ dom (lget w : Rooms Sender) /\
      (Z.of_nat (size (lget w : Rooms Sender)) <= max_rooms h ->
       Z.of_nat (size (lget w' : Rooms Sender)) <= max_rooms h)
  | Err e => w' = w /\ lget w !! r = (None : option (RoomEntry Sender)) /\
      max_rooms h <= Z.of_nat (size (lget w : Rooms Sender)) /\
      e = ReCapacity ("hub is already tracking " +:+ pretty (max_rooms h) +:+ " rooms")
  end.
Proof.
  unfold register_subscriber, tbind, register_check, InMemoryHub_room_count, contains_key,
    register_enter, bind, mget, mput, ret. cbn.
  destruct (lget w !! r) as [e|] eqn:Hr; cbn.
  - destruct (bc_subscribe _ _) as [rcv w1] eqn:Hbc. cbn.
    rewrite (keeps_run _ _ _ _ (bc_subscribe_keeps _) Hbc), lget_lset, dom_insert_L. split; [done|]. by rewrite map_size_insert, Hr.
  - destruct (Z.leb_spec (max_rooms h) (Z.of_nat (size (lget w : Rooms Sender)))); cbn; [done|].
    destruct (bc_channel _ _) as [[s rcv] w1] eqn:Hbc. cbn.
    rewrite lget_lset, dom_insert_L, map_size_insert, Hr. split; [done|]. lia.
Qed.
End Sequential.

(** ** Runs *)

Definition demo_room : RoomId := mkRoomId "game:1".
Definition demo_move (k : Z) : RealtimeMessage := RealtimeMessage_new demo_room "Move" (pretty k).
Definition hub_empty : HubState HubWorld nat nat := mkHubState (∅, mkBus [] []) ∅ [].
Definition hub_small : InMemoryHub := InMemoryHub_with_backlog 2 InMemoryHub_new.

Definition after (h : InMemoryHub) (plan : list Act) : HubState HubWorld nat nat :=
  default hub_empty (acts h plan hub_empty).

Lemma hub_empty_reach h : hub_reach h 0 hub_empty.
Proof. by constructor. Qed.

Lemma after_reach h plan :
  from_option (fun _ => true) false (acts h plan hub_empty) = true ->
  hub_reach h (length plan) (after h plan).
Proof.
  unfold after. destruct (acts h plan hub_empty) as [st|] eqn:Hst; cbn; [intros _|done].
  replace (length plan) with (length plan + 0)%nat by lia.
  eapply acts_reach; [apply hub_empty_reach|done].
Qed.

Lemma hub_small_wf : hub_wf hub_small.
Proof. by vm_compute. Qed.

(** Task [i] subscribes and becomes live. *)
Definition join (i : nat) (since : option Z) : list Act :=
  ASubscribe demo_room since :: repeat (ACall i) 4.
(** Task [i] publishes. *)
Definition say (i : nat) (k : Z) : list Act := [APublish (demo_move k); ACall i; ACall i].

(** One subscriber, three messages, then a client that saw the first. *)
Definition demo_plan : list Act :=
  join 0 None ++ say 1 10 ++ say 2 20 ++ say 3 30 ++ join 4 (Some 1) ++ say 5 40 ++ [ACall 4].

Lemma demo_reach : hub_reach hub_small 23 (after hub_small demo_plan).
Proof. apply (after_reach hub_small demo_plan). by vm_compute. Qed.

Lemma demo_steps : Z.of_nat 23 + 1 <= u64_max.
Proof. by vm_compute. Qed.

Definition demo_entry : RoomEntry nat :=
  mkRoomEntry 0%nat 2 5
    [stamp_version 3 (demo_move 30); stamp_version 4 (demo_move 40)] 4.
Definition demo_history : list RealtimeMessage :=
  [stamp_version 1 (demo_move 10); stamp_version 2 (demo_move 20);
   stamp_version 3 (demo_move 30); stamp_version 4 (demo_move 40)].

Lemma hub_backlog_longest_suffix_witness :
  lget (hs_world (after hub_small demo_plan)) !! demo_room = Some demo_entry /\
  entry_backlog demo_entry = longest_fit hub_small demo_history.
Proof.
  assert (lget (hs_world (after hub_small demo_plan)) !! demo_room = Some demo_entry) as He
    by by vm_compute.
  split; [exact He|].
  destruct (hub_backlog_longest_suffix hub_small hub_small_wf 23 (after hub_small demo_plan)
    ltac:(by vm_compute) demo_reach demo_room demo_entry He) as (hs & Hhs & _ & _ & Hb & _).
  assert (hs_hist (after hub_small demo_plan) !! demo_room = Some demo_history) as Hh
    by by vm_compute.
  rewrite Hh in Hhs. injection Hhs as <-. exact Hb.
Defined.

Lemma rooms_follow_subscribers_witness :
  holders demo_room (hs_tasks (after hub_small demo_plan)) = 2 /\
  subscribers demo_entry = holders demo_room (hs_tasks (after hub_small demo_plan)).
Proof.
  split; [by vm_compute|].
  apply (rooms_follow_subscribers hub_small hub_small_wf 23 (after hub_small demo_plan)
    ltac:(by vm_compute) demo_reach). by vm_compute.
Defined.


Lemma since_answer_exact_witness :
  (read_backlog hub_small demo_room (Some 0) true (hs_world (after hub_small demo_plan))).1 = Gap 3 /\
  0 + 1 < 3.
Proof.
  assert ((read_backlog hub_small demo_room (Some 0) true
             (hs_world (after hub_small demo_plan))).1 = Gap 3) as H by by vm_compute.
  assert (lget (hs_world (after hub_small demo_plan)) !! demo_room = Some demo_entry) as He
    by by vm_compute.
  assert (hs_hist (after hub_small demo_plan) !! demo_room = Some demo_history) as Hh
    by by vm_compute.
  assert (0 <= 0 < u64_max) as Hu by (unfold u64_max; lia).
  split; [exact H|].
  pose proof (since_answer_exact hub_small hub_small_wf 23 (after hub_small demo_plan)
    demo_steps demo_reach demo_room demo_entry demo_history 0 true He Hh Hu) as Hs.
  rewrite H in Hs. exact (proj1 Hs).
Defined.

(** The room is collected and created again; one message is published in its
    new life. *)
Definition recreated_plan : list Act :=
  join 0 None ++ say 1 10 ++ say 2 20 ++ [ADrop 0; ACall 0; ACall 0] ++ join 3 None ++ say 4 30.

Lemma recreated_reach : hub_reach hub_small 22 (after hub_small recreated_plan).
Proof. apply (after_reach hub_small recreated_plan). by vm_compute. Qed.

Lemma recreated_room_hides_messages_witness :
  hs_hist (after hub_small recreated_plan) !! demo_room = Some [stamp_version 1 (demo_move 30)] /\
  (read_backlog hub_small demo_room (Some 2) true
     (hs_world (after hub_small recreated_plan))).1 = Replayed [].
Proof.
  split; [by vm_compute|].
  exact (recreated_room_hides_messages hub_small hub_small_wf 22
    (after hub_small recreated_plan) ltac:(by vm_compute) recreated_reach demo_room
    (mkRoomEntry 1%nat 1 2 [stamp_version 1 (demo_move 30)] 2)
    [stamp_version 1 (demo_move 30)] 2 ltac:(by vm_compute) ltac:(by vm_compute)
    ltac:(by vm_compute) ltac:(by vm_compute) ltac:(split; by vm_compute)).
Defined.

Lemma RoomStream_next_progress_witness :
  (length (bc_sent (hs_world (after hub_small demo_plan)) 0%nat) < 5)%nat /\
  exists k, (0 <= k <= 4)%nat /\
    bc_sent (hs_world (after hub_small demo_plan)) 0%nat !! k = Some (stamp_version 1 (demo_move 10)).
Proof.
  split; [vm_compute; lia|].
  assert (bc_receiver (hs_world (after hub_small demo_plan)) 0%nat) as Hr by (vm_compute; lia).
  assert (bc_sender (hs_world (after hub_small demo_plan))
            (bc_at (hs_world (after hub_small demo_plan)) 0%nat).1) as Hs by (vm_compute; lia).
  assert ((bc_at (hs_world (after hub_small demo_plan)) 0%nat).2 <=
          length (bc_sent (hs_world (after hub_small demo_plan))
                    (bc_at (hs_world (after hub_small demo_plan)) 0%nat).1) < 5)%nat as Hb
    by (vm_compute; lia).
  pose proof (RoomStream_next_progress (mkRoomStream 0%nat (mkRoomGuard demo_room))
    (hs_world (after hub_small demo_plan)) 5 Hr Hs Hb) as H. clear Hr Hs Hb.
  vm_compute in H. destruct H as (k & Hk & Hm & _).
  exists k. split; [exact Hk|]. vm_compute. exact Hm.
Defined.

(** Versions are handed out under the room's lock but messages are sent
    after it is released, so the order in which a room's channel carries them
    may differ from the version order; and then a client that resumes from the
    last version it saw can lose a message for good.  In this run the client
    reads version 2, drops its stream, and resumes after 2: it is told that
    nothing is missing, while version 1 was sent in between and is neither
    replayed, nor to come, nor something it has read. *)
Theorem overtaken_version_is_lost :
  exists n n' (st st' : HubState HubWorld nat nat) m1 m2 plan,
    hub_reach hub_small n st /\ hub_reach hub_small n' st' /\ acts hub_small plan st = Some st' /\
    version m1 = 1 /\ version m2 = 2 /\ room m1 = demo_room /\
    hs_tasks st !! 1%nat = Some (TLive demo_room None Unavailable 1%nat 0 [m2]) /\
    hs_hist st' !! demo_room = Some [m1; m2] /\
    hs_tasks st' !! 4%nat = Some (TLive demo_room (Some 2) (Replayed []) 2%nat 2 []) /\
    bc_sent (hs_world st') 0%nat = [m2; m1] /\
    (forall s m, TSend s m ∈ hs_tasks st' -> False).
Proof.
  set (before := join 0 None ++ join 1 None ++
    [APublish (demo_move 10); ACall 2; APublish (demo_move 20); ACall 3; ACall 3; ACall 1]).
  set (plan := [ADrop 1; ACall 1; ACall 2] ++ join 4 (Some 2)).
  exists (length before), (length (before ++ plan)), (after hub_small before),
    (after hub_small (before ++ plan)), (stamp_version 1 (demo_move 10)),
    (stamp_version 2 (demo_move 20)), plan.
  split; [by apply after_reach; vm_compute|]. split; [by apply after_reach; vm_compute|].
  split_and!; try by vm_compute.
  intros s m Hm. apply list_elem_of_lookup_1 in Hm as [i Hi]. vm_compute in Hi.
  by do 6 (destruct i as [|i]; [done|]).
Qed.

(** The handover may repeat: a message stamped before the client registers
    and sent after it is both replayed and read from the stream. *)
Lemma replay_and_live_duplicate :
  exists n (st : HubState HubWorld nat nat) m,
    hub_reach hub_small n st /\
    hs_tasks st !! 2%nat = Some (TLive demo_room (Some 0) (Replayed [m]) 1%nat 0 [m]).
Proof.
  set (plan := join 0 None ++ [APublish (demo_move 10); ACall 1] ++ join 2 (Some 0) ++
    [ACall 1; ACall 2]).
  exists (length plan), (after hub_small plan), (stamp_version 1 (demo_move 10)).
  split; [by apply after_reach; vm_compute|]. by vm_compute.
Qed.
