(* ===== verification/RealtimeWs.v ===== *)
(** * Realtime connections: authentication, authorisation and the socket pump

    Models [crates/pharos-realtime/src/auth.rs] and [ws.rs].  The pump is a
    [tokio::select!] loop; which branch is ready next is up to the runtime, so
    [Connection_pump] takes the sequence of ready branches as its input and
    the theorems hold for every sequence.

    The application's authenticator, authoriser and frame handler, Tokio's
    clock and [timeout], and the WebSocket itself are operations of classes.
    [ConnLaws] adds a record of the calls made on them, in the order they are
    made; it constrains none of their answers. *)

From S2P Require Import Prelude Messaging Realtime.
Local Open Scope Z_scope.

(** ** Identities and access (auth.rs) *)

Record Identity := mkIdentity { identity_as_str : string }.

#[export] Instance Identity_eq_dec : EqDecision Identity.
Proof. solve_decision. Defined.

Definition Identity_new (identity : string) : Identity := mkIdentity identity.
Definition Identity_to_string (i : Identity) : string := identity_as_str i.

Inductive Access := Subscribe | Publish.

#[export] Instance Access_eq_dec : EqDecision Access.
Proof. solve_decision. Defined.

Definition Access_as_str (a : Access) : string :=
  match a with Subscribe => "subscribe" | Publish => "publish" end.

Definition Access_to_string (a : Access) : string := Access_as_str a.

Definition forbidden (identity : Identity) (room : RoomId) : RealtimeError :=
  ReForbidden (Identity_to_string identity) (RoomId_to_string room).

Class ConnectionAuthenticator (W Parts : Type) : Type := {
  authenticate : Parts -> M W (result Identity RealtimeError);
}.

Class RoomAuthorizer (W : Type) : Type := {
  authorize : Identity -> RoomId -> Access -> M W (result unit RealtimeError);
}.

(** ** Frames, replies and responses (ws.rs) *)

Record Reply := mkReply { reply_kind : string; reply_payload : string }.

Class OnMessage (W : Type) : Type := {
  on_message : Identity -> RoomId -> string -> M W (result (option Reply) RealtimeError);
}.

Inductive WsMessage :=
| WsBinary (bytes : string)
| WsText (text : string)
| WsPing (bytes : string)
| WsPong (bytes : string)
| WsClose.

(** The HTTP status and body of a refusal.  [canonical_reason] belongs to the
    [http] crate. *)
Definition RealtimeError_status (e : RealtimeError) : Z :=
  match e with
  | ReUnauthorized _ => 401
  | ReForbidden _ _ => 403
  | ReInvalidRoom _ => 400
  | ReCapacity _ => 503
  | RePublish _ | ReSubscribe _ | ReTransport _ => 500
  end.

Definition RealtimeError_into_response (canonical_reason : Z -> option string) (e : RealtimeError)
  : Z * string :=
  let status := RealtimeError_status e in
  (status, default "realtime error" (canonical_reason status)).

Record RealtimeConfig := mkRealtimeConfig {
  max_message_size : Z;
  max_frame_size : Z;
  revalidate_every : Duration;
  heartbeat_every : Duration;
  heartbeat_timeout : Duration;
  io_timeout : Duration;
  max_inbound_frames_per_second : Z;
}.

Definition from_secs (s : Z) : Duration := s * NANOS_PER_SEC.

Definition RealtimeConfig_default : RealtimeConfig :=
  mkRealtimeConfig (64 * 1024) (64 * 1024) (from_secs 60) (from_secs 20) (from_secs 60)
    (from_secs 30) 50.

(** ** Time and the socket *)

(** [tokio::time]: a monotonic clock and [timeout], which answers [None] when
    the deadline passes first. *)
Class TokioTime (W : Type) : Type := {
  instant_now : M W Instant;
  timeout {A : Type} : Duration -> M W A -> M W (option A);
}.

(** The write half of the WebSocket. *)
Class WsSink (W : Type) : Type := {
  sink_send : WsMessage -> M W (result unit string);
  sink_close : M W (result unit string);
}.

(** ** The inbound rate limiter *)

Record InboundRateLimiter := mkInboundRateLimiter {
  rl_capacity : f64;
  rl_tokens : f64;
  rl_refill_per_sec : f64;
  rl_last_refill : Instant;
}.

Definition f64_sub (x y : f64) : f64 := SFsub 53 1024 x y.
(** [x >= y]; false when one is a NaN. *)
Definition f64_geb (x y : f64) : bool :=
  negb (f64_is_nan x) && negb (f64_is_nan y) && negb (f64_ltb x y).

Definition InboundRateLimiter_at (rate_per_sec : Z) (now : Instant) : InboundRateLimiter :=
  let capacity := f64_of_Z (Z.max rate_per_sec 1) in
  mkInboundRateLimiter capacity capacity capacity now.

(** [try_acquire] with the clock's reading. *)
Definition try_acquire_at (now : Instant) (l : InboundRateLimiter) : bool * InboundRateLimiter :=
  let elapsed := Duration_as_secs_f64 (Z.max 0 (now - rl_last_refill l)) in
  let tokens := f64_min (f64_add (rl_tokens l) (f64_mul elapsed (rl_refill_per_sec l)))
                  (rl_capacity l) in
  if f64_geb tokens f64_one
  then (true, mkInboundRateLimiter (rl_capacity l) (f64_sub tokens f64_one)
                (rl_refill_per_sec l) now)
  else (false, mkInboundRateLimiter (rl_capacity l) tokens (rl_refill_per_sec l) now).

Section Limiter.
Context {W : Type} `{!TokioTime W}.

Definition InboundRateLimiter_new (rate_per_sec : Z) : M W InboundRateLimiter :=
  do! now <- instant_now; ret (InboundRateLimiter_at rate_per_sec now).

Definition InboundRateLimiter_try_acquire (l : InboundRateLimiter)
  : M W (bool * InboundRateLimiter) :=
  do! now <- instant_now; ret (try_acquire_at now l).
End Limiter.

(** ** Connections *)

Inductive CloseReason :=
| ClientGone
| RoomClosed
| SubscribeFailed
| Revoked
| Timeout
| Unresponsive.

Definition CloseReason_as_str (r : CloseReason) : string :=
  match r with
  | ClientGone => "client_gone"
  | RoomClosed => "room_closed"
  | SubscribeFailed => "subscribe_failed"
  | Revoked => "revoked"
  | Timeout => "timeout"
  | Unresponsive => "unresponsive"
  end.

(** [Realtime] and [Connection]: the shared services are the world's. *)
Record Connection (Parts : Type) := mkConnection {
  conn_config : RealtimeConfig;
  conn_parts : Parts;
  conn_identity : Identity;
  conn_room : RoomId;
  conn_since : option Z;
}.
Arguments mkConnection {Parts} _ _ _ _ _.
Arguments conn_config {Parts} _.
Arguments conn_parts {Parts} _.
Arguments conn_identity {Parts} _.
Arguments conn_room {Parts} _.
Arguments conn_since {Parts} _.

(** A branch of the [select!] that is ready, with what it yields. *)
Inductive Ready :=
| ROutbound (message : option RealtimeMessage)
| RInbound (frame : option (result WsMessage string))
| RRevalidate
| RHeartbeat.

Record ConnectionMetrics := mkConnectionMetrics {
  connections_active : Z;
  connections_closed : gmap string Z;
}.

Record PumpState := mkPumpState { last_seen : Instant; inbound_limiter : InboundRateLimiter }.

Section Connections.
Context {W Parts Stream : Type} `{!ConnectionAuthenticator W Parts, !RoomAuthorizer W, !OnMessage W}
  `{!TokioTime W, !WsSink W, !RealtimeSubscriber W Stream}.
Implicit Types (c : Connection Parts).

(** [Realtime::upgrade_since]: the connection that the upgrade will run. *)
Definition Realtime_upgrade_since (config : RealtimeConfig) (parts : Parts) (room : RoomId)
  (since : option Z) : M W (result (Connection Parts) RealtimeError) :=
  try! identity <- authenticate parts;
  try! _ <- authorize identity room Subscribe;
  ret (Ok (mkConnection config parts identity room since)).

Definition Realtime_upgrade (config : RealtimeConfig) (parts : Parts) (room : RoomId)
  : M W (result (Connection Parts) RealtimeError) :=
  Realtime_upgrade_since config parts room None.

Definition Connection_send_bounded c (message : WsMessage) : M W (result unit CloseReason) :=
  do! r <- timeout (io_timeout (conn_config c)) (sink_send message);
  ret (match r with
       | Some (Ok _) => Ok tt
       | Some (Err _) => Err ClientGone
       | None => Err Unresponsive
       end).

Definition Connection_still_authorized c : M W bool :=
  do! r <- authenticate (conn_parts c);
  match r with
  | Err _ => ret false
  | Ok identity =>
      if decide (identity = conn_identity c) then
        do! a <- authorize (conn_identity c) (conn_room c) Subscribe;
        ret (is_ok a)
      else ret false
  end.

(** One inbound frame that carries a payload. *)
Definition Connection_on_payload c (st : PumpState) (payload : string)
  : M W (result PumpState CloseReason) :=
  do! acq <- InboundRateLimiter_try_acquire (inbound_limiter st);
  let st := mkPumpState (last_seen st) acq.2 in
  if negb acq.1 then ret (Ok st)
  else
    do! allowed <- authorize (conn_identity c) (conn_room c) Publish;
    match allowed with
    | Err _ => ret (Ok st)
    | Ok _ =>
        do! outcome <- timeout (io_timeout (conn_config c))
                         (on_message (conn_identity c) (conn_room c) payload);
        match outcome with
        | Some (Ok None) => ret (Ok st)
        | Some (Ok (Some reply)) =>
            try! _ <- Connection_send_bounded c (WsBinary (reply_payload reply));
            ret (Ok st)
        | Some (Err _) => ret (Ok st)
        | None => ret (Err Unresponsive)
        end
    end.

(** The body of one branch: [Ok] goes round the loop, [Err] breaks it. *)
Definition Connection_branch c (st : PumpState) (ready : Ready)
  : M W (result PumpState CloseReason) :=
  match ready with
  | ROutbound None => ret (Err RoomClosed)
  | ROutbound (Some message) =>
      try! _ <- Connection_send_bounded c (WsBinary (payload message));
      ret (Ok st)
  | RInbound None => ret (Err ClientGone)
  | RInbound (Some frame) =>
      do! now <- instant_now;
      let st := mkPumpState now (inbound_limiter st) in
      match frame with
      | Ok (WsBinary bytes) => Connection_on_payload c st bytes
      | Ok (WsText text) => Connection_on_payload c st text
      | Ok (WsPing _) | Ok (WsPong _) => ret (Ok st)
      | Ok WsClose | Err _ => ret (Err ClientGone)
      end
  | RRevalidate =>
      do! ok <- Connection_still_authorized c;
      if ok : bool then ret (Ok st)
      else do! _ <- Connection_send_bounded c WsClose; ret (Err Revoked)
  | RHeartbeat =>
      do! now <- instant_now;
      if heartbeat_timeout (conn_config c) <=? Z.max 0 (now - last_seen st)
      then do! _ <- Connection_send_bounded c WsClose; ret (Err Timeout)
      else try! _ <- Connection_send_bounded c (WsPing ""); ret (Ok st)
  end.

(** The loop over the branches that become ready; [Ok] is a connection that
    is still open when they are used up. *)
Fixpoint Connection_pump c (st : PumpState) (readies : list Ready)
  : M W (result PumpState CloseReason) :=
  match readies with
  | [] => ret (Ok st)
  | ready :: readies' => try! st' <- Connection_branch c st ready; Connection_pump c st' readies'
  end.

(** [for message in missed { send_bounded(..)?; }] *)
Definition Connection_replay c (backlog : Backlog) : M W (result unit CloseReason) :=
  match backlog with
  | Replayed missed =>
      try_each (fun m => Connection_send_bounded c (WsBinary (payload m))) missed
  | Gap _ | Unavailable => ret (Ok tt)
  end.

(** [Connection::run]: [None] is a connection still open. *)
Definition Connection_run c (readies : list Ready) : M W (option CloseReason) :=
  do! sub <- rt_subscribe_since (conn_room c) (conn_since c);
  match sub with
  | Err _ => do! _ <- Connection_send_bounded c WsClose; ret (Some SubscribeFailed)
  | Ok (backlog, _) =>
      do! replayed <- Connection_replay c backlog;
      match replayed with
      | Err reason => ret (Some reason)
      | Ok _ =>
          do! now <- instant_now;
          do! limiter <- InboundRateLimiter_new (max_inbound_frames_per_second (conn_config c));
          do! r <- Connection_pump c (mkPumpState now limiter) readies;
          match r with
          | Ok _ => ret None
          | Err reason =>
              do! _ <- timeout (io_timeout (conn_config c)) sink_close; ret (Some reason)
          end
      end
  end.

(** The task [on_upgrade] runs, with the metrics crate's gauge and counter as
    a component of the world.  [None]: the connection is still open. *)
Definition Connection_serve `{!Lens W ConnectionMetrics} c (readies : list Ready)
  : M W (option unit) :=
  do! m <- mget;
  do! _ <- mput (mkConnectionMetrics (connections_active m + 1) (connections_closed m));
  live! closed_because <- Connection_run c readies;
  do! m <- mget;
  do! _ <- mput (mkConnectionMetrics (connections_active m - 1)
                   (<[CloseReason_as_str closed_because :=
                        default 0 (connections_closed m !! CloseReason_as_str closed_because) + 1]>
                      (connections_closed m)));
  ret (Some tt).
End Connections.

(** The gauge counts the open connections: a connection that ended left it as
    it was and is counted once under its reason, one still open is counted by
    the gauge. *)
Lemma connection_counted {W Parts Stream : Type}
  `{!ConnectionAuthenticator W Parts, !RoomAuthorizer W, !OnMessage W, !TokioTime W, !WsSink W,
    !RealtimeSubscriber W Stream, !Lens W ConnectionMetrics, !LensLaws W ConnectionMetrics}
  (c : Connection Parts) (readies : list Ready) (w : W) :
  keeps ConnectionMetrics (Connection_run (Stream := Stream) c readies) ->
  let '(r, w') := Connection_serve (Stream := Stream) c readies w in
  match r with
  | None => connections_active (lget w') = connections_active (lget w) + 1
            /\ connections_closed (lget w') = connections_closed (lget w)
  | Some _ => connections_active (lget w') = connections_active (lget w)
              /\ exists reason, connections_closed (lget w')
                  = <[reason := default 0 (connections_closed (lget w) !! reason) + 1]>
                      (connections_closed (lget w))
  end.
Proof.
  intros Hk. unfold Connection_serve, bind, pbind, mget, mput, ret. set (w1 := lset _ w).
  pose proof (Hk w1) as Hw. destruct (Connection_run c readies w1) as [[reason|] w2]; cbn in Hw |- *.
  - rewrite (lget_lset (W := W)), Hw. unfold w1. rewrite (lget_lset (W := W)). cbn. split; [lia|eauto].
  - rewrite Hw. unfold w1. rewrite (lget_lset (W := W)). done.
Qed.

(** ** The record of calls *)

Inductive Call :=
| CAuthenticate (answer : option Identity)
| CAuthorize (identity : Identity) (room : RoomId) (access : Access) (allowed : bool)
| COnMessage (identity : Identity) (room : RoomId) (payload : string)
| CSend (m : WsMessage)
| CCloseSink
| CJoin (room : RoomId).

Definition ok_option {A E} (r : result A E) : option A :=
  match r with Ok a => Some a | Err _ => None end.

(** Each operation records itself and nothing else; a call cut off by
    [timeout] leaves a prefix of its record. *)
Class ConnLaws (W Parts Stream : Type) `{!ConnectionAuthenticator W Parts, !RoomAuthorizer W, !OnMessage W}
  `{!TokioTime W, !WsSink W, !RealtimeSubscriber W Stream} : Type := {
  calls : W -> list Call;
  authenticate_calls p w :
    calls (authenticate p w).2 = calls w ++ [CAuthenticate (ok_option (authenticate p w).1)];
  authorize_calls i r a w :
    calls (authorize i r a w).2 = calls w ++ [CAuthorize i r a (is_ok (authorize i r a w).1)];
  on_message_calls i r p w : calls (on_message i r p w).2 = calls w ++ [COnMessage i r p];
  sink_send_calls m w : calls (sink_send m w).2 = calls w ++ [CSend m];
  sink_close_calls w : calls (sink_close w).2 = calls w ++ [CCloseSink];
  subscribe_since_calls r since w :
    calls (rt_subscribe_since r since w).2 = calls w ++ [CJoin r];
  instant_now_calls w : calls (instant_now w).2 = calls w;
  timeout_calls {A} d (c : M W A) w :
    match (timeout d c w).1 with
    | Some a => a = (c w).1 /\ calls (timeout d c w).2 = calls (c w).2
    | None => calls w `prefix_of` calls (timeout d c w).2 /\
              calls (timeout d c w).2 `prefix_of` calls (c w).2
    end;
}.

(** The call is a failed revalidation of the connection. *)
Definition denial {Parts} (c : Connection Parts) (x : Call) : bool :=
  match x with
  | CAuthenticate None => true
  | CAuthenticate (Some i) => bool_decide (i <> conn_identity c)
  | CAuthorize _ _ Subscribe false => true
  | _ => false
  end.

Definition closing (x : Call) : bool :=
  match x with CSend WsClose | CCloseSink => true | _ => false end.

(** The payload a ready branch carries in from the client. *)
Definition inbound_payload (ready : Ready) : option string :=
  match ready with
  | RInbound (Some (Ok (WsBinary p))) | RInbound (Some (Ok (WsText p))) => Some p
  | _ => None
  end.

(** The payload a ready branch carries out to the client. *)
Definition outbound_payload (ready : Ready) : option string :=
  match ready with ROutbound (Some m) => Some (payload m) | _ => None end.

(** Every frame handled arrived on the connection and was authorised for
    publishing by the call just before. *)
Definition guarded {Parts} (c : Connection Parts) (frames : list string) (l : list Call) : Prop :=
  forall i id r p, l !! i = Some (COnMessage id r p) ->
    id = conn_identity c /\ r = conn_room c /\ p ∈ frames /\
    exists j, i = S j /\ l !! j = Some (CAuthorize id r Publish true).

(** After a failed revalidation only the closing of the socket follows. *)
Definition denial_closes {Parts} (c : Connection Parts) (l : list Call) : Prop :=
  forall i j d x, l !! i = Some d -> denial c d = true -> (i < j)%nat -> l !! j = Some x ->
    closing x = true.

Definition no_denial {Parts} (c : Connection Parts) (l : list Call) : Prop :=
  Forall (fun x => denial c x = false) l.

(** Payloads sent to the client, in order. *)
Definition binaries (l : list Call) : list string :=
  omap (fun x => match x with CSend (WsBinary p) => Some p | _ => None end) l.

Section Traces.
Context {W Parts Stream : Type} `{!ConnectionAuthenticator W Parts, !RoomAuthorizer W, !OnMessage W}
  `{!TokioTime W, !WsSink W, !RealtimeSubscriber W Stream, !ConnLaws W Parts Stream}.
Implicit Types (c : Connection Parts).

(** [emits P m]: the computation extends the record by some [l], and [P]
    holds of its answer and [l]. *)
Definition emits {A} (P : A -> list Call -> Prop) (m : M W A) : Prop :=
  forall w, exists l, calls (m w).2 = calls w ++ l /\ P (m w).1 l.

Lemma emits_ret {A} (P : A -> list Call -> Prop) a : P a [] -> emits P (ret a).
Proof. intros HP w. exists []. by rewrite app_nil_r. Qed.

Lemma emits_weaken {A} (P Q : A -> list Call -> Prop) m :
  emits P m -> (forall a l, P a l -> Q a l) -> emits Q m.
Proof. intros Hm HPQ w. destruct (Hm w) as (l & ? & ?). exists l. auto. Qed.

Lemma emits_bind {A B} (P : A -> list Call -> Prop) (Q : B -> list Call -> Prop) (m : M W A) k :
  emits P m -> (forall a l, P a l -> emits (fun b l' => Q b (l ++ l')) (k a)) -> emits Q (bind m k).
Proof.
  intros Hm Hk w. unfold bind. destruct (Hm w) as (l & Hl & HP).
  destruct (m w) as [a w1]. destruct (Hk a l HP w1) as (l' & Hl' & HQ).
  exists (l ++ l'). cbn in *. by rewrite Hl', Hl, app_assoc.
Qed.

Lemma emits_tbind {A B E} (P : result A E -> list Call -> Prop) (Q : result B E -> list Call -> Prop)
  (m : M W (result A E)) k :
  emits P m -> (forall a l, P (Ok a) l -> emits (fun b l' => Q b (l ++ l')) (k a)) ->
  (forall e l, P (Err e) l -> Q (Err e) l) -> emits Q (tbind m k).
Proof.
  intros Hm Hk He w. unfold tbind. destruct (Hm w) as (l & Hl & HP).
  destruct (m w) as [[a|e] w1].
  - destruct (Hk a l HP w1) as (l' & Hl' & HQ).
    exists (l ++ l'). cbn in *. by rewrite Hl', Hl, app_assoc.
  - exists l. cbn in *. auto.
Qed.

Lemma emits_now : emits (fun _ l => l = []) instant_now.
Proof. intros w. exists []. by rewrite app_nil_r, instant_now_calls. Qed.

Lemma emits_authorize i r a :
  emits (fun res l => l = [CAuthorize i r a (is_ok res)]) (authorize i r a).
Proof. intros w. eexists. by rewrite authorize_calls. Qed.

Lemma emits_timeout {A} d (x : Call) (m : M W A) :
  (forall w, calls (m w).2 = calls w ++ [x]) ->
  emits (fun o l => l = [x] \/ (o = None /\ l = [])) (timeout d m).
Proof.
  intros Hm w. pose proof (timeout_calls d m w) as Ht. specialize (Hm w).
  destruct (timeout d m w) as [[a|] w1]; cbn in *.
  - destruct Ht as [_ ->]. exists [x]. auto.
  - destruct Ht as [[l Hl] Hp]. exists l. split; [done|]. rewrite Hl, Hm in Hp.
    apply prefix_app_inv in Hp. destruct Hp as [k Hk]. destruct l as [|y l]; [by right|left].
    destruct l; by simplify_eq/=.
Qed.

Lemma emits_send c m :
  emits (fun r l => l = [CSend m] \/ (r = Err Unresponsive /\ l = [])) (Connection_send_bounded c m).
Proof.
  eapply emits_bind; [apply emits_timeout, (sink_send_calls m)|].
  intros o l Hl. apply emits_ret. rewrite app_nil_r. destruct Hl as [->|[-> ->]]; auto.
Qed.

Lemma emits_still_authorized c :
  emits (fun ok l => if ok : bool then l = [CAuthenticate (Some (conn_identity c));
                                            CAuthorize (conn_identity c) (conn_room c) Subscribe true]
                     else exists pre d, l = pre ++ [d] /\ no_denial c pre /\ denial c d = true /\
                            guarded c [] l)
    (Connection_still_authorized c).
Proof.
  intros w. unfold Connection_still_authorized, bind.
  pose proof (authenticate_calls (conn_parts c) w) as Ha.
  destruct (authenticate (conn_parts c) w) as [[i|e] w1]; cbn in Ha.
  - destruct (decide (i = conn_identity c)) as [->|Hne]; cbn.
    + pose proof (authorize_calls (conn_identity c) (conn_room c) Subscribe w1) as Hz.
      destruct (authorize _ _ _ w1) as [[[]|e] w2]; cbn in Hz |- *; rewrite Hz, Ha, <- app_assoc;
        eexists; (split; [done|]); [done|].
      eexists [_], _. split; [done|]. split; [by constructor; cbn; [apply bool_decide_eq_false; auto|]|].
      split; [done|]. intros [|[|k]]; cbn; naive_solver.
    + rewrite Ha. eexists. split; [done|]. exists [], (CAuthenticate (Some i)).
      split; [done|]. split; [by constructor|]. split; [by apply bool_decide_eq_true|].
      intros [|k]; cbn; naive_solver.
  - cbn. rewrite Ha. eexists. split; [done|]. exists [], (CAuthenticate None).
    split; [done|]. split; [by constructor|]. split; [done|]. intros [|k]; cbn; naive_solver.
Qed.

(** What every piece of a connection's record satisfies. *)
Definition segment c (frames : list string) {A E} (r : result A E) (l : list Call) : Prop :=
  guarded c frames l /\ denial_closes c l /\ (is_ok r = true -> no_denial c l).

(** Calls that are neither a denial nor a handled frame. *)
Definition plain c (l : list Call) : Prop :=
  Forall (fun x => denial c x = false /\
    match x with COnMessage _ _ _ => False | _ => True end) l.

Lemma no_denial_closes c l : no_denial c l -> denial_closes c l.
Proof. intros Hn i j d x Hi Hd. pose proof (Forall_lookup_1 _ _ _ _ Hn Hi). congruence. Qed.

Lemma denial_closes_app c l1 l2 :
  no_denial c l1 -> denial_closes c l2 -> denial_closes c (l1 ++ l2).
Proof.
  intros Hn Hc i j d x [Hi|[Hle Hi]]%lookup_app_Some Hd Hij Hj.
  - pose proof (Forall_lookup_1 _ _ _ _ Hn Hi). congruence.
  - rewrite lookup_app_r in Hj by lia. eapply (Hc (i - length l1) (j - length l1))%nat; eauto; lia.
Qed.

Lemma denial_closes_end c l1 l2 :
  denial_closes c l1 -> Forall (fun x => closing x = true) l2 -> denial_closes c (l1 ++ l2).
Proof.
  intros Hc Hl i j d x Hi Hd Hij Hj. apply lookup_app_Some in Hj as [Hj|[Hle Hj]].
  - rewrite lookup_app_l in Hi by (apply lookup_lt_Some in Hj; lia). eauto.
  - by apply (Forall_lookup_1 _ _ _ _ Hl Hj).
Qed.

Lemma guarded_app c frames l1 l2 :
  guarded c frames l1 -> guarded c frames l2 -> guarded c frames (l1 ++ l2).
Proof.
  intros H1 H2 i id r p [Hi|[Hle Hi]]%lookup_app_Some.
  - destruct (H1 _ _ _ _ Hi) as (? & ? & ? & j & -> & Hj). repeat (split; [done|]).
    exists j. split; [done|]. by apply lookup_app_l_Some.
  - destruct (H2 _ _ _ _ Hi) as (? & ? & ? & j & Hij & Hj). repeat (split; [done|]).
    exists (length l1 + j)%nat. split; [lia|]. by rewrite lookup_app_r, Nat.add_comm, Nat.add_sub by lia.
Qed.

Lemma guarded_subset c frames frames' l :
  frames ⊆ frames' -> guarded c frames l -> guarded c frames' l.
Proof. intros Hs Hg i id r p Hi. destruct (Hg i id r p Hi) as (? & ? & ? & ?). auto. Qed.

Lemma segment_subset c frames frames' {A E} (r : result A E) l :
  frames ⊆ frames' -> segment c frames r l -> segment c frames' r l.
Proof. intros Hs (Hg & ?). split; [by eapply guarded_subset|done]. Qed.

Lemma segment_app c frames {A B E} (a : A) (r : result B E) l1 l2 :
  segment c frames (Ok a : result A E) l1 -> segment c frames r l2 -> segment c frames r (l1 ++ l2).
Proof.
  intros (G1 & _ & N1) (G2 & D2 & N2). specialize (N1 eq_refl).
  split; [by apply guarded_app|]. split; [by apply denial_closes_app|].
  intros Hr. apply Forall_app. split; [exact N1|exact (N2 Hr)].
Qed.

Lemma plain_segment c frames {A E} (r : result A E) l : plain c l -> segment c frames r l.
Proof.
  intros Hp. assert (no_denial c l) as Hn by (eapply Forall_impl; [exact Hp|by intros ? []]).
  split; [|by auto using no_denial_closes].
  intros i id rm p Hi. by destruct (Forall_lookup_1 _ _ _ _ Hp Hi).
Qed.

Lemma emits_send_plain c frames m :
  emits (segment c frames) (Connection_send_bounded c m).
Proof.
  eapply emits_weaken; [apply emits_send|]. intros r l Hl. apply plain_segment.
  destruct Hl as [->|[_ ->]]; by repeat constructor.
Qed.

Lemma emits_on_payload c st p :
  emits (segment c [p]) (Connection_on_payload c st p).
Proof.
  unfold Connection_on_payload, InboundRateLimiter_try_acquire.
  eapply (emits_bind (fun _ l => l = [])).
  { eapply emits_bind; [apply emits_now|]. intros now l ->. by apply emits_ret. }
  intros [ok lim] l ->. cbn. destruct ok; cbn; [|apply emits_ret, plain_segment; constructor].
  eapply emits_bind; [apply emits_authorize|]. intros [[]|e] l ->; cbn.
  2:{ apply emits_ret, plain_segment. by repeat constructor. }
  eapply emits_bind; [apply emits_timeout, (on_message_calls _ _ p)|].
  assert (segment c [p] (Ok tt : result unit CloseReason)
    [CAuthorize (conn_identity c) (conn_room c) Publish true;
     COnMessage (conn_identity c) (conn_room c) p]) as Hseg.
  { split; [|split; [apply no_denial_closes|intros _]; by repeat constructor].
    intros [|[|i]] id r q Hi; cbn in Hi; simplify_eq.
    repeat (split; [set_solver|]). by exists 0%nat. }
  assert (forall r : result PumpState CloseReason, segment c [p] r
    [CAuthorize (conn_identity c) (conn_room c) Publish true]) as Hone.
  { intros. apply plain_segment. by repeat constructor. }
  intros o l Hl. assert (forall r : result PumpState CloseReason,
    segment c [p] r ([CAuthorize (conn_identity c) (conn_room c) Publish true] ++ l)) as Hall.
  { intros r. destruct Hl as [->|[_ ->]]; cbn; [|apply Hone].
    destruct Hseg as (? & ? & Hn). split_and!; [done..|]. intros _. by apply Hn. }
  destruct o as [[[reply|]|e]|]; try (apply emits_ret; by rewrite app_nil_r).
  eapply emits_tbind; [apply (emits_send_plain c [p])|..].
  - intros [] l' Hl'. apply emits_ret. rewrite app_nil_r.
    rewrite app_comm_cons. by apply (segment_app c [p] st); [apply Hall|].
  - intros e l' Hl'. rewrite app_comm_cons. by apply (segment_app c [p] st); [apply Hall|].
Qed.

Lemma emits_send_then c frames m {A} (k : M W (result A CloseReason)) :
  emits (segment c frames) k ->
  emits (segment c frames) (try! _ <- Connection_send_bounded c m; k).
Proof.
  intros Hk. eapply emits_tbind; [apply emits_send_plain|..].
  - intros [] l Hl. eapply emits_weaken; [exact Hk|]. intros r l' Hl'. by apply (segment_app c frames tt).
  - intros e l (? & ? & _). by split.
Qed.

(** Closing after a denial. *)
Lemma emits_closing c l r :
  (exists pre d, l = pre ++ [d] /\ no_denial c pre /\ denial c d = true /\ guarded c [] l) ->
  emits (fun res l' => segment c [] (res : result PumpState CloseReason) (l ++ l'))
    (do! _ <- Connection_send_bounded c WsClose; ret (Err r)).
Proof.
  intros (pre & d & -> & Hpre & Hd & Hg).
  eapply emits_bind; [apply emits_send|]. intros a l' Hl'. apply emits_ret. rewrite app_nil_r.
  split; [|split; [|done]].
  - apply guarded_app; [done|]. by destruct Hl' as [->|[_ ->]]; intros [|i]; cbn.
  - apply denial_closes_end.
    + apply denial_closes_app; [done|]. by intros [|i] [|j] d' x ? ? ? ?; try lia.
    + by destruct Hl' as [->|[_ ->]]; repeat constructor.
Qed.

Lemma emits_branch c st ready :
  emits (segment c (option_list (inbound_payload ready))) (Connection_branch c st ready).
Proof.
  assert (forall frames (r : result PumpState CloseReason), emits (segment c frames) (ret r)) as Hret.
  { intros. apply emits_ret, plain_segment. constructor. }
  destruct ready as [[m|]|[f|]| |]; cbn; [|apply Hret| |apply Hret| |].
  - by apply emits_send_then.
  - eapply emits_bind; [apply emits_now|]. intros now l ->.
    destruct f as [[]|]; try apply Hret; apply emits_on_payload.
  - eapply emits_bind; [apply emits_still_authorized|]. intros [] l Hl.
    + subst l. apply emits_ret, plain_segment. repeat constructor; try done.
      cbn. apply bool_decide_eq_false. auto.
    + by apply emits_closing.
  - eapply emits_bind; [apply emits_now|]. intros now l ->.
    destruct (_ <=? _); [|by apply emits_send_then].
    eapply emits_bind; [apply emits_send|]. intros a l Hl. apply emits_ret, plain_segment.
    by destruct Hl as [->|[_ ->]]; repeat constructor.
Qed.

Lemma emits_pump c st readies :
  emits (segment c (omap inbound_payload readies)) (Connection_pump c st readies).
Proof.
  revert st. induction readies as [|ready readies IH]; intros st; cbn [Connection_pump].
  { apply emits_ret, plain_segment. constructor. }
  assert (omap inbound_payload (ready :: readies)
          = option_list (inbound_payload ready) ++ omap inbound_payload readies) as ->.
  { cbn. by destruct (inbound_payload ready). }
  eapply emits_tbind; [apply emits_branch|..].
  - intros st' l Hl. eapply emits_weaken; [apply IH|]. intros r l' Hl'.
    eapply (segment_app c _ st'); (eapply segment_subset; [|done]); set_solver.
  - intros e l Hl. eapply segment_subset; [|done]. set_solver.
Qed.



(** [expected] went out, in order; all of it unless the connection ended. *)
Definition delivers (expected : list string) {A E} (r : result A E) (l : list Call) : Prop :=
  binaries l `prefix_of` expected /\ (is_ok r = true -> binaries l = expected).

Lemma binaries_app l1 l2 : binaries (l1 ++ l2) = binaries l1 ++ binaries l2.
Proof. apply omap_app. Qed.

Lemma delivers_app e1 e2 {A B E} (a : A) (r : result B E) l1 l2 :
  delivers e1 (Ok a : result A E) l1 -> delivers e2 r l2 -> delivers (e1 ++ e2) r (l1 ++ l2).
Proof.
  intros [_ H1] [P2 H2]. specialize (H1 eq_refl). split; rewrite binaries_app, H1.
  - by apply prefix_app.
  - intros Hr. by rewrite H2.
Qed.

Lemma delivers_cut e1 e2 {A B E} (e : E) l :
  delivers e1 (Err e : result A E) l -> delivers (e1 ++ e2) (Err e : result B E) l.
Proof. intros [H _]. split; [by apply prefix_app_r|done]. Qed.

Lemma emits_send_delivers c p :
  emits (delivers [p]) (Connection_send_bounded c (WsBinary p)).
Proof.
  eapply emits_weaken; [apply emits_send|]. intros r l [->|[-> ->]]; [by split|].
  split; [apply prefix_nil|done].
Qed.

Lemma emits_send_silent c m :
  binaries [CSend m] = [] -> emits (delivers []) (Connection_send_bounded c m).
Proof.
  intros Hm. eapply emits_weaken; [apply emits_send|].
  intros r l [->|[-> ->]]; [|by split]. unfold delivers. by rewrite Hm.
Qed.

Lemma emits_still_silent c :
  emits (fun _ l => binaries l = []) (Connection_still_authorized c).
Proof.
  unfold Connection_still_authorized. eapply (emits_bind (fun _ l => binaries l = [])).
  { intros w. eexists. by rewrite authenticate_calls. }
  intros [i|e] l Hl; [|apply emits_ret; by rewrite app_nil_r].
  destruct (decide _); [|apply emits_ret; by rewrite app_nil_r].
  eapply emits_bind; [apply emits_authorize|]. intros a l' ->. apply emits_ret.
  rewrite binaries_app, Hl. done.
Qed.

Lemma emits_then_silent {A B} (m : M W A) (k : A -> M W (result B CloseReason)) :
  emits (fun _ l => binaries l = []) m -> (forall a, emits (delivers []) (k a)) ->
  emits (delivers []) (bind m k).
Proof.
  intros Hm Hk. eapply emits_bind; [exact Hm|]. intros a l Hl.
  eapply emits_weaken; [apply Hk|]. intros r l'. unfold delivers. by rewrite binaries_app, Hl.
Qed.

Lemma emits_close_silent c (r : CloseReason) :
  emits (delivers [])
    (do! _ <- Connection_send_bounded c WsClose; ret (Err r : result PumpState CloseReason)).
Proof.
  eapply emits_bind; [apply emits_send|]. intros a l Hl. apply emits_ret. rewrite app_nil_r.
  by destruct Hl as [->|[_ ->]].
Qed.

Lemma emits_deliver_branch c st ready :
  inbound_payload ready = None ->
  emits (delivers (option_list (outbound_payload ready))) (Connection_branch c st ready).
Proof.
  intros Hin. assert (forall r : result PumpState CloseReason, emits (delivers []) (ret r)) as Hret.
  { intros. by apply emits_ret. }
  assert (emits (fun _ l => binaries l = []) instant_now) as Hnow.
  { eapply emits_weaken; [apply emits_now|]. by intros ? ? ->. }
  destruct ready as [[m|]|[f|]| |]; cbn in *; [|apply Hret| |apply Hret| |].
  - eapply emits_tbind; [apply emits_send_delivers|..]; [|done].
    intros [] l Hl. apply emits_ret. by rewrite app_nil_r.
  - apply emits_then_silent; [done|]. intros now. destruct f as [[]|]; try done; apply Hret.
  - apply emits_then_silent; [apply emits_still_silent|]. intros []; [apply Hret|].
    apply emits_close_silent.
  - apply emits_then_silent; [done|]. intros now.
    destruct (_ <=? _); [apply emits_close_silent|].
    eapply emits_tbind; [by apply emits_send_silent|..]; [|done].
    intros [] l Hl. apply emits_ret. by rewrite app_nil_r.
Qed.

Lemma emits_deliver_pump c st readies :
  omap inbound_payload readies = [] ->
  emits (delivers (omap outbound_payload readies)) (Connection_pump c st readies).
Proof.
  revert st. induction readies as [|ready readies IH]; intros st Hin; cbn [Connection_pump].
  { by apply emits_ret. }
  assert (inbound_payload ready = None /\ omap inbound_payload readies = []) as [Hr Hrs].
  { cbn in Hin. by destruct (inbound_payload ready). }
  assert (omap outbound_payload (ready :: readies)
          = option_list (outbound_payload ready) ++ omap outbound_payload readies) as ->.
  { cbn. by destruct (outbound_payload ready). }
  eapply emits_tbind; [by apply emits_deliver_branch|..].
  - intros st' l Hl. eapply emits_weaken; [by apply IH|]. intros r l' Hl'.
    by eapply (delivers_app _ _ st').
  - intros e l Hl. by eapply delivers_cut.
Qed.

Lemma emits_replay c missed :
  emits (fun r l => plain c l /\ delivers (payload <$> missed) (r : result unit CloseReason) l)
    (try_each (fun m => Connection_send_bounded c (WsBinary (payload m))) missed).
Proof.
  induction missed as [|m missed IH]; cbn [try_each]; [apply emits_ret; by repeat constructor|].
  eapply emits_tbind; [apply emits_send|..].
  - intros [] l [->|[? ->]]; [|done]. eapply emits_weaken; [exact IH|]. intros r l' [Hp Hd].
    split; [by constructor|]. cbn. by apply (delivers_app [payload m] _ tt r [_] l').
  - intros e l [->|[_ ->]]; (split; [by repeat constructor|]); (split; [|done]);
      [by eexists|apply prefix_nil].
Qed.

(** What the hub hands a connection before the live stream. *)
Definition replayed_to c (w : W) : list string :=
  match (rt_subscribe_since (conn_room c) (conn_since c) w).1 with
  | Ok (Replayed missed, _) => payload <$> missed
  | _ => []
  end.

Lemma emits_run c readies :
  emits (fun r l => guarded c (omap inbound_payload readies) l /\ denial_closes c l)
    (Connection_run c readies).
Proof.
  unfold Connection_run. eapply (emits_bind (fun _ l => l = [CJoin (conn_room c)])).
  { intros w. eexists. by rewrite subscribe_since_calls. }
  set (frames := omap inbound_payload readies).
  assert (forall l (r : result unit CloseReason), segment c frames r l ->
    guarded c frames (CJoin (conn_room c) :: l) /\ denial_closes c (CJoin (conn_room c) :: l)) as Hjoin.
  { intros l r Hl. destruct (segment_app c frames tt r [CJoin (conn_room c)] l) as (? & ? & _); auto.
    apply plain_segment. by repeat constructor. }
  intros [[backlog stream]|e] l ->; cbn [app].
  2:{ eapply emits_bind; [apply (emits_send_plain c frames)|]. intros a l Hl. apply emits_ret.
      rewrite app_nil_r. by apply (Hjoin _ a). }
  eapply (emits_bind (fun r l => plain c l)).
  { destruct backlog as [missed| |]; cbn; [|by apply emits_ret; constructor..].
    eapply emits_weaken; [apply emits_replay|]. by intros ? ? []. }
  intros [[]|reason] l Hl; [|apply emits_ret; rewrite app_nil_r; by apply (Hjoin _ (Ok tt)), plain_segment].
  eapply emits_bind; [apply emits_now|]. intros now l0 ->.
  eapply (emits_bind (fun _ l => l = [])).
  { eapply emits_bind; [apply emits_now|]. intros ? ? ->. by apply emits_ret. }
  intros limiter l0 ->. eapply emits_bind; [apply emits_pump|]. intros r l1 Hl1.
  destruct (Hjoin (l ++ l1) (Err ClientGone)) as [Hg Hc].
  { assert (segment c frames r (l ++ l1)) as (? & ? & _); [|by split].
    by apply (segment_app c frames tt); [apply plain_segment|]. }
  destruct r as [st|reason]; [by apply emits_ret; rewrite app_nil_r|].
  eapply emits_bind; [apply emits_timeout, sink_close_calls|]. intros o l2 Hl2.
  apply emits_ret. rewrite app_nil_r, !app_nil_l, app_comm_cons, app_assoc in *.
  split; [apply guarded_app|apply denial_closes_end]; try done;
    destruct Hl2 as [->|[_ ->]]; try (by repeat constructor); by intros [|i]; cbn.
Qed.

Lemma emits_open_delivers c missed readies :
  omap inbound_payload readies = [] ->
  emits (fun r l => binaries l `prefix_of` (payload <$> missed) ++ omap outbound_payload readies /\
                    (r = None -> binaries l = (payload <$> missed) ++ omap outbound_payload readies))
    (do! replayed <- try_each (fun m => Connection_send_bounded c (WsBinary (payload m))) missed;
     match replayed with
     | Err reason => ret (Some reason)
     | Ok _ =>
         do! now <- instant_now;
         do! limiter <- InboundRateLimiter_new (max_inbound_frames_per_second (conn_config c));
         do! r <- Connection_pump c (mkPumpState now limiter) readies;
         match r with
         | Ok _ => ret None
         | Err reason => do! _ <- timeout (io_timeout (conn_config c)) sink_close; ret (Some reason)
         end
     end).
Proof.
  intros Hin. eapply emits_bind; [apply emits_replay|].
  intros [[]|reason] l [_ Hd]; [|apply emits_ret; rewrite app_nil_r].
  2:{ destruct Hd as [Hp _]. split; [by apply prefix_app_r|done]. }
  eapply emits_bind; [apply emits_now|]. intros now l0 ->.
  eapply (emits_bind (fun _ l => l = [])).
  { eapply emits_bind; [apply emits_now|]. intros ? ? ->. by apply emits_ret. }
  intros limiter l0 ->. eapply emits_bind; [by apply emits_deliver_pump|]. intros r l1 Hl1.
  pose proof (delivers_app _ _ tt r l l1 Hd Hl1) as [Hp Heq].
  destruct r as [st|reason]; [apply emits_ret; rewrite !app_nil_l, app_nil_r; auto|].
  eapply emits_bind; [apply emits_timeout, sink_close_calls|]. intros o l2 Hl2.
  apply emits_ret. split; [|done]. rewrite !app_nil_l, app_nil_r, app_assoc, binaries_app.
  by destruct Hl2 as [->|[_ ->]]; rewrite app_nil_r.
Qed.

Lemma pump_app c st readies1 readies2 w :
  Connection_pump c st (readies1 ++ readies2) w =
  tbind (Connection_pump c st readies1) (fun st' => Connection_pump c st' readies2) w.
Proof.
  revert st w. induction readies1 as [|ready readies1 IH]; intros st w; [done|].
  cbn. unfold tbind. destruct (Connection_branch c st ready w) as [[st1|] w1]; [|done]. apply IH.
Qed.

Definition is_inbound (ready : Ready) : bool := match ready with RInbound _ => true | _ => false end.

Lemma branch_last_seen c st ready w st' w' :
  is_inbound ready = false -> Connection_branch c st ready w = (Ok st', w') -> st' = st.
Proof.
  intros Hin. destruct ready as [[m|]|f| |]; cbn in *; try done; unfold tbind, bind, ret; cbn.
  - destruct (Connection_send_bounded _ _ w) as [[]]; naive_solver.
  - destruct (Connection_still_authorized c w) as [[]]; [naive_solver|].
    by destruct (Connection_send_bounded _ _ _).
  - destruct (instant_now w) as [now w1]. destruct (_ <=? _).
    + by destruct (Connection_send_bounded _ _ _).
    + destruct (Connection_send_bounded _ _ w1) as [[]]; naive_solver.
Qed.

Lemma pump_last_seen c st readies w st' w' :
  Forall (fun r => is_inbound r = false) readies ->
  Connection_pump c st readies w = (Ok st', w') -> st' = st.
Proof.
  intros Hin. revert w. induction Hin as [|ready readies Hr _ IH]; intros w; [by intros [= ->]|].
  cbn. unfold tbind. destruct (Connection_branch c st ready w) as [[st1|] w1] eqn:Hb; [|done].
  apply branch_last_seen in Hb as ->; [|done]. apply IH.
Qed.

Lemma bind_eq {A B} (m : M W A) (k : A -> M W B) w a w1 : m w = (a, w1) -> bind m k w = k a w1.
Proof. intros H. unfold bind. by rewrite H. Qed.

(** ** What a connection guarantees *)

(** C29: Over the whole life of a connection, whatever its branches deliver and
    the application answers: each frame the handler runs arrived on this
    connection, is handled as the connection's identity on its room, and was
    authorised for publishing by the call immediately before; and once a
    revalidation fails, because authentication fails, the identity changed or
    the subscription is denied, nothing follows but closing the socket. *)
Theorem connection_guarded c readies w :
  exists l, calls (Connection_run c readies w).2 = calls w ++ l /\
    guarded c (omap inbound_payload readies) l /\ denial_closes c l.
Proof. destruct (emits_run c readies w) as (l & ? & ? & ?). eauto. Qed.

(** While the client sends nothing to be answered, it is sent the payloads
    the hub replayed and then those of the room's live messages, in order and
    nothing else: always a prefix of them, and all of them while the
    connection is open. *)
Theorem connection_delivers c readies w :
  omap inbound_payload readies = [] ->
  exists l, calls (Connection_run c readies w).2 = calls w ++ l /\
    binaries l `prefix_of` replayed_to c w ++ omap outbound_payload readies /\
    ((Connection_run c readies w).1 = None ->
     binaries l = replayed_to c w ++ omap outbound_payload readies).
Proof.
  intros Hin. unfold Connection_run, replayed_to.
  pose proof (subscribe_since_calls (conn_room c) (conn_since c) w) as Hj.
  destruct (rt_subscribe_since _ _ w) as [[[backlog stream]|e] w1] eqn:Hsub; cbn [fst snd] in *;
    rewrite (bind_eq _ _ _ _ _ Hsub).
  - assert (exists missed, Connection_replay c backlog =
        try_each (fun m => Connection_send_bounded c (WsBinary (payload m))) missed /\
        payload <$> missed = match backlog with Replayed m => payload <$> m | _ => [] end)
      as (missed & Hm & <-).
    { destruct backlog as [m| |]; [by exists m|by exists []..]. }
    rewrite Hm. destruct (emits_open_delivers c missed readies Hin w1) as (l & Hl & Hp & He).
    exists (CJoin (conn_room c) :: l). rewrite Hl, Hj, <- app_assoc. done.
  - destruct (emits_close_silent c SubscribeFailed w1) as (l & Hl & Hp & _).
    unfold bind in *. destruct (Connection_send_bounded c WsClose w1) as [a w2]. cbn in *.
    exists (CJoin (conn_room c) :: l). rewrite Hl, Hj, <- app_assoc. split; [done|].
    split; [|done]. apply prefix_nil_inv in Hp.
    change (binaries (CJoin (conn_room c) :: l)) with (binaries l). rewrite Hp. apply prefix_nil.
Qed.

(** C30: A peer that stays silent is disconnected: if no frame arrived since
    the state [st] and the connection is still open, the first heartbeat tick
    at least [heartbeat_timeout] after the last frame closes it with
    [Timeout], whatever would become ready afterwards. *)
Theorem silent_peer_reaped c st before after w st' w' :
  Forall (fun r => is_inbound r = false) before ->
  Connection_pump c st before w = (Ok st', w') ->
  0 <= heartbeat_timeout (conn_config c) <= (instant_now w').1 - last_seen st ->
  (Connection_pump c st (before ++ RHeartbeat :: after) w).1 = Err Timeout.
Proof.
  intros Hin Hp Hlate. pose proof (pump_last_seen _ _ _ _ _ _ Hin Hp) as ->.
  rewrite pump_app. unfold tbind at 1. rewrite Hp. cbn. unfold tbind, bind.
  destruct (instant_now w') as [now w1]. cbn in Hlate.
  rewrite (proj2 (Z.leb_le _ _)) by lia. by destruct (Connection_send_bounded c WsClose w1).
Qed.

(** A refused upgrade never reaches the room: it makes the calls that refuse
    it and no other, and passes their error on. *)
Theorem upgrade_refused_or_authorized config parts room since w :
  exists l, calls (Realtime_upgrade_since config parts room since w).2 = calls w ++ l /\
    match (Realtime_upgrade_since config parts room since w).1 with
    | Ok c => c = mkConnection config parts (conn_identity c) room since /\
        l = [CAuthenticate (Some (conn_identity c));
             CAuthorize (conn_identity c) room Subscribe true]
    | Err e => (authenticate parts w).1 = Err e \/
        exists i w1, authenticate parts w = (Ok i, w1) /\
          (authorize i room Subscribe w1).1 = Err e
    end.
Proof.
  unfold Realtime_upgrade_since, tbind. pose proof (authenticate_calls parts w) as Ha.
  destruct (authenticate parts w) as [[i|e] w1]; cbn in *; [|eauto].
  pose proof (authorize_calls i room Subscribe w1) as Hz.
  destruct (authorize i room Subscribe w1) as [[[]|e] w2] eqn:Hauth; cbn in *;
    rewrite Hz, Ha, <- app_assoc; eexists; split; try done.
  right. exists i, w1. by rewrite Hauth.
Qed.
End Traces.

(** ** The rate limiter *)

(** Before a token is taken there are never more than the capacity. *)
Lemma f64_ltb_irrefl x : f64_ltb x x = false.
Proof. destruct x as [| | |s m e]; try done; [by destruct s|]. cbn. apply Z.ltb_irrefl. Qed.

Lemma limiter_refill_bounded x cap :
  f64_ltb cap (f64_min x cap) = false.
Proof.
  unfold f64_min. destruct (f64_is_nan x); [apply f64_ltb_irrefl|].
  destruct (f64_ltb cap x) eqn:E; [apply f64_ltb_irrefl|done].
Qed.

Fixpoint acquire_each (times : list Instant) (l : InboundRateLimiter) : list bool :=
  match times with
  | [] => []
  | t :: times' => let '(ok, l') := try_acquire_at t l in ok :: acquire_each times' l'
  end.

(** With the default configuration a fresh connection may submit a burst
    of exactly fifty frames at one instant; the next is dropped, one more is
    let through twenty milliseconds later, and after a silent hour the burst
    is again fifty, not more. *)
Theorem default_limiter_burst :
  acquire_each (repeat 0 51 ++ [20000000; 20000000] ++ repeat (from_secs 3600) 51)
    (InboundRateLimiter_at (max_inbound_frames_per_second RealtimeConfig_default) 0)
  = repeat true 50 ++ [false; true; false] ++ repeat true 50 ++ [false].
Proof. by vm_compute. Qed.

(** ** A concrete world

    The clock ticks one second per reading, the subscription is granted until
    [desk_until] calls were made, nothing times out. *)

Record Desk := mkDesk { desk_calls : list Call; desk_clock : Z; desk_until : nat }.

Definition desk_log (x : Call) (d : Desk) : Desk :=
  mkDesk (desk_calls d ++ [x]) (desk_clock d) (desk_until d).

Definition alice : Identity := mkIdentity "alice".

#[local] Instance desk_auth : ConnectionAuthenticator Desk unit := {
  authenticate _ := fun d => (Ok alice, desk_log (CAuthenticate (Some alice)) d);
}.
#[local] Instance desk_authorizer : RoomAuthorizer Desk := {
  authorize i r a := fun d =>
    let ok := match a with
              | Publish => true
              | Subscribe => (length (desk_calls d) <? desk_until d)%nat
              end in
    (if ok then Ok tt else Err (forbidden i r), desk_log (CAuthorize i r a ok) d);
}.
#[local] Instance desk_handler : OnMessage Desk := {
  on_message i r p := fun d => (Ok (Some (mkReply "echo" p)), desk_log (COnMessage i r p) d);
}.
#[local] Instance desk_time : TokioTime Desk := {
  instant_now := fun d =>
    (desk_clock d, mkDesk (desk_calls d) (desk_clock d + NANOS_PER_SEC) (desk_until d));
  timeout A _ m := fun d => let '(a, d') := m d in (Some a, d');
}.
#[local] Instance desk_sink : WsSink Desk := {
  sink_send m := fun d => (Ok tt, desk_log (CSend m) d);
  sink_close := fun d => (Ok tt, desk_log CCloseSink d);
}.
#[local] Instance desk_hub : RealtimeSubscriber Desk unit := {
  rt_subscribe r := fun d => (Ok tt, desk_log (CJoin r) d);
  rt_subscribe_since r _ := fun d =>
    (Ok (Replayed [stamp_version 2 (demo_move 20)], tt), desk_log (CJoin r) d);
}.

#[local] Instance desk_laws : ConnLaws Desk unit unit.
Proof.
  refine {| calls := desk_calls |}; try done.
  - intros i r [] w; [|done]. unfold authorize, desk_authorizer.
    by destruct (length (desk_calls w) <? desk_until w)%nat.
  - intros A d c w. cbn. by destruct (c w).
Defined.

Definition desk_connection : Connection unit :=
  mkConnection RealtimeConfig_default tt alice demo_room (Some 1).
Definition desk_start (until : nat) : Desk := mkDesk [] 0 until.

(** A frame is handled and answered, a revalidation succeeds, a message goes
    out, then the next revalidation is denied. *)
Example connection_revoked_run :
  Connection_run desk_connection
    [RInbound (Some (Ok (WsText "e4"))); RRevalidate; ROutbound (Some (demo_move 30));
     RRevalidate; ROutbound (Some (demo_move 40))] (desk_start 8) =
  (Some Revoked,
   mkDesk [CJoin demo_room; CSend (WsBinary "20");
           CAuthorize alice demo_room Publish true; COnMessage alice demo_room "e4";
           CSend (WsBinary "e4"); CAuthenticate (Some alice);
           CAuthorize alice demo_room Subscribe true; CSend (WsBinary "30");
           CAuthenticate (Some alice); CAuthorize alice demo_room Subscribe false;
           CSend WsClose; CCloseSink] (4 * NANOS_PER_SEC) 8).
Proof. by vm_compute. Qed.

Lemma connection_delivers_witness :
  exists l, desk_calls (Connection_run desk_connection
      [ROutbound (Some (demo_move 30)); RHeartbeat; ROutbound (Some (demo_move 40))]
      (desk_start 9)).2 = [] ++ l /\ binaries l = ["20"; "30"; "40"].
Proof.
  destruct (connection_delivers desk_connection
    [ROutbound (Some (demo_move 30)); RHeartbeat; ROutbound (Some (demo_move 40))]
    (desk_start 9) eq_refl) as (l & Hl & _ & Hb).
  exists l. split; [exact Hl|]. rewrite Hb; by vm_compute.
Defined.

Lemma silent_peer_reaped_witness :
  (Connection_pump desk_connection (mkPumpState 0 (InboundRateLimiter_at 50 0))
     ([ROutbound (Some (demo_move 30))] ++ RHeartbeat :: [ROutbound (Some (demo_move 40))])
     (mkDesk [] (from_secs 61) 9)).1 = Err Timeout.
Proof.
  apply (silent_peer_reaped desk_connection _ [ROutbound (Some (demo_move 30))]
    [ROutbound (Some (demo_move 40))] _ (mkPumpState 0 (InboundRateLimiter_at 50 0))
    (mkDesk [CSend (WsBinary "30")] (from_secs 61) 9)).
  - by repeat constructor.
  - by vm_compute.
  - split; by vm_compute.
Defined.
