(* ===== verification/Upcast.v ===== *)
(** * Integration events, their JSON codec and upcasting

    Models [crates/pharos-app/src/integration_event.rs], [serialization.rs]
    and [upcast.rs].

    JSON values and their (de)serialisation are the [serde_json] library:
    [Json] is a class over an abstract type of values with the accessors the
    code calls, and [JsonLaws] states what they are documented to do.  The
    [Serialize] and [Deserialize] instances that Rust derives for the envelope
    are described by [envelope] and the laws of [EnvelopeLaws]: an object with
    one member per field. *)

From S2P Require Import Prelude Core.
Local Open Scope Z_scope.

(** ** The envelope (integration_event.rs) *)

Record CorrelationId := mkCorrelationId { correlation_str : string }.
Record CausationId := mkCausationId { causation_str : string }.

Definition CorrelationId_from_uuid (u : Uuid) : CorrelationId := mkCorrelationId (uuid_to_string u).
Definition CausationId_from_uuid (u : Uuid) : CausationId := mkCausationId (uuid_to_string u).

Record IntegrationEvent (P : Type) := mkIntegrationEvent {
  ie_event_id : Uuid;
  ie_event_type : string;
  ie_schema_version : Z;
  ie_occurred_at : Instant;
  ie_aggregate_id : option string;
  ie_correlation_id : option CorrelationId;
  ie_causation_id : option CausationId;
  ie_source : string;
  ie_tenant_id : option string;
  ie_trace_id : option string;
  ie_payload : P;
  ie_metadata : gmap string string;
}.
Arguments mkIntegrationEvent {P} _ _ _ _ _ _ _ _ _ _ _ _.
Arguments ie_event_id {P} _.
Arguments ie_event_type {P} _.
Arguments ie_schema_version {P} _.
Arguments ie_occurred_at {P} _.
Arguments ie_aggregate_id {P} _.
Arguments ie_correlation_id {P} _.
Arguments ie_causation_id {P} _.
Arguments ie_source {P} _.
Arguments ie_tenant_id {P} _.
Arguments ie_trace_id {P} _.
Arguments ie_payload {P} _.
Arguments ie_metadata {P} _.

(** The same envelope around another payload at another version. *)
Definition reshape {P Q} (e : IntegrationEvent P) (version : Z) (payload : Q) : IntegrationEvent Q :=
  mkIntegrationEvent (ie_event_id e) (ie_event_type e) version (ie_occurred_at e)
    (ie_aggregate_id e) (ie_correlation_id e) (ie_causation_id e) (ie_source e) (ie_tenant_id e)
    (ie_trace_id e) payload (ie_metadata e).

Section Builders.
Context {P : Type}.
Implicit Types e : IntegrationEvent P.

Definition IntegrationEvent_new {W} `{!Env W} (event_type : string) (schema_version : Z)
  (source : string) (payload : P) : M W (IntegrationEvent P) :=
  do! id <- uuid_now_v7;
  do! now <- utc_now;
  ret (mkIntegrationEvent id event_type schema_version now None None None source None None payload ∅).

Definition with_occurred_at (at_ : Instant) e : IntegrationEvent P :=
  mkIntegrationEvent (ie_event_id e) (ie_event_type e) (ie_schema_version e) at_
    (ie_aggregate_id e) (ie_correlation_id e) (ie_causation_id e) (ie_source e) (ie_tenant_id e)
    (ie_trace_id e) (ie_payload e) (ie_metadata e).

Definition with_aggregate_id (id : string) e : IntegrationEvent P :=
  mkIntegrationEvent (ie_event_id e) (ie_event_type e) (ie_schema_version e) (ie_occurred_at e)
    (Some id) (ie_correlation_id e) (ie_causation_id e) (ie_source e) (ie_tenant_id e)
    (ie_trace_id e) (ie_payload e) (ie_metadata e).

Definition with_flow (correlation : option CorrelationId) (causation : option CausationId) e
  : IntegrationEvent P :=
  mkIntegrationEvent (ie_event_id e) (ie_event_type e) (ie_schema_version e) (ie_occurred_at e)
    (ie_aggregate_id e) correlation causation (ie_source e) (ie_tenant_id e)
    (ie_trace_id e) (ie_payload e) (ie_metadata e).

Definition with_correlation_id (id : CorrelationId) e : IntegrationEvent P :=
  with_flow (Some id) (ie_causation_id e) e.

Definition with_causation_id (id : CausationId) e : IntegrationEvent P :=
  with_flow (ie_correlation_id e) (Some id) e.

Definition caused_by {Q} (cause : IntegrationEvent Q) e : IntegrationEvent P :=
  with_flow
    (Some (default (CorrelationId_from_uuid (ie_event_id cause)) (ie_correlation_id cause)))
    (Some (CausationId_from_uuid (ie_event_id cause))) e.

Definition with_tenant_id (id : string) e : IntegrationEvent P :=
  mkIntegrationEvent (ie_event_id e) (ie_event_type e) (ie_schema_version e) (ie_occurred_at e)
    (ie_aggregate_id e) (ie_correlation_id e) (ie_causation_id e) (ie_source e) (Some id)
    (ie_trace_id e) (ie_payload e) (ie_metadata e).

Definition with_trace_id (id : string) e : IntegrationEvent P :=
  mkIntegrationEvent (ie_event_id e) (ie_event_type e) (ie_schema_version e) (ie_occurred_at e)
    (ie_aggregate_id e) (ie_correlation_id e) (ie_causation_id e) (ie_source e) (ie_tenant_id e)
    (Some id) (ie_payload e) (ie_metadata e).

Definition with_metadata (key value : string) e : IntegrationEvent P :=
  mkIntegrationEvent (ie_event_id e) (ie_event_type e) (ie_schema_version e) (ie_occurred_at e)
    (ie_aggregate_id e) (ie_correlation_id e) (ie_causation_id e) (ie_source e) (ie_tenant_id e)
    (ie_trace_id e) (ie_payload e) (<[key := value]> (ie_metadata e)).

(** The three answers of a [DomainEvent]. *)
Definition from_domain_event {W} `{!Env W} (event_type : string) (occurred_at : Instant)
  (aggregate_id : string) (schema_version : Z) (source : string) (payload : P)
  : M W (IntegrationEvent P) :=
  do! e <- IntegrationEvent_new event_type schema_version source payload;
  ret (with_aggregate_id aggregate_id (with_occurred_at occurred_at e)).
End Builders.

(** ** JSON and the plain codec (serialization.rs) *)

(** [serde_json]: values, their accessors, and text. *)
Class Json (V : Type) : Type := {
  as_object : V -> option (gmap string V);
  of_object : gmap string V -> V;
  as_str : V -> option string;
  as_u64 : V -> option Z;
  from_u32 : Z -> V;
  json_from_slice : string -> result V string;
}.

(** [Serialize] and [DeserializeOwned] of a type that is a payload, and those
    derived for the envelope around it. *)
Class SerdeEvent (P : Type) : Type := {
  to_vec : IntegrationEvent P -> result string string;
  from_slice : string -> result (IntegrationEvent P) string;
}.

Class FromValue (V P : Type) : Type := {
  from_value : V -> result (IntegrationEvent P) string;
}.

Record SerializedEvent := mkSerializedEvent { se_content_type : string; se_payload : string }.

Inductive EventSerializationError := EseJson (e : string).

(** [MessageCodec]: what a wire format offers; [None] is a decoder that never
    returns. *)
Class MessageCodec (C P E : Type) : Type := {
  codec_encode : C -> IntegrationEvent P -> result SerializedEvent E;
  codec_decode : C -> SerializedEvent -> option (result (IntegrationEvent P) E);
}.

Inductive JsonEventSerializer := mkJsonEventSerializer.

Section PlainCodec.
Context {P : Type} `{!SerdeEvent P}.

Definition JsonEventSerializer_serialize (e : IntegrationEvent P)
  : result SerializedEvent EventSerializationError :=
  res! payload <- map_err EseJson (to_vec e);
  Ok (mkSerializedEvent "application/json" payload).

Definition JsonEventSerializer_deserialize (wire : SerializedEvent)
  : result (IntegrationEvent P) EventSerializationError :=
  map_err EseJson (from_slice (se_payload wire)).

#[export] Instance JsonEventSerializer_codec :
  MessageCodec JsonEventSerializer P EventSerializationError := {
  codec_encode _ := JsonEventSerializer_serialize;
  codec_decode _ wire := Some (JsonEventSerializer_deserialize wire);
}.
End PlainCodec.

(** ** Upcasters (upcast.rs) *)

Inductive UpcastError :=
| UeJson (e : string)
| UeMalformedEnvelope
| UeVersionOutOfRange (version : Z)
| UeUnsupportedVersion (event_type : string) (version known_up_to : Z)
| UeTransform (event_type : string) (from_version : Z) (source : string)
| UeGapInChain (event_type : string) (stopped_at known_up_to : Z).

Abbreviation UpcastFn V := (V -> result V string).

Record JsonUpcasterRegistry (V : Type) := mkRegistry {
  upcasters : gmap (string * Z) (UpcastFn V);
  max_known : gmap string Z;
}.
Arguments mkRegistry {V} _ _.
Arguments upcasters {V} _.
Arguments max_known {V} _.

Section Upcasting.
Context {V : Type}.
Implicit Types reg : JsonUpcasterRegistry V.

Definition JsonUpcasterRegistry_new : JsonUpcasterRegistry V := mkRegistry ∅ ∅.

Definition with_upcaster (event_type : string) (from_version : Z) (upcast : UpcastFn V) reg
  : JsonUpcasterRegistry V :=
  let reaches := u32_add from_version 1 in
  mkRegistry (<[(event_type, from_version) := upcast]> (upcasters reg))
    (<[event_type := match max_known reg !! event_type with
                     | Some max => Z.max max reaches
                     | None => reaches
                     end]> (max_known reg)).

Definition JsonUpcasterRegistry_len reg : Z := Z.of_nat (size (upcasters reg)).
Definition JsonUpcasterRegistry_is_empty reg : bool := bool_decide (upcasters reg = ∅).

Definition JsonUpcasterRegistry_get reg (event_type : string) (from_version : Z)
  : option (UpcastFn V) := upcasters reg !! (event_type, from_version).

Definition max_known_version reg (event_type : string) : option Z := max_known reg !! event_type.

Context `{!Json V}.

(** The [while let] loop of [decode]; [None] is a loop that never ends.  It
    visits registered versions only, so one round more than there are
    upcasters decides. *)
Fixpoint upcast_loop (fuel : nat) reg (event_type : string) (version : Z) (obj : gmap string V)
  : option (result (Z * gmap string V) UpcastError) :=
  match fuel with
  | O => None
  | S fuel' =>
      match JsonUpcasterRegistry_get reg event_type version with
      | None => Some (Ok (version, obj))
      | Some upcast =>
          match obj !! "payload" with
          | None => Some (Err UeMalformedEnvelope)
          | Some payload =>
              match upcast payload with
              | Err source => Some (Err (UeTransform event_type version source))
              | Ok upgraded =>
                  let obj := <["payload" := upgraded]> (delete "payload" obj) in
                  let version := u32_add version 1 in
                  upcast_loop fuel' reg event_type version
                    (<["schema_version" := from_u32 version]> obj)
              end
          end
      end
  end.

(** The check after the loop. *)
Definition check_reached reg (event_type : string) (version : Z) : result unit UpcastError :=
  match max_known_version reg event_type with
  | None => Ok tt
  | Some known_up_to =>
      if known_up_to <? version then Err (UeUnsupportedVersion event_type version known_up_to)
      else if version <? known_up_to then Err (UeGapInChain event_type version known_up_to)
      else Ok tt
  end.

(** The header of the envelope. *)
Definition read_header (obj : gmap string V) : result (string * Z) UpcastError :=
  res! event_type <- ok_or (v ← obj !! "event_type"; as_str v) UeMalformedEnvelope;
  res! raw_version <- ok_or (v ← obj !! "schema_version"; as_u64 v) UeMalformedEnvelope;
  if raw_version <=? u32_max then Ok (event_type, raw_version)
  else Err (UeVersionOutOfRange raw_version).

Context {P : Type} `{!SerdeEvent P, !FromValue V P}.

(** [VersionedJsonCodec::encode]. *)
Definition VersionedJsonCodec_encode (e : IntegrationEvent P) : result SerializedEvent UpcastError :=
  map_err (fun '(EseJson x) => UeJson x) (JsonEventSerializer_serialize e).

(** [VersionedJsonCodec::decode]. *)
Definition VersionedJsonCodec_decode reg (wire : SerializedEvent)
  : option (result (IntegrationEvent P) UpcastError) :=
  match map_err UeJson (json_from_slice (se_payload wire)) with
  | Err e => Some (Err e)
  | Ok envelope =>
      match (res! obj <- ok_or (as_object envelope) UeMalformedEnvelope;
             res! header <- read_header obj;
             Ok (obj, header)) with
      | Err e => Some (Err e)
      | Ok (obj, (event_type, version)) =>
          r ← upcast_loop (S (size (upcasters reg))) reg event_type version obj;
          Some (res! reached <- r;
                res! _ <- check_reached reg event_type reached.1;
                map_err UeJson (from_value (of_object reached.2)))
      end
  end.

#[export] Instance VersionedJsonCodec_codec :
  MessageCodec (JsonUpcasterRegistry V) P UpcastError := {
  codec_encode _ := VersionedJsonCodec_encode;
  codec_decode := VersionedJsonCodec_decode;
}.
End Upcasting.

(** ** What is relied on *)

Class JsonLaws (V : Type) `{!Json V} : Prop := {
  as_object_of_object m : as_object (of_object m) = Some m;
  as_u64_from_u32 n : 0 <= n <= u32_max -> as_u64 (from_u32 n) = Some n;
  as_u64_range v n : as_u64 v = Some n -> 0 <= n <= u64_max;
}.

(** The members of an envelope that holds a JSON payload. *)
Class EnvelopeLaws (V : Type) `{!Json V} : Type := {
  envelope : IntegrationEvent V -> gmap string V;
  envelope_type e : (v ← envelope e !! "event_type"; as_str v) = Some (ie_event_type e);
  envelope_version e : 0 <= ie_schema_version e <= u32_max ->
    (v ← envelope e !! "schema_version"; as_u64 v) = Some (ie_schema_version e);
  envelope_payload e : envelope e !! "payload" = Some (ie_payload e);
  envelope_reshape e n p :
    <["schema_version" := from_u32 n]> (<["payload" := p]> (delete "payload" (envelope e)))
    = envelope (reshape e n p);
}.

(** Serialising writes the envelope around the payload's value. *)
Class EncodeLaws (V P : Type) `{!Json V, !EnvelopeLaws V, !SerdeEvent P} : Type := {
  ser : P -> V;
  to_vec_text e bytes : to_vec e = Ok bytes ->
    json_from_slice bytes
    = Ok (of_object (envelope (reshape e (ie_schema_version e) (ser (ie_payload e)))));
}.

(** Deserialising reads the fields back and the payload as [Q]; what it read
    as the version is the member of that name. *)
Class DecodeLaws (V Q : Type) `{!Json V, !EnvelopeLaws V, !FromValue V Q} : Type := {
  de : V -> result Q string;
  from_value_envelope e : 0 <= ie_schema_version e <= u32_max ->
    from_value (of_object (envelope e)) =
    match de (ie_payload e) with
    | Ok q => Ok (reshape e (ie_schema_version e) q)
    | Err x => Err x
    end;
  from_value_header obj (e : IntegrationEvent Q) : from_value (of_object obj) = Ok e ->
    (v ← obj !! "event_type"; as_str v) = Some (ie_event_type e) /\
    (v ← obj !! "schema_version"; as_u64 v) = Some (ie_schema_version e);
}.

(** ** Registries *)

Section Registry.
Context {V : Type}.
Implicit Types reg : JsonUpcasterRegistry V.

(** The memoised top of a type's chain is one past its largest upcaster. *)
Definition registry_ok reg : Prop := forall ty,
  match max_known reg !! ty with
  | None => forall v, upcasters reg !! (ty, v) = None
  | Some top => 0 < top <= u32_max /\ is_Some (upcasters reg !! (ty, top - 1)) /\
      forall v f, upcasters reg !! (ty, v) = Some f -> 0 <= v < top
  end.

Lemma registry_ok_new : registry_ok JsonUpcasterRegistry_new.
Proof. intros ty. cbn. rewrite lookup_empty. intros v. apply lookup_empty. Qed.

Lemma with_upcaster_ok ty v f reg :
  0 <= v < u32_max -> registry_ok reg -> registry_ok (with_upcaster ty v f reg).
Proof.
  intros Hv Hok ty'. specialize (Hok ty'). unfold with_upcaster. cbn.
  rewrite u32_add_small by lia. destruct (decide (ty' = ty)) as [->|Hne].
  - rewrite lookup_insert_eq. destruct (max_known reg !! ty) as [top|].
    + destruct Hok as (Htop & Hlast & Hall). split; [lia|]. split.
      * destruct (decide (v = Z.max top (v + 1) - 1)) as [E|E].
        { rewrite <- E, lookup_insert_eq. by eexists. }
        rewrite lookup_insert_ne by congruence. by replace (Z.max top (v + 1)) with top by lia.
      * intros v' f'. destruct (decide (v' = v)) as [->|]; [lia|].
        rewrite lookup_insert_ne by congruence. intros H%Hall. lia.
    + split; [lia|]. split.
      * replace (v + 1 - 1) with v by lia. rewrite lookup_insert_eq. by eexists.
      * intros v' f'. destruct (decide (v' = v)) as [->|]; [lia|].
        rewrite lookup_insert_ne by congruence. by rewrite Hok.
  - rewrite lookup_insert_ne by done. destruct (max_known reg !! ty') as [top|].
    + destruct Hok as (Htop & Hlast & Hall). rewrite lookup_insert_ne by congruence.
      split; [done|]. split; [done|]. intros v' f'. rewrite lookup_insert_ne by congruence. apply Hall.
    + intros v'. rewrite lookup_insert_ne by congruence. apply Hok.
Qed.

(** ** The loop ends *)

Context `{!Json V}.

Lemma upcast_loop_none n reg ty v obj i :
  upcast_loop n reg ty v obj = None -> 0 <= v <= u32_max -> (i < n)%nat ->
  is_Some (upcasters reg !! (ty, (v + Z.of_nat i) mod 2 ^ 32)).
Proof.
  revert v obj i. induction n as [|n IH]; intros v obj i Hl Hv Hi; [lia|]. cbn in Hl.
  destruct (JsonUpcasterRegistry_get reg ty v) as [f|] eqn:Hf; [|done].
  destruct (obj !! "payload") as [p|]; [|done]. destruct (f p) as [p'|]; [|done].
  destruct i as [|i].
  - rewrite Z.add_0_r, Z.mod_small by (unfold u32_max in Hv; lia). unfold JsonUpcasterRegistry_get in Hf.
    by eexists.
  - apply IH with (i := i) in Hl; [|unfold u32_add, u32_max; pose proof (Z.mod_pos_bound (v + 1) (2 ^ 32)); lia|lia].
    unfold u32_add in Hl. rewrite Zplus_mod_idemp_l in Hl.
    by replace (v + Z.of_nat (S i)) with (v + 1 + Z.of_nat i) by lia.
Qed.

Lemma upcast_loop_ends reg ty v obj :
  Z.of_nat (size (upcasters reg)) < 2 ^ 32 -> 0 <= v <= u32_max ->
  is_Some (upcast_loop (S (size (upcasters reg))) reg ty v obj).
Proof.
  intros Hsize Hv. destruct (upcast_loop _ _ _ _ _) eqn:Hl; [by eexists|exfalso].
  set (keys := (fun i => (ty, (v + Z.of_nat i) mod 2 ^ 32)) <$> seq 0 (S (size (upcasters reg)))).
  assert (NoDup keys) as Hnd.
  { apply NoDup_fmap_2_strong; [|apply NoDup_seq]. intros i j Hi Hj [= Heq].
    apply elem_of_seq in Hi, Hj.
    assert (Z.of_nat i mod 2 ^ 32 = Z.of_nat j mod 2 ^ 32) as Hij.
    { apply (f_equal (fun x => (x - v) mod 2 ^ 32)) in Heq.
      rewrite !Zminus_mod_idemp_l in Heq. by replace (v + Z.of_nat i - v) with (Z.of_nat i) in Heq by lia;
        replace (v + Z.of_nat j - v) with (Z.of_nat j) in Heq by lia. }
    rewrite !Z.mod_small in Hij by lia. lia. }
  assert (list_to_set keys ⊆ dom (upcasters reg)) as Hsub.
  { intros k Hk%elem_of_list_to_set. unfold keys in Hk. apply list_elem_of_fmap in Hk as (i & -> & Hi).
    apply elem_of_seq in Hi. apply elem_of_dom. eapply upcast_loop_none; [exact Hl|done|lia]. }
  apply subseteq_size in Hsub. rewrite size_list_to_set in Hsub by done.
  unfold keys in Hsub. rewrite length_fmap, length_seq, size_dom in Hsub. lia.
Qed.
End Registry.

(** ** The loop applies the chain *)

Section Chain.
Context {V : Type} `{!Json V, !JsonLaws V, !EnvelopeLaws V}.
Implicit Types reg : JsonUpcasterRegistry V.

(** Reference: the upcasters of versions [v], [v + 1], ... [v + n - 1] one
    after the other. *)
Fixpoint upcast_chain reg (ty : string) (v : Z) (n : nat) (p : V) : result V UpcastError :=
  match n with
  | O => Ok p
  | S n' =>
      match upcasters reg !! (ty, v) with
      | None => Ok p
      | Some f =>
          match f p with
          | Ok p' => upcast_chain reg ty (v + 1) n' p'
          | Err x => Err (UeTransform ty v x)
          end
      end
  end.

(** Every version from [v] up to [v + n] has its upcaster, and the last has
    none. *)
Definition chain_covers reg (ty : string) (v : Z) (n : nat) : Prop :=
  (forall i, v <= i < v + Z.of_nat n -> is_Some (upcasters reg !! (ty, i))) /\
  upcasters reg !! (ty, v + Z.of_nat n) = None.

Lemma upcast_loop_mono n n' reg ty v obj r :
  upcast_loop n reg ty v obj = Some r -> (n <= n')%nat -> upcast_loop n' reg ty v obj = Some r.
Proof.
  revert n' v obj. induction n as [|n IH]; intros n' v obj Hl Hle; [done|].
  destruct n' as [|n']; [lia|]. cbn in *.
  destruct (JsonUpcasterRegistry_get reg ty v) as [f|]; [|done].
  destruct (obj !! "payload") as [p|]; [|done]. destruct (f p); [|done].
  apply IH; [done|lia].
Qed.

Lemma upcast_loop_step n reg ty v obj f p p' :
  upcasters reg !! (ty, v) = Some f -> obj !! "payload" = Some p -> f p = Ok p' ->
  upcast_loop (S n) reg ty v obj =
  upcast_loop n reg ty (u32_add v 1)
    (<["schema_version" := from_u32 (u32_add v 1)]> (<["payload" := p']> (delete "payload" obj))).
Proof. intros Hf Hp Hok. cbn. unfold JsonUpcasterRegistry_get. by rewrite Hf, Hp, Hok. Qed.

Lemma reshape_id (e : IntegrationEvent V) : reshape e (ie_schema_version e) (ie_payload e) = e.
Proof. by destruct e. Qed.

Lemma upcast_loop_chain reg ty n (e : IntegrationEvent V) :
  let v := ie_schema_version e in
  0 <= v -> v + Z.of_nat n <= u32_max -> chain_covers reg ty v n ->
  upcast_loop (S n) reg ty v (envelope e) =
  Some (match upcast_chain reg ty v n (ie_payload e) with
        | Ok p => Ok (v + Z.of_nat n, envelope (reshape e (v + Z.of_nat n) p))
        | Err x => Err x
        end).
Proof.
  revert e. induction n as [|n IH]; intros e v Hv Hmax [Hreg Htop].
  - cbn. rewrite Z.add_0_r in *. unfold JsonUpcasterRegistry_get. rewrite Htop. unfold v.
    by rewrite reshape_id.
  - destruct (Hreg v ltac:(lia)) as [f Hf].
    pose proof (envelope_payload e) as Hp. cbn [upcast_chain]. rewrite Hf.
    destruct (f (ie_payload e)) as [p'|x] eqn:Hfp.
    2:{ cbn. unfold JsonUpcasterRegistry_get. by rewrite Hf, Hp, Hfp. }
    rewrite (upcast_loop_step _ _ _ _ _ _ _ _ Hf Hp Hfp), u32_add_small, envelope_reshape by lia.
    replace (v + Z.of_nat (S n)) with (v + 1 + Z.of_nat n) in * by lia.
    specialize (IH (reshape e (v + 1) p')). cbn [ie_schema_version ie_payload reshape] in IH.
    rewrite IH; [done|lia|lia|].
    split; [|done]. intros i Hi. apply Hreg. lia.
Qed.

Lemma decode_loop reg ty n (e : IntegrationEvent V) :
  let v := ie_schema_version e in
  Z.of_nat (size (upcasters reg)) < 2 ^ 32 ->
  0 <= v -> v + Z.of_nat n <= u32_max -> chain_covers reg ty v n ->
  upcast_loop (S (size (upcasters reg))) reg ty v (envelope e) =
  Some (match upcast_chain reg ty v n (ie_payload e) with
        | Ok p => Ok (v + Z.of_nat n, envelope (reshape e (v + Z.of_nat n) p))
        | Err x => Err x
        end).
Proof.
  intros v Hsize Hv Hmax Hc.
  destruct (upcast_loop_ends reg ty v (envelope e)) as [r Hr]; [done|lia|]. rewrite Hr.
  pose proof (upcast_loop_chain reg ty n e Hv Hmax Hc) as Hn. fold v in Hn.
  apply (upcast_loop_mono _ (S (size (upcasters reg)) + S n)) in Hr; [|lia].
  apply (upcast_loop_mono _ (S (size (upcasters reg)) + S n)) in Hn; [|lia]. congruence.
Qed.

Lemma registry_ok_top reg ty v :
  registry_ok reg ->
  upcasters reg !! (ty, default v (max_known_version reg ty)) = None.
Proof.
  intros Hok. specialize (Hok ty). unfold max_known_version.
  destruct (max_known reg !! ty) as [top|]; [|apply Hok]. destruct Hok as (_ & _ & Hall).
  cbn. destruct (upcasters reg !! (ty, top)) as [f|] eqn:E; [|done]. apply Hall in E. lia.
Qed.

Context {P Q : Type} `{!SerdeEvent P, !FromValue V Q, !EncodeLaws V P, !DecodeLaws V Q}.

(** C32: decoding what was encoded applies exactly the missing upcasters, in
    version order: when the chain of the event's type covers every version
    from the event's up to the top the registry reaches, the decoded event is
    the encoded one at the top version with its payload sent through those
    upcasters one after the other; an upcaster that fails is reported with its
    version; a type without upcasters is left as it is.  Decoding always
    returns. *)
Theorem decode_applies_chain reg (e : IntegrationEvent P) bytes ct :
  let v := ie_schema_version e in
  let top := default v (max_known_version reg (ie_event_type e)) in
  registry_ok reg -> Z.of_nat (size (upcasters reg)) < 2 ^ 32 ->
  0 <= v <= top -> top <= u32_max ->
  (forall i, v <= i < top -> is_Some (upcasters reg !! (ie_event_type e, i))) ->
  to_vec e = Ok bytes ->
  VersionedJsonCodec_decode (P := Q) reg (mkSerializedEvent ct bytes) =
  Some (match upcast_chain reg (ie_event_type e) v (Z.to_nat (top - v)) (ser (ie_payload e)) with
        | Err x => Err x
        | Ok p => match de p with
                  | Ok q => Ok (reshape e top q)
                  | Err x => Err (UeJson x)
                  end
        end).
Proof.
  intros v top Hok Hsize Hv Htop Hreg Hbytes.
  assert (chain_covers reg (ie_event_type e) v (Z.to_nat (top - v))) as Hc.
  { split; rewrite Z2Nat.id by lia.
    - intros i Hi. apply Hreg. lia.
    - replace (v + (top - v)) with top by lia. by apply registry_ok_top. }
  unfold VersionedJsonCodec_decode. cbn. rewrite (to_vec_text _ _ Hbytes). cbn.
  rewrite as_object_of_object. cbn. set (e' := reshape e _ _).
  unfold read_header. rewrite envelope_type, envelope_version by (cbn; lia). cbn.
  replace (ie_schema_version e <=? u32_max) with true by lia. cbn.
  pose proof (decode_loop reg (ie_event_type e) (Z.to_nat (top - v)) e' Hsize) as Hl.
  cbn in Hl. fold v in Hl |- *. rewrite Hl by (done || lia). clear Hl. cbn.
  destruct (upcast_chain _ _ _ _ _) as [p|x]; cbn; [|done].
  replace (v + Z.of_nat (Z.to_nat (top - v))) with top by lia.
  assert (check_reached reg (ie_event_type e) top = Ok tt) as ->.
  { unfold check_reached, top. destruct (max_known_version _ _) as [k|]; [|done]. cbn.
    by rewrite Z.ltb_irrefl. }
  cbn. rewrite from_value_envelope by (cbn; lia). cbn. by destruct (de p).
Qed.

(** What the loop leaves in the envelope. *)
Lemma upcast_loop_header n reg ty v obj r obj' :
  upcast_loop n reg ty v obj = Some (Ok (r, obj')) ->
  0 <= v <= u32_max -> (x ← obj !! "schema_version"; as_u64 x) = Some v ->
  upcasters reg !! (ty, r) = None /\ 0 <= r <= u32_max /\
  (x ← obj' !! "schema_version"; as_u64 x) = Some r /\
  obj' !! "event_type" = obj !! "event_type".
Proof.
  revert v obj. induction n as [|n IH]; intros v obj Hl Hv Hs; [done|]. cbn in Hl.
  destruct (JsonUpcasterRegistry_get reg ty v) as [f|] eqn:Hf; [|by simplify_eq].
  destruct (obj !! "payload") as [p|]; [|done]. destruct (f p) as [p'|]; [|done].
  assert (0 <= u32_add v 1 <= u32_max) as Hv'.
  { unfold u32_add, u32_max. pose proof (Z.mod_pos_bound (v + 1) (2 ^ 32)). lia. }
  apply IH in Hl as (? & ? & ? & Ht); [|done|].
  - rewrite Ht, !lookup_insert_ne, lookup_delete_ne by done. done.
  - rewrite lookup_insert_eq. cbn. by apply as_u64_from_u32.
Qed.

(** Registered upcasters take an envelope from version [v] to version [s],
    one after the other, rewriting payload and version only. *)
Inductive climbs reg (ty : string) : Z -> gmap string V -> Z -> gmap string V -> Prop :=
| climbs_stay v obj : climbs reg ty v obj v obj
| climbs_step v obj f p p' s obj' :
    upcasters reg !! (ty, v) = Some f -> obj !! "payload" = Some p -> f p = Ok p' ->
    climbs reg ty (u32_add v 1)
      (<["schema_version" := from_u32 (u32_add v 1)]> (<["payload" := p']> obj)) s obj' ->
    climbs reg ty v obj s obj'.

(** The envelope on the wire: an object with a type and a version. *)
Definition wire_header (wire : SerializedEvent) (obj : gmap string V) (ty : string) (v : Z) : Prop :=
  exists env, json_from_slice (se_payload wire) = Ok env /\ as_object env = Some obj
    /\ (x ← obj !! "event_type"; as_str x) = Some ty /\ (x ← obj !! "schema_version"; as_u64 x) = Some v.

(** Where the chain of an envelope ends: no upcaster takes it further. *)
Definition climbs_to reg (ty : string) v obj s obj' : Prop :=
  climbs reg ty v obj s obj' /\ upcasters reg !! (ty, s) = None.

(** What each answer of the codec means. *)
Inductive decode_outcome reg (wire : SerializedEvent) : result (IntegrationEvent Q) UpcastError -> Prop :=
| outcome_no_json x :
    json_from_slice (se_payload wire) = Err x -> decode_outcome reg wire (Err (UeJson x))
| outcome_no_header env :
    json_from_slice (se_payload wire) = Ok env -> (forall obj ty v, ~ wire_header wire obj ty v) ->
    decode_outcome reg wire (Err UeMalformedEnvelope)
| outcome_out_of_range obj ty v :
    wire_header wire obj ty v -> u32_max < v -> decode_outcome reg wire (Err (UeVersionOutOfRange v))
| outcome_no_payload obj ty v s obj' :
    wire_header wire obj ty v -> v <= u32_max -> climbs reg ty v obj s obj' ->
    is_Some (upcasters reg !! (ty, s)) -> obj' !! "payload" = None ->
    decode_outcome reg wire (Err UeMalformedEnvelope)
| outcome_transform obj ty v s obj' f p x :
    wire_header wire obj ty v -> v <= u32_max -> climbs reg ty v obj s obj' ->
    upcasters reg !! (ty, s) = Some f -> obj' !! "payload" = Some p -> f p = Err x ->
    decode_outcome reg wire (Err (UeTransform ty s x))
| outcome_unsupported obj ty v s obj' top :
    wire_header wire obj ty v -> v <= u32_max -> climbs_to reg ty v obj s obj' ->
    max_known_version reg ty = Some top -> top < s ->
    decode_outcome reg wire (Err (UeUnsupportedVersion ty s top))
| outcome_gap obj ty v s obj' top :
    wire_header wire obj ty v -> v <= u32_max -> climbs_to reg ty v obj s obj' ->
    max_known_version reg ty = Some top -> s < top ->
    decode_outcome reg wire (Err (UeGapInChain ty s top))
| outcome_payload obj ty v s obj' r :
    wire_header wire obj ty v -> v <= u32_max -> climbs_to reg ty v obj s obj' ->
    default s (max_known_version reg ty) = s -> from_value (of_object obj') = r ->
    decode_outcome reg wire (map_err UeJson r).

Lemma upcast_loop_climbs n reg ty v obj r :
  upcast_loop n reg ty v obj = Some r ->
  match r with
  | Ok (s, obj') => climbs_to reg ty v obj s obj'
  | Err UeMalformedEnvelope => exists s obj', climbs reg ty v obj s obj'
      /\ is_Some (upcasters reg !! (ty, s)) /\ obj' !! "payload" = None
  | Err (UeTransform ty' s x) => ty' = ty /\ exists obj' f p, climbs reg ty v obj s obj'
      /\ upcasters reg !! (ty, s) = Some f /\ obj' !! "payload" = Some p /\ f p = Err x
  | Err _ => False
  end.
Proof.
  revert v obj. induction n as [|n IH]; intros v obj Hl; [done|]. cbn in Hl. unfold JsonUpcasterRegistry_get in Hl.
  destruct (upcasters reg !! (ty, v)) as [f|] eqn:Hf; [|simplify_eq; split; [constructor|done]].
  destruct (obj !! "payload") as [p|] eqn:Hp;
    [|simplify_eq; exists v, obj; split; [constructor|by rewrite Hf]].
  destruct (f p) as [p'|x] eqn:Hfp; [|simplify_eq; split; [done|]; exists obj, f, p; split; [constructor|done]].
  rewrite insert_delete_eq in Hl. pose proof (IH _ _ Hl) as H'. clear IH Hl.
  destruct r as [[s obj']|[]]; try done.
  - destruct H' as [Hc Hn]. split; [by eapply climbs_step|done].
  - destruct H' as (s & obj' & Hc & Hr). exists s, obj'. split; [by eapply climbs_step|done].
  - destruct H' as (-> & obj' & g & q & Hc & Hr). split; [done|]. exists obj', g, q.
    split; [by eapply climbs_step|done].
Qed.

Lemma wire_header_fun wire obj ty v obj' ty' v' :
  wire_header wire obj ty v -> wire_header wire obj' ty' v' -> obj' = obj /\ ty' = ty /\ v' = v.
Proof.
  intros (env & E & O & T & Hv) (env' & E' & O' & T' & Hv'). rewrite E in E'. injection E' as <-.
  rewrite O in O'. injection O' as <-. rewrite T in T'. rewrite Hv in Hv'. by simplify_eq.
Qed.

(** Nothing takes the envelope [obj] at version [s] further. *)
Definition stops reg (ty : string) (s : Z) (obj : gmap string V) : Prop :=
  forall f p p', upcasters reg !! (ty, s) = Some f -> obj !! "payload" = Some p -> f p = Ok p' -> False.

Lemma climbs_fun reg ty v obj s1 o1 s2 o2 :
  climbs reg ty v obj s1 o1 -> stops reg ty s1 o1 -> climbs reg ty v obj s2 o2 -> stops reg ty s2 o2 ->
  s2 = s1 /\ o2 = o1.
Proof.
  induction 1 as [v obj|v obj f p p' s obj' Hf Hp Hfp Hc IH]; intros H1 Hd H2.
  - inversion Hd as [|? ? f p p' ? ? Hf Hp Hfp]; subst; [done|]. by destruct (H1 f p p').
  - inversion Hd as [|? ? g q q' ? ? Hg Hq Hgq Hd']; subst; [by destruct (H2 f p p')|].
    rewrite Hf in Hg. injection Hg as <-. rewrite Hp in Hq. injection Hq as <-.
    rewrite Hfp in Hgq. injection Hgq as <-. by apply IH.
Qed.

(** The ways a climb is over. *)
Lemma stops_none reg ty s obj : upcasters reg !! (ty, s) = None -> stops reg ty s obj.
Proof. intros Hn f p p' Hf. congruence. Qed.
Lemma stops_payload reg ty s obj : obj !! "payload" = None -> stops reg ty s obj.
Proof. intros Hn f p p' _ Hp. congruence. Qed.
Lemma stops_error reg ty s obj f p x :
  upcasters reg !! (ty, s) = Some f -> obj !! "payload" = Some p -> f p = Err x -> stops reg ty s obj.
Proof. intros Hf Hp Hx g q q' Hg Hq Hgq. congruence. Qed.

Ltac one_wire :=
  repeat match goal with
  | H1 : wire_header ?w _ _ _, H2 : wire_header ?w _ _ _ |- _ =>
      destruct (wire_header_fun _ _ _ _ _ _ _ H1 H2) as (-> & -> & ->); clear H2
  | H : climbs_to _ _ _ _ _ _ |- _ => destruct H
  | H1 : climbs ?r ?t ?v ?o ?s1 ?o1, H2 : climbs ?r ?t ?v ?o ?s2 ?o2 |- _ =>
      assert (s2 = s1 /\ o2 = o1) as [-> ->] by (apply (climbs_fun r t v o);
        eauto using stops_none, stops_payload, stops_error);
      clear H2
  | H : is_Some _ |- _ => destruct H
  end.

(** The outcome of a wire message is one. *)
Lemma decode_outcome_fun reg wire r r' :
  decode_outcome reg wire r -> decode_outcome reg wire r' -> r' = r.
Proof.
  intros H1 H2. destruct H1; destruct H2; one_wire; try congruence; try lia;
    try match goal with
    | H : forall obj ty v, ~ wire_header _ obj ty v, Hh : wire_header _ _ _ _ |- _ => by destruct (H _ _ _ Hh)
    | Hj : json_from_slice _ = Err _, Hh : wire_header _ _ _ _ |- _ => destruct Hh as (? & ? & _); congruence
    | H : default _ ?m = _, Hm : ?m = Some _ |- _ => rewrite Hm in H; cbn in H; lia
    | H1 : ?m = Some ?a, H2 : ?m = Some ?b |- _ => assert (a = b) by congruence; lia
    end.
Qed.

(** The check after the loop and the conversion of the payload. *)
Lemma decode_checked reg wire obj ty v s obj' :
  wire_header wire obj ty v -> v <= u32_max -> climbs_to reg ty v obj s obj' ->
  (x ← obj' !! "schema_version"; as_u64 x) = Some s -> obj' !! "event_type" = obj !! "event_type" ->
  exists r, Some (res! _ <- check_reached reg ty s; map_err UeJson (from_value (of_object obj'))) = Some r
    /\ decode_outcome reg wire r
    /\ forall e top, r = Ok e -> max_known_version reg (ie_event_type e) = Some top -> ie_schema_version e = top.
Proof.
  intros Hh Hle Hc Hver Htype. eexists. split; [reflexivity|]. unfold check_reached.
  destruct (max_known_version reg ty) as [top|] eqn:Htop; cbn.
  - destruct (Z.ltb_spec top s); cbn; [split; [by eapply outcome_unsupported|done]|].
    destruct (Z.ltb_spec s top); cbn; [split; [by eapply outcome_gap|done]|].
    assert (s = top) as -> by lia.
    split; [eapply outcome_payload; try done; by rewrite Htop|].
    intros e t He Ht. destruct (from_value (of_object obj')) as [e'|x] eqn:Hfv; [|done]. cbn in He. simplify_eq.
    destruct (from_value_header _ _ Hfv) as [Hy Hs]. destruct Hh as (env & _ & _ & Hty & _).
    rewrite Htype, Hty in Hy. rewrite Hver in Hs. by simplify_eq.
  - split; [eapply outcome_payload; try done; by rewrite Htop|].
    intros e t He Ht. destruct (from_value (of_object obj')) as [e'|x] eqn:Hfv; [|done]. cbn in He. simplify_eq.
    destruct (from_value_header _ _ Hfv) as [Hy _]. destruct Hh as (env & _ & _ & Hty & _).
    rewrite Htype, Hty in Hy. by simplify_eq.
Qed.

(** Decoding always answers, with the outcome of the message. *)
Lemma decode_total reg wire :
  Z.of_nat (size (upcasters reg)) < 2 ^ 32 ->
  exists r, VersionedJsonCodec_decode (P := Q) reg wire = Some r /\ decode_outcome reg wire r
    /\ forall e top, r = Ok e -> max_known_version reg (ie_event_type e) = Some top ->
         ie_schema_version e = top.
Proof.
  intros Hsize. unfold VersionedJsonCodec_decode.
  destruct (json_from_slice (se_payload wire)) as [env|x] eqn:Hj; cbn -[upcast_loop];
    [|eexists; split; [done|]; split; [by constructor|done]].
  destruct (as_object env) as [obj|] eqn:Ho; cbn -[upcast_loop].
  2:{ eexists. split; [done|]. split; [|done]. apply (outcome_no_header _ _ env); [done|].
      intros obj ty v (env' & E' & O' & _). congruence. }
  unfold read_header.
  destruct (x ← obj !! "event_type"; as_str x) as [ty|] eqn:Hty; cbn -[upcast_loop].
  2:{ eexists. split; [done|]. split; [|done]. apply (outcome_no_header _ _ env); [done|].
      intros obj' ty v (env' & E' & O' & T' & _). assert (obj' = obj) as -> by congruence. congruence. }
  destruct (x ← obj !! "schema_version"; as_u64 x) as [v|] eqn:Hv; cbn -[upcast_loop].
  2:{ eexists. split; [done|]. split; [|done]. apply (outcome_no_header _ _ env); [done|].
      intros obj' ty' v (env' & E' & O' & _ & V'). assert (obj' = obj) as -> by congruence. congruence. }
  assert (wire_header wire obj ty v) as Hh by (by exists env).
  destruct (Z.leb_spec v u32_max); cbn -[upcast_loop];
    [|eexists; split; [done|]; split; [by eapply outcome_out_of_range|done]].
  assert (0 <= v <= u32_max) as Hrange.
  { destruct (obj !! "schema_version") as [j|]; [|done]. cbn in Hv. apply as_u64_range in Hv. lia. }
  destruct (upcast_loop_ends reg ty v obj Hsize Hrange) as [r Hr]. rewrite Hr. cbn -[upcast_loop].
  pose proof (upcast_loop_climbs _ _ _ _ _ _ Hr) as Hc.
  destruct r as [[s obj']|x]; cbn -[upcast_loop].
  2:{ exists (Err x). split; [done|]. split; [|done]. destruct x; try done.
      - destruct Hc as (s & obj' & ? & ? & ?). by eapply outcome_no_payload.
      - destruct Hc as (-> & obj' & f & p & ? & ? & ? & ?). by eapply outcome_transform. }
  destruct (upcast_loop_header _ _ _ _ _ _ _ Hr Hrange Hv) as (_ & _ & Hver & Htype).
  apply (decode_checked reg wire obj ty v s obj'); try done; lia.
Qed.

(** C31: no partly upcast payload is ever handed out, whatever the bytes, and
    every refusal says what is wrong.  Decoding returns on every input: with
    the parser's error for bytes that are no JSON; as malformed for an
    envelope without an object, a type or a version, or without the payload
    an upcaster needs; as out of range, with the version, for one that does
    not fit 32 bits; with the version and the error of an upcaster that fails;
    as unsupported or as a gap, with the version the chain stops at and the
    top the registry reaches, when the one is beyond or before the other; and
    otherwise with what the payload type makes of the envelope the whole chain
    of upcasters has rewritten, which for a type with upcasters is then at the
    top version. *)
Theorem decode_never_partial reg wire :
  Z.of_nat (size (upcasters reg)) < 2 ^ 32 ->
  exists r, VersionedJsonCodec_decode (P := Q) reg wire = Some r
    /\ (forall r', decode_outcome reg wire r' <-> r' = r)
    /\ forall e top, r = Ok e -> max_known_version reg (ie_event_type e) = Some top ->
         ie_schema_version e = top.
Proof.
  intros Hsize. destruct (decode_total reg wire Hsize) as (r & Hr & Ho & Htop). exists r.
  split; [done|]. split; [|done]. intros r'. split; [by apply decode_outcome_fun|by intros ->].
Qed.
End Chain.

(** ** Flows of events *)

(** The correlation a cause passes on. *)
Definition flow_of {P} (e : IntegrationEvent P) : CorrelationId :=
  default (CorrelationId_from_uuid (ie_event_id e)) (ie_correlation_id e).

(** Each event of the list is caused by the one before it. *)
Fixpoint caused_chain {P} (cause : IntegrationEvent P) (es : list (IntegrationEvent P))
  : list (IntegrationEvent P) :=
  match es with
  | [] => []
  | e :: es' => let e' := caused_by cause e in e' :: caused_chain e' es'
  end.

(** A chain of caused events carries one correlation, the root's (or the
    root's own identifier when it has none), and each names its predecessor
    as its cause. *)
Lemma caused_chain_correlated {P} (root : IntegrationEvent P) es :
  Forall (fun e => ie_correlation_id e = Some (flow_of root)) (caused_chain root es) /\
  forall i e, caused_chain root es !! i = Some e ->
    exists cause, (root :: caused_chain root es) !! i = Some cause /\
      ie_causation_id e = Some (CausationId_from_uuid (ie_event_id cause)).
Proof.
  revert root. induction es as [|e es IH]; intros root; cbn; [by split|].
  destruct (IH (caused_by root e)) as [Hflow Hcause]. split.
  - constructor; [done|]. exact Hflow.
  - intros [|i] e' He; cbn in He; [by simplify_eq; eauto|].
    destruct (Hcause i e' He) as (cause & Hc & Hid). exists cause. split; [|done].
    by destruct i.
Qed.

(** ** A concrete JSON *)

Inductive J := JNull | JNum (n : Z) | JStr (s : string) | JObj (m : gmap string J).

Definition j_str (v : J) : option string := match v with JStr s => Some s | _ => None end.
Definition j_num (v : J) : option Z := match v with JNum n => Some n | _ => None end.
Definition j_u64 (v : J) : option Z :=
  match v with JNum n => if (0 <=? n) && (n <=? u64_max) then Some n else None | _ => None end.
Definition j_opt (o : option string) : J := match o with None => JNull | Some s => JStr s end.
Definition j_unopt (v : J) : option (option string) :=
  match v with JNull => Some None | JStr s => Some (Some s) | _ => None end.
Definition j_map (v : J) : option (gmap string string) :=
  match v with JObj m => Some (omap j_str m) | _ => None end.

Definition j_rest (e : IntegrationEvent J) : gmap string J :=
  <["event_type" := JStr (ie_event_type e)]>
  (<["event_id" := JNum (ie_event_id e)]>
  (<["occurred_at" := JNum (ie_occurred_at e)]>
  (<["aggregate_id" := j_opt (ie_aggregate_id e)]>
  (<["correlation_id" := j_opt (correlation_str <$> ie_correlation_id e)]>
  (<["causation_id" := j_opt (causation_str <$> ie_causation_id e)]>
  (<["source" := JStr (ie_source e)]>
  (<["tenant_id" := j_opt (ie_tenant_id e)]>
  (<["trace_id" := j_opt (ie_trace_id e)]>
  (<["metadata" := JObj (JStr <$> ie_metadata e)]> ∅))))))))).

Definition j_envelope (e : IntegrationEvent J) : gmap string J :=
  <["schema_version" := JNum (ie_schema_version e)]> (<["payload" := ie_payload e]> (j_rest e)).

Definition j_event (m : gmap string J) : option (IntegrationEvent J) :=
  event_id ← m !! "event_id" ≫= j_num;
  event_type ← m !! "event_type" ≫= j_str;
  version ← m !! "schema_version" ≫= j_u64;
  occurred_at ← m !! "occurred_at" ≫= j_num;
  aggregate_id ← m !! "aggregate_id" ≫= j_unopt;
  correlation_id ← m !! "correlation_id" ≫= j_unopt;
  causation_id ← m !! "causation_id" ≫= j_unopt;
  source ← m !! "source" ≫= j_str;
  tenant_id ← m !! "tenant_id" ≫= j_unopt;
  trace_id ← m !! "trace_id" ≫= j_unopt;
  payload ← m !! "payload";
  metadata ← m !! "metadata" ≫= j_map;
  Some (mkIntegrationEvent event_id event_type version occurred_at aggregate_id
          (mkCorrelationId <$> correlation_id) (mkCausationId <$> causation_id) source tenant_id
          trace_id payload metadata).

Lemma j_strings (m : gmap string string) : omap j_str (JStr <$> m) = m.
Proof. apply map_eq. intros k. rewrite lookup_omap, lookup_fmap. by destruct (m !! k). Qed.

Lemma j_u64_num n : 0 <= n <= u64_max -> j_u64 (JNum n) = Some n.
Proof. intros. cbn. by rewrite (proj2 (Z.leb_le _ _)), (proj2 (Z.leb_le _ _)) by lia. Qed.

Lemma j_event_envelope e :
  0 <= ie_schema_version e <= u64_max -> j_event (j_envelope e) = Some e.
Proof.
  unfold j_event, j_envelope, j_rest. destruct e as [? ? v ? a c d ? t tr p m].
  cbn. intros Hv. simplify_map_eq. replace ((0 <=? v) && (v <=? u64_max)) with true by lia.
  destruct a, c as [[]|], d as [[]|], t, tr; cbn; by rewrite j_strings.
Qed.

Lemma j_event_header m e :
  j_event m = Some e ->
  (v ← m !! "event_type"; j_str v) = Some (ie_event_type e) /\
  (v ← m !! "schema_version"; j_u64 v) = Some (ie_schema_version e).
Proof.
  unfold j_event. intros H. repeat (apply bind_Some in H as (? & ? & H)). by simplify_eq/=.
Qed.

(** Version 1 of the payload calls the number [qty], later versions
    [quantity]. *)
Definition order_v1 (qty : Z) : J := JObj {[ "qty" := JNum qty ]}.
Definition rename_qty (p : J) : result J string :=
  match p with
  | JObj m => match m !! "qty" with
              | Some q => Ok (JObj (<["quantity" := q]> (delete "qty" m)))
              | None => Ok p
              end
  | _ => Err "OrderPlaced v1 payload must be an object"
  end.
Definition quantity_of (p : J) : result Z string :=
  match p with
  | JObj m => match m !! "quantity" with Some (JNum n) => Ok n | _ => Err "missing quantity" end
  | _ => Err "not an object"
  end.

Definition order_event : IntegrationEvent Z :=
  mkIntegrationEvent 7 "OrderPlaced" 1 1000 (Some "order-1") None None "orders" None None 3
    {[ "partition" := "orders" ]}.
Definition order_wire : string := "order-placed".

#[local] Instance CorrelationId_eq_dec : EqDecision CorrelationId.
Proof. solve_decision. Defined.
#[local] Instance CausationId_eq_dec : EqDecision CausationId.
Proof. solve_decision. Defined.
#[local] Instance IntegrationEvent_eq_dec : EqDecision (IntegrationEvent Z).
Proof. solve_decision. Defined.

#[local] Instance J_json : Json J := {
  as_object v := match v with JObj m => Some m | _ => None end;
  of_object := JObj;
  as_str := j_str;
  as_u64 := j_u64;
  from_u32 := JNum;
  json_from_slice text :=
    if decide (text = order_wire)
    then Ok (JObj (j_envelope (reshape order_event 1 (order_v1 3)))) else Err "expected value";
}.
#[local] Instance J_laws : JsonLaws J.
Proof.
  constructor; [done| |].
  - intros n Hn. apply j_u64_num. unfold u32_max, u64_max in *. lia.
  - intros [|n| |] k; cbn; try done. destruct (_ && _) eqn:E; [|done]. intros [= <-]. lia.
Qed.
#[local] Instance J_envelope : EnvelopeLaws J.
Proof.
  refine {| envelope := j_envelope |}; intros; unfold j_envelope.
  - unfold j_rest. by simplify_map_eq.
  - simplify_map_eq. apply j_u64_num. unfold u32_max, u64_max in *. lia.
  - by simplify_map_eq.
  - apply map_eq. intros k. unfold reshape, j_rest; cbn.
    destruct (decide (k = "schema_version")) as [->|]; [by simplify_map_eq|].
    destruct (decide (k = "payload")) as [->|]; by simplify_map_eq.
Defined.
#[local] Instance Z_serde : SerdeEvent Z := {
  to_vec e := if decide (e = order_event) then Ok order_wire else Err "key must be a string";
  from_slice _ := Err "expected value";
}.
#[local] Instance Z_from_value : FromValue J Z := {
  from_value v :=
    match v with
    | JObj m =>
        match j_event m with
        | Some e => match quantity_of (ie_payload e) with
                    | Ok q => Ok (reshape e (ie_schema_version e) q)
                    | Err x => Err x
                    end
        | None => Err "missing field"
        end
    | _ => Err "expected an object"
    end;
}.
#[local] Instance Z_encode : EncodeLaws J Z.
Proof.
  refine {| ser := order_v1 |}. intros e bytes. cbn. destruct (decide (e = order_event)) as [->|]; [|done].
  intros [= <-]. done.
Defined.
#[local] Instance Z_decode : DecodeLaws J Z.
Proof.
  refine {| de := quantity_of |}.
  - intros e He. cbn. rewrite j_event_envelope; [done|]. unfold u32_max, u64_max in *. lia.
  - intros m e. cbn. destruct (j_event m) as [e'|] eqn:E; [|done].
    apply j_event_header in E. destruct (quantity_of _); [|done]. by intros [= <-].
Defined.

Definition order_registry : JsonUpcasterRegistry J :=
  with_upcaster "OrderPlaced" 2 Ok (with_upcaster "OrderPlaced" 1 rename_qty JsonUpcasterRegistry_new).

Lemma order_registry_ok : registry_ok order_registry.
Proof. by repeat (apply with_upcaster_ok; [done|]); apply registry_ok_new. Qed.

Lemma decode_applies_chain_witness :
  VersionedJsonCodec_decode order_registry (mkSerializedEvent "application/json" order_wire)
  = Some (Ok (reshape order_event 3 3)).
Proof.
  rewrite (decode_applies_chain (Q := Z) order_registry order_event order_wire "application/json"
    order_registry_ok); [by vm_compute|by vm_compute|by vm_compute|by vm_compute| |by vm_compute].
  intros i Hi. change (1 <= i < 3) in Hi.
  assert (i = 1 \/ i = 2) as [->| ->] by lia; vm_compute; eauto.
Defined.

Lemma decode_never_partial_witness :
  let decoded reg := VersionedJsonCodec_decode (P := Z) reg (mkSerializedEvent "application/json" order_wire) in
  decoded (with_upcaster "OrderPlaced" 3 Ok order_registry) = Some (Ok (reshape order_event 4 3))
  /\ decode_outcome (Q := Z) (with_upcaster "OrderPlaced" 4 Ok order_registry)
       (mkSerializedEvent "application/json" order_wire) (Err (UeGapInChain "OrderPlaced" 3 5)).
Proof.
  intros decoded. split.
  - destruct (decode_never_partial (Q := Z) (with_upcaster "OrderPlaced" 3 Ok order_registry)
      (mkSerializedEvent "application/json" order_wire) ltac:(by vm_compute)) as (r & Hr & _).
    transitivity (Some r); [exact Hr|]. vm_compute in Hr. vm_compute. congruence.
  - destruct (decode_never_partial (Q := Z) (with_upcaster "OrderPlaced" 4 Ok order_registry)
      (mkSerializedEvent "application/json" order_wire) ltac:(by vm_compute)) as (r & Hr & Ho & _).
    apply Ho. vm_compute in Hr. congruence.
Defined.

(** A missing registration is reported, not skipped. *)
Example gap_is_reported :
  VersionedJsonCodec_decode (P := Z) (with_upcaster "OrderPlaced" 4 Ok order_registry)
    (mkSerializedEvent "application/json" order_wire)
  = Some (Err (UeGapInChain "OrderPlaced" 3 5)).
Proof. by vm_compute. Qed.
