(* ===== verification/Tenancy.v ===== *)
(** * Tenancy: scopes, message stamps and elevation

    Models [crates/pharos-app/src]: [tenant.rs], [tenant_local.rs],
    [tenant_iter.rs], [enrichment.rs], [elevation.rs] and [authorize.rs].

    A [tokio::task_local!] is the class [TaskLocal]: reading it, and running a
    computation with it set; [TaskLocalLaws] states that the value is seen
    during the computation and the old one is back afterwards.  The tenant and
    the elevation of a task are two task-locals.  Parsing and displaying UUIDs
    is the [uuid] crate ([UuidText]). *)

From S2P Require Import Prelude Core Messaging Upcast.
Local Open Scope Z_scope.

(** ** Tenants (tenant.rs) *)

Class UuidText : Type := { parse_str : string -> result Uuid string }.

(** Displaying and parsing a UUID is the identity. *)
Class UuidTextLaws `{!UuidText} : Prop := {
  parse_display u : 0 <= u < 2 ^ 128 -> parse_str (uuid_to_string u) = Ok u;
}.

Inductive InvalidTenantId := mkInvalidTenantId (e : string).

Record TenantId := mkTenantId { tenant_uuid : Uuid }.

#[export] Instance TenantId_eq_dec : EqDecision TenantId.
Proof. solve_decision. Defined.

Definition TenantId_parse `{!UuidText} (value : string) : result TenantId InvalidTenantId :=
  match parse_str value with
  | Ok u => Ok (mkTenantId u)
  | Err e => Err (mkInvalidTenantId e)
  end.

Definition TenantId_to_string (t : TenantId) : string := uuid_to_string (tenant_uuid t).

Record TenantContext := mkTenantContext { tenant_id : TenantId }.

#[export] Instance TenantContext_eq_dec : EqDecision TenantContext.
Proof. solve_decision. Defined.

Definition TenantContext_parse `{!UuidText} (value : string) : result TenantContext InvalidTenantId :=
  res! t <- TenantId_parse value; Ok (mkTenantContext t).

Definition TenantContext_stamp {P} (c : TenantContext) (e : IntegrationEvent P)
  : IntegrationEvent P := with_tenant_id (TenantId_to_string (tenant_id c)) e.

(** [Authorize] (authorize.rs): the application's check of a principal. *)
Class Authorize (Principal R E : Type) : Type := {
  authorize_roles : Principal -> R -> result unit E;
}.

(** ** Task-locals *)

Class TaskLocal (W T : Type) : Type := {
  try_with : M W (option T);
  scope {A : Type} : T -> M W A -> M W A;
}.

(** [tl_view w] is what [try_with] finds; [tl_put] replaces it. *)
Class TaskLocalLaws (W T : Type) `{!TaskLocal W T} : Type := {
  tl_view : W -> option T;
  tl_put : option T -> W -> W;
  tl_view_put x w : tl_view (tl_put x w) = x;
  tl_put_view w : tl_put (tl_view w) w = w;
  tl_put_put x y w : tl_put x (tl_put y w) = tl_put x w;
  try_with_view w : try_with w = (tl_view w, w);
  scope_run {A} (t : T) (c : M W A) w :
    scope t c w = let '(a, w') := c (tl_put (Some t) w) in (a, tl_put (tl_view w) w');
}.

(** Two task-locals do not disturb each other. *)
Class TaskLocalDisjoint (W T U : Type) `{!TaskLocal W T, !TaskLocal W U}
  `{!TaskLocalLaws W T, !TaskLocalLaws W U} : Prop := {
  tl_view_put_other (x : option T) (w : W) : tl_view (T := U) (tl_put x w) = tl_view (T := U) w;
}.

(** ** Elevation: requests, policies, audit (elevation.rs) *)

(** [Purpose(&'static str)]. *)
Abbreviation Purpose := string (only parsing).

(** The scalar values of a [&str]. *)
Abbreviation Text := (list Z) (only parsing).

Inductive ElevationKind := CrossTenant | Impersonation (t : TenantId).

Record Elevation := mkElevation {
  el_purpose : Purpose;
  el_actor : option Text;
  el_kind : ElevationKind;
  el_granted_at : Instant;
  el_issuer : Z;
  el_caller : string;
}.

Record ElevationRequest := mkElevationRequest {
  rq_purpose : Purpose;
  rq_actor : option Text;
  rq_kind : ElevationKind;
}.

(** [Option<TenantContext>] and [Option<Elevation>] as the values of the two
    task-locals. *)
Abbreviation TenantSlot := (option TenantContext) (only parsing).
Abbreviation ElevationSlot := (option Elevation) (only parsing).

Inductive ElevationOutcome := Granted | Denied (reason : string).

Record ElevationAudit := mkElevationAudit {
  au_purpose : Purpose;
  au_actor : option Text;
  au_kind : ElevationKind;
  au_outcome : ElevationOutcome;
  au_at : Instant;
  au_caller : string;
}.

Record ElevationDenied := mkElevationDenied { ed_purpose : Purpose; ed_reason : string }.

Definition DenyAll_authorize {W} (_ : ElevationRequest) : M W (result unit string) :=
  ret (Err "no purpose may cross the tenant boundary").

Record AllowPurposes := mkAllowPurposes {
  cross_tenant : gset Purpose;
  impersonation : gset Purpose;
  actor_required : gset Purpose;
}.

Definition AllowPurposes_new : AllowPurposes := mkAllowPurposes ∅ ∅ ∅.
Definition AllowPurposes_allow (p : Purpose) (a : AllowPurposes) : AllowPurposes :=
  mkAllowPurposes ({[p]} ∪ cross_tenant a) (impersonation a) (actor_required a).
Definition AllowPurposes_allow_impersonation (p : Purpose) (a : AllowPurposes) : AllowPurposes :=
  mkAllowPurposes (cross_tenant a) ({[p]} ∪ impersonation a) (actor_required a).
Definition AllowPurposes_requiring_actor (p : Purpose) (a : AllowPurposes) : AllowPurposes :=
  mkAllowPurposes (cross_tenant a) (impersonation a) ({[p]} ∪ actor_required a).

Definition AllowPurposes_decide (a : AllowPurposes) (r : ElevationRequest) : result unit string :=
  let allowed := match rq_kind r with
                 | CrossTenant => cross_tenant a
                 | Impersonation _ => impersonation a
                 end in
  if negb (bool_decide (rq_purpose r ∈ allowed))
  then Err "this purpose may not cross the tenant boundary this way"
  else if bool_decide (rq_purpose r ∈ actor_required a) && negb (bool_decide (is_Some (rq_actor r)))
  then Err "this purpose needs to say who is acting"
  else Ok tt.

Definition AllowPurposes_authorize {W} (a : AllowPurposes) (r : ElevationRequest)
  : M W (result unit string) := ret (AllowPurposes_decide a r).

(** [MemoryAudit]: every entry, oldest first. *)
Abbreviation MemoryAudit := (list ElevationAudit) (only parsing).

Definition MemoryAudit_record {W} `{!Lens W (list ElevationAudit)} (entry : ElevationAudit)
  : M W unit :=
  do! entries <- mget (S := list ElevationAudit); mput (entries ++ [entry]).

Definition NoAudit_record {W} (_ : ElevationAudit) : M W unit := ret tt.

(** ** Labels *)

Definition MAX_ACTOR_LEN : nat := 256.

(** [char::is_control] and [char::is_whitespace] (Unicode Cc and
    White_Space). *)
Definition is_control (c : Z) : bool := (c <=? 31) || ((127 <=? c) && (c <=? 159)).
Definition is_whitespace (c : Z) : bool :=
  ((9 <=? c) && (c <=? 13)) || (c =? 32) || (c =? 133) || (c =? 160) || (c =? 5760)
  || ((8192 <=? c) && (c <=? 8202)) || (c =? 8232) || (c =? 8233) || (c =? 8239)
  || (c =? 8287) || (c =? 12288).

Fixpoint trim_start (s : Text) : Text :=
  match s with
  | [] => []
  | c :: s' => if is_whitespace c then trim_start s' else s
  end.
Definition trim (s : Text) : Text := reverse (trim_start (reverse (trim_start s))).

Definition is_plain_label (actor : Text) : bool :=
  (length actor <=? MAX_ACTOR_LEN)%nat && negb (existsb is_control actor).

(** ** The elevator *)

Record Elevator (W : Type) := mkElevator {
  elevator_id : Z;
  policy : ElevationRequest -> M W (result unit string);
  audit : ElevationAudit -> M W unit;
}.
Arguments mkElevator {W} _ _ _.
Arguments elevator_id {W} _.
Arguments policy {W} _ _.
Arguments audit {W} _ _.

(** The static counter [NEXT_ELEVATOR]. *)
Record ElevatorCounter := mkElevatorCounter { next_elevator : Z }.

(** What a pass over the tenants did (tenant_iter.rs). *)
Record ForEachReport (E : Type) := mkForEachReport {
  succeeded : Z;
  failed : list (TenantId * E);
}.
Arguments mkForEachReport {E} _ _.
Arguments succeeded {E} _.
Arguments failed {E} _.

Definition ForEachReport_visited {E} (r : ForEachReport E) : Z :=
  succeeded r + Z.of_nat (length (failed r)).

Section Elevators.
Context {W : Type} `{!Env W, !Lens W ElevatorCounter}.
Context `{!TaskLocal W (option TenantContext), !TaskLocal W (option Elevation)}.

(** [CURRENT_TENANT.try_with(..).ok().flatten()] *)
Definition current_tenant : M W (option TenantContext) :=
  do! x <- try_with (T := option TenantContext); ret (mjoin x).

Definition current_elevation : M W (option Elevation) :=
  do! x <- try_with (T := option Elevation); ret (mjoin x).

Definition without_elevation {A} (work : M W A) : M W A := scope (None : option Elevation) work.

Definition Elevator_new (policy : ElevationRequest -> M W (result unit string))
  (audit : ElevationAudit -> M W unit) : M W (Elevator W) :=
  do! c <- mget;
  do! _ <- mput (mkElevatorCounter (u64_add (next_elevator c) 1));
  ret (mkElevator (next_elevator c) policy audit).

Definition Elevator_issued (e : Elevator W) (elevation : Elevation) : bool :=
  el_issuer elevation =? elevator_id e.

Definition Elevator_admit (e : Elevator W) (purpose : Purpose) (actor : option Text)
  (kind : ElevationKind) (caller : string) : M W (result Elevation ElevationDenied) :=
  let actor := a ← actor; (if decide (trim a = []) then None else Some (trim a)) in
  do! at_ <- utc_now;
  do! decision <-
    match kind, actor with
    | _, Some a =>
        if negb (is_plain_label a) then ret (Err "the actor is not a plain label")
        else policy e (mkElevationRequest purpose actor kind)
    | Impersonation _, None => ret (Err "an impersonation needs an actor")
    | _, None => policy e (mkElevationRequest purpose actor kind)
    end;
  do! _ <- audit e (mkElevationAudit purpose
                      (a ← actor; if is_plain_label a then Some a else None) kind
                      (match decision with Ok _ => Granted | Err reason => Denied reason end)
                      at_ caller);
  ret (match decision with
       | Ok _ => Ok (mkElevation purpose actor kind at_ (elevator_id e) caller)
       | Err reason => Err (mkElevationDenied purpose reason)
       end).

(** The call decides and records; the future it returns does the work. *)
Definition Elevator_elevated {A} (e : Elevator W) (purpose : Purpose) (actor : option Text)
  (caller : string) (work : M W A) : M W (M W (result A ElevationDenied)) :=
  do! admitted <- Elevator_admit e purpose actor CrossTenant caller;
  ret (match admitted with
       | Err d => ret (Err d)
       | Ok elevation => do! a <- scope (Some elevation) work; ret (Ok a)
       end).

Definition Elevator_impersonating {A} (e : Elevator W) (tenant : TenantId) (purpose : Purpose)
  (actor : Text) (caller : string) (work : M W A) : M W (M W (result A ElevationDenied)) :=
  do! admitted <- Elevator_admit e purpose (Some actor) (Impersonation tenant) caller;
  ret (match admitted with
       | Err d => ret (Err d)
       | Ok elevation =>
           do! a <- scope (Some (mkTenantContext tenant)) (scope (Some elevation) work);
           ret (Ok a)
       end).

(** ** Tenant scopes (tenant_local.rs, tenant_iter.rs, enrichment.rs) *)

(** [spawn_scoped]: what the new task runs, which starts with no task-local
    set. *)
Definition spawn_scoped {A} (work : M W A) : M W (M W A) :=
  do! snapshot <- current_tenant; ret (scope snapshot work).

(** The loop of [for_each_tenant] from a report. *)
Fixpoint visit_tenants {E} (work : TenantId -> M W (result unit E)) (tenants : list TenantId)
  (report : ForEachReport E) : M W (ForEachReport E) :=
  match tenants with
  | [] => ret report
  | tenant :: tenants' =>
      do! r <- scope (Some (mkTenantContext tenant)) (without_elevation (work tenant));
      visit_tenants work tenants'
        (match r with
         | Ok _ => mkForEachReport (u64_add (succeeded report) 1) (failed report)
         | Err e => mkForEachReport (succeeded report) (failed report ++ [(tenant, e)])
         end)
  end.

(** [TenantSource]; [FixedTenants] answers its list. *)
Definition FixedTenants_tenants {E} (ts : list TenantId) : M W (result (list TenantId) E) :=
  ret (Ok ts).

Definition for_each_tenant {E S} (source : M W (result (list TenantId) S))
  (work : TenantId -> M W (result unit E)) : M W (result (ForEachReport E) S) :=
  try! tenants <- source;
  do! report <- visit_tenants work tenants (mkForEachReport 0 []);
  ret (Ok report).

Definition TENANT_HEADER : string := "tenant_id".

Definition TenantHeader_enrich (m : Message) : M W Message :=
  do! tenant <- current_tenant;
  ret (match tenant with
       | Some t => mkMessage (message_id m) (topic m) (key m)
                     (<[TENANT_HEADER := TenantId_to_string (tenant_id t)]> (headers m))
                     (payload m) (content_type m)
       | None => m
       end).

Context `{!UuidText}.

Definition tenant_of (m : Message) : result (option TenantContext) InvalidTenantId :=
  match headers m !! TENANT_HEADER with
  | None => Ok None
  | Some raw => res! t <- TenantContext_parse raw; Ok (Some t)
  end.

Definition with_message_scope {A} (m : Message) (work : M W A) : M W (result A InvalidTenantId) :=
  match tenant_of m with
  | Err e => ret (Err e)
  | Ok s => do! a <- scope s (without_elevation work); ret (Ok a)
  end.
End Elevators.

(** ** What scoped work sees *)

Section Scopes.
Context {W : Type} `{!Env W, !Lens W ElevatorCounter}.
Context `{!TaskLocal W (option TenantContext), !TaskLocal W (option Elevation)}.
Context `{!TaskLocalLaws W (option TenantContext), !TaskLocalLaws W (option Elevation)}.
Context `{!TaskLocalDisjoint W (option TenantContext) (option Elevation)}.
Context `{!TaskLocalDisjoint W (option Elevation) (option TenantContext)}.

Definition tenant_in (w : W) : option TenantContext := mjoin (tl_view (T := option TenantContext) w).
Definition elevation_in (w : W) : option Elevation := mjoin (tl_view (T := option Elevation) w).

(** The two worlds hold the same task-locals. *)
Definition same_slots (w w' : W) : Prop :=
  tl_view (T := option TenantContext) w' = tl_view w /\ tl_view (T := option Elevation) w' = tl_view w.

(** The world in which work scoped to tenant [s] and elevation [e] starts. *)
Definition enter (s : option TenantContext) (e : option Elevation) (w : W) : W :=
  tl_put (Some e) (tl_put (Some s) w).

(** The task-locals of [w] in the world [w']. *)
Definition leave (w w' : W) : W :=
  tl_put (tl_view (T := option TenantContext) w) (tl_put (tl_view (T := option Elevation) w) w').

Lemma enter_sees s e w : tenant_in (enter s e w) = s /\ elevation_in (enter s e w) = e.
Proof.
  unfold tenant_in, elevation_in, enter.
  by rewrite (tl_view_put_other (T := option Elevation) (U := option TenantContext)), !tl_view_put.
Qed.

Lemma leave_same w w' : same_slots w (leave w w').
Proof.
  unfold same_slots, leave. split; [by rewrite tl_view_put|].
  by rewrite (tl_view_put_other (T := option TenantContext) (U := option Elevation)), tl_view_put.
Qed.

Lemma scope_both {A} s e (work : M W A) w :
  scope s (scope e work) w = let '(a, w') := work (enter s e w) in (a, leave w w').
Proof.
  rewrite !scope_run. unfold enter, leave. destruct (work _) as [a w'].
  by rewrite (tl_view_put_other (T := option TenantContext) (U := option Elevation)).
Qed.

Lemma current_tenant_run w : current_tenant w = (tenant_in w, w).
Proof. unfold current_tenant, bind. by rewrite try_with_view. Qed.

(** [spawn_scoped] hands the new task the caller's tenant and no elevation. *)
Lemma spawn_scoped_keeps_tenant {A} (work : M W A) w w' :
  elevation_in w' = None ->
  let '(task, w1) := spawn_scoped work w in
  w1 = w /\ exists start, tenant_in start = tenant_in w /\ elevation_in start = None /\
    (task w').1 = (work start).1.
Proof.
  intros He. unfold spawn_scoped, bind. rewrite current_tenant_run. split; [done|].
  exists (tl_put (Some (tenant_in w)) w'). rewrite scope_run. unfold tenant_in at 1, elevation_in.
  rewrite tl_view_put, (tl_view_put_other (T := option TenantContext) (U := option Elevation)).
  split_and!; [done|exact He|]. by destruct (work _).
Qed.

(** ** One pass over the tenants *)

(** The pass written down: for each tenant in turn the work runs once, from a
    world in which that tenant and no elevation is in scope, and the next
    visit starts from what it left, with the caller's task-locals back. *)
Inductive tenant_pass {E} (work : TenantId -> M W (result unit E))
  : list TenantId -> W -> list (result unit E) -> W -> Prop :=
| pass_done w : tenant_pass work [] w [] w
| pass_visit t ts w start answer w1 answers w' :
    start = enter (Some (mkTenantContext t)) None w ->
    tenant_in start = Some (mkTenantContext t) -> elevation_in start = None ->
    work t start = (answer, w1) ->
    tenant_pass work ts (leave w w1) answers w' ->
    tenant_pass work (t :: ts) w (answer :: answers) w'.

(** The failures among the answers, each with its tenant, in order. *)
Definition failures_of {E} (ts : list TenantId) (answers : list (result unit E)) : list (TenantId * E) :=
  omap (fun '(t, answer) => match answer with Err e => Some (t, e) | Ok _ => None end) (zip ts answers).

Definition successes_of {E} (answers : list (result unit E)) : Z :=
  Z.of_nat (length (filter (fun answer => is_ok answer = true) answers)).

Lemma visit_tenants_spec {E} (work : TenantId -> M W (result unit E)) ts report w :
  0 <= succeeded report -> succeeded report + Z.of_nat (length ts) <= u64_max ->
  exists answers w', tenant_pass work ts w answers w' /\ same_slots w w' /\ length answers = length ts
    /\ visit_tenants work ts report w
       = (mkForEachReport (succeeded report + successes_of answers)
            (failed report ++ failures_of ts answers), w').
Proof.
  revert report w. induction ts as [|t ts IH]; intros report w Hs Hmax; cbn [visit_tenants].
  { exists [], w. split_and!; [constructor|done..|]. cbn. rewrite Z.add_0_r, app_nil_r. by destruct report. }
  unfold bind, without_elevation. rewrite scope_both.
  destruct (enter_sees (Some (mkTenantContext t)) None w) as [Ht He].
  destruct (work t (enter (Some (mkTenantContext t)) None w)) as [a w1] eqn:Ew.
  pose proof (leave_same w w1) as [Hs1 Hs2]. cbn in Hmax.
  destruct a as [[]|e].
  - rewrite u64_add_small by lia.
    destruct (IH (mkForEachReport (succeeded report + 1) (failed report)) (leave w w1))
      as (answers & w' & Hp & [? ?] & Hl & Hv); cbn; [lia..|].
    exists (Ok tt :: answers), w'. rewrite Hv. split_and!; [by eapply pass_visit|split; congruence|cbn; lia|].
    f_equal. cbn. f_equal. unfold successes_of. rewrite filter_cons_True by done. cbn. lia.
  - destruct (IH (mkForEachReport (succeeded report) (failed report ++ [(t, e)])) (leave w w1))
      as (answers & w' & Hp & [? ?] & Hl & Hv); cbn; [lia..|].
    exists (Err e :: answers), w'. rewrite Hv. split_and!; [by eapply pass_visit|split; congruence|cbn; lia|].
    f_equal. cbn. rewrite <- app_assoc. unfold successes_of. by rewrite filter_cons_False by done.
Qed.

Lemma visited_all {E} ts (answers : list (result unit E)) :
  length answers = length ts ->
  successes_of answers + Z.of_nat (length (failures_of ts answers)) = Z.of_nat (length ts).
Proof.
  unfold successes_of. revert ts. induction answers as [|a answers IH]; intros [|t ts]; try done.
  cbn [length]. intros [= Hl]. specialize (IH ts Hl). destruct a as [u|e].
  - rewrite filter_cons_True by done. cbn. unfold failures_of in *. cbn. lia.
  - rewrite filter_cons_False by done. unfold failures_of in *. cbn. lia.
Qed.


(** ** Messages carry their tenant *)

Context `{!UuidText, !UuidTextLaws}.

Definition tenant_valid (t : option TenantContext) : Prop :=
  match t with Some c => 0 <= tenant_uuid (tenant_id c) < 2 ^ 128 | None => True end.

Lemma tenant_of_enriched m w :
  headers m !! TENANT_HEADER = None -> tenant_valid (tenant_in w) ->
  tenant_of (TenantHeader_enrich m w).1 = Ok (tenant_in w).
Proof.
  intros Hm Hv. unfold TenantHeader_enrich, bind. rewrite current_tenant_run. cbn.
  destruct (tenant_in w) as [[[u]]|]; unfold tenant_of; [|by rewrite Hm].
  cbn [headers]. rewrite lookup_insert_eq. unfold TenantContext_parse, TenantId_parse, TenantId_to_string.
  cbn in *. by rewrite parse_display.
Qed.

(** The tenant travels with the message: work for a message that was
    stamped in one task's scope runs, on any task, in that same tenant's scope
    (or in none, if it was stamped outside any) and without elevation, and the
    consuming task's own scope is back afterwards.  A message whose stamp is
    not a tenant id is refused and its work is not run. *)
Theorem message_scope_roundtrip {A} (m : Message) (work : M W A) w w' :
  headers m !! TENANT_HEADER = None -> tenant_valid (tenant_in w) ->
  (exists start, tenant_in start = tenant_in w /\ elevation_in start = None /\
     let '(a, w1) := work start in
     with_message_scope (TenantHeader_enrich m w).1 work w' = (Ok a, leave w' w1) /\
     same_slots w' (leave w' w1)) /\
  (forall raw e, parse_str raw = Err e ->
     with_message_scope (Message_with_header TENANT_HEADER raw m) work w'
     = (Err (mkInvalidTenantId e), w')).
Proof.
  intros Hm Hv. split.
  - exists (enter (tenant_in w) None w').
    destruct (enter_sees (tenant_in w) None w') as [-> ->]. split; [done|]. split; [done|].
    unfold with_message_scope. rewrite tenant_of_enriched by done.
    unfold bind, without_elevation. rewrite scope_both.
    destruct (work _) as [a w1]. split; [done|]. apply leave_same.
  - intros raw e He. unfold with_message_scope, tenant_of, Message_with_header. cbn.
    rewrite lookup_insert_eq. unfold TenantContext_parse, TenantId_parse. by rewrite He.
Qed.
End Scopes.

(** ** Elevations are decided by policy and recorded *)

Section Audited.
Context {W : Type} `{!Env W, !Lens W (list ElevationAudit), !LensLaws W (list ElevationAudit)}.
Context `{!EnvFrame W (list ElevationAudit)}.
Context `{!TaskLocal W (option TenantContext), !TaskLocal W (option Elevation)}.
Context `{!TaskLocalLaws W (option TenantContext), !TaskLocalLaws W (option Elevation)}.
Context `{!TaskLocalDisjoint W (option TenantContext) (option Elevation)}.
Context `{!TaskLocalDisjoint W (option Elevation) (option TenantContext)}.

(** An elevator that reports to a [MemoryAudit] its policy does not touch. *)
Context (e : Elevator W) (Haudit : audit e = MemoryAudit_record).
Context (Hpolicy : forall rq, keeps (list ElevationAudit) (policy e rq)).

(** The label an actor leaves in the record. *)
Definition recorded_actor (actor : option (list Z)) : option (list Z) :=
  a ← actor; (if decide (trim a = []) then None else Some (trim a)).

Definition clean_actor (actor : option (list Z)) : Prop :=
  match actor with Some a => is_plain_label a = true /\ a <> [] | None => True end.

(** The entry one request leaves and the answer it gives. *)
Definition audited_as (purpose : string) (kind : ElevationKind) (caller : string)
  (entry : ElevationAudit) (r : result Elevation ElevationDenied) : Prop :=
  au_purpose entry = purpose /\ au_kind entry = kind /\ au_caller entry = caller /\
  clean_actor (au_actor entry) /\
  match r with
  | Ok el => au_outcome entry = Granted /\
      el = mkElevation purpose (au_actor entry) kind (au_at entry) (elevator_id e) caller /\
      (forall t, kind = Impersonation t -> is_Some (au_actor entry)) /\
      exists w0, (policy e (mkElevationRequest purpose (au_actor entry) kind) w0).1 = Ok tt
  | Err d => d = mkElevationDenied purpose (ed_reason d) /\ au_outcome entry = Denied (ed_reason d)
  end.

Lemma recorded_actor_nonempty actor a : recorded_actor actor = Some a -> a <> [].
Proof.
  unfold recorded_actor. destruct actor as [x|]; cbn; [|done].
  destruct (decide (trim x = [])); [done|]. by intros [= <-].
Qed.

Lemma admit_audited purpose actor kind caller w :
  let '(r, w1) := Elevator_admit e purpose actor kind caller w in
  exists entry, lget w1 = lget w ++ [entry] /\ audited_as purpose kind caller entry r.
Proof.
  unfold Elevator_admit, bind. fold (recorded_actor actor).
  pose proof (utc_now_frame (S := list ElevationAudit) w) as Hnow.
  destruct (utc_now w) as [now w0]. cbn in Hnow. rewrite Haudit. unfold MemoryAudit_record.
  pose proof (recorded_actor_nonempty actor) as Hne. destruct (recorded_actor actor) as [a|]; cbn.
  - specialize (Hne a eq_refl). assert (forall k : ElevationKind, match k with
      | CrossTenant | _ => if negb (is_plain_label a)
          then ret (Err "the actor is not a plain label")
          else policy e (mkElevationRequest purpose (Some a) kind) end =
      (if negb (is_plain_label a) then ret (Err "the actor is not a plain label")
       else policy e (mkElevationRequest purpose (Some a) kind))) as Hk by by intros [].
    rewrite (Hk kind). destruct (is_plain_label a) eqn:Hp; cbn.
    + pose proof (Hpolicy (mkElevationRequest purpose (Some a) kind) w0) as Hkeep.
      destruct (policy e _ w0) as [[[]|reason] w1] eqn:Hpol; cbn in *; unfold bind, mget, mput, ret;
        rewrite lget_lset, Hkeep, Hnow; eexists; (split; [done|]); unfold audited_as; cbn.
      * split_and!; try done. exists w0. by rewrite Hpol.
      * done.
    + unfold bind, mget, mput, ret. rewrite lget_lset, Hnow. eexists. split; [done|]. done.
  - destruct kind as [|t]; cbn.
    + pose proof (Hpolicy (mkElevationRequest purpose None CrossTenant) w0) as Hkeep.
      destruct (policy e _ w0) as [[[]|reason] w1] eqn:Hpol; cbn in *; unfold bind, mget, mput, ret;
        rewrite lget_lset, Hkeep, Hnow; eexists; (split; [done|]); unfold audited_as; cbn.
      * split_and!; try done. exists w0. by rewrite Hpol.
      * done.
    + unfold bind, mget, mput, ret. rewrite lget_lset, Hnow. eexists. split; [done|]. done.
Qed.

End Audited.

(** Elevators built one after the other, with any number of others between,
    have different identities until the counter wraps: an elevation granted by
    one is not accepted by the other. *)
Lemma elevators_distinct {W} `{!Lens W ElevatorCounter, !LensLaws W ElevatorCounter}
  (p1 p2 : ElevationRequest -> M W (result unit string)) (a1 a2 : ElevationAudit -> M W unit) w :
  0 <= next_elevator (lget w) <= u64_max ->
  let '(e1, w1) := Elevator_new p1 a1 w in
  let '(e2, _) := Elevator_new p2 a2 w1 in
  forall el, Elevator_issued e1 el = true -> Elevator_issued e2 el = false.
Proof.
  intros Hw. unfold Elevator_new, bind, mget, mput, ret, Elevator_issued. cbn.
  rewrite lget_lset. cbn. intros el Hel%Z.eqb_eq. rewrite Hel. apply Z.eqb_neq.
  intros E. exact (u64_add_ne _ Hw (eq_sym E)).
Qed.

(** ** A concrete task *)

Record TaskWorld := mkTaskWorld {
  tw_env : EnvState;
  tw_tenant : option (option TenantContext);
  tw_elevation : option (option Elevation);
  tw_audit : list ElevationAudit;
  tw_seen : list (option TenantContext * option Elevation);
}.

#[local] Instance task_env : Env TaskWorld := {
  utc_now := fun w => let '(a, v) := env_now (tw_env w) in
    (a, mkTaskWorld v (tw_tenant w) (tw_elevation w) (tw_audit w) (tw_seen w));
  uuid_now_v7 := fun w => let '(a, v) := env_uuid (tw_env w) in
    (a, mkTaskWorld v (tw_tenant w) (tw_elevation w) (tw_audit w) (tw_seen w));
  fastrand_f64 := fun w => let '(a, v) := env_random (tw_env w) in
    (a, mkTaskWorld v (tw_tenant w) (tw_elevation w) (tw_audit w) (tw_seen w));
}.
#[local] Instance task_audit : Lens TaskWorld (list ElevationAudit) := {
  lget := tw_audit;
  lset l w := mkTaskWorld (tw_env w) (tw_tenant w) (tw_elevation w) l (tw_seen w);
}.
#[local] Instance task_audit_laws : LensLaws TaskWorld (list ElevationAudit).
Proof. constructor; try done. by intros []. Qed.
#[local] Instance task_audit_frame : EnvFrame TaskWorld (list ElevationAudit).
Proof. by constructor. Qed.

Definition put_tenant (x : option (option TenantContext)) (w : TaskWorld) : TaskWorld :=
  mkTaskWorld (tw_env w) x (tw_elevation w) (tw_audit w) (tw_seen w).
Definition put_elevation (x : option (option Elevation)) (w : TaskWorld) : TaskWorld :=
  mkTaskWorld (tw_env w) (tw_tenant w) x (tw_audit w) (tw_seen w).

#[local] Instance task_tenant : TaskLocal TaskWorld (option TenantContext) := {
  try_with := fun w => (tw_tenant w, w);
  scope A t c := fun w => let '(a, w') := c (put_tenant (Some t) w) in (a, put_tenant (tw_tenant w) w');
}.
#[local] Instance task_elevation : TaskLocal TaskWorld (option Elevation) := {
  try_with := fun w => (tw_elevation w, w);
  scope A t c := fun w =>
    let '(a, w') := c (put_elevation (Some t) w) in (a, put_elevation (tw_elevation w) w');
}.
#[local] Instance task_tenant_laws : TaskLocalLaws TaskWorld (option TenantContext).
Proof. by refine {| tl_view := tw_tenant; tl_put := put_tenant |}; try done; intros []. Defined.
#[local] Instance task_elevation_laws : TaskLocalLaws TaskWorld (option Elevation).
Proof. by refine {| tl_view := tw_elevation; tl_put := put_elevation |}; try done; intros []. Defined.
#[local] Instance task_disjoint1 : TaskLocalDisjoint TaskWorld (option TenantContext) (option Elevation).
Proof. by constructor. Qed.
#[local] Instance task_disjoint2 : TaskLocalDisjoint TaskWorld (option Elevation) (option TenantContext).
Proof. by constructor. Qed.

(** Work that notes the scope it runs in. *)
Definition note_scope : M TaskWorld unit := fun w =>
  (tt, mkTaskWorld (tw_env w) (tw_tenant w) (tw_elevation w) (tw_audit w)
         (tw_seen w ++ [(tenant_in w, elevation_in w)])).

Definition backoffice : AllowPurposes :=
  AllowPurposes_requiring_actor "backoffice" (AllowPurposes_allow "backoffice" AllowPurposes_new).
Definition desk_elevator : Elevator TaskWorld :=
  mkElevator 1 (AllowPurposes_authorize backoffice) MemoryAudit_record.
Definition tenant_a : TenantContext := mkTenantContext (mkTenantId 10).
Definition task_start (t : option TenantContext) : TaskWorld :=
  mkTaskWorld env_start (Some t) None [] [].

(** The name "ana" between spaces. *)
Definition ana_spaced : list Z := [32; 97; 110; 97; 32].



(** A parser of the hyphenated form. *)
Definition unhex (c : Ascii.ascii) : option Z :=
  let b := Z.of_N (Ascii.N_of_ascii c) in
  if (48 <=? b) && (b <=? 57) then Some (b - 48)
  else if (97 <=? b) && (b <=? 102) then Some (b - 87) else None.

Definition dash : Ascii.ascii := Ascii.ascii_of_nat 45.

Fixpoint unhex_all (acc : Z) (s : string) : option Z :=
  match s with
  | EmptyString => Some acc
  | String c s' =>
      if decide (c = dash) then unhex_all acc s'
      else d ← unhex c; unhex_all (acc * 16 + d) s'
  end.

#[local] Instance hex_uuid : UuidText := {
  parse_str s := ok_or (unhex_all 0 s) "invalid character";
}.

Lemma hex_app n z t : hex n z "" +:+ t = hex n z t.
Proof.
  assert (forall acc, hex n z acc +:+ t = hex n z (acc +:+ t)) as H; [|by rewrite H].
  revert z. induction n as [|n IH]; intros z acc; [done|]. cbn. by rewrite IH.
Qed.

Lemma unhex_digit d : 0 <= d < 16 -> hex_digit d <> dash /\ unhex (hex_digit d) = Some d.
Proof.
  intros Hd. assert (d ∈ seqZ 0 16) as Hin by (apply elem_of_seqZ; lia). clear Hd.
  assert (Forall (fun d => hex_digit d <> dash /\ unhex (hex_digit d) = Some d) (seqZ 0 16)) as Hall.
  { vm_compute. repeat constructor; discriminate. }
  by apply (proj1 (Forall_forall _ _) Hall).
Qed.

Lemma unhex_hex n acc z t :
  0 <= z -> unhex_all acc (hex n z t) = unhex_all (acc * 16 ^ Z.of_nat n + z mod 16 ^ Z.of_nat n) t.
Proof.
  revert z t. induction n as [|n IH]; intros z t Hz.
  - cbn [hex]. rewrite Z.mod_1_r. f_equal. lia.
  - cbn [hex]. rewrite IH by (apply Z.div_pos; lia).
    destruct (unhex_digit (z mod 16)) as [Hne Hd]; [apply Z.mod_pos_bound; lia|].
    cbn [unhex_all]. rewrite decide_False, Hd by done. cbn. f_equal.
    rewrite Nat2Z.inj_succ, Z.pow_succ_r by lia.
    rewrite (Z.rem_mul_r z 16 (16 ^ Z.of_nat n)) by lia. lia.
Qed.

#[local] Instance hex_uuid_laws : UuidTextLaws.
Proof.
  constructor. intros u Hu. unfold uuid_to_string, parse_str, hex_uuid.
  assert (0 <= u / 2 ^ 96 /\ 0 <= u / 2 ^ 80 /\ 0 <= u / 2 ^ 64 /\ 0 <= u / 2 ^ 48) as (? & ? & ? & ?)
    by (split_and!; apply Z.div_pos; lia).
  assert (forall acc t, unhex_all acc ("-" +:+ t) = unhex_all acc t) as Hdash by done.
  rewrite !hex_app, unhex_hex, Hdash, unhex_hex, Hdash, unhex_hex, Hdash, unhex_hex, Hdash, unhex_hex
    by auto with lia.
  cbn [unhex_all ok_or]. f_equal.
  change (16 ^ Z.of_nat 8) with (2 ^ 32). change (16 ^ Z.of_nat 4) with (2 ^ 16).
  change (16 ^ Z.of_nat 12) with (2 ^ 48).
  rewrite (Z.mod_small (u / 2 ^ 96)) by
    (split; [done|apply Z.div_lt_upper_bound; lia]).
  pose proof (Z.div_mod (u / 2 ^ 80) (2 ^ 16)). pose proof (Z.div_mod (u / 2 ^ 64) (2 ^ 16)).
  pose proof (Z.div_mod (u / 2 ^ 48) (2 ^ 16)). pose proof (Z.div_mod u (2 ^ 48)).
  rewrite Z.div_div in * by lia.
  change (2 ^ 80 * 2 ^ 16) with (2 ^ 96) in *. change (2 ^ 64 * 2 ^ 16) with (2 ^ 80) in *.
  change (2 ^ 48 * 2 ^ 16) with (2 ^ 64) in *. lia.
Qed.

(** The displayed form tells identifiers apart. *)
Lemma uuid_to_string_inj u v :
  0 <= u < 2 ^ 128 -> 0 <= v < 2 ^ 128 -> uuid_to_string u = uuid_to_string v -> u = v.
Proof.
  intros Hu Hv Heq. pose proof (parse_display u Hu) as Pu. rewrite Heq, (parse_display v Hv) in Pu.
  by injection Pu.
Qed.

Definition demo_message : Message := Message_new 1 "orders" "{}" "application/json".

Lemma message_scope_roundtrip_witness :
  exists start : TaskWorld, tenant_in start = Some tenant_a /\ elevation_in start = None /\
    let '(a, w1) := note_scope start in
    with_message_scope (TenantHeader_enrich demo_message (task_start (Some tenant_a))).1 note_scope
      (task_start None) = (Ok a, leave (task_start None) w1) /\
    same_slots (task_start None) (leave (task_start None) w1).
Proof.
  refine (proj1 (message_scope_roundtrip demo_message note_scope (task_start (Some tenant_a))
    (task_start None) _ _)); [reflexivity|vm_compute; split; [discriminate|reflexivity]].
Defined.
