(* ===== verification/Dispatch.v ===== *)
(** * Commands, queries and their HTTP entry points

    Models crates/pharos-app/src: command.rs, query.rs and tower_service.rs
    (validation errors, the dispatch seam and the two [tower] services), and
    crates/pharos-axum/src/lib.rs ([status_for], [HandlerError],
    [CommandHandlerState::dispatch], [run_command], [run_query] and their
    [_from_state] forms).

    A handler is the function the trait implementation supplies; it is an
    argument of every operation, so a theorem can compare what two handlers
    would have answered.  Spans only observe and are left out; the error
    events the adapters write are calls of [Tracing]. *)

From S2P Require Import Prelude Core AggregateStore.
Local Open Scope Z_scope.

(** ** Validation errors (command.rs) *)

Record FieldViolation := mkFieldViolation { fv_path : string; fv_message : string }.

Definition FieldViolation_to_string (v : FieldViolation) : string :=
  if decide (fv_path v = "") then fv_message v else fv_path v +:+ ": " +:+ fv_message v.

Record ValidationError := mkValidationError { violations : list FieldViolation }.

Definition ValidationError_violation (path message : string) : ValidationError :=
  mkValidationError [mkFieldViolation path message].

Definition ValidationError_is_empty (e : ValidationError) : bool :=
  match violations e with [] => true | _ => false end.

(** The loop of [fmt] from index [i] on. *)
Fixpoint fmt_violations (i : nat) (vs : list FieldViolation) : string :=
  match vs with
  | [] => ""
  | v :: vs' =>
      (match i with O => ": " | _ => "; " end)
      +:+ FieldViolation_to_string v +:+ fmt_violations (S i) vs'
  end.

Definition ValidationError_to_string (e : ValidationError) : string :=
  "invalid input" +:+ fmt_violations 0 (violations e).

#[export] Instance ValidationError_classified : ClassifiedError ValidationError := {
  display := ValidationError_to_string;
  kind _ := KValidation;
  public_message := ValidationError_to_string;
}.

(** ** The dispatch seam (command.rs, query.rs, tower_service.rs) *)

(** The [Command] trait: its constants and the validation of its fields. *)
Class Command (C : Type) : Type := {
  NAME : string;
  INTERNAL_ONLY : bool;
  validate_input : C -> result unit ValidationError;
}.
Arguments NAME C {_}.
Arguments INTERNAL_ONLY C {_}.

(** A command that keeps the trait's defaults. *)
Definition Command_default (C : Type) (name : string) : Command C :=
  {| NAME := name; INTERNAL_ONLY := false; validate_input _ := Ok tt |}.

Inductive DispatchError (E : Type) :=
| DispatchValidation (e : ValidationError)
| DispatchHandler (e : E).
Arguments DispatchValidation {E} _.
Arguments DispatchHandler {E} _.

Definition DispatchError_kind {E} `{!ClassifiedError E} (e : DispatchError E) : ErrorKind :=
  match e with DispatchValidation _ => KValidation | DispatchHandler e => kind e end.

Definition DispatchError_public_message {E} `{!ClassifiedError E} (e : DispatchError E) : string :=
  match e with
  | DispatchValidation v => public_message v
  | DispatchHandler e => public_message e
  end.

#[export] Instance DispatchError_classified {E} `{!ClassifiedError E} :
  ClassifiedError (DispatchError E) := {
  display e := match e with DispatchValidation v => display v | DispatchHandler e => display e end;
  kind := DispatchError_kind;
  public_message := DispatchError_public_message;
}.

Section Seam.
Context {W C O E : Type} `{!Command C}.

(** [CommandHandler::handle] and [QueryHandler::handle] of an implementation. *)
Definition Handler (W C O E : Type) : Type := C -> M W (result O E).

Definition dispatch (handler : Handler W C O E) (command : C)
  : M W (result O (DispatchError E)) :=
  match validate_input command with
  | Err e => ret (Err (DispatchValidation e))
  | Ok _ => mmap (map_err DispatchHandler) (handler command)
  end.

End Seam.

Section QuerySeam.
Context {W Q R E : Type}.

Definition query_dispatch (handler : Handler W Q R E) (query : Q) : M W (result R E) :=
  handler query.
End QuerySeam.

(** ** Handlers as services (tower_service.rs)

    The handler is shared: a clone of a service calls the same one. *)

(** [DebugStruct::finish_non_exhaustive] of a structure without fields shown. *)
Definition debug_non_exhaustive (name : string) : string := name +:+ " { .. }".

Record CommandHandlerService (W C O E : Type) := mkCommandHandlerService {
  chs_handler : Handler W C O E;
}.
Arguments mkCommandHandlerService {W C O E} _.
Arguments chs_handler {W C O E} _.

Record QueryHandlerService (W Q R E : Type) := mkQueryHandlerService {
  qhs_handler : Handler W Q R E;
}.
Arguments mkQueryHandlerService {W Q R E} _.
Arguments qhs_handler {W Q R E} _.

Section CommandService.
Context {W C O E : Type} `{!Command C}.

Definition CommandHandlerService_from_arc (handler : Handler W C O E)
  : CommandHandlerService W C O E := mkCommandHandlerService handler.

Definition CommandHandlerService_new (handler : Handler W C O E) : CommandHandlerService W C O E :=
  CommandHandlerService_from_arc handler.

Definition CommandHandlerService_clone (self : CommandHandlerService W C O E)
  : CommandHandlerService W C O E := mkCommandHandlerService (chs_handler self).

Definition CommandHandlerService_debug (self : CommandHandlerService W C O E) : string :=
  debug_non_exhaustive "CommandHandlerService".

Definition CommandHandlerService_poll_ready (self : CommandHandlerService W C O E)
  : result unit (DispatchError E) := Ok tt.

Definition CommandHandlerService_call (self : CommandHandlerService W C O E) (command : C)
  : M W (result O (DispatchError E)) := dispatch (chs_handler self) command.
End CommandService.

Section QueryService.
Context {W Q R E : Type}.

Definition QueryHandlerService_from_arc (handler : Handler W Q R E)
  : QueryHandlerService W Q R E := mkQueryHandlerService handler.

Definition QueryHandlerService_new (handler : Handler W Q R E) : QueryHandlerService W Q R E :=
  QueryHandlerService_from_arc handler.

Definition QueryHandlerService_clone (self : QueryHandlerService W Q R E)
  : QueryHandlerService W Q R E := mkQueryHandlerService (qhs_handler self).

Definition QueryHandlerService_debug (self : QueryHandlerService W Q R E) : string :=
  debug_non_exhaustive "QueryHandlerService".

Definition QueryHandlerService_poll_ready (self : QueryHandlerService W Q R E)
  : result unit E := Ok tt.

Definition QueryHandlerService_call (self : QueryHandlerService W Q R E) (query : Q)
  : M W (result R E) := query_dispatch (qhs_handler self) query.
End QueryService.

(** ** HTTP (pharos-axum/src/lib.rs) *)

Definition status_for (k : ErrorKind) : Z :=
  match k with
  | KNotFound => 404
  | KValidation => 422
  | KConflict => 409
  | KUnauthorized => 401
  | KForbidden => 403
  | KRateLimited => 429
  | KUnavailable => 503
  | KInternal => 500
  end.

(** [StatusCode::is_server_error] *)
Definition is_server_error (status : Z) : bool := (500 <=? status) && (status <? 600).

Record HttpError := mkHttpError { he_status : Z; he_message : string }.

Definition HandlerError_new (status : Z) (message : string) : HttpError := mkHttpError status message.
Definition HandlerError_status (e : HttpError) : Z := he_status e.
Definition HandlerError_message (e : HttpError) : string := he_message e.
Definition HandlerError_to_string (e : HttpError) : string := he_message e.

(** [(status, message).into_response()]: the answer's status and body. *)
Definition HandlerError_into_response (e : HttpError) : Z * string := (he_status e, he_message e).

(** [tracing::error!] with its fields and message. *)
Class Tracing (W : Type) : Type := {
  tracing_error : list (string * string) -> string -> M W unit;
}.

Section Http.
Context {W : Type} `{!Tracing W}.

Definition HandlerError_internal (error : string) : M W HttpError :=
  do! _ <- tracing_error [("error", error)] "handler failed";
  ret (mkHttpError 500 "internal server error").

Definition HandlerError_from_classified {E} `{!ClassifiedError E} (error : E) : M W HttpError :=
  let status := status_for (kind error) in
  do! _ <- (if is_server_error status
            then tracing_error [("error", display error)] "handler failed" else ret tt);
  ret (mkHttpError status (public_message error)).

Definition HandlerError_validation (error : ValidationError) : M W HttpError :=
  HandlerError_from_classified error.

Definition HandlerError_from_domain (error : DomainError) : M W HttpError :=
  HandlerError_from_classified error.

Definition HandlerError_internal_command (name : string) : M W HttpError :=
  do! _ <- tracing_error [("command", name)]
             "refused to run an internal-only command over HTTP; its route must be removed";
  ret (mkHttpError 404 "command is internal-only and cannot be invoked over HTTP").

(** [map_err] with a function that logs. *)
Definition map_err_m {A E F} (f : E -> M W F) (c : M W (result A E)) : M W (result A F) :=
  do! r <- c;
  match r with Ok a => ret (Ok a) | Err e => do! x <- f e; ret (Err x) end.

Section Commands.
Context {C O E : Type} `{!Command C} (display_e : E -> string).

Definition CommandHandlerState_dispatch (handler : Handler W C O E) (command : C)
  : M W (result O (DispatchError E)) :=
  if INTERNAL_ONLY C then
    do! _ <- tracing_error [("command", NAME C)]
               "refused to run an internal-only command through CommandHandlerState::dispatch";
    ret (Err (DispatchValidation (ValidationError_violation ""
               "command is internal-only and cannot be invoked over this seam")))
  else dispatch handler command.

Definition run_command (handler : Handler W C O E) (command : C) : M W (result O HttpError) :=
  if INTERNAL_ONLY C then
    do! e <- HandlerError_internal_command (NAME C); ret (Err e)
  else
    map_err_m (fun error => match error with
                            | DispatchValidation error => HandlerError_validation error
                            | DispatchHandler error => HandlerError_internal (display_e error)
                            end)
      (dispatch handler command).

Definition run_command_from_state (handler : Handler W C O E) (command : C)
  : M W (result O HttpError) := run_command handler command.
End Commands.

(** [CommandHandlerState] and [QueryHandlerState]: the handler picked out of
    the router's state by its type, which never fails. *)
Record HandlerState (H : Type) := mkHandlerState { hs_handler : H }.
Arguments mkHandlerState {H} _.
Arguments hs_handler {H} _.

Definition CommandHandlerState_from_arc {H} (handler : H) : HandlerState H := mkHandlerState handler.
Definition QueryHandlerState_from_arc {H} (handler : H) : HandlerState H := mkHandlerState handler.

Definition CommandHandlerState_from_request_parts {S H} (from_ref : S -> H) (state : S)
  : result (HandlerState H) Empty_set := Ok (CommandHandlerState_from_arc (from_ref state)).
Definition QueryHandlerState_from_request_parts {S H} (from_ref : S -> H) (state : S)
  : result (HandlerState H) Empty_set := Ok (QueryHandlerState_from_arc (from_ref state)).

Section Queries.
Context {Q R E : Type} (display_e : E -> string).

Definition QueryHandlerState_dispatch (handler : Handler W Q R E) (query : Q)
  : M W (result R E) := query_dispatch handler query.

Definition run_query (handler : Handler W Q R E) (query : Q) : M W (result R HttpError) :=
  map_err_m (fun error => HandlerError_internal (display_e error)) (query_dispatch handler query).

Definition run_query_from_state (handler : Handler W Q R E) (query : Q)
  : M W (result R HttpError) := run_query handler query.
End Queries.
End Http.

(** ** Errors whose server-side text stays inside *)

(** The bodies an error of type [E] may put in a 5xx answer. *)
Class Opaque5xx (E : Type) `{!ClassifiedError E} (texts : list string) : Prop := {
  opaque_5xx (e : E) : is_server_error (status_for (kind e)) = true -> public_message e ∈ texts;
}.

#[export] Instance opaque_domain : Opaque5xx DomainError [].
Proof. constructor. by intros []. Qed.

#[export] Instance opaque_repository {E} (display_e : E -> string) :
  @Opaque5xx (RepositoryError E) (RepositoryError_classified display_e) ["internal storage error"].
Proof. constructor. intros []; cbn; [done|]. by left. Qed.

#[export] Instance opaque_store : Opaque5xx StoreError ["internal storage error"].
Proof. constructor. intros []; cbn; try done. by left. Qed.

#[export] Instance opaque_application : Opaque5xx ApplicationError ["internal application error"].
Proof. constructor. intros [[]|? |? ?|?|?]; cbn; try done; by left. Qed.

#[export] Instance opaque_dispatch {E} `{!ClassifiedError E} texts `{!Opaque5xx E texts} :
  Opaque5xx (DispatchError E) texts.
Proof. constructor. intros [v|e]; cbn; [done|]. apply opaque_5xx. Qed.

Lemma from_classified_answer {W E} `{!Tracing W, !ClassifiedError E} (e : E) (w : W) :
  (HandlerError_from_classified e w).1 = mkHttpError (status_for (kind e)) (public_message e).
Proof.
  unfold HandlerError_from_classified, bind.
  destruct (is_server_error _); cbn; [|done]. by destruct (tracing_error _ _ w) as [[] w'].
Qed.

(** A refused command leaves the world to the log alone, whatever the handler. *)
Definition reachable_over_http {C} `{!Command C} (c : C) : bool :=
  negb (INTERNAL_ONLY C) && is_ok (validate_input c).

Section HttpTheorems.
Context {W C O E : Type} `{!Tracing W, !Command C} (display_e : E -> string).
Implicit Types (h : Handler W C O E).

Lemma run_command_refused h h' (c : C) w :
  reachable_over_http c = false ->
  run_command display_e h c w = run_command display_e h' c w /\
  exists e, (run_command display_e h c w).1 = Err e /\
            he_status e = if INTERNAL_ONLY C then 404 else 422.
Proof.
  unfold reachable_over_http, run_command. destruct (INTERNAL_ONLY C); cbn; intros Hr.
  - split; [done|]. unfold bind, HandlerError_internal_command, bind.
    destruct (tracing_error _ _ w) as [[] w']. eauto.
  - unfold map_err_m, dispatch, bind. destruct (validate_input c); [done|]. cbn. eauto.
Qed.

Lemma run_command_reached h (c : C) w r w' :
  reachable_over_http c = true -> h c w = (r, w') ->
  match r with
  | Ok o => run_command display_e h c w = (Ok o, w')
  | Err e => (run_command display_e h c w) =
             (Err (mkHttpError 500 "internal server error"),
              (tracing_error [("error", display_e e)] "handler failed" w').2)
  end.
Proof.
  unfold reachable_over_http, run_command. destruct (INTERNAL_ONLY C); cbn; [done|].
  intros Hr Hh. unfold map_err_m, dispatch, bind.
  destruct (validate_input c); [|done]. unfold mmap. rewrite Hh.
  destruct r; cbn; [done|]. unfold HandlerError_internal, bind.
  by destruct (tracing_error _ _ w') as [[] w''].
Qed.

(** C35: over HTTP a command marked internal-only, or one whose fields fail
    validation, is answered 404 and 422 without its handler being consulted
    (any other handler would have left the same answer and the same world);
    every other command runs its handler once, a success is passed on, and
    a failure is answered 500 with one fixed text: the answer does not depend
    on which error the handler reported. *)
Theorem http_command_contract h h' (c : C) w :
  if reachable_over_http c
  then
    (forall o w', h c w = (Ok o, w') -> run_command_from_state display_e h c w = (Ok o, w')) /\
    (forall e e' w1 w2, h c w = (Err e, w1) -> h' c w = (Err e', w2) ->
       (run_command_from_state display_e h c w).1 = Err (mkHttpError 500 "internal server error") /\
       (run_command_from_state display_e h c w).1 = (run_command_from_state display_e h' c w).1)
  else
    run_command_from_state display_e h c w = run_command_from_state display_e h' c w /\
    CommandHandlerState_dispatch h c w = CommandHandlerState_dispatch h' c w /\
    exists e, (run_command_from_state display_e h c w).1 = Err e /\
              he_status e = if INTERNAL_ONLY C then 404 else 422.
Proof.
  destruct (reachable_over_http c) eqn:Hr.
  - split.
    + intros o w' Hh. exact (run_command_reached h c w _ _ Hr Hh).
    + intros e e' w1 w2 H1 H2. unfold run_command_from_state.
      rewrite (run_command_reached h c w _ _ Hr H1), (run_command_reached h' c w _ _ Hr H2).
      done.
  - destruct (run_command_refused h h' c w Hr) as [H1 H2]. split_and!; [done| |done].
    unfold CommandHandlerState_dispatch, reachable_over_http, dispatch in *.
    destruct (INTERNAL_ONLY C); [done|]. by destruct (validate_input c).
Qed.
End HttpTheorems.

(** The body of a 5xx answer built from a framework error is one of two
    fixed texts, never the text of the error underneath: for a dispatch over
    any of the repository, store, application and domain errors the body the
    client reads is public whatever the storage, broker or handler said. *)
Theorem server_errors_opaque {W} `{!Tracing W} (w : W) :
  let body {E} `{!ClassifiedError E} (e : DispatchError E) :=
    (HandlerError_from_classified e w).1 in
  let fixed (a : HttpError) := is_server_error (he_status a) = true ->
    he_message a ∈ ["internal storage error"; "internal application error"] in
  (forall e : DispatchError StoreError, fixed (body e)) /\
  (forall e : DispatchError ApplicationError, fixed (body e)) /\
  (forall e : DispatchError DomainError, fixed (body e)) /\
  (forall E (display_e : E -> string) (e : DispatchError (RepositoryError E)),
     fixed (@body _ (RepositoryError_classified display_e) e)).
Proof.
  cbv zeta. split_and!; intros; revert H; rewrite from_classified_answer; cbn [he_status he_message];
    intros H.
  - pose proof (opaque_5xx (texts := ["internal storage error"]) _ H). set_solver.
  - pose proof (opaque_5xx (texts := ["internal application error"]) _ H). set_solver.
  - pose proof (opaque_5xx (texts := []) _ H). set_solver.
  - pose proof (opaque_5xx (texts := ["internal storage error"]) _ H). set_solver.
Qed.
