(* ===== verification/Observability.v ===== *)
(** * Trace headers and log filters

    Models crates/pharos-axum/src/observability.rs ([Traceparent], the request
    span and the fields recorded on it, [traceparent_value]) and
    crates/pharos-observability/src/filter.rs ([merge_directives]).

    Header values are byte strings; log directives are sequences of
    characters, as in the actors of Tenancy, because [str::trim] looks at
    Unicode white space. *)

From S2P Require Import Prelude Realtime Tenancy.
Local Open Scope Z_scope.

(** ** [str::split] by one character *)

Fixpoint split_on {A} (sep : A -> bool) (l : list A) : list (list A) :=
  match l with
  | [] => [[]]
  | a :: l' =>
      if sep a then [] :: split_on sep l'
      else match split_on sep l' with
           | [] => [[a]]
           | part :: parts => (a :: part) :: parts
           end
  end.

Definition str_split (sep : Ascii.ascii) (s : string) : list string :=
  String.string_of_list_ascii <$> split_on (Ascii.eqb sep) (String.list_ascii_of_string s).

(** ** W3C trace context (observability.rs) *)

Definition TRACEPARENT_HEADER : string := "traceparent".
Definition VERSION : string := "00".
Definition FLAG_SAMPLED : string := "01".
Definition TRACE_ID_LEN : Z := 32.
Definition SPAN_ID_LEN : Z := 16.

Record Traceparent := mkTraceparent {
  trace_id : string;
  span_id : string;
  sampled : bool;
}.

Definition is_lower_hex_byte (a : Ascii.ascii) : bool :=
  let b := byte_of a in
  ((48 <=? b) && (b <=? 57)) || ((97 <=? b) && (b <=? 102)).

Definition is_lower_hex (s : string) : bool := forallb is_lower_hex_byte (String.list_ascii_of_string s).

Definition all_zero (s : string) : bool :=
  forallb (fun a => byte_of a =? 48) (String.list_ascii_of_string s).

(** [u8::from_str_radix(s, 16)] of lower-case digits. *)
Definition digit_value (a : Ascii.ascii) : Z :=
  let b := byte_of a in if b <=? 57 then b - 48 else b - 87.

Definition u8_from_str_radix_16 (s : string) : option Z :=
  let v := foldl (fun acc a => 16 * acc + digit_value a) 0 (String.list_ascii_of_string s) in
  if v <? 256 then Some v else None.

Definition Traceparent_parse (value : string) : option Traceparent :=
  match str_split dash value with
  | version :: trace_id :: span_id :: flags :: _ =>
      if negb (str_len version =? 2) || bool_decide (version = "ff") || negb (is_lower_hex version)
      then None
      else if negb (str_len trace_id =? TRACE_ID_LEN) || negb (is_lower_hex trace_id)
              || all_zero trace_id
      then None
      else if negb (str_len span_id =? SPAN_ID_LEN) || negb (is_lower_hex span_id)
              || all_zero span_id
      then None
      else if negb (str_len flags =? 2) || negb (is_lower_hex flags)
      then None
      else bits ← u8_from_str_radix_16 flags;
           Some (mkTraceparent trace_id span_id (Z.land bits 1 =? 1))
  | _ => None
  end.

Definition to_header_value (tp : Traceparent) : string :=
  VERSION +:+ "-" +:+ trace_id tp +:+ "-" +:+ span_id tp +:+ "-"
  +:+ (if sampled tp then FLAG_SAMPLED else "00").

(** [http::HeaderValue]: built from a string of visible ASCII, read back as
    text. *)
Class HeaderText (HV : Type) : Type := {
  header_from_str : string -> option HV;
  header_to_str : HV -> option string;
}.

Definition visible_ascii (s : string) : bool :=
  forallb (fun a => (32 <=? byte_of a) && (byte_of a <? 127)) (String.list_ascii_of_string s).

Class HeaderTextLaws (HV : Type) `{!HeaderText HV} : Prop := {
  header_visible s : visible_ascii s = true ->
    exists h, header_from_str s = Some h /\ header_to_str h = Some s;
}.

Definition traceparent_value {HV} `{!HeaderText HV} (trace_id span_id : string) (sampled : bool)
  : option HV :=
  let tp := mkTraceparent trace_id span_id sampled in
  _ ← Traceparent_parse (to_header_value tp);
  header_from_str (to_header_value tp).

(** *** The request span *)

(** What [request_span] reads of an [http::Request]. *)
Record Request (HV : Type) := mkRequest {
  rq_method : string;
  rq_path : string;
  rq_query : option string;
  rq_headers : gmap string HV;
}.
Arguments mkRequest {HV} _ _ _ _.
Arguments rq_method {HV} _.
Arguments rq_path {HV} _.
Arguments rq_query {HV} _.
Arguments rq_headers {HV} _.

(** The fields of a span, fixed when it is created; [None] is
    [field::Empty]. *)
Record Span := mkSpan { span_fields : gmap string (option string) }.

(** [Span::record]: a field the span does not declare is ignored. *)
Definition Span_record (field value : string) (s : Span) : Span :=
  mkSpan (alter (fun _ => Some value) field (span_fields s)).

Definition loggable_uri (path : string) (query : option string) : string :=
  match query with
  | Some _ => path +:+ "?<redacted>"
  | None => path
  end.

Definition request_span {HV} `{!HeaderText HV} (request : Request HV) : Span :=
  let traceparent :=
    value ← rq_headers request !! TRACEPARENT_HEADER;
    text ← header_to_str value;
    Traceparent_parse text in
  let span := mkSpan (list_to_map [("method", Some (rq_method request));
                                   ("uri", Some (loggable_uri (rq_path request) (rq_query request)));
                                   ("trace_id", None); ("parent_span_id", None);
                                   ("tenant", None); ("user", None)]) in
  match traceparent with
  | Some tp => Span_record "parent_span_id" (span_id tp) (Span_record "trace_id" (trace_id tp) span)
  | None => span
  end.

(** [record_trace_id], [record_tenant] and [record_user] on the current
    span. *)
Section Recording.
Context {W : Type} `{!Lens W Span}.

Definition record_field (field value : string) : M W unit :=
  do! s <- mget; mput (Span_record field value s).

Definition record_trace_id (trace_id : string) : M W unit := record_field "trace_id" trace_id.
Definition record_tenant (tenant : string) : M W unit := record_field "tenant" tenant.
Definition record_user (user : string) : M W unit := record_field "user" user.
End Recording.

(** ** Log directives (filter.rs) *)

Definition text_of (s : string) : list Z := chars s.

Definition PHAROS_TARGETS : list (list Z) :=
  text_of <$> ["pharos_axum"; "pharos_app"; "pharos_messaging"; "pharos_postgres"].

Definition DEFAULT_LEVEL : list Z := text_of "info".

Definition comma : Z := 44.
Definition equals : Z := 61.
Definition bracket : Z := 91.

(** The target a directive names. *)
Definition directive_target (directive : list Z) : list Z :=
  let before (c : Z) (l : list Z) := default [] (head (split_on (Z.eqb c) l)) in
  trim (before bracket (before equals directive)).

Definition mentions_target (directives target : list Z) : bool :=
  existsb (fun d => bool_decide (directive_target d = target)) (split_on (Z.eqb comma) directives).

(** One round of the loop of [merge_directives]. *)
Definition merge_target (merged target : list Z) : list Z :=
  if mentions_target merged target then merged
  else (match merged with [] => [] | _ => merged ++ [comma] end)
       ++ target ++ [equals] ++ DEFAULT_LEVEL.

Definition merge_directives (directives : list Z) : list Z :=
  foldl merge_target (trim directives) PHAROS_TARGETS.

(** [build_filter] up to the subscriber that parses the directives. *)
Definition filter_directives (rust_log : option (list Z)) (default_directives : list Z) : list Z :=
  merge_directives (default default_directives rust_log).

(** ** Splitting *)

Section SplitOn.
Context {A : Type} (sep : A -> bool).

Lemma split_on_plain l : Forall (fun a => sep a = false) l -> split_on sep l = [l].
Proof. induction 1 as [|a l Ha Hl IH]; cbn; [done|]. by rewrite Ha, IH. Qed.

Lemma split_on_cons l : exists part parts, split_on sep l = part :: parts.
Proof.
  induction l as [|a l (part & parts & IH)]; cbn; [eauto|].
  destruct (sep a); [eauto|]. rewrite IH. eauto.
Qed.

Lemma split_on_app l c l' :
  sep c = true -> split_on sep (l ++ c :: l') = split_on sep l ++ split_on sep l'.
Proof.
  intros Hc. induction l as [|a l IH]; cbn; [by rewrite Hc|].
  destruct (sep a); cbn; [by rewrite IH|]. rewrite IH.
  by destruct (split_on_cons l) as (part & parts & ->).
Qed.

(** No part holds a separator. *)
Lemma split_on_parts l : Forall (Forall (fun a => sep a = false)) (split_on sep l).
Proof.
  induction l as [|a l IH]; cbn; [by repeat constructor|].
  destruct (sep a) eqn:Ha; [by constructor|].
  destruct (split_on sep l) as [|part parts]; [by repeat constructor|].
  inversion IH; subst. by repeat constructor.
Qed.
End SplitOn.

Lemma list_ascii_app s s' :
  String.list_ascii_of_string (s +:+ s') = String.list_ascii_of_string s ++ String.list_ascii_of_string s'.
Proof. induction s as [|a s IH]; [done|]. exact (f_equal (cons a) IH). Qed.

Lemma str_split_app sep s s' :
  str_split sep (s +:+ String sep s') = str_split sep s ++ str_split sep s'.
Proof.
  unfold str_split. rewrite list_ascii_app. cbn [String.list_ascii_of_string].
  rewrite split_on_app, fmap_app; [done|]. apply Ascii.eqb_refl.
Qed.

Lemma str_split_dash s s' :
  str_split dash (s +:+ "-" +:+ s') = str_split dash s ++ str_split dash s'.
Proof. exact (str_split_app dash s s'). Qed.

Lemma str_split_plain sep s :
  Forall (fun a => Ascii.eqb sep a = false) (String.list_ascii_of_string s) -> str_split sep s = [s].
Proof.
  intros H. unfold str_split. rewrite split_on_plain by done. cbn.
  by rewrite String.string_of_list_ascii_of_string.
Qed.

(** ** Trace contexts *)

(** The identifiers the specification of [traceparent] allows. *)
Definition hex_id (len : Z) (s : string) : Prop :=
  str_len s = len /\ is_lower_hex s = true /\ all_zero s = false.

Definition valid_traceparent (tp : Traceparent) : Prop :=
  hex_id TRACE_ID_LEN (trace_id tp) /\ hex_id SPAN_ID_LEN (span_id tp).

Lemma lower_hex_no_dash s :
  is_lower_hex s = true ->
  Forall (fun a => Ascii.eqb dash a = false) (String.list_ascii_of_string s).
Proof.
  unfold is_lower_hex. intros H. rewrite forallb_forall in H. apply Forall_forall. intros a Ha.
  specialize (H a (proj1 (list_elem_of_In _ _) Ha)).
  destruct (Ascii.eqb dash a) eqn:E; [|done]. apply Ascii.eqb_eq in E. by subst.
Qed.

Lemma parse_shape v tp :
  Traceparent_parse v = Some tp ->
  valid_traceparent tp /\
  exists version flags rest,
    str_split dash v = version :: trace_id tp :: span_id tp :: flags :: rest.
Proof.
  unfold Traceparent_parse. destruct (str_split dash v) as [|ver [|t [|sp [|fl rest]]]]; try done.
  repeat case_match; try done. destruct (u8_from_str_radix_16 fl); [|done].
  intros [= <-]. cbn. unfold valid_traceparent, hex_id. cbn.
  repeat match goal with
  | H : _ || _ = false |- _ => apply orb_false_iff in H as [? ?]
  | H : negb _ = false |- _ => apply negb_false_iff in H
  | H : (_ =? _) = true |- _ => apply Z.eqb_eq in H
  end.
  split; [done|]. eauto.
Qed.

Lemma parse_rendered tp : valid_traceparent tp -> Traceparent_parse (to_header_value tp) = Some tp.
Proof.
  destruct tp as [t sp b]. intros [(Ht & Hht & Hzt) (Hs & Hhs & Hzs)].
  cbn [trace_id span_id] in *.
  assert (Hsplit : str_split dash (to_header_value (mkTraceparent t sp b))
                   = ["00"; t; sp; if b then "01" else "00"]).
  { unfold to_header_value, VERSION, FLAG_SAMPLED. cbn [trace_id span_id sampled].
    rewrite !str_split_dash.
    rewrite !str_split_plain; [done|..]; try (by apply lower_hex_no_dash).
    by destruct b; repeat constructor. }
  unfold Traceparent_parse. rewrite Hsplit, Ht, Hht, Hzt, Hs, Hhs, Hzs. by destruct b.
Qed.

(** A parsed [traceparent] has a 32-digit trace id and a 16-digit span id
    in lower-case hexadecimal, neither of them all zero, and the header value
    it renders parses back to itself: whatever version and extra fields the
    caller sent, the ids and the sampled bit survive a hop. *)
Theorem traceparent_roundtrip v tp :
  Traceparent_parse v = Some tp ->
  valid_traceparent tp /\ Traceparent_parse (to_header_value tp) = Some tp.
Proof.
  intros H. destruct (parse_shape v tp H) as [Hv _]. split; [done|]. by apply parse_rendered.
Qed.

(** [traceparent_value] of well-formed ids is the header the ids render to. *)
Lemma traceparent_value_valid {HV} `{!HeaderText HV, !HeaderTextLaws HV} t sp b :
  valid_traceparent (mkTraceparent t sp b) ->
  visible_ascii (to_header_value (mkTraceparent t sp b)) = true ->
  exists h : HV, traceparent_value t sp b = Some h /\
    header_to_str h = Some (to_header_value (mkTraceparent t sp b)).
Proof.
  intros Hv Ha. unfold traceparent_value. rewrite parse_rendered by done. cbn.
  by apply header_visible.
Qed.

(** The span of a request tells its path, whether it had a query, and the
    ids of a well-formed [traceparent]; the text of the query never reaches
    it. *)
Lemma request_span_redacts {HV} `{!HeaderText HV} method path (q q' : string) headers :
  request_span (mkRequest method path (Some q) headers)
  = request_span (mkRequest method path (Some q') headers :> Request HV).
Proof. done. Qed.

(** ** Log directives *)

(** Neither end is white space. *)
Definition dark (o : option Z) : Prop := forall c, o = Some c -> is_whitespace c = false.
Definition tidy (l : list Z) : Prop := dark (head l) /\ dark (last l).

Lemma trim_start_dark l : dark (head (trim_start l)).
Proof.
  induction l as [|c l IH]; cbn; [by intros ?|].
  destruct (is_whitespace c) eqn:E; [done|]. by intros ? [= <-].
Qed.

Lemma trim_start_suffix l : exists pre, l = pre ++ trim_start l.
Proof.
  induction l as [|c l [pre IH]]; cbn; [by exists []|].
  destruct (is_whitespace c); [|by exists []]. exists (c :: pre). cbn. by rewrite <- IH.
Qed.

Lemma trim_start_id l : dark (head l) -> trim_start l = l.
Proof. destruct l as [|c l]; cbn; [done|]. intros H. by rewrite (H c). Qed.

Lemma dark_prefix {l l' : list Z} : dark (head (l ++ l')) -> dark (head l).
Proof. destruct l; [by intros _ ?|done]. Qed.

Lemma trim_tidy l : tidy (trim l).
Proof.
  unfold trim, tidy. split.
  - destruct (trim_start_suffix (reverse (trim_start l))) as [pre Hpre].
    assert (Hl : trim_start l = reverse (trim_start (reverse (trim_start l))) ++ reverse pre).
    { rewrite <- reverse_app, <- Hpre, reverse_involutive. done. }
    eapply dark_prefix. rewrite <- Hl. apply trim_start_dark.
  - rewrite last_reverse. apply trim_start_dark.
Qed.

Lemma trim_id l : tidy l -> trim l = l.
Proof.
  intros [Hh Hl]. unfold trim. rewrite (trim_start_id l) by done.
  rewrite trim_start_id; [apply reverse_involutive|]. by rewrite head_reverse.
Qed.

(** The directives that address a target. *)
Definition addressed (directives target : list Z) : list (list Z) :=
  filter (fun d => directive_target d = target) (split_on (Z.eqb comma) directives).

Definition default_directive (target : list Z) : list Z := target ++ [equals] ++ DEFAULT_LEVEL.

(** A target that its default directive names, without a comma. *)
Record plain_target (t : list Z) : Prop := {
  pt_nonempty : t <> [];
  pt_tidy : tidy t;
  pt_named : directive_target (default_directive t) = t;
  pt_single : split_on (Z.eqb comma) (default_directive t) = [default_directive t];
}.

Lemma pharos_targets_plain : Forall plain_target PHAROS_TARGETS.
Proof.
  repeat constructor; try (vm_compute; congruence); intros c; vm_compute; by intros [= <-].
Qed.

Lemma mentions_addressed l t : mentions_target l t = true <-> addressed l t <> [].
Proof.
  unfold mentions_target, addressed. rewrite existsb_exists. split.
  - intros (d & Hin & Hd) Hn. apply list_elem_of_In in Hin. apply bool_decide_eq_true in Hd.
    apply (not_elem_of_nil d). rewrite <- Hn. by apply list_elem_of_filter.
  - destruct (filter _ _) as [|d ds] eqn:E; [done|]. intros _.
    assert (Hd : d ∈ d :: ds) by left. rewrite <- E in Hd.
    apply list_elem_of_filter in Hd as [Hd Hin]. exists d.
    rewrite <- list_elem_of_In. split; [done|]. by apply bool_decide_eq_true.
Qed.

Lemma addressed_nil t : t <> [] -> addressed [] t = [].
Proof.
  intros Ht. unfold addressed. change (split_on _ []) with [@nil Z].
  rewrite filter_cons_False; [done|]. by intros <-.
Qed.

(** One round adds a directive exactly for a target nobody addressed. *)
Lemma merge_target_addressed l t t' :
  plain_target t -> t' <> [] ->
  addressed (merge_target l t) t' =
  addressed l t' ++ if decide (t = t' /\ addressed l t = []) then [default_directive t] else [].
Proof.
  intros Hp Ht'. unfold merge_target. destruct (mentions_target l t) eqn:Hm.
  { rewrite decide_False, app_nil_r; [done|]. apply mentions_addressed in Hm. naive_solver. }
  assert (Hn : addressed l t = []).
  { destruct (decide (addressed l t = [])) as [|Hn]; [done|].
    apply mentions_addressed in Hn. congruence. }
  assert (Hd : addressed (default_directive t) t' = if decide (t = t') then [default_directive t] else []).
  { unfold addressed. rewrite (pt_single t Hp), filter_cons, (pt_named t Hp).
    by case_decide. }
  assert (Hif : (if decide (t = t' /\ addressed l t = []) then [default_directive t] else [])
                = if decide (t = t') then [default_directive t] else []).
  { by repeat case_decide; naive_solver. }
  rewrite Hif, <- Hd. destruct l as [|c l].
  - by rewrite addressed_nil.
  - unfold addressed. rewrite <- filter_app, <- split_on_app with (c := comma); [|done].
    f_equal. by rewrite <- app_assoc.
Qed.

Lemma merge_target_extends l t : exists added, merge_target l t = l ++ added.
Proof.
  unfold merge_target. destruct (mentions_target l t); [exists []; by rewrite app_nil_r|].
  destruct l; [by eexists|]. rewrite <- app_assoc. eauto.
Qed.

Lemma merge_target_tidy l t : plain_target t -> tidy l -> tidy (merge_target l t).
Proof.
  intros Hp [Hh Hl]. unfold merge_target. destruct (mentions_target l t); [done|].
  split.
  - destruct l; [|done]. destruct (pt_tidy t Hp) as [Ht _].
    destruct t; [by destruct (pt_nonempty _ Hp)|done].
  - rewrite !app_assoc, last_app. intros c. vm_compute. by intros [= <-].
Qed.

(** The loop over the targets. *)
Lemma merge_targets_spec ts l :
  Forall plain_target ts -> tidy l ->
  let m := foldl merge_target l ts in
  tidy m /\ (exists added, m = l ++ added) /\
  (forall t, t ∈ ts -> addressed m t <> []) /\
  (forall t, t <> [] -> addressed l t <> [] \/ t ∉ ts -> addressed m t = addressed l t).
Proof.
  intros Hp. revert l. induction Hp as [|t ts Ht Hts IH]; intros l Hl; cbn [foldl].
  { split_and!; [done|exists []; by rewrite app_nil_r|set_solver|done]. }
  destruct (IH _ (merge_target_tidy l t Ht Hl)) as (Htd & [added Hadd] & Hall & Hkeep).
  assert (Hself : addressed (merge_target l t) t <> []).
  { rewrite merge_target_addressed by (done || apply Ht). case_decide as Hc; [by intros [_ ?]%app_nil|].
    rewrite app_nil_r. intros Hn. by destruct Hc. }
  split_and!; [done| | |].
  - destruct (merge_target_extends l t) as [a1 Ha1]. exists (a1 ++ added).
    by rewrite Hadd, Ha1, app_assoc.
  - intros t' [->|Hin]%elem_of_cons; [|by apply Hall].
    rewrite Hkeep; [done|apply Ht|by left].
  - intros t' Hne Hc.
    assert (Hstep : addressed (merge_target l t) t' = addressed l t').
    { rewrite merge_target_addressed by done. rewrite decide_False, app_nil_r; [done|].
      intros [-> Hn]. destruct Hc as [|Hc]; [done|]. apply Hc. left. }
    rewrite Hkeep, Hstep; [done|done|]. rewrite Hstep. set_solver.
Qed.

Lemma merge_targets_noop ts l :
  (forall t, t ∈ ts -> addressed l t <> []) -> foldl merge_target l ts = l.
Proof.
  intros H. assert (Hstep : forall t, t ∈ ts -> merge_target l t = l).
  { intros t Ht. unfold merge_target. by rewrite (proj2 (mentions_addressed l t) (H t Ht)). }
  clear H. induction ts as [|t ts IH]; cbn; [done|].
  rewrite Hstep by left. apply IH. intros t' Ht'. apply Hstep. by right.
Qed.

(** Completing a log filter keeps the caller's directives as they are,
    in front, and addresses every framework target; a target the caller
    addressed, and any target outside the framework, is addressed by the same
    directives as before; and completing a completed filter changes
    nothing. *)
Theorem merge_fills_gaps directives :
  let m := merge_directives directives in
  (exists added, m = trim directives ++ added) /\
  (forall t, t ∈ PHAROS_TARGETS -> mentions_target m t = true) /\
  (forall t, t <> [] -> mentions_target (trim directives) t = true \/ t ∉ PHAROS_TARGETS ->
     addressed m t = addressed (trim directives) t) /\
  merge_directives m = m.
Proof.
  destruct (merge_targets_spec PHAROS_TARGETS (trim directives) pharos_targets_plain
              (trim_tidy directives)) as (Htd & Hext & Hall & Hkeep).
  split_and!; [done| | |].
  - intros t Ht. apply mentions_addressed. by apply Hall.
  - intros t Hne Hc. apply Hkeep; [done|]. rewrite <- mentions_addressed. done.
  - unfold merge_directives. rewrite (trim_id _ Htd). by apply merge_targets_noop.
Qed.

(** ** Concrete headers *)

Definition demo_trace : string := "4bf92f3577b34da6a3ce929d0e0e4736".
Definition demo_span : string := "00f067aa0ba902b7".

Lemma traceparent_roundtrip_witness :
  let tp := mkTraceparent demo_trace demo_span true in
  valid_traceparent tp /\ Traceparent_parse (to_header_value tp) = Some tp.
Proof.
  apply (traceparent_roundtrip ("cc-" +:+ demo_trace +:+ "-" +:+ demo_span +:+ "-03-what-ever")).
  vm_compute. reflexivity.
Defined.

#[local] Instance plain_headers : HeaderText string := {
  header_from_str s := if visible_ascii s then Some s else None;
  header_to_str s := Some s;
}.

#[local] Instance plain_headers_laws : HeaderTextLaws string.
Proof. constructor. intros s Hs. exists s. cbn. by rewrite Hs. Qed.

(** [traceparent_value] emits a header for a trace id that holds a dash:
    the parser that is meant to refuse malformed ids takes the text after the
    dash for the span id and ignores the field too many, so what a receiver
    reads back are not the ids that were given. *)
Theorem dashed_id_is_emitted {HV} `{!HeaderText HV, !HeaderTextLaws HV} :
  exists (id span : string) (h : HV) (text : string) (tp : Traceparent),
    ~ hex_id TRACE_ID_LEN id /\ ~ hex_id SPAN_ID_LEN span /\
    traceparent_value id span true = Some h /\ header_to_str h = Some text /\
    Traceparent_parse text = Some tp /\ trace_id tp <> id /\ span_id tp <> span.
Proof.
  set (id := demo_trace +:+ "-" +:+ demo_span). set (span := "01").
  destruct (header_visible (to_header_value (mkTraceparent id span true))) as (h & Hh & Ht);
    [by vm_compute|].
  assert (Hp : Traceparent_parse (to_header_value (mkTraceparent id span true))
               = Some (mkTraceparent demo_trace demo_span true)) by (vm_compute; reflexivity).
  eexists id, span, h, _, _. split_and!; [| | |exact Ht|exact Hp| |].
  - by intros [H _].
  - by intros [H _].
  - unfold traceparent_value. rewrite Hp. exact Hh.
  - vm_compute. congruence.
  - vm_compute. congruence.
Qed.

Lemma dashed_id_is_emitted_witness :
  exists (id span : string) (h : string) (text : string) (tp : Traceparent),
    ~ hex_id TRACE_ID_LEN id /\ ~ hex_id SPAN_ID_LEN span /\
    traceparent_value id span true = Some h /\ header_to_str h = Some text /\
    Traceparent_parse text = Some tp /\ trace_id tp <> id /\ span_id tp <> span.
Proof. exact dashed_id_is_emitted. Defined.
