(* ===== verification/Proto.v ===== *)
(** * The Protobuf wire format

    Models crates/pharos-proto/src: envelope.rs ([IntegrationEventEnvelope]
    and its conversions), error.rs and serializer.rs
    ([ProtobufEventSerializer] with its [MessageCodec]).

    The field encoding itself is the [prost] library ([ProstMessage]); the
    millisecond conversions of a timestamp are [chrono] ([ChronoMillis]) and
    the parser of identifiers is [uuid] ([UuidText]). *)

From S2P Require Import Prelude Core Upcast Tenancy.
Local Open Scope Z_scope.

(** ** Library interfaces *)

(** [prost::Message]: encoding into a vector and decoding from a slice. *)
Class ProstMessage (P : Type) : Type := {
  encode_to_vec : P -> string;
  prost_decode : string -> result P string;
}.

(** Every value of the Rust type decodes from its own encoding. *)
Class ProstLaws (P : Type) `{!ProstMessage P} : Type := {
  prost_value : P -> Prop;
  prost_roundtrip p : prost_value p -> prost_decode (encode_to_vec p) = Ok p;
}.

(** [DateTime::timestamp_millis] and [DateTime::from_timestamp_millis]. *)
Class ChronoMillis : Type := {
  timestamp_millis : Instant -> Z;
  from_timestamp_millis : Z -> option Instant;
}.

Definition NANOS_PER_MILLI : Z := 1000000.

Class ChronoMillisLaws `{!ChronoMillis} : Type := {
  chrono_min_ms : Z;
  chrono_max_ms : Z;
  timestamp_millis_floor t : timestamp_millis t = t / NANOS_PER_MILLI;
  from_millis_in ms : chrono_min_ms <= ms <= chrono_max_ms ->
    from_timestamp_millis ms = Some (ms * NANOS_PER_MILLI);
  from_millis_out ms : ms < chrono_min_ms \/ chrono_max_ms < ms -> from_timestamp_millis ms = None;
}.

(** ** The envelope (envelope.rs, error.rs) *)

Inductive ProtobufSerializationError :=
| PDecode (e : string)
| PInvalidEnvelope (e : string)
| PInvalidTimestamp (ms : Z).

Record IntegrationEventEnvelope := mkEnvelope {
  env_event_id : string;
  env_event_type : string;
  env_schema_version : Z;
  env_occurred_at_ms : Z;
  env_aggregate_id : option string;
  env_correlation_id : option string;
  env_causation_id : option string;
  env_source : string;
  env_tenant_id : option string;
  env_trace_id : option string;
  env_payload : string;
  env_metadata : gmap string string;
}.

Section Envelopes.
Context `{!ChronoMillis, !UuidText} {P : Type} `{!ProstMessage P}.

Definition from_integration_event (e : IntegrationEvent P) : IntegrationEventEnvelope :=
  mkEnvelope (uuid_to_string (ie_event_id e)) (ie_event_type e) (ie_schema_version e)
    (timestamp_millis (ie_occurred_at e)) (ie_aggregate_id e)
    (correlation_str <$> ie_correlation_id e) (causation_str <$> ie_causation_id e)
    (ie_source e) (ie_tenant_id e) (ie_trace_id e) (encode_to_vec (ie_payload e)) (ie_metadata e).

Definition into_integration_event (env : IntegrationEventEnvelope)
  : result (IntegrationEvent P) ProtobufSerializationError :=
  res! event_id <- map_err PInvalidEnvelope (parse_str (env_event_id env));
  res! occurred_at <- ok_or (from_timestamp_millis (env_occurred_at_ms env))
                        (PInvalidTimestamp (env_occurred_at_ms env));
  res! payload <- map_err PDecode (prost_decode (env_payload env));
  Ok (mkIntegrationEvent event_id (env_event_type env) (env_schema_version env) occurred_at
        (env_aggregate_id env) (mkCorrelationId <$> env_correlation_id env)
        (mkCausationId <$> env_causation_id env) (env_source env) (env_tenant_id env)
        (env_trace_id env) payload (env_metadata env)).
End Envelopes.

Section Bytes.
Context `{!ProstMessage IntegrationEventEnvelope}.

Definition encode_to_bytes (env : IntegrationEventEnvelope) : string := encode_to_vec env.

Definition decode_from_bytes (bytes : string)
  : result IntegrationEventEnvelope ProtobufSerializationError :=
  map_err PDecode (prost_decode bytes).
End Bytes.

(** ** The codec (serializer.rs) *)

Definition APPLICATION_PROTOBUF : string := "application/x-protobuf".

Inductive ProtobufEventSerializer := mkProtobufEventSerializer.

Section Codec.
Context `{!ChronoMillis, !UuidText, !ProstMessage IntegrationEventEnvelope}
  {P : Type} `{!ProstMessage P}.

Definition ProtobufEventSerializer_serialize (e : IntegrationEvent P)
  : result SerializedEvent ProtobufSerializationError :=
  Ok (mkSerializedEvent APPLICATION_PROTOBUF (encode_to_bytes (from_integration_event e))).

Definition ProtobufEventSerializer_deserialize (wire : SerializedEvent)
  : result (IntegrationEvent P) ProtobufSerializationError :=
  res! envelope <- decode_from_bytes (se_payload wire);
  into_integration_event envelope.

#[export] Instance ProtobufEventSerializer_codec :
  MessageCodec ProtobufEventSerializer P ProtobufSerializationError := {
  codec_encode _ := ProtobufEventSerializer_serialize;
  codec_decode _ wire := Some (ProtobufEventSerializer_deserialize wire);
}.
End Codec.

(** ** Round trip *)

(** The instant a millisecond stamp keeps. *)
Definition to_milli (t : Instant) : Instant := t / NANOS_PER_MILLI * NANOS_PER_MILLI.

Section RoundTrip.
Context `{!ChronoMillis, !ChronoMillisLaws, !UuidText, !UuidTextLaws}
  `{!ProstMessage IntegrationEventEnvelope, !ProstLaws IntegrationEventEnvelope}
  {P : Type} `{!ProstMessage P, !ProstLaws P}.

(** What comes back of an envelope built from an event. *)
Lemma into_from_event (e : IntegrationEvent P) :
  0 <= ie_event_id e < 2 ^ 128 -> prost_value (ie_payload e) ->
  into_integration_event (from_integration_event e) =
  (if decide (chrono_min_ms <= ie_occurred_at e / NANOS_PER_MILLI <= chrono_max_ms)
   then Ok (with_occurred_at (to_milli (ie_occurred_at e)) e)
   else Err (PInvalidTimestamp (ie_occurred_at e / NANOS_PER_MILLI))).
Proof.
  intros Hid Hp. destruct e as [id ty v at_ agg [[]|] [[]|] src ten tr p md];
    unfold into_integration_event, from_integration_event; cbn in *;
    rewrite parse_display, timestamp_millis_floor, prost_roundtrip by done;
    (case_decide; [rewrite from_millis_in by done|rewrite from_millis_out by lia]); done.
Qed.

(** C36: what the Protobuf codec writes for an event it reads back with every
    field intact except the time, which loses what is below a millisecond;
    the content type names the format, and the only event refused is one
    whose time chrono cannot hold in milliseconds. *)
Theorem protobuf_roundtrip (e : IntegrationEvent P) :
  0 <= ie_event_id e < 2 ^ 128 -> prost_value (ie_payload e) ->
  prost_value (from_integration_event e) ->
  exists wire,
    codec_encode mkProtobufEventSerializer e = Ok wire /\
    se_content_type wire = APPLICATION_PROTOBUF /\
    codec_decode mkProtobufEventSerializer wire =
    Some (if decide (chrono_min_ms <= ie_occurred_at e / NANOS_PER_MILLI <= chrono_max_ms)
          then Ok (with_occurred_at (to_milli (ie_occurred_at e)) e)
          else Err (PInvalidTimestamp (ie_occurred_at e / NANOS_PER_MILLI)))
    :> option (result (IntegrationEvent P) ProtobufSerializationError).
Proof.
  intros Hid Hp Henv. eexists. split; [done|]. split; [done|]. cbn. f_equal.
  unfold ProtobufEventSerializer_deserialize, decode_from_bytes, encode_to_bytes. cbn.
  rewrite prost_roundtrip by done. cbn. by apply into_from_event.
Qed.
End RoundTrip.

(** An event comes back unchanged exactly when its time is a whole number of
    milliseconds. *)
Lemma to_milli_exact {P} (e : IntegrationEvent P) :
  with_occurred_at (to_milli (ie_occurred_at e)) e = e <-> ie_occurred_at e mod NANOS_PER_MILLI = 0.
Proof.
  destruct e as [id ty v t agg co ca src ten tr p md]. cbn. unfold to_milli, with_occurred_at. cbn.
  pose proof (Z.div_mod t NANOS_PER_MILLI ltac:(done)). split.
  - intros [= H1]. lia.
  - intros H0. f_equal. lia.
Qed.

(** ** A concrete encoding *)

Fixpoint bits (p : positive) : string :=
  match p with
  | xH => ""
  | xO p => String (Ascii.ascii_of_nat 48) (bits p)
  | xI p => String (Ascii.ascii_of_nat 49) (bits p)
  end.

Fixpoint unbits (s : string) : positive :=
  match s with
  | EmptyString => xH
  | String a s => if decide (a = Ascii.ascii_of_nat 48) then xO (unbits s) else xI (unbits s)
  end.

Lemma unbits_bits p : unbits (bits p) = p.
Proof. induction p as [p IH|p IH|]; cbn; [by rewrite IH|by rewrite IH|done]. Qed.

#[local] Instance bits_prost {P} `{Countable P} : ProstMessage P := {
  encode_to_vec p := bits (encode p);
  prost_decode s := ok_or (decode (unbits s)) "invalid wire type";
}.

#[local] Instance bits_prost_laws {P} `{Countable P} : ProstLaws P.
Proof.
  apply (Build_ProstLaws _ _ (fun _ => True)).
  intros p _. cbn. by rewrite unbits_bits, decode_encode.
Defined.

#[local] Instance Envelope_eq_dec : EqDecision IntegrationEventEnvelope.
Proof. solve_decision. Defined.

#[local] Instance Envelope_countable : Countable IntegrationEventEnvelope.
Proof.
  refine (inj_countable' (fun e =>
    (env_event_id e, env_event_type e, env_schema_version e, env_occurred_at_ms e,
     env_aggregate_id e, env_correlation_id e, env_causation_id e, env_source e,
     env_tenant_id e, env_trace_id e, env_payload e, env_metadata e))
    (fun '(a, b, c, d, e, f, g, h, i, j, k, l) => mkEnvelope a b c d e f g h i j k l) _).
  by intros [].
Defined.

#[local] Instance floor_millis : ChronoMillis := {
  timestamp_millis t := t / NANOS_PER_MILLI;
  from_timestamp_millis ms :=
    if bool_decide (-8334601228800000 <= ms <= 8210266876799999)
    then Some (ms * NANOS_PER_MILLI) else None;
}.

#[local] Instance floor_millis_laws : ChronoMillisLaws.
Proof.
  apply (Build_ChronoMillisLaws _ (-8334601228800000) 8210266876799999); [done| |].
  - intros ms H. cbn. by rewrite bool_decide_eq_true_2.
  - intros ms H. cbn. rewrite bool_decide_eq_false_2 by lia. done.
Defined.

#[local] Existing Instance hex_uuid.
#[local] Existing Instance hex_uuid_laws.

Definition demo_event : IntegrationEvent Z :=
  with_metadata "region" "eu"
    (mkIntegrationEvent 42 "OrderPlaced" 3 1700000000123456789 (Some "order-1")
       (Some (mkCorrelationId "flow")) None "orders" (Some "acme") None 7 ∅).

Lemma protobuf_roundtrip_witness :
  exists wire,
    codec_encode mkProtobufEventSerializer demo_event = Ok wire /\
    se_content_type wire = APPLICATION_PROTOBUF /\
    codec_decode mkProtobufEventSerializer wire =
    Some (Ok (with_occurred_at 1700000000123000000 demo_event))
    :> option (result (IntegrationEvent Z) ProtobufSerializationError).
Proof.
  destruct (protobuf_roundtrip demo_event) as (wire & H1 & H2 & H3); [done|done|done|].
  exists wire. split; [exact H1|]. split; [exact H2|].
  rewrite decide_True in H3 by done. exact H3.
Defined.
