(* ===== verification/ProtoWire.v ===== *)
(** * The envelope on the wire

    The bytes [#[derive(prost::Message)]] writes for the envelope of
    crates/pharos-proto/src/envelope.rs, whose attributes give each field its
    tag and its type: varints, length-delimited fields, proto3 defaults left
    out, map entries as nested messages in the order of their keys.  The
    derive itself is the [prost] library; this is the documented Protobuf
    encoding it implements, and an instance of what [Proto] asks of it, for
    any check of UTF-8. *)

From S2P Require Import Prelude Core Upcast Tenancy Proto.
Local Open Scope Z_scope.

(** ** Varints *)

Definition byte (z : Z) : Ascii.ascii := Ascii.ascii_of_N (Z.to_N z).
Definition code (c : Ascii.ascii) : Z := Z.of_N (Ascii.N_of_ascii c).

(** Seven bits at a time, low first, the eighth set on all but the last. *)
Fixpoint put_varint (fuel : nat) (n : Z) : string :=
  match fuel with
  | O => ""
  | S fuel' => if n <? 128 then String (byte n) ""
               else String (byte (n mod 128 + 128)) (put_varint fuel' (n / 128))
  end.
Definition encode_varint (n : Z) : string := put_varint 10 n.

Fixpoint get_varint (fuel : nat) (s : string) : option (Z * string) :=
  match fuel, s with
  | S fuel', String c s' =>
      if code c <? 128 then Some (code c, s')
      else '(n, rest) ← get_varint fuel' s'; Some (code c - 128 + 128 * n, rest)
  | _, _ => None
  end.
Definition decode_varint (s : string) : option (Z * string) :=
  '(n, rest) ← get_varint 10 s; if n <=? u64_max then Some (n, rest) else None.

Lemma append_cons c (s t : string) : String c s +:+ t = String c (s +:+ t).
Proof. done. Qed.

Lemma code_byte z : 0 <= z < 256 -> code (byte z) = z.
Proof. intros. unfold code, byte. rewrite Ascii.N_ascii_embedding by lia. by rewrite Z2N.id by lia. Qed.

Lemma get_put_varint fuel n t :
  (0 < fuel)%nat -> 0 <= n < 128 ^ Z.of_nat fuel ->
  get_varint fuel (put_varint fuel n +:+ t) = Some (n, t).
Proof.
  revert n. induction fuel as [|fuel IH]; intros n Hf Hn; [lia|].
  cbn [put_varint]. destruct (Z.ltb_spec n 128) as [Hs|Hs]; rewrite append_cons; cbn [get_varint].
  - rewrite code_byte, (proj2 (Z.ltb_lt _ _)) by lia. done.
  - pose proof (Z.mod_pos_bound n 128 ltac:(lia)) as Hm. pose proof (Z.div_mod n 128 ltac:(lia)).
    rewrite code_byte, (proj2 (Z.ltb_ge _ _)) by lia.
    rewrite Nat2Z.inj_succ, Z.pow_succ_r in Hn by lia.
    rewrite IH; [cbn; do 2 f_equal; lia| |].
    + destruct fuel; [cbn in Hn; lia|lia].
    + split; [apply Z.div_pos; lia|apply Z.div_lt_upper_bound; lia].
Qed.

Lemma decode_encode_varint n t :
  0 <= n <= u64_max -> decode_varint (encode_varint n +:+ t) = Some (n, t).
Proof.
  intros Hn. unfold decode_varint, encode_varint. rewrite get_put_varint.
  - cbn [mbind option_bind]. by rewrite (proj2 (Z.leb_le _ _)) by lia.
  - lia.
  - unfold u64_max in Hn. cbn. lia.
Qed.

Lemma encode_varint_nonempty n : encode_varint n <> "".
Proof. unfold encode_varint. cbn [put_varint]. by destruct (n <? 128). Qed.

(** ** Fields *)

Inductive WireValue := Varint (n : Z) | Delimited (s : string).

Abbreviation Field := (Z * WireValue)%type (only parsing).

Definition str_len (s : string) : Z := Z.of_nat (String.length s).

Definition encode_field (f : Field) : string :=
  match f.2 with
  | Varint n => encode_varint (f.1 * 8) +:+ encode_varint n
  | Delimited s => encode_varint (f.1 * 8 + 2) +:+ encode_varint (str_len s) +:+ s
  end.

Fixpoint encode_fields (fs : list Field) : string :=
  match fs with [] => "" | f :: fs' => encode_field f +:+ encode_fields fs' end.

(** The first [n] bytes and the rest. *)
Fixpoint split_bytes (n : Z) (s : string) : option (string * string) :=
  if n <=? 0 then Some ("", s)
  else match s with
       | EmptyString => None
       | String c s' => '(a, b) ← split_bytes (n - 1) s'; Some (String c a, b)
       end.

(** One field; the wire types the messages here do not use are refused. *)
Definition decode_field (s : string) : option (Field * string) :=
  '(key, s) ← decode_varint s;
  let tag := key / 8 in
  if (tag =? 0) || (u32_max <? key) then None
  else if key mod 8 =? 0 then '(n, s) ← decode_varint s; Some ((tag, Varint n), s)
  else if key mod 8 =? 2 then
    '(n, s) ← decode_varint s; '(text, s) ← split_bytes n s; Some ((tag, Delimited text), s)
  else None.

Fixpoint decode_fields (fuel : nat) (s : string) : option (list Field) :=
  match s, fuel with
  | EmptyString, _ => Some []
  | _, O => None
  | _, S fuel' => '(f, rest) ← decode_field s; fs ← decode_fields fuel' rest; Some (f :: fs)
  end.

Definition field_ok (f : Field) : Prop :=
  1 <= f.1 < 2 ^ 29 /\
  match f.2 with Varint n => 0 <= n <= u64_max | Delimited s => str_len s <= u64_max end.

Lemma split_bytes_app a b : split_bytes (str_len a) (a +:+ b) = Some (a, b).
Proof.
  unfold str_len. induction a as [|c a IH]; [by destruct b|].
  rewrite append_cons. cbn [String.length split_bytes]. rewrite (proj2 (Z.leb_gt _ _)) by lia.
  replace (Z.of_nat (S (String.length a)) - 1) with (Z.of_nat (String.length a)) by lia.
  by rewrite IH.
Qed.

Lemma append_assoc (a b c : string) : (a +:+ b) +:+ c = a +:+ b +:+ c.
Proof. induction a as [|x a IH]; [done|]. by rewrite !append_cons, IH. Qed.

Lemma append_nonempty (a b : string) : a <> "" -> a +:+ b <> "".
Proof. by destruct a. Qed.

Lemma decode_encode_field f t :
  field_ok f -> decode_field (encode_field f +:+ t) = Some (f, t).
Proof.
  destruct f as [tag [n|s]]; intros [Ht Hv]; cbn [fst snd] in *;
    unfold decode_field, encode_field; cbn [fst snd]; rewrite append_assoc.
  - rewrite decode_encode_varint by (unfold u64_max; lia). cbn [mbind option_bind].
    rewrite Z.div_mul, Z.mod_mul, (proj2 (Z.eqb_neq _ _)), (proj2 (Z.ltb_ge _ _)) by (unfold u32_max; lia).
    cbn [orb]. rewrite Z.eqb_refl. by rewrite decode_encode_varint.
  - rewrite decode_encode_varint by (unfold u64_max; lia). cbn [mbind option_bind].
    rewrite (Z.add_comm (tag * 8) 2), Z.div_add, Z.mod_add by lia.
    change (2 / 8 + tag) with tag.
    rewrite (proj2 (Z.eqb_neq _ _)), (proj2 (Z.ltb_ge _ _)) by (unfold u32_max; lia).
    cbn [orb]. change (2 mod 8) with 2. cbn [Z.eqb Pos.eqb].
    rewrite append_assoc, decode_encode_varint by (unfold str_len in *; lia). cbn [mbind option_bind].
    by rewrite split_bytes_app.
Qed.

Lemma length_append (a b : string) : String.length (a +:+ b) = (String.length a + String.length b)%nat.
Proof. induction a as [|x a IH]; [done|]. rewrite append_cons. cbn. by rewrite IH. Qed.

Lemma encode_field_nonempty f : encode_field f <> "".
Proof. destruct f as [tag [n|s]]; apply append_nonempty, encode_varint_nonempty. Qed.

Lemma decode_encode_fields fs fuel :
  Forall field_ok fs -> (String.length (encode_fields fs) <= fuel)%nat ->
  decode_fields fuel (encode_fields fs) = Some fs.
Proof.
  intros Hfs. revert fuel. induction Hfs as [|f fs Hf Hfs IH]; intros fuel Hl; [by destruct fuel|].
  cbn [encode_fields] in *. rewrite length_append in Hl.
  pose proof (encode_field_nonempty f) as Hne.
  destruct (encode_field f) as [|c s] eqn:E; [done|]. cbn in Hl. destruct fuel as [|fuel]; [lia|].
  rewrite append_cons. cbn [decode_fields]. rewrite <- append_cons, <- E, decode_encode_field by done. cbn [mbind option_bind].
  by rewrite IH by lia.
Qed.

(** ** Messages *)

(** What the derive generates for a struct: its default, the fields it writes
    and how a field read changes it. *)
Class ProstFields (P : Type) : Type := {
  message_default : P;
  to_fields : P -> list Field;
  merge_field : P -> Field -> option P;
}.

Fixpoint merge_fields {P} `{!ProstFields P} (p : P) (fs : list Field) : option P :=
  match fs with [] => Some p | f :: fs' => p ← merge_field p f; merge_fields p fs' end.

(** A message of the type is read back from the fields it is written as. *)
Class ProstFieldsLaws (P : Type) `{!ProstFields P} : Type := {
  message_ok : P -> Prop;
  to_fields_ok p : message_ok p -> Forall field_ok (to_fields p);
  merge_to_fields p : message_ok p -> merge_fields message_default (to_fields p) = Some p;
}.

#[export] Instance fields_message {P} `{!ProstFields P} : ProstMessage P := {
  encode_to_vec p := encode_fields (to_fields p);
  prost_decode s := ok_or (fs ← decode_fields (String.length s) s;
                           merge_fields message_default fs) "failed to decode Protobuf message";
}.

#[export] Instance fields_message_laws {P} `{!ProstFields P, !ProstFieldsLaws P} : ProstLaws P.
Proof.
  apply (Build_ProstLaws _ _ message_ok). intros p Hp. cbn.
  rewrite decode_encode_fields by first [by apply to_fields_ok|done]. cbn.
  by rewrite merge_to_fields.
Defined.

(** What each kind of field writes: [string] and [bytes], [optional], the
    integers. *)
Definition text_field (tag : Z) (s : string) : list Field :=
  if decide (s = "") then [] else [(tag, Delimited s)].
Definition optional_field (tag : Z) (o : option string) : list Field :=
  match o with None => [] | Some s => [(tag, Delimited s)] end.
Definition varint_field (tag : Z) (n : Z) : list Field :=
  if n =? 0 then [] else [(tag, Varint (n mod 2 ^ 64))].

(** [i64] read from the varint of its two's complement. *)
Definition to_i64 (n : Z) : Z := if n <? 2 ^ 63 then n else n - 2 ^ 64.

Section Merging.
Context {P : Type} `{!ProstFields P}.
Implicit Types (p : P) (fs : list Field).

Lemma merge_text tag s p (set : string -> P) fs :
  merge_field p (tag, Delimited s) = Some (set s) -> set "" = p ->
  merge_fields p (text_field tag s ++ fs) = merge_fields (set s) fs.
Proof.
  intros Hm Hd. unfold text_field. case_decide as E.
  - cbn. by rewrite E, Hd.
  - cbn. by rewrite Hm.
Qed.

Lemma merge_optional tag o p (set : option string -> P) fs :
  (forall s, o = Some s -> merge_field p (tag, Delimited s) = Some (set (Some s))) -> set None = p ->
  merge_fields p (optional_field tag o ++ fs) = merge_fields (set o) fs.
Proof.
  intros Hm Hd. destruct o as [s|]; cbn; [by rewrite Hm|by rewrite Hd].
Qed.

Lemma merge_varint tag n p (set : Z -> P) fs :
  merge_field p (tag, Varint (n mod 2 ^ 64)) = Some (set n) -> set 0 = p ->
  merge_fields p (varint_field tag n ++ fs) = merge_fields (set n) fs.
Proof.
  intros Hm Hd. unfold varint_field. destruct (Z.eqb_spec n 0) as [->|E]; cbn -[Z.modulo Z.pow].
  - by rewrite Hd.
  - by rewrite Hm.
Qed.
End Merging.

Lemma text_field_ok tag s : 1 <= tag < 2 ^ 29 -> str_len s <= u64_max -> Forall field_ok (text_field tag s).
Proof. intros. unfold text_field. case_decide; [apply Forall_nil_2|by apply Forall_singleton]. Qed.

Lemma optional_field_ok tag o :
  1 <= tag < 2 ^ 29 -> (forall s, o = Some s -> str_len s <= u64_max) ->
  Forall field_ok (optional_field tag o).
Proof. 
  intros ? Ho. destruct o; [|apply Forall_nil_2]. apply Forall_singleton. split; [done|by apply Ho].
Qed.

Lemma varint_field_ok tag n : 1 <= tag < 2 ^ 29 -> Forall field_ok (varint_field tag n).
Proof.
  intros. unfold varint_field. destruct (n =? 0); [apply Forall_nil_2|]. apply Forall_singleton. split; [done|]. cbn -[Z.modulo Z.pow].
  pose proof (Z.mod_pos_bound n (2 ^ 64) ltac:(lia)). unfold u64_max. lia.
Qed.

(** ** The entries of a map and the envelope *)

Section Envelope.
Context (is_utf8 : string -> bool).

(** A [String] field: its bytes must be UTF-8. *)
Definition read_text {A} (v : WireValue) (k : string -> A) : option A :=
  match v with
  | Delimited s => if is_utf8 s then Some (k s) else None
  | Varint _ => None
  end.
Definition read_bytes {A} (v : WireValue) (k : string -> A) : option A :=
  match v with Delimited s => Some (k s) | Varint _ => None end.
Definition read_varint {A} (v : WireValue) (k : Z -> A) : option A :=
  match v with Varint n => Some (k n) | Delimited _ => None end.

#[export] Instance entry_fields : ProstFields (string * string) := {
  message_default := ("", "");
  to_fields e := text_field 1 e.1 ++ text_field 2 e.2;
  merge_field e f :=
    match f.1 with
    | 1 => read_text f.2 (fun k => (k, e.2))
    | 2 => read_text f.2 (fun v => (e.1, v))
    | _ => Some e
    end;
}.

(** A value of the Rust type [String]. *)
Definition text_ok (s : string) : Prop := is_utf8 s = true /\ str_len s <= u64_max.

#[export] Instance entry_fields_laws : ProstFieldsLaws (string * string).
Proof.
  apply (Build_ProstFieldsLaws _ _ (fun e => text_ok e.1 /\ text_ok e.2)).
  - intros [k v] [[] []]. apply Forall_app. split; by apply text_field_ok.
  - intros [k v] [[Hk _] [Hv _]]. cbn [to_fields entry_fields fst snd message_default] in *.
    rewrite (merge_text 1 k _ (fun k => (k, ""))) by (cbn; by rewrite ?Hk).
    rewrite <- (app_nil_r (text_field 2 v)).
    by rewrite (merge_text 2 v _ (fun v => (k, v))) by (cbn; by rewrite ?Hv).
Defined.

(** A [BTreeMap]: one entry per key, in the order of the keys. *)
Definition btree_entries (m : gmap string string) : list (string * string) :=
  sort_by_key fst String.leb (map_to_list m).

Definition map_field (tag : Z) (m : gmap string string) : list Field :=
  map (fun e => (tag, Delimited (encode_to_vec e))) (btree_entries m).

#[export] Instance envelope_fields : ProstFields IntegrationEventEnvelope := {
  message_default := mkEnvelope "" "" 0 0 None None None "" None None "" ∅;
  to_fields e :=
    text_field 1 (env_event_id e) ++ text_field 2 (env_event_type e) ++
    varint_field 3 (env_schema_version e) ++ varint_field 4 (env_occurred_at_ms e) ++
    optional_field 5 (env_aggregate_id e) ++ optional_field 6 (env_correlation_id e) ++
    optional_field 7 (env_causation_id e) ++ text_field 8 (env_source e) ++
    optional_field 9 (env_tenant_id e) ++ optional_field 10 (env_trace_id e) ++
    text_field 11 (env_payload e) ++ map_field 12 (env_metadata e);
  merge_field e f :=
    let '(mkEnvelope id ty ver at_ agg cor cau src ten tr pl md) := e in
    match f.1 with
    | 1 => read_text f.2 (fun x => mkEnvelope x ty ver at_ agg cor cau src ten tr pl md)
    | 2 => read_text f.2 (fun x => mkEnvelope id x ver at_ agg cor cau src ten tr pl md)
    | 3 => read_varint f.2 (fun n => mkEnvelope id ty (n mod 2 ^ 32) at_ agg cor cau src ten tr pl md)
    | 4 => read_varint f.2 (fun n => mkEnvelope id ty ver (to_i64 n) agg cor cau src ten tr pl md)
    | 5 => read_text f.2 (fun x => mkEnvelope id ty ver at_ (Some x) cor cau src ten tr pl md)
    | 6 => read_text f.2 (fun x => mkEnvelope id ty ver at_ agg (Some x) cau src ten tr pl md)
    | 7 => read_text f.2 (fun x => mkEnvelope id ty ver at_ agg cor (Some x) src ten tr pl md)
    | 8 => read_text f.2 (fun x => mkEnvelope id ty ver at_ agg cor cau x ten tr pl md)
    | 9 => read_text f.2 (fun x => mkEnvelope id ty ver at_ agg cor cau src (Some x) tr pl md)
    | 10 => read_text f.2 (fun x => mkEnvelope id ty ver at_ agg cor cau src ten (Some x) pl md)
    | 11 => read_bytes f.2 (fun x => mkEnvelope id ty ver at_ agg cor cau src ten tr x md)
    | 12 => s ← read_bytes f.2 (fun x => x);
            match prost_decode s with
            | Ok (k, v) =>
                Some (mkEnvelope id ty ver at_ agg cor cau src ten tr pl (<[k := v]> md))
            | Err _ => None
            end
    | _ => Some e
    end;
}.

Definition option_ok (o : option string) : Prop := forall s, o = Some s -> text_ok s.

(** A value of the struct: every string is UTF-8 and the integers are in
    range. *)
Definition envelope_ok (e : IntegrationEventEnvelope) : Prop :=
  (text_ok (env_event_id e) /\ text_ok (env_event_type e) /\ text_ok (env_source e)) /\
  0 <= env_schema_version e <= u32_max /\ - 2 ^ 63 <= env_occurred_at_ms e < 2 ^ 63 /\
  (option_ok (env_aggregate_id e) /\ option_ok (env_correlation_id e) /\
   option_ok (env_causation_id e) /\ option_ok (env_tenant_id e) /\ option_ok (env_trace_id e)) /\
  str_len (env_payload e) <= u64_max /\
  map_Forall (fun k v => text_ok k /\ text_ok v /\ str_len (encode_to_vec (k, v)) <= u64_max)
    (env_metadata e).

Lemma btree_entries_perm m : btree_entries m ≡ₚ map_to_list m.
Proof. apply sort_by_key_perm. Qed.

Lemma btree_entries_Forall (Q : string -> string -> Prop) m :
  map_Forall Q m -> Forall (fun e => Q e.1 e.2) (btree_entries m).
Proof.
  intros Hm. rewrite btree_entries_perm. apply map_Forall_to_list in Hm.
  eapply Forall_impl; [exact Hm|]. by intros [].
Qed.

Lemma to_i64_mod n : - 2 ^ 63 <= n < 2 ^ 63 -> to_i64 (n mod 2 ^ 64) = n.
Proof.
  intros Hn. unfold to_i64. destruct (Z.le_gt_cases 0 n).
  - rewrite Z.mod_small, (proj2 (Z.ltb_lt _ _)) by lia. done.
  - replace (n mod 2 ^ 64) with (n + 2 ^ 64); [rewrite (proj2 (Z.ltb_ge _ _)) by lia; lia|].
    apply Z.mod_unique with (-1); lia.
Qed.

(** Inserting the entries one after the other rebuilds the map. *)
Lemma merge_entries es id ty ver at_ agg cor cau src ten tr pl md :
  Forall (fun e => text_ok e.1 /\ text_ok e.2 /\ str_len (encode_to_vec e) <= u64_max) es ->
  merge_fields (mkEnvelope id ty ver at_ agg cor cau src ten tr pl md)
    (map (fun e => (12, Delimited (encode_to_vec e))) es)
  = Some (mkEnvelope id ty ver at_ agg cor cau src ten tr pl
            (foldl (fun m e => <[e.1 := e.2]> m) md es)).
Proof.
  intros Hes. revert md. induction Hes as [|[k v] es (Hk & Hv & _) _ IH]; intros md; [done|].
  cbn -[prost_decode encode_to_vec]. rewrite prost_roundtrip by done. apply IH.
Qed.

Lemma foldl_insert_disjoint (es : list (string * string)) (md : gmap string string) :
  NoDup es.*1 -> foldl (fun m e => <[e.1 := e.2]> m) md es = list_to_map es ∪ md.
Proof.
  revert md. induction es as [|[k v] es IH]; intros md Hnd; cbn; [by rewrite map_empty_union|].
  apply NoDup_cons in Hnd as [Hk Hnd]. rewrite IH by done.
  rewrite <- insert_union_r by by apply not_elem_of_list_to_map_1. by rewrite insert_union_l.
Qed.

Lemma btree_entries_insert m : foldl (fun m e => <[e.1 := e.2]> m) ∅ (btree_entries m) = m.
Proof.
  assert (NoDup (btree_entries m).*1) as Hnd
    by (rewrite btree_entries_perm; apply NoDup_fst_map_to_list).
  rewrite foldl_insert_disjoint, map_union_empty by done.
  rewrite (list_to_map_proper _ (map_to_list m)) by (done || apply btree_entries_perm).
  apply list_to_map_to_list.
Qed.

Lemma envelope_fields_ok e : envelope_ok e -> Forall field_ok (to_fields e).
Proof.
  intros ((Hi & Ht & Hs) & _ & _ & (Ha & Hc & Hca & Hte & Htr) & Hp & Hm). cbn.
  repeat (apply Forall_app; split);
    first [apply text_field_ok; [done|first [exact (proj2 Hi)|exact (proj2 Ht)|exact (proj2 Hs)|exact Hp]]
          |by apply varint_field_ok
          |apply optional_field_ok; [done|]; intros s Hs';
             first [exact (proj2 (Ha s Hs'))|exact (proj2 (Hc s Hs'))|exact (proj2 (Hca s Hs'))
                   |exact (proj2 (Hte s Hs'))|exact (proj2 (Htr s Hs'))]
          |idtac].
  apply Forall_map. eapply Forall_impl; [apply btree_entries_Forall, Hm|].
  intros [k v] (_ & _ & Hl). by split.
Qed.

Lemma envelope_merge e : envelope_ok e -> merge_fields message_default (to_fields e) = Some e.
Proof.
  destruct e as [id ty ver at_ agg cor cau src ten tr pl md].
  intros (([Hi _] & [Ht _] & [Hs _]) & Hv & Hat & (Ha & Hc & Hca & Hte & Htr) & _ & Hm).
  cbn [to_fields envelope_fields message_default env_event_id env_event_type env_schema_version
    env_occurred_at_ms env_aggregate_id env_correlation_id env_causation_id env_source env_tenant_id
    env_trace_id env_payload env_metadata] in *.
  rewrite (merge_text 1 id _ (fun x => mkEnvelope x "" 0 0 None None None "" None None "" ∅))
    by (cbn; by rewrite ?Hi).
  rewrite (merge_text 2 ty _ (fun x => mkEnvelope id x 0 0 None None None "" None None "" ∅))
    by (cbn; by rewrite ?Ht).
  rewrite (merge_varint 3 ver _ (fun n => mkEnvelope id ty n 0 None None None "" None None "" ∅)); cycle 1.
  { cbn -[Z.modulo Z.pow]. unfold u32_max in Hv. by rewrite (Z.mod_small ver (2 ^ 64)), (Z.mod_small ver (2 ^ 32)) by lia. }
  { done. }
  rewrite (merge_varint 4 at_ _ (fun n => mkEnvelope id ty ver n None None None "" None None "" ∅)); cycle 1.
  { cbn -[Z.modulo Z.pow to_i64]. by rewrite to_i64_mod. }
  { done. }
  rewrite (merge_optional 5 agg _ (fun o => mkEnvelope id ty ver at_ o None None "" None None "" ∅)); cycle 1.
  { intros s E. cbn. by rewrite (proj1 (Ha s E)). }
  { done. }
  rewrite (merge_optional 6 cor _ (fun o => mkEnvelope id ty ver at_ agg o None "" None None "" ∅)); cycle 1.
  { intros s E. cbn. by rewrite (proj1 (Hc s E)). }
  { done. }
  rewrite (merge_optional 7 cau _ (fun o => mkEnvelope id ty ver at_ agg cor o "" None None "" ∅)); cycle 1.
  { intros s E. cbn. by rewrite (proj1 (Hca s E)). }
  { done. }
  rewrite (merge_text 8 src _ (fun x => mkEnvelope id ty ver at_ agg cor cau x None None "" ∅))
    by (cbn; by rewrite ?Hs).
  rewrite (merge_optional 9 ten _ (fun o => mkEnvelope id ty ver at_ agg cor cau src o None "" ∅)); cycle 1.
  { intros s E. cbn. by rewrite (proj1 (Hte s E)). }
  { done. }
  rewrite (merge_optional 10 tr _ (fun o => mkEnvelope id ty ver at_ agg cor cau src ten o "" ∅)); cycle 1.
  { intros s E. cbn. by rewrite (proj1 (Htr s E)). }
  { done. }
  rewrite (merge_text 11 pl _ (fun x => mkEnvelope id ty ver at_ agg cor cau src ten tr x ∅)) by done.
  unfold map_field. rewrite merge_entries; [by rewrite btree_entries_insert|].
  eapply Forall_impl; [apply btree_entries_Forall, Hm|]. by intros [k v].
Qed.

(** The envelope is a lawful message: [Proto] applies to these bytes. *)
#[export] Instance envelope_fields_laws : ProstFieldsLaws IntegrationEventEnvelope :=
  Build_ProstFieldsLaws _ _ envelope_ok envelope_fields_ok envelope_merge.
End Envelope.
