(* ===== verification/Registries.v ===== *)
(** * Schema registry and consumer groups

    Models crates/pharos-messaging/src: schema_registry.rs and
    consumer_group.rs, with their in-memory implementations
    crates/pharos-memory/src/in_memory_schema_registry.rs and
    in_memory_consumer_group.rs. *)

From S2P Require Import Prelude.
Local Open Scope Z_scope.

(** ** Schemas (schema_registry.rs) *)

Record EventSchema := mkEventSchema {
  sc_event_type : string;
  sc_version : Z;
  sc_format : string;
  sc_schema : string;
  sc_registered_at : Instant;
}.

#[export] Instance EventSchema_eq_dec : EqDecision EventSchema.
Proof. solve_decision. Defined.

Definition EventSchema_new {W} `{!Env W} (event_type : string) (version : Z)
  (format schema : string) : M W EventSchema :=
  do! now <- utc_now; ret (mkEventSchema event_type version format schema now).

Inductive SchemaRegistryError :=
| SchemaNotFound (event_type : string) (version : Z)
| SchemaStorage (e : string).

(** The [SchemaRegistry] trait. *)
Class SchemaRegistry (W : Type) : Type := {
  schema_register : EventSchema -> M W (result unit SchemaRegistryError);
  schema_get : string -> Z -> M W (result (option EventSchema) SchemaRegistryError);
  schema_latest : string -> M W (result (option EventSchema) SchemaRegistryError);
}.

(** [Iterator::max_by_key]: the last of the greatest elements. *)
Definition max_by_key {A} (key : A -> Z) (l : list A) : option A :=
  foldl (fun best x => match best with
                       | Some b => if key x <? key b then Some b else Some x
                       | None => Some x
                       end) None l.

Record InMemorySchemaRegistry := mkSchemas { schemas : gmap (string * Z) EventSchema }.

Definition schema_key (s : EventSchema) : string * Z := (sc_event_type s, sc_version s).

Section SchemaOps.
Context {W : Type} `{!Lens W InMemorySchemaRegistry, !MapIter (string * Z) EventSchema}.

Definition InMemorySchemaRegistry_register (s : EventSchema) : M W (result unit SchemaRegistryError) :=
  do! r <- mget; do! _ <- mput (mkSchemas (<[schema_key s := s]> (schemas r))); ret (Ok tt).

Definition InMemorySchemaRegistry_get (event_type : string) (version : Z)
  : M W (result (option EventSchema) SchemaRegistryError) :=
  do! r <- mget; ret (Ok (schemas r !! (event_type, version))).

Definition InMemorySchemaRegistry_latest (event_type : string)
  : M W (result (option EventSchema) SchemaRegistryError) :=
  do! r <- mget;
  ret (Ok (snd <$> max_by_key (fun e => e.1.2)
             (filter (fun e => e.1.1 = event_type) (map_iter (schemas r))))).

#[export] Instance InMemorySchemaRegistry_registry : SchemaRegistry W := {
  schema_register := InMemorySchemaRegistry_register;
  schema_get := InMemorySchemaRegistry_get;
  schema_latest := InMemorySchemaRegistry_latest;
}.
End SchemaOps.

(** ** Consumer groups (consumer_group.rs) *)

Record PartitionAssignment := mkPartitionAssignment {
  pa_group : string;
  pa_consumer_id : string;
  pa_topic : string;
  pa_partition : Z;
}.

Inductive ConsumerGroupError := Coordination (e : string).

(** The [ConsumerGroupCoordinator] trait. *)
Class ConsumerGroupCoordinator (W : Type) : Type := {
  group_join : string -> string -> list string -> M W (result (list PartitionAssignment) ConsumerGroupError);
  group_leave : string -> string -> M W (result unit ConsumerGroupError);
  group_assignments : string -> M W (result (list PartitionAssignment) ConsumerGroupError);
}.

Record InMemoryConsumerGroups := mkConsumerGroups {
  cg_assignments : gmap string (list PartitionAssignment);
}.

(** [usize as i32] *)
Definition as_i32 (n : nat) : Z := (Z.of_nat n + 2 ^ 31) mod 2 ^ 32 - 2 ^ 31.

Section GroupOps.
Context {W : Type} `{!Lens W InMemoryConsumerGroups}.

Definition InMemoryConsumerGroups_join (group consumer_id : string) (topics : list string)
  : M W (result (list PartitionAssignment) ConsumerGroupError) :=
  let assignments :=
    imap (fun partition topic => mkPartitionAssignment group consumer_id topic (as_i32 partition))
      topics in
  do! s <- mget;
  do! _ <- mput (mkConsumerGroups (<[group := assignments]> (cg_assignments s)));
  ret (Ok assignments).

Definition InMemoryConsumerGroups_leave (group consumer_id : string)
  : M W (result unit ConsumerGroupError) :=
  do! s <- mget;
  do! _ <- mput (mkConsumerGroups
                   (alter (filter (fun a => pa_consumer_id a <> consumer_id)) group
                      (cg_assignments s)));
  ret (Ok tt).

Definition InMemoryConsumerGroups_assignments (group : string)
  : M W (result (list PartitionAssignment) ConsumerGroupError) :=
  do! s <- mget; ret (Ok (default [] (cg_assignments s !! group))).

#[export] Instance InMemoryConsumerGroups_coordinator : ConsumerGroupCoordinator W := {
  group_join := InMemoryConsumerGroups_join;
  group_leave := InMemoryConsumerGroups_leave;
  group_assignments := InMemoryConsumerGroups_assignments;
}.
End GroupOps.

(** ** Lemmas on the greatest element *)

Lemma max_by_key_spec {A} (key : A -> Z) l :
  match max_by_key key l with
  | Some x => x ∈ l /\ forall y, y ∈ l -> key y <= key x
  | None => l = []
  end.
Proof.
  unfold max_by_key. induction l as [|y l IH] using rev_ind; [done|].
  rewrite foldl_snoc. destruct (foldl _ None l) as [b|].
  - destruct IH as [Hin Hmax]. destruct (key y <? key b) eqn:E.
    + split; [set_solver|]. intros z [Hz|[->|[]%not_elem_of_nil]%elem_of_cons]%elem_of_app;
        [by apply Hmax|lia].
    + split; [set_solver|]. intros z [Hz|[->|[]%not_elem_of_nil]%elem_of_cons]%elem_of_app;
        [|lia]. specialize (Hmax z Hz). lia.
  - subst l. split; [set_solver|]. intros z [->|[]%not_elem_of_nil]%elem_of_cons. done.
Qed.

(** ** What the registry holds *)

(** The schema a history of registrations leaves under a key: the last one
    registered for it. *)
Definition registered (hist : list EventSchema) (k : string * Z) : option EventSchema :=
  last (filter (fun s => schema_key s = k) hist).

Lemma registered_snoc hist s k :
  registered (hist ++ [s]) k = if decide (schema_key s = k) then Some s else registered hist k.
Proof.
  unfold registered. rewrite filter_app, filter_cons, filter_nil. case_decide.
  - by rewrite last_snoc.
  - by rewrite app_nil_r.
Qed.

Lemma registered_Some hist k s : registered hist k = Some s -> s ∈ hist /\ schema_key s = k.
Proof.
  unfold registered. intros H%last_Some_elem_of. apply list_elem_of_filter in H. tauto.
Qed.

Lemma registered_is_Some hist s : s ∈ hist -> is_Some (registered hist (schema_key s)).
Proof.
  intros Hin. unfold registered. apply last_is_Some. intros Hn.
  apply (not_elem_of_nil s). rewrite <- Hn. by apply list_elem_of_filter.
Qed.

Section Registry.
Context {W : Type} `{!Lens W InMemorySchemaRegistry, !LensLaws W InMemorySchemaRegistry}
  `{!MapIter (string * Z) EventSchema}.

(** The registry of world [w] is the outcome of the registrations [hist]. *)
Definition registry_of (hist : list EventSchema) (w : W) : Prop :=
  forall k, schemas (lget w) !! k = registered hist k.

Lemma register_extends hist s w :
  registry_of hist w ->
  exists w', InMemorySchemaRegistry_register s w = (Ok tt, w') /\ registry_of (hist ++ [s]) w'.
Proof.
  intros Hw. eexists. split; [done|]. intros k. cbn. rewrite lget_lset. cbn.
  rewrite registered_snoc, lookup_insert. case_decide; [done|]. apply Hw.
Qed.

Lemma register_all hist hist' w :
  registry_of hist w ->
  exists w', try_each InMemorySchemaRegistry_register hist' w = (Ok tt, w') /\
             registry_of (hist ++ hist') w'.
Proof.
  revert hist w. induction hist' as [|s hist' IH]; intros hist w Hw.
  - exists w. by rewrite app_nil_r.
  - destruct (register_extends hist s w Hw) as (w1 & H1 & Hw1).
    destruct (IH _ _ Hw1) as (w2 & H2 & Hw2). exists w2.
    rewrite <- app_assoc in Hw2. cbn [try_each]. unfold tbind. by rewrite H1, H2.
Qed.

Lemma latest_newest hist ty w :
  registry_of hist w ->
  exists o, InMemorySchemaRegistry_latest ty w = (Ok o, w) /\
  match o with
  | Some s => registered hist (ty, sc_version s) = Some s /\
              forall s', s' ∈ hist -> sc_event_type s' = ty -> sc_version s' <= sc_version s
  | None => forall s', s' ∈ hist -> sc_event_type s' <> ty
  end.
Proof.
  intros Hw. eexists. split; [done|].
  pose proof (max_by_key_spec (fun e : string * Z * EventSchema => e.1.2)
    (filter (fun e => e.1.1 = ty) (map_iter (schemas (lget w))))) as Hm.
  assert (Hentry : forall s', s' ∈ hist -> sc_event_type s' = ty -> exists s1,
    ((ty, sc_version s'), s1) ∈ filter (fun e => e.1.1 = ty) (map_iter (schemas (lget w)))).
  { intros s' Hin <-. destruct (registered_is_Some hist s' Hin) as [s1 Hs1].
    exists s1. apply list_elem_of_filter. split; [done|]. apply map_iter_elem. by rewrite Hw. }
  destruct (max_by_key _ _) as [[[ty0 v] s]|]; cbn.
  - destruct Hm as [Hin Hmax]. apply list_elem_of_filter in Hin as [Hty Hin]. cbn in Hty. subst ty0.
    apply map_iter_elem in Hin. rewrite Hw in Hin.
    destruct (registered_Some _ _ _ Hin) as [_ Hk]. injection Hk as Hk1 Hk2. subst.
    split; [done|]. intros s' Hs' Ht. destruct (Hentry s' Hs' Ht) as [s1 H1].
    exact (Hmax _ H1).
  - intros s' Hs' Ht. destruct (Hentry s' Hs' Ht) as [s1 H1]. rewrite Hm in H1.
    by apply not_elem_of_nil in H1.
Qed.

(** Whatever is registered, in whatever order and however often, [get]
    answers with the schema last registered for an event type and version,
    and [latest] with the one of the greatest version registered for the type,
    in whichever order the map is walked; it answers nothing exactly when
    nothing was registered for the type. *)
Theorem schema_registry_newest hist w :
  schemas (lget w) = ∅ ->
  exists w', try_each schema_register hist w = (Ok tt, w') /\
    (forall ty v, schema_get ty v w' = (Ok (registered hist (ty, v)), w')) /\
    (forall ty, exists o, schema_latest ty w' = (Ok o, w') /\
       match o with
       | Some s => registered hist (ty, sc_version s) = Some s /\
                   forall s', s' ∈ hist -> sc_event_type s' = ty -> sc_version s' <= sc_version s
       | None => forall s', s' ∈ hist -> sc_event_type s' <> ty
       end).
Proof.
  intros H0. destruct (register_all [] hist w) as (w' & Hr & Hw').
  { intros k. by rewrite H0, lookup_empty. }
  exists w'. split; [done|]. split.
  - intros ty v. cbn. unfold InMemorySchemaRegistry_get, bind, mget, ret. by rewrite Hw'.
  - intros ty. by apply latest_newest.
Qed.
End Registry.

Lemma schema_registry_newest_witness :
  let placed v := mkEventSchema "OrderPlaced" v "json-schema" "{}" v in
  let hist := [placed 2; placed 3; placed 1] in
  exists w' : InMemorySchemaRegistry,
    try_each schema_register hist (mkSchemas ∅) = (Ok tt, w') /\
    (schema_get "OrderPlaced" 3 w').1 = Ok (Some (placed 3)) /\
    (schema_latest "OrderPlaced" w').1 = Ok (Some (placed 3)).
Proof.
  intros placed hist.
  destruct (schema_registry_newest (W := InMemorySchemaRegistry) hist (mkSchemas ∅))
    as (w' & Hr & Hget & Hlatest); [done|].
  exists w'. split; [exact Hr|]. split; [by rewrite Hget|].
  destruct (Hlatest "OrderPlaced") as ([s|] & Hl & Hs).
  - rewrite Hl. cbn [fst]. destruct Hs as [Hs Hmax]. do 2 f_equal.
    apply registered_Some in Hs as [Hin _].
    assert (H3 : 3 <= sc_version s) by (apply (Hmax (placed 3)); [unfold hist; set_solver|done]).
    unfold hist in Hin. apply elem_of_cons in Hin as [->|Hin]; [by cbn in H3|].
    apply elem_of_cons in Hin as [->|Hin]; [done|].
    apply list_elem_of_singleton in Hin as ->. by cbn in H3.
  - exfalso. apply (Hs (placed 3)); [|done]. unfold hist. set_solver.
Defined.

(** ** What a group assigns *)

Section Groups.
Context {W : Type} `{!Lens W InMemoryConsumerGroups, !LensLaws W InMemoryConsumerGroups}.

Definition assigned (group : string) (w : W) : list PartitionAssignment :=
  default [] (cg_assignments (lget w) !! group).

(** Leaving takes away the consumer's own assignments and nothing else. *)
Lemma leave_only_own group consumer w :
  let w' := (group_leave group consumer w).2 in
  assigned group w' = filter (fun a => pa_consumer_id a <> consumer) (assigned group w) /\
  forall other, other <> group -> assigned other w' = assigned other w.
Proof.
  cbn. unfold assigned. rewrite lget_lset. cbn. split.
  - rewrite lookup_alter_eq. by destruct (cg_assignments (lget w) !! group).
  - intros other Hne. by rewrite lookup_alter_ne.
Qed.

(** Joining a group leaves the newcomer as its only member: whatever
    another consumer had been assigned is gone from the group, although that
    consumer did not leave and goes on working on its partitions. *)
Theorem join_evicts_members group consumer topics w :
  let w' := (group_join group consumer topics w).2 in
  Forall (fun a => pa_consumer_id a = consumer) (assigned group w') /\
  length (assigned group w') = length topics /\
  (forall member a, member <> consumer -> a ∈ assigned group w ->
     pa_consumer_id a = member -> a ∉ assigned group w').
Proof.
  cbn. unfold assigned. rewrite lget_lset. cbn. rewrite lookup_insert_eq. cbn.
  assert (Hall : Forall (fun a => pa_consumer_id a = consumer)
    (imap (fun partition topic => mkPartitionAssignment group consumer topic (as_i32 partition)) topics)).
  { apply Forall_forall. intros a Ha. apply elem_of_lookup_imap in Ha as (i & x & -> & _). done. }
  split; [done|]. split; [apply length_imap|]. intros member a Hne _ Hm Ha.
  apply (proj1 (Forall_forall _ _) Hall) in Ha. congruence.
Qed.
End Groups.

Lemma join_evicts_members_witness :
  let w0 := (group_join "workers" "a" ["orders"; "refunds"] (mkConsumerGroups ∅)).2 in
  let w1 := (group_join "workers" "b" ["orders"] w0).2 in
  length (assigned "workers" w0) = 2%nat /\
  (forall a, a ∈ assigned "workers" w0 -> a ∉ assigned "workers" w1) /\
  length (assigned "workers" w1) = 1%nat.
Proof.
  intros w0 w1.
  destruct (join_evicts_members (W := InMemoryConsumerGroups) "workers" "b" ["orders"] w0)
    as (_ & Hlen & Hgone).
  assert (Ha : Forall (fun a => pa_consumer_id a = "a") (assigned "workers" w0))
    by (vm_compute; repeat constructor).
  split; [reflexivity|]. split; [|exact Hlen].
  intros a Hin. apply (Hgone "a" a); [done|done|].
  by apply (proj1 (Forall_forall _ _) Ha).
Defined.
