(* ===== verification/Contract.v ===== *)
(** * The conformance kit for adapters

    Models crates/pharos-testing/src: the suites of contract/ (repository.rs,
    outbox.rs, inbox.rs, dead_letter.rs, event_store.rs, messaging.rs,
    saga.rs, schema_registry.rs, transactional.rs) with their fixtures, as
    programs over the interfaces of the other files.

    A suite answers [Some (Ok tt)] when the adapter conforms, [None] when an
    assertion panics, and [Some (Err e)] when a call it did not expect to fail
    did.  Conformance runs the suites against the in-memory adapters, and
    against adapters with defects they are there to find. *)

From S2P Require Import Prelude Core Messaging Outbox.
From S2P Require Import Inbox Saga EventSourcing UnitOfWork Registries.
Local Open Scope Z_scope.

(** ** Assertions and boxed errors *)

Notation "'assert!' b ; k" := (if b then k else ret None)
  (at level 10, b at level 100, k at level 200) : pharos_scope.

(** [call.await?] in a function that returns [Box<dyn Error>]. *)
Definition boxed {W A E} (display : E -> string) (c : M W (result A E)) : M W (result A string) :=
  mmap (map_err display) c.

Definition is_none {A} (o : option A) : bool := match o with None => true | Some _ => false end.
Definition is_empty {A} (l : list A) : bool := match l with [] => true | _ => false end.

(** ** Fixtures (contract/fixtures.rs) *)

Record ContractEvent := mkContractEvent {
  ce_aggregate_id : string;
  ce_occurred_at : Instant;
  ce_label : string;
}.

Record ContractAggregate := mkContractAggregate {
  ca_id : Uuid;
  ca_version : Z;
  ca_label : string;
  ca_events : AggregateEvents ContractEvent;
}.

#[export] Instance ContractAggregate_root : AggregateRoot ContractAggregate Uuid ContractEvent := {
  agg_id := ca_id;
  pending_events a := pending (ca_events a);
  drain_events a :=
    let '(es, b) := AggregateEvents_drain (ca_events a) in
    (es, mkContractAggregate (ca_id a) (ca_version a) (ca_label a) b);
  restore_events es a :=
    mkContractAggregate (ca_id a) (ca_version a) (ca_label a)
      (AggregateEvents_restore es (ca_events a));
  version := ca_version;
  set_version v a := mkContractAggregate (ca_id a) v (ca_label a) (ca_events a);
}.

Section Fixtures.
Context {W : Type} `{!Env W}.

Definition ContractAggregate_new (id : Uuid) (label : string) : M W ContractAggregate :=
  do! now <- utc_now;
  ret (mkContractAggregate id 0 label
         (AggregateEvents_raise (mkContractEvent (uuid_to_string id) now label)
            AggregateEvents_default)).

Definition ContractAggregate_relabel (label : string) (a : ContractAggregate)
  : M W ContractAggregate :=
  do! now <- utc_now;
  ret (mkContractAggregate (ca_id a) (ca_version a) label
         (AggregateEvents_raise (mkContractEvent (uuid_to_string (ca_id a)) now label)
            (ca_events a))).

(** [Message::new] draws the identifier. *)
Definition new_message (topic payload content_type : string) : M W Message :=
  do! id <- uuid_now_v7; ret (Message_new id topic payload content_type).
End Fixtures.

(** ** Repositories (contract/repository.rs) *)

Section RepositorySuite.
Context {W E : Type} `{!Env W, !Repository W ContractAggregate Uuid E} (display : E -> string).

Definition saving (r : result unit (RepositoryError E)) : result unit string :=
  map_err (RepositoryError_to_string display) r.

Definition repository_run : M W (option (result unit string)) :=
  do! id <- uuid_now_v7;
  ptry! found <- boxed display (find_by_id id);
  assert! is_none found;
  do! aggregate <- ContractAggregate_new id "first";
  do! s1 <- repo_save aggregate;
  ptry! _ <- ret (saving s1.1);
  assert! version s1.2 =? 1;
  ptry! found <- boxed display (find_by_id id);
  ptry! loaded <- ret (ok_or found "saved aggregate not found by find_by_id");
  assert! agg_id loaded =? id;
  assert! bool_decide (ca_label loaded = "first");
  assert! version loaded =? 1;
  assert! is_empty (pending_events loaded);
  do! to_update <- ContractAggregate_relabel "second" loaded;
  do! s2 <- repo_save to_update;
  ptry! _ <- ret (saving s2.1);
  assert! version s2.2 =? 2;
  ptry! found <- boxed display (find_by_id id);
  ptry! loaded <- ret (ok_or found "updated aggregate not found by find_by_id");
  assert! bool_decide (ca_label loaded = "second");
  assert! version loaded =? 2;
  do! stale <- ContractAggregate_new id "stale";
  do! s3 <- repo_save (set_version 1 stale);
  match s3.1 with
  | Err (ConcurrencyConflict expected actual) =>
      assert! expected =? 1;
      assert! bool_decide (actual = Some 2);
      ptry! found <- boxed display (find_by_id id);
      ptry! loaded <- ret (ok_or found "aggregate disappeared after a rejected stale save");
      assert! bool_decide (ca_label loaded = "second");
      ptry! _ <- boxed display (repo_delete id);
      ptry! found <- boxed display (find_by_id id);
      assert! is_none found;
      ret (Some (Ok tt))
  | _ => ret None
  end.
End RepositorySuite.

(** ** Inboxes (contract/inbox.rs) *)

Section InboxSuite.
Context {W : Type} `{!Env W, !InboxStore W} (display : InboxError -> string).

Definition inbox_run : M W (option (result unit string)) :=
  do! message_id <- uuid_now_v7;
  let consumer := "billing" in
  ptry! d <- boxed display (begin_processing message_id consumer);
  assert! bool_decide (d = StartProcessing);
  ptry! d <- boxed display (begin_processing message_id consumer);
  assert! bool_decide (d = AlreadyProcessing);
  ptry! found <- boxed display (inbox_get message_id consumer);
  ptry! record <- ret (ok_or found "a processing record must be gettable");
  assert! ib_message_id record =? message_id;
  assert! bool_decide (ib_status record = IProcessing);
  ptry! _ <- boxed display (inbox_mark_completed message_id consumer);
  ptry! d <- boxed display (begin_processing message_id consumer);
  assert! bool_decide (d = AlreadyCompleted);
  ptry! found <- boxed display (inbox_get message_id consumer);
  ptry! completed <- ret (ok_or found "a completed record must be gettable");
  assert! bool_decide (ib_status completed = ICompleted);
  do! failing_id <- uuid_now_v7;
  ptry! _ <- boxed display (begin_processing failing_id consumer);
  ptry! _ <- boxed display (inbox_mark_failed failing_id consumer "handler panicked");
  ptry! d <- boxed display (begin_processing failing_id consumer);
  assert! bool_decide (d = RetryPreviousFailure);
  ptry! found <- boxed display (inbox_get failing_id consumer);
  ptry! failed <- ret (ok_or found "a failed record must be gettable");
  assert! bool_decide (ib_last_error failed = Some "handler panicked");
  ptry! _ <- boxed display (inbox_mark_completed failing_id consumer);
  ptry! d <- boxed display (begin_processing failing_id consumer);
  assert! bool_decide (d = AlreadyCompleted);
  ptry! d <- boxed display (begin_processing message_id "shipping");
  assert! bool_decide (d = StartProcessing);
  ret (Some (Ok tt)).
End InboxSuite.

(** ** Outboxes (contract/outbox.rs) *)

Section OutboxSuite.
Context {W : Type} `{!Env W, !OutboxRepository W} (display : OutboxError -> string).

Definition new_outbox_message (payload : string) : M W OutboxMessage :=
  do! m <- new_message "orders" payload "application/json"; OutboxMessage_new m.

Definition has_id (id : Uuid) (l : list OutboxMessage) : bool :=
  existsb (fun m => ob_id m =? id) l.

Definition outbox_run : M W (option (result unit string)) :=
  do! published <- new_outbox_message "a";
  let published_id := ob_id published in
  ptry! _ <- boxed display (outbox_insert published);
  ptry! claimed <- boxed display (outbox_pending 10);
  assert! has_id published_id claimed;
  ptry! _ <- boxed display (outbox_record_attempt published_id);
  ptry! _ <- boxed display (outbox_mark_published published_id);
  ptry! after_publish <- boxed display (outbox_pending 10);
  assert! negb (has_id published_id after_publish);
  ptry! never_failed <- boxed display (outbox_failed 10);
  assert! negb (has_id published_id never_failed);
  do! failing <- new_outbox_message "b";
  let failing_id := ob_id failing in
  ptry! _ <- boxed display (outbox_insert failing);
  ptry! _ <- boxed display (outbox_pending 10);
  ptry! _ <- boxed display (outbox_mark_failed failing_id "broker unreachable");
  ptry! failed <- boxed display (outbox_failed 10);
  ptry! record <- ret (ok_or (snd <$> list_find (fun m => ob_id m = failing_id) failed)
                         "a message marked failed must appear in `failed`");
  assert! bool_decide (ob_status record = Failed);
  assert! bool_decide (ob_last_error record = Some "broker unreachable");
  ptry! _ <- boxed display (outbox_mark_dead_lettered failing_id);
  ptry! failed_after_dlq <- boxed display (outbox_failed 10);
  assert! negb (has_id failing_id failed_after_dlq);
  do! c <- new_outbox_message "c";
  do! d <- new_outbox_message "d";
  ptry! _ <- boxed display (outbox_insert_many [c; d]);
  ptry! claimed <- boxed display (outbox_pending 10);
  assert! forallb (fun id => has_id id claimed) [ob_id c; ob_id d];
  ret (Some (Ok tt)).

Definition count_id (id : Uuid) (l : list OutboxMessage) : nat :=
  length (filter (fun m => ob_id m = id) l).

(** The two calls of [futures::join!] have no suspension point, so each is
    polled to its end in turn. *)
Definition no_double_claim : M W (option (result unit string)) :=
  do! message <- new_outbox_message "race";
  let id := ob_id message in
  ptry! _ <- boxed display (outbox_insert message);
  do! a <- outbox_pending 10;
  do! b <- outbox_pending 10;
  ptry! a <- ret (map_err display a);
  ptry! b <- ret (map_err display b);
  assert! (count_id id a + count_id id b =? 1)%nat;
  ret (Some (Ok tt)).
End OutboxSuite.

(** ** Dead letters (contract/dead_letter.rs) *)

Section DeadLetterSuite.
Context {W : Type} `{!Env W, !DeadLetterQueue W} (display : DeadLetterError -> string).

Definition dead_letter_run : M W (option (result unit string)) :=
  do! m <- new_message "orders" "payload" "application/json";
  do! message <- DeadLetterMessage_new m "handler panicked" 3;
  let id := dl_id message in
  ptry! _ <- boxed display (dead_letter message);
  ptry! listed <- boxed display (dead_letter_list 10);
  ptry! record <- ret (ok_or (snd <$> list_find (fun m => dl_id m = id) listed)
                         "a dead-lettered message must appear in list");
  assert! bool_decide (dl_reason record = "handler panicked");
  assert! dl_attempts record =? 3;
  ptry! _ <- try_each (fun i : nat =>
               do! m <- new_message "orders" (String (Ascii.ascii_of_nat i) "") "application/json";
               do! d <- DeadLetterMessage_new m "reason" 1;
               boxed display (dead_letter d)) (seq 0 3);
  ptry! limited <- boxed display (dead_letter_list 2);
  assert! (length limited <=? 2)%nat;
  ret (Some (Ok tt)).
End DeadLetterSuite.

(** ** Event and snapshot stores (contract/event_store.rs) *)

Section EventStoreSuite.
Context {W E : Type} `{!Env W, !EventStore W Uuid ContractEvent E} (display : E -> string).

Definition contract_event (id : Uuid) (label : string) : M W ContractEvent :=
  do! now <- utc_now; ret (mkContractEvent (uuid_to_string id) now label).

Definition appended (c : M W (result unit (RepositoryError E))) : M W (result unit string) :=
  boxed (RepositoryError_to_string display) c.

Definition event_store_run : M W (option (result unit string)) :=
  do! id <- uuid_now_v7;
  ptry! loaded <- boxed display (es_load id);
  assert! is_empty loaded;
  do! created <- contract_event id "created";
  ptry! _ <- appended (es_append id 0 [created]);
  ptry! loaded <- boxed display (es_load id);
  assert! bool_decide (((fun s => (sequence s, ce_label (event s))) <$> loaded) = [(1, "created")]);
  do! duplicate <- contract_event id "duplicate";
  do! stale <- es_append id 0 [duplicate];
  assert! match stale with Err (ConcurrencyConflict 0 (Some 1)) => true | _ => false end;
  ptry! loaded <- boxed display (es_load id);
  assert! (length loaded =? 1)%nat;
  do! confirmed <- contract_event id "confirmed";
  do! shipped <- contract_event id "shipped";
  ptry! _ <- appended (es_append id 1 [confirmed; shipped]);
  ptry! loaded <- boxed display (es_load id);
  assert! (length loaded =? 3)%nat;
  assert! bool_decide ((sequence <$> loaded) = [1; 2; 3]);
  ptry! after_first <- boxed display (load_after id 1);
  assert! (length after_first =? 2)%nat;
  assert! bool_decide (((fun s => (sequence s, ce_label (event s))) <$> head after_first)
                       = Some (2, "confirmed"));
  ptry! _ <- boxed display (es_delete_stream id);
  ptry! loaded <- boxed display (es_load id);
  assert! is_empty loaded;
  do! recreated <- contract_event id "recreated";
  ptry! _ <- appended (es_append id 0 [recreated]);
  ret (Some (Ok tt)).
End EventStoreSuite.

Section SnapshotSuite.
Context {W E : Type} `{!Env W, !SnapshotStore W Uuid Z E} (display : E -> string).

Definition snapshot_store_run : M W (option (result unit string)) :=
  do! id <- uuid_now_v7;
  ptry! found <- boxed display (snap_load id);
  assert! is_none found;
  do! s <- Snapshot_new 10 3;
  ptry! _ <- boxed display (snap_save id s);
  ptry! found <- boxed display (snap_load id);
  ptry! loaded <- ret (ok_or found "snapshot not found");
  assert! snap_state loaded =? 10;
  assert! snap_version loaded =? 3;
  do! s <- Snapshot_new 20 9;
  ptry! _ <- boxed display (snap_save id s);
  ptry! found <- boxed display (snap_load id);
  ptry! loaded <- ret (ok_or found "snapshot not found");
  assert! snap_state loaded =? 20;
  assert! snap_version loaded =? 9;
  ret (Some (Ok tt)).
End SnapshotSuite.

(** ** Brokers and consumer groups (contract/messaging.rs) *)

Section BrokerSuite.
Context {W : Type} `{!Env W, !MessagePublisher W, !MessageConsumer W, !MessageAcknowledger W}.

Abbreviation sent c := (boxed MessagingError_to_string c).

Definition publish_and_consume : M W (option (result unit string)) :=
  let topic := "pharos-contract-topic" in
  ptry! d <- sent (next topic);
  assert! is_none d;
  do! message <- new_message topic "payload" "text/plain";
  let id := message_id message in
  ptry! _ <- sent (publish message);
  ptry! d <- sent (next topic);
  ptry! delivery <- ret (ok_or d "a published message must be consumable");
  assert! message_id (delivery_message delivery) =? id;
  assert! attempt delivery =? 1;
  ptry! d <- sent (next topic);
  assert! is_none d;
  ret (Some (Ok tt)).

Definition acknowledger : M W (option (result unit string)) :=
  let topic := "pharos-contract-ack-topic" in
  do! dropped <- new_message topic "dropped" "text/plain";
  ptry! _ <- sent (publish dropped);
  ptry! d <- sent (next topic);
  ptry! delivery <- ret (ok_or d "delivery expected for the dropped message");
  ptry! _ <- sent (nack delivery false);
  ptry! d <- sent (next topic);
  assert! is_none d;
  do! requeued <- new_message topic "requeued" "text/plain";
  let requeued_id := message_id requeued in
  ptry! _ <- sent (publish requeued);
  ptry! d <- sent (next topic);
  ptry! first_delivery <- ret (ok_or d "delivery expected for the requeued message");
  ptry! _ <- sent (nack first_delivery true);
  ptry! d <- sent (next topic);
  ptry! redelivered <- ret (ok_or d "nack(requeue: true) must redeliver the message");
  assert! message_id (delivery_message redelivered) =? requeued_id;
  assert! attempt redelivered =? u32_add (attempt first_delivery) 1;
  ptry! _ <- sent (ack redelivered);
  ret (Some (Ok tt)).
End BrokerSuite.

Section GroupSuite.
Context {W : Type} `{!ConsumerGroupCoordinator W} (display : ConsumerGroupError -> string).

Definition consumer_group_run : M W (option (result unit string)) :=
  let group := "pharos-contract-group" in
  let topics := ["orders"; "payments"] in
  ptry! assigned <- boxed display (group_join group "consumer-1" topics);
  assert! negb (is_empty assigned);
  assert! forallb (fun topic => existsb (fun a => bool_decide (pa_topic a = topic)) assigned) topics;
  assert! forallb (fun a => bool_decide (pa_group a = group)
                            && bool_decide (pa_consumer_id a = "consumer-1")) assigned;
  ptry! current <- boxed display (group_assignments group);
  assert! negb (is_empty current);
  ptry! _ <- boxed display (group_leave group "consumer-1");
  ptry! after_leave <- boxed display (group_assignments group);
  assert! negb (existsb (fun a => bool_decide (pa_consumer_id a = "consumer-1")) after_leave);
  ret (Some (Ok tt)).
End GroupSuite.

(** ** Sagas (contract/saga.rs) *)

Section SagaSuite.
Context {W E : Type} `{!Env W, !SagaStore W string Z E} (display : E -> string).

Definition SagaSaveError_to_string (e : SagaSaveError E) : string :=
  match e with
  | SaveConflict expected actual => conflict_text expected actual
  | SaveStorage e => display e
  end.

Definition set_sg_state (state : Z) (i : SagaInstance string Z) : SagaInstance string Z :=
  mkSagaInstance (sg_id i) state (sg_status i) (sg_deadline i) (sg_updated_at i) (sg_version i).

Definition set_sg_status (status : SagaStatus) (i : SagaInstance string Z) : SagaInstance string Z :=
  mkSagaInstance (sg_id i) (sg_state i) status (sg_deadline i) (sg_updated_at i) (sg_version i).

Abbreviation save_saga i := (boxed SagaSaveError_to_string (saga_save i)).

Definition saga_run : M W (option (result unit string)) :=
  let id := "contract-saga-1" in
  ptry! found <- boxed display (saga_load id);
  assert! is_none found;
  do! created <- SagaInstance_running id 1;
  ptry! _ <- save_saga created;
  ptry! found <- boxed display (saga_load id);
  ptry! loaded <- ret (ok_or found "saga not found after create");
  assert! sg_version loaded =? 1;
  assert! sg_state loaded =? 1;
  do! again <- SagaInstance_running id 99;
  do! conflicting_create <- saga_save again;
  assert! match conflicting_create with Err (SaveConflict 0 (Some 1)) => true | _ => false end;
  ptry! _ <- save_saga (set_sg_state 2 loaded);
  ptry! found <- boxed display (saga_load id);
  ptry! loaded <- ret (ok_or found "saga not found after update");
  assert! sg_version loaded =? 2;
  assert! sg_state loaded =? 2;
  do! stale_result <- saga_save (set_sg_state 3 (set_sg_version 1 loaded));
  assert! match stale_result with Err (SaveConflict 1 (Some 2)) => true | _ => false end;
  ptry! found <- boxed display (saga_load id);
  ptry! unchanged <- ret (ok_or found "saga not found");
  assert! sg_state unchanged =? 2;
  ret (Some (Ok tt)).

Definition seconds (n : Z) : Duration := n * NANOS_PER_SEC.

Definition saga_timeout_run : M W (option (result unit string)) :=
  do! now <- utc_now;
  do! not_running <- SagaInstance_running_until "contract-saga-completed" 1 (now - seconds 5);
  ptry! _ <- save_saga (set_sg_status SCompleted not_running);
  do! future <- SagaInstance_running_until "contract-saga-future" 1 (now + seconds 3600);
  ptry! _ <- save_saga future;
  do! no_deadline <- SagaInstance_running "contract-saga-no-deadline" 1;
  ptry! _ <- save_saga no_deadline;
  ptry! claimed <- boxed display (claim_due now (seconds 60) 10);
  assert! is_empty claimed;
  let sooner := "contract-saga-sooner" in
  let later := "contract-saga-later" in
  do! i <- SagaInstance_running_until later 1 (now - seconds 5);
  ptry! _ <- save_saga i;
  do! i <- SagaInstance_running_until sooner 1 (now - seconds 50);
  ptry! _ <- save_saga i;
  ptry! claimed <- boxed display (claim_due now (seconds 60) 10);
  assert! bool_decide ((sg_id <$> claimed) = [sooner; later]);
  ptry! second_sweep <- boxed display (claim_due now (seconds 60) 10);
  assert! is_empty second_sweep;
  ret (Some (Ok tt)).
End SagaSuite.

(** ** Schema registries (contract/schema_registry.rs) *)

Definition quote : string := String (Ascii.ascii_of_nat 34) "".

Section SchemaSuite.
Context {W : Type} `{!Env W, !SchemaRegistry W} (display : SchemaRegistryError -> string).

Definition schema_registry_run : M W (option (result unit string)) :=
  let placed := "OrderPlaced" in
  ptry! found <- boxed display (schema_get placed 1);
  assert! is_none found;
  ptry! found <- boxed display (schema_latest placed);
  assert! is_none found;
  do! v1 <- EventSchema_new placed 1 "json-schema" "{}";
  ptry! _ <- boxed display (schema_register v1);
  ptry! found <- boxed display (schema_get placed 1);
  ptry! fetched <- ret (ok_or found "a registered schema must be gettable by its exact version");
  assert! bool_decide (sc_format fetched = "json-schema");
  ptry! found <- boxed display (schema_latest placed);
  ptry! latest <- ret (ok_or found "latest must return the only registered version");
  assert! sc_version latest =? 1;
  do! v2 <- EventSchema_new placed 2 "json-schema" ("{" +:+ quote +:+ "v" +:+ quote +:+ ":2}");
  ptry! _ <- boxed display (schema_register v2);
  ptry! found <- boxed display (schema_latest placed);
  ptry! latest <- ret (ok_or found "latest must return a version after a second register");
  assert! sc_version latest =? 2;
  ptry! found <- boxed display (schema_get placed 1);
  ptry! still_v1 <- ret (ok_or found "registering v2 must not make v1 unreachable");
  assert! sc_version still_v1 =? 1;
  ret (Some (Ok tt)).
End SchemaSuite.

(** ** Transactions (contract/transactional.rs) *)

Section TransactionalSuite.
Context {W Tx E SE : Type} `{!Env W, !Repository W ContractAggregate Uuid E,
  !TransactionalStore W Tx SE, !TransactionalRepository W ContractAggregate Tx E,
  !OutboxRepository W}.
Variables (display : E -> string) (display_store : SE -> string).

(** [store.begin().await?], which may wait for ever. *)
Definition began : M W (option (result Tx string)) :=
  live! r <- tx_begin; ret (Some (map_err display_store r)).

Definition transactional_repository_run : M W (option (result unit string)) :=
  do! committed_id <- uuid_now_v7;
  do! committed <- ContractAggregate_new committed_id "tx-committed";
  await! tx <- began;
  do! rta <- save_in_tx tx committed;
  let '(r, tx, _) := rta in
  match saving display r with
  | Err e => do! _ <- tx_drop tx; ret (Some (Err e))
  | Ok _ =>
      ptry! _ <- boxed display_store (tx_commit tx);
      ptry! found <- boxed display (find_by_id committed_id);
      ptry! loaded <- ret (ok_or found "a committed transactional save must be visible through Repository::find_by_id");
      assert! bool_decide (ca_label loaded = "tx-committed");
      do! dropped_id <- uuid_now_v7;
      do! dropped <- ContractAggregate_new dropped_id "tx-dropped";
      await! tx <- began;
      do! rta <- save_in_tx tx dropped;
      let '(r, tx, _) := rta in
      do! _ <- tx_drop tx;
      ptry! _ <- ret (saving display r);
      ptry! found <- boxed display (find_by_id dropped_id);
      assert! is_none found;
      ret (Some (Ok tt))
  end.

Definition map_contract_event (e : ContractEvent) : M W (result Message string) :=
  do! m <- new_message "ContractEvent" (ce_label e) "text/plain"; ret (Ok m).

Definition SaveAndEnqueueError_boxed (e : SaveAndEnqueueError E SE) : string :=
  match e with
  | SERepository e => RepositoryError_to_string display e
  | SEStore e => display_store e
  | SEMapping e => e
  end.

Definition of_topic (m : OutboxMessage) : bool :=
  bool_decide (topic (ob_message m) = "ContractEvent").

Definition save_and_enqueue_atomicity (show_outbox : OutboxError -> string)
  : M W (option (result unit string)) :=
  do! ok_id <- uuid_now_v7;
  do! ok_aggregate <- ContractAggregate_new ok_id "atomic-ok";
  live! ra <- save_and_enqueue_in (RE := E) (SE := SE) map_contract_event ok_aggregate;
  ptry! _ <- ret (map_err SaveAndEnqueueError_boxed ra.1);
  let ok_aggregate := ra.2 in
  assert! version ok_aggregate =? 1;
  assert! is_empty (pending_events ok_aggregate);
  ptry! found <- boxed display (find_by_id ok_id);
  ptry! loaded <- ret (ok_or found "the aggregate saved by save_and_enqueue_in must be visible");
  assert! bool_decide (ca_label loaded = "atomic-ok");
  ptry! pending <- boxed show_outbox (outbox_pending 100);
  assert! existsb of_topic pending;
  do! fail_id <- uuid_now_v7;
  do! fail_aggregate <- ContractAggregate_new fail_id "atomic-fail";
  live! ra <- save_and_enqueue_in (RE := E) (SE := SE) map_contract_event
                (set_version 7 fail_aggregate);
  assert! match ra.1 with Err (SERepository (ConcurrencyConflict _ _)) => true | _ => false end;
  let fail_aggregate := ra.2 in
  ptry! found <- boxed display (find_by_id fail_id);
  assert! is_none found;
  ptry! pending <- boxed show_outbox (outbox_pending 100);
  assert! negb (existsb (fun m => of_topic m &&
                  bool_decide (payload (ob_message m) = "atomic-fail")) pending);
  assert! version fail_aggregate =? 7;
  assert! (length (pending_events fail_aggregate) =? 1)%nat;
  ret (Some (Ok tt)).
End TransactionalSuite.
