(* ===== verification/Conformance.v ===== *)
(** * The in-memory adapters conform

    Runs the suites of Contract against the adapters of crates/pharos-memory,
    as crates/pharos-testing/tests/contract_kit.rs does, but for every clock
    that does not stand in the way of a lease, every supply of distinct
    identifiers and every order in which a map is walked. *)

From S2P Require Import Prelude Core Messaging Outbox Inbox.
From S2P Require Import Saga EventSourcing UnitOfWork Registries Contract.
Local Open Scope Z_scope.

(** ** Running a suite call by call *)

(** The outcome of a suite: [None] is a failed assertion. *)
Definition answers {W} (outcome : option (result unit string))
  (suite : M W (option (result unit string))) (w : W) : Prop := (suite w).1 = outcome.

Abbreviation passes := (answers (Some (Ok tt))).
Abbreviation panics := (answers None).

Section Passing.
Context {W : Type}.
Implicit Types (w : W) (r : option (result unit string)).

Lemma answers_bind {A} r (c : M W A) k w a w' :
  c w = (a, w') -> answers r (k a) w' -> answers r (bind c k) w.
Proof. intros Hc. unfold answers, bind. by rewrite Hc. Qed.

Lemma answers_ptbind {A} r (c : M W (result A string)) k w a w' :
  c w = (Ok a, w') -> answers r (k a) w' -> answers r (ptbind c k) w.
Proof. intros Hc. unfold answers, ptbind. by rewrite Hc. Qed.

Lemma answers_pbind {A} r (c : M W (option A)) k w a w' :
  c w = (Some a, w') -> answers r (k a) w' -> answers r (pbind c k) w.
Proof. intros Hc. unfold answers, pbind. by rewrite Hc. Qed.

Lemma answers_prbind {A} r (c : M W (option (result A string))) k w a w' :
  c w = (Some (Ok a), w') -> answers r (k a) w' -> answers r (prbind c k) w.
Proof. intros Hc. unfold answers, prbind, pbind. by rewrite Hc. Qed.

Lemma answers_assert r (b : bool) k w :
  b = true -> answers r k w -> answers r (if b then k else ret None) w.
Proof. by intros ->. Qed.

Lemma answers_done r w : answers r (ret r) w.
Proof. done. Qed.

Lemma boxed_ok {A E} (d : E -> string) (c : M W (result A E)) w a w' :
  c w = (Ok a, w') -> boxed d c w = (Ok a, w').
Proof. intros Hc. unfold boxed, mmap. by rewrite Hc. Qed.
End Passing.

Ltac simpl_stores :=
  rewrite ?lookup_empty, ?lookup_insert_eq, ?lookup_delete_eq, ?lookup_alter_eq, ?Z.eqb_refl;
  try (rewrite decide_True by done).

Ltac compute_call := repeat (progress (cbn; simpl_stores)); try reflexivity.

(** One call or assertion of a suite, run by [tac]. *)
Ltac suite_step tac :=
  cbv beta zeta;
  match goal with
  | |- answers _ (ret _) _ => exact (answers_done _ _)
  | |- answers _ (bind _ _) _ => eapply answers_bind; [tac; reflexivity|]
  | |- answers _ (pbind _ _) _ => eapply answers_pbind; [tac; reflexivity|]
  | |- answers _ (prbind _ _) _ => eapply answers_prbind; [tac; reflexivity|]
  | |- answers _ (ptbind (boxed _ _) _) _ =>
      eapply answers_ptbind; [apply boxed_ok; tac; reflexivity|]
  | |- answers _ (ptbind (ret _) _) _ => eapply answers_ptbind; [unfold ret; tac; reflexivity|]
  | |- answers _ (ptbind _ _) _ => eapply answers_ptbind; [unfold boxed; tac; reflexivity|]
  | |- answers _ (if _ then _ else ret None) _ => apply answers_assert; [tac; reflexivity|]
  | |- answers _ (match _ with Ok _ => _ | Err _ => _ end) _ => progress (cbn; simpl_stores; cbn)
  end.

(** Computes a call of an in-memory adapter. *)
Ltac store_calls :=
  unfold bind, mget, mput, ret, zoom, tbind, ContractAggregate_new, new_message,
    find_by_id, repo_save, repo_delete, InMemoryRepository_repository,
    InMemoryRepository_save, InMemoryRepository_find_by_id, InMemoryRepository_delete,
    InMemoryUnitOfWork_repository, InMemoryUnitOfWork_save, InMemoryUnitOfWork_find_by_id,
    InMemoryUnitOfWork_delete, save_checked,
    es_load, es_append, es_delete_stream, load_after, InMemoryEventStore_store,
    InMemoryEventStore_load, InMemoryEventStore_append, InMemoryEventStore_delete_stream, stream_of,
    snap_load, snap_save, InMemorySnapshotStore_store, InMemorySnapshotStore_load,
    InMemorySnapshotStore_save,
    publish, next, ack, nack, InMemoryMessageBroker_publisher, InMemoryMessageBroker_consumer,
    InMemoryMessageBroker_acknowledger, InMemoryMessageBroker_publish, InMemoryMessageBroker_next,
    InMemoryMessageBroker_ack, InMemoryMessageBroker_nack, push_back, queue_of,
    group_join, group_leave, group_assignments, InMemoryConsumerGroups_coordinator,
    InMemoryConsumerGroups_join, InMemoryConsumerGroups_leave, InMemoryConsumerGroups_assignments,
    saga_load, saga_save, InMemorySagaStore_store, InMemorySagaStore_load, InMemorySagaStore_save,
    save_entry, SagaInstance_running,
    dead_letter, dead_letter_list, InMemoryDeadLetterQueue_queue, DeadLetterMessage_new;
  compute_call.

(** ** Suites that neither wait for a lease nor walk a map *)

Section Plain.
Context (e : EnvState).

Lemma repository_conforms :
  passes (repository_run (W := World (InMemoryRepository Uuid ContractAggregate)) (fun _ => ""))
    (mkWorld e (mkInMemoryRepository ∅)).
Proof. unfold repository_run. repeat suite_step store_calls. Qed.

Lemma event_store_conforms :
  passes (event_store_run (W := World (InMemoryEventStore Uuid ContractEvent)) (fun _ => ""))
    (mkWorld e (mkInMemoryEventStore ∅)).
Proof. unfold event_store_run, appended. repeat suite_step store_calls. Qed.

Lemma snapshot_store_conforms :
  passes (snapshot_store_run (W := World (InMemorySnapshotStore Uuid Z)) (fun _ => ""))
    (mkWorld e (mkInMemorySnapshotStore ∅)).
Proof. unfold snapshot_store_run. repeat suite_step store_calls. Qed.

Lemma broker_conforms :
  passes (publish_and_consume (W := World InMemoryMessageBroker)) (mkWorld e InMemoryMessageBroker_new) /\
  passes (acknowledger (W := World InMemoryMessageBroker)) (mkWorld e InMemoryMessageBroker_new).
Proof.
  split; [unfold publish_and_consume|unfold acknowledger]; repeat suite_step store_calls.
Qed.

Lemma consumer_group_conforms :
  passes (consumer_group_run (W := InMemoryConsumerGroups) (fun _ => "")) (mkConsumerGroups ∅).
Proof. unfold consumer_group_run. repeat suite_step store_calls. Qed.

Lemma saga_conforms `{!MapIter string (SagaInstance string Z)} :
  passes (saga_run (W := World (InMemorySagaStore string Z)) (fun _ => ""))
    (mkWorld e (mkInMemorySagaStore ∅)).
Proof. unfold saga_run. repeat suite_step store_calls. Qed.

Lemma dead_letter_conforms :
  passes (dead_letter_run (W := World InMemoryDeadLetterQueue) (fun _ => ""))
    (mkWorld e (mkInMemoryDeadLetterQueue [])).
Proof. unfold dead_letter_run. repeat suite_step store_calls. Qed.
End Plain.

(** ** Schema registries: walking a map *)

Lemma registry_of_map hist (w : World InMemorySchemaRegistry) :
  schemas (lget w) = foldl (fun m s => <[schema_key s := s]> m) ∅ hist -> registry_of hist w.
Proof.
  intros Hw k. rewrite Hw. clear w Hw.
  induction hist as [|s hist IH] using rev_ind; [done|].
  rewrite foldl_snoc, registered_snoc, lookup_insert. by case_decide.
Qed.

Lemma latest_is `{!MapIter (string * Z) EventSchema} hist ty s (w : World InMemorySchemaRegistry) :
  registry_of hist w -> registered hist (ty, sc_version s) = Some s ->
  (forall s', s' ∈ hist -> sc_event_type s' = ty -> sc_version s' <= sc_version s) ->
  schema_latest ty w = (Ok (Some s), w).
Proof.
  intros Hw Hs Hmax. destruct (latest_newest hist ty w Hw) as ([s0|] & Hl & H0).
  - etrans; [exact Hl|]. destruct H0 as [Hs0 Hmax0].
    destruct (registered_Some _ _ _ Hs) as [Hin Hk]. destruct (registered_Some _ _ _ Hs0) as [Hin0 Hk0].
    injection Hk as Hty. injection Hk0 as Hty0.
    assert (sc_version s0 = sc_version s) as Hv.
    { pose proof (Hmax s0 Hin0 Hty0). pose proof (Hmax0 s Hin Hty). lia. }
    rewrite Hv, Hs in Hs0. injection Hs0 as ->. done.
  - destruct (registered_Some _ _ _ Hs) as [Hin Hk]. injection Hk as Hty. by destruct (H0 s Hin).
Qed.

Lemma latest_none `{!MapIter (string * Z) EventSchema} ty (w : World InMemorySchemaRegistry) :
  schemas (lget w) = ∅ -> schema_latest ty w = (Ok None, w).
Proof.
  intros Hw. destruct (latest_newest [] ty w) as ([s0|] & Hl & H0).
  - intros k. by rewrite Hw.
  - by destruct H0.
  - done.
Qed.

Lemma schema_registry_conforms `{!MapIter (string * Z) EventSchema} e :
  passes (schema_registry_run (W := World InMemorySchemaRegistry) (fun _ => ""))
    (mkWorld e (mkSchemas ∅)).
Proof.
  unfold schema_registry_run.
  set (v1 := mkEventSchema "OrderPlaced" 1 "json-schema" "{}" (clock_at e (ticks e))).
  set (v2 := mkEventSchema "OrderPlaced" 2 "json-schema"
               ("{" +:+ quote +:+ "v" +:+ quote +:+ ":2}") (clock_at e (S (ticks e)))).
  do 2 suite_step ltac:(cbn; simpl_stores). cbv beta zeta.
  eapply answers_ptbind; [by apply boxed_ok, latest_none|].
  do 6 suite_step ltac:(cbn; simpl_stores; cbn). cbv beta zeta.
  eapply answers_ptbind; [apply boxed_ok, (latest_is [v1] _ v1)|].
  { by apply registry_of_map. } { done. } { intros s' Hs' _. by apply list_elem_of_singleton in Hs' as ->. }
  do 4 suite_step ltac:(cbn). cbv beta zeta.
  eapply answers_ptbind; [apply boxed_ok, (latest_is [v1; v2] _ v2)|].
  { by apply registry_of_map. } { done. }
  { intros s' Hs' _. apply elem_of_cons in Hs' as [->|Hs']; [done|].
    by apply list_elem_of_singleton in Hs' as ->. }
  do 2 suite_step ltac:(cbn). cbv beta zeta.
  suite_step ltac:(cbn; rewrite lookup_insert_ne by done; simpl_stores).
  repeat suite_step ltac:(cbn).
Qed.

(** ** Leases: inboxes, outboxes and saga deadlines *)

(** No identifier is drawn twice, and during the next hundred readings the
    clock does not go back and moves by less than the shortest lease, 30
    seconds. *)
Record steady (e : EnvState) : Prop := {
  steady_ids i j : uuid_at e i = uuid_at e j -> i = j;
  steady_clock i j : (ticks e <= i)%nat -> (i <= j)%nat -> (j < ticks e + 100)%nat ->
    0 <= clock_at e j - clock_at e i < 30 * NANOS_PER_SEC;
}.

Ltac distinct :=
  intros Heq; simplify_eq/=;
  repeat match goal with
  | Hs : steady ?e, H : uuid_at ?e _ = uuid_at ?e _ |- _ => apply (steady_ids e Hs) in H
  end; lia.

(** Bounds the distance of two clock readings of the goal. *)
Ltac clock :=
  match goal with
  | Hs : steady ?e |- context [clock_at ?e ?i] =>
      match goal with
      | |- context [clock_at e ?j] =>
          tryif constr_eq i j then fail else
          pose proof (steady_clock e Hs i j ltac:(lia) ltac:(lia) ltac:(lia))
      end
  end; unfold DEFAULT_STALE_AFTER, NANOS_PER_SEC in *; lia.

Section Leases.
Context `{!Chrono} (e : EnvState).
Hypothesis chrono_exact : forall d, 0 <= d <= 300 * NANOS_PER_SEC -> from_std d = Some d.
Hypothesis He : steady e.

Ltac inbox_calls :=
  unfold begin_processing, inbox_mark_completed, inbox_mark_failed, inbox_get,
    InMemoryInbox_inbox, InMemoryInbox_begin_processing, InMemoryInbox_mark_completed,
    InMemoryInbox_mark_failed, InMemoryInbox_get, ib_update, bind, mget, mput, ret, ib_put;
  repeat (progress (cbn; simpl_stores; try (rewrite lookup_insert_ne by distinct);
    try (rewrite chrono_exact by done); try (rewrite (proj2 (Z.ltb_lt _ _)) by clock)));
  try reflexivity.

Lemma inbox_conforms :
  passes (inbox_run (W := World InMemoryInbox) (fun _ => "")) (mkWorld e InMemoryInbox_default).
Proof. unfold inbox_run, InMemoryInbox_default. repeat suite_step inbox_calls. Qed.
End Leases.

(** *** Outboxes *)

(** What a claim at [now] leaves of a record. *)
Definition claim_if (now : Instant) (lease : Duration) (m : OutboxMessage) : OutboxMessage :=
  if due now m then set_next_attempt_at (now + lease) m else m.

Lemma claimed_length now limit s claimed s' :
  claims_oldest now limit s claimed s' -> (length claimed <= size (ob_store s))%nat.
Proof.
  intros Hc. rewrite <- (length_fmap ob_id), <- size_dom.
  rewrite <- (size_list_to_set (C := gset Uuid)) by apply Hc. apply subseteq_size.
  intros id. rewrite elem_of_list_to_set, list_elem_of_fmap, elem_of_dom.
  intros (m & -> & Hm). destruct (claims_due _ _ _ _ _ Hc m Hm) as (m0 & H0 & _). eauto.
Qed.

(** With room for every record, [pending] claims exactly the due ones. *)
Lemma pending_all `{!MapIter Uuid OutboxMessage} now limit s :
  well_keyed s -> (size (ob_store s) < limit)%nat ->
  exists claimed,
    claim_all now (pending_candidates now limit s).*1 s
    = (claimed, mkInMemoryOutbox (claim_if now (claim_lease s) <$> ob_store s) (claim_lease s)) /\
    NoDup (ob_id <$> claimed) /\
    forall m, m ∈ claimed <->
      exists m0, ob_store s !! ob_id m0 = Some m0 /\ due now m0 = true /\ m = leased now s m0.
Proof.
  intros Hk Hsize. pose proof (claim_all_oldest now limit s Hk) as Hc.
  destruct (claim_all _ _ s) as [claimed s'] eqn:Hrun. destruct Hc as [_ Hc].
  pose proof (claimed_length _ _ _ _ _ Hc) as Hlen. exists claimed.
  assert (Hmem : forall m, m ∈ claimed <->
    exists m0, ob_store s !! ob_id m0 = Some m0 /\ due now m0 = true /\ m = leased now s m0).
  { intros m. split.
    - intros Hm. destruct (claims_due _ _ _ _ _ Hc m Hm) as (m0 & H0 & Hd & ->).
      exists m0. cbn in H0. done.
    - intros (m0 & H0 & Hd & ->).
      destruct (claims_complete _ _ _ _ _ Hc _ _ H0 Hd) as [|[Hl _]]; [done|lia]. }
  split; [|split; [apply Hc|done]]. f_equal.
  destruct s' as [store' lease']. pose proof (claims_lease _ _ _ _ _ Hc) as Hl. cbn in Hl. subst lease'.
  f_equal. apply map_eq. intros id. rewrite lookup_fmap.
  pose proof (claims_store _ _ _ _ _ Hc id) as Hst. cbn in Hst. rewrite Hst.
  destruct (ob_store s !! id) as [m|] eqn:Hm; cbn; [|by case_decide].
  pose proof (Hk _ _ Hm) as Hid. cbn in Hid. subst id. unfold claim_if.
  destruct (due now m) eqn:Hd.
  - rewrite decide_True; [done|]. apply list_elem_of_fmap. exists (leased now s m).
    split; [done|]. apply Hmem. by exists m.
  - rewrite decide_False; [done|]. intros (m' & Hid & (m0 & H0 & Hd0 & ->)%Hmem)%list_elem_of_fmap.
    cbn in Hid. rewrite <- Hid in H0. congruence.
Qed.

Lemma has_id_elem id l : has_id id l = true <-> id ∈ ob_id <$> l.
Proof.
  unfold has_id. rewrite existsb_exists, list_elem_of_fmap. split.
  - intros (m & Hm & Hid). apply Z.eqb_eq in Hid. exists m. by rewrite list_elem_of_In.
  - intros (m & -> & Hm). exists m. rewrite <- list_elem_of_In. by rewrite Z.eqb_refl.
Qed.

Lemma count_id_nodup id l : NoDup (ob_id <$> l) -> count_id id l = if has_id id l then 1%nat else 0%nat.
Proof.
  unfold count_id. induction l as [|m l IH]; [done|].
  rewrite fmap_cons, NoDup_cons. intros [Hni Hnd]. rewrite filter_cons. cbn [has_id existsb].
  destruct (decide (ob_id m = id)) as [<-|Hne].
  - rewrite Z.eqb_refl. cbn. rewrite IH by done.
    destruct (has_id (ob_id m) l) eqn:E; [|done]. by apply has_id_elem in E.
  - rewrite (proj2 (Z.eqb_neq _ _)) by done. by apply IH.
Qed.


Section OutboxCalls.
Context {W : Type} `{!Env W, !Lens W InMemoryOutbox, !LensLaws W InMemoryOutbox,
  !EnvFrame W InMemoryOutbox, !MapIter Uuid OutboxMessage, !Chrono}.
Implicit Types (s : InMemoryOutbox) (w : W).

(** What a suite learns from [pending] when there is room for every record. *)
Record claims_all (now : Instant) s (claimed : list OutboxMessage) : Prop := {
  all_has id : has_id id claimed
    = match ob_store s !! id with Some m => due now m | None => false end;
  all_count id : count_id id claimed = if has_id id claimed then 1%nat else 0%nat;
  all_elem m : m ∈ claimed <->
    exists m0, ob_store s !! ob_id m0 = Some m0 /\ due now m0 = true /\ m = leased now s m0;
}.

Definition claimed_store (now : Instant) s : InMemoryOutbox :=
  mkInMemoryOutbox (claim_if now (claim_lease s) <$> ob_store s) (claim_lease s).

Lemma pending_run limit w :
  well_keyed (lget w) -> (size (ob_store (lget w)) < limit)%nat ->
  exists claimed, claims_all (utc_now w).1 (lget w) claimed /\
    outbox_pending limit w
    = (Ok claimed, lset (claimed_store (utc_now w).1 (lget w)) (utc_now w).2).
Proof.
  intros Hk Hsize. set (s := lget w) in *.
  pose proof (pending_method_spec limit w) as Hspec. destruct (utc_now w) as [now w'].
  cbn [fst snd] in *. destruct (pending_all now limit s Hk Hsize) as (claimed & Hrun & Hnd & Hmem).
  fold s in Hspec. rewrite Hrun in Hspec. exists claimed.
  split; [|exact Hspec]. split; [|by intros; apply count_id_nodup|done].
  intros id. apply Bool.eq_iff_eq_true. rewrite has_id_elem, list_elem_of_fmap. split.
  - intros (m & -> & (m0 & H0 & Hd & ->)%Hmem). cbn. by rewrite H0.
  - destruct (ob_store s !! id) as [m|] eqn:Hm; [|done]. intros Hd.
    pose proof (Hk _ _ Hm) as Hid. cbn in Hid. subst id. exists (leased now s m).
    split; [done|]. apply Hmem. by exists m.
Qed.

Lemma pending_step r (d : OutboxError -> string) limit k w :
  well_keyed (lget w) -> (size (ob_store (lget w)) < limit)%nat ->
  (forall claimed, claims_all (utc_now w).1 (lget w) claimed ->
     answers r (k claimed) (lset (claimed_store (utc_now w).1 (lget w)) (utc_now w).2)) ->
  answers r (ptbind (boxed d (outbox_pending limit)) k) w.
Proof.
  intros Hk Hsize Hcont. destruct (pending_run limit w Hk Hsize) as (claimed & Hc & Hrun).
  eapply answers_ptbind; [apply boxed_ok, Hrun|]. by apply Hcont.
Qed.

Lemma pending_bind r limit k w :
  well_keyed (lget w) -> (size (ob_store (lget w)) < limit)%nat ->
  (forall claimed, claims_all (utc_now w).1 (lget w) claimed ->
     answers r (k (Ok claimed)) (lset (claimed_store (utc_now w).1 (lget w)) (utc_now w).2)) ->
  answers r (bind (outbox_pending limit) k) w.
Proof.
  intros Hk Hsize Hcont. destruct (pending_run limit w Hk Hsize) as (claimed & Hc & Hrun).
  eapply answers_bind; [exact Hrun|]. by apply Hcont.
Qed.

(** What it learns from [failed]. *)
Definition lists_failed s (l : list OutboxMessage) : Prop :=
  forall id, (snd <$> list_find (fun m => ob_id m = id) l)
             = (m ← ob_store s !! id; if decide (ob_status m = Failed) then Some m else None).

Lemma failed_step r (d : OutboxError -> string) limit k w :
  well_keyed (lget w) -> (size (ob_store (lget w)) < limit)%nat ->
  (forall l, lists_failed (lget w) l -> answers r (k l) w) ->
  answers r (ptbind (boxed d (outbox_failed limit)) k) w.
Proof.
  intros Hk Hsize Hcont. set (s := lget w) in *.
  eapply answers_ptbind; [by apply boxed_ok|]. apply Hcont. fold s.
  set (F := select (fun m => ob_status m = Failed) s).
  assert (Hlen : (length F < limit)%nat).
  { eapply Nat.le_lt_trans; [|exact Hsize]. unfold F, select.
    etrans; [apply length_filter|]. rewrite length_fmap. by rewrite map_iter_perm, length_map_to_list. }
  change (filter _ _) with F.
  rewrite take_ge by (rewrite sort_by_key_perm; lia).
  set (l := sort_by_key _ _ F).
  assert (Hin : forall m, m ∈ l <-> ob_store s !! ob_id m = Some m /\ ob_status m = Failed).
  { intros m. unfold l. rewrite sort_by_key_perm. by apply elem_of_select. }
  clearbody l. intros id. destruct (list_find _ l) as [[i m]|] eqn:Hf; cbn.
  - apply list_find_Some in Hf as (Hm & <- & _). apply list_elem_of_lookup_2, Hin in Hm as [-> Hs].
    cbn. by rewrite decide_True.
  - apply list_find_None in Hf. destruct (ob_store s !! id) as [m|] eqn:Hm; [|done]. cbn.
    rewrite decide_False; [done|]. intros Hs. pose proof (Hk _ _ Hm) as Hid. cbn in Hid.
    rewrite Forall_forall in Hf. apply (Hf m); [|done]. apply Hin. by rewrite Hid.
Qed.

Lemma lists_failed_has s l id : lists_failed s l ->
  has_id id l = match ob_store s !! id with
                | Some m => bool_decide (ob_status m = Failed) | None => false end.
Proof.
  intros Hl. specialize (Hl id). unfold has_id.
  destruct (list_find _ l) as [[i m]|] eqn:Hf; cbn in Hl.
  - apply list_find_Some in Hf as (Hm & Hid & _). destruct (ob_store s !! id) as [m'|]; [|done].
    cbn in Hl. case_decide; [|done]. rewrite bool_decide_true by done.
    apply existsb_exists. exists m. rewrite <- list_elem_of_In, Z.eqb_eq.
    by apply list_elem_of_lookup_2 in Hm.
  - assert (Hn : existsb (fun m => ob_id m =? id) l = false).
    { apply list_find_None in Hf. induction Hf as [|m l Hm Hf IH]; [done|]. cbn.
      by rewrite (proj2 (Z.eqb_neq _ _)). }
    rewrite Hn. destruct (ob_store s !! id) as [m'|]; [|done]. cbn in Hl.
    case_decide; [done|]. by rewrite bool_decide_false.
Qed.
End OutboxCalls.

Lemma claim_if_id now lease m : ob_id (claim_if now lease m) = ob_id m.
Proof. unfold claim_if. by destruct (due now m). Qed.

Lemma size_insert_le `{Countable K} {V} (m : gmap K V) k v : (size (<[k := v]> m) <= S (size m))%nat.
Proof.
  destruct (m !! k) as [v'|] eqn:Hk.
  - rewrite map_size_insert_Some; [lia|by eexists].
  - by rewrite map_size_insert_None.
Qed.

Ltac few_records :=
  repeat first
    [ rewrite map_size_fmap
    | eapply Nat.le_lt_trans; [apply size_insert_le|apply -> Nat.succ_lt_mono] ];
  apply Nat.lt_0_succ.

Lemma keyed_claimed now lease (st : gmap Uuid OutboxMessage) :
  map_Forall (fun id m => ob_id m = id) st ->
  map_Forall (fun id m => ob_id m = id) (claim_if now lease <$> st).
Proof. intros Hst id m. rewrite lookup_fmap. intros (m0 & H0 & ->)%fmap_Some_1.
  rewrite claim_if_id. by apply Hst. Qed.

Ltac keyed :=
  unfold well_keyed; cbn;
  repeat first
    [ apply map_Forall_empty
    | apply map_Forall_insert_2; [by cbn; rewrite ?claim_if_id|]
    | apply keyed_claimed ].

Ltac claims H := cbv beta zeta;
  first [eapply pending_step|eapply pending_bind]; [cbn; keyed|cbn; few_records|]; intros ? H; cbn in H |- *.

Ltac lists H := cbv beta zeta;
  eapply failed_step; [cbn; keyed|cbn; few_records|]; intros ? H; cbn in H |- *.

Section OutboxSuites.
Context `{!MapIter Uuid OutboxMessage, !Chrono} (e : EnvState).
Hypothesis chrono_exact : forall d, 0 <= d <= 300 * NANOS_PER_SEC -> from_std d = Some d.
Hypothesis He : steady e.

Ltac outbox_calls :=
  unfold new_outbox_message, new_message, outbox_insert, outbox_record_attempt, outbox_mark_published,
    outbox_mark_failed, outbox_mark_dead_lettered, outbox_insert_many, try_each,
    InMemoryOutbox_repository, InMemoryOutbox_insert, InMemoryOutbox_record_attempt,
    InMemoryOutbox_mark_published, InMemoryOutbox_mark_failed, InMemoryOutbox_mark_dead_lettered,
    ob_update, bind, tbind, mget, mput, ret;
  repeat (progress (cbn; simpl_stores; try (rewrite lookup_insert_ne by distinct);
    rewrite ?lookup_fmap)); try reflexivity.


(** An assertion about the answer [H] describes. *)
Ltac answered H :=
  apply answers_assert;
    [ first [ rewrite !(all_has _ _ _ H) | rewrite (lists_failed_has _ _ _ H) ];
      outbox_calls; unfold due; cbn;
      repeat (apply andb_true_intro; split); try reflexivity; try (apply Z.leb_le; clock) | ].

Lemma outbox_conforms :
  passes (outbox_run (W := World InMemoryOutbox) (fun _ => ""))
    (mkWorld e InMemoryOutbox_default).
Proof.
  unfold outbox_run, InMemoryOutbox_default.
  do 2 suite_step outbox_calls. claims Hc. answered Hc. clear Hc.
  do 2 suite_step outbox_calls. claims Hc. answered Hc. clear Hc.
  lists Hl. answered Hl. clear Hl.
  do 2 suite_step outbox_calls. claims Hc. clear Hc.
  suite_step outbox_calls. lists Hl. specialize (Hl (uuid_at e (S (S (S (drawn e)))))).
  eapply answers_ptbind; [unfold ret; rewrite Hl; outbox_calls; reflexivity|].
  do 3 suite_step outbox_calls. clear Hl. lists Hl. answered Hl. clear Hl.
  do 3 suite_step outbox_calls. claims Hc. answered Hc. apply answers_done.
Qed.

Lemma no_double_claim_holds :
  passes (no_double_claim (W := World InMemoryOutbox) (fun _ => ""))
    (mkWorld e InMemoryOutbox_default).
Proof.
  unfold no_double_claim, InMemoryOutbox_default.
  do 2 suite_step outbox_calls. claims Ha. claims Hb. do 2 suite_step outbox_calls.
  cbv beta zeta. apply answers_assert; [|apply answers_done].
  rewrite (all_count _ _ _ Ha), (all_count _ _ _ Hb), (all_has _ _ _ Ha), (all_has _ _ _ Hb).
  outbox_calls. unfold claim_if, due. cbn. rewrite chrono_exact by done.
  rewrite (proj2 (Z.leb_le (clock_at e (ticks e)) (clock_at e (S (ticks e))))) by clock.
  do 2 (rewrite (bool_decide_true (Pending = Pending)) by done; cbn).
  unfold DEFAULT_CLAIM_LEASE. cbn. rewrite (proj2 (Z.leb_gt _ _)). 2: clock. done.
Qed.

(** Without a lease the second worker is handed the message as well. *)
Lemma unleased_outbox_panics :
  panics (no_double_claim (W := World InMemoryOutbox) (fun _ => ""))
    (mkWorld e (InMemoryOutbox_with_claim_lease 0 InMemoryOutbox_default)).
Proof.
  unfold no_double_claim, InMemoryOutbox_default, InMemoryOutbox_with_claim_lease.
  rewrite (chrono_exact 0) by done. cbn [ob_store].
  do 2 suite_step outbox_calls. claims Ha. claims Hb. do 2 suite_step outbox_calls.
  cbv beta zeta. unfold answers.
  rewrite (all_count _ _ _ Ha), (all_count _ _ _ Hb), (all_has _ _ _ Ha), (all_has _ _ _ Hb).
  outbox_calls. unfold claim_if, due. cbn.
  rewrite (proj2 (Z.leb_le (clock_at e (ticks e)) (clock_at e (S (ticks e))))) by clock.
  do 2 (rewrite (bool_decide_true (Pending = Pending)) by done; cbn).
  rewrite (proj2 (Z.leb_le _ _)). 2: clock.
  done.
Qed.
End OutboxSuites.

(** *** Saga deadlines *)

(** The due identifiers in strict deadline order are what a claim takes. *)
Lemma due_sagas_are {S} `{!MapIter string (SagaInstance string S)} now limit
  (s : InMemorySagaStore string S) ids :
  let deadline id := default now (sagas s !! id ≫= sg_deadline) in
  map_Forall (fun id i => saga_due now i = true -> id ∈ ids) (sagas s) ->
  Forall (fun id => exists i, sagas s !! id = Some i /\ saga_due now i = true) ids ->
  StronglySorted (fun a b => deadline a < deadline b) ids ->
  (length ids <= limit)%nat -> due_sagas now limit s = ids.
Proof.
  intros deadline Hall Hdue Hsort Hlen. unfold due_sagas. fold deadline.
  set (due := (filter _ _).*1). rewrite Forall_forall in Hdue.
  assert (Hin : forall id, id ∈ due <-> id ∈ ids).
  { intros id. unfold due. rewrite list_elem_of_fmap. split.
    - intros ([id' i] & -> & [Hd Hi]%list_elem_of_filter). apply map_iter_elem in Hi.
      by apply (Hall id' i).
    - intros (i & Hi & Hd)%Hdue. exists (id, i).
      rewrite list_elem_of_filter, map_iter_elem. done. }
  assert (Hperm : sort_by_key deadline Z.leb due ≡ₚ ids).
  { rewrite sort_by_key_perm. apply NoDup_Permutation; [| |done].
    - eapply sublist_NoDup; [|apply fmap_sublist, sublist_filter]. apply map_iter_NoDup_keys.
    - clear -Hsort. induction Hsort as [|a l _ IH Ha]; [constructor|]. constructor; [|done].
      rewrite Forall_forall in Ha. intros Hin. specialize (Ha a Hin). lia. }
  rewrite take_ge by (by rewrite Hperm).
  apply (StronglySorted_unique_strong (le_key deadline Z.leb)); [| | |exact Hperm].
  - intros a b Ha Hb. unfold le_key. rewrite Hperm, !Z.leb_le in *. intros H1 H2.
    clear -Ha Hb H1 H2 Hsort.
    induction Hsort as [|c l _ IH Hc]; [set_solver|]. rewrite Forall_forall in Hc.
    apply elem_of_cons in Ha as [->|Ha]; apply elem_of_cons in Hb as [->|Hb]; try done.
    + specialize (Hc b Hb). lia.
    + specialize (Hc a Ha). lia.
    + by apply IH.
  - apply sort_by_key_sorted; intros; lia.
  - clear -Hsort. induction Hsort as [|a l _ IH Ha]; constructor; [done|].
    eapply Forall_impl; [exact Ha|]. intros b Hb. unfold le_key. apply Z.leb_le. cbn in Hb. lia.
Qed.

Lemma claim_step {S} `{!MapIter string (SagaInstance string S)} e now lease limit s ids claimed s'
  (d : InMemorySagaStoreError -> string) k :
  due_sagas now limit s = ids -> claim_sagas now lease ids s = (claimed, s') ->
  passes (k claimed) (mkWorld e s') ->
  passes (ptbind (boxed d (claim_due (W := World (InMemorySagaStore string S)) now lease limit)) k)
    (mkWorld e s).
Proof.
  intros Hd Hc Hk. eapply answers_ptbind; [|exact Hk]. apply boxed_ok. cbn.
  unfold InMemorySagaStore_claim_due, zoom. cbn. by rewrite Hd, Hc.
Qed.

Ltac saga_calls := store_calls; rewrite ?lookup_insert_ne by done; compute_call.

(** Which of the stored instances are due: each in turn. *)
Ltac instances :=
  repeat (apply map_Forall_insert_2; [unfold saga_due, NANOS_PER_SEC; cbn; first [done|lia|set_solver]|]);
  apply map_Forall_empty.

Ltac stored := cbn; rewrite ?lookup_insert_ne by done; rewrite lookup_insert_eq.

Lemma saga_timeout_conforms `{!MapIter string (SagaInstance string Z)} e :
  passes (saga_timeout_run (W := World (InMemorySagaStore string Z)) (fun _ => ""))
    (mkWorld e (mkInMemorySagaStore ∅)).
Proof.
  unfold saga_timeout_run, seconds. do 7 suite_step saga_calls.
  eapply (claim_step _ _ _ _ _ []); [apply due_sagas_are| |]; cbn.
  { instances. } { constructor. } { constructor. } { lia. } { reflexivity. }
  do 5 suite_step saga_calls. cbv beta zeta.
  eapply (claim_step _ _ _ _ _ ["contract-saga-sooner"; "contract-saga-later"]);
    [apply due_sagas_are| |]; cbn.
  { instances. }
  { rewrite !Forall_cons, Forall_nil. split_and!; [| |done]; eexists; stored; (split; [reflexivity|]);
      unfold saga_due, NANOS_PER_SEC; cbn; apply andb_true_intro; (split; [done|]); lia. }
  { repeat constructor. rewrite lookup_insert_eq, lookup_insert_ne, lookup_insert_eq by done. cbn. unfold NANOS_PER_SEC. lia. }
  { lia. }
  { unfold claim_saga. cbn. rewrite lookup_insert_eq. cbn. rewrite !lookup_insert_ne by done.
    rewrite lookup_insert_eq. reflexivity. }
  suite_step saga_calls. cbv beta zeta.
  eapply (claim_step _ _ _ _ _ []); [apply due_sagas_are| |]; cbn.
  { rewrite insert_insert_eq, (insert_insert_ne _ "contract-saga-later" "contract-saga-sooner"),
      insert_insert_eq by done. instances. }
  { constructor. } { constructor. } { lia. } { reflexivity. }
  repeat suite_step saga_calls.
Qed.

(** *** Transactions *)

Lemma claimed_exists (p : OutboxMessage -> bool) now s claimed id m :
  claims_all now s claimed -> ob_store s !! id = Some m -> ob_id m = id -> due now m = true ->
  p (leased now s m) = true -> existsb p claimed = true.
Proof.
  intros Hc Hm <- Hd Hp. apply existsb_exists. exists (leased now s m).
  rewrite <- list_elem_of_In, (all_elem _ _ _ Hc). split; [by exists m|done].
Qed.

Lemma claimed_none (p : OutboxMessage -> bool) now s claimed :
  claims_all now s claimed -> map_Forall (fun _ m => p (leased now s m) = false) (ob_store s) ->
  existsb p claimed = false.
Proof.
  intros Hc Hp. apply not_true_is_false. intros (m & Hm & Hpm)%existsb_exists.
  rewrite <- list_elem_of_In, (all_elem _ _ _ Hc) in Hm. destruct Hm as (m0 & H0 & _ & ->).
  specialize (Hp _ _ H0). cbn in Hp. congruence.
Qed.

Section Transactional.
Context `{!MapIter Uuid OutboxMessage, !Chrono} (e : EnvState).
Hypothesis He : steady e.

Definition contract_world : World (InMemoryUnitOfWork Uuid ContractAggregate * InMemoryOutbox) :=
  mkWorld e (InMemoryUnitOfWork_new, InMemoryOutbox_default).

Ltac tx_calls :=
  unfold began, tx_begin, tx_commit, tx_drop, save_in_tx, insert_outbox_in_tx,
    save_and_enqueue_in, in_transaction, insert_all, map_pending, map_contract_event,
    InMemoryUnitOfWork_store, InMemoryUnitOfWork_transactional, InMemoryUnitOfWork_repository,
    InMemoryUnitOfWork_begin,
    InMemoryUnitOfWork_commit, InMemoryUnitOfWork_drop, InMemoryUnitOfWork_save_in_tx,
    InMemoryUnitOfWork_insert_outbox_in_tx, InMemoryUnitOfWork_new, mmap, pbind,
    OutboxMessage_new, try_each, InMemoryOutbox_repository, InMemoryOutbox_insert;
  store_calls;
  repeat (progress (cbn; simpl_stores; try (rewrite lookup_insert_ne by distinct))); try reflexivity.

Lemma uow_repository_conforms :
  passes (repository_run (E := InMemoryUnitOfWorkError) (fun _ => "")) contract_world.
Proof.
  unfold repository_run, contract_world, InMemoryUnitOfWork_new. repeat suite_step store_calls.
Qed.

Lemma transactional_repository_conforms :
  passes (transactional_repository_run (Tx := InMemoryTx ContractAggregate)
    (E := InMemoryUnitOfWorkError) (SE := InMemoryUnitOfWorkError) (fun _ => "") (fun _ => "")) contract_world.
Proof.
  unfold transactional_repository_run, contract_world.
  do 4 suite_step tx_calls. cbn beta iota delta [saving map_err].
  do 8 suite_step tx_calls. cbn beta iota.
  repeat suite_step tx_calls.
Qed.

Lemma save_and_enqueue_conforms :
  passes (save_and_enqueue_atomicity (Tx := InMemoryTx ContractAggregate)
    (E := InMemoryUnitOfWorkError) (SE := InMemoryUnitOfWorkError) (fun _ => "") (fun _ => "")
    (fun _ => "")) contract_world.
Proof.
  unfold save_and_enqueue_atomicity, contract_world.
  do 2 suite_step tx_calls.
  do 7 suite_step tx_calls. claims Hc. apply answers_assert.
  { eapply claimed_exists; [exact Hc|apply lookup_insert_eq|done| |done].
    unfold due. apply andb_true_intro. split; [done|]. apply Z.leb_le. cbn. clock. }
  clear Hc. do 6 suite_step tx_calls. claims Hc. apply answers_assert.
  { rewrite (claimed_none _ _ _ _ Hc); [done|]. cbn. rewrite fmap_insert, fmap_empty.
    apply map_Forall_insert_2; [|apply map_Forall_empty]. unfold claim_if, of_topic. cbn.
    by destruct (due _ _). }
  repeat suite_step tx_calls.
Qed.
End Transactional.

(** ** A defect the repository suite finds *)

(** A repository that overwrites whatever is stored. *)
Definition blind_repository
  : Repository (World (InMemoryRepository Uuid ContractAggregate)) ContractAggregate Uuid
      InMemoryRepoError := {|
  find_by_id := InMemoryRepository_find_by_id;
  repo_save aggregate :=
    let aggregate := set_version (u64_add (version aggregate) 1) aggregate in
    do! s <- mget;
    do! _ <- mput (mkInMemoryRepository
                     (<[agg_id aggregate := snapshot_without_pending_events aggregate]>
                        (repo_store s)));
    ret (Ok tt, aggregate);
  repo_delete := InMemoryRepository_delete;
|}.

Lemma blind_repository_panics e :
  panics (repository_run (Repository0 := blind_repository) (fun _ => ""))
    (mkWorld e (mkInMemoryRepository ∅)).
Proof. unfold repository_run, blind_repository. repeat suite_step store_calls. Qed.

(** ** Property *)

(** C40: the conformance kit accepts every in-memory adapter and tells them
    from defective ones: for every clock that does not run past a lease,
    every supply of distinct identifiers and every order in which a map is
    walked, each suite runs to its end without a failed assertion against the
    adapter of crates/pharos-memory it is meant for, started empty; it panics
    against a repository that overwrites stale versions and against an outbox
    that claims without a lease. *)
Theorem in_memory_adapters_conform `{!Chrono, !MapIter Uuid OutboxMessage,
  !MapIter string (SagaInstance string Z), !MapIter (string * Z) EventSchema} (e : EnvState) :
  (forall d, 0 <= d <= 300 * NANOS_PER_SEC -> from_std d = Some d) ->
  steady e ->
  let show {E} := fun _ : E => "" in
  passes (repository_run (E := InMemoryUnitOfWorkError) show) (contract_world e)
  /\ passes (repository_run show) (mkWorld e (mkInMemoryRepository (Id := Uuid) ∅))
  /\ passes (transactional_repository_run (Tx := InMemoryTx ContractAggregate)
       (E := InMemoryUnitOfWorkError) (SE := InMemoryUnitOfWorkError) show show) (contract_world e)
  /\ passes (save_and_enqueue_atomicity (Tx := InMemoryTx ContractAggregate)
       (E := InMemoryUnitOfWorkError) (SE := InMemoryUnitOfWorkError) show show show)
       (contract_world e)
  /\ passes (outbox_run show) (mkWorld e InMemoryOutbox_default)
  /\ passes (no_double_claim show) (mkWorld e InMemoryOutbox_default)
  /\ passes (inbox_run show) (mkWorld e InMemoryInbox_default)
  /\ passes (dead_letter_run show) (mkWorld e (mkInMemoryDeadLetterQueue []))
  /\ passes (saga_run show) (mkWorld e (mkInMemorySagaStore (I := string) (S := Z) ∅))
  /\ passes (saga_timeout_run show) (mkWorld e (mkInMemorySagaStore (I := string) (S := Z) ∅))
  /\ passes (event_store_run show) (mkWorld e (mkInMemoryEventStore (Id := Uuid) ∅))
  /\ passes (snapshot_store_run show) (mkWorld e (mkInMemorySnapshotStore (Id := Uuid) ∅))
  /\ passes publish_and_consume (mkWorld e InMemoryMessageBroker_new)
  /\ passes acknowledger (mkWorld e InMemoryMessageBroker_new)
  /\ passes (consumer_group_run show) (mkConsumerGroups ∅)
  /\ passes (schema_registry_run show) (mkWorld e (mkSchemas ∅))
  /\ panics (repository_run (Repository0 := blind_repository) show)
       (mkWorld e (mkInMemoryRepository ∅))
  /\ panics (no_double_claim show)
       (mkWorld e (InMemoryOutbox_with_claim_lease 0 InMemoryOutbox_default)).
Proof.
  intros Hchrono He show.
  split; [exact (uow_repository_conforms e)|].
  split; [exact (repository_conforms e)|].
  split; [exact (transactional_repository_conforms e He)|].
  split; [exact (save_and_enqueue_conforms e He)|].
  split; [exact (outbox_conforms e He)|].
  split; [exact (no_double_claim_holds e Hchrono He)|].
  split; [exact (inbox_conforms e Hchrono He)|].
  split; [exact (dead_letter_conforms e)|].
  split; [exact (saga_conforms e)|].
  split; [exact (saga_timeout_conforms e)|].
  split; [exact (event_store_conforms e)|].
  split; [exact (snapshot_store_conforms e)|].
  destruct (broker_conforms e) as [Hpub Hack].
  split; [exact Hpub|]. split; [exact Hack|].
  split; [exact consumer_group_conforms|].
  split; [exact (schema_registry_conforms e)|].
  split; [exact (blind_repository_panics e)|exact (unleased_outbox_panics e Hchrono He)].
Qed.

Lemma steady_start : steady env_start.
Proof.
  split; cbn.
  - intros i j. lia.
  - intros i j Hi Hij Hj. unfold NANOS_PER_SEC. lia.
Qed.

Lemma chrono_millis_exact d : 0 <= d <= 300 * NANOS_PER_SEC -> from_std d = Some d.
Proof.
  unfold NANOS_PER_SEC. intros Hd. cbn [from_std chrono_millis].
  by rewrite (proj2 (Z.leb_le _ _)) by lia.
Qed.

Lemma in_memory_adapters_conform_witness :
  passes (outbox_run (fun _ => "")) (mkWorld env_start InMemoryOutbox_default)
  /\ passes (inbox_run (fun _ => "")) (mkWorld env_start InMemoryInbox_default).
Proof.
  pose proof (in_memory_adapters_conform env_start
    chrono_millis_exact steady_start) as H.
  split; apply H.
Defined.
