(* ===== verification/Macros.v ===== *)
(** * Derive and attribute macros

    Models crates/pharos-macros/src/lib.rs: the derives of [Entity],
    [AggregateRoot], [DomainEvent], [Command] and [Query], the attribute
    macros [external_fields] and [requires_roles], and [id_type!].

    A macro maps the syntax it is applied to either to a compile error or to
    generated code.  The syntax tree is the part of [syn]'s that the macros
    look at; an error is its message, without the span it is reported at; a
    generated item is a record of what its template interpolates, and Derived
    says what the code of the template does.  [Attribute::parse_nested_meta]
    and the lookup of a crate's name in Cargo.toml belong to [syn] and
    [proc_macro_crate] and are parameters. *)

From S2P Require Import Prelude Core.
Local Open Scope Z_scope.

(** ** Syntax *)

Abbreviation Path := (list string).

(** [Path::is_ident] *)
Definition is_ident (p : Path) (x : string) : bool := bool_decide (p = [x]).

Inductive SynType :=
| TypePath (segments : list PathSegment)
| TypeOther (tokens : string)
with PathSegment := mkPathSegment (seg_ident : string) (seg_arguments : PathArguments)
with PathArguments :=
| PathNone
| AngleBracketed (args : list GenericArgument)
| Parenthesized
with GenericArgument :=
| GenericType (t : SynType)
| GenericOther.

(** What follows the [=] of an option. *)
Inductive MetaValue :=
| LitStr (s : string)
| LitInt (z : Z)
| ValueType (t : SynType).

Inductive MetaArg :=
| NoArg
| Equals (v : MetaValue)
| Parens (tokens : string).

(** One option of [#[attr(...)]]. *)
Record NestedMeta := mkNestedMeta { nm_path : Path; nm_arg : MetaArg }.

Inductive Meta :=
| MetaPath
| MetaList (options : list NestedMeta)
| MetaNameValue (v : MetaValue).

Record Attribute := mkAttribute { attr_path : Path; attr_meta : Meta }.

Record Field := mkField {
  f_ident : option string;
  f_attrs : list Attribute;
  f_ty : SynType;
}.

Inductive Fields :=
| Named (fs : list Field)
| Unnamed (fs : list Field)
| Unit.

Record Variant := mkVariant { v_ident : string; v_attrs : list Attribute; v_fields : Fields }.

Inductive Data :=
| DataStruct (fs : Fields)
| DataEnum (variants : list Variant)
| DataUnion.

Record DeriveInput := mkDeriveInput {
  di_ident : string;
  di_generics : string;
  di_attrs : list Attribute;
  di_data : Data;
}.

Definition has_attr (name : string) (attrs : list Attribute) : bool :=
  existsb (fun a => is_ident (attr_path a) name) attrs.

(** ** What the macros ask of [syn] and [proc_macro_crate] *)

(** What the logic of [parse_nested_meta] took of the input after the path of
    an option: nothing, its value, or everything up to the closing bracket. *)
Inductive Consumed := TookNothing | TookValue | TookRest.

(** The closure, over the variables it captures. *)
Definition Logic (S : Type) : Type := NestedMeta -> S -> S * result Consumed string.

Inductive FoundCrate := FoundName (name : string) | FoundItself.

Class Syn : Type := {
  parse_nested_meta {S} : Attribute -> Logic S -> S -> S * result unit string;
  crate_name : string -> option FoundCrate;
}.

(** [meta.value()?.parse::<LitStr>()] and its like. *)
Definition value_str (m : NestedMeta) : result string string :=
  match nm_arg m with
  | Equals (LitStr s) => Ok s
  | Equals _ => Err "expected string literal"
  | _ => Err "expected `=`"
  end.

Definition value_type (m : NestedMeta) : result SynType string :=
  match nm_arg m with
  | Equals (ValueType t) => Ok t
  | Equals _ => Err "expected type"
  | _ => Err "expected `=`"
  end.

(** [LitInt::base10_parse::<u32>] *)
Definition value_u32 (m : NestedMeta) : result Z string :=
  match nm_arg m with
  | Equals (LitInt z) =>
      if (0 <=? z) && (z <? 2 ^ 32) then Ok z else Err "number too large to fit in target type"
  | Equals _ => Err "expected integer literal"
  | _ => Err "expected `=`"
  end.

(** An option read with [f] and stored with [g]. *)
Definition store_value {S A} (r : result A string) (g : A -> S -> S) (s : S)
  : S * result Consumed string :=
  match r with
  | Ok a => (g a s, Ok TookValue)
  | Err e => (s, Err e)
  end.

(** ** Paths of the generated code *)

Record PharosPaths := mkPharosPaths { pp_core : string; pp_app : string }.
Record ExternalPaths := mkExternalPaths { ep_serde : string; ep_uuid : string }.

Section Paths.
Context `{!Syn}.

Definition direct (package default : string) : option string :=
  match crate_name package with
  | Some (FoundName name) => Some ("::" +:+ name)
  | Some FoundItself => Some ("::" +:+ default)
  | None => None
  end.

Definition facade : option string :=
  match crate_name "pharos-rs" with
  | Some (FoundName name) => Some ("::" +:+ name)
  | Some FoundItself => Some "::pharos"
  | None => None
  end.

Definition or_else {A} (o : option A) (f : option A) : option A :=
  match o with Some a => Some a | None => f end.

Definition pharos_paths : PharosPaths :=
  mkPharosPaths
    (default "::pharos_core"
       (or_else (direct "pharos-core" "pharos_core") ((fun f => f +:+ "::core") <$> facade)))
    (default "::pharos_app"
       (or_else (direct "pharos-app" "pharos_app") ((fun f => f +:+ "::app") <$> facade))).

Definition external_paths : ExternalPaths :=
  let resolve package default :=
    match crate_name package with
    | Some (FoundName name) => "::" +:+ name
    | Some FoundItself | None => "::" +:+ default
    end in
  mkExternalPaths (resolve "serde" "serde") (resolve "uuid" "uuid").
End Paths.

(** ** Looking for fields *)

Definition find_field_with_attr (ast : DeriveInput) (attr : string) : result Field string :=
  match di_data ast with
  | DataStruct (Named fs) =>
      ok_or (snd <$> list_find (fun f => has_attr attr (f_attrs f) = true) fs)
        ("no field annotated with `#[" +:+ attr +:+ "]` was found")
  | DataStruct _ => Err "this derive requires a struct with named fields"
  | _ => Err "this derive only applies to structs"
  end.

Definition field_with_attr (fields : list Field) (attr : string) : option string :=
  head (omap f_ident (filter (fun f => has_attr attr (f_attrs f) = true) fields)).

Definition struct_fields (ast : DeriveInput) : option (list Field) :=
  match di_data ast with
  | DataStruct (Named fs) | DataStruct (Unnamed fs) => Some fs
  | _ => None
  end.

Definition extract_single_generic (ty : SynType) (wrapper : string) : result SynType string :=
  let error := Err ("the `#[events]` field must have type `" +:+ wrapper +:+ "<YourEvent>`") in
  match ty with
  | TypePath segments =>
      match last segments with
      | Some (mkPathSegment ident (AngleBracketed (GenericType inner :: _))) =>
          if decide (ident = wrapper) then Ok inner else error
      | _ => error
      end
  | TypeOther _ => error
  end.

(** The name of a field that must have one. *)
Definition named (attr : string) (f : Field) : result string string :=
  ok_or (f_ident f) ("the `#[" +:+ attr +:+ "]` field must be named").

(** ** Entities and aggregate roots *)

(** [impl #ig #trait for #name #tg #wc] *)
Record ImplHead := mkImplHead { ih_trait : string; ih_name : string; ih_generics : string }.

Record EntityImpl := mkEntityImpl {
  en_head : ImplHead;
  en_Id : SynType;
  en_field : string;
}.

Record AggregateRootImpl := mkAggregateRootImpl {
  ar_head : ImplHead;
  ar_Event : SynType;
  ar_events : string;
  ar_version : string;
}.

Section Derives.
Context `{!Syn}.

Definition impl_head (trait : string) (ast : DeriveInput) : ImplHead :=
  mkImplHead trait (di_ident ast) (di_generics ast).

Definition derive_entity (ast : DeriveInput) : result EntityImpl string :=
  let core := pp_core pharos_paths in
  res! field <- find_field_with_attr ast "id";
  res! field_name <- named "id" field;
  Ok (mkEntityImpl (impl_head (core +:+ "::Entity") ast) (f_ty field) field_name).

Definition derive_aggregate_root (ast : DeriveInput) : result AggregateRootImpl string :=
  let core := pp_core pharos_paths in
  res! field <- find_field_with_attr ast "events";
  res! field_name <- named "events" field;
  res! event_ty <- extract_single_generic (f_ty field) "AggregateEvents";
  match find_field_with_attr ast "version" with
  | Err _ => Err "#[derive(AggregateRoot)] requires a `#[version]` field of type `u64` for optimistic concurrency control"
  | Ok version_field =>
      res! version_name <- named "version" version_field;
      Ok (mkAggregateRootImpl (impl_head (core +:+ "::AggregateRoot") ast)
            event_ty field_name version_name)
  end.

(** ** Domain events *)

(** The arms of the four generated [match]es, by variant. *)
Record DomainEventImpl := mkDomainEventImpl {
  de_head : ImplHead;
  type_arms : list (string * string);
  at_arms : list (string * string);
  id_arms : list (string * string);
  version_arms : list (string * Z);
}.

(** The options of [#[event(...)]]: the name and the version seen so far. *)
Definition event_option : Logic (string * Z) := fun meta '(vname_str, schema_version) =>
  if is_ident (nm_path meta) "name" then
    store_value (value_str meta) (fun s '(_, v) => (s, v)) (vname_str, schema_version)
  else if is_ident (nm_path meta) "schema_version" then
    store_value (value_u32 meta) (fun z '(n, _) => (n, z)) (vname_str, schema_version)
  else ((vname_str, schema_version),
        Err "unsupported option; expected `name` or `schema_version`").

(** [for attr in attrs { if !attr.path().is_ident(name) { continue; } .. }] *)
Fixpoint parse_attrs {S} (name : string) (logic : Logic S) (attrs : list Attribute) (s : S)
  : result S string :=
  match attrs with
  | [] => Ok s
  | attr :: attrs =>
      if negb (is_ident (attr_path attr) name) then parse_attrs name logic attrs s
      else match parse_nested_meta attr logic s with
           | (s, Ok _) => parse_attrs name logic attrs s
           | (_, Err e) => Err e
           end
  end.

(** One variant of the loop: its four arms. *)
Definition event_arms (v : Variant) : result (string * Z * string * string) string :=
  res! options <- parse_attrs "event" event_option (v_attrs v) (v_ident v, 0);
  let '(vname_str, schema_version) := options in
  match v_fields v with
  | Named fs =>
      res! at_field <- ok_or (field_with_attr fs "occurred_at")
                         "variant is missing a `#[occurred_at]` field (DateTime<Utc>)";
      res! id_field <- ok_or (field_with_attr fs "aggregate_id")
                         "variant is missing a `#[aggregate_id]` field";
      Ok (vname_str, schema_version, at_field, id_field)
  | _ => Err "each event variant must use named fields ({ ... })"
  end.

Fixpoint event_loop (variants : list Variant) (acc : DomainEventImpl) : result DomainEventImpl string :=
  match variants with
  | [] => Ok acc
  | v :: rest =>
      res! arms <- event_arms v;
      let '(vname_str, schema_version, at_field, id_field) := arms in
      event_loop rest
        (mkDomainEventImpl (de_head acc)
           (type_arms acc ++ [(v_ident v, vname_str)])
           (at_arms acc ++ [(v_ident v, at_field)])
           (id_arms acc ++ [(v_ident v, id_field)])
           (version_arms acc ++ [(v_ident v, schema_version)]))
  end.

Definition derive_domain_event (ast : DeriveInput) : result DomainEventImpl string :=
  let core := pp_core pharos_paths in
  match di_data ast with
  | DataEnum variants =>
      event_loop variants
        (mkDomainEventImpl (impl_head (core +:+ "::DomainEvent") ast) [] [] [] [])
  | _ => Err "#[derive(DomainEvent)] only supports enums"
  end.

(** ** Span fields *)

Inductive TraceMode := TraceValue | TraceDisplay | TraceDebug | TraceSkip.

(** [self.field] or [self.0] *)
Inductive Access := AccessName (field : string) | AccessIndex (i : nat).

(** [#key = self.#access], with the sigil of its mode. *)
Record TraceField := mkTraceField {
  tf_key : string;
  tf_mode : TraceMode;
  tf_access : Access;
}.

Definition double_quote : string := String (Ascii.ascii_of_nat 34) "".

Definition trace_option : Logic (TraceMode * option string) := fun meta '(mode, rename) =>
  let flag mode := ((mode, rename), Ok TookNothing) in
  if is_ident (nm_path meta) "skip" then flag TraceSkip
  else if is_ident (nm_path meta) "value" then flag TraceValue
  else if is_ident (nm_path meta) "display" then flag TraceDisplay
  else if is_ident (nm_path meta) "debug" then flag TraceDebug
  else if is_ident (nm_path meta) "name" then
    store_value (value_str meta) (fun s '(m, _) => (m, Some s)) (mode, rename)
  else ((mode, rename),
        Err ("expected `skip`, `value`, `display`, `debug`, or `name = "
             +:+ double_quote +:+ "..." +:+ double_quote +:+ "`")).

Definition trace_attr (f : Field) : option Attribute :=
  snd <$> list_find (fun a => is_ident (attr_path a) "trace" = true) (f_attrs f).

Definition access_of (index : nat) (f : Field) : Access :=
  match f_ident f with Some ident => AccessName ident | None => AccessIndex index end.

Definition default_key (index : nat) (f : Field) : string :=
  match f_ident f with Some ident => ident | None => "_" +:+ pretty index end.

(** One round of the loop. *)
Definition trace_field (index : nat) (field : Field) : result (option TraceField) string :=
  let attr := trace_attr field in
  let mode := match attr with
              | Some a => match attr_meta a with MetaPath => TraceValue | _ => TraceDebug end
              | None => TraceDebug
              end in
  res! options <-
    match attr with
    | Some a =>
        match attr_meta a with
        | MetaPath => Ok (mode, None)
        | _ => match parse_nested_meta a trace_option (mode, None) with
               | (s, Ok _) => Ok s
               | (_, Err e) => Err e
               end
        end
    | None => Ok (mode, None)
    end;
  let '(mode, rename) := options in
  let key := default (default_key index field) rename in
  match mode with
  | TraceSkip => Ok None
  | _ => Ok (Some (mkTraceField key mode (access_of index field)))
  end.

Fixpoint trace_loop (index : nat) (fields : list Field) : result (list TraceField) string :=
  match fields with
  | [] => Ok []
  | field :: rest =>
      res! o <- trace_field index field;
      res! out <- trace_loop (S index) rest;
      Ok (match o with Some t => t :: out | None => out end)
  end.

Definition collect_trace_fields (ast : DeriveInput) : result (list TraceField) string :=
  match struct_fields ast with
  | Some fields => trace_loop 0 fields
  | None => Ok []
  end.

(** ** Validation rules *)

Definition garde_option : Logic bool := fun meta has_rule =>
  let has_rule := if negb (is_ident (nm_path meta) "skip") then true else has_rule in
  (has_rule, Ok (match nm_arg meta with NoArg => TookNothing | _ => TookRest end)).

(** The result of [parse_nested_meta] is dropped, what it stored is kept. *)
Definition has_garde_rule (attr : Attribute) : bool := (parse_nested_meta attr garde_option false).1.

Definition has_garde_fields (ast : DeriveInput) : bool :=
  match struct_fields ast with
  | Some fields =>
      existsb (fun field =>
        existsb has_garde_rule
          (filter (fun attr => is_ident (attr_path attr) "garde" = true) (f_attrs field))) fields
  | None => false
  end.

(** ** Commands and queries *)

Inductive Dispatchable := DCommand | DQuery.

Definition Dispatchable_attr (k : Dispatchable) : string :=
  match k with DCommand => "command" | DQuery => "query" end.

(** The span name and the key of [NAME] on it. *)
Definition Dispatchable_span (k : Dispatchable) : string * string :=
  match k with DCommand => ("command.handle", "command") | DQuery => ("query.handle", "query") end.

Definition Dispatchable_trait_path (k : Dispatchable) (app : string) : string :=
  match k with DCommand => app +:+ "::Command" | DQuery => app +:+ "::Query" end.

Definition is_command (k : Dispatchable) : bool := match k with DCommand => true | DQuery => false end.

Record Options := mkOptions {
  name_override : option string;
  result_ty : option SynType;
  has_validate : bool;
  is_internal : bool;
}.

Definition dispatch_option (kind : Dispatchable) : Logic Options := fun meta o =>
  if is_ident (nm_path meta) "name" then
    store_value (value_str meta)
      (fun s o => mkOptions (Some s) (result_ty o) (has_validate o) (is_internal o)) o
  else if negb (is_command kind) && is_ident (nm_path meta) "result" then
    store_value (value_type meta)
      (fun t o => mkOptions (name_override o) (Some t) (has_validate o) (is_internal o)) o
  else if is_command kind && is_ident (nm_path meta) "validate" then
    (mkOptions (name_override o) (result_ty o) true (is_internal o), Ok TookNothing)
  else if is_command kind && is_ident (nm_path meta) "internal" then
    (mkOptions (name_override o) (result_ty o) (has_validate o) true, Ok TookNothing)
  else (o, Err "unsupported option; expected `name`, `validate`, `internal` (or `result` for queries)").

(** The span expression of a generated [trace_span]. *)
Record SpanTemplate := mkSpanTemplate {
  st_name : string;
  st_key : string;
  st_fields : list TraceField;
}.

(** The generated implementation: a template that is left out inherits the
    default of the trait. *)
Record DispatchImpl := mkDispatchImpl {
  di_head : ImplHead;
  di_name : string;
  di_internal : bool;
  di_trace_span : option SpanTemplate;
  di_validates : bool;
  di_result : option SynType;
}.

Definition expand_dispatchable (ast : DeriveInput) (kind : Dispatchable)
  : result DispatchImpl string :=
  let app := pp_app pharos_paths in
  res! o <- parse_attrs (Dispatchable_attr kind) (dispatch_option kind) (di_attrs ast)
              (mkOptions None None false false);
  let name_lit := default (di_ident ast) (name_override o) in
  let '(span_name, span_key) := Dispatchable_span kind in
  res! trace_fields <- collect_trace_fields ast;
  let trace_span_fn :=
    match trace_fields with
    | [] => None
    | _ => Some (mkSpanTemplate span_name span_key trace_fields)
    end in
  let head := impl_head (Dispatchable_trait_path kind app) ast in
  let validate_input_fn := is_command kind && (has_validate o || has_garde_fields ast) in
  match kind with
  | DCommand =>
      Ok (mkDispatchImpl head name_lit (is_internal o) trace_span_fn validate_input_fn None)
  | DQuery =>
      res! result_ty <- ok_or (result_ty o)
        "#[derive(Query)] requires the read model type: `#[query(result = Type)]`";
      Ok (mkDispatchImpl head name_lit false trace_span_fn false (Some result_ty))
  end.

Definition derive_command (ast : DeriveInput) : result DispatchImpl string :=
  expand_dispatchable ast DCommand.

Definition derive_query (ast : DeriveInput) : result DispatchImpl string :=
  expand_dispatchable ast DQuery.
End Derives.

(** ** External fields *)

(** [#[serde(skip_deserializing, default)]] *)
Definition serde_skip : Attribute :=
  mkAttribute ["serde"]
    (MetaList [mkNestedMeta ["skip_deserializing"] NoArg; mkNestedMeta ["default"] NoArg]).

Definition external_field (f : Field) : Field :=
  if has_attr "external" (f_attrs f) then
    mkField (f_ident f)
      (filter (fun a => is_ident (attr_path a) "external" = false) (f_attrs f) ++ [serde_skip])
      (f_ty f)
  else f.

Definition external_fields (ast : DeriveInput) : result DeriveInput string :=
  match di_data ast with
  | DataStruct (Named fs) =>
      Ok (mkDeriveInput (di_ident ast) (di_generics ast) (di_attrs ast)
            (DataStruct (Named (external_field <$> fs))))
  | DataStruct _ => Err "#[external_fields] requires named fields"
  | _ => Err "#[external_fields] only supports structs"
  end.

(** ** Role checks *)

Inductive Pat := PatIdent (ident : string) | PatOther.
Inductive FnArg := ArgTyped (pat : Pat) | ArgReceiver.

(** [app::Authorize::authorize(&principal, roles)?;] and the statements of
    the user. *)
Inductive Stmt (Roles Body : Type) :=
| StmtAuthorize (app principal : string) (roles : Roles)
| StmtUser (body : Body).
Arguments StmtAuthorize {Roles Body} _ _ _.
Arguments StmtUser {Roles Body} _.

Record ItemFn (Roles Body : Type) := mkItemFn {
  fn_inputs : list FnArg;
  fn_stmts : list (Stmt Roles Body);
}.
Arguments mkItemFn {Roles Body} _ _.
Arguments fn_inputs {Roles Body} _.
Arguments fn_stmts {Roles Body} _.

Record RequiresRolesArgs (Roles : Type) := mkRequiresRolesArgs {
  ra_roles : Roles;
  ra_principal : string;
}.
Arguments mkRequiresRolesArgs {Roles} _ _.
Arguments ra_roles {Roles} _.
Arguments ra_principal {Roles} _.

(** [RequiresRolesArgs::parse] of an expression, a comma and
    [keyword = ident]. *)
Definition RequiresRolesArgs_parse {Roles} (roles : Roles) (keyword ident : string)
  : result (RequiresRolesArgs Roles) string :=
  if negb (bool_decide (keyword = "principal"))
  then Err "expected `principal = <parameter name>`"
  else Ok (mkRequiresRolesArgs roles ident).

Definition is_parameter (principal : string) (arg : FnArg) : bool :=
  match arg with
  | ArgTyped (PatIdent id) => bool_decide (id = principal)
  | _ => false
  end.

Definition requires_roles `{!Syn} {Roles Body} (attr : RequiresRolesArgs Roles)
  (func : ItemFn Roles Body) : result (ItemFn Roles Body) string :=
  let principal := ra_principal attr in
  if negb (existsb (is_parameter principal) (fn_inputs func)) then
    Err ("#[requires_roles(...)] expects a parameter named `" +:+ principal
         +:+ "` (set via `principal = " +:+ principal
         +:+ "`), but no such parameter was found")
  else
    let app := pp_app pharos_paths in
    Ok (mkItemFn (fn_inputs func) (StmtAuthorize app principal (ra_roles attr) :: fn_stmts func)).

(** ** Identifier types *)

(** [pub struct #name(#uuid::Uuid)] with its impls. *)
Record IdTypeItem := mkIdTypeItem { it_name : string; it_paths : ExternalPaths }.

Definition id_type `{!Syn} (idents : list string) : list IdTypeItem :=
  (fun name => mkIdTypeItem name external_paths) <$> idents.
