(* ===== verification/Derived.v ===== *)
(** * What the derived code does

    The meaning of the templates of Macros: the implementations
    [#[derive(..)]] generates, run on values of the type they are derived
    for, and the functions [#[requires_roles]] rewrites.  The theorems tie
    the annotations of a type to the behaviour the other components rely on:
    the aggregate-root laws of Core, the command seam of Dispatch, the event
    identity the bus and the upcasters key on. *)

From S2P Require Import Prelude Core AggregateStore Tenancy Dispatch Macros.
Local Open Scope Z_scope.

(** ** What [syn] documents of [parse_nested_meta] *)

(** The logic is called on the options in turn; it must leave the input at a
    comma or at the end, and its first error ends the attribute. *)
Fixpoint run_options {S} (logic : Logic S) (options : list NestedMeta) (s : S)
  : S * result unit string :=
  match options with
  | [] => (s, Ok tt)
  | m :: rest =>
      match logic m s with
      | (s, Err e) => (s, Err e)
      | (s, Ok TookRest) => (s, Ok tt)
      | (s, Ok TookValue) => run_options logic rest s
      | (s, Ok TookNothing) =>
          match nm_arg m with
          | NoArg => run_options logic rest s
          | _ => (s, Err "expected `,`")
          end
      end
  end.

Class SynLaws `{!Syn} : Prop := {
  nested_list {S} attr options (logic : Logic S) s :
    attr_meta attr = MetaList options -> parse_nested_meta attr logic s = run_options logic options s;
  nested_other {S} attr (logic : Logic S) s :
    (forall options, attr_meta attr <> MetaList options) ->
    exists e, parse_nested_meta attr logic s = (s, Err e);
}.

(** ** Entities and aggregate roots *)

Section Aggregates.
Context {Id Ev X : Type} `{!Inhabited Id}.

(** The values the fields of an aggregate hold. *)
Inductive FieldValue :=
| FvId (id : Id)
| FvEvents (b : AggregateEvents Ev)
| FvU64 (v : Z)
| FvOther (x : X).

Definition StructValue : Type := string -> FieldValue.

(** [self.f = v] *)
Definition write (f : string) (v : FieldValue) (s : StructValue) : StructValue :=
  fun g => if decide (g = f) then v else s g.

Section Impl.
Context (en : EntityImpl) (ar : AggregateRootImpl).

(** What the compiler checks of the generated code. *)
Definition well_typed (s : StructValue) : Prop :=
  (exists id, s (en_field en) = FvId id)
  /\ (exists b, s (ar_events ar) = FvEvents b)
  /\ exists v, s (ar_version ar) = FvU64 v.

Definition Derived : Type := { s : StructValue | well_typed s }.

Definition read_id (s : StructValue) : Id :=
  match s (en_field en) with FvId id => id | _ => inhabitant end.
Definition read_events (s : StructValue) : AggregateEvents Ev :=
  match s (ar_events ar) with FvEvents b => b | _ => AggregateEvents_default end.
Definition read_version (s : StructValue) : Z :=
  match s (ar_version ar) with FvU64 v => v | _ => 0 end.

Lemma typed_events s b : well_typed s -> well_typed (write (ar_events ar) (FvEvents b) s).
Proof.
  intros ((id & Hi) & (b0 & Hb) & (v & Hv)). unfold well_typed, write.
  split_and!; case_decide; simplify_eq; eauto; congruence.
Qed.

Lemma typed_version s v : well_typed s -> well_typed (write (ar_version ar) (FvU64 v) s).
Proof.
  intros ((id & Hi) & (b0 & Hb) & (v0 & Hv)). unfold well_typed, write.
  split_and!; case_decide; simplify_eq; eauto; congruence.
Qed.

(** The generated [impl AggregateRoot], with [Entity::id]. *)
Definition derived_root : AggregateRoot Derived Id Ev := {|
  agg_id s := read_id (`s);
  pending_events s := pending (read_events (`s));
  drain_events s :=
    let '(es, b) := AggregateEvents_drain (read_events (`s)) in
    (es, exist _ (write (ar_events ar) (FvEvents b) (`s)) (typed_events _ b (proj2_sig s)));
  restore_events es s :=
    exist _ (write (ar_events ar) (FvEvents (AggregateEvents_restore es (read_events (`s)))) (`s))
      (typed_events _ _ (proj2_sig s));
  version s := read_version (`s);
  set_version v s :=
    exist _ (write (ar_version ar) (FvU64 v) (`s)) (typed_version _ v (proj2_sig s));
|}.

(** The three fields are different, because their types are. *)
Lemma read_write_events s b :
  well_typed s ->
  let s' := write (ar_events ar) (FvEvents b) s in
  read_id s' = read_id s /\ read_events s' = b /\ read_version s' = read_version s.
Proof.
  intros ((id & Hi) & (b0 & Hb) & (v & Hv)). unfold read_id, read_events, read_version, write.
  repeat case_decide; simplify_eq; try congruence; done.
Qed.

Lemma read_write_version s v :
  well_typed s ->
  let s' := write (ar_version ar) (FvU64 v) s in
  read_id s' = read_id s /\ read_events s' = read_events s /\ read_version s' = v.
Proof.
  intros ((id & Hi) & (b0 & Hb) & (v0 & Hv)). unfold read_id, read_events, read_version, write.
  repeat case_decide; simplify_eq; try congruence; done.
Qed.

#[export] Instance derived_root_laws : AggregateRootLaws derived_root.
Proof.
  constructor; cbn; intros; try done;
    try by apply (read_write_events _ _ (proj2_sig a)).
  - by rewrite (proj1 (proj2 (read_write_events _ _ (proj2_sig a)))).
  - rewrite (proj1 (proj2 (read_write_events _ _ (proj2_sig a)))).
    apply AggregateEvents_restore_pending.
  - by apply (read_write_version _ _ (proj2_sig a)).
  - by rewrite (proj1 (proj2 (read_write_version _ _ (proj2_sig a)))).
  - by apply (read_write_version _ _ (proj2_sig a)).
Qed.
End Impl.
End Aggregates.
Arguments FieldValue : clear implicits.
Arguments StructValue : clear implicits.
Arguments Derived : clear implicits.

(** The first field annotated with [#[attr]], its name and its type. *)
Definition annotated (fs : list Field) (attr name : string) (ty : SynType) : Prop :=
  exists l1 f l2, fs = l1 ++ f :: l2 /\ Forall (fun g => has_attr attr (f_attrs g) = false) l1
    /\ has_attr attr (f_attrs f) = true /\ f_ident f = Some name /\ f_ty f = ty.

(** [ty] is a path ending in [wrapper<inner, ..>]. *)
Definition wraps (ty : SynType) (wrapper : string) (inner : SynType) : Prop :=
  exists segments rest,
    ty = TypePath (segments ++ [mkPathSegment wrapper (AngleBracketed (GenericType inner :: rest))]).

Lemma find_field_spec ast attr f name :
  find_field_with_attr ast attr = Ok f -> named attr f = Ok name ->
  exists fs, di_data ast = DataStruct (Named fs) /\ annotated fs attr name (f_ty f).
Proof.
  unfold find_field_with_attr. destruct (di_data ast) as [[fs|fs|]| |]; try done.
  destruct (list_find _ fs) as [[i g]|] eqn:Hf; [|done]. cbn. intros [= ->] Hn. exists fs.
  split; [done|]. apply list_find_Some in Hf as (Hi & Hg & Hl).
  exists (take i fs), f, (drop (S i) fs). split_and!; try done.
  - by rewrite take_drop_middle.
  - apply Forall_forall. intros g Hg'. apply elem_of_take in Hg' as (j & Hj & Hlt).
    apply not_true_is_false. by eapply Hl.
  - unfold named, ok_or in Hn. destruct (f_ident f); congruence.
Qed.

Lemma extract_spec ty wrapper inner :
  extract_single_generic ty wrapper = Ok inner <-> wraps ty wrapper inner.
Proof.
  unfold extract_single_generic, wraps. split.
  - destruct ty as [segments|]; [|done]. destruct (last segments) as [[ident args]|] eqn:Hl; [|done].
    destruct args as [|[|[t|] rest]|]; try done. case_decide; [|done]. intros [= ->]. subst.
    apply last_Some in Hl as (init & ->). eauto.
  - intros (segments & rest & ->). rewrite last_snoc. by rewrite decide_True.
Qed.

(** C38: what the derives of [Entity] and [AggregateRoot] accept and what they
    promise: a struct they accept has named fields, the implementation reads
    and writes the first field carrying each annotation, the events field has
    the type [AggregateEvents<E>] of the event type declared, and the
    implementation satisfies the laws repositories, units of work and
    aggregate stores are proved against. *)
Theorem derived_aggregate_lawful `{!Syn} {Id Ev X : Type} `{!Inhabited Id} ast en ar :
  derive_entity ast = Ok en -> derive_aggregate_root ast = Ok ar ->
  (exists fs ev_ty ver_ty, di_data ast = DataStruct (Named fs)
    /\ annotated fs "id" (en_field en) (en_Id en)
    /\ annotated fs "events" (ar_events ar) ev_ty /\ wraps ev_ty "AggregateEvents" (ar_Event ar)
    /\ annotated fs "version" (ar_version ar) ver_ty)
  /\ AggregateRootLaws (derived_root (Id := Id) (Ev := Ev) (X := X) en ar).
Proof.
  intros Hen Har. split; [|apply derived_root_laws].
  unfold derive_entity, rbind in Hen. destruct (find_field_with_attr ast "id") as [f|] eqn:Hf; [|done].
  destruct (named "id" f) as [name|] eqn:Hn; [|done]. injection Hen as <-.
  destruct (find_field_spec _ _ _ _ Hf Hn) as (fs & Hfs & Hid).
  unfold derive_aggregate_root, rbind in Har.
  destruct (find_field_with_attr ast "events") as [g|] eqn:Hg; [|done].
  destruct (named "events" g) as [gname|] eqn:Hgn; [|done].
  destruct (extract_single_generic _ _) as [inner|] eqn:Hx; [|done].
  destruct (find_field_with_attr ast "version") as [h|] eqn:Hh; [|done].
  destruct (named "version" h) as [hname|] eqn:Hhn; [|done]. injection Har as <-.
  destruct (find_field_spec _ _ _ _ Hg Hgn) as (fs' & Hfs' & Hev).
  destruct (find_field_spec _ _ _ _ Hh Hhn) as (fs'' & Hfs'' & Hver).
  apply extract_spec in Hx. exists fs, (f_ty g), (f_ty h).
  assert (fs' = fs) as -> by congruence. assert (fs'' = fs) as -> by congruence. done.
Qed.

(** ** Domain events *)

Inductive EventField := EfTime (t : Instant) | EfStr (s : string) | EfOther.

Record EventValue := mkEventValue { ev_variant : string; ev_fields : string -> EventField }.

(** [match self { Self::V { .. } => .. }]: the first arm of the variant. *)
Definition arm {A} (arms : list (string * A)) (v : EventValue) : option A :=
  (fun p => p.2.2) <$> list_find (fun a => a.1 = ev_variant v) arms.

Section EventMethods.
Context (impl : DomainEventImpl) (v : EventValue).

Definition event_type : option string := arm (type_arms impl) v.
Definition schema_version : option Z := arm (version_arms impl) v.
Definition occurred_at : option Instant :=
  f ← arm (at_arms impl) v; match ev_fields v f with EfTime t => Some t | _ => None end.
Definition aggregate_id : option string :=
  f ← arm (id_arms impl) v; match ev_fields v f with EfStr s => Some s | _ => None end.
End EventMethods.

(** The options of the [#[name(..)]] attributes of an item, in order. *)
Definition attr_options (name : string) (attrs : list Attribute) : list NestedMeta :=
  a ← attrs;
  if is_ident (attr_path a) name
  then match attr_meta a with MetaList options => options | _ => [] end else [].

Definition option_name (m : NestedMeta) : option string :=
  if is_ident (nm_path m) "name" then
    match nm_arg m with Equals (LitStr s) => Some s | _ => None end else None.

Definition option_version (m : NestedMeta) : option Z :=
  if is_ident (nm_path m) "schema_version" then
    match nm_arg m with Equals (LitInt z) => Some z | _ => None end else None.

(** The last option that gives a value wins. *)
Definition last_option {A} (f : NestedMeta -> option A) (options : list NestedMeta) (a : A) : A :=
  foldl (fun a m => default a (f m)) a options.

Lemma last_option_app {A} (f : NestedMeta -> option A) l1 l2 a :
  last_option f (l1 ++ l2) a = last_option f l2 (last_option f l1 a).
Proof. apply foldl_app. Qed.

Lemma is_ident_true p x : is_ident p x = true -> p = [x].
Proof. apply bool_decide_eq_true. Qed.

Section Laws.
Context `{!Syn, !SynLaws}.

(** An attribute that is read without error has a list of options. *)
Lemma nested_ok {S} attr (logic : Logic S) s s' :
  parse_nested_meta attr logic s = (s', Ok tt) ->
  exists options, attr_meta attr = MetaList options /\ run_options logic options s = (s', Ok tt).
Proof.
  intros Hp. destruct (attr_meta attr) as [|options|v] eqn:Hm.
  - destruct (nested_other attr logic s) as [e He]; [congruence|]. congruence.
  - exists options. by rewrite <- (nested_list _ _ _ _ Hm).
  - destruct (nested_other attr logic s) as [e He]; [congruence|]. congruence.
Qed.

Lemma event_option_run options n z s' :
  run_options event_option options (n, z) = (s', Ok tt) ->
  s' = (last_option option_name options n, last_option option_version options z).
Proof.
  revert n z. induction options as [|m rest IH]; intros n z; [by intros [= <-]|].
  cbn [run_options]. unfold event_option at 1, store_value, value_str, value_u32.
  unfold last_option. cbn [foldl]. unfold option_name at 2, option_version at 2.
  destruct (is_ident (nm_path m) "name") eqn:Hn.
  - apply is_ident_true in Hn. rewrite Hn. cbn.
    destruct (nm_arg m) as [|[]|]; cbn; try done. apply IH.
  - destruct (is_ident (nm_path m) "schema_version") eqn:Hv; [|done].
    destruct (nm_arg m) as [|[]|]; cbn; try done. destruct (_ && _); cbn; [|done]. apply IH.
Qed.

Lemma parse_attrs_event attrs n z s' :
  parse_attrs "event" event_option attrs (n, z) = Ok s' ->
  s' = (last_option option_name (attr_options "event" attrs) n,
        last_option option_version (attr_options "event" attrs) z).
Proof.
  revert n z. induction attrs as [|a attrs IH]; intros n z; [by intros [= <-]|].
  cbn [parse_attrs]. unfold attr_options. rewrite bind_cons. fold (attr_options "event" attrs).
  destruct (is_ident (attr_path a) "event"); cbn [negb]; [|apply IH].
  destruct (parse_nested_meta a event_option (n, z)) as [s [[]|e]] eqn:Hp; [|done].
  apply nested_ok in Hp as (options & -> & Hr). apply event_option_run in Hr as ->.
  intros Hs. apply IH in Hs as ->. by rewrite !last_option_app.
Qed.

(** The arms the loop adds, variant by variant. *)
Lemma event_loop_arms variants acc impl :
  event_loop variants acc = Ok impl ->
  exists arms, Forall2 (fun v a => event_arms v = Ok a) variants arms
    /\ type_arms impl = type_arms acc ++ zip_with (fun v a => (v_ident v, a.1.1.1)) variants arms
    /\ version_arms impl = version_arms acc ++ zip_with (fun v a => (v_ident v, a.1.1.2)) variants arms
    /\ at_arms impl = at_arms acc ++ zip_with (fun v a => (v_ident v, a.1.2)) variants arms
    /\ id_arms impl = id_arms acc ++ zip_with (fun v a => (v_ident v, a.2)) variants arms.
Proof.
  revert acc. induction variants as [|v rest IH]; intros acc.
  { intros [= <-]. exists []. by rewrite !app_nil_r. }
  cbn. unfold rbind. destruct (event_arms v) as [[[[n z] at_] id_]|e] eqn:Hv; [|done].
  intros Hl. destruct (IH _ Hl) as (arms & Hf & H1 & H2 & H3 & H4).
  exists ((n, z, at_, id_) :: arms). split; [by constructor|].
  rewrite H1, H2, H3, H4. cbn. by rewrite <- !app_assoc.
Qed.

(** A variant finds its own arm. *)
Lemma arm_of {A B} variants (arms : list B) (g : B -> A) v a value :
  NoDup (v_ident <$> variants) -> ev_variant value = v_ident v ->
  (v, a) ∈ zip variants arms ->
  arm (zip_with (fun v a => (v_ident v, g a)) variants arms) value = Some (g a).
Proof.
  intros Hnd Hval. revert arms. induction variants as [|v0 rest IH]; intros [|a0 arms];
    cbn; rewrite ?elem_of_nil; try done.
  apply NoDup_cons in Hnd as [Hni Hnd]. rewrite elem_of_cons. unfold arm. cbn. rewrite Hval.
  intros [[= -> ->]|Hin]; [by rewrite decide_True|].
  rewrite decide_False.
  - specialize (IH Hnd arms Hin). unfold arm in IH. rewrite Hval in IH.
    destruct (list_find _ (zip_with _ _ _)) as [[i p]|]; cbn in *; done.
  - intros Heq. apply Hni. rewrite Heq. apply list_elem_of_fmap. exists v.
    split; [done|]. by apply elem_of_zip_l in Hin.
Qed.

Lemma event_arms_fields v n z at_ id_ :
  event_arms v = Ok (n, z, at_, id_) ->
  n = last_option option_name (attr_options "event" (v_attrs v)) (v_ident v)
  /\ z = last_option option_version (attr_options "event" (v_attrs v)) 0
  /\ exists fs, v_fields v = Named fs /\ field_with_attr fs "occurred_at" = Some at_
       /\ field_with_attr fs "aggregate_id" = Some id_.
Proof.
  unfold event_arms, rbind.
  destruct (parse_attrs "event" event_option (v_attrs v) (v_ident v, 0)) as [[n' z']|e] eqn:Hp;
    [|done].
  apply parse_attrs_event in Hp as [= -> ->]. destruct (v_fields v) as [fs|fs|]; try done.
  unfold ok_or. destruct (field_with_attr fs "occurred_at") as [a|] eqn:Ha; [|done].
  destruct (field_with_attr fs "aggregate_id") as [i|] eqn:Hi; [|done].
  intros [= <- <- <- <-]. split_and!; eauto.
Qed.

(** A value the compiler accepts for a variant: the annotated fields have the
    types the generated code needs. *)
Definition event_typed (v : Variant) (value : EventValue) (t : Instant) (id : string) : Prop :=
  ev_variant value = v_ident v
  /\ (forall fs f, v_fields v = Named fs -> field_with_attr fs "occurred_at" = Some f ->
        ev_fields value f = EfTime t)
  /\ forall fs f, v_fields v = Named fs -> field_with_attr fs "aggregate_id" = Some f ->
        ev_fields value f = EfStr id.

(** The identity of a derived event: for every variant of an enum the
    derive accepts, [event_type] is the last [#[event(name = ..)]] of the
    variant or else its identifier, [schema_version] the last
    [#[event(schema_version = ..)]] or else 0, and [occurred_at] and
    [aggregate_id] are the fields annotated for it; no value is left without
    an arm. *)
Theorem derived_event_identity ast variants impl v value t id :
  derive_domain_event ast = Ok impl -> di_data ast = DataEnum variants ->
  NoDup (v_ident <$> variants) -> v ∈ variants -> event_typed v value t id ->
  event_type impl value = Some (last_option option_name (attr_options "event" (v_attrs v)) (v_ident v))
  /\ schema_version impl value = Some (last_option option_version (attr_options "event" (v_attrs v)) 0)
  /\ occurred_at impl value = Some t /\ aggregate_id impl value = Some id.
Proof.
  unfold derive_domain_event. intros Hd Hdata Hnd Hv (Hval & Hat & Hid). rewrite Hdata in Hd.
  apply event_loop_arms in Hd as (arms & Harms & H1 & H2 & H3 & H4). cbn in H1, H2, H3, H4.
  apply list_elem_of_lookup in Hv as (i & Hi).
  destruct (Forall2_lookup_l _ _ _ _ _ Harms Hi) as ([[[n z] at_] id_] & Hai & Ha).
  assert (Hzip : (v, (n, z, at_, id_)) ∈ zip variants arms).
  { apply list_elem_of_lookup. exists i. by rewrite lookup_zip_with, Hi, Hai. }
  apply event_arms_fields in Ha as (-> & -> & fs & Hfs & Hf1 & Hf2).
  unfold event_type, schema_version, occurred_at, aggregate_id. rewrite H1, H2, H3, H4.
  rewrite !(arm_of _ _ _ _ _ _ Hnd Hval Hzip). cbn.
  by rewrite (Hat _ _ Hfs Hf1), (Hid _ _ Hfs Hf2).
Qed.
End Laws.

(** ** Commands and queries *)

(** The values of the fields, by the expression that reads them. *)
Abbreviation CommandValue V := (Access -> V).

Record Span := mkSpan { span_name : string; span_fields : list (string * string) }.

Section Commands.
Context {V : Type} (value display debug : V -> string).

Definition record (mode : TraceMode) (v : V) : string :=
  match mode with
  | TraceValue => value v
  | TraceDisplay => display v
  | TraceDebug | TraceSkip => debug v
  end.

(** The generated [trace_span], or the default of the trait. *)
Definition derived_span (kind : Dispatchable) (impl : DispatchImpl) (self : CommandValue V) : Span :=
  match di_trace_span impl with
  | Some t =>
      mkSpan (st_name t)
        ((st_key t, di_name impl)
         :: ((fun f => (tf_key f, record (tf_mode f) (self (tf_access f)))) <$> st_fields t))
  | None => mkSpan (Dispatchable_span kind).1 [((Dispatchable_span kind).2, di_name impl)]
  end.

(** [garde::Validate::validate]: the report, as paths and messages. *)
Context (garde : CommandValue V -> result unit (list (string * string))).

(** The generated [impl Command]. *)
Definition derived_command (impl : DispatchImpl) : Command (CommandValue V) := {|
  NAME := di_name impl;
  INTERNAL_ONLY := di_internal impl;
  validate_input self :=
    if di_validates impl then
      match garde self with
      | Ok _ => Ok tt
      | Err report => Err (mkValidationError ((fun '(p, m) => mkFieldViolation p m) <$> report))
      end
    else Ok tt;
|}.
End Commands.

(** How the annotations ask for a field to be recorded: its key and mode, or
    not at all.  Only the first [#[trace]] attribute counts. *)
Definition option_mode (m : NestedMeta) : option TraceMode :=
  if is_ident (nm_path m) "skip" then Some TraceSkip
  else if is_ident (nm_path m) "value" then Some TraceValue
  else if is_ident (nm_path m) "display" then Some TraceDisplay
  else if is_ident (nm_path m) "debug" then Some TraceDebug
  else None.

Definition recorded (index : nat) (f : Field) : option (string * TraceMode) :=
  match attr_meta <$> trace_attr f with
  | None => Some (default_key index f, TraceDebug)
  | Some (MetaList options) =>
      match last_option option_mode options TraceDebug with
      | TraceSkip => None
      | mode => Some (last_option option_name options (default_key index f), mode)
      end
  | Some _ => Some (default_key index f, TraceValue)
  end.

Section SpanLaws.
Context `{!Syn, !SynLaws}.

Lemma trace_option_run options mode rename key s' :
  run_options trace_option options (mode, rename) = (s', Ok tt) ->
  s'.1 = last_option option_mode options mode
  /\ default key s'.2 = last_option option_name options (default key rename).
Proof.
  revert mode rename. induction options as [|m rest IH]; intros mode rename; [by intros [= <-]|].
  cbn [run_options]. unfold trace_option at 1, store_value, value_str.
  unfold last_option. cbn [foldl]. unfold option_mode at 2, option_name at 2.
  destruct (is_ident (nm_path m) "skip") eqn:H1;
    [|destruct (is_ident (nm_path m) "value") eqn:H2;
      [|destruct (is_ident (nm_path m) "display") eqn:H3;
        [|destruct (is_ident (nm_path m) "debug") eqn:H4]]].
  1-4: match goal with H : is_ident _ _ = true |- _ => apply is_ident_true in H; rewrite H end;
    cbn; destruct (nm_arg m); try done; apply IH.
  destruct (is_ident (nm_path m) "name"); [|done].
  destruct (nm_arg m) as [|[]|]; cbn; try done. intros Hrun. by apply IH in Hrun.
Qed.

Lemma trace_field_recorded index f o :
  trace_field index f = Ok o ->
  o = (fun '(key, mode) => mkTraceField key mode (access_of index f)) <$> recorded index f.
Proof.
  unfold trace_field, recorded, rbind. destruct (trace_attr f) as [a|]; cbn; [|by intros [= <-]].
  destruct (attr_meta a) as [|options|v] eqn:Hm; cbn; [by intros [= <-]| |].
  - rewrite (nested_list _ _ _ _ Hm).
    destruct (run_options trace_option options (TraceDebug, None)) as [[mode rename] [[]|e]] eqn:Hr;
      [|done].
    destruct (trace_option_run _ _ _ (default_key index f) _ Hr) as [Hmode Hkey]. cbn in Hmode, Hkey.
    subst mode. rewrite <- Hkey. destruct (last_option option_mode _ _); by intros [= <-].
  - destruct (nested_other a trace_option (TraceDebug, None)) as [e ->]; [congruence|done].
Qed.

Lemma trace_loop_recorded index fs out :
  trace_loop index fs = Ok out ->
  out = omap id (imap (fun i f => (fun '(key, mode) => mkTraceField key mode (access_of (index + i) f))
                          <$> recorded (index + i) f) fs).
Proof.
  revert index out. induction fs as [|f fs IH]; intros index out; [by intros [= <-]|].
  cbn. unfold rbind. destruct (trace_field index f) as [o|] eqn:Ho; [|done].
  destruct (trace_loop (S index) fs) as [out'|] eqn:Hl; [|done]. intros [= <-].
  apply trace_field_recorded in Ho as ->. apply IH in Hl as ->. rewrite Nat.add_0_r.
  assert (Hi : forall A (g : nat -> Field -> A),
    imap (fun i f => g (S index + i)%nat f) fs = imap (fun i f => g (index + S i)%nat f) fs).
  { intros A g. apply imap_ext. intros i x _. by rewrite Nat.add_succ_comm. }
  rewrite (Hi _ (fun i f => (fun '(key, mode) => mkTraceField key mode (access_of i f)) <$> recorded i f)).
  by destruct (recorded index f) as [[key mode]|].
Qed.

Lemma expand_span kind ast fs impl :
  expand_dispatchable ast kind = Ok impl -> struct_fields ast = Some fs ->
  exists out, trace_loop 0 fs = Ok out /\
    di_trace_span impl = match out with
                         | [] => None
                         | _ => Some (mkSpanTemplate (Dispatchable_span kind).1 (Dispatchable_span kind).2 out)
                         end.
Proof.
  unfold expand_dispatchable, collect_trace_fields, rbind. intros He Hfs. rewrite Hfs in He.
  destruct (parse_attrs _ _ _ _) as [o|]; [|done].
  destruct kind; cbn in He |- *; destruct (trace_loop 0 fs) as [out|]; try done; exists out.
  - injection He as <-. by destruct out.
  - destruct (result_ty o); [|done]. injection He as <-. by destruct out.
Qed.

Lemma fmap_omap_id {A B} (h : A -> B) (l : list (option A)) :
  h <$> omap id l = omap id (fmap h <$> l).
Proof. induction l as [|[a|] l IH]; cbn; [done|by rewrite IH|done]. Qed.

(** The span of a derived command or query carries its name and then, in
    the order of declaration, exactly the fields the annotations ask for,
    each under its key and in its mode: every field is recorded through
    [Debug] unless annotated otherwise, and one marked [#[trace(skip)]] is
    not.  So the span does not depend on a skipped field, nor on what two
    values render alike, such as secrets. *)
Theorem derived_span_exact {V} (value display debug : V -> string) kind ast fs impl
  (self self' : CommandValue V) :
  expand_dispatchable ast kind = Ok impl -> struct_fields ast = Some fs ->
  let rendered (self : CommandValue V) i f :=
    (fun '(key, mode) => (key, record value display debug mode (self (access_of i f))))
      <$> recorded i f in
  derived_span value display debug kind impl self
  = mkSpan (Dispatchable_span kind).1
      (((Dispatchable_span kind).2, di_name impl) :: omap id (imap (rendered self) fs))
  /\ ((forall i f, fs !! i = Some f -> rendered self i f = rendered self' i f) ->
      derived_span value display debug kind impl self
      = derived_span value display debug kind impl self').
Proof.
  intros He Hfs rendered. destruct (expand_span _ _ _ _ He Hfs) as (out & Hout & Ht).
  apply trace_loop_recorded in Hout.
  assert (Hspan : forall s, derived_span value display debug kind impl s
    = mkSpan (Dispatchable_span kind).1
        (((Dispatchable_span kind).2, di_name impl) :: omap id (imap (rendered s) fs))).
  { intros s. unfold derived_span. rewrite Ht.
    assert (Hr : omap id (imap (rendered s) fs)
      = (fun f => (tf_key f, record value display debug (tf_mode f) (s (tf_access f)))) <$> out).
    { rewrite Hout, fmap_omap_id, fmap_imap. f_equal. apply imap_ext. intros i f _.
      unfold rendered. cbn. by destruct (recorded i f) as [[key mode]|]. }
    rewrite Hr. by destruct out. }
  split; [apply Hspan|]. intros Hsame. rewrite !Hspan. do 3 f_equal. by apply imap_ext.
Qed.
End SpanLaws.

(** ** Validation and the internal marker *)

(** The attribute puts a rule on its field: an option other than [skip]
    (which takes no argument). *)
Definition has_rule (a : Attribute) : Prop :=
  attr_path a = ["garde"] /\
  exists options, attr_meta a = MetaList options
    /\ (exists m, m ∈ options /\ nm_path m <> ["skip"])
    /\ Forall (fun m => nm_path m = ["skip"] -> nm_arg m = NoArg) options.

(** Named and positional fields alike. *)
Lemma struct_fields_shape ast fs :
  di_data ast = DataStruct (Named fs) \/ di_data ast = DataStruct (Unnamed fs) ->
  struct_fields ast = Some fs.
Proof. unfold struct_fields. by intros [-> | ->]. Qed.

Section Guards.
Context `{!Syn, !SynLaws}.

Lemma garde_run options b :
  Forall (fun m => nm_path m = ["skip"] -> nm_arg m = NoArg) options ->
  (run_options garde_option options b).1 = true <-> b = true \/ exists m, m ∈ options /\ nm_path m <> ["skip"].
Proof.
  intros Hskip. revert b. induction Hskip as [|m rest Hm Hrest IH]; intros b; cbn.
  { split; [by left|]. intros [->|(m & Hm & _)]; [done|by apply not_elem_of_nil in Hm]. }
  unfold is_ident. destruct (decide (nm_path m = ["skip"])) as [Hs|Hs].
  - rewrite bool_decide_true by done. rewrite (Hm Hs). cbn. rewrite IH.
    split; (intros [?|(m' & Hin & Hp)]; [by left|right]).
    + exists m'. split; [by right|done].
    + apply elem_of_cons in Hin as [->|Hin]; [done|eauto].
  - rewrite bool_decide_false by done. cbn. split; [intros _; right; exists m; split; [by left|done]|].
    intros _. destruct (nm_arg m); try done. rewrite IH. by left.
Qed.

Lemma has_garde_fields_rule ast fs f a :
  struct_fields ast = Some fs -> f ∈ fs -> a ∈ f_attrs f -> has_rule a ->
  has_garde_fields ast = true.
Proof.
  intros Hfs Hf Ha (Hp & options & Hm & Hrule & Hskip). unfold has_garde_fields. rewrite Hfs.
  apply existsb_exists. exists f. split; [by apply list_elem_of_In|].
  apply existsb_exists. exists a. split.
  - apply list_elem_of_In, list_elem_of_filter. split; [by apply bool_decide_eq_true|done].
  - unfold has_garde_rule. rewrite (nested_list _ _ _ _ Hm).
    apply garde_run; [done|]. by right.
Qed.

Lemma command_internal_run options o s' :
  run_options (dispatch_option DCommand) options o = (s', Ok tt) ->
  is_internal s' = is_internal o || existsb (fun m => is_ident (nm_path m) "internal") options.
Proof.
  revert o. induction options as [|m rest IH]; intros o; cbn.
  { intros [= <-]. by rewrite orb_false_r. }
  unfold dispatch_option, store_value, value_str. cbn.
  destruct (is_ident (nm_path m) "name") eqn:Hn.
  { apply is_ident_true in Hn. rewrite Hn. cbn.
    destruct (nm_arg m) as [|[]|]; cbn; try done. intros Hr. by apply IH in Hr. }
  destruct (is_ident (nm_path m) "validate") eqn:Hv.
  { apply is_ident_true in Hv. rewrite Hv. cbn.
    destruct (nm_arg m); cbn; try done. intros Hr. by apply IH in Hr. }
  destruct (is_ident (nm_path m) "internal"); [|done].
  destruct (nm_arg m); cbn; try done. intros Hr. apply IH in Hr. cbn in Hr.
  by rewrite Hr, orb_true_r.
Qed.

Lemma command_internal attrs o s' :
  parse_attrs "command" (dispatch_option DCommand) attrs o = Ok s' ->
  is_internal s'
  = is_internal o || existsb (fun m => is_ident (nm_path m) "internal") (attr_options "command" attrs).
Proof.
  revert o. induction attrs as [|a attrs IH]; intros o; cbn [parse_attrs].
  { intros [= <-]. by rewrite orb_false_r. }
  unfold attr_options. rewrite bind_cons. fold (attr_options "command" attrs).
  destruct (is_ident (attr_path a) "command"); cbn [negb]; [|apply IH].
  destruct (parse_nested_meta a (dispatch_option DCommand) o) as [s [[]|e]] eqn:Hp; [|done].
  apply nested_ok in Hp as (options & -> & Hr). apply command_internal_run in Hr.
  intros Hs. apply IH in Hs. by rewrite Hs, Hr, existsb_app, orb_assoc.
Qed.

Lemma derive_command_spec ast impl :
  derive_command ast = Ok impl ->
  di_internal impl = existsb (fun m => is_ident (nm_path m) "internal")
                       (attr_options "command" (di_attrs ast))
  /\ (has_garde_fields ast = true -> di_validates impl = true).
Proof.
  unfold derive_command, expand_dispatchable, rbind. cbn [Dispatchable_attr Dispatchable_span].
  destruct (parse_attrs _ _ _ _) as [o|] eqn:Ho; [|done]. apply command_internal in Ho.
  destruct (collect_trace_fields ast); [|done]. intros [= <-]. cbn.
  split; [done|]. intros ->. by rewrite orb_true_r.
Qed.


(** On an enum the derive looks at no field: the rules on the fields of its
    variants are not enforced, and its span records none of them. *)
Lemma enum_command_unguarded {V} (garde : CommandValue V -> result unit (list (string * string)))
  ast variants impl c :
  di_data ast = DataEnum variants -> di_attrs ast = [] -> derive_command ast = Ok impl ->
  validate_input (Command := derived_command garde impl) c = Ok tt /\ di_trace_span impl = None.
Proof.
  unfold derive_command, expand_dispatchable, collect_trace_fields, has_garde_fields, struct_fields.
  intros Hdata Hattrs. rewrite Hdata, Hattrs. by intros [= <-].
Qed.
End Guards.

(** Of two [#[trace]] attributes the second is not looked at: this field is
    recorded. *)
Example second_trace_attribute_ignored :
  let trace option := mkAttribute ["trace"] (MetaList [mkNestedMeta [option] NoArg]) in
  recorded 0 (mkField (Some "xml") [trace "display"; trace "skip"] (TypeOther "String"))
  = Some ("xml", TraceDisplay).
Proof. reflexivity. Qed.

(** ** External fields *)

Definition unmarked (f : Field) : list Attribute :=
  filter (fun a => is_ident (attr_path a) "external" = false) (f_attrs f).

Lemma unmarked_has l :
  has_attr "external" (filter (fun a => is_ident (attr_path a) "external" = false) l) = false.
Proof.
  apply not_true_is_false. intros (a & Hin & Ha)%existsb_exists.
  apply list_elem_of_In, list_elem_of_filter in Hin as [Hf _]. congruence.
Qed.

Lemma external_field_unmarked f : has_attr "external" (f_attrs (external_field f)) = false.
Proof.
  unfold external_field. destruct (has_attr "external" (f_attrs f)) eqn:Hm; [|done]. cbn.
  unfold has_attr. rewrite existsb_app. cbn. rewrite orb_false_r. apply unmarked_has.
Qed.

(** [#[external_fields]] on a struct with named fields: no marker is left,
    names, types and the other attributes stay as they were, exactly the
    marked fields get the serde attribute, at the end, and applying it again
    changes nothing. *)
Theorem external_fields_exact ast ast' :
  external_fields ast = Ok ast' ->
  (exists fs fs', di_data ast = DataStruct (Named fs) /\ di_data ast' = DataStruct (Named fs')
    /\ Forall2 (fun f f' => f_ident f' = f_ident f /\ f_ty f' = f_ty f
         /\ has_attr "external" (f_attrs f') = false
         /\ f_attrs f' = if has_attr "external" (f_attrs f) then unmarked f ++ [serde_skip]
                         else f_attrs f) fs fs')
  /\ external_fields ast' = Ok ast'.
Proof.
  unfold external_fields. destruct (di_data ast) as [[fs|fs|]| |] eqn:Hd; try done.
  intros [= <-]. cbn. split.
  - exists fs, (external_field <$> fs). split_and!; [done..|]. apply Forall2_fmap_r, Forall_Forall2_diag.
    apply Forall_forall. intros f _. pose proof (external_field_unmarked f) as Hu. cbn.
    split_and!; [..|done|].
    all: unfold external_field; by destruct (has_attr "external" (f_attrs f)).
  - do 4 f_equal. rewrite <- list_fmap_compose. apply list_fmap_ext. intros i f _. cbn.
    unfold external_field at 1. by rewrite external_field_unmarked.
Qed.

(** ** Role checks *)

Section Roles.
Context {W Principal Roles O E AE : Type}.
Context (authorize : Principal -> Roles -> result unit AE) (from_error : AE -> E).

(** A statement that ends the function answers [Some]. *)
Abbreviation Body := (M W (option (result O E))).

(** The statements of a function, given the values of its parameters. *)
Fixpoint run_stmts (params : string -> Principal) (stmts : list (Stmt Roles Body)) : Body :=
  match stmts with
  | [] => ret None
  | StmtAuthorize _ principal roles :: rest =>
      match authorize (params principal) roles with
      | Ok _ => run_stmts params rest
      | Err e => ret (Some (Err (from_error e)))
      end
  | StmtUser body :: rest =>
      do! r <- body;
      match r with Some r => ret (Some r) | None => run_stmts params rest end
  end.

Definition run_fn (params : string -> Principal) (func : ItemFn Roles Body) : Body :=
  run_stmts params (fn_stmts func).

(** A function annotated with [#[requires_roles(roles, principal = p)]]
    runs its body exactly when the principal passed as [p] has the roles:
    otherwise it answers with the authorisation error and does nothing.  The
    annotation is refused when no parameter is named [p]. *)
Theorem requires_roles_guards `{!Syn} attr (func : ItemFn Roles Body) :
  match requires_roles attr func with
  | Ok func' =>
      ArgTyped (PatIdent (ra_principal attr)) ∈ fn_inputs func
      /\ fn_inputs func' = fn_inputs func
      /\ forall params w,
          run_fn params func' w =
          match authorize (params (ra_principal attr)) (ra_roles attr) with
          | Ok _ => run_fn params func w
          | Err e => (Some (Err (from_error e)), w)
          end
  | Err _ => ArgTyped (PatIdent (ra_principal attr)) ∉ fn_inputs func
  end.
Proof.
  unfold requires_roles.
  destruct (existsb (is_parameter (ra_principal attr)) (fn_inputs func)) eqn:Hp; cbn [negb].
  - apply existsb_exists in Hp as (arg & Hin & Harg). apply list_elem_of_In in Hin.
    split_and!; [|done|].
    + destruct arg as [[id|]|]; try done. apply bool_decide_eq_true in Harg as ->. done.
    + intros params w. unfold run_fn. cbn. by destruct (authorize _ _).
  - intros Hin. apply not_true_iff_false in Hp. apply Hp, existsb_exists.
    eexists. rewrite <- list_elem_of_In. split; [exact Hin|]. by apply bool_decide_eq_true.
Qed.
End Roles.

(** ** Identifier types *)

(** The type of an [id_type!] and its impls. *)
Record IdValue := mkIdValue { id_0 : Uuid }.

Section IdType.
Context {W : Type} `{!Env W, !UuidText}.

Definition id_new_v7 : M W IdValue := do! u <- uuid_now_v7; ret (mkIdValue u).
Definition id_new : M W IdValue := id_new_v7.
Definition id_from_uuid (value : Uuid) : IdValue := mkIdValue value.
Definition id_as_uuid (i : IdValue) : Uuid := id_0 i.
Definition id_from (value : Uuid) : IdValue := mkIdValue value.
Definition id_to_string (i : IdValue) : string := uuid_to_string (id_0 i).
Definition id_from_str (s : string) : result IdValue string :=
  match parse_str s with Ok u => Ok (mkIdValue u) | Err e => Err e end.

(** An identifier survives its text and its [Uuid], and the wrappers of two
    different [Uuid]s are different. *)
Lemma id_type_roundtrip `{!UuidTextLaws} (i : IdValue) (u : Uuid) :
  0 <= id_0 i < 2 ^ 128 ->
  id_from_str (id_to_string i) = Ok i
  /\ id_from_uuid (id_as_uuid i) = i /\ id_as_uuid (id_from u) = u.
Proof.
  intros Hi. unfold id_from_str, id_to_string. rewrite parse_display by done. by destruct i.
Qed.
End IdType.

(** ** Sample types *)

(** Options read as [syn] documents; no dependency is found by name. *)
#[local] Instance syn_sample : Syn := {|
  parse_nested_meta S attr logic s :=
    match attr_meta attr with
    | MetaList options => run_options logic options s
    | _ => (s, Err "expected attribute arguments in parentheses")
    end;
  crate_name _ := None;
|}.

#[local] Instance syn_sample_laws : SynLaws.
Proof.
  split.
  - intros S attr options logic s Hm. cbn. by rewrite Hm.
  - intros S attr logic s Hm. cbn. destruct (attr_meta attr) as [|options|]; eauto. by destruct (Hm options).
Qed.

Definition marker (name : string) : Attribute := mkAttribute [name] MetaPath.
Definition plain (name : string) : SynType := TypePath [mkPathSegment name PathNone].

(** [struct Order { #[id] id: OrderId, #[events] events:
    AggregateEvents<OrderEvent>, #[version] version: u64 }] *)
Definition order_ast : DeriveInput :=
  mkDeriveInput "Order" "" []
    (DataStruct (Named [
       mkField (Some "id") [marker "id"] (plain "OrderId");
       mkField (Some "events") [marker "events"]
         (TypePath [mkPathSegment "AggregateEvents" (AngleBracketed [GenericType (plain "OrderEvent")])]);
       mkField (Some "version") [marker "version"] (plain "u64")])).

Definition order_entity : EntityImpl :=
  mkEntityImpl (mkImplHead "::pharos_core::Entity" "Order" "") (plain "OrderId") "id".
Definition order_root : AggregateRootImpl :=
  mkAggregateRootImpl (mkImplHead "::pharos_core::AggregateRoot" "Order" "") (plain "OrderEvent")
    "events" "version".

Lemma derived_aggregate_lawful_witness :
  AggregateRootLaws (derived_root (Id := Z) (Ev := string) (X := unit) order_entity order_root).
Proof.
  apply (derived_aggregate_lawful (Id := Z) (Ev := string) (X := unit) order_ast order_entity order_root);
    vm_compute; reflexivity.
Defined.

(** [enum OrderEvent { #[event(name = "OrderConfirmed", schema_version = 2)]
    Confirmed { #[aggregate_id] order_id: String, #[occurred_at] at: .. } }] *)
Definition confirmed_variant : Variant :=
  mkVariant "Confirmed"
    [mkAttribute ["event"]
       (MetaList [mkNestedMeta ["name"] (Equals (LitStr "OrderConfirmed"));
                  mkNestedMeta ["schema_version"] (Equals (LitInt 2))])]
    (Named [mkField (Some "order_id") [marker "aggregate_id"] (plain "String");
            mkField (Some "at") [marker "occurred_at"] (plain "DateTime")]).
Definition event_ast : DeriveInput :=
  mkDeriveInput "OrderEvent" "" [] (DataEnum [confirmed_variant]).
Definition confirmed_value : EventValue :=
  mkEventValue "Confirmed" (fun f => if decide (f = "at") then EfTime 7 else EfStr "order-1").

Definition event_impl : DomainEventImpl :=
  mkDomainEventImpl (mkImplHead "::pharos_core::DomainEvent" "OrderEvent" "")
    [("Confirmed", "OrderConfirmed")] [("Confirmed", "at")] [("Confirmed", "order_id")]
    [("Confirmed", 2)].

Lemma derived_event_identity_witness :
  event_type event_impl confirmed_value = Some "OrderConfirmed"
  /\ schema_version event_impl confirmed_value = Some 2.
Proof.
  destruct (derived_event_identity event_ast [confirmed_variant] event_impl confirmed_variant
              confirmed_value 7 "order-1") as (H1 & H2 & _).
  - vm_compute. reflexivity.
  - reflexivity.
  - apply (bool_decide_unpack _). vm_compute. exact I.
  - by left.
  - split; [reflexivity|]. split; intros fs f [= <-]; vm_compute; by intros [= <-].
  - split; [exact H1|exact H2].
Defined.

(** [#[command(internal)] struct Withdraw(#[garde(range(min = 1))] u32)] *)
Definition rule : Attribute :=
  mkAttribute ["garde"] (MetaList [mkNestedMeta ["range"] (Parens "min = 1")]).
Definition withdraw_field : Field := mkField None [rule] (plain "u32").
Definition withdraw_ast : DeriveInput :=
  mkDeriveInput "Withdraw" ""
    [mkAttribute ["command"] (MetaList [mkNestedMeta ["internal"] NoArg])]
    (DataStruct (Unnamed [withdraw_field])).

(** Accepts an amount of at least 1. *)
Definition withdraw_garde (c : CommandValue Z) : result unit (list (string * string)) :=
  if 1 <=? c (AccessIndex 0) then Ok tt else Err [("0", "lower than 1")].

#[local] Instance no_tracing : Tracing unit := {| tracing_error _ _ := ret tt |}.

(** [#[command(internal)] struct Purge;]: no rule on any field. *)
Definition purge_ast : DeriveInput :=
  mkDeriveInput "Purge" "" [mkAttribute ["command"] (MetaList [mkNestedMeta ["internal"] NoArg])]
    (DataStruct Unit).

