(* ===== verification/Capture.v ===== *)
(** * Capturing published events and log lines

    Models crates/pharos-testing/src/lib.rs: [EventCapture], its handler and
    [capturing_event_bus]; [TestSubscriber] and its writer.  The vectors that
    clones share are components of the world.  The [tracing] crate keeps the
    thread's default subscriber, which [set_default] replaces until its guard
    is dropped, and hands it each event; [fmt] renders an event and writes the
    line to the subscriber's writer. *)

From S2P Require Import Prelude Core EventBus.
Local Open Scope Z_scope.

Section Capture.
Context {T : Type} `{!EventTypes T, Countable T, !Serde T} (t : T).

Record EventCapture := mkEventCapture { captured : list (carrier t) }.

Definition EventCapture_new : EventCapture := mkEventCapture [].

Context {W : Type} `{!Lens W EventCapture}.

Definition EventCapture_events : M W (list (carrier t)) := do! c <- mget; ret (captured c).
Definition EventCapture_count : M W nat := do! c <- mget; ret (length (captured c)).
Definition EventCapture_is_empty : M W bool := do! n <- EventCapture_count; ret (n =? 0)%nat.
Definition EventCapture_clear : M W unit := mput (mkEventCapture []).

(** [CapturingHandler::handle] *)
Definition CapturingHandler_handle (event : carrier t) : M W (option (result unit string)) :=
  do! c <- mget;
  do! _ <- mput (mkEventCapture (captured c ++ [event]));
  ret (Some (Ok tt)).

Definition EventCapture_register_on (name : string) (bus : EventBus W T) : EventBus W T :=
  EventBus_register t (mkEventHandler t name CapturingHandler_handle) bus.

(** The bus of [capturing_event_bus]; its capture is the component above,
    started empty. *)
Definition capturing_event_bus (name : string) : EventBus W T :=
  EventCapture_register_on name EventBus_new.

(** [assert_event_published!]: [None] is its panic. *)
Definition assert_event_published (count : nat) : M W (option unit) :=
  do! n <- EventCapture_count; ret (if (n =? count)%nat then Some tt else None).

(** ** What a test may rely on *)

Context `{!LensLaws W EventCapture}.

(** A stream of publications, each awaited before the next. *)
Fixpoint publish_all (bus : EventBus W T) (events : list (AnyEvent T))
  : M W (option (result unit EventBusError)) :=
  match events with
  | [] => ret (Some (Ok tt))
  | a :: events =>
      await! _ <- EventBus_publish bus (any_type a) (any_value a);
      publish_all bus events
  end.

Definition of_type (events : list (AnyEvent T)) : list (carrier t) := omap (downcast_ref t) events.

#[local] Arguments of_type : simpl never.

Lemma of_type_cons a events : of_type (a :: events) = of_type [a] ++ of_type events.
Proof. unfold of_type. cbn. by destruct (downcast_ref t a). Qed.

Lemma of_type_same v : of_type [mkAny t v] = [v].
Proof. unfold of_type. cbn. by rewrite downcast_ref_same. Qed.

Lemma of_type_other a : any_type a <> t -> of_type [a] = [].
Proof. intros Hne. unfold of_type, downcast_ref. cbn. by destruct (decide (any_type a = t)). Qed.

Lemma capturing_publish name a w :
  EventBus_publish (capturing_event_bus name) (any_type a) (any_value a) w
  = (Some (Ok tt), lset (mkEventCapture (captured (lget w) ++ of_type [a])) w).
Proof.
  unfold EventBus_publish, capturing_event_bus, EventCapture_register_on, EventBus_register, push_handler.
  destruct (decide (any_type a = t)) as [Heq|Hne].
  - destruct a as [t' v]. cbn in Heq |- *. subst t'. rewrite lookup_empty, lookup_insert_eq, of_type_same.
    unfold deliver_to, prbind, pbind. cbn. unfold HandlerWrapper_call. rewrite downcast_ref_same. done.
  - rewrite (of_type_other _ Hne), app_nil_r. cbn. rewrite lookup_insert_ne, lookup_empty by done.
    destruct (lget w) eqn:Hw. cbn. by rewrite <- Hw, lset_lget.
Qed.

(** After any publications on a capturing bus, all of which succeed, the
    capture holds the events of its type, all of them and in order, so
    [assert_event_published!] passes for their number and no other; clearing
    it starts over. *)
Theorem capture_complete name (events : list (AnyEvent T)) w n :
  captured (lget w) = [] ->
  exists w', publish_all (capturing_event_bus name) events w = (Some (Ok tt), w')
    /\ (EventCapture_events w').1 = of_type events
    /\ ((assert_event_published n w').1 = Some tt <-> n = length (of_type events))
    /\ captured (lget (EventCapture_clear w').2) = [].
Proof.
  intros Hw.
  assert (Hall : exists w', publish_all (capturing_event_bus name) events w = (Some (Ok tt), w')
    /\ captured (lget w') = captured (lget w) ++ of_type events).
  { clear Hw. revert w. induction events as [|a events IH]; intros w; cbn [publish_all].
    - exists w. split; [done|]. unfold of_type. cbn. by rewrite app_nil_r.
    - unfold prbind, pbind. rewrite capturing_publish.
      destruct (IH (lset (mkEventCapture (captured (lget w) ++ of_type [a])) w)) as (w' & Hr & Hc).
      exists w'. split; [exact Hr|]. by rewrite Hc, lget_lset, (of_type_cons a events), app_assoc. }
  destruct Hall as (w' & Hr & Hc). rewrite Hw in Hc. cbn in Hc. exists w'. split_and!; [exact Hr| | |].
  - unfold EventCapture_events, bind, mget, ret. exact Hc.
  - unfold assert_event_published, EventCapture_count, bind, mget, ret. cbn. rewrite Hc.
    destruct (length (of_type events) =? n)%nat eqn:E.
    + apply Nat.eqb_eq in E. split; [by symmetry in E|done].
    + apply Nat.eqb_neq in E. split; [done|]. by intros ->.
  - unfold EventCapture_clear, mput. cbn. by rewrite lget_lset.
Qed.
End Capture.

(** ** Log lines *)

(** The buffers of the test subscribers, by the [Arc] they share with their
    writers, and the subscriber that is the thread's default. *)
Record LogThread := mkLogThread {
  buffers : gmap nat (list string);
  default_subscriber : option nat;
}.

Record TestSubscriber := mkTestSubscriber { ts_lines : nat }.
Record MemWriter := mkMemWriter { mw_lines : nat }.

(** What [set_default] found, put back when the guard is dropped. *)
Record DefaultGuard := mkDefaultGuard { replaced : option nat }.

Definition newline : Ascii.ascii := Ascii.ascii_of_nat 10.

(** [str::trim_end_matches] with a newline. *)
Fixpoint trim_newlines (s : string) : string :=
  match s with
  | EmptyString => ""
  | String c s' =>
      match trim_newlines s' with
      | EmptyString => if decide (c = newline) then "" else String c ""
      | t => String c t
      end
  end.

Section Logs.
(** [str::from_utf8], the rendering of an event, and [str::contains]. *)
Context (from_utf8 : string -> bool) {Ev : Type} (format_event : Ev -> string).
Context (str_contains : string -> string -> bool).

Definition lines_of (id : nat) (t : LogThread) : list string := default [] (buffers t !! id).

Definition TestSubscriber_new : M LogThread TestSubscriber := fun t =>
  let id := fresh (dom (buffers t)) in
  (mkTestSubscriber id, mkLogThread (<[id := []]> (buffers t)) (default_subscriber t)).

Definition MemWriter_write (w : MemWriter) (buf : string) : M LogThread (result nat string) := fun t =>
  let t := if from_utf8 buf then
             match trim_newlines buf with
             | EmptyString => t
             | trimmed => mkLogThread
                 (<[mw_lines w := lines_of (mw_lines w) t ++ [trimmed]]> (buffers t))
                 (default_subscriber t)
             end
           else t in
  (Ok (String.length buf), t).

Definition MemWriter_flush (_ : MemWriter) : M LogThread (result unit string) := ret (Ok tt).

Definition TestSubscriber_install (s : TestSubscriber) : M LogThread DefaultGuard := fun t =>
  (mkDefaultGuard (default_subscriber t), mkLogThread (buffers t) (Some (ts_lines s))).

Definition DefaultGuard_drop (g : DefaultGuard) : M LogThread unit := fun t =>
  (tt, mkLogThread (buffers t) (replaced g)).

Definition TestSubscriber_lines (s : TestSubscriber) : M LogThread (list string) := fun t =>
  (lines_of (ts_lines s) t, t).

Definition TestSubscriber_contains (s : TestSubscriber) (needle : string) : M LogThread bool :=
  do! lines <- TestSubscriber_lines s; ret (existsb (str_contains needle) lines).

Definition TestSubscriber_clear (s : TestSubscriber) : M LogThread unit := fun t =>
  (tt, mkLogThread (<[ts_lines s := []]> (buffers t)) (default_subscriber t)).

(** An event of the thread: rendered and written by the default subscriber. *)
Definition emit (e : Ev) : M LogThread unit := fun t =>
  match default_subscriber t with
  | None => (tt, t)
  | Some id => (tt, (MemWriter_write (mkMemWriter id) (format_event e) t).2)
  end.

Fixpoint emit_all (es : list Ev) : M LogThread unit :=
  match es with [] => ret tt | e :: es' => do! _ <- emit e; emit_all es' end.

(** The line an event leaves. *)
Definition line_of (e : Ev) : list string :=
  if from_utf8 (format_event e)
  then match trim_newlines (format_event e) with EmptyString => [] | l => [l] end
  else [].

Lemma emit_all_lines es t id :
  default_subscriber t = Some id ->
  exists t', emit_all es t = (tt, t') /\ default_subscriber t' = Some id
    /\ lines_of id t' = lines_of id t ++ mbind line_of es
    /\ forall id', id' <> id -> buffers t' !! id' = buffers t !! id'.
Proof.
  revert t. induction es as [|e es IH]; intros t Ht.
  { exists t. cbn. by rewrite app_nil_r. }
  cbn [emit_all]. unfold bind, emit. rewrite Ht. unfold MemWriter_write. cbn [snd mw_lines].
  set (t1 := if from_utf8 (format_event e) then _ else t).
  assert (default_subscriber t1 = Some id /\ lines_of id t1 = lines_of id t ++ line_of e
    /\ forall id', id' <> id -> buffers t1 !! id' = buffers t !! id') as (H1 & H2 & H3).
  { subst t1. unfold line_of. destruct (from_utf8 (format_event e)); [|by rewrite app_nil_r].
    destruct (trim_newlines (format_event e)); [by rewrite app_nil_r|].
    cbn. split; [done|]. split; [unfold lines_of at 1; cbn; by rewrite lookup_insert_eq|].
    intros id' Hne. by rewrite lookup_insert_ne. }
  destruct (IH t1 H1) as (t' & Hr & Hd & Hl & Ho). exists t'. split; [exact Hr|]. split; [exact Hd|].
  split; [by rewrite Hl, H2, <- app_assoc|]. intros id' Hne. by rewrite Ho, H3.
Qed.

(** Between [install] and the drop of its guard a subscriber holds the lines
    of exactly the events emitted meanwhile, in order; no other subscriber
    sees them, and the one that was the default before is back afterwards. *)
Theorem subscriber_captures (s : TestSubscriber) es t :
  exists t', (do! g <- TestSubscriber_install s; do! _ <- emit_all es; DefaultGuard_drop g) t = (tt, t')
    /\ (TestSubscriber_lines s t').1 = (TestSubscriber_lines s t).1 ++ mbind line_of es
    /\ default_subscriber t' = default_subscriber t
    /\ forall id, id <> ts_lines s -> buffers t' !! id = buffers t !! id.
Proof.
  destruct (emit_all_lines es (mkLogThread (buffers t) (Some (ts_lines s))) (ts_lines s) eq_refl)
    as (t' & Hr & _ & Hl & Ho).
  unfold bind, TestSubscriber_install. rewrite Hr. eexists. split; [done|]. by split_and!.
Qed.

(** A second [install] is not the no-op its documentation announces: it takes
    over until its own guard is dropped, and the first subscriber misses what
    is emitted meanwhile. *)
Theorem inner_install_takes_over (outer inner : TestSubscriber) es t :
  ts_lines outer <> ts_lines inner ->
  exists t', (do! _ <- TestSubscriber_install outer;
              do! g <- TestSubscriber_install inner; do! _ <- emit_all es; DefaultGuard_drop g) t
             = (tt, t')
    /\ (TestSubscriber_lines outer t').1 = (TestSubscriber_lines outer t).1
    /\ (TestSubscriber_lines inner t').1 = (TestSubscriber_lines inner t).1 ++ mbind line_of es
    /\ default_subscriber t' = Some (ts_lines outer).
Proof.
  intros Hne.
  destruct (subscriber_captures inner es (mkLogThread (buffers t) (Some (ts_lines outer))))
    as (t' & Hr & Hl & Hd & Ho).
  exists t'. split; [exact Hr|]. split; [|by split].
  cbn. unfold lines_of. by rewrite Ho.
Qed.
End Logs.

(** The example of the documentation: the captured line, without its end. *)
Example log_line_captured :
  let format := fun e : string => "INFO " +:+ e +:+ String newline "" in
  (do! s <- TestSubscriber_new;
   do! g <- TestSubscriber_install s;
   do! _ <- emit (fun _ => true) format "postgres.outbox.insert";
   do! _ <- DefaultGuard_drop g;
   do! _ <- emit (fun _ => true) format "afterwards";
   TestSubscriber_lines s) (mkLogThread ∅ None)
  = (["INFO postgres.outbox.insert"],
     mkLogThread {[ 0%nat := ["INFO postgres.outbox.insert"] ]} None).
Proof. vm_compute. reflexivity. Qed.
