(* ===== verification/Metrics.v ===== *)
(** * HTTP request metrics

    Models crates/pharos-axum/src/metrics.rs: [HttpMetrics::observe] and the
    [track] middleware.  Counters, gauges and histograms are
    [prometheus_client]'s: the calls the middleware makes of them are a
    parameter, with what their documentation says of the values they keep.
    So is the text encoding of a registry. *)

From S2P Require Import Prelude.
Local Open Scope Z_scope.

Definition CONTENT_TYPE : string := "application/openmetrics-text; version=1.0.0; charset=utf-8".

Record HttpLabels := mkHttpLabels { hl_method : string; hl_endpoint : string; hl_status : Z }.

#[export] Instance HttpLabels_eq_dec : EqDecision HttpLabels.
Proof. solve_decision. Defined.

Record TraceExemplar := mkTraceExemplar { trace_id : string }.

(** The metrics of one [HttpMetrics], a clock and the request handler's
    seconds as [Secs]. *)
Class Prometheus (W Secs : Type) : Type := {
  requests_inc : HttpLabels -> M W unit;
  duration_observe : HttpLabels -> Secs -> option TraceExemplar -> M W unit;
  in_flight_inc : M W unit;
  in_flight_dec : M W unit;
  elapsed : M W Secs;
}.

(** [HttpMetrics::new]: the metrics' kinds, registered with their names and
    help texts; the histogram's buckets are [exponential_buckets] of the first
    bound, the factor and the count.  The trace source comes later. *)
Inductive MetricKind := Counters | Histograms (first factor : f64) (count : Z) | OneGauge.

Definition FIRST_BUCKET_SECONDS : f64 := S754_finite false 5764607523034235 (-60).
Definition BUCKET_FACTOR : f64 := S754_finite false 4503599627370496 (-51).
Definition BUCKET_COUNT : Z := 12.

Record HttpMetrics (W : Type) := mkHttpMetrics {
  hm_registry : list (string * string * MetricKind);
  hm_trace : option (M W (option string));
}.
Arguments mkHttpMetrics {W} _ _.
Arguments hm_registry {W} _.
Arguments hm_trace {W} _.

Definition HttpMetrics_new {W} : HttpMetrics W :=
  mkHttpMetrics
    [("http_server_requests", "Requests handled, by method, route and status", Counters);
     ("http_server_request_duration_seconds", "Request duration in seconds",
      Histograms FIRST_BUCKET_SECONDS BUCKET_FACTOR BUCKET_COUNT);
     ("http_server_requests_in_flight", "Requests currently being handled", OneGauge)] None.

Definition HttpMetrics_with_exemplars {W} (source : M W (option string)) (m : HttpMetrics W)
  : HttpMetrics W := mkHttpMetrics (hm_registry m) (Some source).

(** [encode], with [prometheus_client]'s text encoder of the registry. *)
Definition HttpMetrics_encode {W} (encode : list (string * string * MetricKind) -> M W (result string unit))
  (m : HttpMetrics W) : M W (result string unit) := encode (hm_registry m).

(** The parts of a request and a response the middleware reads. *)
Record HttpRequest := mkHttpRequest { rq_method : string; rq_matched : option string }.

Section Track.
Context {W Secs : Type} `{!Prometheus W Secs}.
Context (trace : option (M W (option string))).

Definition observe (labels : HttpLabels) (seconds : Secs) : M W unit :=
  do! _ <- requests_inc labels;
  do! exemplar <- match trace with
                  | Some source => do! id <- source; ret (mkTraceExemplar <$> id)
                  | None => ret None
                  end;
  duration_observe labels seconds exemplar.

Definition endpoint_of (request : HttpRequest) : string := default "<no route>" (rq_matched request).

(** What [track] does once the handler has answered. *)
Definition answered (request : HttpRequest) (status : Z) : M W unit :=
  do! seconds <- elapsed;
  do! _ <- in_flight_dec;
  observe (mkHttpLabels (rq_method request) (endpoint_of request) status) seconds.

(** [next.run(request).await] answers the status; a handler whose future is
    dropped before it is done answers [None], and nothing after it runs. *)
Definition track (request : HttpRequest) (next : M W (option Z)) : M W (option Z) :=
  do! _ <- in_flight_inc;
  live! status <- next;
  do! _ <- answered request status;
  ret (Some status).
End Track.

(** ** What the metrics say *)

(** The counts behind the calls: a counter per label set and one gauge; no
    other call touches them. *)
Class PrometheusLaws (W Secs : Type) `{!Prometheus W Secs} (counted : W -> HttpLabels -> Z)
  (gauge : W -> Z) : Prop := {
  counted_requests_inc labels w l :
    counted (requests_inc labels w).2 l = counted w l + (if decide (l = labels) then 1 else 0);
  gauge_requests_inc labels w : gauge (requests_inc labels w).2 = gauge w;
  counted_duration_observe labels s x w l : counted (duration_observe labels s x w).2 l = counted w l;
  gauge_duration_observe labels s x w : gauge (duration_observe labels s x w).2 = gauge w;
  counted_in_flight_inc w l : counted (in_flight_inc w).2 l = counted w l;
  gauge_in_flight_inc w : gauge (in_flight_inc w).2 = gauge w + 1;
  counted_in_flight_dec w l : counted (in_flight_dec w).2 l = counted w l;
  gauge_in_flight_dec w : gauge (in_flight_dec w).2 = gauge w - 1;
  counted_elapsed w l : counted (elapsed w).2 l = counted w l;
  gauge_elapsed w : gauge (elapsed w).2 = gauge w;
}.

Section Counting.
Context {W Secs : Type} `{!Prometheus W Secs} (counted : W -> HttpLabels -> Z) (gauge : W -> Z).
Context `{!PrometheusLaws W Secs counted gauge}.
Context (trace : option (M W (option string))).

(** A computation that leaves both counts alone. *)
Definition quiet {A} (c : M W A) : Prop :=
  forall w, gauge (c w).2 = gauge w /\ forall l, counted (c w).2 l = counted w l.

Hypothesis trace_quiet : forall source, trace = Some source -> quiet source.

Lemma observe_counts labels seconds w :
  gauge (observe trace labels seconds w).2 = gauge w /\
  forall l, counted (observe trace labels seconds w).2 l
            = counted w l + (if decide (l = labels) then 1 else 0).
Proof.
  unfold observe, bind, ret. pose proof (gauge_requests_inc labels w) as Hg.
  pose proof (counted_requests_inc labels w) as Hc. destruct (requests_inc labels w) as [u w1].
  cbn in Hg, Hc. rewrite <- Hg. setoid_rewrite <- Hc. destruct trace as [source|].
  - destruct (trace_quiet source eq_refl w1) as [Hsg Hsc]. destruct (source w1) as [id w2].
    cbn in Hsg, Hsc. rewrite <- Hsg. setoid_rewrite <- Hsc.
    split; intros; [apply gauge_duration_observe|apply counted_duration_observe].
  - split; intros; [apply gauge_duration_observe|apply counted_duration_observe].
Qed.

Definition labels_of (request : HttpRequest) (status : Z) : HttpLabels :=
  mkHttpLabels (rq_method request) (endpoint_of request) status.

Lemma answered_counts request status w :
  gauge (answered trace request status w).2 = gauge w - 1 /\
  forall l, counted (answered trace request status w).2 l
            = counted w l + (if decide (l = labels_of request status) then 1 else 0).
Proof.
  unfold answered, bind. fold (labels_of request status).
  pose proof (gauge_elapsed w) as Hg1. pose proof (counted_elapsed w) as Hc1.
  destruct (elapsed w) as [s w2]. cbn in Hg1, Hc1.
  pose proof (gauge_in_flight_dec w2) as Hg2. pose proof (counted_in_flight_dec w2) as Hc2.
  destruct (in_flight_dec w2) as [u2 w3]. cbn in Hg2, Hc2.
  destruct (observe_counts (labels_of request status) s w3) as [Hg3 Hc3].
  split; [lia|]. intros l. by rewrite Hc3, Hc2, Hc1.
Qed.

(** *** Concurrent requests

    The tasks of the server: a request enters [track], its handler answers
    and the rest of [track] runs, or its future is dropped while the handler
    runs; between those anything that leaves the metrics alone may happen. *)

Record TrackState := mkTrackState {
  ts_world : W;
  ts_active : list HttpRequest;
  ts_dropped : nat;
  ts_answered : list HttpLabels;
}.

Inductive track_step : TrackState -> TrackState -> Prop :=
| track_begin w active n done request :
    track_step (mkTrackState w active n done)
      (mkTrackState (in_flight_inc w).2 (request :: active) n done)
| track_answer w a1 a2 n done request status :
    track_step (mkTrackState w (a1 ++ request :: a2) n done)
      (mkTrackState (answered trace request status w).2 (a1 ++ a2) n
         (labels_of request status :: done))
| track_drop w a1 a2 n done request :
    track_step (mkTrackState w (a1 ++ request :: a2) n done)
      (mkTrackState w (a1 ++ a2) (S n) done)
| track_other {A} (c : M W A) w active n done :
    quiet c -> track_step (mkTrackState w active n done) (mkTrackState (c w).2 active n done).

Definition track_inv (w0 : W) (st : TrackState) : Prop :=
  gauge (ts_world st) = gauge w0 + Z.of_nat (length (ts_active st) + ts_dropped st)
  /\ forall l, counted (ts_world st) l
       = counted w0 l + Z.of_nat (length (filter (fun l' => l' = l) (ts_answered st))).

Lemma track_inv_step w0 st st' : track_step st st' -> track_inv w0 st -> track_inv w0 st'.
Proof.
  intros Hstep [Hg Hc]. destruct Hstep as [w active n done request|w a1 a2 n done request status
    |w a1 a2 n done request|A c w active n done Hq]; unfold track_inv; cbn [ts_world ts_active ts_dropped ts_answered] in *; cbn [length] in *.
  - rewrite gauge_in_flight_inc. split; [lia|]. intros l. by rewrite counted_in_flight_inc, Hc.
  - destruct (answered_counts request status w) as [Hg' Hc']. rewrite Hg'.
    rewrite length_app in Hg |- *. cbn [length] in Hg. split; [lia|]. intros l. rewrite Hc', Hc.
    destruct (decide (labels_of request status = l)) as [->|Hne].
    + rewrite decide_True by done. rewrite filter_cons_True by done. cbn [length]. lia.
    + rewrite decide_False by done. rewrite filter_cons_False by done. lia.
  - rewrite length_app in Hg |- *. cbn [length] in Hg. split; [lia|done].
  - destruct (Hq w) as [Hg' Hc']. rewrite Hg'. split; [done|]. intros l. by rewrite Hc', Hc.
Qed.

(** The metrics of a server under any interleaving of its requests: each
    series has counted exactly the requests answered with its method, matched
    route and status, each once; the gauge is the number of requests being
    handled, plus one for ever for every request whose future was dropped
    while its handler ran. *)
Theorem track_counts w0 st :
  rtc track_step (mkTrackState w0 [] 0 []) st ->
  gauge (ts_world st) = gauge w0 + Z.of_nat (length (ts_active st) + ts_dropped st)
  /\ forall l, counted (ts_world st) l
       = counted w0 l + Z.of_nat (length (filter (fun l' => l' = l) (ts_answered st))).
Proof.
  change (rtc track_step (mkTrackState w0 [] 0 []) st -> track_inv w0 st).
  apply (rtc_ind_r (track_inv w0)).
  - split; cbn; [lia|]. intros l. lia.
  - intros y z _ Hs Hi. by eapply track_inv_step.
Qed.

(** [track] alone is such a run. *)
Lemma track_runs request (next : M W (option Z)) w :
  quiet next ->
  exists st, rtc track_step (mkTrackState w [] 0 []) st
    /\ ts_world st = (track trace request next w).2
    /\ ts_dropped st = match (track trace request next w).1 with Some _ => 0%nat | None => 1%nat end.
Proof.
  intros Hq. unfold track, bind, pbind, ret. destruct (in_flight_inc w) as [u w1] eqn:Hinc.
  destruct (next w1) as [[status|] w2] eqn:Hn.
  - destruct (answered trace request status w2) as [u2 w3] eqn:Ha.
    exists (mkTrackState w3 [] 0 [labels_of request status]). split; [|done].
    eapply rtc_l; [exact (track_begin w [] 0 [] request)|]. rewrite Hinc.
    eapply rtc_l; [exact (track_other next w1 [request] 0 [] Hq)|]. rewrite Hn.
    eapply rtc_l; [exact (track_answer w2 [] [] 0 [] request status)|]. rewrite Ha. apply rtc_refl.
  - exists (mkTrackState w2 [] 1 []). split; [|done].
    eapply rtc_l; [exact (track_begin w [] 0 [] request)|]. rewrite Hinc.
    eapply rtc_l; [exact (track_other next w1 [request] 0 [] Hq)|]. rewrite Hn.
    eapply rtc_l; [exact (track_drop w2 [] [] 0 [] request)|]. apply rtc_refl.
Qed.
End Counting.

(** ** A sample registry *)

Record Counts := mkCounts { c_requests : list HttpLabels; c_in_flight : Z }.

#[local] Instance counts_prometheus : Prometheus Counts unit := {
  requests_inc labels w := (tt, mkCounts (labels :: c_requests w) (c_in_flight w));
  duration_observe _ _ _ := ret tt;
  in_flight_inc w := (tt, mkCounts (c_requests w) (c_in_flight w + 1));
  in_flight_dec w := (tt, mkCounts (c_requests w) (c_in_flight w - 1));
  elapsed := ret tt;
}.

#[local] Instance counts_laws :
  PrometheusLaws Counts unit
    (fun w l => Z.of_nat (length (filter (fun l' => l' = l) (c_requests w)))) c_in_flight.
Proof.
  constructor; intros; try done. cbn [requests_inc counts_prometheus c_requests snd].
  destruct (decide (l = labels)) as [->|Hne].
  - rewrite filter_cons_True by done. cbn [length]. lia.
  - rewrite filter_cons_False by done. lia.
Qed.

(** One answered and one dropped request: the gauge stays at one. *)
Lemma dropped_request_stays_counted :
  exists st, rtc (track_step (fun w l => Z.of_nat (length (filter (fun l' => l' = l) (c_requests w))))
                   c_in_flight None)
    (mkTrackState (mkCounts [] 0) [] 0 []) st
    /\ ts_active st = [] /\ c_in_flight (ts_world st) = 1.
Proof.
  set (r := mkHttpRequest "GET" None). eexists. split.
  - eapply rtc_l; [exact (track_begin _ _ _ _ [] 0 [] r)|].
    eapply rtc_l; [exact (track_drop _ _ _ _ [] [] 0 [] r)|]. apply rtc_refl.
  - split; reflexivity.
Qed.
