(* ===== verification/EndToEnd.v ===== *)
(** * EndToEnd: from a saved aggregate to a handled message

    Composes the unit of work ([UnitOfWork]), the outbox dispatcher
    ([OutboxDispatcher]), the in-memory broker ([Messaging]) and the
    idempotent consumer ([Consume], [Inbox]) the way a service runs them:
    [save_and_enqueue_in] on the producer side, [dispatch_pending] as the
    relay, and a loop of [MessageConsumer::next] and [process_idempotent] on
    the consumer side.  The handler may fail a bounded number of times per
    message; everything else is the code of the components. *)

From S2P Require Import Prelude Core Messaging Outbox OutboxDispatcher Inbox Consume UnitOfWork.
Local Open Scope Z_scope.

(** ** A consumer drains its topic *)

(** How often the handler failed, and succeeded, for message [id]. *)
Definition failures (id : Uuid) (past : list (Uuid * bool)) : nat :=
  length (filter (fun e => e = (id, false)) past).
Definition successes (id : Uuid) (past : list (Uuid * bool)) : nat :=
  length (filter (fun e => e = (id, true)) past).

(** A handler that fails at most [k] times for each message. *)
Definition fails_at_most {E} (k : nat) (behaviour : list (Uuid * bool) -> Delivery -> result unit E)
  : Prop :=
  forall past d e, behaviour past d = Err e ->
    (failures (message_id (delivery_message d)) past < k)%nat.

Lemma failures_snoc id past id' ok :
  failures id (past ++ [(id', ok)])
  = (failures id past + if decide ((id', ok) = (id, false)) then 1 else 0)%nat.
Proof.
  unfold failures. rewrite filter_app, length_app. f_equal.
  rewrite filter_cons. by destruct (decide _).
Qed.

(** What is left of the failure budget of a set of messages. *)
Definition budget (k : nat) (ids : list Uuid) (past : list (Uuid * bool)) : nat :=
  sum_list_with (fun id => k - failures id past)%nat ids.

Lemma budget_ok k ids past id :
  budget k ids (past ++ [(id, true)]) = budget k ids past.
Proof.
  unfold budget. induction ids as [|i ids IH]; [done|]. cbn.
  rewrite failures_snoc, decide_False, Nat.add_0_r by congruence. by rewrite IH.
Qed.

Lemma budget_failed k ids past id :
  id ∈ ids -> (failures id past < k)%nat ->
  (budget k ids (past ++ [(id, false)]) < budget k ids past)%nat.
Proof.
  intros Hin Hlt. unfold budget. rewrite list_elem_of_lookup in Hin. destruct Hin as [n Hn].
  revert n Hn. induction ids as [|i ids IH]; intros n Hn; [done|]. cbn.
  assert (Hle : (sum_list_with (fun id' => k - failures id' (past ++ [(id, false)])) ids
                 <= sum_list_with (fun id' => k - failures id' past) ids)%nat).
  { clear. induction ids as [|i ids IH]; [done|]. cbn. rewrite failures_snoc. lia. }
  destruct n as [|n]; cbn in Hn.
  - injection Hn as ->. rewrite failures_snoc, decide_True by done. lia.
  - specialize (IH n Hn). rewrite failures_snoc. lia.
Qed.

Lemma budget_bound k ids past : (budget k ids past <= k * length ids)%nat.
Proof. unfold budget. induction ids as [|i ids IH]; cbn; lia. Qed.

#[export] Instance InboxState_eq_dec : EqDecision InboxState.
Proof. solve_decision. Defined.

Definition delivery_id (d : Delivery) : Uuid := message_id (delivery_message d).

Section Drain.
Context {W E : Type} `{!Env W, !Chrono, !Lens W InMemoryInbox, !LensLaws W InMemoryInbox,
  !EnvFrame W InMemoryInbox, !Lens W Journal, !LensLaws W Journal, !EnvFrame W Journal,
  !Lens W InMemoryMessageBroker, !LensLaws W InMemoryMessageBroker,
  !EnvFrame W InMemoryMessageBroker,
  !LensDisjoint W InMemoryInbox Journal, !LensDisjoint W Journal InMemoryInbox,
  !LensDisjoint W InMemoryInbox InMemoryMessageBroker,
  !LensDisjoint W InMemoryMessageBroker InMemoryInbox,
  !LensDisjoint W Journal InMemoryMessageBroker,
  !LensDisjoint W InMemoryMessageBroker Journal}.
Variable to_string : E -> string.
Variable consumer : string.
Variable behaviour : list (Uuid * bool) -> Delivery -> result unit E.
Variable t : string.

Let state (w : W) (id : Uuid) : InboxState := inbox_state (lget w) id consumer.
Let queue (w : W) : list Delivery := queue_of (lget w) t.
Let past (w : W) : list (Uuid * bool) := ran (lget w).

(** One turn of the consumer's loop: the next delivery, if any, through
    [process_idempotent]. *)
Definition turn : M W unit :=
  do! r <- next t;
  match r with
  | Ok (Some d) =>
      do! _ <- process_idempotent to_string consumer d (journaled behaviour);
      ret tt
  | _ => ret tt
  end.

Fixpoint turns (n : nat) (w : W) : W :=
  match n with
  | O => w
  | S n => turns n (turn w).2
  end.

(** Between two turns: the inbox and the journal agree on what succeeded, no
    message is left half processed. *)
Record settled (w : W) : Prop := {
  settled_lease : exists d, from_std (stale_after (lget w)) = Some d;
  settled_completed id : state w id = Completed <-> (id, true) ∈ past w;
  settled_once : NoDup ((filter (fun e => e.2 = true) (past w)).*1);
  settled_idle id since : state w id <> Running since;
}.

Lemma settled_ext w w' :
  lget w' = lget w :> InMemoryInbox -> lget w' = lget w :> Journal -> settled w -> settled w'.
Proof.
  intros Hi Hj [H1 H2 H3 H4]. unfold state, past in *.
  split; unfold state, past; rewrite ?Hi, ?Hj; done.
Qed.

Lemma settled_handled w w' id (ok : bool) :
  settled w -> state w id <> Completed ->
  stale_after (lget w') = stale_after (lget w) ->
  past w' = past w ++ [(id, ok)] ->
  (forall id', state w' id' = if decide (id = id') then (if ok then Completed else FailedBefore)
                              else state w id') ->
  settled w'.
Proof.
  intros [[d Hd] Hc Hn Hi] Hnc Hst Hr Hs.
  destruct (once_inv_handled consumer w w' id ok) as (_ & Hc' & Hn'); try done.
  { split_and!; [by exists d| |done]. intros i. apply Hc. }
  split; [exists d; congruence| |done|].
  - intros i. split; [|apply Hc']. rewrite Hs, Hr. destruct (decide (id = i)) as [<-|Hne].
    + destruct ok; [|done]. intros _. set_solver.
    + intros Hi'%Hc. set_solver.
  - intros i since. rewrite Hs. destruct (decide (id = i)); [by destruct ok|apply Hi].
Qed.

(** What a turn does with the delivery at the head of the queue. *)
Inductive turn_result (w w' : W) (d : Delivery) (q : list Delivery) : Prop :=
| turn_skipped : state w (delivery_id d) = Completed -> past w' = past w -> queue w' = q ->
    lget w' = (InMemoryMessageBroker_ack d (InMemoryMessageBroker_next t (lget w)).2).2 ->
    turn_result w w' d q
| turn_processed u : behaviour (past w) d = Ok u -> past w' = past w ++ [(delivery_id d, true)] ->
    queue w' = q ->
    lget w' = (InMemoryMessageBroker_ack d (InMemoryMessageBroker_next t (lget w)).2).2 ->
    turn_result w w' d q
| turn_failed e : behaviour (past w) d = Err e -> past w' = past w ++ [(delivery_id d, false)] ->
    queue w' = q ++ [mkDelivery (delivery_message d) (u32_add (attempt d) 1)] ->
    lget w' = (InMemoryMessageBroker_nack d true (InMemoryMessageBroker_next t (lget w)).2).2 ->
    turn_result w w' d q.

(** The inbox side of a message that is not completed. *)
Lemma begin_idle id w :
  settled w -> state w id <> Completed ->
  exists dec w1, begin_processing id consumer w = (Ok dec, w1)
    /\ (dec = StartProcessing \/ dec = RetryPreviousFailure)
    /\ lget w1 = lget w :> Journal /\ lget w1 = lget w :> InMemoryMessageBroker
    /\ stale_after (lget w1) = stale_after (lget w)
    /\ (forall id', id' <> id -> state w1 id' = state w id') /\ state w1 id <> Unseen.
Proof.
  intros [[st Hst] _ _ Hi] Hnc.
  destruct (begin_processing_spec id consumer w st Hst) as (now & w1 & Eb & Hst1 & Ho & Hs).
  pose proof (begin_processing_frame (T := Journal) id consumer w) as F1.
  pose proof (begin_processing_frame (T := InMemoryMessageBroker) id consumer w) as F2.
  rewrite Eb in F1, F2. cbn in F1, F2. specialize (Hi id).
  unfold state in *. cbn [begin_processing InMemoryInbox_inbox].
  exists (begin_outcome st now (inbox_state (lget w) id consumer)), w1.
  destruct (inbox_state (lget w) id consumer) as [|since| |] eqn:Es; cbn in *;
    [|by destruct (Hi since)|done|].
  - destruct Hs as (since & Hs & _). split_and!; try done; [by left| |by rewrite Hs].
    intros id' Hne. apply Ho. congruence.
  - split_and!; try done; [by right| |by rewrite Hs, Es].
    intros id' Hne. apply Ho. congruence.
Qed.

(** The handler's run and the mark that follows it. *)
Lemma handle_idle d w w1 :
  let id := delivery_id d in
  settled w -> state w id <> Completed ->
  lget w1 = lget w :> Journal -> stale_after (lget w1) = stale_after (lget w) ->
  (forall id', id' <> id -> state w1 id' = state w id') -> state w1 id <> Unseen ->
  exists w2 w3, journaled behaviour d w1 = (behaviour (past w) d, w2)
    /\ match behaviour (past w) d with
       | Ok _ => inbox_mark_completed id consumer w2
       | Err e => inbox_mark_failed id consumer (to_string e) w2
       end = (Ok tt, w3)
    /\ settled w3 /\ past w3 = past w ++ [(id, is_ok (behaviour (past w) d))]
    /\ lget w3 = lget w1 :> InMemoryMessageBroker.
Proof.
  intros id Hw Hnc Hj Hst Ho Hu. unfold journaled, zoom. rewrite Hj. fold (past w).
  set (r := behaviour (past w) d). set (w2 := lset _ w1). exists w2.
  assert (Hi2 : lget w2 = lget w1 :> InMemoryInbox) by (unfold w2; by rewrite lget_lset_other).
  assert (Hj2 : past w2 = past w ++ [(id, is_ok r)]) by (unfold past, w2; by rewrite lget_lset).
  assert (Hb2 : lget w2 = lget w1 :> InMemoryMessageBroker)
    by (unfold w2; by rewrite lget_lset_other).
  assert (Hu2 : inbox_state (lget w2) id consumer <> Unseen) by (by rewrite Hi2).
  assert (exists w3, match r with
            | Ok _ => inbox_mark_completed id consumer w2
            | Err e => inbox_mark_failed id consumer (to_string e) w2 end = (Ok tt, w3)
            /\ stale_after (lget w3) = stale_after (lget w2)
            /\ (forall id', state w3 id' = if decide (id = id')
                  then (if is_ok r then Completed else FailedBefore) else state w2 id')
            /\ lget w3 = lget w2 :> Journal /\ lget w3 = lget w2 :> InMemoryMessageBroker)
    as (w3 & E3 & Hst3 & Hs3 & Hj3 & Hb3).
  { destruct r as [u|e].
    - destruct (mark_completed_spec id consumer w2 Hu2) as (w3 & Em & Hst3 & Hs3).
      pose proof (mark_completed_frame (T := Journal) id consumer w2) as F1.
      pose proof (mark_completed_frame (T := InMemoryMessageBroker) id consumer w2) as F2.
      rewrite Em in F1, F2. exists w3. split_and!; try done. intros id'. unfold state.
      rewrite Hs3. destruct (decide (id = id')) as [->|]; [by rewrite decide_True|rewrite decide_False; congruence].
    - destruct (mark_failed_spec id consumer (to_string e) w2 Hu2) as (w3 & Em & Hst3 & Hs3).
      pose proof (mark_failed_frame (T := Journal) id consumer (to_string e) w2) as F1.
      pose proof (mark_failed_frame (T := InMemoryMessageBroker) id consumer (to_string e) w2) as F2.
      rewrite Em in F1, F2. exists w3. split_and!; try done. intros id'. unfold state.
      rewrite Hs3. destruct (decide (id = id')) as [->|]; [by rewrite decide_True|rewrite decide_False; congruence]. }
  exists w3. split; [done|]. split; [exact E3|]. split; [|split; [by rewrite <- Hj2; unfold past; rewrite Hj3|congruence]].
  apply (settled_handled w w3 id (is_ok r)); try done.
  - rewrite Hst3, Hi2. exact Hst.
  - rewrite <- Hj2. unfold past. by rewrite Hj3.
  - intros id'. rewrite Hs3. case_decide as Hd; [done|]. unfold state at 1. rewrite Hi2.
    apply Ho. congruence.
Qed.

Lemma queue_next d q w :
  queue w = d :: q ->
  exists b, InMemoryMessageBroker_next t (lget w) = (Ok (Some d), b) /\ queue_of b t = q.
Proof. apply queue_pop. Qed.

(** A turn on a non-empty queue. *)
Lemma turn_spec d q w :
  settled w -> queue w = d :: q -> topic (delivery_message d) = t ->
  settled (turn w).2 /\ turn_result w (turn w).2 d q.
Proof.
  intros Hw Hq Ht. destruct (queue_next d q w Hq) as (b & En & Hqb).
  unfold turn, bind. cbn [next InMemoryMessageBroker_consumer]. unfold zoom at 1 2. rewrite En.
  set (w0 := lset b w).
  assert (Hw0 : settled w0)
    by (eapply settled_ext; [| |exact Hw]; unfold w0; apply lget_lset_other).
  assert (Hp0 : past w0 = past w) by (unfold past, w0; by rewrite lget_lset_other).
  assert (Hs0 : forall id, state w0 id = state w id)
    by (intros id; unfold state, w0; by rewrite lget_lset_other).
  assert (Hb0 : lget w0 = b) by (unfold w0; by rewrite lget_lset).
  unfold process_idempotent, inbox_call, messaging_call, tbind, bind, mmap, ret.
  fold (delivery_id d). set (id := delivery_id d).
  destruct (decide (state w id = Completed)) as [Hc|Hnc].
  - destruct (settled_lease w0 Hw0) as [st Hst].
    destruct (begin_processing_spec id consumer w0 st Hst) as (now & w1 & Eb & _ & _ & Hs).
    pose proof (begin_processing_frame (T := Journal) id consumer w0) as F1.
    pose proof (begin_processing_frame (T := InMemoryMessageBroker) id consumer w0) as F2.
    rewrite Eb in F1, F2. cbn [begin_processing InMemoryInbox_inbox fst snd] in *. rewrite Eb.
    fold (state w0 id) in Hs |- *. rewrite Hs0, Hc in Hs |- *. cbn in Hs |- *.
    split.
    + apply (settled_ext w); rewrite ?lget_lset_other; [| |done].
      * rewrite Hs. unfold w0. apply lget_lset_other.
      * rewrite F1. unfold w0. apply lget_lset_other.
    + apply turn_skipped; [done| | |]; unfold past, queue; rewrite ?lget_lset_other, ?lget_lset.
      * rewrite F1. exact Hp0.
      * cbn. by rewrite F2, Hb0.
      * by rewrite F2, Hb0, En.
  - destruct (begin_idle id w0 Hw0) as (dec & w1 & Eb & Hdec & F1 & F2 & Hst1 & Ho & Hu);
      [by rewrite Hs0|].
    destruct (handle_idle d w0 w1) as (w2 & w3 & Eh & Em & Hw3 & Hp3 & Hb3); try done;
      [by rewrite Hs0|].
    fold id in Em, Hp3. rewrite Eb. cbn [fst snd]. rewrite Hp0 in *.
    assert (Hb : lget w3 = b) by congruence.
    destruct Hdec as [-> | ->]; cbn [map_err]; rewrite Eh;
      (destruct (behaviour (past w) d) as [u|e] eqn:Er; rewrite Em; cbn [map_err]; cbn;
       (split; [apply (settled_ext w3); [apply lget_lset_other..|done]|])).
    1,3: eapply turn_processed; [exact Er| | |]; unfold past, queue;
         rewrite ?lget_lset_other, ?lget_lset; [exact Hp3|by rewrite Hb|by rewrite Hb, En].
    all: eapply turn_failed; [exact Er| | |]; unfold past, queue;
         rewrite ?lget_lset_other, ?lget_lset; [exact Hp3| |by rewrite Hb, En].
    all: rewrite Hb, queue_push_back, decide_True by done; f_equal; exact Hqb.
Qed.

Lemma turn_empty w : queue w = [] -> turn w = (tt, w).
Proof.
  unfold queue, queue_of. intros Hq. unfold turn, bind. cbn. unfold zoom, InMemoryMessageBroker_next.
  destruct (topics (lget w) !! t) as [[|d q]|]; cbn in Hq; try done; by rewrite lset_lget.
Qed.

Lemma turns_empty n w : queue w = [] -> turns n w = w.
Proof. intros Hq. induction n as [|n IH]; [done|]. cbn. by rewrite turn_empty. Qed.

(** The deliveries of the topic are of the topic, and about messages of [ids]. *)
Definition about (ids : list Uuid) (d : Delivery) : Prop :=
  topic (delivery_message d) = t /\ delivery_id d ∈ ids.

Definition handled (w : W) (id : Uuid) : Prop :=
  (id, true) ∈ past w /\ was_acked (lget w) id = true.

Lemma acked_next d b : was_acked (InMemoryMessageBroker_ack d b).2 (delivery_id d) = true.
Proof. unfold was_acked. cbn. apply bool_decide_eq_true. by rewrite lookup_insert_eq. Qed.

Lemma acked_after b id :
  was_acked b id = true -> was_acked (InMemoryMessageBroker_next t b).2 id = true
  /\ forall d, was_acked (InMemoryMessageBroker_ack d b).2 id = true
               /\ was_acked (InMemoryMessageBroker_nack d true b).2 id = true.
Proof.
  unfold was_acked. rewrite !bool_decide_eq_true. intros Ha. split.
  - unfold InMemoryMessageBroker_next. by destruct (topics b !! t) as [[|??]|].
  - intros d. rewrite !bool_decide_eq_true. cbn. split; [|done].
    destruct (decide (message_id (delivery_message d) = id)) as [<-|]; simplify_map_eq; done.
Qed.

(** A turn keeps what was handled and handles or requeues the head. *)
Lemma turn_handles d q w ids :
  settled w -> queue w = d :: q -> Forall (about ids) (queue w) ->
  let w' := (turn w).2 in
  settled w' /\ Forall (about ids) (queue w')
  /\ (forall id, handled w id -> handled w' id)
  /\ (forall x, x ∈ queue w -> handled w' (delivery_id x)
        \/ exists y, y ∈ queue w' /\ delivery_id y = delivery_id x).
Proof.
  intros Hw Hq Hall w'. rewrite Hq in Hall. pose proof Hall as Hall'.
  apply Forall_cons in Hall' as [[Ht Hin] Hrest].
  destruct (turn_spec d q w Hw Hq Ht) as [Hw' Hr]. fold w' in Hw', Hr.
  assert (Hkeep : forall id, (id, true) ∈ past w -> (id, true) ∈ past w')
    by (destruct Hr as [? Hp|? ? Hp|? ? Hp]; rewrite Hp; set_solver).
  assert (Hback : forall id, handled w id -> handled w' id).
  { intros id [Hp Ha]. split; [by apply Hkeep|]. apply acked_after in Ha as [Ha _].
    destruct (acked_after _ _ Ha) as [_ Hd]. destruct (Hd d).
    by destruct Hr as [? ? ? Hb|? ? ? ? Hb|? ? ? ? Hb]; rewrite Hb. }
  split; [done|]. split; [|split; [done|]].
  - destruct Hr as [? ? Hq'|? ? ? Hq'|? ? ? Hq']; rewrite Hq'; [done..|].
    apply Forall_app. split; [done|]. by repeat constructor.
  - intros x Hx. rewrite Hq in Hx. apply elem_of_cons in Hx as [->|Hx].
    + destruct Hr as [Hc Hp ? Hb|? ? Hp ? Hb|? ? ? Hq' ?].
      * left. split; [apply Hkeep; by apply (settled_completed w)|]. rewrite Hb. apply acked_next.
      * left. split; [rewrite Hp; set_solver|]. rewrite Hb. apply acked_next.
      * right. eexists. rewrite Hq'. split; [apply elem_of_app; right; by left|done].
    + right. exists x. split; [|done].
      destruct Hr as [? ? Hq'|? ? ? Hq'|? ? ? Hq']; rewrite Hq'; [done..|]. set_solver.
Qed.

(** Every turn on a non-empty queue uses up a delivery or a failure. *)
Lemma turn_progress k d q w ids :
  fails_at_most k behaviour -> settled w -> queue w = d :: q -> Forall (about ids) (queue w) ->
  let w' := (turn w).2 in
  (length (queue w') + budget k ids (past w') < length (queue w) + budget k ids (past w))%nat.
Proof.
  intros Hk Hw Hq Hall w'. rewrite Hq in Hall. apply Forall_cons in Hall as [[Ht Hin] _].
  destruct (turn_spec d q w Hw Hq Ht) as [_ Hr]. fold w' in Hr. rewrite Hq. cbn [length].
  destruct Hr as [? Hp Hq'|? ? Hp Hq'|e He Hp Hq']; rewrite Hp, Hq'.
  - lia.
  - rewrite budget_ok. lia.
  - rewrite length_app. cbn.
    pose proof (budget_failed k ids (past w) (delivery_id d) Hin (Hk _ _ _ He)). lia.
Qed.

(** With at most [k] failures per message, enough turns empty the topic and
    every queued message ends up handled. *)
Lemma turns_drain k n w ids :
  fails_at_most k behaviour -> settled w -> Forall (about ids) (queue w) ->
  (length (queue w) + budget k ids (past w) <= n)%nat ->
  settled (turns n w) /\ queue (turns n w) = []
  /\ (forall id, handled w id -> handled (turns n w) id)
  /\ forall d, d ∈ queue w -> handled (turns n w) (delivery_id d).
Proof.
  intros Hk. revert w. induction n as [|n IH]; intros w Hw Hall Hn;
    destruct (queue w) as [|d q] eqn:Eq; [|cbn in Hn; lia| |].
  1,2: rewrite turns_empty by done; split_and!; [done..|]; intros d Hd; by apply elem_of_nil in Hd.
  cbn [turns]. rewrite <- Eq in *.
  destruct (turn_handles d q w ids Hw Eq Hall) as (Hw' & Hall' & Hkeep & Hhead).
  pose proof (turn_progress k d q w ids Hk Hw Eq Hall) as Hlt. cbn zeta in *.
  destruct (IH (turn w).2 Hw' Hall') as (H1 & H2 & H3 & H4); [lia|].
  split_and!; [done|done|by auto|]. intros x Hx.
  destruct (Hhead x Hx) as [Hh|(y & Hy & <-)]; [by apply H3|by apply H4].
Qed.

Lemma handled_once_exactly w id : settled w -> handled w id -> successes id (past w) = 1%nat.
Proof.
  intros [_ _ Hn _] [Hin _]. revert Hn Hin. unfold successes. generalize (past w) as l.
  induction l as [|[i b] l IH]; [by intros _ Hin%elem_of_nil|].
  rewrite !filter_cons. destruct b; cbn.
  - intros [Hni Hn]%NoDup_cons [[= ->]|Hin]%elem_of_cons.
    + rewrite decide_True by done. cbn. f_equal. apply length_zero_iff_nil.
      destruct (filter (fun e => e = (i, true)) l) as [|e l'] eqn:Ef; [done|]. exfalso. apply Hni.
      assert (He : e ∈ filter (fun e => e = (i, true)) l) by (rewrite Ef; left).
      apply list_elem_of_filter in He as [-> He]. apply list_elem_of_fmap.
      exists (i, true). split; [done|]. by apply list_elem_of_filter.
    + rewrite decide_False.
      * by apply IH.
      * intros [= ->]. apply Hni, list_elem_of_fmap. exists (id, true).
        split; [done|]. by apply list_elem_of_filter.
  - rewrite (decide_False (P := (i, false) = (id, true))) by congruence.
    intros Hn [?|Hin]%elem_of_cons; [congruence|by apply IH].
Qed.
End Drain.

(** ** The relay *)

(** What a sequence of deliveries adds to the topic. *)
Lemma queue_delivered t sent b :
  queue_of (foldl deliver b sent) t
  = queue_of b t ++ (Delivery_new ∘ ob_message <$> filter (fun m => topic (ob_message m) = t) sent).
Proof.
  revert b. induction sent as [|m sent IH]; intros b; [by rewrite app_nil_r|].
  cbn [foldl]. rewrite IH. unfold deliver. rewrite queue_push_back, filter_cons, <- app_assoc.
  f_equal. repeat case_decide; try done; congruence.
Qed.

(** Rows with fresh, distinct identifiers are all in the outbox afterwards. *)
Lemma installed_rows ms (ob : gmap Uuid OutboxMessage) :
  NoDup (ob_id <$> ms) ->
  Forall (fun m => foldl (fun ob m => <[ob_id m := m]> ob) ob ms !! ob_id m = Some m) ms.
Proof.
  assert (Hother : forall ms (ob : gmap Uuid OutboxMessage) id, id ∉ ob_id <$> ms ->
            foldl (fun ob m => <[ob_id m := m]> ob) ob ms !! id = ob !! id).
  { clear. induction ms as [|m ms IH]; intros ob id Hni; [done|]. cbn in *.
    apply not_elem_of_cons in Hni as [Hne Hni]. by rewrite IH, lookup_insert_ne. }
  revert ob. induction ms as [|m ms IH]; intros ob Hnd; [constructor|]. cbn in *.
  apply NoDup_cons in Hnd as [Hni Hnd]. constructor; [|by apply IH].
  by rewrite Hother, lookup_insert_eq.
Qed.

Lemma installed_keyed ms (ob : gmap Uuid OutboxMessage) l :
  well_keyed (mkInMemoryOutbox ob l) ->
  well_keyed (mkInMemoryOutbox (foldl (fun ob m => <[ob_id m := m]> ob) ob ms) l).
Proof.
  revert ob. induction ms as [|m ms IH]; intros ob Hk; [done|]. cbn. apply IH.
  by apply map_Forall_insert_2.
Qed.

(** A claim that fits in the limit takes every due row. *)
Lemma claims_all now limit s claimed s' m0 id :
  claims_oldest now limit s claimed s' -> (size (ob_store s) < limit)%nat ->
  ob_store s !! id = Some m0 -> due now m0 = true -> leased now s m0 ∈ claimed.
Proof.
  intros Hc Hlim Hid Hdue. destruct (claims_complete _ _ _ _ _ Hc id m0 Hid Hdue) as [|[Hlen _]];
    [done|exfalso].
  assert (Hsub : list_to_set (ob_id <$> claimed) ⊆ dom (ob_store s)).
  { intros i Hi. apply elem_of_list_to_set, list_elem_of_fmap in Hi as (m & -> & Hm).
    destruct (claims_due _ _ _ _ _ Hc m Hm) as (? & Hm0 & _). by apply elem_of_dom_2 in Hm0. }
  apply subseteq_size in Hsub.
  rewrite size_list_to_set, length_fmap, size_dom in Hsub by apply (claims_nodup _ _ _ _ _ Hc). lia.
Qed.

(** ** The pipeline *)

Abbreviation Pipeline Id A := (World (InMemoryUnitOfWork Id A * (InMemoryOutbox *
  (InMemoryMessageBroker * (InMemoryInbox * Journal))))) (only parsing).

(** ** What each stage leaves alone *)

Section Stages.
Context {W S : Type} `{!Env W, !Chrono, !Lens W S, !EnvFrame W S}.

Lemma OutboxMessage_new_keeps m : keeps S (OutboxMessage_new (W := W) m).
Proof. unfold OutboxMessage_new. keeping. Qed.
#[local] Hint Resolve OutboxMessage_new_keeps : keeps.

Section Producer.
Context {Id A Ev : Type} `{Countable Id, !AggregateRoot A Id Ev, !MapIter Uuid OutboxMessage,
  !Lens W (InMemoryUnitOfWork Id A), !Lens W InMemoryOutbox,
  !LensDisjoint W (InMemoryUnitOfWork Id A) S, !LensDisjoint W InMemoryOutbox S}.
Variable map_event : Ev -> M W (result Message string).
Hypothesis map_event_keeps : forall ev, keeps S (map_event ev).

Lemma map_pending_keeps {RE SE} evs : keeps S (map_pending (RE := RE) (SE := SE) map_event evs).
Proof. induction evs as [|ev evs IH]; cbn [map_pending]; keeping. Qed.

Lemma insert_all_keeps (tx : InMemoryTx A) ms :
  keeps S (insert_all (W := W) (RE := InMemoryUnitOfWorkError) tx ms).
Proof.
  revert tx. induction ms as [|m ms IH]; intros tx; cbn [insert_all]; [keeping|].
  cbn [insert_outbox_in_tx InMemoryUnitOfWork_store]. unfold InMemoryUnitOfWork_insert_outbox_in_tx.
  keeping.
Qed.

Lemma tx_drop_keeps (tx : InMemoryTx A) : keeps S (InMemoryUnitOfWork_drop (W := W) tx).
Proof. unfold InMemoryUnitOfWork_drop. keeping. Qed.

Lemma tx_commit_keeps (tx : InMemoryTx A) : keeps S (InMemoryUnitOfWork_commit (W := W) tx).
Proof.
  pose proof tx_drop_keeps. unfold InMemoryUnitOfWork_commit. keeping.
  cbn. unfold InMemoryOutbox_insert. keeping.
Qed.

Lemma save_in_tx_keeps (tx : InMemoryTx A) (a : A) :
  keeps S (InMemoryUnitOfWork_save_in_tx (W := W) tx a).
Proof. unfold InMemoryUnitOfWork_save_in_tx. keeping. Qed.

Lemma in_transaction_keeps (tx : InMemoryTx A) (a : A) ms :
  keeps S (in_transaction (W := W) (RE := InMemoryUnitOfWorkError) tx a ms).
Proof.
  pose proof insert_all_keeps. pose proof tx_drop_keeps. pose proof tx_commit_keeps.
  pose proof save_in_tx_keeps. unfold in_transaction.
  cbn [save_in_tx InMemoryUnitOfWork_transactional tx_drop tx_commit InMemoryUnitOfWork_store].
  keeping.
Qed.

Lemma save_and_enqueue_keeps (a : A) :
  keeps S (save_and_enqueue_in (RE := InMemoryUnitOfWorkError) (SE := InMemoryUnitOfWorkError)
             map_event a).
Proof.
  pose proof (@map_pending_keeps). pose proof in_transaction_keeps. unfold save_and_enqueue_in.
  cbn [tx_begin InMemoryUnitOfWork_store]. unfold InMemoryUnitOfWork_begin. keeping.
Qed.
End Producer.

Section Relay.
Context `{!MapIter Uuid OutboxMessage, !Lens W InMemoryOutbox, !Lens W InMemoryMessageBroker,
  !LensDisjoint W InMemoryOutbox S, !LensDisjoint W InMemoryMessageBroker S}.

Lemma ob_update_keeps id (f : OutboxMessage -> M W (result OutboxMessage OutboxError)) :
  (forall m, keeps S (f m)) -> keeps S (ob_update id f).
Proof. intros Hf. unfold ob_update. keeping. Qed.

Lemma decide_for_keeps policy attempt kind :
  keeps S (RetryPolicy_decide_for (W := W) policy attempt kind).
Proof.
  unfold RetryPolicy_decide_for, RetryPolicy_decide, BackoffStrategy_delay_for, jitter_factor.
  keeping.
Qed.

Lemma dispatch_one_keeps config m : keeps S (dispatch_one (W := W) config m).
Proof.
  pose proof decide_for_keeps. unfold dispatch_one. cbn. unfold InMemoryOutbox_record_attempt,
    InMemoryOutbox_mark_published, InMemoryOutbox_mark_failed, InMemoryOutbox_schedule_retry.
  keeping; apply ob_update_keeps; unfold OutboxMessage_record_attempt, OutboxMessage_mark_published,
    OutboxMessage_mark_failed; keeping.
Qed.

Lemma dispatch_pending_keeps config limit : keeps S (dispatch_pending (W := W) config limit).
Proof.
  pose proof dispatch_one_keeps as Hone.
  assert (Hlane : forall lane pub errs, keeps S (dispatch_lane (W := W) config lane pub errs)).
  { induction lane as [|m lane IH]; intros pub errs; cbn [dispatch_lane]; keeping. }
  assert (Hlanes : forall lanes, keeps S (dispatch_lanes (W := W) config lanes)).
  { induction lanes as [|lane lanes IH]; cbn [dispatch_lanes]; keeping. }
  unfold dispatch_pending. cbn. unfold InMemoryOutbox_pending. keeping.
Qed.
End Relay.

Section Consumer.
Context {E : Type} `{!Lens W InMemoryInbox, !Lens W Journal, !Lens W InMemoryMessageBroker,
  !LensDisjoint W InMemoryInbox S, !LensDisjoint W Journal S,
  !LensDisjoint W InMemoryMessageBroker S}.

Lemma turn_keeps (to_string : E -> string) consumer behaviour t :
  keeps S (turn (W := W) to_string consumer behaviour t).
Proof.
  unfold turn, process_idempotent, inbox_call, messaging_call, journaled. cbn.
  unfold InMemoryInbox_mark_completed, InMemoryInbox_mark_failed.
  keeping; (try (intros w; apply begin_processing_frame));
    intros w; apply ib_update_frame; intros m; unfold InboxMessage_mark_completed,
    InboxMessage_mark_failed; apply keeps_bind; keeping.
Qed.

Lemma turns_keep (to_string : E -> string) consumer behaviour t n (w : W) :
  lget (turns to_string consumer behaviour t n w) = lget w :> S.
Proof.
  revert w. induction n as [|n IH]; intros w; [done|]. cbn. rewrite IH. apply turn_keeps.
Qed.
End Consumer.
End Stages.

Section Composition.
Context {Id A Ev E : Type} `{Countable Id, !AggregateRoot A Id Ev, !AggregateRootLaws AggregateRoot0,
  !Chrono, !MapIter Uuid OutboxMessage}.
Variable map_event : Ev -> M (Pipeline Id A) (result Message string).
Variable t : string.
Hypothesis map_event_stores : forall ev w, w_stores (map_event ev w).2 = w_stores w.
Hypothesis map_event_topic : forall ev w m w', map_event ev w = (Ok m, w') -> topic m = t.

(** What the handler's side has of message [m], and the outbox of its row. *)
Definition delivered_once (w : Pipeline Id A) (m : OutboxMessage) : Prop :=
  successes (message_id (ob_message m)) (ran (lget w)) = 1%nat
  /\ was_acked (lget w) (message_id (ob_message m)) = true
  /\ exists row, ob_store (lget w) !! ob_id m = Some row
                 /\ ob_status row = Published /\ ob_message row = ob_message m.

(** The outbox rows [save_and_enqueue_in] makes of the pending events. *)
Definition enqueued_rows (a : A) (w : Pipeline Id A)
  : result (list OutboxMessage) (SaveAndEnqueueError InMemoryUnitOfWorkError InMemoryUnitOfWorkError) :=
  (map_pending map_event (pending_events a) w).1.

(** Producer: the rows of the events are in the outbox, nothing else moved. *)
Lemma produced (a a' : A) (w w1 : Pipeline Id A) :
  save_and_enqueue_in (RE := InMemoryUnitOfWorkError) (SE := InMemoryUnitOfWorkError)
    map_event a w = (Some (Ok tt, a'), w1) ->
  well_keyed (lget w) ->
  well_keyed (lget w1)
  /\ lget w1 = lget w :> InMemoryMessageBroker /\ lget w1 = lget w :> InMemoryInbox
  /\ lget w1 = lget w :> Journal
  /\ exists ms, enqueued_rows a w = Ok ms
       /\ Forall2 (enqueued_for map_event) (pending_events a) ms
       /\ (NoDup (ob_id <$> ms) ->
           Forall (fun m => ob_store (lget w1) !! ob_id m = Some m) ms).
Proof.
  intros Hrun Hk.
  assert (Hkeep : forall S `{!Lens (InMemoryMessageBroker * (InMemoryInbox * Journal)) S},
            lget (w_stores w1).2.2 = lget (w_stores w).2.2 :> S).
  { intros S ?. assert (Hf : forall ev, keeps S (map_event ev))
      by (intros ev w0; unfold lget; cbn; by rewrite map_event_stores).
    pose proof (save_and_enqueue_keeps map_event Hf a w) as F. rewrite Hrun in F. exact F. }
  assert (Hv : forall ev w, uow_view (map_event ev w).2 = uow_view w)
    by (intros ev w0; unfold uow_view, uow, lget; cbn; by rewrite map_event_stores).
  destruct (save_and_enqueue_spec uow_view uow_staged map_event Hv _ _ _ _ _ Hrun)
    as (_ & _ & ms & Hrows & Hms & Hview).
  assert (Hob : ob_store (lget w1) = foldl (fun ob m => <[ob_id m := m]> ob) (ob_store (lget w)) ms)
    by exact (f_equal snd Hview).
  split; [|split; [apply Hkeep|split; [apply Hkeep|split; [apply Hkeep|]]]].
  - unfold well_keyed. rewrite Hob. by apply (installed_keyed ms _ 0).
  - exists ms. split; [done|]. split; [done|]. intros Hnd. rewrite Hob. by apply installed_rows.
Qed.

(** Relay: every due row is published and its message queued on its topic. *)
Lemma relayed config limit (w1 : Pipeline Id A) :
  well_keyed (lget w1) -> (size (ob_store (lget w1)) < limit)%nat ->
  exists res w2, dispatch_pending config limit w1 = (Some res, w2) /\ errors res = []
    /\ lget w2 = lget w1 :> InMemoryInbox /\ lget w2 = lget w1 :> Journal
    /\ (Forall (fun d => topic (delivery_message d) = t) (queue_of (lget w1) t) ->
        Forall (fun d => topic (delivery_message d) = t) (queue_of (lget w2) t))
    /\ forall m, ob_store (lget w1) !! ob_id m = Some m -> due (utc_now w1).1 m = true ->
         (exists row, ob_store (lget w2) !! ob_id m = Some row
                      /\ ob_status row = Published /\ ob_message row = ob_message m)
         /\ (topic (ob_message m) = t -> Delivery_new (ob_message m) ∈ queue_of (lget w2) t).
Proof.
  intros Hk Hlim.
  destruct (dispatch_pending_in_memory config limit w1 Hk)
    as (claimed & s1 & w2 & Hc & Ed & Hpub & _ & sent & Hsent & Hb).
  exists (mkDispatchResult (length claimed) []), w2. split; [done|]. split; [done|].
  pose proof (dispatch_pending_keeps (S := InMemoryInbox) config limit w1) as F1.
  pose proof (dispatch_pending_keeps (S := Journal) config limit w1) as F2.
  rewrite Ed in F1, F2. split; [exact F1|]. split; [exact F2|]. rewrite Hb, queue_delivered. split.
  - intros Hq. apply Forall_app. split; [done|]. apply Forall_fmap, Forall_forall.
    intros m Hm. by apply list_elem_of_filter in Hm as [? _].
  - intros m Hm Hdue. pose proof (claims_all _ _ _ _ _ _ _ Hc Hlim Hm Hdue) as Hin.
    rewrite Forall_forall in Hpub. destruct (Hpub _ Hin) as (row & Hrow & t1 & t2 & ->).
    split; [eexists; split; [exact Hrow|done]|]. intros Ht. apply elem_of_app. right.
    apply list_elem_of_fmap. exists (leased (utc_now w1).1 (lget w1) m). split; [done|].
    apply list_elem_of_filter. split; [done|]. by rewrite Hsent.
Qed.

(** Consumer: a topic with bounded failures is handled to the end. *)
Lemma consumed (to_string : E -> string) consumer behaviour k n (w2 : Pipeline Id A) :
  fails_at_most k behaviour -> settled consumer w2 ->
  Forall (fun d => topic (delivery_message d) = t) (queue_of (lget w2) t) ->
  (S k * queued_len (lget w2) t <= n)%nat ->
  let w3 := turns to_string consumer behaviour t n w2 in
  settled consumer w3 /\ queue_of (lget w3) t = []
  /\ lget w3 = lget w2 :> InMemoryOutbox
  /\ forall d, d ∈ queue_of (lget w2) t ->
       successes (delivery_id d) (ran (lget w3)) = 1%nat
       /\ was_acked (lget w3) (delivery_id d) = true.
Proof.
  intros Hk Hw Hq Hn w3. set (ids := delivery_id <$> queue_of (lget w2) t).
  destruct (turns_drain to_string consumer behaviour t k n w2 ids) as (H1 & H2 & _ & H4); try done.
  - apply Forall_forall. intros d Hd. rewrite Forall_forall in Hq. split; [by apply Hq|].
    by apply list_elem_of_fmap_2.
  - pose proof (budget_bound k ids (ran (lget w2))) as Hb. unfold ids in Hb at 2.
    rewrite length_fmap in Hb. unfold queued_len in Hn. lia.
  - split; [done|]. split; [done|]. split; [apply turns_keep|]. intros d Hd.
    pose proof (H4 d Hd) as Hh. split; [by eapply handled_once_exactly|by destruct Hh].
Qed.
End Composition.

(** ** Properties *)

(** C2: an event raised by an aggregate is handled exactly once.  Once
    [save_and_enqueue_in] answers [Ok], one run of the dispatcher with room
    for the outbox publishes every event's row without an error, and enough
    turns of the consumer's loop, [k + 1] per queued delivery when the
    handler fails at most [k] times per message, empty the topic: the handler
    has then succeeded exactly once for each event's message, the message is
    acknowledged and its row is [Published].  The rows' identifiers must be
    distinct and the dispatcher's clock not behind theirs. *)
Theorem events_handled_exactly_once {Id A Ev E : Type}
  `{Countable Id, !AggregateRoot A Id Ev, !AggregateRootLaws AggregateRoot0,
    !Chrono, !MapIter Uuid OutboxMessage}
  (map_event : Ev -> M (Pipeline Id A) (result Message string)) (t : string)
  (Hstores : forall ev w, w_stores (map_event ev w).2 = w_stores w)
  (Htopic : forall ev w m w', map_event ev w = (Ok m, w') -> topic m = t)
  (to_string : E -> string) (consumer : string)
  (behaviour : list (Uuid * bool) -> Delivery -> result unit E) (k : nat)
  (Hfails : fails_at_most k behaviour)
  (config : DispatchConfig) (limit : nat) (a a' : A) (w w1 : Pipeline Id A)
  (Hkeyed : well_keyed (lget w)) (Hsettled : settled consumer w)
  (Hqueue : Forall (fun d => topic (delivery_message d) = t) (queue_of (lget w) t))
  (Hsave : save_and_enqueue_in (RE := InMemoryUnitOfWorkError) (SE := InMemoryUnitOfWorkError)
             map_event a w = (Some (Ok tt, a'), w1))
  (ms : list OutboxMessage) (Hrows : enqueued_rows map_event a w = Ok ms)
  (Hdistinct : NoDup (ob_id <$> ms))
  (Hclock : Forall (fun m => ob_next_attempt_at m <= (utc_now w1).1) ms)
  (Hlimit : (size (ob_store (lget w1)) < limit)%nat) :
  length ms = length (pending_events a)
  /\ exists res w2, dispatch_pending config limit w1 = (Some res, w2) /\ errors res = []
    /\ forall n, (S k * queued_len (lget w2) t <= n)%nat ->
         let w3 := turns to_string consumer behaviour t n w2 in
         settled consumer w3 /\ queue_of (lget w3) t = [] /\ Forall (delivered_once w3) ms.
Proof.
  destruct (produced map_event Hstores a a' w w1 Hsave Hkeyed)
    as (Hk1 & Fb & Fi & Fj & ms' & Hms' & Hms & Hin).
  rewrite Hrows in Hms'. injection Hms' as <-. specialize (Hin Hdistinct).
  split; [symmetry; by eapply Forall2_length|].
  destruct (relayed t config limit w1 Hk1 Hlimit)
    as (res & w2 & Ed & He & Fi2 & Fj2 & Hq2 & Hall).
  exists res, w2. split; [done|]. split; [done|]. intros n Hn.
  destruct (consumed t to_string consumer behaviour k n w2 Hfails) as (H1 & H2 & Fo & H4); try done.
  { apply (settled_ext consumer w); [congruence..|done]. }
  { apply Hq2. by rewrite Fb. }
  split; [done|]. split; [done|]. rewrite Forall_forall in *. intros m Hm.
  apply list_elem_of_lookup in Hm as Hi. destruct Hi as [i Hi].
  destruct (Forall2_lookup_r _ _ _ _ _ Hms Hi) as (ev & _ & (x1 & x2 & Hmap) & Hst & _).
  destruct (Hall m) as [Hrow Hdel]; [by apply Hin| |].
  { unfold due. rewrite bool_decide_true by done. specialize (Hclock m Hm). cbn in Hclock |- *. lia. }
  destruct (H4 _ (Hdel (Htopic _ _ _ _ Hmap))) as [Hs Ha]. split_and!; [exact Hs|exact Ha|].
  rewrite Fo. exact Hrow.
Qed.

(** ** Witness

    A cart with two events; the handler fails once for each message. *)

Definition pipeline_start : Pipeline Z (PlainAggregate Z Z Z) :=
  mkWorld env_start (InMemoryUnitOfWork_new, (InMemoryOutbox_default,
    (InMemoryMessageBroker_new, (InMemoryInbox_default, mkJournal [])))).

Definition pipeline_event (e : Z) : M (Pipeline Z (PlainAggregate Z Z Z)) (result Message string) :=
  do! id <- uuid_now_v7; ret (Ok (Message_new id "carts" (pretty e) "text/plain")).

Definition fail_first (past : list (Uuid * bool)) (d : Delivery) : result unit string :=
  if (failures (delivery_id d) past <? 1)%nat then Err "first try" else Ok tt.

Definition pipeline_rows : list OutboxMessage :=
  Eval vm_compute in
    match enqueued_rows pipeline_event (cart 10 0 [3; 4]) pipeline_start with
    | Ok ms => ms | Err _ => [] end.

Definition pipeline_saved : Pipeline Z (PlainAggregate Z Z Z) :=
  (save_and_enqueue_in (RE := InMemoryUnitOfWorkError) (SE := InMemoryUnitOfWorkError)
     pipeline_event (cart 10 0 [3; 4]) pipeline_start).2.

Definition pipeline_end : Pipeline Z (PlainAggregate Z Z Z) :=
  turns id "billing" fail_first "carts" 4
    (dispatch_pending DispatchConfig_default 10 pipeline_saved).2.

Lemma fail_first_bounded : fails_at_most 1 fail_first.
Proof.
  intros past d e. unfold fail_first, delivery_id.
  destruct (Nat.ltb_spec (failures (message_id (delivery_message d)) past) 1); [lia|done].
Qed.

Lemma pipeline_start_settled : settled "billing" pipeline_start.
Proof.
  split; [by eexists|intros i; split; [done|by intros Hin%elem_of_nil]|constructor|done].
Qed.

Lemma events_handled_exactly_once_witness :
  settled "billing" pipeline_end /\ Forall (delivered_once pipeline_end) pipeline_rows
  /\ length pipeline_rows = 2%nat
  /\ ran (lget pipeline_end) = [(1, false); (3, false); (1, true); (3, true)].
Proof.
  destruct (events_handled_exactly_once pipeline_event "carts"
              ltac:(intros ev []; reflexivity) ltac:(intros ev [] m w' [= <- <-]; reflexivity)
              id "billing" fail_first 1 fail_first_bounded DispatchConfig_default 10
              (cart 10 0 [3; 4]) (cart 10 1 []) pipeline_start pipeline_saved)
    with (ms := pipeline_rows) as (_ & res & w2 & Ed & _ & Hrun).
  - by apply map_Forall_empty.
  - apply pipeline_start_settled.
  - constructor.
  - vm_compute. reflexivity.
  - vm_compute. reflexivity.
  - apply (bool_decide_unpack _). vm_compute. exact I.
  - repeat constructor; vm_compute; discriminate.
  - vm_compute. lia.
  - assert (Hw2 : w2 = (dispatch_pending DispatchConfig_default 10 pipeline_saved).2) by (by rewrite Ed).
    destruct (Hrun 4%nat) as (Hs & _ & Hall); [rewrite Hw2; vm_compute; lia|].
    rewrite Hw2 in Hs, Hall. split; [exact Hs|]. split; [exact Hall|]. split; vm_compute; reflexivity.
Defined.
