(* ===== verification/Settlement.v ===== *)
(** * Nothing is lost and nothing is stuck

    The relay an application runs: [dispatch_pending]
    (pharos-messaging/src/outbox_dispatcher.rs) again and again over the
    in-memory outbox, each time after the backoffs and leases have passed, and
    in the end the dead-letter sweep (outbox.rs).  The publisher is any broker
    that answers as it likes; what it took is a ledger.

    Every run attempts at least one message, and a message has as many
    attempts as the retry policy grants, so a run with nothing left to do is
    reached after a number of runs known beforehand. *)

From S2P Require Import Prelude Core Messaging Outbox OutboxDispatcher.
Local Open Scope Z_scope.

(** ** The relay *)

(** What a publisher took, and that it minds its own business. *)
Class PublisherLedger (W : Type) `{!Env W, !Lens W InMemoryOutbox, !MessagePublisher W} : Type := {
  taken : W -> list Message;
  publish_outbox m w : lget (publish m w).2 = lget w :> InMemoryOutbox;
  publish_taken m w :
    taken (publish m w).2 = taken w ++ (if is_ok (publish m w).1 then [m] else []);
  taken_now w : taken (utc_now w).2 = taken w;
  taken_random w : taken (fastrand_f64 w).2 = taken w;
  taken_outbox (s : InMemoryOutbox) w : taken (lset s w) = taken w;
}.

Section Relay.
Context {W : Type} `{!Env W, !Lens W InMemoryOutbox, !LensLaws W InMemoryOutbox,
  !EnvFrame W InMemoryOutbox, !Chrono, !MapIter Uuid OutboxMessage,
  !MessagePublisher W, !PublisherLedger W}.

(** The dispatcher's configuration, the claim limit, and waiting. *)
Context (config : DispatchConfig) (limit : nat) (wait : M W unit).

Fixpoint relay (n : nat) : M W (option (list DispatchResult)) :=
  match n with
  | O => ret (Some [])
  | S n' =>
      do! _ <- wait;
      live! r <- dispatch_pending config limit;
      live! rs <- relay n';
      ret (Some (r :: rs))
  end.

Abbreviation Rows := (gmap Uuid OutboxMessage) (only parsing).

Let rows (w : W) : Rows := ob_store (lget w).

(** The number of attempts the policy grants. *)
Definition budget : Z := Z.max 1 (max_attempts (retry config)).

(** The policy counts in a [u32]. *)
Context (Hmax : max_attempts (retry config) <= u32_max).

(** The next attempt of a pending row still has a number. *)
Definition countable (m : OutboxMessage) : Prop :=
  ob_status m = Pending -> 0 <= ob_attempts m < u32_max.

(** The attempts a row has left; a settled row has none.  A row whose
    attempts were counted by a dispatcher that crashed has one more. *)
Definition weight (m : OutboxMessage) : nat :=
  if decide (ob_status m = Pending) then Z.to_nat (Z.max 1 (budget - ob_attempts m)) else 0.

Lemma weight_pending m : ob_status m = Pending -> weight m = Z.to_nat (Z.max 1 (budget - ob_attempts m)).
Proof. intros HP. unfold weight. by rewrite decide_True. Qed.

Lemma weight_settled m : ob_status m <> Pending -> weight m = 0%nat.
Proof. intros HP. unfold weight. by rewrite decide_False. Qed.

Definition total (s : Rows) : nat := sum_list_with weight (map_to_list s).*2.

(** Given up on: by the broker's verdict or with the last attempt. *)
Definition given_up (m : OutboxMessage) : Prop :=
  ob_status m = Failed /\
  exists e, ob_last_error m = Some (MessagingError_to_string e)
    /\ (MessagingError_failure_kind e = Poison \/ budget <= ob_attempts m).

(** How a row goes on; [b]: its message was taken meanwhile. *)
Inductive advanced (m : OutboxMessage) : OutboxMessage -> bool -> Prop :=
| adv_same : advanced m m false
| adv_pending m' :
    ob_status m = Pending -> ob_id m' = ob_id m -> ob_message m' = ob_message m ->
    ob_status m' = Pending ->
    ob_attempts m' = ob_attempts m \/ ob_attempts m < ob_attempts m' < budget -> advanced m m' false
| adv_given_up m' :
    ob_status m = Pending -> ob_id m' = ob_id m -> ob_message m' = ob_message m ->
    given_up m' -> ob_attempts m < ob_attempts m' <= Z.max budget (ob_attempts m + 1) ->
    advanced m m' false
| adv_published m' :
    ob_status m = Pending -> ob_id m' = ob_id m -> ob_message m' = ob_message m ->
    ob_status m' = Published -> ob_attempts m < ob_attempts m' <= Z.max budget (ob_attempts m + 1) ->
    advanced m m' true.

(** How the rows go on while the messages of [ids] are taken, in that order. *)
Record advance (s s' : Rows) (ids : list Uuid) : Prop := {
  advance_nodup : NoDup ids;
  advance_dom id : is_Some (s' !! id) <-> is_Some (s !! id);
  advance_row id m m' : s !! id = Some m -> s' !! id = Some m' ->
    advanced m m' (bool_decide (id ∈ ids));
  advance_ids id : id ∈ ids -> is_Some (s !! id);
}.

(** The messages of the rows [ids]. *)
Definition messages_of (s : Rows) (ids : list Uuid) : list Message :=
  omap (fun id => ob_message <$> s !! id) ids.

Definition sane (w : W) : Prop :=
  well_keyed (lget w) /\ map_Forall (fun _ => countable) (rows w).

(** One stretch of the relay: the rows go on, the ledger by exactly the rows
    that became published, and at least [d] attempts are used up. *)
Record went (w w' : W) (ids : list Uuid) (d : nat) : Prop := {
  went_rows : advance (rows w) (rows w') ids;
  went_taken : taken w' = taken w ++ messages_of (rows w) ids;
  went_sane : sane w';
  went_total : (total (rows w') + d <= total (rows w))%nat;
}.

(** ** Rows *)

Lemma advanced_trans m1 m2 m3 b1 b2 :
  advanced m1 m2 b1 -> advanced m2 m3 b2 -> advanced m1 m3 (b1 || b2).
Proof.
  intros H1 H2. destruct H1 as [|m2 P1 I1 M1 S1 A1|m2 P1 I1 M1 [S1 E1] A1|m2 P1 I1 M1 S1 A1];
    [exact H2|..]; destruct H2 as [|m3 P2 I2 M2 S2 A2|m3 P2 I2 M2 S2 A2|m3 P2 I2 M2 S2 A2]; cbn;
    try congruence;
    econstructor; (done || lia || congruence || (by split)).
Qed.

Lemma advanced_once m1 m2 m3 b2 : advanced m1 m2 true -> advanced m2 m3 b2 -> b2 = false.
Proof. intros H1 H2. inversion H1; subst. inversion H2; subst; congruence. Qed.

Lemma advanced_message m m' b : advanced m m' b -> ob_id m' = ob_id m /\ ob_message m' = ob_message m.
Proof. by destruct 1. Qed.

(** A recorded attempt uses weight up; nothing adds any. *)
Lemma advanced_weight m m' b :
  countable m -> advanced m m' b ->
  (weight m' <= weight m)%nat
  /\ (ob_status m = Pending -> ob_attempts m < ob_attempts m' -> (weight m' < weight m)%nat).
Proof.
  intros Hb Ha. destruct Ha as [|m' P _ _ S A|m' P _ _ [S _] A|m' P _ _ S A]; [lia|..];
    specialize (Hb P); rewrite (weight_pending m P);
    [rewrite (weight_pending m' S)|rewrite (weight_settled m') by congruence..]; lia.
Qed.

Lemma advanced_countable m m' b : countable m -> advanced m m' b -> countable m'.
Proof.
  intros Hb Ha. destruct Ha as [|m' P _ _ S A|m' P _ _ [S _] A|m' P _ _ S A]; [done|..];
    intros HP; try congruence. specialize (Hb P). unfold budget, u32_max in *. lia.
Qed.

(** ** Stores *)

Lemma advance_refl s : advance s s [].
Proof.
  constructor; [constructor|done| |by intros id Hid%elem_of_nil].
  intros id m m' -> [= <-]. rewrite bool_decide_eq_false_2 by apply not_elem_of_nil. constructor.
Qed.

Lemma advance_trans s1 s2 s3 ids1 ids2 :
  advance s1 s2 ids1 -> advance s2 s3 ids2 -> advance s1 s3 (ids1 ++ ids2).
Proof.
  intros [N1 D1 R1 I1] [N2 D2 R2 I2]. constructor.
  - apply NoDup_app. split; [done|]. split; [|done]. intros id H1 H2.
    destruct (I1 _ H1) as [m1 E1], (I2 _ H2) as [m2 E2].
    destruct (proj2 (D2 id)) as [m3 E3]; [by exists m2|].
    pose proof (R1 _ _ _ E1 E2) as A1. pose proof (R2 _ _ _ E2 E3) as A2.
    rewrite bool_decide_eq_true_2 in A1, A2 by done. by apply (advanced_once _ _ _ _ A1) in A2.
  - intros id. by rewrite D2, D1.
  - intros id m m' E1 E3. destruct (proj2 (D1 id)) as [m2 E2]; [by exists m|].
    pose proof (advanced_trans _ _ _ _ _ (R1 _ _ _ E1 E2) (R2 _ _ _ E2 E3)) as A.
    replace (bool_decide (id ∈ ids1 ++ ids2)) with (bool_decide (id ∈ ids1) || bool_decide (id ∈ ids2));
      [done|]. rewrite <- bool_decide_or. apply bool_decide_ext. by rewrite elem_of_app.
  - intros id [Hid|Hid]%elem_of_app; [by apply I1|]. by apply D1, I2.
Qed.

(** One row goes on. *)
Lemma advance_insert s id m m' b :
  s !! id = Some m -> advanced m m' b -> advance s (<[id := m']> s) (if b then [id] else []).
Proof.
  intros E A. constructor.
  - destruct b; [apply NoDup_singleton|constructor].
  - intros id'. destruct (decide (id = id')) as [<-|Hne]; [|by rewrite lookup_insert_ne].
    rewrite lookup_insert_eq, E. split; by eexists.
  - intros id' x x' Hx [[<- <-]|[Hne Hx']]%lookup_insert_Some.
    + simplify_eq. destruct b; [by rewrite bool_decide_eq_true_2 by set_solver|].
      by rewrite bool_decide_eq_false_2 by set_solver.
    + simplify_eq. rewrite bool_decide_eq_false_2; [constructor|]. destruct b; set_solver.
  - intros id' Hid. destruct b; [|by apply elem_of_nil in Hid].
    apply list_elem_of_singleton in Hid as ->. by exists m.
Qed.

Lemma messages_of_advance s s' ids1 ids2 :
  advance s s' ids1 -> messages_of s' ids2 = messages_of s ids2.
Proof.
  intros [_ D R _]. unfold messages_of. apply list_omap_ext, Forall2_same_length_lookup.
  split; [done|]. intros i x y Hx Hy. simplify_eq.
  destruct (s !! x) as [m|] eqn:E, (s' !! x) as [m'|] eqn:E'; cbn.
  - by destruct (advanced_message _ _ _ (R _ _ _ E E')) as [_ ->].
  - destruct (proj2 (D x)); [by exists m|]. congruence.
  - destruct (proj1 (D x)); [by exists m'|]. congruence.
  - done.
Qed.

Lemma messages_of_app s ids1 ids2 :
  messages_of s (ids1 ++ ids2) = messages_of s ids1 ++ messages_of s ids2.
Proof. apply omap_app. Qed.

Lemma total_insert s id m m' :
  s !! id = Some m -> (total (<[id := m']> s) + weight m = total s + weight m')%nat.
Proof.
  intros E. unfold total. rewrite <- insert_delete_eq.
  rewrite (map_to_list_insert _ _ m' (lookup_delete_eq s id)).
  rewrite <- (insert_delete_id s id m E) at 2.
  rewrite (map_to_list_insert _ _ m (lookup_delete_eq s id)).
  cbn. lia.
Qed.

(** Rows of the same weights weigh the same. *)
Lemma total_ext s s' : (forall id, weight <$> s !! id = weight <$> s' !! id) -> total s = total s'.
Proof.
  intros Hw. assert (forall x : Rows, total x = sum_list_with (fun n => n) (map_to_list (weight <$> x)).*2) as Hx.
  { intros x. unfold total. rewrite map_to_list_fmap. induction (map_to_list x) as [|[id m] l IH]; [done|].
    cbn. by rewrite IH. }
  rewrite !Hx. replace (weight <$> s') with (weight <$> s); [done|].
  apply map_eq. intros id. by rewrite !lookup_fmap.
Qed.

Lemma total_positive s :
  (0 < total s)%nat -> exists id m, s !! id = Some m /\ ob_status m = Pending.
Proof.
  unfold total. intros Hp.
  assert (exists m, m ∈ (map_to_list s).*2 /\ (0 < weight m)%nat) as (m & Hm & Hw).
  { induction (map_to_list s).*2 as [|m l IH]; cbn in Hp; [lia|].
    destruct (decide (0 < weight m)%nat); [exists m; split; [left|done]|].
    destruct IH as (x & ? & ?); [lia|]. exists x. split; [by right|done]. }
  apply list_elem_of_fmap in Hm as ([id x] & -> & Hx%elem_of_map_to_list). exists id, x. split; [done|].
  destruct (decide (ob_status x = Pending)); [done|]. cbn in Hw. rewrite weight_settled in Hw by done. lia.
Qed.

(** ** Stretches *)

Lemma went_refl w : sane w -> went w w [] 0.
Proof. intros Hs. constructor; [apply advance_refl|by rewrite app_nil_r|done|lia]. Qed.

Lemma went_trans w1 w2 w3 ids1 ids2 d1 d2 :
  went w1 w2 ids1 d1 -> went w2 w3 ids2 d2 -> went w1 w3 (ids1 ++ ids2) (d1 + d2).
Proof.
  intros [R1 T1 S1 D1] [R2 T2 S2 D2]. constructor; [by eapply advance_trans| |done|lia].
  by rewrite T2, T1, messages_of_app, (messages_of_advance _ _ _ _ R1), <- app_assoc.
Qed.

Lemma went_le w w' ids d d' : (d' <= d)%nat -> went w w' ids d -> went w w' ids d'.
Proof. intros Hd [R T S D]. constructor; [done..|lia]. Qed.

(** One row goes on, with an attempt. *)
Lemma went_row m m' b w w' :
  sane w -> rows w !! ob_id m = Some m -> ob_status m = Pending ->
  advanced m m' b -> ob_attempts m < ob_attempts m' ->
  lget w' = ob_put m' (ob_id m) (lget w) -> taken w' = taken w ++ (if b then [ob_message m] else []) ->
  went w w' (if b then [ob_id m] else []) 1
  /\ forall id, id <> ob_id m -> rows w' !! id = rows w !! id.
Proof.
  intros [Hk Hb] Hm HP Ha Hlt Hw Ht. pose proof (Hb _ _ Hm) as Hbm.
  assert (rows w' = <[ob_id m := m']> (rows w)) as Hr by (unfold rows; by rewrite Hw).
  split; [|intros id Hne; by rewrite Hr, lookup_insert_ne].
  constructor.
  - rewrite Hr. by apply (advance_insert _ _ _ _ _ Hm).
  - rewrite Ht. unfold messages_of. destruct b; cbn; [by rewrite Hm|done].
  - split.
    + rewrite Hw. destruct (advanced_message _ _ _ Ha) as [<- _]. by apply well_keyed_put.
    + rewrite Hr. apply map_Forall_insert_2; [|done]. by eapply advanced_countable.
  - pose proof (total_insert _ _ _ m' Hm). rewrite Hr.
    destruct (advanced_weight _ _ _ Hbm Ha) as [_ Hlt']. specialize (Hlt' HP Hlt). lia.
Qed.

(** ** One message *)

(** The retry policy never panics on a delay. *)
Context (Hdelay : forall a w, is_Some (BackoffStrategy_delay_for (backoff (retry config)) a w).1).

Lemma delay_for_quiet b a (w : W) :
  lget (BackoffStrategy_delay_for b a w).2 = lget w :> InMemoryOutbox
  /\ taken (BackoffStrategy_delay_for b a w).2 = taken w.
Proof.
  destruct b as [d|base mult mx [|]]; cbn; try done. unfold bind, jitter_factor, bind, ret.
  pose proof (fastrand_f64_frame (S := InMemoryOutbox) w) as F. pose proof (taken_random w) as T.
  by destruct (fastrand_f64 w).
Qed.

(** What the policy decides, and that deciding disturbs nothing. *)
Lemma decide_for_quiet a k (w : W) :
  let '(o, w') := RetryPolicy_decide_for (retry config) a k w in
  lget w' = lget w :> InMemoryOutbox /\ taken w' = taken w
  /\ match o with
     | Some DeadLetter_ => k = Poison \/ max_attempts (retry config) <= a
     | Some (RetryAfter _) => a < max_attempts (retry config)
     | None => True
     end.
Proof.
  destruct k; cbn; [|by split_and!; [..|left]]. unfold RetryPolicy_decide.
  destruct (Z.ltb_spec a (max_attempts (retry config))) as [Hlt|Hge]; [|by split_and!; [..|right]].
  destruct (delay_for_quiet (backoff (retry config)) a w) as [H1 H2].
  unfold pbind. by destruct (BackoffStrategy_delay_for _ a w) as [[d|] w'].
Qed.

Lemma decide_for_spec a k (w : W) :
  exists d w', RetryPolicy_decide_for (retry config) a k w = (Some d, w')
    /\ lget w' = lget w :> InMemoryOutbox /\ taken w' = taken w
    /\ match d with
       | DeadLetter_ => k = Poison \/ max_attempts (retry config) <= a
       | RetryAfter _ => a < max_attempts (retry config)
       end.
Proof.
  pose proof (decide_for_quiet a k w) as Hq.
  assert (is_Some (RetryPolicy_decide_for (retry config) a k w).1) as [d Hd].
  { destruct k; cbn; [|by eexists]. unfold RetryPolicy_decide, pbind.
    destruct (a <? max_attempts (retry config)); [|by eexists]. destruct (Hdelay a w) as [d Hd].
    destruct (BackoffStrategy_delay_for _ a w) as [o w']. cbn in Hd. subst o. by eexists. }
  destruct (RetryPolicy_decide_for _ a k w) as [o w']. cbn in Hd. subst o. by exists d, w'.
Qed.

(** Rescheduling moves the next attempt or, for a delay chrono cannot hold,
    does nothing. *)
Lemma schedule_retry_spec id delay m (w : W) :
  rows w !! id = Some m ->
  exists r w' m', InMemoryOutbox_schedule_retry id delay w = (r, w')
    /\ lget w' = ob_put m' id (lget w) /\ taken w' = taken w
    /\ ob_id m' = ob_id m /\ ob_message m' = ob_message m /\ ob_status m' = ob_status m
    /\ ob_attempts m' = ob_attempts m /\ ob_last_error m' = ob_last_error m.
Proof.
  intros Hm. unfold InMemoryOutbox_schedule_retry, ob_update, bind, tbind, mget, mput, ret.
  unfold rows in Hm. rewrite Hm. destruct (from_std delay) as [d|]; cbn.
  - pose proof (taken_now w) as T1. destruct (utc_now w) as [t1 w1]. cbn in T1 |- *.
    pose proof (taken_now w1) as T2. destruct (utc_now w1) as [t2 w2]. cbn in T2 |- *.
    eexists _, _, _. split; [done|]. rewrite lget_lset. split; [done|].
    rewrite taken_outbox. split; [congruence|]. done.
  - eexists _, _, m. split; [done|]. split; [|done]. unfold ob_put.
    rewrite insert_id by done. by destruct (lget w).
Qed.

Lemma entry_method_taken op id (w : W) :
  taken (entry_method op id w).2 = taken w.
Proof.
  rewrite entry_method_spec. destruct (ob_store (lget w) !! id); cbn; [|done].
  by rewrite taken_outbox, taken_now.
Qed.

(** A call on a stored row changes that row and nothing of the ledger. *)
Lemma entry_method_row e id m (w : W) :
  rows w !! id = Some m ->
  exists t w', entry_method e id w = (Ok tt, w')
    /\ lget w' = ob_put (entry_effect e t m) id (lget w) /\ taken w' = taken w.
Proof.
  intros Hm. unfold rows in Hm. pose proof (entry_method_spec e id w) as E.
  pose proof (entry_method_taken e id w) as T. rewrite Hm in E.
  exists (utc_now w).1. eexists. split; [exact E|]. split; [apply lget_lset|by rewrite <- T, E].
Qed.

Lemma ob_put_put m1 m2 id s : ob_put m2 id (ob_put m1 id s) = ob_put m2 id s.
Proof. unfold ob_put. cbn. by rewrite insert_insert_eq. Qed.

(** A refused message is put off or given up; either way the attempt of [m1]
    stays counted. *)
Lemma refused_row m1 id error (w : W) :
  rows w !! id = Some m1 ->
  exists d r w' m',
    RetryPolicy_decide_for (retry config) (ob_attempts m1) (MessagingError_failure_kind error) w = (Some d, w'.1)
    /\ match d with
       | DeadLetter_ => InMemoryOutbox_mark_failed id (MessagingError_to_string error)
       | RetryAfter delay => InMemoryOutbox_schedule_retry id delay
       end w'.1 = (r, w'.2)
    /\ lget w'.2 = ob_put m' id (lget w) /\ taken w'.2 = taken w
    /\ ob_id m' = ob_id m1 /\ ob_message m' = ob_message m1 /\ ob_attempts m' = ob_attempts m1
    /\ (ob_status m' = ob_status m1 /\ ob_attempts m1 < max_attempts (retry config)
        \/ ob_status m' = Failed /\ ob_last_error m' = Some (MessagingError_to_string error)
           /\ (MessagingError_failure_kind error = Poison \/ max_attempts (retry config) <= ob_attempts m1)).
Proof.
  intros Hm. destruct (decide_for_spec (ob_attempts m1) (MessagingError_failure_kind error) w)
    as (d & w1 & E1 & G1 & T1 & Hd).
  assert (rows w1 !! id = Some m1) as Hm1 by (unfold rows; by rewrite G1).
  destruct d as [delay|].
  - destruct (schedule_retry_spec id delay m1 w1 Hm1) as (r & w2 & m' & E2 & G2 & T2 & I2 & M2 & S2 & A2 & _).
    exists (RetryAfter delay), r, (w1, w2), m'. cbn [fst snd]. split_and!; try done; [by rewrite G2, G1|by rewrite T2|by left].
  - destruct (entry_method_row (EMarkFailed (MessagingError_to_string error)) id m1 w1 Hm1)
      as (t & w2 & E2 & G2 & T2).
    exists DeadLetter_, (Ok tt), (w1, w2). eexists. cbn [fst snd].
    split_and!; [done|exact E2|by rewrite G2, G1|by rewrite T2|done..|by right].
Qed.

Lemma dispatch_one_went m (w : W) :
  sane w -> rows w !! ob_id m = Some m -> ob_status m = Pending ->
  exists p es b w', dispatch_one config m w = (Some (p, es, b), w')
    /\ went w w' (if b then [ob_id m] else []) 1
    /\ forall id, id <> ob_id m -> rows w' !! id = rows w !! id.
Proof.
  intros Hs Hm HP. pose proof (proj2 Hs _ _ Hm HP) as Hb. unfold budget in Hb.
  assert (u32_add (ob_attempts m) 1 = ob_attempts m + 1) as Hadd
    by (unfold u32_add; rewrite Z.mod_small; unfold u32_max in *; lia).
  unfold dispatch_one, bind. cbn [outbox_record_attempt outbox_mark_published outbox_mark_failed
    outbox_schedule_retry InMemoryOutbox_repository].
  destruct (entry_method_row ERecordAttempt _ m w Hm) as (t1 & w1 & E1 & G1 & T1).
  cbn [entry_method] in E1. rewrite E1. cbv beta iota. set (m1 := entry_effect _ t1 m) in *.
  assert (ob_attempts m1 = u32_add (ob_attempts m) 1) as Am1 by done.
  pose proof (publish_outbox (ob_message m) w1) as G2. pose proof (publish_taken (ob_message m) w1) as T2.
  destruct (publish (ob_message m) w1) as [[[]|error] w2]; cbn in G2, T2;
    assert (rows w2 !! ob_id m = Some m1) as Hm2 by (unfold rows; rewrite G2, G1; apply lookup_insert_eq).
  - destruct (entry_method_row EMarkPublished _ m1 w2 Hm2) as (t3 & w3 & E3 & G3 & T3).
    cbn [entry_method] in E3. rewrite E3. eexists _, _, true, w3. split; [done|].
    apply (went_row m (entry_effect EMarkPublished t3 m1) true); try done;
      [apply adv_published; try done|..|by rewrite G3, G2, G1, ob_put_put|by rewrite T3, T2, T1];
      cbn -[u32_add]; unfold budget; lia.
  - rewrite app_nil_r in T2.
    destruct (refused_row m1 (ob_id m) error w2 Hm2)
      as (d & r & [w3 w4] & m' & E3 & E4 & G4 & T4 & I4 & M4 & A4 & Hd). cbn [fst snd] in *.
    unfold pbind. rewrite <- Am1, E3. cbv beta iota. destruct d as [delay|]; rewrite E4; unfold ret;
    (eexists _, _, false, w4; split; [done|];
     apply (went_row m m' false); try done; [|lia|by rewrite G4, G2, G1, ob_put_put|by rewrite app_nil_r, T4, T2, T1];
     destruct Hd as [[S4 Hlt]|(S4 & L4 & Hwhy)];
     [apply adv_pending; try done; [by rewrite S4|unfold budget; lia]
     |apply adv_given_up; try done; [|unfold budget; lia];
      split; [done|]; exists error; split; [done|];
      destruct Hwhy; [by left|right; unfold budget; lia]]).
Qed.

(** ** A run *)

(** [ms] are the stored rows of their ids, and pending. *)
Definition in_hand (w : W) (ms : list OutboxMessage) : Prop :=
  NoDup (ob_id <$> ms) /\ Forall (fun m => rows w !! ob_id m = Some m /\ ob_status m = Pending) ms.

Lemma in_hand_other w w' ms (ids : list Uuid) :
  (forall id, id ∉ ids -> rows w' !! id = rows w !! id) ->
  (forall m, m ∈ ms -> ob_id m ∉ ids) -> in_hand w ms -> in_hand w' ms.
Proof.
  intros Hrest Hdisj [Hnd Hall]. split; [done|]. rewrite Forall_forall in *. intros m Hm.
  rewrite Hrest by by apply Hdisj. by apply Hall.
Qed.

Lemma dispatch_lane_went ms pub errs (w : W) :
  sane w -> in_hand w ms ->
  exists res ids w', dispatch_lane config ms pub errs w = (Some res, w')
    /\ went w w' ids (Nat.min 1 (length ms))
    /\ forall id, id ∉ ob_id <$> ms -> rows w' !! id = rows w !! id.
Proof.
  revert pub errs w. induction ms as [|m ms IH]; intros pub errs w Hs [Hnd Hall].
  { eexists _, [], w. split; [done|]. split; [by apply went_refl|done]. }
  apply NoDup_cons in Hnd as [Hni Hnd]. apply Forall_cons in Hall as [[Hm HP] Hall].
  destruct (dispatch_one_went m w Hs Hm HP) as (p & es & b & w1 & E1 & Hw1 & Hr1).
  cbn [dispatch_lane]. unfold pbind. rewrite E1. cbv beta iota. destruct b.
  - destruct (IH (pub + p)%nat (errs ++ es) w1 (went_sane _ _ _ _ Hw1)) as (res & ids & w2 & E2 & Hw2 & Hr2).
    { eapply (in_hand_other w w1 ms [ob_id m]); [set_solver| |by split]. intros x Hx.
      rewrite list_elem_of_singleton. intros Heq. apply Hni. rewrite <- Heq. by apply list_elem_of_fmap_2. }
    exists res, ([ob_id m] ++ ids), w2. split; [exact E2|]. split.
    + eapply went_le; [|by eapply went_trans]. cbn. lia.
    + intros id Hid. cbn in Hid. apply not_elem_of_cons in Hid as [Hne Hid]. by rewrite Hr2, Hr1.
  - eexists _, [], w1. split; [done|]. split; [exact Hw1|].
    intros id Hid. cbn in Hid. apply not_elem_of_cons in Hid as [Hne Hid]. by rewrite Hr1.
Qed.

Lemma dispatch_lanes_went lanes (w : W) :
  sane w -> in_hand w (concat lanes) ->
  exists outcomes ids w', dispatch_lanes config lanes w = (Some outcomes, w')
    /\ went w w' ids (Nat.min 1 (length (concat lanes))).
Proof.
  revert w. induction lanes as [|lane lanes IH]; intros w Hs [Hnd Hall].
  { eexists _, [], w. split; [done|]. by apply went_refl. }
  cbn [concat] in *. rewrite fmap_app in Hnd. apply NoDup_app in Hnd as (Hnd1 & Hdisj & Hnd2).
  apply Forall_app in Hall as [Hall1 Hall2].
  destruct (dispatch_lane_went lane 0 [] w Hs ltac:(by split)) as (res & ids1 & w1 & E1 & Hw1 & Hr1).
  destruct (IH w1 (went_sane _ _ _ _ Hw1)) as (outs & ids2 & w2 & E2 & Hw2).
  { eapply (in_hand_other w w1 _ _ Hr1); [|by split]. intros m Hm Hin.
    eapply Hdisj; [exact Hin|]. by apply list_elem_of_fmap_2. }
  cbn [dispatch_lanes]. unfold pbind, ret. rewrite E1, E2. eexists _, (ids1 ++ ids2), w2.
  split; [done|]. eapply went_le; [|by eapply went_trans]. rewrite length_app. lia.
Qed.

(** Every row that is still pending is due. *)
Definition rested (w : W) : Prop :=
  forall id m, rows w !! id = Some m -> ob_status m = Pending -> ob_next_attempt_at m <= (utc_now w).1.

Lemma due_pending now m : due now m = true -> ob_status m = Pending.
Proof. unfold due. rewrite andb_true_iff, bool_decide_eq_true. by intros []. Qed.

(** Claiming uses no attempt and takes nothing. *)
Lemma claim_went now claimed s' (w w' : W) :
  sane w -> claims_oldest now limit (lget w) claimed s' -> lget w' = s' -> taken w' = taken w ->
  went w w' [] 0 /\ in_hand w' claimed.
Proof.
  intros [Hk Hb] Hc Hw Ht. pose proof (claims_store _ _ _ _ _ Hc) as Hst.
  assert (forall id m', rows w' !! id = Some m' ->
    exists m, rows w !! id = Some m /\ (m' = m \/ m' = leased now (lget w) m /\ ob_status m = Pending)) as Hrow.
  { intros id m'. unfold rows. rewrite Hw, Hst. case_decide as Hin; [|intros Hm; exists m'; auto].
    intros (m & Hm & ->)%fmap_Some_1. exists m. split; [done|right; split; [done|]].
    apply list_elem_of_fmap in Hin as (x & -> & Hx).
    destruct (claims_due _ _ _ _ _ Hc x Hx) as (m0 & Hm0 & Hd & _). simplify_eq.
    by eapply due_pending. }
  split; [constructor|split].
  - constructor; [constructor| |intros id m m' Hm Hm'|by intros id Hid%elem_of_nil].
    + intros id. unfold rows. rewrite Hw, Hst. case_decide; [|done]. by rewrite fmap_is_Some.
    + rewrite bool_decide_eq_false_2 by apply not_elem_of_nil.
      destruct (Hrow _ _ Hm') as (x & Hx & [->|[-> HP]]); simplify_eq; [constructor|].
      apply adv_pending; try done. cbn. pose proof (Hb _ _ Hm HP). lia.
  - by rewrite app_nil_r.
  - split; [rewrite Hw; by eapply well_keyed_claims|]. intros id m' Hm'.
    destruct (Hrow _ _ Hm') as (x & Hx & [->|[-> HP]]); [by eapply Hb|]. exact (Hb _ _ Hx).
  - rewrite (total_ext (rows w') (rows w)); [lia|]. intros id. unfold rows. rewrite Hw, Hst.
    case_decide; [|done]. by destruct (ob_store (lget w) !! id).
  - apply (claims_nodup _ _ _ _ _ Hc).
  - apply Forall_forall. intros m Hm. unfold rows. rewrite Hw, Hst.
    rewrite decide_True by by apply list_elem_of_fmap_2.
    destruct (claims_due _ _ _ _ _ Hc m Hm) as (m0 & -> & Hd & ->). split; [done|]. by apply due_pending in Hd.
Qed.

(** A run that finds everything due uses up an attempt if any is left. *)
Lemma run_went (w : W) :
  (0 < limit)%nat -> sane w -> rested w ->
  exists res ids w', dispatch_pending config limit w = (Some res, w')
    /\ went w w' ids (Nat.min 1 (total (rows w))).
Proof.
  intros Hl Hs Hr. unfold dispatch_pending, bind. cbn [outbox_pending InMemoryOutbox_repository].
  rewrite pending_method_spec. pose proof (taken_now w) as T0. unfold rested in Hr.
  destruct (utc_now w) as [now w0]. cbn in T0, Hr.
  pose proof (claim_all_oldest now limit (lget w) (proj1 Hs)) as Hc.
  destruct (claim_all _ _ _) as [claimed s1]. destruct Hc as [_ Hc].
  destruct (claim_went now claimed s1 w (lset s1 w0) Hs Hc) as [Hw1 Hh];
    [apply lget_lset|by rewrite taken_outbox|].
  destruct (partition_lanes_ok claimed) as [by_key [Hp _ _ _ _]].
  destruct (dispatch_lanes_went (partition_lanes claimed) (lset s1 w0) (went_sane _ _ _ _ Hw1))
    as (outs & ids & w' & E & Hw2).
  { destruct Hh as [Hnd Hall]. split; by rewrite Hp. }
  unfold pbind, ret. rewrite E. eexists _, ([] ++ ids), w'. split; [done|].
  eapply went_le; [|by eapply went_trans]. rewrite (Permutation_length Hp).
  destruct (decide (total (rows w) = 0%nat)) as [->|Hpos]; [lia|].
  destruct (total_positive (rows w)) as (id & m & Hm & HP); [lia|].
  destruct (claims_complete _ _ _ _ _ Hc id m Hm) as [Hin|[Hlen _]].
  - unfold due. rewrite bool_decide_eq_true_2 by done. cbn. apply Z.leb_le. by eapply Hr.
  - destruct claimed; [by apply elem_of_nil in Hin|]. cbn [length]. lia.
  - rewrite Hlen. lia.
Qed.

(** ** The relay *)

(** Waiting leaves rows and ledger alone, until everything pending is due. *)
Definition patient : Prop :=
  forall w, lget (wait w).2 = lget w :> InMemoryOutbox /\ taken (wait w).2 = taken w /\ rested (wait w).2.

Lemma relay_went n (w : W) :
  (0 < limit)%nat -> patient -> sane w ->
  exists rs ids w', relay n w = (Some rs, w') /\ went w w' ids (Nat.min n (total (rows w))).
Proof.
  intros Hl Hwait. revert w. induction n as [|n IH]; intros w Hs.
  { eexists _, [], w. split; [done|]. by apply went_refl. }
  destruct (Hwait w) as (G0 & T0 & Hr). cbn [relay]. unfold bind. destruct (wait w) as [[] w0]. cbn [fst snd] in *.
  assert (sane w0) as Hs0 by (unfold sane, rows in *; by rewrite G0).
  destruct (run_went w0 Hl Hs0 Hr) as (res & ids1 & w1 & E1 & Hw1).
  destruct (IH w1 (went_sane _ _ _ _ Hw1)) as (rs & ids2 & w2 & E2 & Hw2).
  unfold pbind, ret. rewrite E1, E2. eexists _, (ids1 ++ ids2), w2. split; [done|].
  pose proof (went_trans _ _ _ _ _ _ _ Hw1 Hw2) as [R T S D].
  pose proof (went_total _ _ _ _ Hw1). pose proof (went_total _ _ _ _ Hw2).
  assert (rows w0 = rows w) as HE by (unfold rows; by rewrite G0). rewrite HE in *. rewrite T0 in T.
  constructor; [exact R|exact T|exact S|lia].
Qed.

(** A relay that is as long as there are attempts leaves no row pending. *)
Lemma relay_settled n w w' ids :
  (total (rows w) <= n)%nat -> went w w' ids (Nat.min n (total (rows w))) ->
  forall id m', rows w' !! id = Some m' -> ob_status m' <> Pending.
Proof.
  intros Hn [_ _ [_ Hb] D] id m' Hm' HP. pose proof (Hb _ _ Hm' HP) as Hbm.
  assert (m' ∈ (map_to_list (rows w')).*2) as Hin
    by (apply list_elem_of_fmap; exists (id, m'); split; [done|by apply elem_of_map_to_list]).
  pose proof (sum_list_with_in m' weight _ Hin) as Hw. rewrite (weight_pending m' HP) in Hw.
  fold (total (rows w')) in Hw. lia.
Qed.

(** ** The sweep *)

Context `{!Lens W InMemoryDeadLetterQueue, !LensLaws W InMemoryDeadLetterQueue,
  !EnvFrame W InMemoryDeadLetterQueue, !LensDisjoint W InMemoryOutbox InMemoryDeadLetterQueue,
  !LensDisjoint W InMemoryDeadLetterQueue InMemoryOutbox}.

Lemma select_length P `{!forall m, Decision (P m)} s : (length (select P s) <= size (ob_store s))%nat.
Proof.
  unfold select. etransitivity; [apply length_filter|]. rewrite length_fmap.
  by rewrite (Permutation_length (map_iter_perm _)), length_map_to_list.
Qed.

(** A sweep that may take every row parks exactly the failed ones. *)
Lemma sweep_all swept (w : W) :
  well_keyed (lget w) -> (size (rows w) <= swept)%nat ->
  exists w' ds ms,
    sweep_failed_to_dead_letter swept w = (Ok (length ms), w')
    /\ (forall m, m ∈ ms <-> rows w !! ob_id m = Some m /\ ob_status m = Failed)
    /\ NoDup (ob_id <$> ms) /\ Forall2 parks ms ds
    /\ dlq_messages (lget w') = dlq_messages (lget w) ++ ds
    /\ (forall id, id ∉ ob_id <$> ms -> rows w' !! id = rows w !! id)
    /\ Forall (fun m => exists m', rows w' !! ob_id m = Some m' /\ dead_lettered m m') ms.
Proof.
  intros Hk Hsz.
  destruct (sweep_parks_failed swept w Hk) as (w' & ds & ms & E & (rest & Hp & Hlen & _) & Hds & Hq & Hr & Hd).
  assert (rest = []) as ->.
  { pose proof (select_length (fun m => ob_status m = Failed) (lget w)) as Hs.
    rewrite <- (Permutation_length Hp) in Hs. unfold rows in Hsz.
    rewrite length_app in *. destruct rest; [done|]. cbn in *. lia. }
  rewrite app_nil_r in Hp. exists w', ds, ms. split_and!; try done.
  - intros m. rewrite Hp. by apply elem_of_select.
  - rewrite Hp. by apply NoDup_select_ids.
Qed.

(** What becomes of a row: the relay from [w] to [w1] took the messages of
    [ids], the sweep from [w1] to [w2] parked [ms]. *)
Lemma settle_row w w1 w2 ids ms d id m :
  went w w1 ids d -> (forall id m', rows w1 !! id = Some m' -> ob_status m' <> Pending) ->
  (forall m, m ∈ ms <-> rows w1 !! ob_id m = Some m /\ ob_status m = Failed) ->
  (forall id, id ∉ ob_id <$> ms -> rows w2 !! id = rows w1 !! id) ->
  Forall (fun m => exists m', rows w2 !! ob_id m = Some m' /\ dead_lettered m m') ms ->
  rows w !! id = Some m ->
  exists m', rows w2 !! id = Some m' /\ ob_message m' = ob_message m
  /\ match ob_status m with
     | Pending =>
         ob_attempts m < ob_attempts m' <= Z.max budget (ob_attempts m + 1) /\
         if decide (id ∈ ids) then ob_status m' = Published
         else ob_status m' = DeadLettered
              /\ exists m1, m1 ∈ ms /\ ob_id m1 = id /\ ob_message m1 = ob_message m
                   /\ given_up m1 /\ ob_attempts m1 = ob_attempts m'
     | Failed => ob_status m' = DeadLettered /\ m ∈ ms /\ ob_attempts m' = ob_attempts m
     | Published | DeadLettered => m' = m
     end.
Proof.
  intros [[_ Hdom Hrow _] _ [Hk1 _] _] Hnone Hms Hr Hd Hm.
  destruct (proj2 (Hdom id)) as [m1 Hm1]; [by exists m|].
  pose proof (Hrow _ _ _ Hm Hm1) as Ha. pose proof (Hnone _ _ Hm1) as HP1.
  pose proof (Hk1 _ _ Hm1) as Hid1. cbn in Hid1.
  assert (ob_status m1 <> Failed -> rows w2 !! id = Some m1) as Hkeep.
  { intros HF. rewrite Hr; [done|]. intros (x & Hx & Hxms)%list_elem_of_fmap.
    apply Hms in Hxms as [Hx1 HF']. rewrite <- Hx, Hm1 in Hx1. congruence. }
  assert (ob_status m1 = Failed -> m1 ∈ ms /\ exists m', rows w2 !! id = Some m' /\ dead_lettered m1 m') as Hpark.
  { intros HF. assert (m1 ∈ ms) as Hin by (apply Hms; by rewrite Hid1). split; [done|].
    rewrite Forall_forall in Hd. destruct (Hd _ Hin) as (m' & Hm' & ?). rewrite Hid1 in Hm'. by exists m'. }
  case_decide as Hin; [rewrite bool_decide_eq_true_2 in Ha by done|rewrite bool_decide_eq_false_2 in Ha by done];
    inversion Ha as [|x P I M S A|x P I M G A|x P I M S A]; subst; try congruence.
  - exists m1. rewrite P. split; [apply Hkeep; congruence|done].
  - destruct (ob_status m1) eqn:Sm; [done|exists m1; by rewrite Hkeep| |exists m1; by rewrite Hkeep].
    destruct (Hpark eq_refl) as (Hin' & m' & Hm' & t & ->). by eexists.
  - destruct (Hpark (proj1 G)) as (Hin' & m' & Hm' & t & ->). eexists. split; [exact Hm'|].
    cbn. split; [done|]. rewrite P. split; [done|]. split; [done|]. exists m1. by split_and!.
Qed.

(** Nobody adds or removes a row. *)
Lemma went_size w w' ids d : went w w' ids d -> size (rows w') = size (rows w).
Proof.
  intros [[_ Hdom _ _] _ _ _]. rewrite <- !size_dom. f_equal. apply set_eq. intros id.
  rewrite !elem_of_dom. apply Hdom.
Qed.

(** C3: nothing is lost and nothing is stuck.  Whatever the broker answers, as
    many runs of the dispatcher as the pending rows have attempts left, each
    after the backoffs and leases have passed, end without a panic and with
    no row pending; a dead-letter sweep then parks what failed.  A row that
    was pending is afterwards either published, and the broker took its
    message exactly once, or dead-lettered, because the broker called it
    poisoned or its attempts ran out, with one dead letter that carries its
    message, the last error and the attempts; it got at most the attempts of
    its budget, or one if they were used up.  The broker took nothing else and
    the sweep parks nothing but the failed rows; rows settled before are as
    they were. *)
Theorem outbox_settles (w : W) (n swept : nat) :
  (0 < limit)%nat -> patient -> sane w ->
  (total (rows w) <= n)%nat -> (size (rows w) <= swept)%nat ->
  exists rs w1 ids w2 ds ms,
    relay n w = (Some rs, w1)
    /\ sweep_failed_to_dead_letter swept w1 = (Ok (length ms), w2)
    /\ NoDup ids /\ taken w1 = taken w ++ messages_of (rows w) ids
    /\ NoDup (ob_id <$> ms) /\ Forall2 parks ms ds
    /\ dlq_messages (lget w2) = dlq_messages (lget w1) ++ ds
    /\ (forall m, m ∈ ms <-> rows w1 !! ob_id m = Some m /\ ob_status m = Failed)
    /\ forall id m, rows w !! id = Some m ->
         exists m', rows w2 !! id = Some m' /\ ob_message m' = ob_message m
         /\ match ob_status m with
            | Pending =>
                ob_attempts m < ob_attempts m' <= Z.max budget (ob_attempts m + 1) /\
                if decide (id ∈ ids) then ob_status m' = Published
                else ob_status m' = DeadLettered
                     /\ exists m1, m1 ∈ ms /\ ob_id m1 = id /\ ob_message m1 = ob_message m
                          /\ given_up m1 /\ ob_attempts m1 = ob_attempts m'
            | Failed => ob_status m' = DeadLettered /\ m ∈ ms /\ ob_attempts m' = ob_attempts m
            | Published | DeadLettered => m' = m
            end.
Proof.
  intros Hl Hwait Hs Hn Hsz.
  destruct (relay_went n w Hl Hwait Hs) as (rs & ids & w1 & E1 & Hw).
  pose proof (relay_settled n w w1 ids Hn Hw) as Hnone.
  destruct (sweep_all swept w1 (proj1 (went_sane _ _ _ _ Hw)))
    as (w2 & ds & ms & E2 & Hms & Hnd2 & Hp & Hq & Hr & Hd); [by rewrite (went_size _ _ _ _ Hw)|].
  exists rs, w1, ids, w2, ds, ms. do 2 (split; [done|]).
  split; [apply (went_rows _ _ _ _ Hw)|]. split; [apply (went_taken _ _ _ _ Hw)|].
  do 4 (split; [done|]). intros id m Hm. by eapply settle_row.
Qed.
End Relay.

(** ** A broker that refuses at first *)

#[export] Instance FlakyBroker_ledger {W} `{!Env W, !Lens W InMemoryOutbox, !Lens W FlakyBroker,
  !LensLaws W FlakyBroker, !EnvFrame W FlakyBroker, !LensDisjoint W FlakyBroker InMemoryOutbox,
  !LensDisjoint W InMemoryOutbox FlakyBroker} : PublisherLedger W.
Proof.
  refine {| taken w := accepted (lget w) |}; intros; cbn; unfold zoom, FlakyBroker_publish.
  - destruct (refusals (lget w)); cbn; by rewrite lget_lset_other.
  - destruct (refusals (lget w)); cbn; rewrite lget_lset; cbn; by rewrite ?app_nil_r.
  - by rewrite utc_now_frame.
  - by rewrite fastrand_f64_frame.
  - by rewrite lget_lset_other.
Defined.

Abbreviation Shop := (World (InMemoryOutbox * (FlakyBroker * InMemoryDeadLetterQueue))) (only parsing).

(** The latest time a row waits for. *)
Definition last_due (s : gmap Uuid OutboxMessage) : Instant :=
  foldr (fun m t => Z.max t (ob_next_attempt_at m)) 0 (map_to_list s).*2.

(** Sleeping until then: the clock reads no less from now on. *)
Definition sleep_until_due : M Shop unit := fun w =>
  let t := last_due (ob_store (lget w)) in
  let e := w_env w in
  (tt, mkWorld (mkEnvState (ticks e) (fun _ => t) (drawn e) (uuid_at e) (rolled e) (random_at e))
         (w_stores w)).

Lemma last_due_le s id m : s !! id = Some m -> ob_next_attempt_at m <= last_due s.
Proof.
  intros Hm. assert (m ∈ (map_to_list s).*2) as Hin
    by (apply list_elem_of_fmap; exists (id, m); split; [done|by apply elem_of_map_to_list]).
  unfold last_due. induction (map_to_list s).*2 as [|x l IH]; [by apply elem_of_nil in Hin|].
  apply elem_of_cons in Hin as [->|Hin]; cbn; [lia|]. specialize (IH Hin). lia.
Qed.

Lemma sleep_until_due_patient : patient sleep_until_due.
Proof.
  intros w. split; [done|]. split; [done|]. intros id m Hm _. by apply (last_due_le _ id).
Qed.

(** Two messages of one key and two attempts each; the broker refuses twice. *)
Definition two_attempts : DispatchConfig := DispatchConfig_new 10 (RetryPolicy_new 2 NANOS_PER_SEC).

Definition shop : Shop :=
  mkWorld env_start
    (mkInMemoryOutbox {[1 := sample_message 1 "a" (-3); 2 := sample_message 2 "a" (-2)]}
       DEFAULT_CLAIM_LEASE,
     (mkFlakyBroker 2 [], mkInMemoryDeadLetterQueue [])).

Lemma outbox_settles_witness :
  exists rs w1 ids w2 (ms : list OutboxMessage),
    relay two_attempts 10 sleep_until_due 4 shop = (Some rs, w1)
    /\ sweep_failed_to_dead_letter 2 w1 = (Ok (length ms), w2)
    /\ taken w1 = messages_of (ob_store (lget shop)) ids
    /\ exists m1, ob_store (lget w2) !! 1 = Some m1 /\ 0 < ob_attempts m1 <= 2
       /\ (ob_status m1 = Published \/ ob_status m1 = DeadLettered).
Proof.
  destruct (outbox_settles two_attempts 10 sleep_until_due
    ltac:(vm_compute; discriminate) ltac:(intros; eexists; reflexivity) shop 4 2)
    as (rs & w1 & ids & w2 & ds & ms & E1 & E2 & _ & Ht & _ & _ & _ & _ & Hrows).
  - lia.
  - exact sleep_until_due_patient.
  - split; (apply map_Forall_insert_2; [|apply map_Forall_singleton]); cbn; try reflexivity;
      intros _; cbn; unfold u32_max; lia.
  - vm_compute. lia.
  - vm_compute. lia.
  - exists rs, w1, ids, w2, ms. split; [exact E1|]. split; [exact E2|]. split; [exact Ht|].
    destruct (Hrows 1 (sample_message 1 "a" (-3)) eq_refl) as (m1 & Hm1 & _ & Ha & Hs).
    exists m1. split; [exact Hm1|]. split; [exact Ha|].
    destruct (decide (1 ∈ ids)); [left; exact Hs|right; exact (proj1 Hs)].
Defined.

(** The first message is refused until it is given up and parked; the second
    then goes out. *)
Example shop_settles :
  let '(rs, w1) := relay two_attempts 10 sleep_until_due 4 shop in
  let '(r, w2) := sweep_failed_to_dead_letter 2 w1 in
  is_ok r = true /\ message_id <$> accepted (lget w2) = [2]
  /\ (fun d => (message_id (dl_message d), dl_attempts d)) <$> dlq_messages (lget w2) = [(1, 2)].
Proof. vm_compute. done. Qed.
