(* ===== verification/CrashSafety.v ===== *)
(** * Dispatchers that crash

    Any number of dispatchers over one in-memory outbox, each a run of
    [dispatch_pending] (pharos-messaging/src/outbox_dispatcher.rs) that claims a
    batch and drives its lanes call by call, in any interleaving, with leases
    that may expire under a slow dispatcher, and with crashes: lanes that
    disappear between two calls.  The calls are those of the lane machine of
    OutboxDispatcher ([exec_phase], [lane_resume]); the broker is any publisher
    with a ledger (Settlement).

    What a crash leaves behind is never a lost message: the row is pending,
    and claimed again once its lease is over. *)

From S2P Require Import Prelude Core Messaging Outbox OutboxDispatcher Settlement.
Local Open Scope Z_scope.

Section Crashes.
Context {W : Type} `{!Env W, !Lens W InMemoryOutbox, !LensLaws W InMemoryOutbox,
  !EnvFrame W InMemoryOutbox, !Chrono, !MapIter Uuid OutboxMessage,
  !MessagePublisher W, !PublisherLedger W}.
Context (config : DispatchConfig).
Context (Hmax : max_attempts (retry config) <= u32_max).

Abbreviation Rows := (gmap Uuid OutboxMessage) (only parsing).
Abbreviation Site := (W * list Lane)%type (only parsing).

Let rows (w : W) : Rows := ob_store (lget w).

(** The world and the lanes of all dispatchers that are alive. *)
Inductive site_step : Site -> Site -> Prop :=
| site_claim w lanes limit claimed w' :
    outbox_pending limit w = (Ok claimed, w') ->
    site_step (w, lanes) (w', lanes ++ (LWaiting <$> partition_lanes claimed))
| site_start w lanes i ms :
    lanes !! i = Some (LWaiting ms) -> site_step (w, lanes) (w, <[i := lane_start ms 0 []]> lanes)
| site_call w lanes i ls a w' :
    lanes !! i = Some (LRunning ls) ->
    exec_phase config (ls_current ls) (ls_phase ls) w = (a, w') ->
    site_step (w, lanes) (w', <[i := lane_resume ls a]> lanes)
| site_crash w lanes lanes' : lanes' `sublist_of` lanes -> site_step (w, lanes) (w, lanes')
| site_pause w lanes w' :
    lget w' = lget w :> InMemoryOutbox -> taken w' = taken w -> site_step (w, lanes) (w', lanes).

(** ** The invariant *)

(** What may have become of a row [m] after [k] steps, while the broker took
    the messages [new]. *)
Inductive survived (new : list Message) (k : nat) (m : OutboxMessage) : OutboxMessage -> Prop :=
| sv_same : survived new k m m
| sv_moved m' :
    ob_status m = Pending -> ob_id m' = ob_id m -> ob_message m' = ob_message m ->
    ob_attempts m <= ob_attempts m' <= ob_attempts m + Z.of_nat k ->
    match ob_status m' with
    | Pending => True
    | Published => ob_message m ∈ new
    | Failed => given_up config m'
    | DeadLettered => False
    end ->
    survived new k m m'.

(** A dispatcher holds [m]: a copy, perhaps an old one, of a row [r] that was
    pending at first ([m0]) and has counted [d] more attempts since. *)
Definition held (s0 s : Rows) (d : Z) (m : OutboxMessage) : Prop :=
  exists m0 r, s0 !! ob_id m = Some m0 /\ ob_status m0 = Pending /\ ob_message m = ob_message m0
    /\ s !! ob_id m = Some r /\ ob_attempts m0 <= ob_attempts m /\ ob_attempts m + d <= ob_attempts r.

(** What a lane knows when it is about to make a call. *)
Definition lane_knows (s0 s : Rows) (new : list Message) (m : OutboxMessage) (p : LanePhase) : Prop :=
  match p with
  | PRecord => held s0 s 0 m
  | PPublish | PSchedule _ _ => held s0 s 1 m
  | PMarkPublished => held s0 s 1 m /\ ob_message m ∈ new
  | PMarkFailed e =>
      held s0 s 1 m
      /\ (MessagingError_failure_kind e = Poison \/ max_attempts (retry config) <= ob_attempts m + 1)
  end.

Definition lane_safe (s0 s : Rows) (new : list Message) (l : Lane) : Prop :=
  match l with
  | LWaiting ms => Forall (held s0 s 0) ms
  | LRunning ls => lane_knows s0 s new (ls_current ls) (ls_phase ls) /\ Forall (held s0 s 0) (ls_rest ls)
  | LDone _ _ | LPanicked => True
  end.

Record site_safe (w0 : W) (k : nat) (st : Site) (new : list Message) : Prop := {
  ss_rows id : option_Forall2 (survived new k) (rows w0 !! id) (rows st.1 !! id);
  ss_keyed : well_keyed (lget st.1);
  ss_taken : taken st.1 = taken w0 ++ new;
  ss_new x : x ∈ new -> exists id m, rows w0 !! id = Some m /\ ob_status m = Pending /\ ob_message m = x;
  ss_lanes : Forall (lane_safe (rows w0) (rows st.1) new) st.2;
}.

(** ** Monotonicity *)

(** Rows stay, and count no attempt back. *)
Definition grown (s s' : Rows) : Prop :=
  forall id r, s !! id = Some r -> exists r', s' !! id = Some r' /\ ob_attempts r <= ob_attempts r'.

Lemma grown_refl s : grown s s.
Proof. intros id r Hr. exists r. split; [done|lia]. Qed.

Lemma grown_insert s id r r' :
  s !! id = Some r -> ob_attempts r <= ob_attempts r' -> grown s (<[id := r']> s).
Proof.
  intros Hr Hle id' x Hx. destruct (decide (id = id')) as [<-|Hne].
  - simplify_eq. exists r'. by rewrite lookup_insert_eq.
  - exists x. rewrite lookup_insert_ne by done. split; [done|lia].
Qed.

Lemma held_grown s0 s s' d m : grown s s' -> held s0 s d m -> held s0 s' d m.
Proof.
  intros Hg (m0 & r & H0 & P0 & M0 & Hr & A0 & A). destruct (Hg _ _ Hr) as (r' & Hr' & Hle).
  exists m0, r'. split_and!; try done. lia.
Qed.

Lemma held_le s0 s d d' m : d' <= d -> held s0 s d m -> held s0 s d' m.
Proof. intros Hle (m0 & r & H0 & P0 & M0 & Hr & A0 & A). exists m0, r. split_and!; try done. lia. Qed.

Lemma lane_safe_grown s0 s s' new new' l :
  grown s s' -> new ⊆ new' -> lane_safe s0 s new l -> lane_safe s0 s' new' l.
Proof.
  intros Hg Hn. destruct l as [ms|[m rest p pub errs]| |]; cbn; try done.
  - intros Hms. eapply Forall_impl; [exact Hms|]. intros m. by apply held_grown.
  - intros [Hp Hr]. split; [|eapply Forall_impl; [exact Hr|]; intros x; by apply held_grown].
    destruct p; cbn in *; try (by eapply held_grown).
    + destruct Hp as [Hh Hin]. split; [by eapply held_grown|by apply Hn].
    + destruct Hp as [Hh Hw]. split; [by eapply held_grown|done].
Qed.

Lemma survived_more new new' k k' m m' :
  new ⊆ new' -> (k <= k')%nat -> survived new k m m' -> survived new' k' m m'.
Proof.
  intros Hn Hk [|x P I M A S]; [constructor|]. apply sv_moved; try done; [lia|].
  destruct (ob_status x); try done. by apply Hn.
Qed.

Lemma lane_safe_start s0 s new ms pub errs :
  Forall (held s0 s 0) ms -> lane_safe s0 s new (lane_start ms pub errs).
Proof. by destruct 1. Qed.

(** ** Steps *)

(** A row that keeps its status and error may count an attempt. *)
Lemma survived_touch new k m r r' :
  ob_status m = Pending -> survived new k m r -> ob_id r' = ob_id r -> ob_message r' = ob_message r ->
  ob_status r' = ob_status r -> ob_last_error r' = ob_last_error r ->
  ob_attempts r <= ob_attempts r' <= ob_attempts r + 1 -> survived new (S k) m r'.
Proof.
  intros P Hs I M S L A. apply sv_moved; [done|..]; destruct Hs as [|x _ I' M' A' S']; try congruence; try lia.
  - by rewrite S, P.
  - rewrite S. destruct (ob_status x) eqn:E; try done.
    destruct S' as [_ (e & He & Hwhy)]. split; [congruence|]. exists e. split; [congruence|].
    destruct Hwhy; [by left|right; lia].
Qed.

(** The start of the row a dispatcher holds, and the row as it is now. *)
Lemma held_rows w0 k st new d m :
  site_safe w0 k st new -> held (rows w0) (rows st.1) d m ->
  exists m0 r, rows w0 !! ob_id m = Some m0 /\ ob_status m0 = Pending /\ ob_message m = ob_message m0
    /\ rows st.1 !! ob_id m = Some r /\ ob_id r = ob_id m /\ ob_message r = ob_message m0
    /\ survived new k m0 r /\ ob_attempts m0 <= ob_attempts m /\ ob_attempts m + d <= ob_attempts r
    /\ ob_attempts r <= ob_attempts m0 + Z.of_nat k.
Proof.
  intros Hs (m0 & r & H0 & P0 & M0 & Hr & A0 & A). pose proof (ss_rows _ _ _ _ Hs (ob_id m)) as Hv.
  rewrite H0, Hr in Hv. inversion Hv as [? ? Hv'|]; subst.
  pose proof (ss_keyed _ _ _ _ Hs _ _ Hr) as Hid. cbn in Hid.
  exists m0, r. split_and!; try done; destruct Hv'; (done || lia).
Qed.

(** One row changes, and the lane that changed it goes on. *)
Lemma site_safe_put w0 k w lanes new id m0 r r' w' i l' :
  site_safe w0 k (w, lanes) new -> rows w0 !! id = Some m0 -> rows w !! id = Some r ->
  lget w' = ob_put r' id (lget w) -> taken w' = taken w -> ob_id r' = id ->
  ob_attempts r <= ob_attempts r' -> survived new (S k) m0 r' ->
  (grown (rows w) (rows w') -> rows w' !! id = Some r' -> lane_safe (rows w0) (rows w') new l') ->
  site_safe w0 (S k) (w', <[i := l']> lanes) new.
Proof.
  intros [Hr Hk Ht Hn Hl] H0 Hid Hw Htk Hid' Hle Hv Hl'. cbn in *.
  assert (rows w' = <[id := r']> (rows w)) as E by (unfold rows; by rewrite Hw).
  assert (grown (rows w) (rows w')) as Hg by (rewrite E; by eapply grown_insert).
  constructor; cbn; [intros id'| |by rewrite Htk|done|].
  - rewrite E. destruct (decide (id = id')) as [<-|Hne].
    + rewrite H0, lookup_insert_eq. by constructor.
    + rewrite lookup_insert_ne by done. specialize (Hr id'). destruct Hr; constructor.
      eapply survived_more; [done| |done]. lia.
  - rewrite Hw, <- Hid'. by apply well_keyed_put.
  - apply Forall_insert; [|apply Hl'; [done|by rewrite E, lookup_insert_eq]].
    eapply Forall_impl; [exact Hl|]. intros l. by apply lane_safe_grown.
Qed.

(** The rows stay as they are; the broker may have taken [more]. *)
Lemma site_safe_same w0 k w lanes new w' lanes' more :
  site_safe w0 k (w, lanes) new -> lget w' = lget w :> InMemoryOutbox -> taken w' = taken w ++ more ->
  (forall x, x ∈ more -> exists id m, rows w0 !! id = Some m /\ ob_status m = Pending /\ ob_message m = x) ->
  (Forall (lane_safe (rows w0) (rows w) (new ++ more)) lanes ->
   Forall (lane_safe (rows w0) (rows w) (new ++ more)) lanes') ->
  site_safe w0 (S k) (w', lanes') (new ++ more).
Proof.
  intros [Hr Hk Ht Hn Hl] Hw Htk Hm Hl'. cbn in *.
  assert (new ⊆ new ++ more) as Hsub by (intros x; rewrite elem_of_app; auto).
  assert (rows w' = rows w) as E by (unfold rows; by rewrite Hw).
  constructor; cbn; rewrite ?E; [intros id|by rewrite Hw|by rewrite Htk, Ht, app_assoc| |].
  - specialize (Hr id). destruct Hr; constructor. eapply survived_more; [done| |done]. lia.
  - intros x [?|?]%elem_of_app; auto.
  - apply Hl'. eapply Forall_impl; [exact Hl|]. intros l. apply lane_safe_grown; [apply grown_refl|done].
Qed.

(** The row of a claimed message was pending at first. *)
Lemma claimed_start w0 k st new now limit claimed s' m :
  site_safe w0 k st new -> claims_oldest now limit (lget st.1) claimed s' -> m ∈ claimed ->
  exists m0 r, rows w0 !! ob_id m = Some m0 /\ ob_status m0 = Pending /\ survived new k m0 r
    /\ rows st.1 !! ob_id m = Some r /\ m = leased now (lget st.1) r.
Proof.
  intros Hs Hc Hm. destruct (claims_due _ _ _ _ _ Hc m Hm) as (r & Hr & Hd%due_pending & E).
  pose proof (ss_rows _ _ _ _ Hs (ob_id m)) as Hv. unfold rows in Hv at 2. rewrite Hr in Hv.
  inversion Hv as [m0 ? Hv' E0|]; subst. exists m0, r. split_and!; try done.
  destruct Hv'; congruence.
Qed.

Lemma claim_safe w0 k w lanes new limit claimed w' :
  site_safe w0 k (w, lanes) new -> outbox_pending limit w = (Ok claimed, w') ->
  site_safe w0 (S k) (w', lanes ++ (LWaiting <$> partition_lanes claimed)) new.
Proof.
  intros Hs E. pose proof Hs as [Hr Hk Ht Hn Hl]. cbn in *. rewrite pending_method_spec in E.
  pose proof (taken_now w) as T0. destruct (utc_now w) as [now w1].
  pose proof (claim_all_oldest now limit (lget w) Hk) as Hc.
  destruct (claim_all _ _ _) as [cs s1]. destruct Hc as [_ Hc]. injection E as -> <-. cbn in T0.
  pose proof (fun m => claimed_start w0 k (w, lanes) new now limit claimed s1 m Hs Hc) as Hstart.
  assert (rows (lset s1 w1) = ob_store s1) as G by (unfold rows; by rewrite lget_lset).
  pose proof (claims_store _ _ _ _ _ Hc) as Hst.
  assert (grown (rows w) (rows (lset s1 w1))) as Hg.
  { intros id r Hr'. rewrite G, Hst. case_decide; [|exists r; split; [done|lia]].
    unfold rows in Hr'. rewrite Hr'. eexists. split; [done|]. cbn. lia. }
  constructor; cbn; [|rewrite lget_lset; by eapply well_keyed_claims|by rewrite taken_outbox, T0|done|].
  - intros id. rewrite G, Hst. case_decide as Hin.
    + apply list_elem_of_fmap in Hin as (x & -> & Hx).
      destruct (Hstart x Hx) as (m0 & r & -> & P0 & Hv & Hr' & _). cbn in Hr'. unfold rows in Hr'.
      rewrite Hr'. constructor. eapply (survived_touch new k m0 r); try done. cbn. lia.
    + specialize (Hr id). unfold rows at 2 in Hr. destruct Hr; constructor.
      eapply survived_more; [done| |done]. lia.
  - apply Forall_app. split.
    { eapply Forall_impl; [exact Hl|]. intros l. by apply lane_safe_grown. }
    destruct (partition_lanes_ok claimed) as [by_key [Hp _ _ _ _]]. apply Forall_fmap, Forall_forall.
    intros lane Hlane. cbn. apply Forall_forall. intros m Hm.
    assert (m ∈ claimed) as Hmc by (rewrite <- Hp; apply list_elem_of_In, in_concat; exists lane;
      split; by apply list_elem_of_In).
    destruct (Hstart m Hmc) as (m0 & r & H0 & P0 & Hv & Hr' & Em). cbn in Hr', Em. unfold rows in Hr'.
    exists m0, m. rewrite G, Hst, decide_True, Hr' by by apply list_elem_of_fmap_2.
    rewrite H0. split_and!; try done; subst m; cbn; [by destruct Hv|done|destruct Hv; lia|lia].
Qed.

(** The attempts stay countable for [n] steps. *)
Definition headroom (w0 : W) (n : nat) : Prop :=
  forall id m, rows w0 !! id = Some m -> ob_status m = Pending ->
    0 <= ob_attempts m /\ ob_attempts m + Z.of_nat n < u32_max.

Lemma u32_add_1 x : 0 <= x < u32_max -> u32_add x 1 = x + 1.
Proof. intros Hx. unfold u32_add. rewrite Z.mod_small; unfold u32_max in *; lia. Qed.

Lemma rest_grown s0 s s' ms : grown s s' -> Forall (held s0 s 0) ms -> Forall (held s0 s' 0) ms.
Proof. intros Hg Hms. eapply Forall_impl; [exact Hms|]. intros m. by apply held_grown. Qed.

(** Counting an attempt. *)
Lemma record_safe w0 k n w lanes new i m rest pub errs :
  headroom w0 n -> (k < n)%nat -> site_safe w0 k (w, lanes) new ->
  held (rows w0) (rows w) 0 m -> Forall (held (rows w0) (rows w) 0) rest ->
  exists w', InMemoryOutbox_record_attempt (ob_id m) w = (Ok tt, w')
    /\ site_safe w0 (S k) (w', <[i := LRunning (mkLaneState m rest PPublish pub errs)]> lanes) new.
Proof.
  intros Hh Hk Hs Hm Hrest.
  destruct (held_rows _ _ (w, lanes) _ _ _ Hs Hm) as (m0 & r & H0 & P0 & M0 & Hr & Ir & Mr & Hv & A0 & A & Ak).
  destruct (entry_method_row ERecordAttempt (ob_id m) r w Hr) as (t & w' & E & G & T).
  destruct (Hh _ _ H0 P0) as [Hpos Hroom].
  assert (ob_attempts (entry_effect ERecordAttempt t r) = ob_attempts r + 1) as Ar
    by (apply u32_add_1; cbn in *; lia).
  exists w'. split; [exact E|]. eapply site_safe_put; try done; [lia| |].
  - eapply survived_touch; try done. lia.
  - intros Hg Hr'. cbn. split; [|by eapply rest_grown].
    exists m0. eexists. split_and!; try done. rewrite Ar. cbn in A. lia.
Qed.

(** Marking: published because the broker took it, failed because it is
    given up. *)
Lemma mark_published_safe w0 k w lanes new i m rest pub errs :
  site_safe w0 k (w, lanes) new -> held (rows w0) (rows w) 1 m -> ob_message m ∈ new ->
  Forall (held (rows w0) (rows w) 0) rest ->
  exists w', InMemoryOutbox_mark_published (ob_id m) w = (Ok tt, w')
    /\ site_safe w0 (S k) (w', <[i := lane_start rest pub errs]> lanes) new.
Proof.
  intros Hs Hm Hin Hrest.
  destruct (held_rows _ _ (w, lanes) _ _ _ Hs Hm) as (m0 & r & H0 & P0 & M0 & Hr & Ir & Mr & Hv & A0 & A & Ak).
  destruct (entry_method_row EMarkPublished (ob_id m) r w Hr) as (t & w' & E & G & T).
  exists w'. split; [exact E|]. eapply site_safe_put; try done.
  - apply sv_moved; cbn in *; try done; [|lia|congruence].
    destruct Hv; congruence.
  - intros Hg _. by eapply lane_safe_start, rest_grown.
Qed.

Lemma mark_failed_safe w0 k n w lanes new i m e pub errs :
  headroom w0 n -> site_safe w0 k (w, lanes) new -> held (rows w0) (rows w) 1 m ->
  MessagingError_failure_kind e = Poison \/ max_attempts (retry config) <= ob_attempts m + 1 ->
  exists w', InMemoryOutbox_mark_failed (ob_id m) (MessagingError_to_string e) w = (Ok tt, w')
    /\ site_safe w0 (S k) (w', <[i := LDone pub errs]> lanes) new.
Proof.
  intros Hh Hs Hm Hwhy.
  destruct (held_rows _ _ (w, lanes) _ _ _ Hs Hm) as (m0 & r & H0 & P0 & M0 & Hr & Ir & Mr & Hv & A0 & A & Ak).
  destruct (entry_method_row (EMarkFailed (MessagingError_to_string e)) (ob_id m) r w Hr) as (t & w' & E & G & T).
  destruct (Hh _ _ H0 P0) as [Hpos _].
  exists w'. split; [exact E|]. eapply site_safe_put; try done.
  apply sv_moved; cbn in *; try done; [destruct Hv; congruence|lia|].
  split; [done|]. exists e. split; [done|]. destruct Hwhy; [by left|right]. cbn. unfold budget. lia.
Qed.

Lemma schedule_safe w0 k w lanes new i m delay pub errs :
  site_safe w0 k (w, lanes) new -> held (rows w0) (rows w) 1 m ->
  exists r w', InMemoryOutbox_schedule_retry (ob_id m) delay w = (r, w')
    /\ site_safe w0 (S k) (w', <[i := LDone pub (errs r)]> lanes) new.
Proof.
  intros Hs Hm.
  destruct (held_rows _ _ (w, lanes) _ _ _ Hs Hm) as (m0 & r & H0 & P0 & M0 & Hr & Ir & Mr & Hv & A0 & A & Ak).
  destruct (schedule_retry_spec (ob_id m) delay r w Hr) as (o & w' & r' & E & G & T & I' & M' & S' & A' & L').
  exists o, w'. split; [exact E|]. eapply site_safe_put; try done; [congruence|lia|].
  eapply survived_touch; try done. lia.
Qed.

(** Publishing: the ledger grows by the message, or the policy decides. *)
Lemma publish_safe w0 k n w lanes new i m rest pub errs a w' :
  headroom w0 n -> (k < n)%nat -> site_safe w0 k (w, lanes) new -> held (rows w0) (rows w) 1 m ->
  Forall (held (rows w0) (rows w) 0) rest ->
  exec_phase config m PPublish w = (a, w') ->
  exists more, site_safe w0 (S k)
    (w', <[i := lane_resume (mkLaneState m rest PPublish pub errs) a]> lanes) (new ++ more).
Proof.
  intros Hh Hk Hs Hm Hrest E. unfold exec_phase, bind in E.
  pose proof (publish_outbox (ob_message m) w) as G. pose proof (publish_taken (ob_message m) w) as T.
  destruct (held_rows _ _ (w, lanes) _ _ _ Hs Hm) as (m0 & r & H0 & P0 & M0 & _ & _ & _ & _ & A0 & A & Ak).
  destruct (Hh _ _ H0 P0) as [Hpos Hroom].
  destruct (publish (ob_message m) w) as [[u|e] w1]; cbn in G, T.
  - injection E as <- <-. exists [ob_message m]. eapply site_safe_same; try done.
    + intros x ->%list_elem_of_singleton. by exists (ob_id m), m0.
    + intros Hl. apply Forall_insert; [done|]. cbn. split_and!; [done|set_solver|done].
  - rewrite u32_add_1 in E by lia.
    pose proof (decide_for_quiet config (ob_attempts m + 1) (MessagingError_failure_kind e) w1) as Hd.
    destruct (RetryPolicy_decide_for _ _ _ w1) as [d w2]. destruct Hd as (G1 & T1 & Hd).
    injection E as <- <-. exists [].
    eapply site_safe_same; [exact Hs|congruence|congruence|by intros x Hx%elem_of_nil|].
    intros Hl. rewrite app_nil_r in *. apply Forall_insert; [done|]. by destruct d as [[delay|]|].
Qed.

(** Every step keeps every row safe. *)
Lemma step_safe w0 k n st st' new :
  headroom w0 n -> (k < n)%nat -> site_safe w0 k st new -> site_step st st' ->
  exists more, site_safe w0 (S k) st' (new ++ more).
Proof.
  intros Hh Hk Hs Hst. destruct Hst as [w lanes limit claimed w' E|w lanes i ms Hi|w lanes i ls a w' Hi E
    |w lanes lanes' Hsub|w lanes w' G T].
  - exists []. rewrite app_nil_r. by eapply claim_safe.
  - exists []. pose proof (Forall_lookup_1 _ _ _ _ (ss_lanes _ _ _ _ Hs) Hi) as Hms. cbn in Hms.
    eapply site_safe_same; [exact Hs|done|by rewrite app_nil_r|by intros x Hx%elem_of_nil|].
    intros Hl. apply Forall_insert; [done|]. by apply lane_safe_start.
  - pose proof (Forall_lookup_1 _ _ _ _ (ss_lanes _ _ _ _ Hs) Hi) as Hl. destruct ls as [m rest p pub errs].
    cbn in Hl. destruct Hl as [Hp Hrest].
    destruct p; cbn [ls_current ls_phase lane_knows] in *;
      [|by eapply publish_safe|..]; exists []; rewrite app_nil_r.
    + destruct (record_safe w0 k n w lanes new i m rest pub errs Hh Hk Hs Hp Hrest) as (w1 & E1 & Hs1).
      cbn in E. rewrite E1 in E. by injection E as <- <-.
    + destruct Hp as [Hp Hin].
      destruct (mark_published_safe w0 k w lanes new i m rest (pub + 1) errs Hs Hp Hin Hrest) as (w1 & E1 & Hs1).
      cbn in E. rewrite E1 in E. by injection E as <- <-.
    + destruct Hp as [Hp Hwhy].
      destruct (mark_failed_safe w0 k n w lanes new i m e pub (errs ++ [DispatchMessaging e]) Hh Hs Hp Hwhy)
        as (w1 & E1 & Hs1).
      cbn in E. rewrite E1 in E. by injection E as <- <-.
    + destruct (schedule_safe w0 k w lanes new i m delay pub
        (fun r => errs ++ outbox_errors r ++ [DispatchMessaging e]) Hs Hp) as (r & w1 & E1 & Hs1).
      cbn in E. rewrite E1 in E. by injection E as <- <-.
  - exists []. eapply site_safe_same; [exact Hs|done|by rewrite app_nil_r|by intros x Hx%elem_of_nil|].
    intros Hl. rewrite Forall_forall in *. intros l Hin. by eapply Hl, elem_of_sublist.
  - exists []. eapply site_safe_same; [exact Hs|done|by rewrite app_nil_r|by intros x Hx%elem_of_nil|done].
Qed.

Lemma run_safe w0 n st :
  headroom w0 n -> well_keyed (lget w0) -> nsteps site_step n (w0, []) st ->
  exists new, site_safe w0 n st new.
Proof.
  intros Hh Hk. assert (forall k st, (k <= n)%nat -> nsteps site_step k (w0, []) st ->
    exists new, site_safe w0 k st new) as Hrun; [|intros Hst; by eapply Hrun].
  intros k. induction k as [|k IH]; intros st' Hkn Hst.
  - inversion Hst; subst. exists []. constructor; cbn; try done; [|by rewrite app_nil_r|by intros x Hx%elem_of_nil].
    intros id. destruct (rows w0 !! id); constructor. constructor.
  - apply nsteps_inv_r in Hst as (st1 & Hst & Hstep). destruct (IH st1 ltac:(lia) Hst) as [new Hs].
    destruct (step_safe w0 k n st1 st' new Hh ltac:(lia) Hs Hstep) as [more Hs']. by exists (new ++ more).
Qed.

(** ** Recovery *)

(** What the dispatchers left behind is a store a relay can settle. *)
Lemma recovered_sane w0 n st new :
  headroom w0 n -> site_safe w0 n st new -> sane st.1 /\ size (rows st.1) = size (rows w0).
Proof.
  intros Hh [Hr Hk _ _ _]. split; [split; [done|]|].
  - intros id r Hid HP. specialize (Hr id). fold (rows st.1) in Hid. rewrite Hid in Hr.
    inversion Hr as [m0 ? Hv E0|]; subst. symmetry in E0.
    destruct Hv as [|r P _ _ A _]; destruct (Hh _ _ E0 ltac:(done)) as [H1 H2]; lia.
  - rewrite <- !size_dom. f_equal. apply set_eq. intros id. rewrite !elem_of_dom. specialize (Hr id).
    inversion Hr; split; intros []; congruence || by eexists.
Qed.

(** Each row has at most the whole budget left. *)
Lemma total_le s : map_Forall (fun _ => countable) s -> (total config s <= size s * Z.to_nat (budget config))%nat.
Proof.
  intros Hc. unfold total. rewrite <- (length_map_to_list s), <- (length_fmap snd).
  assert (Forall countable (map_to_list s).*2) as Hall.
  { apply Forall_fmap, Forall_forall. intros [id m] Hm%elem_of_map_to_list. exact (Hc _ _ Hm). }
  induction Hall as [|m l Hm _ IH]; cbn; [lia|].
  assert (weight config m <= Z.to_nat (budget config))%nat; [|lia].
  unfold weight. case_decide as HP; [|lia]. specialize (Hm HP). unfold budget. lia.
Qed.

Context (limit : nat) (wait : M W unit).
Context (Hdelay : forall a w, is_Some (BackoffStrategy_delay_for (backoff (retry config)) a w).1).
Context `{!Lens W InMemoryDeadLetterQueue, !LensLaws W InMemoryDeadLetterQueue,
  !EnvFrame W InMemoryDeadLetterQueue, !LensDisjoint W InMemoryOutbox InMemoryDeadLetterQueue,
  !LensDisjoint W InMemoryDeadLetterQueue InMemoryOutbox}.

(** One dead letter of [ds] carries the message and the attempts of [m]. *)
Definition parked_in (ds : list DeadLetterMessage) (m : OutboxMessage) : Prop :=
  exists d, d ∈ ds /\ dl_message d = ob_message m /\ dl_attempts d = ob_attempts m.

Lemma parks_in ms ds m m' :
  Forall2 parks ms ds -> m ∈ ms -> ob_message m' = ob_message m -> ob_attempts m' = ob_attempts m ->
  parked_in ds m'.
Proof.
  intros Hp (i & Hi)%list_elem_of_lookup M A. destruct (Forall2_lookup_l _ _ _ _ _ Hp Hi) as (d & Hd & D1 & _ & D3).
  exists d. split_and!; [by eapply list_elem_of_lookup_2|congruence|congruence].
Qed.

(** The messages a relay hands over are those of pending rows. *)
Lemma relayed_pending w w' ids d x :
  went config w w' ids d -> x ∈ messages_of (rows w) ids ->
  exists id m, rows w !! id = Some m /\ ob_status m = Pending /\ ob_message m = x.
Proof.
  intros [[_ Hdom Hrow _] _ _ _] (id & Hid & (m & Hm & ->)%fmap_Some_1)%list_elem_of_omap.
  fold (rows w) in Hm. exists id, m. split; [done|]. split; [|done].
  destruct (proj2 (Hdom id)) as [m' Hm']; [by exists m|]. pose proof (Hrow _ _ _ Hm Hm') as Ha.
  rewrite bool_decide_eq_true_2 in Ha by done. by inversion Ha.
Qed.

(** A row [m] that was [r] when the relay took over and is [m'] now. *)
Lemma recovered_row new k m r m' s id ids ms ds :
  survived new k m r -> s !! id = Some r -> Forall2 parks ms ds -> ob_message m' = ob_message r ->
  match ob_status r with
  | Pending =>
      ob_attempts r < ob_attempts m' <= Z.max (budget config) (ob_attempts r + 1) /\
      if decide (id ∈ ids) then ob_status m' = Published
      else ob_status m' = DeadLettered
           /\ exists m1, m1 ∈ ms /\ ob_id m1 = id /\ ob_message m1 = ob_message r
                /\ given_up config m1 /\ ob_attempts m1 = ob_attempts m'
  | Failed => ob_status m' = DeadLettered /\ r ∈ ms /\ ob_attempts m' = ob_attempts r
  | Published | DeadLettered => m' = r
  end ->
  ob_message m' = ob_message m
  /\ match ob_status m with
     | Pending => ob_status m' = Published /\ ob_message m ∈ new ++ messages_of s ids
                  \/ ob_status m' = DeadLettered /\ parked_in ds m'
     | Failed => ob_status m' = DeadLettered /\ parked_in ds m'
     | Published | DeadLettered => m' = m
     end.
Proof.
  intros Hv Hr Hp M' Hout. assert (ob_message r = ob_message m) as M by by destruct Hv.
  split; [congruence|].
  assert (id ∈ ids -> ob_message m ∈ new ++ messages_of s ids) as Hids.
  { intros Hin. apply elem_of_app. right. apply list_elem_of_omap. exists id. split; [done|].
    rewrite Hr. cbn. by rewrite M. }
  destruct Hv as [|r P _ _ _ S]; [destruct (ob_status m)|rewrite P; destruct (ob_status r) eqn:Sr]; try done.
  1,3: destruct Hout as [_ Hout]; case_decide as Hin; [left; auto|right];
    destruct Hout as (Hd & m1 & Hm1 & _ & M1 & _ & A1); (split; [done|]); apply (parks_in ms ds m1); done || congruence.
  - destruct Hout as (Hd & Hm1 & A1). split; [done|]. by eapply (parks_in ms).
  - subst m'. left. split; [done|]. apply elem_of_app. by left.
  - right. destruct Hout as (Hd & Hm1 & A1). split; [done|]. by eapply (parks_in ms).
Qed.

(** C4: no crash loses a message.  However many dispatchers work on one outbox,
    in whatever order their calls fall, whatever the broker answers, with
    leases expiring under a slow dispatcher and with dispatchers that die
    between any two calls: once one dispatcher runs alone again, a number of
    runs known beforehand and one sweep settle the outbox.  Then every row
    that was pending at first is published and the broker took its message at
    least once, or it is dead-lettered and a dead letter carries its message;
    nothing is taken by the broker that was not the message of a row pending
    at first, and rows settled before are as they were. *)
Theorem crashes_lose_nothing (w w1 : W) (lanes : list Lane) (n runs swept : nat) :
  well_keyed (lget w) -> headroom w n -> nsteps site_step n (w, []) (w1, lanes) ->
  (0 < limit)%nat -> patient wait ->
  (size (rows w) * Z.to_nat (budget config) <= runs)%nat -> (size (rows w) <= swept)%nat ->
  exists rs w2 w3 new ds,
    relay config limit wait runs w1 = (Some rs, w2)
    /\ sweep_failed_to_dead_letter swept w2 = (Ok (length ds), w3)
    /\ taken w2 = taken w ++ new /\ dlq_messages (lget w3) = dlq_messages (lget w2) ++ ds
    /\ (forall x, x ∈ new -> exists id m, rows w !! id = Some m /\ ob_status m = Pending /\ ob_message m = x)
    /\ forall id m, rows w !! id = Some m ->
         exists m', rows w3 !! id = Some m' /\ ob_message m' = ob_message m
         /\ match ob_status m with
            | Pending => ob_status m' = Published /\ ob_message m ∈ new
                         \/ ob_status m' = DeadLettered /\ parked_in ds m'
            | Failed => ob_status m' = DeadLettered /\ parked_in ds m'
            | Published | DeadLettered => m' = m
            end.
Proof.
  intros Hk Hh Hst Hl Hwait Hruns Hswept.
  destruct (run_safe w n (w1, lanes) Hh Hk Hst) as [new Hs].
  destruct (recovered_sane w n (w1, lanes) new Hh Hs) as [Hsane Hsize]. cbn in Hsane, Hsize.
  destruct (relay_went config limit wait Hmax Hdelay runs w1 Hl Hwait Hsane) as (rs & ids & w2 & E2 & Hw).
  assert (total config (rows w1) <= runs)%nat as Htot
    by (pose proof (total_le (rows w1) (proj2 Hsane)); lia).
  pose proof (relay_settled config runs w1 w2 ids Htot Hw) as Hnone.
  destruct (sweep_all swept w2 (proj1 (went_sane _ _ _ _ _ Hw)))
    as (w3 & ds & ms & E3 & Hms & _ & Hp & Hq & Hr & Hd); [rewrite (went_size _ _ _ _ _ Hw); unfold rows in *; lia|].
  exists rs, w2, w3, (new ++ messages_of (rows w1) ids), ds.
  split; [done|]. split; [by rewrite E3, (Forall2_length _ _ _ Hp)|].
  pose proof (ss_taken _ _ _ _ Hs) as Ht. cbn in Ht.
  split; [by rewrite (went_taken _ _ _ _ _ Hw), Ht, app_assoc|].
  split; [done|]. split.
  - intros x [Hx|Hx]%elem_of_app; [by apply (ss_new _ _ _ _ Hs)|].
    destruct (relayed_pending _ _ _ _ _ Hw Hx) as (id & r & Hr' & P & <-).
    pose proof (ss_rows _ _ _ _ Hs id) as Hv. cbn in Hv. rewrite Hr' in Hv.
    inversion Hv as [m ? Hv' E|]; subst. exists id, m. by destruct Hv'.
  - intros id m Hm. pose proof (ss_rows _ _ _ _ Hs id) as Hv. cbn in Hv. rewrite Hm in Hv.
    inversion Hv as [? r Hv' E E'|]; subst. symmetry in E'.
    destruct (settle_row config w1 w2 w3 ids ms _ id r Hw Hnone Hms Hr Hd E') as (m' & Hm' & M' & Hout).
    exists m'. split; [done|]. by eapply recovered_row.
Qed.
End Crashes.

(** ** A dispatcher that dies before it can mark *)

Abbreviation Shop := (World (InMemoryOutbox * (FlakyBroker * InMemoryDeadLetterQueue))) (only parsing).

(** The shop of Settlement with a broker that takes everything. *)
Definition open_shop : Shop :=
  mkWorld env_start (lget shop, (mkFlakyBroker 0 [], mkInMemoryDeadLetterQueue [])).

(** It claimed both messages, counted an attempt of the first and published
    it; then it died. *)
Definition claimed_batch : list OutboxMessage :=
  match (InMemoryOutbox_pending 10 open_shop).1 with Ok claimed => claimed | Err _ => [] end.
Definition after_claim : Shop := (InMemoryOutbox_pending 10 open_shop).2.
Definition after_record : Shop := (InMemoryOutbox_record_attempt 1 after_claim).2.
Definition after_publish : Shop := (publish (ob_message (sample_message 1 "a" (-3))) after_record).2.

Lemma open_shop_crashes : nsteps (site_step two_attempts) 5 (open_shop, []) (after_publish, []).
Proof.
  set (m := default (sample_message 1 "a" (-3)) (head claimed_batch)). set (rest := tail claimed_batch).
  eapply nsteps_l.
  { apply (site_claim _ open_shop [] 10 claimed_batch after_claim). vm_compute. reflexivity. }
  eapply nsteps_l.
  { apply (site_start _ after_claim _ 0 claimed_batch). vm_compute. reflexivity. }
  eapply nsteps_l.
  { apply (site_call _ after_claim _ 0 (mkLaneState m rest PRecord 0 []) (Ok tt) after_record);
      vm_compute; reflexivity. }
  eapply nsteps_l.
  { apply (site_call _ after_record _ 0 (mkLaneState m rest PPublish 0 []) PubOk after_publish);
      vm_compute; reflexivity. }
  eapply nsteps_l; [apply (site_crash _ after_publish _ []), sublist_nil_l|]. apply nsteps_O.
Qed.

Lemma crashes_lose_nothing_witness :
  exists rs w2 w3 new (ds : list DeadLetterMessage),
    relay two_attempts 10 sleep_until_due 4 after_publish = (Some rs, w2)
    /\ sweep_failed_to_dead_letter 2 w2 = (Ok (length ds), w3) /\ taken w2 = new
    /\ exists m', ob_store (lget w3) !! 1 = Some m'
       /\ (ob_status m' = Published /\ ob_message (sample_message 1 "a" (-3)) ∈ new
           \/ ob_status m' = DeadLettered /\ parked_in ds m').
Proof.
  assert (forall a (w : Shop), is_Some (BackoffStrategy_delay_for (backoff (retry two_attempts)) a w).1)
    as Hdelay by (intros; eexists; reflexivity).
  assert (max_attempts (retry two_attempts) <= u32_max) as Hmax by (vm_compute; discriminate).
  destruct (crashes_lose_nothing two_attempts Hmax 10 sleep_until_due Hdelay open_shop after_publish [] 5 4 2)
    as (rs & w2 & w3 & new & ds & E2 & E3 & Ht & _ & _ & Hrows).
  - apply map_Forall_insert_2; [reflexivity|]. apply map_Forall_singleton. reflexivity.
  - apply (map_Forall_insert_2 (fun _ m => ob_status m = Pending -> 0 <= ob_attempts m /\ ob_attempts m + 5 < u32_max));
      [|apply map_Forall_singleton]; cbn; unfold u32_max; lia.
  - exact open_shop_crashes.
  - lia.
  - exact sleep_until_due_patient.
  - vm_compute. lia.
  - vm_compute. lia.
  - exists rs, w2, w3, new, ds. split; [exact E2|]. split; [exact E3|]. split; [exact Ht|].
    destruct (Hrows 1 (sample_message 1 "a" (-3)) eq_refl) as (m' & Hm' & _ & Hs). exists m'. split; [exact Hm'|exact Hs].
Defined.

(** The first message goes out a second time: delivery is at least once, and
    the inbox of its consumer is there to tell. *)
Example crash_duplicates :
  message_id <$> accepted (lget (relay two_attempts 10 sleep_until_due 4 after_publish).2) = [1; 1; 2].
Proof. vm_compute. reflexivity. Qed.
