(* ===== verification/Orders.v ===== *)
(** * Orders: the order application

    Models examples/order/src: the domain (value_objects.rs, events.rs,
    order.rs), the application layer (commands.rs, error.rs, handlers.rs,
    queries.rs, event_handlers.rs) and the web boundary (web/error.rs,
    web/orders.rs, web/mod.rs, web/state.rs), over any repository and any
    event bus.  The typed identifiers are their UUIDs; an [f64] is a binary64
    datum as in [Messaging]; [u64] arithmetic wraps, as in a release build.

    garde's check of [AddItem], the JSON and query-string extractors and
    tower's layers are outside the repository: the first is an argument, a
    request reaches its route as the decoded command, and of the layers only
    the mapping of their errors is code of the example. *)

From S2P Require Import Prelude Core Messaging EventBus UnitOfWork AggregateStore Dispatch Tenancy.
Local Open Scope Z_scope.

(** ** Value objects (domain/value_objects.rs) *)

Abbreviation OrderId := Uuid (only parsing).
Abbreviation CustomerId := Uuid (only parsing).
Abbreviation ItemId := Uuid (only parsing).

Record Money := mkMoney { cents : Z; currency : string }.

#[export] Instance Money_eq_dec : EqDecision Money.
Proof. solve_decision. Defined.

(** [f64::is_finite] *)
Definition f64_is_finite (x : f64) : bool :=
  match x with S754_zero _ | S754_finite _ _ _ => true | _ => false end.

(** [f64::round]: to the nearest integer, halves away from zero. *)
Definition f64_round (x : f64) : f64 :=
  match x with
  | S754_finite s m e =>
      if 0 <=? e then x
      else match (Z.pos m + 2 ^ (- e - 1)) / 2 ^ (- e) with
           | Z.pos n => if s then SFopp (f64_of_Z (Z.pos n)) else f64_of_Z (Z.pos n)
           | _ => S754_zero s
           end
  | _ => x
  end.

(** [x as u64]: towards zero, clamped, NaN to 0. *)
Definition f64_as_u64 (x : f64) : Z :=
  match x with
  | S754_zero _ | S754_nan => 0
  | S754_infinity s => if s then 0 else u64_max
  | S754_finite s m e =>
      if s then 0 else Z.min u64_max (if 0 <=? e then Z.pos m * 2 ^ e else Z.pos m / 2 ^ (- e))
  end.

Definition u64_mul (a b : Z) : Z := (a * b) mod 2 ^ 64.

Definition Money_brl (reais : f64) : result Money DomainError :=
  if f64_ltb reais (S754_zero false) || negb (f64_is_finite reais)
  then Err (Validation "invalid monetary amount")
  else Ok (mkMoney (f64_as_u64 (f64_round (f64_mul reais (f64_of_Z 100)))) "BRL").

Definition Money_from_cents (cents : Z) : Money := mkMoney cents "BRL".
Definition Money_zero : Money := Money_from_cents 0.
Definition Money_cents (m : Money) : Z := cents m.

Definition Money_add (self other : Money) : result Money DomainError :=
  if decide (currency self = currency other)
  then Ok (mkMoney (u64_add (cents self) (cents other)) (currency self))
  else Err (BusinessRule "different currencies").

Definition Money_mul (self : Money) (fator : Z) : Money :=
  mkMoney (u64_mul (cents self) fator) (currency self).

(** [{:02}] *)
Definition fmt_02 (z : Z) : string := if z <? 10 then "0" +:+ pretty z else pretty z.

Definition reais_text (c : Z) : string := pretty (c / 100) +:+ "." +:+ fmt_02 (c mod 100).

Definition Money_to_string (m : Money) : string := "R$ " +:+ reais_text (cents m).

Record Quantity := mkQuantity { quantity_0 : Z }.

Definition Quantity_new (v : Z) : result Quantity DomainError :=
  if v =? 0 then Err (Validation "quantity must be > 0") else Ok (mkQuantity v).

Definition Quantity_value (q : Quantity) : Z := quantity_0 q.

(** ** Events (domain/events.rs) *)

Inductive OrderEvent :=
| OrderCreated (order_id : string) (customer_id : Uuid) (occurred_at : Instant)
| ItemAdded (order_id : string) (item_id : Uuid) (description : string)
    (quantity unit_price_cents : Z) (occurred_at : Instant)
| OrderConfirmed (order_id : string) (total_cents : Z) (occurred_at : Instant)
| OrderCancelled (order_id reason : string) (occurred_at : Instant).

(** What [#[derive(DomainEvent)]] generates from the annotations. *)
Definition OrderEvent_type (e : OrderEvent) : string :=
  match e with
  | OrderCreated _ _ _ => "OrderCreated"
  | ItemAdded _ _ _ _ _ _ => "ItemAdded"
  | OrderConfirmed _ _ _ => "OrderConfirmed"
  | OrderCancelled _ _ _ => "OrderCancelled"
  end.

Definition OrderEvent_aggregate_id (e : OrderEvent) : string :=
  match e with
  | OrderCreated id _ _ | ItemAdded id _ _ _ _ _ | OrderConfirmed id _ _ | OrderCancelled id _ _ => id
  end.

(** The application's one type of event. *)
Inductive OrderTypes := OrderEventType.

#[export] Instance OrderTypes_eq_dec : EqDecision OrderTypes.
Proof. solve_decision. Defined.
#[export] Instance OrderTypes_countable : Countable OrderTypes.
Proof. apply (inj_countable' (fun _ => tt) (fun _ => OrderEventType)). by intros []. Defined.

#[export] Instance OrderTypes_events : EventTypes OrderTypes := {
  carrier _ := OrderEvent;
  event_type _ := OrderEvent_type;
  aggregate_id _ := OrderEvent_aggregate_id;
}.

(** ** The aggregate (domain/order.rs) *)

Record OrderItem := mkOrderItem {
  item_id : ItemId;
  item_description : string;
  item_quantity : Quantity;
  item_unit_price : Money;
}.

Definition OrderItem_rehydrate := mkOrderItem.

Definition OrderItem_subtotal (i : OrderItem) : Money :=
  Money_mul (item_unit_price i) (Quantity_value (item_quantity i)).

Inductive OrderStatus := Draft | Confirmed | Cancelled.

#[export] Instance OrderStatus_eq_dec : EqDecision OrderStatus.
Proof. solve_decision. Defined.

Record Order := mkOrder {
  order_id : OrderId;
  order_version : Z;
  order_customer : CustomerId;
  order_items : list OrderItem;
  order_status : OrderStatus;
  order_events : AggregateEvents OrderEvent;
}.

(** [#[derive(Entity, AggregateRoot)]] *)
#[export] Instance Order_root : AggregateRoot Order OrderId (carrier OrderEventType) := {
  agg_id := order_id;
  pending_events o := pending (order_events o);
  drain_events o :=
    let '(es, b) := AggregateEvents_drain (order_events o) in
    (es, mkOrder (order_id o) (order_version o) (order_customer o) (order_items o)
           (order_status o) b);
  restore_events es o :=
    mkOrder (order_id o) (order_version o) (order_customer o) (order_items o) (order_status o)
      (AggregateEvents_restore es (order_events o));
  version := order_version;
  set_version v o :=
    mkOrder (order_id o) v (order_customer o) (order_items o) (order_status o) (order_events o);
}.

#[export] Instance Order_laws : AggregateRootLaws Order_root.
Proof. constructor; intros; cbn; try done. apply AggregateEvents_restore_pending. Qed.

Definition Order_rehydrate (id : OrderId) (version : Z) (customer : CustomerId)
  (items : list OrderItem) (status : OrderStatus) : Order :=
  mkOrder id version customer items status AggregateEvents_default.

(** [self.events.raise(..)] *)
Definition Order_raise (e : OrderEvent) (o : Order) : Order :=
  mkOrder (order_id o) (order_version o) (order_customer o) (order_items o) (order_status o)
    (AggregateEvents_raise e (order_events o)).

Definition Order_ensure_draft (o : Order) : result unit DomainError :=
  if decide (order_status o = Draft) then Ok tt
  else Err (BusinessRule "operation allowed only in Draft status").

(** [try_fold] *)
Fixpoint total_from (acc : Money) (items : list OrderItem) : result Money DomainError :=
  match items with
  | [] => Ok acc
  | item :: items => res! acc <- Money_add acc (OrderItem_subtotal item); total_from acc items
  end.

Definition Order_total (o : Order) : result Money DomainError :=
  total_from Money_zero (order_items o).

Section OrderOps.
Context {W : Type} `{!Env W}.

Definition Order_create (customer_id : CustomerId) : M W (result Order DomainError) :=
  do! id <- uuid_now_v7;
  let order := mkOrder id 0 customer_id [] Draft AggregateEvents_default in
  do! now <- utc_now;
  ret (Ok (Order_raise (OrderCreated (uuid_to_string id) customer_id now) order)).

(** The methods take [&mut self]: they answer with the order they leave. *)
Definition Order_add_item (description : string) (quantity : Quantity) (unit_price : Money)
  (o : Order) : M W (result ItemId DomainError * Order) :=
  match Order_ensure_draft o with
  | Err e => ret (Err e, o)
  | Ok _ =>
      do! item_id <- uuid_now_v7;
      do! now <- utc_now;
      let o := Order_raise (ItemAdded (uuid_to_string (order_id o)) item_id description
                              (Quantity_value quantity) (Money_cents unit_price) now) o in
      ret (Ok item_id,
           mkOrder (order_id o) (order_version o) (order_customer o)
             (order_items o ++ [mkOrderItem item_id description quantity unit_price])
             (order_status o) (order_events o))
  end.

Definition set_status (s : OrderStatus) (o : Order) : Order :=
  mkOrder (order_id o) (order_version o) (order_customer o) (order_items o) s (order_events o).

Definition Order_confirm (o : Order) : M W (result unit DomainError * Order) :=
  match Order_ensure_draft o with
  | Err e => ret (Err e, o)
  | Ok _ =>
      match order_items o with
      | [] => ret (Err (BusinessRule "an order without items cannot be confirmed"), o)
      | _ =>
          match Order_total o with
          | Err e => ret (Err e, o)
          | Ok total =>
              let o := set_status Confirmed o in
              do! now <- utc_now;
              ret (Ok tt, Order_raise (OrderConfirmed (uuid_to_string (order_id o))
                                         (Money_cents total) now) o)
          end
      end
  end.

Definition Order_cancel (reason : string) (o : Order) : M W (result unit DomainError * Order) :=
  if decide (order_status o = Cancelled)
  then ret (Err (BusinessRule "order is already cancelled"), o)
  else
    let o := set_status Cancelled o in
    do! now <- utc_now;
    ret (Ok tt, Order_raise (OrderCancelled (uuid_to_string (order_id o)) reason now) o).
End OrderOps.

(** ** Commands, queries and errors (application/) *)

Record CreateOrder := mkCreateOrder { co_customer_id : Uuid }.

Record AddItem := mkAddItem {
  ai_order_id : Uuid;
  ai_description : string;
  ai_quantity : Z;
  ai_unit_price_reais : f64;
}.

Record ConfirmOrder := mkConfirmOrder { cf_order_id : Uuid }.
Record GetOrderTotal := mkGetOrderTotal { gt_order_id : Uuid }.

(** [garde::Validate::validate] of [AddItem], as the violations of its
    report. *)
Class GardeAddItem : Type := { garde_violations : AddItem -> list FieldViolation }.

#[export] Instance CreateOrder_command : Command CreateOrder := Command_default _ "CreateOrder".
#[export] Instance ConfirmOrder_command : Command ConfirmOrder := Command_default _ "ConfirmOrder".

(** A struct with [#[garde(..)]] rules gets a [validate_input] that runs
    them. *)
#[export] Instance AddItem_command `{!GardeAddItem} : Command AddItem := {
  NAME := "AddItem";
  INTERNAL_ONLY := false;
  validate_input c :=
    match garde_violations c with [] => Ok tt | vs => Err (mkValidationError vs) end;
}.

Inductive AppError :=
| AppDomain (e : DomainError)
| AppValidation (e : ValidationError)
| AppInfra (e : string).

Definition AppError_infra {E} (display : E -> string) (e : E) : AppError := AppInfra (display e).

Definition AppError_to_string (e : AppError) : string :=
  match e with
  | AppDomain e => DomainError_to_string e
  | AppValidation e => "validation: " +:+ ValidationError_to_string e
  | AppInfra e => "infrastructure: " +:+ e
  end.

(** ** Handlers (application/handlers.rs, queries.rs)

    A panic of an event handler ([None] of [EventBus_publish]) unwinds through
    the command handler. *)

Section Handlers.
Context {W E : Type} `{!Env W, !Repository W Order OrderId E}.
Variable display_e : E -> string.

(** [OrderHandlers]; the repository is the one of the world. *)
Record OrderHandlers := mkOrderHandlers { oh_bus : EventBus W OrderTypes }.

Definition OrderHandlers_new := mkOrderHandlers.

Definition load (id : OrderId) : M W (result Order AppError) :=
  do! r <- find_by_id id;
  ret (res! found <- map_err (AppError_infra display_e) r;
       ok_or found (AppDomain (NotFound ("order " +:+ uuid_to_string id)))).

(** [save_and_publish(..).await.map_err(AppError::infra)?], then the answer. *)
Definition saved_then {O} (h : OrderHandlers) (order : Order) (answer : O)
  : M W (option (result O AppError)) :=
  live! saved <- save_and_publish (t := OrderEventType) display_e (oh_bus h) order;
  ret (Some (match saved.1 with
             | Ok _ => Ok answer
             | Err e => Err (AppError_infra ApplicationError_to_string e)
             end)).

Definition OrderHandlers_handle_create (h : OrderHandlers) (cmd : CreateOrder)
  : M W (option (result Uuid AppError)) :=
  do! created <- Order_create (co_customer_id cmd);
  match created with
  | Err e => ret (Some (Err (AppDomain e)))
  | Ok order =>
      let id := order_id order in
      saved_then h order id
  end.

Definition OrderHandlers_handle_add (h : OrderHandlers) (cmd : AddItem)
  : M W (option (result unit AppError)) :=
  ptry! order <- load (ai_order_id cmd);
  match Quantity_new (ai_quantity cmd) with
  | Err e => ret (Some (Err (AppDomain e)))
  | Ok quantity =>
      match Money_brl (ai_unit_price_reais cmd) with
      | Err e => ret (Some (Err (AppDomain e)))
      | Ok unit_price =>
          do! added <- Order_add_item (ai_description cmd) quantity unit_price order;
          match added.1 with
          | Err e => ret (Some (Err (AppDomain e)))
          | Ok _ => saved_then h added.2 tt
          end
      end
  end.

Definition OrderHandlers_handle_confirm (h : OrderHandlers) (cmd : ConfirmOrder)
  : M W (option (result unit AppError)) :=
  ptry! order <- load (cf_order_id cmd);
  do! confirmed <- Order_confirm order;
  match confirmed.1 with
  | Err e => ret (Some (Err (AppDomain e)))
  | Ok _ => saved_then h confirmed.2 tt
  end.

Definition GetOrderTotalHandler_handle (q : GetOrderTotal) : M W (result (option Z) AppError) :=
  do! r <- find_by_id (gt_order_id q);
  ret (res! found <- map_err (AppError_infra display_e) r;
       match found with
       | Some order =>
           res! total <- map_err AppDomain (Order_total order); Ok (Some (Money_cents total))
       | None => Ok None
       end).
End Handlers.
Arguments OrderHandlers : clear implicits.
Arguments mkOrderHandlers {W} _.

(** ** Event handlers (application/event_handlers.rs) *)

(** [tracing::info!] with its fields and message. *)
Class TracingInfo (W : Type) : Type := {
  tracing_info : list (string * string) -> string -> M W unit;
}.

Section EventHandlers.
Context {W : Type} `{!TracingInfo W}.

Definition NotifyCustomer_handle (event : OrderEvent) : M W (option (result unit string)) :=
  do! _ <-
    match event with
    | OrderCreated _ customer_id _ =>
        tracing_info [("customer_id", uuid_to_string customer_id)]
          "welcome notification sent to customer"
    | OrderConfirmed _ total_cents _ =>
        tracing_info [("total_cents", pretty total_cents); ("total_reais", reais_text total_cents)]
          "customer notified about confirmed order"
    | _ => ret tt
    end;
  ret (Some (Ok tt)).

Definition UpdateInventory_handle (event : OrderEvent) : M W (option (result unit string)) :=
  do! _ <-
    match event with
    | ItemAdded _ _ description quantity _ _ =>
        tracing_info [("description", description); ("quantity", pretty quantity)]
          "inventory reserved for order item"
    | _ => ret tt
    end;
  ret (Some (Ok tt)).

Definition NotifyCustomer : EventHandler W OrderEventType :=
  mkEventHandler OrderEventType "NotifyCustomer" NotifyCustomer_handle.
Definition UpdateInventory : EventHandler W OrderEventType :=
  mkEventHandler OrderEventType "UpdateInventory" UpdateInventory_handle.

(** The bus [main] builds. *)
Definition main_bus : EventBus W OrderTypes :=
  EventBus_register OrderEventType UpdateInventory
    (EventBus_register OrderEventType NotifyCustomer EventBus_new).
End EventHandlers.

(** ** The web boundary (web/) *)

Record ApiError := mkApiError { api_error : AppError }.

Definition ApiError_from_dispatch (e : DispatchError AppError) : ApiError :=
  match e with
  | DispatchValidation e => mkApiError (AppValidation e)
  | DispatchHandler e => mkApiError e
  end.

Record Response := mkResponse { resp_status : Z; resp_body : string }.

Definition ApiError_status (e : ApiError) : Z :=
  match api_error e with
  | AppDomain (NotFound _) => 404
  | AppDomain (Validation _) => 400
  | AppDomain (BusinessRule _) | AppDomain (Conflict _) => 409
  | AppValidation _ => 422
  | AppInfra _ => 500
  end.

Definition ApiError_into_response (e : ApiError) : Response :=
  mkResponse (ApiError_status e) (AppError_to_string (api_error e)).

(** An error of the tower layers: tower's own [Elapsed], or anything else. *)
Definition handle_middleware_error (is_elapsed : bool) (error : string) : Response :=
  if is_elapsed then mkResponse 408 "request timed out"
  else mkResponse 500 ("unhandled internal error: " +:+ error).

(** A handler's answer at the dispatch seam: unwinding passes through it as an
    error of its own, which no route turns into a response. *)
Inductive Unwind (E : Type) := Unwound | Returned (e : E).
Arguments Unwound {E}.
Arguments Returned {E} _.

Definition catch_unwind {W O E} (c : M W (option (result O E))) : M W (result O (Unwind E)) :=
  mmap (fun r => match r with
                 | None => Err Unwound
                 | Some r => map_err Returned r
                 end) c.

(** [AppState]: the command handlers; the totals handler has only the
    repository, which is the world's.  [in_memory_state] wires them. *)
Record AppState (W : Type) := mkAppState { as_commands : OrderHandlers W }.
Arguments mkAppState {W} _.
Arguments as_commands {W} _.

Definition in_memory_state {W} (bus : EventBus W OrderTypes) : AppState W :=
  mkAppState (OrderHandlers_new bus).

(** [FromRef<AppState> for Arc<Commands>] *)
Definition commands_from_ref {W} (state : AppState W) : OrderHandlers W := as_commands state.

Section Web.
Context {W E : Type} `{!Env W, !Tracing W, !Repository W Order OrderId E, !GardeAddItem}.
Variable display_e : E -> string.
Variable commands : OrderHandlers W.

(** [.await?] on the seam's answer, in a route: [None] when the handler
    panicked. *)
Definition or_api_error {O} (r : result O (DispatchError (Unwind AppError)))
  : option (result O ApiError) :=
  match r with
  | Ok o => Some (Ok o)
  | Err (DispatchValidation e) => Some (Err (ApiError_from_dispatch (DispatchValidation e)))
  | Err (DispatchHandler (Returned e)) => Some (Err (ApiError_from_dispatch (DispatchHandler e)))
  | Err (DispatchHandler Unwound) => None
  end.

Definition create_order (command : CreateOrder) : M W (option (result Uuid ApiError)) :=
  mmap or_api_error
    (CommandHandlerState_dispatch
       (fun c => catch_unwind (OrderHandlers_handle_create display_e commands c)) command).

Definition add_item (command : AddItem) : M W (option (result Z ApiError)) :=
  live! r <- mmap or_api_error
    (CommandHandlerState_dispatch
       (fun c => catch_unwind (OrderHandlers_handle_add display_e commands c)) command);
  ret (Some (res! _ <- r; Ok 204)).

Definition confirm_order (command : ConfirmOrder) : M W (option (result Z ApiError)) :=
  live! r <- mmap or_api_error
    (CommandHandlerState_dispatch
       (fun c => catch_unwind (OrderHandlers_handle_confirm display_e commands c)) command);
  ret (Some (res! _ <- r; Ok 204)).

Definition order_total (query : GetOrderTotal) : M W (result (option Z) ApiError) :=
  mmap (map_err mkApiError)
    (QueryHandlerState_dispatch (GetOrderTotalHandler_handle display_e) query).

(** The routes of [router], by what their extractors hand over. *)
Inductive Request :=
| GetHealth
| PostOrders (c : CreateOrder)
| PostItems (c : AddItem)
| PostConfirm (c : ConfirmOrder)
| GetTotal (q : GetOrderTotal).

Inductive Answer :=
| ATextOk (body : string)
| AUuid (id : Uuid)
| AStatus (status : Z)
| ATotal (total : option Z)
| AError (response : Response).

Definition error_answer (e : ApiError) : Answer := AError (ApiError_into_response e).

Definition answer_with {O} (f : O -> Answer) (r : result O ApiError) : Answer :=
  match r with Ok o => f o | Err e => error_answer e end.

(** [None]: the request's task panicked. *)
Definition router (r : Request) : M W (option Answer) :=
  match r with
  | GetHealth => ret (Some (ATextOk "ok"))
  | PostOrders c => mmap (fmap (answer_with AUuid)) (create_order c)
  | PostItems c => mmap (fmap (answer_with AStatus)) (add_item c)
  | PostConfirm c => mmap (fmap (answer_with AStatus)) (confirm_order c)
  | GetTotal q => mmap (fun r => Some (answer_with ATotal r)) (order_total q)
  end.
End Web.

(** ** The life of an order

    An order as the events published about it describe it. *)

Abbreviation OrderView := (CustomerId * list OrderItem * OrderStatus)%type (only parsing).

Definition order_view (o : Order) : OrderView := (order_customer o, order_items o, order_status o).

Inductive Phase := Absent | Present (v : OrderView) | Broken.

Definition phase_of (o : option Order) : Phase :=
  match o with None => Absent | Some o => Present (order_view o) end.

(** The exact price of the items, and what a [u64] keeps of it. *)
Definition items_price (items : list OrderItem) : Z :=
  foldr (fun i s => cents (item_unit_price i) * quantity_0 (item_quantity i) + s) 0 items.
Definition items_total (items : list OrderItem) : Z := items_price items mod 2 ^ 64.

(** The legal next event, and where it leads; anything else breaks the
    history. *)
Definition next_phase (p : Phase) (e : OrderEvent) : Phase :=
  match e, p with
  | OrderCreated _ c _, Absent => Present (c, [], Draft)
  | ItemAdded _ i d q price _, Present (c, items, Draft) =>
      if decide (q = 0) then Broken
      else Present (c, items ++ [mkOrderItem i d (mkQuantity q) (Money_from_cents price)], Draft)
  | OrderConfirmed _ total _, Present (c, items, Draft) =>
      if decide (items <> [] /\ total = items_total items) then Present (c, items, Confirmed)
      else Broken
  | OrderCancelled _ _ _, Present (c, items, s) =>
      if decide (s = Cancelled) then Broken else Present (c, items, Cancelled)
  | _, _ => Broken
  end.

Definition events_for (id : OrderId) (log : list OrderEvent) : list OrderEvent :=
  filter (fun e => OrderEvent_aggregate_id e = uuid_to_string id) log.

Definition replay (id : OrderId) (log : list OrderEvent) : Phase :=
  foldl next_phase Absent (events_for id log).

Definition uuid_range (id : Uuid) : Prop := 0 <= id < 2 ^ 128.

Lemma replay_snoc id log e :
  replay id (log ++ [e])
  = if decide (OrderEvent_aggregate_id e = uuid_to_string id) then next_phase (replay id log) e
    else replay id log.
Proof.
  unfold replay, events_for. rewrite filter_app, foldl_app, filter_cons.
  by destruct (decide _).
Qed.

(** *** Totals *)

Definition brl_item (i : OrderItem) : Prop :=
  currency (item_unit_price i) = "BRL" /\ quantity_0 (item_quantity i) <> 0.

Lemma total_from_spec acc items :
  Forall brl_item items -> currency acc = "BRL" ->
  exists t, total_from acc items = Ok t /\ currency t = "BRL"
            /\ (items = [] -> t = acc)
            /\ cents t mod 2 ^ 64 = (cents acc + items_price items) mod 2 ^ 64
            /\ (items <> [] -> 0 <= cents t < 2 ^ 64).
Proof.
  revert acc. induction items as [|i items IH]; intros acc Hall Hc.
  { exists acc. cbn. rewrite Z.add_0_r. by split_and!. }
  apply Forall_cons in Hall as [[Hi Hq] Hall]. cbn [total_from]. unfold Money_add.
  rewrite decide_True by (cbn; congruence). cbn [rbind].
  set (acc' := mkMoney _ _). destruct (IH acc' Hall Hc) as (t & Ht & Hct & Hnil & Hmod & Hran).
  exists t. split_and!; [done|done|done| |].
  - rewrite Hmod. unfold acc'. cbn. unfold u64_add, u64_mul.
    rewrite Zplus_mod_idemp_l, <- Z.add_assoc. rewrite <- (Zplus_mod_idemp_r (_ mod _ + _)).
    by rewrite Zplus_mod_idemp_l, Zplus_mod_idemp_r.
  - intros _. destruct items as [|j items]; [|by apply Hran]. rewrite Hnil by done.
    unfold acc'. cbn. unfold u64_add. apply Z.mod_pos_bound. lia.
Qed.

Lemma Order_total_spec o :
  Forall brl_item (order_items o) ->
  Order_total o = Ok (Money_from_cents (items_total (order_items o))).
Proof.
  intros Hall. unfold Order_total.
  destruct (total_from_spec Money_zero (order_items o) Hall eq_refl)
    as ([c cur] & -> & Hcur & Hnil & Hmod & Hran).
  cbn [cents currency Money_zero Money_from_cents] in *. rewrite Z.add_0_l in Hmod. subst cur. f_equal.
  unfold Money_from_cents. f_equal. unfold items_total. rewrite <- Hmod.
  destruct (order_items o) as [|i items].
  - injection (Hnil eq_refl) as ->. done.
  - symmetry. apply Z.mod_small. by apply Hran.
Qed.

(** *** Serving requests over the in-memory repository *)

(** What the bus handed to its handlers. *)
Record Published := mkPublished { published_events : list OrderEvent }.

Definition status_of (a : Answer) : Z :=
  match a with
  | ATextOk _ | AUuid _ | ATotal _ => 200
  | AStatus s => s
  | AError r => resp_status r
  end.

(** The status an order book answers a request with; [fresh] is the
    identifier a new order gets. *)
Definition spec_status `{!GardeAddItem} (book : OrderId -> Phase) (fresh : Uuid) (r : Request) : Z :=
  match r with
  | GetHealth | GetTotal _ => 200
  | PostOrders _ => match book fresh with Absent => 200 | _ => 500 end
  | PostItems c =>
      match garde_violations c with
      | _ :: _ => 422
      | [] => match book (ai_order_id c) with
              | Absent => 404
              | Present (_, _, s) =>
                  if is_ok (Quantity_new (ai_quantity c)) && is_ok (Money_brl (ai_unit_price_reais c))
                  then if decide (s = Draft) then 204 else 409
                  else 400
              | Broken => 500
              end
      end
  | PostConfirm c =>
      match book (cf_order_id c) with
      | Absent => 404
      | Present (_, _ :: _, Draft) => 204
      | Present _ => 409
      | Broken => 500
      end
  end.

(** The commands that change the book when they succeed. *)
Definition writes (r : Request) : bool :=
  match r with PostOrders _ | PostItems _ | PostConfirm _ => true | _ => false end.

Definition never_e (e : InMemoryRepoError) : string := match e with RepoNever => "" end.

Section Life.
Context {W : Type} `{!Env W, !Tracing W, !GardeAddItem,
  !Lens W (InMemoryRepository OrderId Order), !LensLaws W (InMemoryRepository OrderId Order),
  !EnvFrame W (InMemoryRepository OrderId Order), !Lens W Published, !EnvFrame W Published,
  !LensDisjoint W (InMemoryRepository OrderId Order) Published}.
Variable commands : OrderHandlers W.

Let store (w : W) : gmap OrderId Order := repo_store (lget w).
Let log (w : W) : list OrderEvent := published_events (lget w).

(** Every handler of the bus succeeds and leaves the orders alone. *)
Definition records_events : Prop :=
  forall ev w, exists w', EventBus_publish (oh_bus commands) OrderEventType ev w = (Some (Ok tt), w')
    /\ lget w' = lget w :> InMemoryRepository OrderId Order /\ log w' = log w ++ [ev].

Definition uuids_in_range : Prop := forall w : W, uuid_range (uuid_now_v7 w).1.

(** After [n] requests: what is stored is well formed and is what the
    published events say. *)
Record life_inv (n : Z) (w : W) : Prop := {
  life_stored id o : store w !! id = Some o ->
    uuid_range id /\ order_id o = id /\ pending (order_events o) = []
    /\ Forall brl_item (order_items o) /\ 1 <= order_version o <= n;
  life_replay id : uuid_range id -> replay id (log w) = phase_of (store w !! id);
}.

Lemma life_inv_mono n w w' :
  life_inv n w -> store w' = store w -> log w' = log w -> life_inv (n + 1) w'.
Proof.
  intros [H1 H2] Hs Hl. split; rewrite ?Hs, ?Hl; [|done].
  intros id o Ho. destruct (H1 id o Ho) as (? & ? & ? & ? & ?). split_and!; try done; lia.
Qed.

(** What [save] stores of an order. *)
Definition stored_form (o : Order) : Order :=
  mkOrder (order_id o) (u64_add (order_version o) 1) (order_customer o) (order_items o)
    (order_status o) AggregateEvents_default.

Lemma save_publish_ok (o : Order) ev (w : W) :
  records_events -> pending (order_events o) = [ev] -> version_ok (store w) o ->
  exists a w', save_and_publish (t := OrderEventType) never_e (oh_bus commands) o w
               = (Some (Ok tt, a), w')
    /\ store w' = <[order_id o := stored_form o]> (store w) /\ log w' = log w ++ [ev].
Proof.
  intros Hrec Hp Hv. unfold save_and_publish, bind. cbn [repo_save InMemoryRepository_repository].
  unfold InMemoryRepository_save, bind, mget. fold (store w). rewrite save_checked_ok by done.
  cbn. rewrite Hp. cbn. unfold pbind.
  set (w1 := lset _ w). destruct (Hrec ev w1) as (w2 & -> & Hr & Hl). cbn.
  eexists _, w2. split; [reflexivity|]. unfold store at 1. rewrite Hr, Hl.
  unfold w1, log. rewrite lget_lset, lget_lset_other. done.
Qed.

Lemma save_publish_conflict (o : Order) (w : W) :
  ~ version_ok (store w) o ->
  exists e w', save_and_publish (t := OrderEventType) never_e (oh_bus commands) o w
               = (Some (Err e, o), w')
    /\ store w' = store w /\ log w' = log w.
Proof.
  intros Hv. unfold save_and_publish, bind. cbn [repo_save InMemoryRepository_repository].
  unfold InMemoryRepository_save, bind, mget. fold (store w). rewrite save_checked_conflict by done.
  cbn. eexists _, _. split; [reflexivity|]. unfold store at 1, log at 1.
  by rewrite lget_lset, lget_lset_other.
Qed.

(** A saved command takes the book to the next phase of one order. *)
Lemma life_advance n w w' o ev :
  life_inv n w -> 0 <= n < u64_max -> uuid_range (order_id o) -> version_ok (store w) o ->
  Forall brl_item (order_items o) ->
  OrderEvent_aggregate_id ev = uuid_to_string (order_id o) ->
  next_phase (phase_of (store w !! order_id o)) ev = Present (order_view o) ->
  store w' = <[order_id o := stored_form o]> (store w) -> log w' = log w ++ [ev] ->
  life_inv (n + 1) w'.
Proof.
  intros [H1 H2] Hn Hid Hv Hitems Hev Hnext Hs Hl. split; rewrite ?Hs, ?Hl.
  - intros id o' Ho. apply lookup_insert_Some in Ho as [[<- <-]|[Hne Ho]].
    + split_and!; try done; unfold stored_form; cbn; unfold version_ok in Hv; cbn in Hv;
        (destruct (store w !! order_id o) as [o0|] eqn:E0;
         [destruct (H1 _ _ E0) as (_ & _ & _ & _ & Hb); rewrite Hv in Hb|rewrite Hv];
         rewrite u64_add_small by (unfold u64_max in *; lia); lia).
    + destruct (H1 id o' Ho) as (? & ? & ? & ? & ?). split_and!; try done; lia.
  - intros id Hr. rewrite replay_snoc, Hev. destruct (decide (order_id o = id)) as [<-|Hne].
    + rewrite decide_True, H2, Hnext, lookup_insert_eq by done. done.
    + rewrite decide_False, H2, lookup_insert_ne by
        (done || (intros Heq; by apply Hne, uuid_to_string_inj)). done.
Qed.

(** The outcome of one request. *)
Definition served (n : Z) (w : W) (r : Request) (a : Answer) (w' : W) : Prop :=
  life_inv (n + 1) w'
  /\ status_of a = spec_status (fun id => phase_of (store w !! id)) (uuid_now_v7 w).1 r
  /\ if writes r && (status_of a <? 300) then exists ev, log w' = log w ++ [ev]
     else store w' = store w /\ log w' = log w.

Lemma env_frame (w : W) :
  store (uuid_now_v7 w).2 = store w /\ log (uuid_now_v7 w).2 = log w
  /\ store (utc_now w).2 = store w /\ log (utc_now w).2 = log w.
Proof.
  unfold store, log. by rewrite !uuid_now_v7_frame, !utc_now_frame.
Qed.

Lemma served_refused n w r a w' :
  life_inv n w -> store w' = store w -> log w' = log w ->
  status_of a = spec_status (fun id => phase_of (store w !! id)) (uuid_now_v7 w).1 r ->
  writes r && (status_of a <? 300) = false -> served n w r a w'.
Proof.
  intros Hw Hs Hl Ha Hr. split; [by eapply life_inv_mono|]. split; [done|]. by rewrite Hr.
Qed.

Lemma create_served n w c :
  records_events -> uuids_in_range -> life_inv n w -> 0 <= n < u64_max ->
  exists a w', router never_e commands (PostOrders c) w = (Some a, w') /\ served n w (PostOrders c) a w'.
Proof.
  intros Hrec Hran Hw Hn. cbn [router]. unfold create_order, CommandHandlerState_dispatch, mmap.
  cbn [INTERNAL_ONLY CreateOrder_command Command_default]. unfold dispatch.
  cbn [validate_input CreateOrder_command Command_default]. unfold mmap, catch_unwind, mmap.
  unfold OrderHandlers_handle_create, Order_create, bind, ret.
  pose proof (Hran w) as Hid. destruct (env_frame w) as (F1 & F2 & _).
  destruct (uuid_now_v7 w) as [id w1] eqn:Eu. cbn in Hid, F1, F2.
  destruct (env_frame w1) as (_ & _ & F3 & F4). destruct (utc_now w1) as [now w2]. cbn in F3, F4.
  set (ev := OrderCreated (uuid_to_string id) (co_customer_id c) now).
  set (o := Order_raise ev (mkOrder id 0 (co_customer_id c) [] Draft AggregateEvents_default)).
  unfold saved_then, pbind, ret. cbn [order_id o Order_raise].
  destruct (store w !! id) as [o0|] eqn:E0.
  - assert (Hnv : ~ version_ok (store w2) o).
    { unfold version_ok. cbn. rewrite F3, F1, E0. destruct (life_stored n w Hw id o0 E0) as (_ & _ & _ & _ & ?).
      lia. }
    destruct (save_publish_conflict o w2 Hnv) as (e & w3 & -> & Hs & Hl).
    eexists _, w3. split; [reflexivity|]. apply served_refused; [done|congruence|congruence| |done].
    cbn. rewrite Eu. cbn. by rewrite E0.
  - assert (Hv : version_ok (store w2) o) by (unfold version_ok; cbn; by rewrite F3, F1, E0).
    destruct (save_publish_ok o ev w2 Hrec eq_refl Hv) as (a & w3 & -> & Hs & Hl).
    rewrite F3, F1 in Hs. rewrite F4, F2 in Hl. rewrite F3, F1 in Hv.
    eexists _, w3. split; [reflexivity|]. split; [|split].
    + eapply (life_advance n w w3 o ev); try done. cbn. by rewrite E0.
    + cbn. rewrite Eu. cbn. by rewrite E0.
    + cbn. by exists ev.
Qed.

Lemma load_spec id (w : W) :
  exists w', load never_e id w
    = (match store w !! id with
       | Some o => Ok o
       | None => Err (AppDomain (NotFound ("order " +:+ uuid_to_string id)))
       end, w') /\ store w' = store w /\ log w' = log w.
Proof.
  unfold load, bind, ret. cbn. fold (store w). exists w. by destruct (store w !! id).
Qed.

Lemma stored_version_ok n w id o o' :
  life_inv n w -> store w !! id = Some o -> order_id o' = id -> order_version o' = order_version o ->
  version_ok (store w) o'.
Proof. intros Hw Ho Hid Hv. unfold version_ok. cbn. by rewrite Hid, Ho. Qed.

Lemma add_served n w c :
  records_events -> uuids_in_range -> life_inv n w -> 0 <= n < u64_max ->
  exists a w', router never_e commands (PostItems c) w = (Some a, w') /\ served n w (PostItems c) a w'.
Proof.
  intros Hrec Hran Hw Hn. cbn [router]. unfold add_item, CommandHandlerState_dispatch, pbind, mmap.
  cbn [INTERNAL_ONLY AddItem_command]. unfold dispatch. cbn [validate_input AddItem_command].
  destruct (garde_violations c) as [|v vs] eqn:Eg.
  2:{ eexists _, w. split; [reflexivity|]. apply served_refused; try done. cbn. by rewrite Eg. }
  unfold mmap, catch_unwind, mmap, OrderHandlers_handle_add, ptbind, bind, ret.
  destruct (load_spec (ai_order_id c) w) as (w1 & -> & Fs & Fl).
  destruct (store w !! ai_order_id c) as [o|] eqn:Eo.
  2:{ eexists _, w1. split; [reflexivity|]. apply served_refused; try done. cbn. by rewrite Eg, Eo. }
  destruct (life_stored n w Hw _ o Eo) as (Hr & Hoid & Hp & Hit & Hver).
  destruct (Quantity_new (ai_quantity c)) as [q|e] eqn:Eq.
  2:{ assert (exists m, e = Validation m) as [m ->]
        by (unfold Quantity_new in Eq; destruct (_ =? 0); by simplify_eq; eauto).
      eexists _, w1. split; [reflexivity|]. apply served_refused; try done.
      cbn. by rewrite Eg, Eo, Eq. }
  destruct (Money_brl (ai_unit_price_reais c)) as [p|e] eqn:Ep.
  2:{ assert (exists m, e = Validation m) as [m ->]
        by (unfold Money_brl in Ep; destruct (_ || _); by simplify_eq; eauto).
      eexists _, w1. split; [reflexivity|]. apply served_refused; try done.
      cbn. by rewrite Eg, Eo, Eq, Ep. }
  assert (Hbrl : currency p = "BRL")
    by (unfold Money_brl in Ep; destruct (_ || _); by simplify_eq).
  assert (Hq : quantity_0 q <> 0)
    by (unfold Quantity_new in Eq; destruct (Z.eqb_spec (ai_quantity c) 0); by simplify_eq).
  unfold Order_add_item, Order_ensure_draft, bind, ret.
  destruct (decide (order_status o = Draft)) as [Hd|Hnd].
  2:{ eexists _, w1. split; [reflexivity|]. apply served_refused; try done.
      cbn. rewrite Eg, Eo, Eq, Ep. cbn. by rewrite decide_False. }
  destruct (env_frame w1) as (F1 & F2 & _). destruct (uuid_now_v7 w1) as [iid w2]. cbn in F1, F2.
  destruct (env_frame w2) as (_ & _ & F3 & F4). destruct (utc_now w2) as [now w3]. cbn in F3, F4.
  cbn [fst snd]. set (o' := mkOrder _ _ _ _ _ _).
  set (ev := ItemAdded (uuid_to_string (order_id o)) iid (ai_description c) (quantity_0 q) (cents p) now).
  assert (Hs3 : store w3 = store w) by congruence. assert (Hl3 : log w3 = log w) by congruence.
  assert (Hv : version_ok (store w) o') by (by eapply stored_version_ok).
  unfold saved_then, pbind.
  destruct (save_publish_ok o' ev w3 Hrec) as (a & w4 & -> & Hs & Hl);
    [cbn; by rewrite Hp|by rewrite Hs3|].
  rewrite Hs3 in Hs. rewrite Hl3 in Hl. eexists _, w4. split; [reflexivity|]. split; [|split].
  - eapply (life_advance n w w4 o' ev); try done.
    + cbn. by rewrite Hoid.
    + cbn. apply Forall_app. split; [done|]. by repeat constructor.
    + cbn. rewrite Hoid, Eo. unfold order_view. cbn. rewrite Hd. cbn. rewrite decide_False by done.
      destruct q, p. cbn in *. by subst.
  - cbn. rewrite Eg, Eo, Eq, Ep. cbn. by rewrite decide_True.
  - cbn. by exists ev.
Qed.

Lemma confirm_served n w c :
  records_events -> life_inv n w -> 0 <= n < u64_max ->
  exists a w', router never_e commands (PostConfirm c) w = (Some a, w')
    /\ served n w (PostConfirm c) a w'.
Proof.
  intros Hrec Hw Hn. cbn [router]. unfold confirm_order, CommandHandlerState_dispatch, pbind, mmap.
  cbn [INTERNAL_ONLY ConfirmOrder_command Command_default]. unfold dispatch.
  cbn [validate_input ConfirmOrder_command Command_default].
  unfold mmap, catch_unwind, mmap, OrderHandlers_handle_confirm, ptbind, bind, ret.
  destruct (load_spec (cf_order_id c) w) as (w1 & -> & Fs & Fl).
  destruct (store w !! cf_order_id c) as [o|] eqn:Eo.
  2:{ eexists _, w1. split; [reflexivity|]. apply served_refused; try done. cbn. by rewrite Eo. }
  destruct (life_stored n w Hw _ o Eo) as (Hr & Hoid & Hp & Hit & Hver).
  unfold Order_confirm, Order_ensure_draft, bind, ret.
  destruct (decide (order_status o = Draft)) as [Hd|Hnd].
  2:{ eexists _, w1. split; [reflexivity|]. apply served_refused; try done.
      cbn. rewrite Eo. cbn. by destruct (order_items o), (order_status o). }
  destruct (order_items o) as [|i items] eqn:Ei.
  { eexists _, w1. split; [reflexivity|]. apply served_refused; try done. cbn. rewrite Eo. cbn.
    by rewrite Ei. }
  rewrite <- Ei in *. rewrite (Order_total_spec o Hit).
  destruct (env_frame w1) as (_ & _ & F3 & F4). destruct (utc_now w1) as [now w2]. cbn in F3, F4.
  cbn [fst snd]. set (o' := Order_raise _ _).
  set (ev := OrderConfirmed (uuid_to_string (order_id o)) (items_total (order_items o)) now).
  assert (Hs2 : store w2 = store w) by congruence. assert (Hl2 : log w2 = log w) by congruence.
  assert (Hv : version_ok (store w) o') by (by eapply stored_version_ok).
  unfold saved_then, pbind.
  destruct (save_publish_ok o' ev w2 Hrec) as (a & w3 & -> & Hs & Hl);
    [cbn; by rewrite Hp|by rewrite Hs2|].
  rewrite Hs2 in Hs. rewrite Hl2 in Hl. eexists _, w3. split; [reflexivity|]. split; [|split].
  - eapply (life_advance n w w3 o' ev); try done.
    + cbn. by rewrite Hoid.
    + cbn. rewrite Hoid, Eo. unfold order_view. cbn. rewrite Hd. cbn.
      rewrite decide_True by (split; [by rewrite Ei|done]). done.
  - cbn. rewrite Eo. cbn. by rewrite Ei, Hd.
  - cbn. by exists ev.
Qed.

Lemma total_served n w q :
  life_inv n w ->
  router never_e commands (GetTotal q) w
  = (Some (ATotal ((fun o => items_total (order_items o)) <$> store w !! gt_order_id q)), w).
Proof.
  intros Hw. cbn [router]. unfold order_total, QueryHandlerState_dispatch, query_dispatch, mmap,
    GetOrderTotalHandler_handle, bind, ret. cbn. fold (store w).
  destruct (store w !! gt_order_id q) as [o|] eqn:Eo; [|done]. cbn.
  destruct (life_stored n w Hw _ o Eo) as (_ & _ & _ & Hit & _). by rewrite Order_total_spec.
Qed.

Lemma router_served n w r :
  records_events -> uuids_in_range -> life_inv n w -> 0 <= n < u64_max ->
  exists a w', router never_e commands r w = (Some a, w') /\ served n w r a w'.
Proof.
  intros Hrec Hran Hw Hn. destruct r as [|c|c|c|q].
  - exists (ATextOk "ok"), w. split; [done|]. by apply served_refused.
  - by apply create_served.
  - by apply add_served.
  - by apply confirm_served.
  - eexists _, w. split; [by eapply total_served|]. by apply served_refused.
Qed.

(** Requests one after the other; [None] when one panicked. *)
Fixpoint serve (rs : list Request) : M W (option (list Answer)) :=
  match rs with
  | [] => ret (Some [])
  | r :: rs =>
      live! a <- router never_e commands r;
      live! answers <- serve rs;
      ret (Some (a :: answers))
  end.

(** The commands that were answered with a success. *)
Definition accepted (rs : list Request) (answers : list Answer) : nat :=
  length (filter (fun ra => writes ra.1 && (status_of ra.2 <? 300) = true) (zip rs answers)).

Lemma serve_spec rs n w :
  records_events -> uuids_in_range -> life_inv n w -> 0 <= n ->
  n + Z.of_nat (length rs) <= u64_max ->
  exists answers w', serve rs w = (Some answers, w') /\ life_inv (n + Z.of_nat (length rs)) w'
    /\ length (log w') = (length (log w) + accepted rs answers)%nat.
Proof.
  intros Hrec Hran. revert n w. induction rs as [|r rs IH]; intros n w Hw Hn Hlen.
  { exists [], w. cbn. by rewrite Z.add_0_r, Nat.add_0_r. }
  cbn [length] in Hlen. destruct (router_served n w r Hrec Hran Hw) as (a & w1 & E1 & Hw1 & _ & Hl1); [lia|].
  destruct (IH (n + 1) w1 Hw1) as (answers & w2 & E2 & Hw2 & Hl2); [lia|lia|].
  exists (a :: answers), w2. cbn [serve]. unfold pbind, ret. rewrite E1, E2. split; [done|].
  split; [by replace (n + Z.of_nat (length (r :: rs))) with (n + 1 + Z.of_nat (length rs)) by (cbn; lia)|].
  rewrite Hl2. unfold accepted. cbn [zip zip_with]. rewrite filter_cons. cbn [fst snd].
  destruct (writes r && (status_of a <? 300)).
  - destruct Hl1 as [ev ->]. rewrite decide_True, length_app by done. cbn. lia.
  - destruct Hl1 as [_ ->]. rewrite decide_False by done. done.
Qed.
End Life.
Arguments serve {W _ _ _ _} _ _ _.

(** ** Properties *)

(** C12: an order is what its published events say.  Starting with no order,
    any sequence of HTTP requests (fewer than [2^64]) is answered without a
    panic; then every stored order is the replay of the events published
    under its identifier, and that history is legal: created once, items
    only while a draft, confirmed once, with at least one item and with the
    total its items add up to, in a [u64].  Exactly one event is published
    per accepted command, none for a refused one. *)
Theorem orders_are_their_events {W : Type} `{!Env W, !Tracing W, !GardeAddItem,
  !Lens W (InMemoryRepository OrderId Order), !LensLaws W (InMemoryRepository OrderId Order),
  !EnvFrame W (InMemoryRepository OrderId Order), !Lens W Published, !EnvFrame W Published,
  !LensDisjoint W (InMemoryRepository OrderId Order) Published}
  (commands : OrderHandlers W) (rs : list Request) (w : W)
  (Hrec : records_events commands) (Huuid : uuids_in_range (W := W))
  (Hstore : repo_store (lget w) = ∅) (Hlog : published_events (lget w) = [])
  (Hlen : Z.of_nat (length rs) <= u64_max) :
  exists answers w', serve commands rs w = (Some answers, w')
    /\ (forall id, uuid_range id ->
          phase_of (repo_store (lget w') !! id) = replay id (published_events (lget w')))
    /\ length (published_events (lget w')) = accepted rs answers.
Proof.
  destruct (serve_spec commands rs 0 w Hrec Huuid) as (answers & w' & E & [_ Hrep] & Hl); try lia.
  { split.
    - intros id o. rewrite Hstore. by rewrite lookup_empty.
    - intros id _. by rewrite Hstore, Hlog, lookup_empty. }
  exists answers, w'. split; [done|]. split; [by intros id Hid; rewrite Hrep|].
  rewrite Hl, Hlog. done.
Qed.

(** The only request answered with 500 is a new order whose fresh identifier
    is taken already. *)
Lemma spec_status_500 `{!GardeAddItem} (orders : gmap OrderId Order) (fresh : Uuid) (r : Request) :
  let status := spec_status (fun id => phase_of (orders !! id)) fresh r in
  status ∈ [200; 204; 400; 404; 409; 422; 500]
  /\ (status = 500 <-> (exists c, r = PostOrders c) /\ is_Some (orders !! fresh)).
Proof.
  assert (Hno : forall x : Z, x ∈ [200; 204; 400; 404; 409; 422] ->
    x ∈ [200; 204; 400; 404; 409; 422; 500] /\ x <> 500).
  { intros x Hx. split; [set_solver|]. intros ->. by apply (bool_decide_unpack (500 ∉ [200; 204; 400; 404; 409; 422])) in Hx. }
  destruct r as [|c|c|c|q]; cbn.
  2:{ destruct (orders !! fresh); cbn; (split; [set_solver|]).
      - split; eauto.
      - split; [done|]. intros [_ []]. done. }
  all: match goal with |- ?x ∈ _ /\ _ =>
    assert (x ∈ [200; 204; 400; 404; 409; 422]) as [Hin Hne]%Hno
      by (unfold phase_of; repeat case_match; congruence || set_solver) end.
  all: split; [exact Hin|]; split; [done|]; intros [[c' Hc] _]; discriminate Hc.
Qed.


(** The total is exact as long as the exact price fits a [u64]. *)
Theorem order_total_exact (o : Order) :
  Forall brl_item (order_items o) ->
  Forall (fun i => 0 <= cents (item_unit_price i) /\ 0 <= quantity_0 (item_quantity i))
    (order_items o) ->
  items_price (order_items o) <= u64_max ->
  Order_total o = Ok (Money_from_cents (items_price (order_items o))).
Proof.
  intros Hbrl Hall Hle. rewrite Order_total_spec by done. do 2 f_equal. apply Z.mod_small.
  clear Hbrl. revert Hall Hle. generalize (order_items o) as items. intros items Hall Hle.
  split; [clear Hle|unfold u64_max in Hle; lia].
  induction Hall as [|i items [? ?] _ IH]; cbn; [lia|]. unfold items_price in IH. nia.
Qed.

(** ** A small world

    Numbered identifiers, no clock, the repository and the log of a handler
    registered after the two of [main]. *)

Record OrderWorld := mkOrderWorld {
  ow_next : Z;
  ow_repo : InMemoryRepository OrderId Order;
  ow_log : Published;
}.

#[local] Instance ow_env : Env OrderWorld := {
  utc_now w := (0, w);
  uuid_now_v7 w := (ow_next w mod 2 ^ 128, mkOrderWorld (ow_next w + 1) (ow_repo w) (ow_log w));
  fastrand_f64 w := (S754_zero false, w);
}.
#[local] Instance ow_repo_lens : Lens OrderWorld (InMemoryRepository OrderId Order) := {
  lget := ow_repo;
  lset r w := mkOrderWorld (ow_next w) r (ow_log w);
}.
#[local] Instance ow_log_lens : Lens OrderWorld Published := {
  lget := ow_log;
  lset l w := mkOrderWorld (ow_next w) (ow_repo w) l;
}.
#[local] Instance ow_repo_laws : LensLaws OrderWorld (InMemoryRepository OrderId Order).
Proof. by split; intros; destruct_all OrderWorld. Qed.
#[local] Instance ow_repo_frame : EnvFrame OrderWorld (InMemoryRepository OrderId Order).
Proof. by split. Qed.
#[local] Instance ow_log_frame : EnvFrame OrderWorld Published.
Proof. by split. Qed.
#[local] Instance ow_disjoint : LensDisjoint OrderWorld (InMemoryRepository OrderId Order) Published.
Proof. by split. Qed.
#[local] Instance ow_tracing : Tracing OrderWorld := { tracing_error _ _ := ret tt }.
#[local] Instance ow_info : TracingInfo OrderWorld := { tracing_info _ _ := ret tt }.

(** garde's rules of [AddItem], with the length in bytes. *)
#[local] Instance ow_garde : GardeAddItem := {
  garde_violations c :=
    (if (1 <=? String.length (ai_description c))%nat && (String.length (ai_description c) <=? 255)%nat
     then [] else [mkFieldViolation "description" "length is out of range"]) ++
    (if 1 <=? ai_quantity c then [] else [mkFieldViolation "quantity" "lower than 1"]) ++
    (if f64_ltb (ai_unit_price_reais c) (S754_finite false 5764607523034235 (-59))
     then [mkFieldViolation "unit_price_reais" "lower than 0.01"] else []);
}.

Definition recorder : EventHandler OrderWorld OrderEventType :=
  mkEventHandler OrderEventType "recorder" (fun e w =>
    (Some (Ok tt), mkOrderWorld (ow_next w) (ow_repo w)
                     (mkPublished (published_events (ow_log w) ++ [e])))).

Definition order_commands : OrderHandlers OrderWorld :=
  commands_from_ref (in_memory_state (EventBus_register OrderEventType recorder main_bus)).

Definition ow_start : OrderWorld := mkOrderWorld 1 (mkInMemoryRepository ∅) (mkPublished []).

Lemma order_commands_record : records_events order_commands.
Proof.
  intros ev [n repo [l]].
  exists (mkOrderWorld n repo (mkPublished (l ++ [ev]))). split; [|by split].
  destruct ev; vm_compute; reflexivity.
Qed.

Lemma ow_uuids : uuids_in_range (W := OrderWorld).
Proof. intros w. apply Z.mod_pos_bound. lia. Qed.

Definition reais (z : Z) : f64 := f64_of_Z z.

Definition order_requests : list Request :=
  [PostOrders (mkCreateOrder 77);
   PostConfirm (mkConfirmOrder 1);
   PostItems (mkAddItem 1 "Keyboard" 2 (reais 350));
   PostItems (mkAddItem 1 "" 0 (reais 0));
   PostItems (mkAddItem 9 "Mouse" 1 (reais 50));
   GetTotal (mkGetOrderTotal 1);
   PostConfirm (mkConfirmOrder 1);
   PostItems (mkAddItem 1 "Mouse" 1 (reais 50));
   GetTotal (mkGetOrderTotal 8)].

Lemma orders_are_their_events_witness :
  exists answers w', serve order_commands order_requests ow_start = (Some answers, w')
    /\ status_of <$> answers = [200; 409; 204; 422; 404; 200; 204; 409; 200]
    /\ (forall id, uuid_range id ->
          phase_of (repo_store (lget w') !! id) = replay id (published_events (lget w')))
    /\ length (published_events (lget w')) = 3%nat.
Proof.
  destruct (orders_are_their_events order_commands order_requests ow_start order_commands_record
              ow_uuids) as (answers & w' & E & Hrep & Hl); [reflexivity|reflexivity|vm_compute; discriminate|].
  exists answers, w'. split; [exact E|].
  assert (Ha : Some answers = (serve order_commands order_requests ow_start).1) by (by rewrite E).
  split; [|split; [exact Hrep|rewrite Hl]]; vm_compute in Ha; injection Ha as ->;
    vm_compute; reflexivity.
Defined.


(** Past a [u64] the money wraps: two units at the price that rounds to
    [2^63] cents make an order of 0 cents, which every check lets through and
    which is confirmed with a total of 0. *)
Theorem order_total_wraps :
  let rs := [PostOrders (mkCreateOrder 77);
             PostItems (mkAddItem 1 "Yacht" 2 (reais 92233720368547760));
             GetTotal (mkGetOrderTotal 1);
             PostConfirm (mkConfirmOrder 1)] in
  let run := serve order_commands rs ow_start in
  match run.1 with
  | Some answers => status_of <$> answers = [200; 204; 200; 204]
                    /\ answers !! 2%nat = Some (ATotal (Some 0))
  | None => False
  end
  /\ last (published_events (lget run.2)) = Some (OrderConfirmed (uuid_to_string 1) 0 0).
Proof. vm_compute. split_and!; reflexivity. Qed.

(** A conflicting write is a [ConcurrencyConflict] of the repository; the
    handlers fold it into [AppError::Infra], and the client reads 500. *)
Theorem stale_order_write_is_500 :
  let o := Order_rehydrate 1 3 77 [] Draft in
  let stale := Order_raise (OrderCancelled (uuid_to_string 1) "late" 0) (Order_rehydrate 1 2 77 [] Draft) in
  let w := mkOrderWorld 2 (mkInMemoryRepository {[1 := o]}) (mkPublished []) in
  (fun r => answer_with (fun _ => AStatus 204)
     (map_err (fun e => ApiError_from_dispatch (DispatchHandler e)) r))
    <$> (saved_then never_e order_commands stale tt w).1
  = Some (AError (mkResponse 500
      ("infrastructure: " +:+ ApplicationError_to_string (AppConflict 2 (Some 3))))).
Proof. vm_compute. reflexivity. Qed.
