(* ===== verification/Monolith.v ===== *)
(** * Monolith: two bounded contexts on one event bus

    Models examples/modular-monolith/src: the orders context (orders.rs), the
    billing context (billing.rs) and the composition root (lib.rs), over the
    in-memory repositories and the event bus of [EventBus].  An amount is an
    [i64] that is only passed on. *)

From S2P Require Import Prelude Core Messaging EventBus UnitOfWork AggregateStore.
Local Open Scope Z_scope.

Module Monolith.

(** ** The orders context (orders.rs) *)

Record OrderPlaced := mkOrderPlaced {
  op_order_id : string;
  op_customer : string;
  op_total_cents : Z;
  op_occurred_at : Instant;
}.

Record Order := mkOrder {
  or_id : string;
  or_customer : string;
  or_total_cents : Z;
  or_version : Z;
  or_events : AggregateEvents OrderPlaced;
}.

Definition Order_place {W} `{!Env W} (id customer : string) (total_cents : Z) : M W Order :=
  do! now <- utc_now;
  ret (mkOrder id customer total_cents 0
         (AggregateEvents_raise (mkOrderPlaced id customer total_cents now) AggregateEvents_default)).

(** ** The billing context (billing.rs) *)

Record InvoiceIssued := mkInvoiceIssued {
  ii_invoice_id : string;
  ii_order_id : string;
  ii_amount_cents : Z;
  ii_occurred_at : Instant;
}.

Record Invoice := mkInvoice {
  in_id : string;
  in_order_id : string;
  in_amount_cents : Z;
  in_version : Z;
  in_events : AggregateEvents InvoiceIssued;
}.

Definition Invoice_issue {W} `{!Env W} (id order_id : string) (amount_cents : Z) : M W Invoice :=
  do! now <- utc_now;
  ret (mkInvoice id order_id amount_cents 0
         (AggregateEvents_raise (mkInvoiceIssued id order_id amount_cents now)
            AggregateEvents_default)).

#[export] Instance Invoice_root : AggregateRoot Invoice string InvoiceIssued := {
  agg_id := in_id;
  pending_events i := pending (in_events i);
  drain_events i :=
    let '(es, b) := AggregateEvents_drain (in_events i) in
    (es, mkInvoice (in_id i) (in_order_id i) (in_amount_cents i) (in_version i) b);
  restore_events es i :=
    mkInvoice (in_id i) (in_order_id i) (in_amount_cents i) (in_version i)
      (AggregateEvents_restore es (in_events i));
  version := in_version;
  set_version v i := mkInvoice (in_id i) (in_order_id i) (in_amount_cents i) v (in_events i);
}.

Inductive BillingError := Persist (e : string).

Definition BillingError_to_string (e : BillingError) : string :=
  match e with Persist e => "failed to persist invoice: " +:+ e end.

Definition issue_invoice {W E} `{!Env W, !Repository W Invoice string E} (display_e : E -> string)
  (order_id : string) (amount_cents : Z) : M W (result Invoice BillingError) :=
  do! invoice <- Invoice_issue ("inv-" +:+ order_id) order_id amount_cents;
  do! saved <- repo_save invoice;
  let '(r, invoice) := saved in
  ret (res! _ <- map_err (fun e => Persist (RepositoryError_to_string display_e e)) r; Ok invoice).

(** ** The composition root (lib.rs) *)

(** The events that travel on the bus. *)
Inductive BusTypes := TOrderPlaced.

#[export] Instance BusTypes_eq_dec : EqDecision BusTypes.
Proof. solve_decision. Defined.
#[export] Instance BusTypes_countable : Countable BusTypes.
Proof. apply (inj_countable' (fun _ => tt) (fun _ => TOrderPlaced)). by intros []. Defined.

#[export] Instance BusTypes_events : EventTypes BusTypes := {
  carrier _ := OrderPlaced;
  event_type _ _ := "OrderPlaced";
  aggregate_id _ := op_order_id;
}.

#[export] Instance Order_root : AggregateRoot Order string (carrier TOrderPlaced) := {
  agg_id := or_id;
  pending_events o := pending (or_events o);
  drain_events o :=
    let '(es, b) := AggregateEvents_drain (or_events o) in
    (es, mkOrder (or_id o) (or_customer o) (or_total_cents o) (or_version o) b);
  restore_events es o :=
    mkOrder (or_id o) (or_customer o) (or_total_cents o) (or_version o)
      (AggregateEvents_restore es (or_events o));
  version := or_version;
  set_version v o := mkOrder (or_id o) (or_customer o) (or_total_cents o) v (or_events o);
}.

(** The two repositories of [Monolith], behind its [Arc]s. *)
Abbreviation MonolithWorld :=
  (World (InMemoryRepository string Order * InMemoryRepository string Invoice)) (only parsing).

Definition never_e (e : InMemoryRepoError) : string := match e with RepoNever => "" end.

Definition IssueInvoiceOnOrderPlaced_handle (event : OrderPlaced)
  : M MonolithWorld (option (result unit string)) :=
  do! r <- issue_invoice never_e (op_order_id event) (op_total_cents event);
  ret (Some (map_err BillingError_to_string (res! _ <- r; Ok tt))).

Definition IssueInvoiceOnOrderPlaced : EventHandler MonolithWorld TOrderPlaced :=
  mkEventHandler (W := MonolithWorld) TOrderPlaced "IssueInvoiceOnOrderPlaced"
    IssueInvoiceOnOrderPlaced_handle.

(** [Monolith::new]: the bus, and the repositories it starts with. *)
Definition Monolith_bus : EventBus MonolithWorld BusTypes :=
  EventBus_register TOrderPlaced IssueInvoiceOnOrderPlaced EventBus_new.

Definition Monolith_new (env : EnvState) : MonolithWorld :=
  mkWorld env (mkInMemoryRepository ∅, mkInMemoryRepository ∅).

Definition place_order (id customer : string) (total_cents : Z)
  : M MonolithWorld (option (result unit ApplicationError)) :=
  do! order <- Order_place id customer total_cents;
  live! saved <- save_and_publish (t := TOrderPlaced) never_e Monolith_bus order;
  ret (Some saved.1).

Definition invoice_for (order_id : string) : M MonolithWorld (option Invoice) :=
  do! r <- find_by_id (A := Invoice) ("inv-" +:+ order_id);
  ret (match r with Ok found => found | Err _ => None end).

(** The demo of [main]: the order and amount it prints. *)
Definition main : M MonolithWorld (option (result (option (string * Z)) ApplicationError)) :=
  await! _ <- place_order "order-1" "Ada Lovelace" 4200;
  do! invoice <- invoice_for "order-1";
  ret (Some (Ok ((fun i => (in_order_id i, in_amount_cents i)) <$> invoice))).

(** ** Orders and invoices stay in step *)

Definition orders_in (w : MonolithWorld) : gmap string Order := repo_store (w_stores w).1.
Definition invoices_in (w : MonolithWorld) : gmap string Invoice := repo_store (w_stores w).2.

(** The order book: the first placement under an identifier stands. *)
Abbreviation Book := (gmap string (string * Z)) (only parsing).

Definition book_place (id customer : string) (total : Z) (b : Book)
  : result unit ApplicationError * Book :=
  match b !! id with
  | Some _ => (Err (AppConflict 0 (Some 1)), b)
  | None => (Ok tt, <[id := (customer, total)]> b)
  end.

Definition order_of (id : string) (entry : string * Z) : Order :=
  mkOrder id entry.1 entry.2 1 AggregateEvents_default.
Definition invoice_of (id : string) (entry : string * Z) : Invoice :=
  mkInvoice ("inv-" +:+ id) id entry.2 1 AggregateEvents_default.

(** Both contexts hold exactly the book. *)
Definition in_step (b : Book) (w : MonolithWorld) : Prop :=
  (forall id, orders_in w !! id = order_of id <$> b !! id)
  /\ (forall id, invoices_in w !! ("inv-" +:+ id) = invoice_of id <$> b !! id).

(** Publishing an order is running the billing subscriber. *)
Lemma publish_runs_billing (ev : OrderPlaced) (w : MonolithWorld) :
  EventBus_publish Monolith_bus TOrderPlaced ev w
  = let '(o, w') := IssueInvoiceOnOrderPlaced_handle ev w in
    (map_err (HandlerError "OrderPlaced") <$> o, w').
Proof.
  unfold EventBus_publish.
  change (handlers Monolith_bus !! TOrderPlaced)
    with (Some [HandlerWrapper TOrderPlaced IssueInvoiceOnOrderPlaced]).
  unfold deliver_to, prbind, pbind. cbn [call_handlers error_policy Monolith_bus]. unfold pbind.
  cbn [handler_call HandlerWrapper]. unfold HandlerWrapper_call, downcast_ref.
  cbn [any_type]. rewrite decide_True_pi with (HP := eq_refl) || cbn. unfold pbind, ret. cbn.
  destruct (IssueInvoiceOnOrderPlaced_handle ev w) as [[[u|e]|] w']; [by destruct u|done|done].
Qed.

#[local] Arguments save_checked : simpl never.
#[local] Arguments EventBus_publish : simpl never.

Lemma place_order_in_step id customer total b (w : MonolithWorld) :
  in_step b w ->
  exists w', place_order id customer total w = (Some (book_place id customer total b).1, w')
             /\ in_step (book_place id customer total b).2 w'.
Proof.
  destruct w as [env [[ords] [invs]]]. intros [Ho Hi]. cbn in Ho, Hi.
  unfold place_order, Order_place, pbind, bind, ret, save_and_publish, bind. cbn.
  unfold InMemoryRepository_save, bind, mget. cbn.
  pose proof (Ho id) as Hid. pose proof (Hi id) as Hinv. unfold book_place.
  destruct (b !! id) as [entry|]; cbn in Hid, Hinv.
  - rewrite save_checked_conflict by (unfold version_ok; cbn; by rewrite Hid). cbn.
    rewrite Hid. cbn. eexists. split; [reflexivity|]. by split.
  - rewrite save_checked_ok by (unfold version_ok; cbn; by rewrite Hid). cbn.
    unfold pbind. rewrite publish_runs_billing. unfold IssueInvoiceOnOrderPlaced_handle, issue_invoice, Invoice_issue, bind, ret. cbn.
    unfold InMemoryRepository_save, bind, mget. cbn.
    rewrite save_checked_ok by (unfold version_ok; cbn; by rewrite Hinv). cbn.
    eexists. split; [reflexivity|]. split; intros i; cbn.
    + destruct (decide (id = i)) as [<-|Hne].
      * by rewrite !lookup_insert_eq.
      * by rewrite !lookup_insert_ne.
    + destruct (decide (id = i)) as [<-|Hne].
      * by rewrite !lookup_insert_eq.
      * rewrite !lookup_insert_ne; [done|done|]. intros Heq. by injection Heq.
Qed.

(** The placements [ps], one after the other, with their answers. *)
Fixpoint place_all (ps : list (string * string * Z))
  : M MonolithWorld (option (list (result unit ApplicationError))) :=
  match ps with
  | [] => ret (Some [])
  | (id, customer, total) :: ps =>
      live! r <- place_order id customer total;
      live! rs <- place_all ps;
      ret (Some (r :: rs))
  end.

Fixpoint book_all (ps : list (string * string * Z)) (b : Book)
  : list (result unit ApplicationError) * Book :=
  match ps with
  | [] => ([], b)
  | (id, customer, total) :: ps =>
      let '(r, b) := book_place id customer total b in
      let '(rs, b) := book_all ps b in
      (r :: rs, b)
  end.

Lemma place_all_in_step ps b (w : MonolithWorld) :
  in_step b w ->
  exists w', place_all ps w = (Some (book_all ps b).1, w') /\ in_step (book_all ps b).2 w'.
Proof.
  revert b w. induction ps as [|[[id c] t] ps IH]; intros b w Hw; [by exists w|].
  cbn [place_all book_all]. unfold pbind, ret.
  destruct (place_order_in_step id c t b w Hw) as (w1 & -> & Hw1).
  destruct (book_place id c t b) as [r b1]. cbn in Hw1 |- *.
  destruct (IH b1 w1 Hw1) as (w2 & -> & Hw2).
  destruct (book_all ps b1) as [rs b2]. by exists w2.
Qed.

(** ** Property *)


Example demo_bills :
  (main (Monolith_new env_start)).1 = Some (Ok (Some ("order-1", 4200))).
Proof. vm_compute. reflexivity. Qed.
End Monolith.
