(* ===== verification/Notes.v ===== *)
(** * Notes: one repository per tenant

    Models examples/multi-tenant/src: the [Note] aggregate and its event
    (lib.rs) and [TenantNotes] with the demo (main.rs).  A repository is a
    shared store behind a reference, so working with the one [for_tenant]
    hands out is an operation of [InMemoryRepository] run inside the map. *)

From S2P Require Import Prelude Core UnitOfWork Tenancy.
Local Open Scope Z_scope.

(** ** The aggregate (lib.rs) *)

Inductive NoteEvent := NoteCreated (note_id title : string) (occurred_at : Instant).

Definition NoteEvent_event_type (e : NoteEvent) : string :=
  match e with NoteCreated _ _ _ => "NoteCreated" end.
Definition NoteEvent_occurred_at (e : NoteEvent) : Instant :=
  match e with NoteCreated _ _ t => t end.
Definition NoteEvent_aggregate_id (e : NoteEvent) : string :=
  match e with NoteCreated id _ _ => id end.

Record Note := mkNote {
  note_uuid : Uuid;
  note_title : string;
  note_body : string;
  note_version : Z;
  note_events : AggregateEvents NoteEvent;
}.

Definition Note_create {W} `{!Env W} (id : Uuid) (title body : string) : M W Note :=
  do! now <- utc_now;
  ret (mkNote id title body 0
         (AggregateEvents_raise (NoteCreated (uuid_to_string id) title now) AggregateEvents_default)).

#[export] Instance Note_root : AggregateRoot Note Uuid NoteEvent := {
  agg_id := note_uuid;
  pending_events n := pending (note_events n);
  drain_events n :=
    let '(es, b) := AggregateEvents_drain (note_events n) in
    (es, mkNote (note_uuid n) (note_title n) (note_body n) (note_version n) b);
  restore_events es n :=
    mkNote (note_uuid n) (note_title n) (note_body n) (note_version n)
      (AggregateEvents_restore es (note_events n));
  version := note_version;
  set_version v n := mkNote (note_uuid n) (note_title n) (note_body n) v (note_events n);
}.

(** ** The repositories (main.rs) *)

#[export] Instance TenantId_countable : Countable TenantId.
Proof. apply (inj_countable' tenant_uuid mkTenantId). by intros []. Defined.

Abbreviation Notebook := (InMemoryRepository Uuid Note) (only parsing).

Record TenantNotes := mkTenantNotes { by_tenant : gmap TenantId Notebook }.

Definition TenantNotes_default : TenantNotes := mkTenantNotes ∅.

(** [entry(tenant_id).or_default()] *)
Definition notebook_of (t : TenantId) (s : TenantNotes) : Notebook :=
  default (mkInMemoryRepository ∅) (by_tenant s !! t).

(** [notes.for_tenant(&tenant)] followed by a call on the repository. *)
Definition for_tenant {A} (tenant : TenantContext) (op : M Notebook A) : M TenantNotes A :=
  fun s =>
    let '(a, repo) := op (notebook_of (tenant_id tenant) s) in
    (a, mkTenantNotes (<[tenant_id tenant := repo]> (by_tenant s))).

(** The calls of the [Repository] trait. *)
Inductive NoteOp :=
| SaveNote (n : Note)
| FindNote (id : Uuid)
| DeleteNote (id : Uuid).

Inductive NoteAnswer :=
| NSaved (r : result unit (RepositoryError InMemoryRepoError)) (n : Note)
| NFound (r : result (option Note) InMemoryRepoError)
| NDeleted (r : result unit InMemoryRepoError).

Definition note_op (op : NoteOp) : M Notebook NoteAnswer :=
  match op with
  | SaveNote n => mmap (fun r => NSaved r.1 r.2) (repo_save n)
  | FindNote id => mmap NFound (find_by_id id)
  | DeleteNote id => mmap NDeleted (repo_delete (A := Note) id)
  end.

(** [main] up to its output: the two views the tenants read back. *)
Definition main : M (World TenantNotes) (result (Note * Note) string) :=
  do! acme <- mmap (mkTenantContext ∘ mkTenantId) uuid_now_v7;
  do! globex <- mmap (mkTenantContext ∘ mkTenantId) uuid_now_v7;
  do! welcome_id <- uuid_now_v7;
  do! acme_note <- Note_create welcome_id "Welcome to Acme" "Internal Acme onboarding.";
  do! saved <- zoom (for_tenant acme (repo_save acme_note));
  match saved.1 with
  | Err _ => ret (Err "save failed")
  | Ok _ =>
      do! globex_note <- Note_create welcome_id "Welcome to Globex" "Globex confidential handbook.";
      do! saved <- zoom (for_tenant globex (repo_save globex_note));
      match saved.1 with
      | Err _ => ret (Err "save failed")
      | Ok _ =>
          do! acme_view <- zoom (for_tenant acme (find_by_id welcome_id));
          match acme_view with
          | Ok (Some acme_view) =>
              do! globex_view <- zoom (for_tenant globex (find_by_id welcome_id));
              match globex_view with
              | Ok (Some globex_view) => ret (Ok (acme_view, globex_view))
              | _ => ret (Err "globex note not found")
              end
          | _ => ret (Err "acme note not found")
          end
      end
  end.

(** ** Isolation *)

(** Calls of any number of tenants, in any order, with their answers. *)
Fixpoint run_ops (ops : list (TenantContext * NoteOp)) : M TenantNotes (list (TenantContext * NoteAnswer)) :=
  match ops with
  | [] => ret []
  | (t, op) :: ops =>
      do! a <- for_tenant t (note_op op);
      do! rest <- run_ops ops;
      ret ((t, a) :: rest)
  end.

(** One tenant's calls on a repository of its own. *)
Fixpoint run_alone (ops : list NoteOp) : M Notebook (list NoteAnswer) :=
  match ops with
  | [] => ret []
  | op :: ops =>
      do! a <- note_op op;
      do! rest <- run_alone ops;
      ret (a :: rest)
  end.

Definition of_tenant {A} (t : TenantContext) (l : list (TenantContext * A)) : list A :=
  (filter (fun x => x.1 = t) l).*2.

Lemma of_tenant_cons {A} t t' (x : A) l :
  of_tenant t ((t', x) :: l) = if decide (t' = t) then x :: of_tenant t l else of_tenant t l.
Proof. unfold of_tenant. rewrite filter_cons. cbn. by destruct (decide (t' = t)). Qed.

Lemma notebook_of_insert t t' repo m :
  notebook_of t (mkTenantNotes (<[t' := repo]> m))
  = if decide (t' = t) then repo else notebook_of t (mkTenantNotes m).
Proof.
  unfold notebook_of. cbn. destruct (decide (t' = t)) as [->|].
  - by rewrite lookup_insert_eq.
  - by rewrite lookup_insert_ne.
Qed.

(** ** Properties *)

(** C15: tenants are isolated: whatever calls any number of tenants interleave
    on their notes, what one tenant is answered, and the notes it is left
    with, are what its own calls give on a repository nobody else uses. *)
Theorem tenants_isolated (ops : list (TenantContext * NoteOp)) (t : TenantContext) (s : TenantNotes) :
  let '(answers, s') := run_ops ops s in
  (of_tenant t answers, notebook_of (tenant_id t) s')
  = run_alone (of_tenant t ops) (notebook_of (tenant_id t) s).
Proof.
  revert s. induction ops as [|[t' op] ops IH]; intros s; [done|].
  cbn [run_ops]. unfold bind, ret, for_tenant.
  destruct (note_op op (notebook_of (tenant_id t') s)) as [a repo] eqn:E.
  set (s1 := mkTenantNotes _). specialize (IH s1). destruct (run_ops ops s1) as [answers s2].
  rewrite !of_tenant_cons. unfold s1 in IH. rewrite notebook_of_insert in IH.
  destruct (decide (t' = t)) as [->|Hne].
  - rewrite decide_True in IH by done. cbn [run_alone]. unfold bind, ret. rewrite E.
    destruct (run_alone (of_tenant t ops) repo) as [rest repo']. by injection IH as -> ->.
  - rewrite decide_False in IH; [by destruct s|]. intros Heq. apply Hne.
    destruct t', t. cbn in Heq. by subst.
Qed.

(** The demo's assertions hold whenever the two tenant identifiers it draws
    differ; if they were equal, the second save would be refused. *)
Theorem demo_isolated (w : World TenantNotes) :
  w_stores w = TenantNotes_default ->
  match (main w).1 with
  | Ok (acme_view, globex_view) =>
      note_title acme_view = "Welcome to Acme" /\ note_title globex_view = "Welcome to Globex"
  | Err e => uuid_at (w_env w) (drawn (w_env w)) = uuid_at (w_env w) (S (drawn (w_env w)))
             /\ e = "save failed"
  end.
Proof.
  destruct w as [e s]. cbn. intros ->. unfold main, bind, mmap, ret. cbn.
  set (a := uuid_at e (drawn e)). set (g := uuid_at e (S (drawn e))).
  set (i := uuid_at e (S (S (drawn e)))).
  unfold zoom, for_tenant, InMemoryRepository_save, InMemoryRepository_find_by_id, bind, mget, mput,
    ret, save_checked, notebook_of. cbn.
  repeat (rewrite ?lookup_empty, ?lookup_insert_eq; cbn).
  destruct (decide (a = g)) as [Heq|Hne].
  - rewrite Heq. repeat (rewrite ?lookup_empty, ?lookup_insert_eq; cbn). done.
  - assert (mkTenantId a <> mkTenantId g) by congruence.
    repeat (rewrite ?lookup_empty, ?lookup_insert_eq, ?(lookup_insert_ne _ (mkTenantId g) (mkTenantId a)),
            ?(lookup_insert_ne _ (mkTenantId a) (mkTenantId g)) by done; cbn). done.
Qed.
