(* ===== verification/Telemetry.v ===== *)
(** * Telemetry: installing and wiring the observability pipeline

    Models crates/pharos-observability/src: lib.rs ([Config], [init],
    [init_with], the guard), otel.rs ([install_provider], [sample_ratio]),
    propagation.rs ([inject], [extract], [TraceContextHeaders]) and http.rs
    ([request_span], [http_metrics], [instrument]), with the [otel] feature.

    The process globals (environment variables, the global subscriber, tracer
    provider and propagator), the exporter, the propagator and the SDK's spans
    are outside the repository: they are classes of calls, with what their
    documentation promises as laws.  [f64]'s parser is the standard library's
    and is written out. *)

From S2P Require Import Prelude Realtime Tenancy Metrics Observability Messaging AggregateStore.
Local Open Scope Z_scope.

(** ** [str::parse::<f64>]

    [Sign? (inf | infinity | nan | Number)] with [Number] digits around an
    optional point, at least one of them, and an optional exponent; the value
    is the nearest binary64, ties to even. *)

Definition is_digit (a : Ascii.ascii) : bool := (48 <=? byte_of a) && (byte_of a <=? 57).

Fixpoint take_digits (l : list Ascii.ascii) : list Ascii.ascii * list Ascii.ascii :=
  match l with
  | a :: l' => if is_digit a then let '(ds, rest) := take_digits l' in (a :: ds, rest) else ([], l)
  | [] => ([], [])
  end.

Definition digits_value (ds : list Ascii.ascii) : Z :=
  foldl (fun acc a => 10 * acc + (byte_of a - 48)) 0 ds.

Definition take_sign (l : list Ascii.ascii) : bool * list Ascii.ascii :=
  match l with
  | a :: l' => if byte_of a =? 45 then (true, l') else if byte_of a =? 43 then (false, l') else (false, l)
  | [] => (false, [])
  end.

(** [u8::to_ascii_lowercase] *)
Definition ascii_lower (a : Ascii.ascii) : Ascii.ascii :=
  if (65 <=? byte_of a) && (byte_of a <=? 90) then Ascii.ascii_of_nat (Z.to_nat (byte_of a + 32)) else a.

Definition take_exponent (l : list Ascii.ascii) : option Z :=
  match l with
  | [] => Some 0
  | a :: l' =>
      if byte_of (ascii_lower a) =? 101 then
        let '(neg, l'') := take_sign l' in
        match take_digits l'' with
        | ([], _) | (_, _ :: _) => None
        | (ds, []) => Some (if neg then - digits_value ds else digits_value ds)
        end
      else None
  end.

(** [m * 10^e], rounded once. *)
Definition f64_of_decimal (neg : bool) (m e : Z) : f64 :=
  match m with
  | Z.pos p =>
      if 0 <=? e then binary_normalize 53 1024 (f64_signed neg p * 10 ^ e) 0 neg
      else match 10 ^ (- e) with
           | Z.pos d => SFdiv 53 1024 (S754_finite neg p 0) (S754_finite false d 0)
           | _ => S754_nan
           end
  | _ => S754_zero neg
  end.

Definition f64_parse (s : string) : option f64 :=
  let '(neg, l) := take_sign (String.list_ascii_of_string s) in
  let word := String.string_of_list_ascii (ascii_lower <$> l) in
  if decide (word = "inf" \/ word = "infinity") then Some (S754_infinity neg)
  else if decide (word = "nan") then Some S754_nan
  else
    let '(whole, l) := take_digits l in
    let '(frac, l) := match l with
                      | a :: l' => if byte_of a =? 46 then take_digits l' else ([], l)
                      | [] => ([], [])
                      end in
    match whole ++ frac with
    | [] => None
    | ds => e ← take_exponent l;
            Some (f64_of_decimal neg (digits_value ds) (e - Z.of_nat (length frac)))
    end.

Example f64_parse_samples :
  f64_parse "0.25" = Some (S754_finite false 4503599627370496 (-54))
  /\ f64_parse "1" = Some (f64_of_Z 1) /\ f64_parse "-1e1" = Some (f64_of_Z (-10))
  /\ f64_parse "0.1" = Some (S754_finite false 7205759403792794 (-56))
  /\ f64_parse "NaN" = Some S754_nan /\ f64_parse "." = None /\ f64_parse "1e" = None
  /\ f64_parse "7" = Some (f64_of_Z 7) /\ f64_parse "not a number" = None.
Proof. vm_compute. split_and!; reflexivity. Qed.

(** ** Setting up (lib.rs, otel.rs) *)

Definition LOG_FORMAT : string := "LOG_FORMAT".
Definition ENDPOINT : string := "OTEL_EXPORTER_OTLP_ENDPOINT".
Definition SAMPLER_ARG : string := "OTEL_TRACES_SAMPLER_ARG".
Definition DEFAULT_SAMPLE_RATIO : f64 := f64_one.

Inductive ObservabilityError :=
| AlreadyInstalled (e : string)
| Exporter (e : string).

Definition ObservabilityError_to_string (e : ObservabilityError) : string :=
  match e with
  | AlreadyInstalled e => "a tracing subscriber is already installed: " +:+ e
  | Exporter e => "could not build the span exporter: " +:+ e
  end.

Inductive LogFormat := Text | Json.

#[export] Instance LogFormat_eq_dec : EqDecision LogFormat.
Proof. solve_decision. Defined.

Record Config := mkConfig {
  service_name : string;
  default_filter : string;
  log_format : option LogFormat;
}.

(** [str::replace('-', "_")] *)
Definition dashes_to_underscores (s : string) : string :=
  String.string_of_list_ascii
    ((fun a => if byte_of a =? 45 then Ascii.ascii_of_nat 95 else a) <$> String.list_ascii_of_string s).

Definition Config_new (service_name : string) : Config :=
  mkConfig service_name (dashes_to_underscores service_name +:+ "=info,tower_http=info") None.
Definition Config_with_default_filter (directives : string) (c : Config) : Config :=
  mkConfig (service_name c) directives (log_format c).
Definition Config_with_log_format (format : LogFormat) (c : Config) : Config :=
  mkConfig (service_name c) (default_filter c) (Some format).

(** What the SDK's builder is given. *)
Record TracerProvider := mkTracerProvider {
  tp_endpoint : string;
  tp_sampled_fraction : f64;
  tp_service : string;
}.

(** The layers of the registry [try_init] installs: the two formatting layers
    with their on/off filters, the directives, and the exporting layer's
    tracer name. *)
Record Subscriber := mkSubscriber {
  sub_text : bool;
  sub_structured : bool;
  sub_filter : list Z;
  sub_otel : option (TracerProvider * string);
}.

(** The process: its environment, the OTLP exporter's builder, the globals of
    [opentelemetry] and [tracing], the provider's shutdown and the log. *)
Class Process (W : Type) : Type := {
  env_var : string -> M W (option string);
  exporter_build : string -> M W (result unit string);
  set_text_map_propagator : M W unit;
  set_tracer_provider : TracerProvider -> M W unit;
  try_init : Subscriber -> M W (result unit string);
  provider_shutdown : TracerProvider -> M W (result unit string);
  warn_flush : string -> M W unit;
}.

Record Observability := mkObservability { provider : option TracerProvider }.

Definition traces_enabled (o : Observability) : bool :=
  match provider o with Some _ => true | None => false end.

Section Setup.
Context {W : Type} `{!Process W}.

Definition LogFormat_from_env : M W LogFormat :=
  do! v <- env_var LOG_FORMAT;
  ret (match v with
       | Some s => if decide (s = "json" \/ s = "JSON") then Json else Text
       | None => Text
       end).

Definition Config_resolved_format (c : Config) : M W LogFormat :=
  match log_format c with Some f => ret f | None => LogFormat_from_env end.

(** [(0.0..=1.0).contains(&ratio)] *)
Definition in_unit_range (x : f64) : bool :=
  SFleb (S754_zero false) x && SFleb x f64_one.

Definition sample_ratio : M W f64 :=
  do! raw <- env_var SAMPLER_ARG;
  ret (default DEFAULT_SAMPLE_RATIO
         (raw ← raw; ratio ← f64_parse raw; if in_unit_range ratio then Some ratio else None)).

Definition install_provider (service_name : string)
  : M W (result (option TracerProvider) ObservabilityError) :=
  do! endpoint <- env_var ENDPOINT;
  match endpoint with
  | None | Some "" => ret (Ok None)
  | Some endpoint =>
      do! exporter <- exporter_build endpoint;
      match exporter with
      | Err e => ret (Err (Exporter e))
      | Ok _ =>
          do! ratio <- sample_ratio;
          let provider := mkTracerProvider endpoint ratio service_name in
          do! _ <- set_text_map_propagator;
          do! _ <- set_tracer_provider provider;
          ret (Ok (Some provider))
      end
  end.

Definition install (filter : list Z) (text structured : bool) (config : Config)
  : M W (result Observability ObservabilityError) :=
  try! provider <- install_provider (service_name config);
  let registry := mkSubscriber text structured filter ((fun p => (p, service_name config)) <$> provider) in
  do! installed <- try_init registry;
  match installed with
  | Err e => ret (Err (AlreadyInstalled e))
  | Ok _ => ret (Ok (mkObservability provider))
  end.

Definition build_filter (default_directives : string) : M W (list Z) :=
  do! rust_log <- env_var "RUST_LOG";
  ret (filter_directives (text_of <$> rust_log) (text_of default_directives)).

Definition init_with (config : Config) : M W (result Observability ObservabilityError) :=
  do! filter <- build_filter (default_filter config);
  do! format <- Config_resolved_format config;
  let json := bool_decide (format = Json) in
  install filter (negb json) json config.

Definition init (service_name : string) : M W (result Observability ObservabilityError) :=
  init_with (Config_new service_name).

(** [Drop], which [shutdown] also runs by consuming the guard. *)
Definition Observability_drop (o : Observability) : M W unit :=
  match provider o with
  | Some provider =>
      do! r <- provider_shutdown provider;
      match r with Err error => warn_flush error | Ok _ => ret tt end
  | None => ret tt
  end.

Definition Observability_shutdown (o : Observability) : M W unit := Observability_drop o.
End Setup.

(** *** What ends up installed *)

(** The globals of a process and its environment, which set-up only reads. *)
Record Globals := mkGlobals {
  g_env : gmap string string;
  g_propagator : bool;
  g_provider : option TracerProvider;
  g_subscriber : option Subscriber;
  g_shut : list TracerProvider;
}.

(** The calls as their documentation has them: reading a variable changes
    nothing, a setter replaces its global, a second subscriber is refused;
    building an exporter, flushing and logging leave the globals alone. *)
Class ProcessLaws (W : Type) `{!Process W} (globals : W -> Globals) : Prop := {
  env_var_spec k w : (env_var k w).1 = g_env (globals w) !! k /\ globals (env_var k w).2 = globals w;
  exporter_build_spec e w : globals (exporter_build e w).2 = globals w;
  set_propagator_spec w : globals (set_text_map_propagator w).2
    = mkGlobals (g_env (globals w)) true (g_provider (globals w)) (g_subscriber (globals w))
        (g_shut (globals w));
  set_provider_spec p w : globals (set_tracer_provider p w).2
    = mkGlobals (g_env (globals w)) (g_propagator (globals w)) (Some p) (g_subscriber (globals w))
        (g_shut (globals w));
  try_init_spec s w :
    match g_subscriber (globals w) with
    | Some _ => exists e, (try_init s w).1 = Err e /\ globals (try_init s w).2 = globals w
    | None => (try_init s w).1 = Ok tt /\ globals (try_init s w).2
        = mkGlobals (g_env (globals w)) (g_propagator (globals w)) (g_provider (globals w)) (Some s)
            (g_shut (globals w))
    end;
  shutdown_spec p w : globals (provider_shutdown p w).2
    = mkGlobals (g_env (globals w)) (g_propagator (globals w)) (g_provider (globals w))
        (g_subscriber (globals w)) (g_shut (globals w) ++ [p]);
  warn_flush_spec e w : globals (warn_flush e w).2 = globals w;
}.

(** The configuration a set-up reads from an environment. *)
Definition env_endpoint (env : gmap string string) : option string :=
  match env !! ENDPOINT with Some "" => None | o => o end.
Definition env_ratio (env : gmap string string) : f64 :=
  default DEFAULT_SAMPLE_RATIO
    (raw ← env !! SAMPLER_ARG; ratio ← f64_parse raw; if in_unit_range ratio then Some ratio else None).

(** The fraction [x] of traces an environment asks for: the number between 0
    and 1 that the variable spells, or all of them when it spells none. *)
Definition ratio_for (env : gmap string string) (x : f64) : Prop :=
  (exists raw, env !! SAMPLER_ARG = Some raw /\ f64_parse raw = Some x
     /\ SFleb (S754_zero false) x = true /\ SFleb x f64_one = true)
  \/ x = f64_one /\ forall raw y, env !! SAMPLER_ARG = Some raw -> f64_parse raw = Some y ->
       ~ (SFleb (S754_zero false) y = true /\ SFleb y f64_one = true).

Definition env_json (c : Config) (env : gmap string string) : bool :=
  match log_format c with
  | Some f => bool_decide (f = Json)
  | None => bool_decide (env !! LOG_FORMAT = Some "json" \/ env !! LOG_FORMAT = Some "JSON")
  end.
Definition env_provider (c : Config) (env : gmap string string) : option TracerProvider :=
  (fun e => mkTracerProvider e (env_ratio env) (service_name c)) <$> env_endpoint env.
Definition env_subscriber (c : Config) (env : gmap string string) : Subscriber :=
  let json := env_json c env in
  mkSubscriber (negb json) json
    (filter_directives (text_of <$> env !! "RUST_LOG") (text_of (default_filter c)))
    ((fun p => (p, service_name c)) <$> env_provider c env).

(** Installing the provider registers it and the propagator, or nothing. *)
Definition with_provider (p : option TracerProvider) (g : Globals) : Globals :=
  match p with
  | Some p => mkGlobals (g_env g) true (Some p) (g_subscriber g) (g_shut g)
  | None => g
  end.

Section SetupLemmas.
Context {W : Type} `{!Process W} (globals : W -> Globals) `{!ProcessLaws W globals}.

Lemma sample_ratio_spec w :
  (sample_ratio w).1 = env_ratio (g_env (globals w)) /\ globals (sample_ratio w).2 = globals w.
Proof.
  unfold sample_ratio, bind, ret. destruct (env_var_spec SAMPLER_ARG w) as [H1 H2].
  destruct (env_var SAMPLER_ARG w) as [raw w1]. cbn in *. by subst raw.
Qed.

Lemma format_spec c w :
  bool_decide ((Config_resolved_format c w).1 = Json) = env_json c (g_env (globals w))
  /\ globals (Config_resolved_format c w).2 = globals w.
Proof.
  unfold Config_resolved_format, env_json. destruct (log_format c) as [f|]; [done|].
  unfold LogFormat_from_env, bind, ret. destruct (env_var_spec LOG_FORMAT w) as [H1 H2].
  destruct (env_var LOG_FORMAT w) as [v w1]. cbn in *. subst v. split; [|done].
  destruct (g_env (globals w) !! LOG_FORMAT) as [s|]; [|done].
  destruct (decide (s = "json" \/ s = "JSON")) as [Hs|Hs].
  - rewrite bool_decide_true, bool_decide_true by naive_solver. done.
  - rewrite bool_decide_false, bool_decide_false by naive_solver. done.
Qed.

Lemma install_provider_spec c w :
  match install_provider (service_name c) w with
  | (Err (Exporter e), w') =>
      globals w' = globals w
      /\ exists endpoint w0, env_endpoint (g_env (globals w)) = Some endpoint
           /\ globals w0 = globals w /\ (exporter_build endpoint w0).1 = Err e
  | (Err (AlreadyInstalled _), _) => False
  | (Ok p, w') =>
      p = env_provider c (g_env (globals w)) /\ globals w' = with_provider p (globals w)
      /\ forall endpoint, env_endpoint (g_env (globals w)) = Some endpoint ->
           exists w0, globals w0 = globals w /\ (exporter_build endpoint w0).1 = Ok tt
  end.
Proof.
  unfold install_provider, env_provider, env_endpoint, bind, ret.
  destruct (env_var_spec ENDPOINT w) as [H1 H2]. destruct (env_var ENDPOINT w) as [e w1].
  cbn in H1, H2. subst e. destruct (g_env (globals w) !! ENDPOINT) as [[|a s]|]; [done| |done].
  pose proof (exporter_build_spec (String a s) w1) as H3.
  destruct (exporter_build (String a s) w1) as [[u|e] w2] eqn:Ex; cbn in H3.
  - destruct (sample_ratio_spec w2) as [H4 H5]. destruct (sample_ratio w2) as [ratio w3].
    cbn in H4, H5. rewrite H3, H2 in H4. subst ratio.
    pose proof (set_propagator_spec w3) as H6. destruct (set_text_map_propagator w3) as [u1 w4].
    cbn in H6. set (p := mkTracerProvider _ _ _). pose proof (set_provider_spec p w4) as H7.
    destruct (set_tracer_provider p w4) as [u2 w5]. cbn in H7. split; [done|]. split.
    + by rewrite H7, H6, H5, H3, H2.
    + intros endpoint [= <-]. exists w1. rewrite Ex. by destruct u.
  - split; [congruence|]. exists (String a s), w1. by rewrite Ex.
Qed.
End SetupLemmas.

(** ** Properties of the set-up *)

Lemma ratio_for_env env : ratio_for env (env_ratio env).
Proof.
  unfold ratio_for, env_ratio. destruct (env !! SAMPLER_ARG) as [raw|]; cbn; [|by right].
  destruct (f64_parse raw) as [x|] eqn:Hx; cbn; [|right; split; [done|]; by intros ? y [= <-] Hy; simplify_eq].
  destruct (in_unit_range x) eqn:Er; cbn.
  - left. exists raw. apply andb_true_iff in Er as [? ?]. done.
  - right. split; [done|]. intros ? y [= <-] Hy Hr. rewrite Hx in Hy. injection Hy as <-.
    apply andb_true_iff in Hr. change (in_unit_range x = true) in Hr. congruence.
Qed.


(** A process whose globals are the whole world; an endpoint without a scheme
    cannot be exported to. *)
#[local] Instance globals_process : Process Globals := {
  env_var k w := (g_env w !! k, w);
  exporter_build e w := (if decide (e = "collector") then Err "no scheme" else Ok tt, w);
  set_text_map_propagator w :=
    (tt, mkGlobals (g_env w) true (g_provider w) (g_subscriber w) (g_shut w));
  set_tracer_provider p w :=
    (tt, mkGlobals (g_env w) (g_propagator w) (Some p) (g_subscriber w) (g_shut w));
  try_init s w :=
    match g_subscriber w with
    | Some _ => (Err "already set", w)
    | None => (Ok tt, mkGlobals (g_env w) (g_propagator w) (g_provider w) (Some s) (g_shut w))
    end;
  provider_shutdown p w :=
    (Ok tt, mkGlobals (g_env w) (g_propagator w) (g_provider w) (g_subscriber w) (g_shut w ++ [p]));
  warn_flush _ := ret tt;
}.

#[local] Instance globals_laws : ProcessLaws Globals id.
Proof.
  split; try done. intros s w. cbn. destruct (g_subscriber w); [by eexists|done].
Qed.

Definition demo_env : gmap string string :=
  {[ENDPOINT := "http://otel:4317"; SAMPLER_ARG := "0.25"; LOG_FORMAT := "json"]}.


(** ** Trace context in message headers (propagation.rs) *)

(** The global propagator at a context type: the entries [inject_context] sets
    and what [extract] reads back. *)
Class Propagator (Ctx : Type) : Type := {
  inject_context : Ctx -> list (string * string);
  extract_context : gmap string string -> Ctx;
}.

(** It reads and writes its own [fields] only; a context it can carry is
    written to all of them and read back from them. *)
Class PropagatorLaws (Ctx : Type) `{!Propagator Ctx} (fields : list string) (carried : Ctx -> Prop)
  : Prop := {
  inject_fields c k v : (k, v) ∈ inject_context c -> k ∈ fields;
  inject_distinct c : NoDup (inject_context c).*1;
  extract_agrees h h' : (forall k, k ∈ fields -> h !! k = h' !! k) ->
    extract_context h = extract_context h';
  inject_covers c k : carried c -> k ∈ fields -> k ∈ (inject_context c).*1;
  extract_injected c : carried c -> extract_context (list_to_map (inject_context c)) = c;
}.

(** [Span::current().context()] *)
Class CurrentContext (W Ctx : Type) : Type := { current_context : M W Ctx }.

(** [Injector for Headers]: [BTreeMap::insert]. *)
Definition Headers_set (key value : string) (h : gmap string string) : gmap string string :=
  <[key := value]> h.

(** [Extractor for ReadHeaders]: the keys are those of the map. *)
Definition ReadHeaders_get (key : string) (h : gmap string string) : option string := h !! key.
Definition ReadHeaders_keys (h : gmap string string) : list string := (map_to_list h).*1.

Section Propagation.
Context {W Ctx : Type} `{!Propagator Ctx, !CurrentContext W Ctx}.

Definition inject (headers : gmap string string) : M W (gmap string string) :=
  do! context <- current_context;
  ret (foldl (fun h kv => Headers_set kv.1 kv.2 h) headers (inject_context context)).

Definition extract (headers : gmap string string) : Ctx := extract_context headers.

Definition TraceContextHeaders_enrich (m : Message) : M W Message :=
  do! h <- inject (headers m);
  ret (mkMessage (message_id m) (topic m) (key m) h (payload m) (content_type m)).
End Propagation.

Lemma inject_lookup (l : list (string * string)) (h : gmap string string) k :
  NoDup l.*1 ->
  foldl (fun h kv => Headers_set kv.1 kv.2 h) h l !! k
  = match (list_to_map l : gmap string string) !! k with Some v => Some v | None => h !! k end.
Proof.
  revert h. induction l as [|[k' v] l IH]; intros h Hnd; [cbn; by rewrite lookup_empty|].
  apply NoDup_cons in Hnd as [Hni Hnd]. cbn [foldl list_to_map]. rewrite IH by done. unfold Headers_set.
  cbn. destruct (decide (k' = k)) as [->|Hne].
  - rewrite not_elem_of_list_to_map_1 by done. by rewrite !lookup_insert_eq.
  - by rewrite !lookup_insert_ne.
Qed.

(** An enricher that leaves the propagator's fields alone. *)
Definition spares {W} (fields : list string) (f : Message -> M W Message) : Prop :=
  forall m w k, k ∈ fields -> headers (f m w).1 !! k = headers m !! k.

Lemma enrich_all_spares {W} fields (fs : list (Message -> M W Message)) m w k :
  Forall (spares fields) fs -> k ∈ fields -> headers (enrich_all fs m w).1 !! k = headers m !! k.
Proof.
  intros Hall Hk. revert m w. induction Hall as [|f fs Hf _ IH]; intros m w; [done|].
  cbn. unfold bind. specialize (Hf m w k Hk). destruct (f m w) as [m1 w1]. cbn in Hf.
  by rewrite IH, Hf.
Qed.

(** An effect stays attached to its cause: a message stamped by
    [TraceContextHeaders] while a request's span is current, enriched
    further by anything that leaves the propagator's fields alone, carries
    that very context to whoever extracts it from the delivered message; the
    message's other headers and its routing are as they were. *)
Theorem trace_context_travels {W Ctx : Type} `{!Propagator Ctx, !CurrentContext W Ctx}
  (fields : list string) (carried : Ctx -> Prop) (Hlaws : PropagatorLaws Ctx fields carried)
  (es : list (Message -> M W Message)) (m : Message) (w : W)
  (Hes : Forall (spares fields) es) (Hc : carried (current_context w).1) :
  let stamped := TraceContextHeaders_enrich m w in
  extract (headers (enrich_all es stamped.1 stamped.2).1) = (current_context w).1
  /\ (forall k, k ∉ fields -> headers stamped.1 !! k = headers m !! k)
  /\ topic stamped.1 = topic m /\ key stamped.1 = key m /\ payload stamped.1 = payload m.
Proof.
  intros stamped. unfold extract.
  assert (Hst : headers stamped.1
    = foldl (fun h kv => Headers_set kv.1 kv.2 h) (headers m) (inject_context (current_context w).1)
    /\ topic stamped.1 = topic m /\ key stamped.1 = key m /\ payload stamped.1 = payload m).
  { unfold stamped, TraceContextHeaders_enrich, inject, bind, ret.
    by destruct (current_context w) as [c w1]. }
  destruct Hst as [Hh Hr]. set (c := (current_context w).1) in *. split; [|split; [|exact Hr]].
  - rewrite <- (extract_injected c Hc). apply extract_agrees. intros k Hk.
    rewrite (enrich_all_spares fields), Hh, inject_lookup by (done || apply inject_distinct).
    destruct (list_to_map (inject_context c) !! k) as [v|] eqn:E; [done|exfalso].
    apply not_elem_of_list_to_map in E. by apply E, inject_covers.
  - intros k Hk. rewrite Hh, inject_lookup by apply inject_distinct.
    destruct (list_to_map (inject_context c) !! k) as [v|] eqn:E; [exfalso|done].
    apply elem_of_list_to_map_2 in E. by eapply Hk, inject_fields.
Qed.

(** A propagator of the one W3C header, at the contexts of [Traceparent]. *)
#[local] Instance w3c : Propagator (option Traceparent) := {
  inject_context c := match c with Some tp => [(TRACEPARENT_HEADER, to_header_value tp)] | None => [] end;
  extract_context h := h !! TRACEPARENT_HEADER ≫= Traceparent_parse;
}.

Definition w3c_carried (c : option Traceparent) : Prop :=
  exists tp, c = Some tp /\ Traceparent_parse (to_header_value tp) = Some tp.

Lemma w3c_laws : PropagatorLaws (option Traceparent) [TRACEPARENT_HEADER] w3c_carried.
Proof.
  split.
  - intros [tp|] k v Hin; cbn in Hin; [|by apply elem_of_nil in Hin].
    apply list_elem_of_singleton in Hin as [= -> ->]. by left.
  - intros [tp|]; cbn; [apply NoDup_singleton|constructor].
  - intros h h' Hk. cbn. by rewrite Hk by left.
  - intros c k (tp & -> & _) Hk. exact Hk.
  - intros c (tp & -> & Hp). cbn. by rewrite lookup_insert_eq.
Qed.

#[local] Instance traced_world : CurrentContext (option Traceparent) (option Traceparent) :=
  { current_context w := (w, w) }.

Lemma trace_context_travels_witness :
  let tp := mkTraceparent "4bf92f3577b34da6a3ce929d0e0e4736" "00f067aa0ba902b7" true in
  let stamped := TraceContextHeaders_enrich (Message_new 1 "orders" "{}" "application/json") (Some tp) in
  extract (headers (enrich_all [fun m => ret (Message_with_header "tenant_id" "acme" m)]
                      stamped.1 stamped.2).1) = Some tp.
Proof.
  intros tp stamped.
  refine (proj1 (trace_context_travels _ _ w3c_laws _ (Message_new 1 "orders" "{}" "application/json")
                   (Some tp) _ _)).
  - constructor; [|constructor]. intros m w k Hk. apply list_elem_of_singleton in Hk as ->.
    cbn. by rewrite lookup_insert_ne.
  - exists tp. split; [reflexivity|]. vm_compute. reflexivity.
Defined.

(** ** HTTP wiring (http.rs) *)

(** [tracing]'s spans with the SDK behind them: creating one, the context
    extracted from HTTP headers, parenting, the SDK's trace id (displayed),
    recording a field, and the stack of entered spans. *)
Class SdkSpans (W SpanRef Ctx HV : Type) : Type := {
  span_new : Span -> M W SpanRef;
  http_extract : gmap string HV -> M W Ctx;
  set_parent : SpanRef -> Ctx -> M W (result unit string);
  trace_id_of : SpanRef -> M W string;
  span_record : SpanRef -> string -> string -> M W unit;
  enter_span : SpanRef -> M W unit;
  exit_span : M W unit;
  current_span : M W (option SpanRef);
}.

(** [TraceId::INVALID] as displayed. *)
Definition INVALID_TRACE_ID : string := "00000000000000000000000000000000".

Section Wiring.
Context {W SpanRef Ctx HV Secs : Type} `{!HeaderText HV, !SdkSpans W SpanRef Ctx HV, !Prometheus W Secs}.

(** [Span::in_scope], and a future polled inside its span. *)
Definition in_scope {A} (span : SpanRef) (c : M W A) : M W A :=
  do! _ <- enter_span span;
  do! a <- c;
  do! _ <- exit_span;
  ret a.

(** [pharos_axum::record_trace_id]: on the current span, if any. *)
Definition record_current_trace_id (id : string) : M W unit :=
  do! current <- current_span;
  match current with
  | Some span => span_record span "trace_id" id
  | None => ret tt
  end.

Definition traced_request_span (request : Request HV) : M W SpanRef :=
  do! span <- span_new (request_span request);
  do! parent <- http_extract (rq_headers request);
  do! _ <- set_parent span parent;
  do! trace_id <- trace_id_of span;
  do! _ <- (if decide (trace_id = INVALID_TRACE_ID) then ret tt
            else in_scope span (record_current_trace_id trace_id));
  ret span.

(** The source [http_metrics] hands to [with_exemplars]. *)
Definition http_metrics_source : M W (option string) :=
  do! current <- current_span;
  match current with
  | Some span =>
      do! id <- trace_id_of span;
      ret (if decide (id = INVALID_TRACE_ID) then None else Some id)
  | None => ret None
  end.

Definition http_metrics : HttpMetrics W := HttpMetrics_with_exemplars http_metrics_source HttpMetrics_new.

(** [render_metrics]: the content type and the encoded registry. *)
Definition render_metrics (encode : list (string * string * MetricKind) -> M W (result string unit))
  (metrics : HttpMetrics W) : M W (result (string * string) unit) :=
  try! text <- HttpMetrics_encode encode metrics;
  ret (Ok (CONTENT_TYPE, text)).

(** The layers around the routes: [track] with its metrics, inside the
    request span; what the trace layer logs is left out. *)
Definition instrument (matched : option string) (router : M W (option Z)) (request : Request HV)
  : M W (option Z) :=
  do! span <- traced_request_span request;
  in_scope span
    (track (hm_trace http_metrics) (mkHttpRequest (rq_method request) matched) router).
End Wiring.

(** The spans' documented behaviour, on the stack of entered spans, the
    SDK's trace ids and the recorded fields. *)
Record SpanView (SpanRef : Type) := mkSpanView {
  sv_stack : list SpanRef;
  sv_trace : SpanRef -> string;
  sv_fields : SpanRef -> gmap string (option string);
}.
Arguments mkSpanView {_} _ _ _.
Arguments sv_stack {_} _.
Arguments sv_trace {_} _.
Arguments sv_fields {_} _.

(** A call that changes neither the stack nor a trace id. *)
Definition span_neutral {W SpanRef A} (view : W -> SpanView SpanRef) (c : M W A) : Prop :=
  forall w, sv_stack (view (c w).2) = sv_stack (view w)
            /\ forall s, sv_trace (view (c w).2) s = sv_trace (view w) s.

Class SdkSpansLaws (W SpanRef Ctx HV Secs : Type) `{!SdkSpans W SpanRef Ctx HV, !Prometheus W Secs}
  (view : W -> SpanView SpanRef) : Prop := {
  span_new_fields span w : sv_fields (view (span_new span w).2) (span_new span w).1 = span_fields span;
  extract_fields h w s : sv_fields (view (http_extract h w).2) s = sv_fields (view w) s;
  set_parent_fields s c w s' : sv_fields (view (set_parent s c w).2) s' = sv_fields (view w) s';
  trace_id_of_spec s w : (trace_id_of s w).1 = sv_trace (view w) s /\ view (trace_id_of s w).2 = view w;
  span_record_spec s k v w :
    sv_stack (view (span_record s k v w).2) = sv_stack (view w)
    /\ sv_trace (view (span_record s k v w).2) = sv_trace (view w)
    /\ sv_fields (view (span_record s k v w).2) s = alter (fun _ => Some v) k (sv_fields (view w) s);
  enter_spec s w : sv_stack (view (enter_span s w).2) = s :: sv_stack (view w)
    /\ sv_trace (view (enter_span s w).2) = sv_trace (view w)
    /\ sv_fields (view (enter_span s w).2) = sv_fields (view w);
  exit_spec w : sv_stack (view (exit_span w).2) = tail (sv_stack (view w))
    /\ sv_trace (view (exit_span w).2) = sv_trace (view w)
    /\ sv_fields (view (exit_span w).2) = sv_fields (view w);
  current_spec w : (current_span w).1 = head (sv_stack (view w)) /\ view (current_span w).2 = view w;
  metrics_neutral labels : span_neutral view (requests_inc labels);
  in_flight_inc_neutral : span_neutral view in_flight_inc;
  in_flight_dec_neutral : span_neutral view in_flight_dec;
  elapsed_neutral : span_neutral view elapsed;
}.

Section WiringLemmas.
Context {W SpanRef Ctx HV Secs : Type} `{!HeaderText HV, !SdkSpans W SpanRef Ctx HV, !Prometheus W Secs}
  (view : W -> SpanView SpanRef) `{!SdkSpansLaws W SpanRef Ctx HV Secs view}.

(** The exemplar of a trace id. *)
Definition exemplar (id : string) : option TraceExemplar :=
  if decide (id = INVALID_TRACE_ID) then None else Some (mkTraceExemplar id).

(** What the source answers inside span [s]. *)
Lemma source_in_span s rest w :
  sv_stack (view w) = s :: rest ->
  mkTraceExemplar <$> (http_metrics_source w).1 = exemplar (sv_trace (view w) s).
Proof.
  intros Hst. unfold http_metrics_source, bind, ret. destruct (current_spec w) as [H1 H2].
  destruct (current_span w) as [cur w1]. cbn in H1, H2. rewrite H1, Hst. cbn.
  destruct (trace_id_of_spec s w1) as [H3 _]. destruct (trace_id_of s w1) as [id w2]. cbn in *.
  rewrite H3, H2. unfold exemplar. by destruct (decide _).
Qed.

Lemma source_outside w : sv_stack (view w) = [] -> (http_metrics_source w).1 = None.
Proof.
  intros Hst. unfold http_metrics_source, bind, ret. destruct (current_spec w) as [H1 _].
  destruct (current_span w) as [cur w1]. cbn in *. by rewrite H1, Hst.
Qed.

(** The observation [track] makes after its handler answered in world [w]. *)
Lemma answered_exemplar request status s rest w :
  sv_stack (view w) = s :: rest ->
  exists secs wd, answered (Some http_metrics_source) request status w
    = duration_observe (labels_of request status) secs (exemplar (sv_trace (view w) s)) wd.
Proof.
  intros Hst. unfold answered, bind. destruct (elapsed_neutral w) as [A1 A2].
  destruct (elapsed w) as [secs w1]. cbn in A1, A2.
  destruct (in_flight_dec_neutral w1) as [B1 B2]. destruct (in_flight_dec w1) as [u w2]. cbn in B1, B2.
  unfold observe, bind, ret. fold (labels_of request status).
  destruct (metrics_neutral (labels_of request status) w2) as [C1 C2].
  destruct (requests_inc (labels_of request status) w2) as [u' w3]. cbn in C1, C2.
  pose proof (source_in_span s rest w3) as Hsrc. destruct (http_metrics_source w3) as [id w4].
  cbn in Hsrc. rewrite Hsrc by congruence. exists secs, w4. by rewrite C2, B2, A2.
Qed.

Lemma traced_span_fields request w :
  let '(span, w') := traced_request_span request w in
  sv_trace (view w') span <> INVALID_TRACE_ID ->
  sv_fields (view w') span !! "trace_id" = Some (Some (sv_trace (view w') span)).
Proof.
  unfold traced_request_span, bind, ret. pose proof (span_new_fields (request_span request) w) as H1.
  destruct (span_new (request_span request) w) as [span w1]. cbn in H1.
  pose proof (extract_fields (rq_headers request) w1 span) as H2.
  destruct (http_extract (rq_headers request) w1) as [parent w2]. cbn in H2.
  pose proof (set_parent_fields span parent w2 span) as H3.
  destruct (set_parent span parent w2) as [r w3]. cbn in H3.
  destruct (trace_id_of_spec span w3) as [H4 H5]. destruct (trace_id_of span w3) as [id w4].
  cbn in H4, H5. destruct (decide (id = INVALID_TRACE_ID)) as [Hi|Hi].
  { intros Hne. rewrite H5, <- H4 in Hne. done. }
  unfold in_scope, record_current_trace_id, bind, ret.
  destruct (enter_spec span w4) as (E1 & E2 & E3). destruct (enter_span span w4) as [u5 w5].
  cbn in E1, E2, E3. destruct (current_spec w5) as [C1 C2]. destruct (current_span w5) as [cur w6].
  cbn in C1, C2. rewrite C1, E1. cbn.
  destruct (span_record_spec span "trace_id" id w6) as (R1 & R2 & R3).
  destruct (span_record span "trace_id" id w6) as [u7 w7]. cbn in R1, R2, R3.
  destruct (exit_spec w7) as (X1 & X2 & X3). destruct (exit_span w7) as [u8 w8]. cbn in X1, X2, X3.
  intros _. rewrite X2, X3, R2, R3, C2, E2, E3, H5, H3, H2, H1.
  rewrite lookup_alter_eq, <- H4. cbn. unfold request_span.
  destruct (_ ≫= _) as [tp|]; cbn; [|by vm_compute].
  by simplify_map_eq.
Qed.
End WiringLemmas.

(** Metrics, logs and traces of a request can be joined: for every answered
    request of an instrumented router the duration is observed with an
    exemplar naming the trace id the SDK gave the request's span (none when
    it has none), and that same id is the [trace_id] field of the span every
    log line of the request carries.  It is the order of the layers that
    gives this: outside every span the same source answers nothing. *)
Theorem exemplar_joins_trace {W SpanRef Ctx HV Secs : Type}
  `{!HeaderText HV, !SdkSpans W SpanRef Ctx HV, !Prometheus W Secs}
  (view : W -> SpanView SpanRef) (Hlaws : SdkSpansLaws W SpanRef Ctx HV Secs view)
  (matched : option string) (router : M W (option Z)) (request : Request HV) (w : W)
  (Hrouter : span_neutral view router) :
  let '(span, ws) := traced_request_span request w in
  let id := sv_trace (view ws) span in
  (id <> INVALID_TRACE_ID -> sv_fields (view ws) span !! "trace_id" = Some (Some id))
  /\ (forall status wa, router (in_flight_inc (enter_span span ws).2).2 = (Some status, wa) ->
        exists secs wd, instrument matched router request w
          = (Some status,
             (exit_span (duration_observe
                (labels_of (mkHttpRequest (rq_method request) matched) status) secs
                (exemplar id) wd).2).2))
  /\ forall w0, sv_stack (view w0) = [] -> (http_metrics_source w0).1 = None.
Proof.
  unfold instrument, bind at 1. pose proof (traced_span_fields view request w) as Hf.
  destruct (traced_request_span request w) as [span ws]. split; [done|].
  split; [|intros w0; apply (source_outside view)].
  intros status wa Hrun. unfold in_scope, bind, ret.
  destruct (enter_spec span ws) as (E1 & E2 & _). destruct (enter_span span ws) as [u w1].
  cbn in E1, E2, Hrun. cbn [hm_trace http_metrics HttpMetrics_with_exemplars]. unfold track, bind, pbind, ret.
  destruct (in_flight_inc_neutral w1) as [I1 I2]. destruct (in_flight_inc w1) as [u1 w2].
  cbn in I1, I2, Hrun. destruct (Hrouter w2) as [R1 R2]. rewrite Hrun in R1, R2 |- *. cbn in R1, R2.
  destruct (answered_exemplar view (mkHttpRequest (rq_method request) matched) status span
              (sv_stack (view ws)) wa) as (secs & wd & ->); [congruence|].
  rewrite R2, I2, E2. exists secs, wd.
  destruct (duration_observe _ _ _ wd) as [u2 w3]. cbn. by destruct (exit_span w3) as [u3 w4].
Qed.

(** ** A world with spans

    Spans are numbered; the SDK takes the trace id of a valid inbound header
    and mints one otherwise; the world logs each observation's exemplar. *)

Record SpanWorld := mkSpanWorld {
  sw_next : nat;
  sw_view : SpanView nat;
  sw_exemplars : list (option TraceExemplar);
}.

Definition set_at {B} (s : nat) (v : B) (f : nat -> B) : nat -> B := fun s' => if decide (s = s') then v else f s'.

#[local] Instance text_headers : HeaderText string := { header_from_str s := Some s; header_to_str := Some }.

Definition MINTED : string := "0af7651916cd43dd8448eb211c80319c".

#[local] Instance span_world : SdkSpans SpanWorld nat (option Traceparent) string := {
  span_new span w :=
    (sw_next w, mkSpanWorld (S (sw_next w))
       (mkSpanView (sv_stack (sw_view w)) (sv_trace (sw_view w))
          (set_at (sw_next w) (span_fields span) (sv_fields (sw_view w)))) (sw_exemplars w));
  http_extract h w := (h !! TRACEPARENT_HEADER ≫= Traceparent_parse, w);
  set_parent s c w :=
    (Ok tt, mkSpanWorld (sw_next w)
       (mkSpanView (sv_stack (sw_view w))
          (set_at s (match c with Some tp => Observability.trace_id tp | None => MINTED end)
             (sv_trace (sw_view w))) (sv_fields (sw_view w))) (sw_exemplars w));
  trace_id_of s w := (sv_trace (sw_view w) s, w);
  span_record s k v w :=
    (tt, mkSpanWorld (sw_next w)
       (mkSpanView (sv_stack (sw_view w)) (sv_trace (sw_view w))
          (set_at s (alter (fun _ => Some v) k (sv_fields (sw_view w) s)) (sv_fields (sw_view w))))
       (sw_exemplars w));
  enter_span s w :=
    (tt, mkSpanWorld (sw_next w)
       (mkSpanView (s :: sv_stack (sw_view w)) (sv_trace (sw_view w)) (sv_fields (sw_view w)))
       (sw_exemplars w));
  exit_span w :=
    (tt, mkSpanWorld (sw_next w)
       (mkSpanView (tail (sv_stack (sw_view w))) (sv_trace (sw_view w)) (sv_fields (sw_view w)))
       (sw_exemplars w));
  current_span w := (head (sv_stack (sw_view w)), w);
}.

#[local] Instance span_world_metrics : Prometheus SpanWorld unit := {
  requests_inc _ := ret tt;
  duration_observe _ _ x w := (tt, mkSpanWorld (sw_next w) (sw_view w) (sw_exemplars w ++ [x]));
  in_flight_inc := ret tt;
  in_flight_dec := ret tt;
  elapsed := ret tt;
}.

Lemma span_world_laws : SdkSpansLaws SpanWorld nat (option Traceparent) string unit sw_view.
Proof.
  split; try done.
  - intros span w. cbn. unfold set_at. by rewrite decide_True.
  - intros s k v w. cbn. unfold set_at. by rewrite decide_True.
Qed.

Definition span_start : SpanWorld := mkSpanWorld 0 (mkSpanView [] (fun _ => "") (fun _ => ∅)) [].

Definition traced_request : Request string :=
  mkRequest "GET" "/orders/total" None
    {[TRACEPARENT_HEADER := "00-4bf92f3577b34da6a3ce929d0e0e4736-00f067aa0ba902b7-01"]}.

Lemma exemplar_joins_trace_witness :
  let '(span, ws) := traced_request_span traced_request span_start in
  exists secs wd, instrument (Some "/orders/total") (ret (Some 200)) traced_request span_start
    = (Some 200, (exit_span (duration_observe
         (labels_of (mkHttpRequest "GET" (Some "/orders/total")) 200) secs
         (exemplar (sv_trace (sw_view ws) span)) wd).2).2).
Proof.
  pose proof (exemplar_joins_trace sw_view span_world_laws (Some "/orders/total") (ret (Some 200))
                traced_request span_start ltac:(intros w; split; reflexivity)) as H.
  destruct (traced_request_span traced_request span_start) as [span ws].
  exact (proj1 (proj2 H) 200 _ eq_refl).
Defined.

Example exemplar_of_inbound_trace :
  sw_exemplars (instrument (Some "/orders/total") (ret (Some 200)) traced_request span_start).2
  = [Some (mkTraceExemplar "4bf92f3577b34da6a3ce929d0e0e4736")].
Proof. vm_compute. reflexivity. Qed.
