(* ===== verification/Profile.v ===== *)
(** * Profile: process profiles

    Models crates/pharos-axum/src/profile.rs.  A router is axum's: a type with
    an empty router and [merge], which are arguments.  The phantom mode
    parameter is an index of the profile's type, so [command_routes] exists at
    [ReadWrite] only, as in the source. *)

From S2P Require Import Prelude.

Inductive Mode := ReadWrite | ReadOnly.

Section Profile.
Context {Router : Type} (router_new : Router) (merge : Router -> Router -> Router).

Record ProcessProfile (m : Mode) := mkProcessProfile { profile_router : Router }.
Arguments mkProcessProfile {m} _.
Arguments profile_router {m} _.

Definition read_write : ProcessProfile ReadWrite := mkProcessProfile router_new.
Definition read_only : ProcessProfile ReadOnly := mkProcessProfile router_new.

Definition command_routes (router : Router) (p : ProcessProfile ReadWrite) : ProcessProfile ReadWrite :=
  mkProcessProfile (merge (profile_router p) router).

Definition query_routes {m} (router : Router) (p : ProcessProfile m) : ProcessProfile m :=
  mkProcessProfile (merge (profile_router p) router).

Definition into_router {m} (p : ProcessProfile m) : Router := profile_router p.

(** The profiles client code can build: the constructors and the methods,
    with the routers passed to each. *)
Inductive built : forall m, list Router -> list Router -> ProcessProfile m -> Prop :=
| built_read_write : built ReadWrite [] [] read_write
| built_read_only : built ReadOnly [] [] read_only
| built_command qs cs r p :
    built ReadWrite qs cs p -> built ReadWrite qs (cs ++ [r]) (command_routes r p)
| built_query m qs cs r p : built m qs cs p -> built m (qs ++ [r]) cs (query_routes r p).

(** A read-only profile never saw [command_routes]: its router is made of what
    was passed to [query_routes], in order. *)
Theorem read_only_routers qs cs (p : ProcessProfile ReadOnly) :
  built ReadOnly qs cs p -> cs = [] /\ into_router p = foldl merge router_new qs.
Proof.
  set (P := fun m (qs cs : list Router) (p : ProcessProfile m) =>
    m = ReadOnly -> cs = [] /\ into_router p = foldl merge router_new qs).
  intros Hb. enough (Hall : forall m qs cs p, built m qs cs p -> P m qs cs p)
    by (by apply (Hall ReadOnly)).
  clear. induction 1 as [| |qs cs r p Hb IH|m qs cs r p Hb IH]; intros Hm; try done.
  destruct (IH Hm) as [-> Hr]. split; [done|]. unfold into_router, query_routes. cbn.
  rewrite foldl_app. cbn. by rewrite <- Hr.
Qed.
End Profile.

(** But [query_routes] takes any router: a router of commands passed to it is
    merged into a read-only profile, and the process serves them.  Routes are
    named here, merging is appending. *)
Theorem read_only_profile_serves_a_command :
  exists p : ProcessProfile (Router := list (string * string)) ReadOnly,
    built [] app ReadOnly [[("POST", "/orders")]] [] p /\ ("POST", "/orders") ∈ into_router p.
Proof.
  exists (query_routes app [("POST", "/orders")] (read_only [])). split.
  - apply (built_query _ _ ReadOnly [] []). constructor.
  - cbn. by left.
Qed.
