(* ===== verification/TestKit.v ===== *)
(** * What the ported unit tests share

    The unit tests inside the repository's source files are programs over the
    same interfaces as the code; the files whose names end in [Tests] are
    those programs on the definitions of this development, with the
    repositories, outboxes and handlers the tests bring along, and a theorem
    that each of them passes.  This file holds what they share: the cells
    behind an [Arc<Mutex<_>>] or an atomic, [expect], substring tests,
    durations and the parser of UUIDs.

    A test answers [Some (Ok tt)] when it passes, [None] when an assertion or
    an [expect] panics, and [Some (Err e)] when a [?] returns. *)

From S2P Require Import Prelude Messaging Tenancy Contract.
Local Open Scope Z_scope.

Abbreviation Test := (fun W => M W (option (result unit string))) (only parsing).

(** [.expect(..)], [.unwrap()], and a [let .. else { panic!() }] on a result. *)
Notation "'expect!' x <- r ; k" := (match r with Ok x => k | Err _ => ret None end)
  (at level 10, x pattern, r at level 100, k at level 200) : pharos_scope.
(** The same for the error. *)
Notation "'expect_err!' x <- r ; k" := (match r with Err x => k | Ok _ => ret None end)
  (at level 10, x pattern, r at level 100, k at level 200) : pharos_scope.

(** The end of a test. *)
Definition passed {W} : Test W := ret (Some (Ok tt)).

(** [?] in a test: the text of the error is of no interest. *)
Definition q {W A E} (c : M W (result A E)) : M W (result A string) := boxed (fun _ => "error") c.
Definition pq {W A E} (c : M W (option (result A E))) : M W (option (result A string)) :=
  mmap (fmap (map_err (fun _ => "error"))) c.

Definition passes {W} (start : W) (test : Test W) : Prop := (test start).1 = Some (Ok tt).

Definition is_err {A E} (r : result A E) : bool := negb (is_ok r).

(** [str::contains], [str::ends_with] *)
Definition str_contains (needle s : string) : bool :=
  match String.index 0 needle s with Some _ => true | None => false end.
Definition ends_with (suffix s : string) : bool :=
  let n := (String.length s - String.length suffix)%nat in
  bool_decide (String.substring n (String.length suffix) s = suffix).

(** [Duration::from_secs] and [Duration::from_millis] *)
Definition from_secs (n : Z) : Duration := n * NANOS_PER_SEC.
Definition from_millis (n : Z) : Duration := n * 1000000.

(** ** Identifiers *)

(** [Uuid::get_version_num] *)
Definition get_version_num (u : Uuid) : Z := Z.land (Z.shiftr u 76) 15.

(** [Uuid::parse_str] for the hyphenated form: thirty-six characters,
    hexadecimal but for the dashes. *)
Definition hyphenated : UuidText := {|
  parse_str s := if (String.length s =? 36)%nat then ok_or (unhex_all 0 s) "invalid character"
                 else Err "invalid length";
|}.

(** ** Shared cells *)

Record Cells := mkCells {
  next_cell : nat;
  numbers : gmap nat Z;
  texts : gmap nat (list string);
}.

Definition no_cells : Cells := mkCells 0 ∅ ∅.

Section Cells.
Context {W : Type} `{!Lens W Cells}.

(** [Arc::new(AtomicU32::new(0))] *)
Definition new_number : M W nat :=
  do! c <- mget;
  do! _ <- mput (mkCells (S (next_cell c)) (<[next_cell c := 0]> (numbers c)) (texts c));
  ret (next_cell c).
Definition number (i : nat) : M W Z := do! c <- mget; ret (default 0 (numbers c !! i)).
Definition set_number (i : nat) (v : Z) : M W unit :=
  do! c <- mget; mput (mkCells (next_cell c) (<[i := v]> (numbers c)) (texts c)).
(** [fetch_add]: the old value. *)
Definition fetch_add (i : nat) (d : Z) : M W Z :=
  do! v <- number i; do! _ <- set_number i (u32_add v d); ret v.

(** [Arc::new(Mutex::new(Vec::new()))] *)
Definition new_texts : M W nat :=
  do! c <- mget;
  do! _ <- mput (mkCells (S (next_cell c)) (numbers c) (<[next_cell c := []]> (texts c)));
  ret (next_cell c).
Definition texts_of (i : nat) : M W (list string) := do! c <- mget; ret (default [] (texts c !! i)).
Definition push_text (i : nat) (s : string) : M W unit :=
  do! c <- mget;
  mput (mkCells (next_cell c) (numbers c) (<[i := default [] (texts c !! i) ++ [s]]> (texts c))).
End Cells.

Example ends_with_samples :
  ends_with "Recorder" "tests::SecondRecorder" = true /\ ends_with "Recorder" "corder" = false
  /\ str_contains "5432" "db:5432/x" = true.
Proof. vm_compute. done. Qed.
