(* ===== verification/SagaTests.v ===== *)
(** * The unit tests of the saga runner, on the model

    Models the tests of crates/pharos-saga/src/lib.rs (lines 714 to 1638):
    their own saga store, outbox and command dispatchers, second
    implementations of the interfaces of Saga and Outbox, the sagas they
    run, and the tests as programs.  The store honours the contract that the
    theorems on the runner assume ([TestSagaStore_laws]); every test passes
    ([saga_tests_pass]).

    A test answers [Some (Ok tt)] when it passes, [None] when an assertion
    panics, and [Some (Err e)] when a [?] returns. *)

From S2P Require Import Prelude Core Messaging Outbox OutboxDispatcher Saga Contract.
From Stdlib Require Import Ascii.
Local Open Scope Z_scope.

(** ** The billing context *)

Record OrderPlaced := mkOrderPlaced { op_order_id : string; op_amount_cents : Z }.

Inductive BillingCommand :=
| ReserveFunds (order_id : string) (amount_cents : Z)
| FinalizeOrder (order_id : string).

#[export] Instance BillingCommand_eq_dec : EqDecision BillingCommand.
Proof. solve_decision. Defined.

Inductive BillingState :=
| AwaitingReservation (amount_cents : Z)
| Reserved.

Abbreviation Instance_ := (SagaInstance string BillingState) (only parsing).
Abbreviation Transition := (SagaTransition BillingState BillingCommand) (only parsing).
Abbreviation TestSaga := (fun W => Saga W string BillingState OrderPlaced BillingCommand Empty_set)
  (only parsing).

Section Sagas.
Context {W : Type}.

Definition order_id_for (event : OrderPlaced) : option string := Some (op_order_id event).
Definition ignore_event (_ : option Instance_) (_ : OrderPlaced) : M W (result Transition Empty_set) :=
  ret (Ok Ignore).

Definition BillingSaga_react (state : option Instance_) (event : OrderPlaced)
  : M W (result Transition Empty_set) :=
  ret (Ok match state with
          | None => Start (AwaitingReservation (op_amount_cents event))
                      [ReserveFunds (op_order_id event) (op_amount_cents event)] None
          | Some _ => Complete Reserved [FinalizeOrder (op_order_id event)]
          end).

Definition BillingSaga : TestSaga W :=
  {| id_for := order_id_for; react := BillingSaga_react; on_timeout := on_timeout_default |}.

Definition AlwaysFailingSaga : TestSaga W :=
  {| id_for := order_id_for;
     react _ _ := ret (Ok (Fail_ "funds could not be reserved" []));
     on_timeout := on_timeout_default |}.

Definition RefundingSaga : TestSaga W :=
  {| id_for := order_id_for;
     react _ event := ret (Ok (Fail_ "wager abandoned" [FinalizeOrder (op_order_id event)]));
     on_timeout := on_timeout_default |}.

Definition RefundOnTimeoutSaga : TestSaga W :=
  {| id_for := order_id_for;
     react := ignore_event;
     on_timeout i := ret (Ok (Fail_ "game abandoned" [FinalizeOrder (sg_id i)])) |}.

Definition ExpiringSaga : TestSaga W :=
  {| id_for := order_id_for;
     react := ignore_event;
     on_timeout i := ret (Ok (Complete (sg_state i) [FinalizeOrder (sg_id i)])) |}.

Definition SnoozingSaga : TestSaga W :=
  {| id_for := order_id_for; react := ignore_event; on_timeout _ := ret (Ok Ignore) |}.
End Sagas.

(** A foreign event and its conversion. *)
Record DepositConfirmed := mkDepositConfirmed { dc_order_id : string; dc_amount_cents : Z }.

Definition OrderPlaced_from (value : DepositConfirmed) : OrderPlaced :=
  mkOrderPlaced (dc_order_id value) (dc_amount_cents value).

(** ** The store of the tests *)

Record TestSagaStore := mkTestSagaStore { instances : gmap string Instance_ }.

Definition option_leb (a b : option Z) : bool :=
  match a, b with
  | None, _ => true
  | Some _, None => false
  | Some a, Some b => a <=? b
  end.

Section Store.
Context {W : Type} `{!Lens W TestSagaStore, !MapIter string Instance_}.

Definition TestSagaStore_load (id : string) : M W (result (option Instance_) Empty_set) :=
  do! s <- mget; ret (Ok (instances s !! id)).

Definition TestSagaStore_save (instance : Instance_)
  : M W (result unit (SagaSaveError Empty_set)) :=
  do! s <- mget;
  let expected := sg_version instance in
  let actual := sg_version <$> instances s !! sg_id instance in
  if negb (default 0 actual =? expected) then ret (Err (SaveConflict expected actual))
  else
    do! _ <- mput (mkTestSagaStore
                     (<[sg_id instance := set_sg_version (u64_add expected 1) instance]> (instances s)));
    ret (Ok tt).

(** One turn of the claiming loop. *)
Definition claim_candidate (now : Instant) (lease : Duration) (id : string)
  (st : list Instance_ * gmap string Instance_) : list Instance_ * gmap string Instance_ :=
  match st.2 !! id with
  | Some stored =>
      let leased := set_sg_version (u64_add (sg_version stored) 1)
                      (set_sg_deadline (Some (now + lease)) stored) in
      (st.1 ++ [set_sg_deadline (sg_deadline stored) leased], <[id := leased]> st.2)
  | None => st
  end.

Definition TestSagaStore_claim_due (now : Instant) (lease : Duration) (limit : nat)
  : M W (result (list Instance_) Empty_set) :=
  do! s <- mget;
  let due i := bool_decide (sg_status i = SRunning)
               && match sg_deadline i with Some d => d <=? now | None => false end in
  let candidates := sg_id <$> filter (fun i => due i = true) (map_iter (instances s)).*2 in
  let sorted := sort_by_key (fun id => instances s !! id ≫= sg_deadline) option_leb candidates in
  let '(claimed, m) :=
    foldl (fun st id => claim_candidate now lease id st) ([], instances s) (take limit sorted) in
  do! _ <- mput (mkTestSagaStore m);
  ret (Ok claimed).

#[export] Instance TestSagaStore_store : SagaStore W string BillingState Empty_set := {
  saga_load := TestSagaStore_load;
  saga_save := TestSagaStore_save;
  claim_due := TestSagaStore_claim_due;
}.

(** The contract of [save], discharged by a second implementation. *)
#[export] Instance TestSagaStore_laws `{!LensLaws W TestSagaStore} :
  SagaStoreLaws W Empty_set (fun w => instances (lget w)).
Proof.
  constructor; [done|]. intros i w. cbn. unfold TestSagaStore_save, bind, mget, mput, ret, cas_ok.
  destruct (default 0 (sg_version <$> instances (lget w) !! sg_id i) =? sg_version i) eqn:E;
    destruct (instances (lget w) !! sg_id i) as [c|]; cbn -[Z.eqb] in E |- *; rewrite ?lget_lset;
    repeat split; try done; lia.
Qed.
End Store.

(** ** The outbox of the tests *)

Record TestOutbox := mkTestOutbox { messages : gmap Uuid OutboxMessage }.

Section TestOutboxOps.
Context {W : Type} `{!Env W, !Lens W TestOutbox, !MapIter Uuid OutboxMessage}.

Definition TestOutbox_insert (m : OutboxMessage) : M W (result unit OutboxError) :=
  do! s <- mget;
  do! _ <- mput (mkTestOutbox (<[ob_id m := m]> (messages s)));
  ret (Ok tt).

(** The filter of [pending]: the clock is read for each pending message. *)
Fixpoint filter_due (l : list OutboxMessage) : M W (list OutboxMessage) :=
  match l with
  | [] => ret []
  | m :: l =>
      if bool_decide (ob_status m = Pending) then
        do! now <- utc_now;
        do! rest <- filter_due l;
        ret (if ob_next_attempt_at m <=? now then m :: rest else rest)
      else filter_due l
  end.

Definition TestOutbox_pending (limit : nat) : M W (result (list OutboxMessage) OutboxError) :=
  do! s <- mget;
  do! due <- filter_due (map_iter (messages s)).*2;
  ret (Ok (take limit (sort_by_key ob_created_at Z.leb due))).

(** [if let Some(message) = messages.get_mut(&id)] *)
Definition update_message (id : Uuid) (f : OutboxMessage -> M W OutboxMessage)
  : M W (result unit OutboxError) :=
  do! s <- mget;
  match messages s !! id with
  | Some m =>
      do! m' <- f m;
      do! _ <- mput (mkTestOutbox (<[id := m']> (messages s)));
      ret (Ok tt)
  | None => ret (Ok tt)
  end.

Definition TestOutbox_record_attempt (id : Uuid) : M W (result unit OutboxError) :=
  update_message id OutboxMessage_record_attempt.
Definition TestOutbox_mark_published (id : Uuid) : M W (result unit OutboxError) :=
  update_message id OutboxMessage_mark_published.
Definition TestOutbox_mark_failed (id : Uuid) (error : string) : M W (result unit OutboxError) :=
  update_message id (OutboxMessage_mark_failed error).
Definition TestOutbox_failed (limit : nat) : M W (result (list OutboxMessage) OutboxError) :=
  do! s <- mget;
  ret (Ok (take limit (filter (fun m => ob_status m = Failed) (map_iter (messages s)).*2))).
Definition TestOutbox_mark_dead_lettered (id : Uuid) : M W (result unit OutboxError) :=
  update_message id (fun m => ret (set_ob_status DeadLettered (ob_updated_at m) (ob_last_error m) m)).

(** [schedule_retry] is the provided method, which does nothing. *)
#[export] Instance TestOutbox_repository : OutboxRepository W := {
  outbox_insert := TestOutbox_insert;
  outbox_pending := TestOutbox_pending;
  outbox_record_attempt := TestOutbox_record_attempt;
  outbox_schedule_retry _ _ := ret (Ok tt);
  outbox_mark_published := TestOutbox_mark_published;
  outbox_mark_failed := TestOutbox_mark_failed;
  outbox_failed := TestOutbox_failed;
  outbox_mark_dead_lettered := TestOutbox_mark_dead_lettered;
}.
End TestOutboxOps.

(** ** Dispatchers and the drain *)

Record VecDispatcher := mkVecDispatcher { vec_commands : list BillingCommand }.
Record FlakyOnceDispatcher := mkFlaky { failed_once : bool; flaky_commands : list BillingCommand }.

Definition VecDispatcher_dispatcher {W} `{!Lens W VecDispatcher}
  : CommandDispatcher W BillingCommand Empty_set :=
  {| dispatch_command command :=
       do! d <- mget;
       do! _ <- mput (mkVecDispatcher (vec_commands d ++ [command]));
       ret (Ok tt) |}.

Inductive TransientDispatchFailure := TransientFailure.
Definition TransientDispatchFailure_to_string (_ : TransientDispatchFailure) : string :=
  "dispatch failed transiently".

Definition FlakyOnceDispatcher_dispatcher {W} `{!Lens W FlakyOnceDispatcher}
  : CommandDispatcher W BillingCommand TransientDispatchFailure :=
  {| dispatch_command command :=
       do! d <- mget;
       if negb (failed_once d) then
         do! _ <- mput (mkFlaky true (flaky_commands d));
         ret (Err TransientFailure)
       else
         do! _ <- mput (mkFlaky true (flaky_commands d ++ [command]));
         ret (Ok tt) |}.

(** [serde_json] for a command. *)
Class BillingJson : Type := {
  to_vec : BillingCommand -> string;
  from_slice : string -> result BillingCommand string;
}.

Section Tests.
Context {W : Type} `{!Env W, J : BillingJson, !MapIter string Instance_, !MapIter Uuid OutboxMessage}.
Context `{!Lens W TestSagaStore, !Lens W TestOutbox, !Lens W VecDispatcher, !Lens W FlakyOnceDispatcher}.

Abbreviation Test := (M W (option (result unit string))) (only parsing).
Abbreviation RunnerE := (SagaRunnerError Empty_set Empty_set) (only parsing).

Definition map_billing_command (command : BillingCommand) : M W Message :=
  do! id <- uuid_now_v7;
  ret (Message_new id "billing-commands" (to_vec command) "application/json").

Definition decode_billing_command (payload : string) : result BillingCommand string :=
  from_slice payload.

Definition never_s (e : Empty_set) : string := match e with end.

Definition vec_publisher : MessagePublisher W :=
  {| publish := DurableCommandPublisher_publish (CommandDispatcher0 := VecDispatcher_dispatcher)
                  decode_billing_command (fun e => e) never_s |}.
Definition flaky_publisher : MessagePublisher W :=
  {| publish := DurableCommandPublisher_publish (CommandDispatcher0 := FlakyOnceDispatcher_dispatcher)
                  decode_billing_command (fun e => e) TransientDispatchFailure_to_string |}.

Definition drain : M W (option (list BillingCommand)) :=
  live! result <- dispatch_batch (MessagePublisher0 := vec_publisher) DispatchConfig_default;
  assert! DispatchResult_is_ok result;
  do! d <- mget;
  ret (Some (vec_commands d)).

(** [runner.handle(&event)] and [runner.run_due_timeouts(Utc::now(), 1 min, limit)] *)
Definition run (saga : TestSaga W) (event : OrderPlaced) : M W (result unit RunnerE) :=
  handle (Saga0 := saga) map_billing_command event.

Definition sweep (saga : TestSaga W) (limit : nat) : M W (result nat RunnerE) :=
  do! now <- utc_now;
  run_due_timeouts (Saga0 := saga) map_billing_command now (60 * NANOS_PER_SEC) limit.

(** The text of an error is of no interest to a test that returns it. *)
Definition q {A E} (c : M W (result A E)) : M W (result A string) := boxed (fun _ => "error") c.

Definition is_failed {A} (r : result A RunnerE) : bool :=
  match r with Err (RunnerFailed _) => true | _ => false end.

(** [store.load(&id).await?.ok_or("instance must exist")?] *)
Definition stored_instance (id : string) : M W (result Instance_ string) :=
  try! found <- q (saga_load (StoreE := Empty_set) id);
  ret (ok_or found "instance must exist").

Definition save (i : Instance_) : M W (result unit string) := q (saga_save (StoreE := Empty_set) i).

Definition expired_instance (id : string) : M W Instance_ :=
  do! now <- utc_now;
  SagaInstance_running_until id (AwaitingReservation 100) (now - 300 * NANOS_PER_SEC).

Definition fail_transition_returns_error_instead_of_panicking : Test :=
  do! r <- run AlwaysFailingSaga (mkOrderPlaced "order-9" 100);
  match r with
  | Err (RunnerFailed reason) =>
      assert! bool_decide (reason = "funds could not be reserved"); ret (Some (Ok tt))
  | _ => ret None
  end.

Definition fail_transition_marks_existing_instance_as_failed : Test :=
  do! i <- SagaInstance_running "order-9" (AwaitingReservation 100);
  ptry! _ <- save i;
  do! r <- run AlwaysFailingSaga (mkOrderPlaced "order-9" 100);
  assert! is_failed r;
  ptry! stored <- stored_instance "order-9";
  assert! bool_decide (sg_status stored = SFailed);
  ret (Some (Ok tt)).

Definition fail_transition_dispatches_compensating_commands : Test :=
  do! i <- SagaInstance_running "order-42" (AwaitingReservation 500);
  ptry! _ <- save i;
  do! r <- run RefundingSaga (mkOrderPlaced "order-42" 500);
  assert! is_failed r;
  ptry! stored <- stored_instance "order-42";
  assert! bool_decide (sg_status stored = SFailed);
  live! commands <- drain;
  assert! bool_decide (commands = [FinalizeOrder "order-42"]);
  ret (Some (Ok tt)).

Definition timeout_fail_dispatches_compensation_and_continues_sweep : Test :=
  do! i <- expired_instance "order-77";
  ptry! _ <- save i;
  ptry! n <- q (sweep RefundOnTimeoutSaga 10);
  assert! (n =? 1)%nat;
  ptry! stored <- stored_instance "order-77";
  assert! bool_decide (sg_status stored = SFailed);
  assert! bool_decide (sg_deadline stored = None);
  live! commands <- drain;
  assert! bool_decide (commands = [FinalizeOrder "order-77"]);
  ptry! n <- q (sweep RefundOnTimeoutSaga 10);
  assert! (n =? 0)%nat;
  ret (Some (Ok tt)).

Definition handle_any_converts_foreign_events_into_the_saga_event : Test :=
  ptry! _ <- q (handle_any (Saga0 := BillingSaga) (StoreE := Empty_set) map_billing_command
                  OrderPlaced_from (mkDepositConfirmed "order-7" 900));
  live! commands <- drain;
  assert! bool_decide (commands = [ReserveFunds "order-7" 900]);
  ret (Some (Ok tt)).

Definition default_on_timeout_fails_the_saga_and_clears_the_deadline : Test :=
  do! i <- expired_instance "order-1";
  ptry! _ <- save i;
  ptry! processed <- q (sweep BillingSaga 10);
  assert! (processed =? 1)%nat;
  ptry! stored <- stored_instance "order-1";
  assert! bool_decide (sg_status stored = SFailed);
  assert! bool_decide (sg_deadline stored = None);
  ptry! n <- q (sweep BillingSaga 10);
  assert! (n =? 0)%nat;
  ret (Some (Ok tt)).

Definition on_timeout_override_compensates_and_completes : Test :=
  do! i <- expired_instance "order-2";
  ptry! _ <- save i;
  ptry! n <- q (sweep ExpiringSaga 10);
  assert! (n =? 1)%nat;
  ptry! stored <- stored_instance "order-2";
  assert! bool_decide (sg_status stored = SCompleted);
  assert! bool_decide (sg_deadline stored = None);
  live! commands <- drain;
  assert! bool_decide (commands = [FinalizeOrder "order-2"]);
  ret (Some (Ok tt)).

Definition ignored_timeout_clears_the_deadline_and_keeps_running : Test :=
  do! i <- expired_instance "order-3";
  ptry! _ <- save i;
  ptry! n <- q (sweep SnoozingSaga 10);
  assert! (n =? 1)%nat;
  ptry! stored <- stored_instance "order-3";
  assert! bool_decide (sg_status stored = SRunning);
  assert! bool_decide (sg_deadline stored = None);
  ptry! n <- q (sweep SnoozingSaga 10);
  assert! (n =? 0)%nat;
  ret (Some (Ok tt)).

Definition run_due_timeouts_respects_future_deadlines_and_limit : Test :=
  do! i <- expired_instance "order-4";
  ptry! _ <- save i;
  do! i <- expired_instance "order-5";
  ptry! _ <- save i;
  do! now <- utc_now;
  do! i <- SagaInstance_running_until "order-future" Reserved (now + 3600 * NANOS_PER_SEC);
  ptry! _ <- save i;
  ptry! n <- q (sweep BillingSaga 1);
  assert! (n =? 1)%nat;
  ptry! n <- q (sweep BillingSaga 10);
  assert! (n =? 1)%nat;
  ptry! future <- stored_instance "order-future";
  assert! bool_decide (sg_status future = SRunning);
  assert! bool_decide (is_Some (sg_deadline future));
  ret (Some (Ok tt)).

Definition runner_starts_and_then_completes_a_saga : Test :=
  let event := mkOrderPlaced "order-1" 1500 in
  ptry! _ <- q (run BillingSaga event);
  ptry! _ <- q (run BillingSaga event);
  live! commands <- drain;
  assert! bool_decide (commands = [ReserveFunds "order-1" 1500; FinalizeOrder "order-1"]);
  ret (Some (Ok tt)).

Definition a_transient_dispatch_failure_is_retried_instead_of_lost : Test :=
  ptry! _ <- q (run BillingSaga (mkOrderPlaced "order-99" 250));
  let config := DispatchConfig_new 10 (RetryPolicy_new 3 0) in
  live! first <- dispatch_batch (MessagePublisher0 := flaky_publisher) config;
  assert! (DispatchResult_failure_count first =? 1)%nat;
  do! d <- mget;
  assert! is_empty (flaky_commands d);
  live! second <- dispatch_batch (MessagePublisher0 := flaky_publisher) config;
  assert! DispatchResult_is_ok second;
  do! d <- mget;
  assert! bool_decide (flaky_commands d = [ReserveFunds "order-99" 250]);
  ret (Some (Ok tt)).

Definition saga_tests : list Test :=
  [fail_transition_returns_error_instead_of_panicking;
   fail_transition_marks_existing_instance_as_failed;
   fail_transition_dispatches_compensating_commands;
   timeout_fail_dispatches_compensation_and_continues_sweep;
   handle_any_converts_foreign_events_into_the_saga_event;
   default_on_timeout_fails_the_saga_and_clears_the_deadline;
   on_timeout_override_compensates_and_completes;
   ignored_timeout_clears_the_deadline_and_keeps_running;
   run_due_timeouts_respects_future_deadlines_and_limit;
   runner_starts_and_then_completes_a_saga;
   a_transient_dispatch_failure_is_retried_instead_of_lost].
End Tests.

(** ** The tests pass *)

Abbreviation TestWorld :=
  (World (TestSagaStore * (TestOutbox * (VecDispatcher * FlakyOnceDispatcher)))) (only parsing).

Definition test_start : TestWorld :=
  mkWorld env_start (mkTestSagaStore ∅, (mkTestOutbox ∅, (mkVecDispatcher [], mkFlaky false []))).

(** A text codec for the commands. *)
Fixpoint read_amount (acc : Z) (s : string) : option (Z * string) :=
  match s with
  | EmptyString => None
  | String a s =>
      let d := Z.of_N (Ascii.N_of_ascii a) - 48 in
      if d =? 10 then Some (acc, s)
      else if (0 <=? d) && (d <? 10) then read_amount (10 * acc + d) s else None
  end.

#[local] Instance text_json : BillingJson := {
  to_vec c := match c with
              | ReserveFunds id amount => "R" +:+ pretty amount +:+ ":" +:+ id
              | FinalizeOrder id => "F" +:+ id
              end;
  from_slice s := match s with
                  | String "R"%char rest =>
                      match read_amount 0 rest with
                      | Some (amount, id) => Ok (ReserveFunds id amount)
                      | None => Err "invalid amount"
                      end
                  | String "F"%char id => Ok (FinalizeOrder id)
                  | _ => Err "unknown variant"
                  end;
}.

Theorem saga_tests_pass : Forall (fun test => (test test_start).1 = Some (Ok tt)) saga_tests.
Proof. repeat constructor; vm_compute; reflexivity. Qed.
