(* ===== verification/EventBusTests.v ===== *)
(** * The unit tests of the event bus, on the model

    Models the tests of crates/pharos-app/src/event_bus.rs (lines 613 to
    1031), cascade.rs (83 to 150) and resilience.rs (161 to 301). *)

From S2P Require Import Prelude Core Messaging EventBus Contract TestKit.
From Stdlib Require Import Ascii.
Local Open Scope Z_scope.

(** ** Events *)

Record Ping := mkPing { ping_occurred_at : Instant }.
Record Echo := mkEcho { echo_aggregate_id : string; echo_occurred_at : Instant; note : string }.

Inductive BusEvent := PingEvent | EchoEvent.

#[export] Instance BusEvent_eq_dec : EqDecision BusEvent.
Proof. solve_decision. Defined.
#[export] Instance BusEvent_countable : Countable BusEvent.
Proof.
  refine (inj_countable' (fun t => match t with PingEvent => true | EchoEvent => false end)
            (fun b : bool => if b then PingEvent else EchoEvent) _). by intros [].
Defined.

#[export] Instance BusEvent_events : EventTypes BusEvent := {
  carrier t := match t with PingEvent => Ping | EchoEvent => Echo end;
  event_type t := match t with PingEvent => fun _ => "Ping" | EchoEvent => fun _ => "Echo" end;
  aggregate_id t :=
    match t with PingEvent => fun _ => "ping-1" | EchoEvent => echo_aggregate_id end;
}.

Section BusTests.
Context {W : Type} `{!Env W, !Lens W Cells, !Serde BusEvent}.

Abbreviation Bus := (EventBus W BusEvent) (only parsing).

Definition ping : M W Ping := do! now <- utc_now; ret (mkPing now).

Definition echo (text : string) : M W Echo := do! now <- utc_now; ret (mkEcho "a-1" now text).

(** Handlers, with the tail of [std::any::type_name].  An error is its
    display, here that of [Boom]. *)
Definition Boom : string := "boom".

Definition Failing : EventHandler W PingEvent :=
  mkEventHandler PingEvent "tests::Failing" (fun _ => ret (Some (Err Boom))).

Definition Counting (cell : nat) : EventHandler W PingEvent :=
  mkEventHandler PingEvent "tests::Counting" (fun _ =>
    do! _ <- fetch_add cell 1; ret (Some (Ok tt))).

Definition Recorder_handle (cell : nat) (event : Echo) : M W (option (result unit string)) :=
  do! _ <- push_text cell (note event); ret (Some (Ok tt)).

Definition Recorder (cell : nat) : EventHandler W EchoEvent :=
  mkEventHandler EchoEvent "tests::Recorder" (Recorder_handle cell).

Definition SecondRecorder (cell : nat) : EventHandler W EchoEvent :=
  mkEventHandler EchoEvent "tests::SecondRecorder" (Recorder_handle cell).

Definition publish_ping (bus : Bus) : M W (option (result unit EventBusError)) :=
  do! event <- ping; EventBus_publish bus PingEvent event.

Definition fail_fast_stops_at_the_first_failing_handler : Test W :=
  do! seen <- new_number;
  let bus := EventBus_register PingEvent (Counting seen)
               (EventBus_register PingEvent Failing EventBus_new) in
  live! result <- publish_ping bus;
  match result with
  | Err (HandlerError event_type source) =>
      assert! bool_decide (event_type = "Ping");
      assert! bool_decide (source = Boom);
      do! n <- number seen;
      assert! n =? 0;
      passed
  | _ => ret None
  end.

Definition collect_all_delivers_to_every_handler_and_aggregates_failures : Test W :=
  do! seen <- new_number;
  let bus := EventBus_register PingEvent Failing
               (EventBus_register PingEvent (Counting seen)
                  (EventBus_register PingEvent Failing (EventBus_with_error_policy CollectAll))) in
  live! result <- publish_ping bus;
  match result with
  | Err (HandlerErrors event_type errors) =>
      assert! bool_decide (event_type = "Ping");
      assert! (length errors =? 2)%nat;
      do! n <- number seen;
      assert! n =? 1;
      passed
  | _ => ret None
  end.

Definition collect_all_with_a_single_failure_returns_it_directly : Test W :=
  do! seen <- new_number;
  let bus := EventBus_register PingEvent (Counting seen)
               (EventBus_register PingEvent Failing (EventBus_with_error_policy CollectAll)) in
  live! result <- publish_ping bus;
  assert! match result with Err (HandlerError _ _) => true | _ => false end;
  do! n <- number seen;
  assert! n =? 1;
  passed.

Definition echo_bus (cell : nat) : Bus :=
  EventBus_register_decoder EchoEvent "Echo" (EventBus_register EchoEvent (Recorder cell) EventBus_new).

Definition publish_trusted_bytes_decodes_and_dispatches_to_the_typed_handlers : Test W :=
  do! seen <- new_texts;
  let bus := echo_bus seen in
  do! event <- echo "hello";
  expect! payload <- to_vec EchoEvent event;
  live! r <- EventBus_publish_trusted_bytes bus "Echo" payload;
  expect! _ <- r;
  do! notes <- texts_of seen;
  assert! bool_decide (notes = ["hello"]);
  live! r <- EventBus_publish_trusted_bytes bus "Unknown" payload;
  expect! _ <- r;
  do! notes <- texts_of seen;
  assert! (length notes =? 1)%nat;
  live! r <- EventBus_publish_trusted_bytes bus "Echo" "not json";
  expect_err! err <- r;
  assert! match err with DecodeError _ _ => true | _ => false end;
  passed.

Definition the_deprecated_alias_still_dispatches : Test W :=
  do! seen <- new_texts;
  let bus := echo_bus seen in
  do! event <- echo "still works";
  expect! payload <- to_vec EchoEvent event;
  live! r <- EventBus_publish_erased bus "Echo" payload;
  expect! _ <- r;
  do! notes <- texts_of seen;
  assert! bool_decide (notes = ["still works"]);
  passed.

Definition two_recorders (cell1 cell2 : nat) : Bus :=
  EventBus_register_decoder EchoEvent "Echo"
    (EventBus_register EchoEvent (SecondRecorder cell2)
       (EventBus_register EchoEvent (Recorder cell1) EventBus_new)).

Definition handler_names_for_topic_lists_registered_handlers_in_order : Test W :=
  do! seen1 <- new_texts;
  do! seen2 <- new_texts;
  let bus := two_recorders seen1 seen2 in
  match handler_names_for_topic bus "Echo" with
  | [first; second] =>
      assert! ends_with "Recorder" first;
      assert! ends_with "SecondRecorder" second;
      assert! is_empty (handler_names_for_topic bus "Unknown");
      passed
  | _ => ret None
  end.

Definition dispatch_trusted_bytes_to_handler_only_runs_the_named_handler : Test W :=
  do! seen1 <- new_texts;
  do! seen2 <- new_texts;
  let bus := two_recorders seen1 seen2 in
  let names := handler_names_for_topic bus "Echo" in
  do! event <- echo "only the first";
  expect! payload <- to_vec EchoEvent event;
  live! first <- ret (names !! 0%nat);
  live! r <- dispatch_trusted_bytes_to_handler bus "Echo" payload first;
  expect! _ <- r;
  do! notes1 <- texts_of seen1;
  assert! bool_decide (notes1 = ["only the first"]);
  do! notes2 <- texts_of seen2;
  assert! is_empty notes2;
  live! second <- ret (names !! 1%nat);
  live! r <- dispatch_trusted_bytes_to_handler bus "Echo" payload second;
  expect! _ <- r;
  do! notes1 <- texts_of seen1;
  assert! bool_decide (notes1 = ["only the first"]);
  do! notes2 <- texts_of seen2;
  assert! bool_decide (notes2 = ["only the first"]);
  passed.

Definition dispatch_trusted_bytes_to_handler_is_a_noop_for_unknown_topic_or_name : Test W :=
  do! seen <- new_texts;
  let bus := echo_bus seen in
  do! event <- echo "hello";
  expect! payload <- to_vec EchoEvent event;
  live! r <- dispatch_trusted_bytes_to_handler bus "Unknown" payload "whatever";
  expect! _ <- r;
  live! r <- dispatch_trusted_bytes_to_handler bus "Echo" payload "NotRegistered";
  expect! _ <- r;
  do! notes <- texts_of seen;
  assert! is_empty notes;
  passed.

(** *** Cascades *)

Definition Recording_handle (cell : nat) (cmd : string) : M W (option (result unit string)) :=
  do! _ <- push_text cell cmd; ret (Some (Ok tt)).

Definition AlwaysFailingCommandHandler_handle (_ : unit) : M W (option (result unit string)) :=
  ret (Some (Err Boom)).

Definition record_note (cell : nat) (text : string) : CascadedCommand W :=
  cascade "RecordNote" (Recording_handle cell) text.

Definition CascadingRecorder (cell : nat) : CascadingEventHandler W PingEvent :=
  mkCascadingEventHandler PingEvent "tests::CascadingRecorder" (fun _ =>
    ret (Some (Ok [record_note cell "first"; record_note cell "second"]))).

Definition CascadingWithAFailure (cell : nat) : CascadingEventHandler W PingEvent :=
  mkCascadingEventHandler PingEvent "tests::CascadingWithAFailure" (fun _ =>
    ret (Some (Ok [record_note cell "before";
                   cascade "AlwaysFailsCommand" AlwaysFailingCommandHandler_handle tt;
                   record_note cell "after"]))).

Definition AlwaysFailingCascadingHandler : CascadingEventHandler W PingEvent :=
  mkCascadingEventHandler PingEvent "tests::AlwaysFailingCascadingHandler" (fun _ =>
    ret (Some (Err Boom))).

Definition cascading_handler_dispatches_returned_commands_in_order : Test W :=
  do! notes <- new_texts;
  live! r <- publish_ping (EventBus_register_cascading PingEvent (CascadingRecorder notes) EventBus_new);
  expect! _ <- r;
  do! seen <- texts_of notes;
  assert! bool_decide (seen = ["first"; "second"]);
  passed.

Definition a_failing_cascaded_command_stops_the_rest_of_its_own_cascade : Test W :=
  do! notes <- new_texts;
  live! r <-
    publish_ping (EventBus_register_cascading PingEvent (CascadingWithAFailure notes) EventBus_new);
  assert! match r with Err (CascadeFailed _ _) => true | _ => false end;
  do! seen <- texts_of notes;
  assert! bool_decide (seen = ["before"]);
  passed.

Definition a_failing_cascading_handler_never_builds_any_cascaded_command : Test W :=
  live! r <-
    publish_ping (EventBus_register_cascading PingEvent AlwaysFailingCascadingHandler EventBus_new);
  assert! match r with Err (HandlerError _ _) => true | _ => false end;
  passed.

(** [Increment] of cascade.rs *)
Definition IncrementHandler_handle (cell : nat) (cmd : Z) : M W (option (result Z string)) :=
  do! old <- fetch_add cell cmd; ret (Some (Ok (u32_add old cmd))).

Definition dispatch_runs_the_command_through_its_bound_handler : Test W :=
  do! total <- new_number;
  live! r <- cascade "Increment" (IncrementHandler_handle total) 5;
  expect! _ <- r;
  do! n <- number total;
  assert! n =? 5;
  passed.

Definition dispatch_surfaces_the_handler_error_with_the_command_name : Test W :=
  live! r <- cascade "AlwaysFails" AlwaysFailingCommandHandler_handle tt;
  expect_err! err <- r;
  assert! bool_decide (command_name err = "AlwaysFails");
  assert! bool_decide (cascade_source err = Boom);
  passed.

Definition event_bus_tests : list (Test W) :=
  [fail_fast_stops_at_the_first_failing_handler;
   collect_all_delivers_to_every_handler_and_aggregates_failures;
   collect_all_with_a_single_failure_returns_it_directly;
   publish_trusted_bytes_decodes_and_dispatches_to_the_typed_handlers;
   the_deprecated_alias_still_dispatches;
   handler_names_for_topic_lists_registered_handlers_in_order;
   dispatch_trusted_bytes_to_handler_only_runs_the_named_handler;
   dispatch_trusted_bytes_to_handler_is_a_noop_for_unknown_topic_or_name;
   cascading_handler_dispatches_returned_commands_in_order;
   a_failing_cascaded_command_stops_the_rest_of_its_own_cascade;
   a_failing_cascading_handler_never_builds_any_cascaded_command;
   dispatch_runs_the_command_through_its_bound_handler;
   dispatch_surfaces_the_handler_error_with_the_command_name].
End BusTests.

(** ** Decorators *)

Record MemoryDlq := mkMemoryDlq { parked : list DeadLetterMessage }.

#[export] Instance MemoryDlq_queue {W} `{!Lens W MemoryDlq} : DeadLetterQueue W := {
  dead_letter m := do! d <- mget; do! _ <- mput (mkMemoryDlq (parked d ++ [m])); ret (Ok tt);
  dead_letter_list limit := do! d <- mget; ret (Ok (take limit (parked d)));
}.

Section Decorators.
Context {W : Type} `{!Env W, !Timer W, !Lens W Cells, !Lens W MemoryDlq}.

Definition Flaky_handle (failures : Z) (attempts : nat) (_ : Ping) : M W (option (result unit string)) :=
  do! old <- fetch_add attempts 1;
  ret (Some (if u32_add old 1 <=? failures then Err Boom else Ok tt)).

Definition map_ping (_ : Ping) : M W Message :=
  do! id <- uuid_now_v7; ret (Message_new id "pings" "ping-1" "text/plain").

Definition retrying_recovers_a_transient_failure : Test W :=
  do! attempts <- new_number;
  do! event <- ping;
  live! r <- Retrying_handle (Flaky_handle 2 attempts) (RetryPolicy_new 3 1000000) event;
  assert! is_ok r;
  do! n <- number attempts;
  assert! n =? 3;
  passed.

Definition retrying_gives_up_after_the_budget : Test W :=
  do! attempts <- new_number;
  do! event <- ping;
  live! r <- Retrying_handle (Flaky_handle 10 attempts) (RetryPolicy_new 2 1000000) event;
  assert! is_err r;
  do! n <- number attempts;
  assert! n =? 2;
  passed.

Definition dead_lettering_parks_the_event_and_reports_success : Test W :=
  do! attempts <- new_number;
  do! event <- ping;
  await! _ <- pq (DeadLettering_handle (Flaky_handle u32_max attempts) (fun e => e) "order-events.dlq"
                    map_ping event);
  ptry! parked <- q (dead_letter_list 10);
  match parked with
  | [d] =>
      assert! bool_decide (topic (dl_message d) = "order-events.dlq");
      assert! bool_decide (dl_reason d = "boom");
      passed
  | _ => ret None
  end.

Definition resilience_tests : list (Test W) :=
  [retrying_recovers_a_transient_failure; retrying_gives_up_after_the_budget;
   dead_lettering_parks_the_event_and_reports_success].
End Decorators.

(** ** They pass *)

(** Only [Echo] is serialisable; its text here is its note. *)
Definition echo_to_vec (t : BusEvent) : carrier t -> result string string :=
  match t return carrier t -> result string string with
  | PingEvent => fun _ => Err "no Serialize"
  | EchoEvent => fun e => Ok ("{" +:+ note e)
  end.

Definition echo_from_slice (t : BusEvent) (s : string) : result (carrier t) string :=
  match t return result (carrier t) string with
  | PingEvent => Err "no Deserialize"
  | EchoEvent =>
      match s with
      | String "{"%char text => Ok (mkEcho "a-1" 0 text)
      | _ => Err "expected value"
      end
  end.

#[local] Instance echo_text : Serde BusEvent := {
  to_vec := echo_to_vec;
  from_slice := echo_from_slice;
}.

#[local] Instance test_timer {S} : Timer (World S) := { sleep _ := ret tt }.

Definition bus_test_start : World (Cells * MemoryDlq) := mkWorld env_start (no_cells, mkMemoryDlq []).

Theorem event_bus_tests_pass : Forall (passes bus_test_start) (event_bus_tests ++ resilience_tests).
Proof. repeat constructor; vm_compute; reflexivity. Qed.
