(* ===== verification/ServiceTests.v ===== *)
(** * The unit tests of the application services, on the model

    Models the tests of crates/pharos-app/src/service.rs (lines 220 to 659),
    with the repositories and the outbox they bring along, and those of
    error.rs and aggregate_store.rs. *)

From S2P Require Import Prelude Core Messaging Outbox EventBus UnitOfWork AggregateStore Contract TestKit.
Local Open Scope Z_scope.

(** ** The aggregate *)

Record TestEvent := mkTestEvent { te_aggregate_id : string; te_occurred_at : Instant }.

#[export] Instance TestEvent_events : EventTypes unit := {
  carrier _ := TestEvent;
  event_type _ _ := "TestEvent";
  aggregate_id _ := te_aggregate_id;
}.

Record TestAggregate := mkTestAggregate {
  ta_id : Z;
  ta_version : Z;
  ta_events : AggregateEvents TestEvent;
}.

#[export] Instance TestAggregate_root : AggregateRoot TestAggregate Z TestEvent := {
  agg_id := ta_id;
  pending_events a := pending (ta_events a);
  drain_events a :=
    let '(es, b) := AggregateEvents_drain (ta_events a) in
    (es, mkTestAggregate (ta_id a) (ta_version a) b);
  restore_events es a :=
    mkTestAggregate (ta_id a) (ta_version a) (AggregateEvents_restore es (ta_events a));
  version := ta_version;
  set_version v a := mkTestAggregate (ta_id a) v (ta_events a);
}.

Definition TestAggregate_raise (event : TestEvent) (a : TestAggregate) : TestAggregate :=
  mkTestAggregate (ta_id a) (ta_version a) (AggregateEvents_raise event (ta_events a)).

Definition TestAggregate_new {W} `{!Env W} (id : Z) : M W TestAggregate :=
  do! now <- utc_now;
  ret (TestAggregate_raise (mkTestEvent (pretty id) now)
         (mkTestAggregate id 0 AggregateEvents_default)).

(** ** Repositories *)

Record TestRepository := mkTestRepository { saved : list TestAggregate }.

(** An event-sourced repository in small: [save] takes the batch away. *)
Record DrainingRepository := mkDrainingRepository { appended : list TestEvent }.

Section Repositories.
Context {W : Type}.

Definition bump (a : TestAggregate) : TestAggregate := set_version (u64_add (version a) 1) a.

Definition TestRepository_repo `{!Lens W TestRepository} : Repository W TestAggregate Z Empty_set :=
  {| find_by_id id := do! r <- mget; ret (Ok (List.find (fun a => ta_id a =? id) (saved r)));
     repo_save a :=
       do! r <- mget;
       do! _ <- mput (mkTestRepository (saved r ++ [bump a]));
       ret (Ok tt, bump a);
     repo_delete id :=
       do! r <- mget;
       do! _ <- mput (mkTestRepository (List.filter (fun a => negb (ta_id a =? id)) (saved r)));
       ret (Ok tt) |}.

Definition DrainingRepository_repo `{!Lens W DrainingRepository}
  : Repository W TestAggregate Z Empty_set :=
  {| find_by_id _ := ret (Ok None);
     repo_save a :=
       let '(events, a) := drain_events a in
       do! r <- mget;
       do! _ <- mput (mkDrainingRepository (appended r ++ events));
       ret (Ok tt, set_version (u64_add (version a) (Z.of_nat (length events))) a);
     repo_delete _ := ret (Ok tt) |}.
End Repositories.

(** ** The outbox: a vector *)

Record VecOutbox := mkVecOutbox { vec_messages : list OutboxMessage }.

Section VecOutboxOps.
Context {W : Type} `{!Env W, !Lens W VecOutbox}.

(** [iter_mut().find(..).ok_or(NotFound(id))?] *)
Fixpoint update_found (id : Uuid) (f : OutboxMessage -> M W OutboxMessage) (l : list OutboxMessage)
  : M W (option (list OutboxMessage)) :=
  match l with
  | [] => ret None
  | m :: l =>
      if ob_id m =? id then do! m' <- f m; ret (Some (m' :: l))
      else live! l' <- update_found id f l; ret (Some (m :: l'))
  end.

Definition VecOutbox_update (id : Uuid) (f : OutboxMessage -> M W OutboxMessage)
  : M W (result unit OutboxError) :=
  do! o <- mget;
  do! found <- update_found id f (vec_messages o);
  match found with
  | Some l => do! _ <- mput (mkVecOutbox l); ret (Ok tt)
  | None => ret (Err (OutboxNotFound id))
  end.

Definition VecOutbox_with (status : OutboxStatus) (limit : nat)
  : M W (result (list OutboxMessage) OutboxError) :=
  do! o <- mget; ret (Ok (take limit (filter (fun m => ob_status m = status) (vec_messages o)))).

#[export] Instance VecOutbox_repository : OutboxRepository W := {
  outbox_insert m :=
    do! o <- mget; do! _ <- mput (mkVecOutbox (vec_messages o ++ [m])); ret (Ok tt);
  outbox_pending := VecOutbox_with Pending;
  outbox_record_attempt id := VecOutbox_update id OutboxMessage_record_attempt;
  outbox_schedule_retry _ _ := ret (Ok tt);
  outbox_mark_published id := VecOutbox_update id OutboxMessage_mark_published;
  outbox_mark_failed id error := VecOutbox_update id (OutboxMessage_mark_failed error);
  outbox_failed := VecOutbox_with Failed;
  outbox_mark_dead_lettered id :=
    VecOutbox_update id (fun m =>
      ret (set_ob_status DeadLettered (ob_updated_at m) (ob_last_error m) m));
}.
End VecOutboxOps.

(** ** Tests *)

Section Tests.
Context {W : Type} `{!Env W, !Lens W Cells, !Lens W TestRepository, !Lens W DrainingRepository,
  !Lens W VecOutbox, !Serde unit}.

Abbreviation Bus := (EventBus W unit) (only parsing).

Definition never (e : Empty_set) : string := match e with end.

Definition CountingHandler (seen : nat) : EventHandler W tt :=
  mkEventHandler tt "tests::CountingHandler" (fun _ =>
    do! _ <- fetch_add seen 1; ret (Some (Ok tt))).

Definition FailOnce : string := "handler failed".

Definition FailingOnceHandler (failed seen : nat) : EventHandler W tt :=
  mkEventHandler tt "tests::FailingOnceHandler" (fun _ =>
    do! f <- number failed;
    if f =? 0 then do! _ <- set_number failed 1; ret (Some (Err FailOnce))
    else do! _ <- fetch_add seen 1; ret (Some (Ok tt))).

Definition FailOnAggregateId_handle (id : string) (published : nat) (event : TestEvent)
  : M W (option (result unit string)) :=
  if bool_decide (te_aggregate_id event = id) then ret (Some (Err FailOnce))
  else do! _ <- push_text published (te_aggregate_id event); ret (Some (Ok tt)).

Definition FailOnAggregateId (id : string) (published : nat) : EventHandler W tt :=
  mkEventHandler tt "tests::FailOnAggregateId" (FailOnAggregateId_handle id published).

Definition bus_with (h : EventHandler W tt) : Bus := EventBus_register tt h EventBus_new.

(** [save_and_publish(&repo, &bus, &mut aggregate)] over either repository *)
Definition save_publish (repo : Repository W TestAggregate Z Empty_set) (bus : Bus)
  (a : TestAggregate) : M W (option (result unit ApplicationError * TestAggregate)) :=
  save_and_publish (t := tt) never bus a.

Definition saved_count : M W nat := do! r <- mget; ret (length (saved r)).

Definition save_and_publish_persists_aggregate_advances_version_and_dispatches : Test W :=
  do! seen <- new_number;
  do! aggregate <- TestAggregate_new 7;
  live! r <- save_publish TestRepository_repo (bus_with (CountingHandler seen)) aggregate;
  let '(r, aggregate) := r in
  ptry! _ <- q (ret r);
  assert! version aggregate =? 1;
  assert! is_empty (pending_events aggregate);
  do! n <- number seen;
  assert! n =? 1;
  do! rows <- saved_count;
  assert! (rows =? 1)%nat;
  passed.

Definition save_and_publish_publishes_even_when_the_repository_drains : Test W :=
  do! seen <- new_number;
  do! aggregate <- TestAggregate_new 11;
  live! r <- save_publish DrainingRepository_repo (bus_with (CountingHandler seen)) aggregate;
  let '(r, aggregate) := r in
  ptry! _ <- q (ret r);
  do! repo <- mget;
  assert! (length (appended repo) =? 1)%nat;
  do! n <- number seen;
  assert! n =? 1;
  assert! is_empty (pending_events aggregate);
  assert! version aggregate =? 1;
  passed.

Definition is_event_bus_error (r : result unit ApplicationError) : bool :=
  match r with Err (AppEventBus _) => true | _ => false end.

Definition republish_pending_retries_events_without_saving_again : Test W :=
  do! seen <- new_number;
  do! failed <- new_number;
  let bus := bus_with (FailingOnceHandler failed seen) in
  do! aggregate <- TestAggregate_new 9;
  live! r <- save_publish TestRepository_repo bus aggregate;
  let '(r, aggregate) := r in
  assert! is_event_bus_error r;
  assert! version aggregate =? 1;
  assert! (length (pending_events aggregate) =? 1)%nat;
  do! rows <- saved_count;
  assert! (rows =? 1)%nat;
  live! r <- republish_pending (t := tt) bus aggregate;
  let '(r, aggregate) := r in
  ptry! _ <- q (ret r);
  assert! version aggregate =? 1;
  assert! is_empty (pending_events aggregate);
  do! n <- number seen;
  assert! n =? 1;
  do! rows <- saved_count;
  assert! (rows =? 1)%nat;
  passed.

Fixpoint raise_each (ids : list string) (a : TestAggregate) : M W TestAggregate :=
  match ids with
  | [] => ret a
  | id :: ids => do! now <- utc_now; raise_each ids (TestAggregate_raise (mkTestEvent id now) a)
  end.

Definition a_failed_publish_restores_only_the_unpublished_remainder : Test W :=
  do! published <- new_texts;
  do! aggregate <- TestAggregate_new 3;
  do! aggregate <- raise_each ["first"; "second"; "third"] (drain_events aggregate).2;
  live! r <- save_publish TestRepository_repo (bus_with (FailOnAggregateId "second" published)) aggregate;
  let '(r, aggregate) := r in
  assert! is_event_bus_error r;
  do! ids <- texts_of published;
  assert! bool_decide (ids = ["first"]);
  assert! bool_decide (te_aggregate_id <$> pending_events aggregate = ["second"; "third"]);
  passed.

Definition map_test_event (event : TestEvent) : M W Message :=
  do! id <- uuid_now_v7;
  ret (Message_with_key (te_aggregate_id event)
         (Message_new id "test-events" (te_aggregate_id event) "text/plain")).

Definition save_and_enqueue_persists_aggregate_and_creates_outbox_message : Test W :=
  do! aggregate <- TestAggregate_new 42;
  do! r <- save_and_enqueue (t := tt) (Repository0 := TestRepository_repo) never map_test_event
             aggregate;
  let '(r, aggregate) := r in
  ptry! _ <- q (ret r);
  assert! is_empty (pending_events aggregate);
  assert! version aggregate =? 1;
  do! rows <- saved_count;
  assert! (rows =? 1)%nat;
  ptry! pending <- q (outbox_pending 10);
  match pending with
  | [row] =>
      assert! bool_decide (topic (ob_message row) = "test-events");
      assert! bool_decide (key (ob_message row) = Some "42");
      assert! bool_decide (ob_status row = Pending);
      passed
  | _ => ret None
  end.

Definition service_tests : list (Test W) :=
  [save_and_publish_persists_aggregate_advances_version_and_dispatches;
   save_and_publish_publishes_even_when_the_repository_drains;
   republish_pending_retries_events_without_saving_again;
   a_failed_publish_restores_only_the_unpublished_remainder;
   save_and_enqueue_persists_aggregate_and_creates_outbox_message].

(** *** Errors (error.rs, aggregate_store.rs) *)

Definition AppSensitive : string := "duplicate key value violates constraint orders_pkey".

Definition domain_variant_delegates_kind_and_message_to_the_wrapped_domain_error : Test W :=
  let error := AppDomain (Conflict "already shipped") in
  assert! bool_decide (ApplicationError_kind error = KConflict);
  assert! str_contains "already shipped" (ApplicationError_public_message error);
  passed.

Definition concurrency_conflict_classifies_with_its_own_message : Test W :=
  let error := AppConflict 1 (Some 2) in
  assert! bool_decide (ApplicationError_kind error = KConflict);
  assert! str_contains "expected version 1" (ApplicationError_public_message error);
  passed.

Definition repository_and_event_bus_failures_never_leak_the_wrapped_adapter_error : Test W :=
  let repo_error := AppRepository AppSensitive in
  assert! bool_decide (ApplicationError_kind repo_error = KInternal);
  assert! negb (str_contains "orders_pkey" (ApplicationError_public_message repo_error));
  assert! bool_decide (ApplicationError_public_message repo_error = "internal application error");
  passed.

Definition StoreSensitive : string := "connection to postgres://prod-db.internal:5432 refused".

Definition not_found_and_conflict_classify_with_their_own_message : Test W :=
  assert! bool_decide (StoreError_kind StNotFound = KNotFound);
  assert! bool_decide (StoreError_public_message StNotFound = "aggregate not found");
  let conflict := StConflict 2 (Some 3) in
  assert! bool_decide (StoreError_kind conflict = KConflict);
  assert! str_contains "expected version 2" (StoreError_public_message conflict);
  passed.

Definition storage_failure_never_leaks_the_wrapped_adapter_error : Test W :=
  let error := StStorage StoreSensitive in
  assert! bool_decide (StoreError_kind error = KInternal);
  assert! negb (str_contains "postgres://" (StoreError_public_message error));
  assert! negb (str_contains "5432" (StoreError_public_message error));
  assert! bool_decide (StoreError_public_message error = "internal storage error");
  passed.

Definition error_tests : list (Test W) :=
  [domain_variant_delegates_kind_and_message_to_the_wrapped_domain_error;
   concurrency_conflict_classifies_with_its_own_message;
   repository_and_event_bus_failures_never_leak_the_wrapped_adapter_error;
   not_found_and_conflict_classify_with_their_own_message;
   storage_failure_never_leaks_the_wrapped_adapter_error].
End Tests.

#[local] Instance no_serde : Serde unit := {
  to_vec _ _ := Err "no Serialize";
  from_slice _ _ := Err "no Deserialize";
}.

Definition service_test_start : World (Cells * (TestRepository * (DrainingRepository * VecOutbox))) :=
  mkWorld env_start (no_cells, (mkTestRepository [], (mkDrainingRepository [], mkVecOutbox []))).

Theorem service_tests_pass : Forall (passes service_test_start) (service_tests ++ error_tests).
Proof. repeat constructor; vm_compute; reflexivity. Qed.
