(* ===== verification/StoreTests.v ===== *)
(** * The unit tests of the default aggregate store, on the model

    Models the tests of crates/pharos-app/src/default_store.rs (lines 234 to
    600): a backend that is repository and transactional store at once, and
    the tests in both delivery modes. *)

From S2P Require Import Prelude Core Messaging Outbox EventBus UnitOfWork AggregateStore Contract TestKit.
Local Open Scope Z_scope.

Record TestEvent := mkTestEvent { te_aggregate_id : string; te_occurred_at : Instant }.

#[export] Instance TestEvent_events : EventTypes unit := {
  carrier _ := TestEvent;
  event_type _ _ := "TestEvent";
  aggregate_id _ := te_aggregate_id;
}.

Record TestAggregate := mkTestAggregate {
  ta_id : Z;
  ta_version : Z;
  ta_events : AggregateEvents TestEvent;
}.

#[export] Instance TestAggregate_root : AggregateRoot TestAggregate Z TestEvent := {
  agg_id := ta_id;
  pending_events a := pending (ta_events a);
  drain_events a :=
    let '(es, b) := AggregateEvents_drain (ta_events a) in
    (es, mkTestAggregate (ta_id a) (ta_version a) b);
  restore_events es a :=
    mkTestAggregate (ta_id a) (ta_version a) (AggregateEvents_restore es (ta_events a));
  version := ta_version;
  set_version v a := mkTestAggregate (ta_id a) v (ta_events a);
}.

Definition TestAggregate_new {W} `{!Env W} (id : Z) : M W TestAggregate :=
  do! now <- utc_now;
  ret (mkTestAggregate id 0
         (AggregateEvents_raise (mkTestEvent (pretty id) now) AggregateEvents_default)).

(** ** The backend *)

Record TestBackend := mkTestBackend {
  aggregates : gmap Z TestAggregate;
  outbox : list OutboxMessage;
}.

(** Writes staged until the commit. *)
Record TestTx := mkTestTx {
  staged_aggregate : option (Z * TestAggregate);
  staged_outbox : list OutboxMessage;
}.

Section Backend.
Context {W : Type} `{!Lens W TestBackend}.

Definition bump (a : TestAggregate) : TestAggregate := set_version (u64_add (version a) 1) a.

#[export] Instance TestBackend_repo : Repository W TestAggregate Z Empty_set := {
  find_by_id id := do! b <- mget; ret (Ok (aggregates b !! id));
  repo_save a :=
    do! b <- mget;
    do! _ <- mput (mkTestBackend (<[ta_id a := bump a]> (aggregates b)) (outbox b));
    ret (Ok tt, bump a);
  repo_delete id :=
    do! b <- mget;
    do! _ <- mput (mkTestBackend (delete id (aggregates b)) (outbox b));
    ret (Ok tt);
}.

Definition TestBackend_commit (tx : TestTx) : M W (result unit Empty_set) :=
  do! b <- mget;
  do! _ <- mput (mkTestBackend
                   match staged_aggregate tx with
                   | Some (id, a) => <[id := a]> (aggregates b)
                   | None => aggregates b
                   end (outbox b ++ staged_outbox tx));
  ret (Ok tt).

#[export] Instance TestBackend_store : TransactionalStore W TestTx Empty_set := {
  tx_begin := ret (Some (Ok (mkTestTx None [])));
  tx_commit := TestBackend_commit;
  insert_outbox_in_tx tx m := ret (Ok tt, mkTestTx (staged_aggregate tx) (staged_outbox tx ++ [m]));
  tx_drop _ := ret tt;
}.

Definition TestBackend_tx_repo : TransactionalRepository W TestAggregate TestTx Empty_set :=
  {| save_in_tx tx a :=
       ret (Ok tt, mkTestTx (Some (ta_id a, bump a)) (staged_outbox tx), bump a) |}.

(** [ConflictingBackend]: the same backend, but [save_in_tx] always reports a
    stale write. *)
Definition ConflictingBackend_tx_repo : TransactionalRepository W TestAggregate TestTx Empty_set :=
  {| save_in_tx tx a :=
       ret (Err (ConcurrencyConflict (version a) (Some (u64_add (version a) 1))), tx, a) |}.
End Backend.

(** ** Tests *)

Section Tests.
Context {W : Type} `{!Env W, !Lens W Cells, !Lens W TestBackend, !Serde unit}.
(** The cell behind the [OutboxSignal] counts its permits. *)
Variable signal_cell : nat.

#[local] Instance test_signal : OutboxSignal W := {
  signal_notify := do! _ <- fetch_add signal_cell 1; ret tt;
}.

Definition never (e : Empty_set) : string := match e with end.

Definition CountingHandler (seen : nat) : EventHandler W tt :=
  mkEventHandler tt "tests::CountingHandler" (fun _ =>
    do! _ <- fetch_add seen 1; ret (Some (Ok tt))).

Abbreviation Store := (DefaultAggregateStore (W := W) (T := unit)) (only parsing).

Definition save_with (txr : TransactionalRepository W TestAggregate TestTx Empty_set) (s : Store)
  (a : TestAggregate) : M W (option (result unit StoreError * TestAggregate)) :=
  store_save (t := tt) never never never s a.

Definition inline_delivery_persists_and_publishes_in_process : Test W :=
  do! seen <- new_number;
  let store := DefaultAggregateStore_new (EventBus_register tt (CountingHandler seen) EventBus_new) in
  do! aggregate <- TestAggregate_new 1;
  live! r <- save_with TestBackend_tx_repo store aggregate;
  let '(r, aggregate) := r in
  ptry! _ <- q (ret r);
  assert! version aggregate =? 1;
  assert! is_empty (pending_events aggregate);
  do! n <- number seen;
  assert! n =? 1;
  ptry! found <- q (store_find (A := TestAggregate) never 1);
  ptry! loaded <- ret (ok_or found "aggregate not found");
  assert! version loaded =? 1;
  passed.

Definition outbox_delivery_enqueues_atomically_and_signals : Test W :=
  let store := with_outbox "TestEvent" true (DefaultAggregateStore_new EventBus_new) in
  do! aggregate <- TestAggregate_new 2;
  live! r <- save_with TestBackend_tx_repo store aggregate;
  let '(r, aggregate) := r in
  ptry! _ <- q (ret r);
  assert! version aggregate =? 1;
  assert! is_empty (pending_events aggregate);
  ptry! found <- q (store_find (A := TestAggregate) never 2);
  ptry! loaded <- ret (ok_or found "aggregate not found");
  assert! version loaded =? 1;
  do! b <- mget;
  match outbox b with
  | [row] =>
      assert! bool_decide (topic (ob_message row) = "TestEvent");
      assert! bool_decide (ob_status row = Pending);
      do! permits <- number signal_cell;
      ptry! _ <- ret (if 1 <=? permits then Ok tt
                      else Err "outbox signal was not notified after save");
      passed
  | _ => ret None
  end.

Definition StaticHeader_enrich (message : Message) : M W Message :=
  ret (Message_with_header "x-tenant" "acme" message).

Definition outbox_delivery_applies_enrichers_to_outgoing_messages : Test W :=
  let store := with_enricher StaticHeader_enrich
                 (with_outbox "TestEvent" false (DefaultAggregateStore_new EventBus_new)) in
  do! aggregate <- TestAggregate_new 3;
  live! r <- save_with TestBackend_tx_repo store aggregate;
  ptry! _ <- q (ret r.1);
  do! b <- mget;
  live! row <- ret (outbox b !! 0%nat);
  assert! bool_decide (headers (ob_message row) !! "x-tenant" = Some "acme");
  passed.

Definition concurrency_conflict_surfaces_and_leaves_aggregate_retryable : Test W :=
  let store := with_outbox "TestEvent" false (DefaultAggregateStore_new EventBus_new) in
  do! aggregate <- TestAggregate_new 4;
  live! r <- save_with ConflictingBackend_tx_repo store aggregate;
  let '(r, aggregate) := r in
  assert! match r with Err (StConflict 0 (Some 1)) => true | _ => false end;
  assert! version aggregate =? 0;
  assert! (length (pending_events aggregate) =? 1)%nat;
  passed.

Definition default_store_tests : list (Test W) :=
  [inline_delivery_persists_and_publishes_in_process;
   outbox_delivery_enqueues_atomically_and_signals;
   outbox_delivery_applies_enrichers_to_outgoing_messages;
   concurrency_conflict_surfaces_and_leaves_aggregate_retryable].
End Tests.

#[local] Instance id_text : Serde unit := {
  to_vec _ e := Ok (te_aggregate_id e);
  from_slice _ s := Ok (mkTestEvent s 0);
}.

Definition store_test_start : World (Cells * TestBackend) :=
  mkWorld env_start (mkCells 1 {[0%nat := 0]} ∅, mkTestBackend ∅ []).

Theorem default_store_tests_pass : Forall (passes store_test_start) (default_store_tests 0%nat).
Proof. repeat constructor; vm_compute; reflexivity. Qed.
