(* ===== verification/EsTests.v ===== *)
(** * The unit tests of the event-sourced repositories, on the model

    Models the tests of crates/pharos-es/src/lib.rs (lines 371 to 720): an
    account, an event store and a snapshot store of the tests' own, and the
    tests of both repositories. *)

From S2P Require Import Prelude Core EventSourcing Contract TestKit.
Local Open Scope Z_scope.

(** ** The account *)

Record AccountOpened := mkAccountOpened { ao_account_id : string; ao_owner : string }.

Record Account := mkAccount {
  acc_id : string;
  acc_owner : string;
  acc_version : Z;
  acc_events : AggregateEvents AccountOpened;
}.

Definition with_events (b : AggregateEvents AccountOpened) (a : Account) : Account :=
  mkAccount (acc_id a) (acc_owner a) (acc_version a) b.

#[export] Instance Account_root : AggregateRoot Account string AccountOpened := {
  agg_id := acc_id;
  pending_events a := pending (acc_events a);
  drain_events a := let '(es, b) := AggregateEvents_drain (acc_events a) in (es, with_events b a);
  restore_events es a := with_events (AggregateEvents_restore es (acc_events a)) a;
  version := acc_version;
  set_version v a := mkAccount (acc_id a) (acc_owner a) v (acc_events a);
}.

Definition Account_raise (event : AccountOpened) (a : Account) : Account :=
  with_events (AggregateEvents_raise event (acc_events a)) a.

Definition Account_open (id owner : string) : Account :=
  Account_raise (mkAccountOpened id owner) (mkAccount id owner 0 AggregateEvents_default).

#[export] Instance Account_sourced : EventSourced Account string AccountOpened := {
  default_aggregate := mkAccount "" "" 0 AggregateEvents_default;
  apply a event := mkAccount (ao_account_id event) (ao_owner event) (acc_version a) (acc_events a);
}.

(** ** The stores *)

Record TestEventStore := mkTestEventStore { test_streams : gmap string (list (StoredEvent AccountOpened)) }.
Record TestSnapshotStore := mkTestSnapshotStore { test_snapshots : gmap string (Snapshot Account) }.

Section Stores.
Context {W : Type} `{!Env W, !Lens W TestEventStore, !Lens W TestSnapshotStore}.

Definition TestEventStore_stream_len (id : string) : M W nat :=
  do! s <- mget; ret (length (default [] (test_streams s !! id))).

Fixpoint push_all (stream : list (StoredEvent AccountOpened)) (events : list AccountOpened)
  : M W (list (StoredEvent AccountOpened)) :=
  match events with
  | [] => ret stream
  | e :: events =>
      do! stored <- StoredEvent_new (u64_add (Z.of_nat (length stream)) 1) e;
      push_all (stream ++ [stored]) events
  end.

(** [entry(id).or_default()] makes the stream even when the append is
    refused. *)
Definition TestEventStore_append (id : string) (expected_version : Z) (events : list AccountOpened)
  : M W (result unit (RepositoryError Empty_set)) :=
  do! s <- mget;
  let stream := default [] (test_streams s !! id) in
  let current := Z.of_nat (length stream) in
  if negb (current =? expected_version) then
    do! _ <- mput (mkTestEventStore (<[id := stream]> (test_streams s)));
    ret (Err (ConcurrencyConflict expected_version (Some current)))
  else
    do! stream <- push_all stream events;
    do! _ <- mput (mkTestEventStore (<[id := stream]> (test_streams s)));
    ret (Ok tt).

#[export] Instance TestEventStore_store : EventStore W string AccountOpened Empty_set := {
  es_load id := do! s <- mget; ret (Ok (default [] (test_streams s !! id)));
  es_append := TestEventStore_append;
  es_delete_stream id :=
    do! s <- mget; do! _ <- mput (mkTestEventStore (delete id (test_streams s))); ret (Ok tt);
}.

#[export] Instance TestSnapshotStore_store : SnapshotStore W string Account Empty_set := {
  snap_load id := do! s <- mget; ret (Ok (test_snapshots s !! id));
  snap_save id snapshot :=
    do! s <- mget;
    do! _ <- mput (mkTestSnapshotStore (<[id := snapshot]> (test_snapshots s)));
    ret (Ok tt);
}.
End Stores.

(** ** Tests *)

Section Tests.
Context {W : Type} `{!Env W, !Lens W TestEventStore, !Lens W TestSnapshotStore}.

(** The two repositories at these stores; a snapshot after every event. *)
Definition es_save (a : Account) : M W (result unit (RepositoryError Empty_set) * Account) :=
  EventSourcedRepository_save a.
Definition es_find (id : string) : M W (result (option Account) Empty_set) :=
  EventSourcedRepository_find_by_id id.
Definition snap_repo_save (a : Account) : M W (result unit (RepositoryError Empty_set) * Account) :=
  Snapshotting_save (SE := Empty_set) (snapshot_every_new 1) a.
Definition snap_repo_find (id : string) : M W (result (option Account) Empty_set) :=
  Snapshotting_find_by_id (SE := Empty_set) id.
Definition load_snapshot (id : string) : M W (result (option (Snapshot Account)) Empty_set) :=
  snap_load id.

Definition snapshotting_repository_snapshots_and_replays_only_the_tail : Test W :=
  do! r <- snap_repo_save (Account_open "acc-1" "Igor");
  ptry! _ <- q (ret r.1);
  ptry! found <- q (load_snapshot "acc-1");
  ptry! snapshot <- ret (ok_or found "snapshot must have been taken");
  assert! snap_version snapshot =? 1;
  ptry! found <- q (snap_repo_find "acc-1");
  ptry! loaded <- ret (ok_or found "account not found");
  assert! bool_decide (acc_owner loaded = "Igor");
  assert! version loaded =? 1;
  ptry! missing <- q (snap_repo_find "missing");
  assert! is_none missing;
  passed.

Definition a_second_save_does_not_duplicate_the_stream : Test W :=
  let account := Account_open "acc-twice" "Igor" in
  assert! (length (pending_events account) =? 1)%nat;
  do! r <- es_save account;
  ptry! _ <- q (ret r.1);
  assert! is_empty (pending_events r.2);
  assert! version r.2 =? 1;
  do! r <- es_save r.2;
  ptry! _ <- q (ret r.1);
  do! n <- TestEventStore_stream_len "acc-twice";
  assert! (n =? 1)%nat;
  assert! version r.2 =? 1;
  passed.

Definition snapshotting_save_drains_and_snapshots_clean_state : Test W :=
  do! r <- snap_repo_save (Account_open "acc-pending-snap" "Igor");
  ptry! _ <- q (ret r.1);
  assert! is_empty (pending_events r.2);
  ptry! found <- q (load_snapshot "acc-pending-snap");
  ptry! snapshot <- ret (ok_or found "snapshot must have been taken");
  assert! is_empty (pending_events (snap_state snapshot));
  do! r <- snap_repo_save r.2;
  ptry! _ <- q (ret r.1);
  do! n <- TestEventStore_stream_len "acc-pending-snap";
  assert! (n =? 1)%nat;
  passed.

Definition restore_events_puts_the_remainder_back_in_front : Test W :=
  let '(drained, account) := drain_events (Account_open "acc-restore" "Igor") in
  assert! (length drained =? 1)%nat;
  let account := Account_raise (mkAccountOpened "acc-restore" "Raised After") account in
  let account := restore_events drained account in
  match pending_events account with
  | [first; second] =>
      assert! bool_decide (ao_owner first = "Igor");
      assert! bool_decide (ao_owner second = "Raised After");
      passed
  | _ => ret None
  end.

Definition delete_removes_the_stream : Test W :=
  do! r <- es_save (Account_open "acc-2" "Igor");
  ptry! _ <- q (ret r.1);
  ptry! _ <- q (EventSourcedRepository_delete (Ev := AccountOpened) (E := Empty_set) "acc-2");
  ptry! found <- q (es_find "acc-2");
  assert! is_none found;
  passed.

Definition repository_rehydrates_from_stream : Test W :=
  do! r <- es_save (Account_open "acc-1" "Igor");
  ptry! _ <- q (ret r.1);
  ptry! found <- q (es_find "acc-1");
  ptry! loaded <- ret (ok_or found "account not found");
  assert! bool_decide (acc_id loaded = "acc-1");
  assert! bool_decide (acc_owner loaded = "Igor");
  passed.

Definition es_tests : list (Test W) :=
  [snapshotting_repository_snapshots_and_replays_only_the_tail;
   a_second_save_does_not_duplicate_the_stream;
   snapshotting_save_drains_and_snapshots_clean_state;
   restore_events_puts_the_remainder_back_in_front;
   delete_removes_the_stream;
   repository_rehydrates_from_stream].
End Tests.

Definition es_test_start : World (TestEventStore * TestSnapshotStore) :=
  mkWorld env_start (mkTestEventStore ∅, mkTestSnapshotStore ∅).

Theorem es_tests_pass : Forall (passes es_test_start) es_tests.
Proof. repeat constructor; vm_compute; reflexivity. Qed.
