(* ===== verification/RealtimeTests.v ===== *)
(** * The unit tests of the realtime hub, on the model

    Models the tests of crates/pharos-realtime/src: memory.rs (lines 472 to
    785, but for the one that races threads, whose interleavings the theorems
    of Realtime cover), hub.rs, auth.rs and ws.rs. *)

From S2P Require Import Prelude Realtime RealtimeWs Contract TestKit.
Local Open Scope Z_scope.

Section HubTests.
Context {W Sender Receiver : Type} `{!Lens W (Rooms Sender), !Broadcast W Sender Receiver}.

Abbreviation Stream := (RoomStream Receiver) (only parsing).

(** [RoomId::parse(id)], or a panic. *)
Definition room_id (id : string) : option RoomId :=
  match RoomId_parse id with Ok r => Some r | Err _ => None end.

Definition msg (r : RoomId) (payload : string) : RealtimeMessage := RealtimeMessage_new r "test" payload.

(** [hub.subscribe(&room)], [subscribe_since], [publish], [stream.next()] and
    the drop of a stream. *)
Definition sub (h : InMemoryHub) (r : RoomId) : M W (result Stream RealtimeError) :=
  InMemoryHub_subscribe h r.
Definition sub_since (h : InMemoryHub) (r : RoomId) (since : option Z)
  : M W (result (Backlog * Stream) RealtimeError) := InMemoryHub_subscribe_since h r since.
Definition pub (h : InMemoryHub) (m : RealtimeMessage) : M W (result unit RealtimeError) :=
  InMemoryHub_publish h m.
Definition next (s : Stream) : M W (option RealtimeMessage) := mmap mjoin (RoomStream_next 64 s).
Definition drop_stream (s : Stream) : M W unit := RoomGuard_drop (rs_guard s).
Definition room_count : M W Z := InMemoryHub_room_count (Sender := Sender).

(** [for payload in [..] { let _ = hub.publish(msg(&room, payload)).await; }] *)
Fixpoint pub_all (h : InMemoryHub) (r : RoomId) (payloads : list string) : M W unit :=
  match payloads with
  | [] => ret tt
  | p :: payloads => do! _ <- pub h (msg r p); pub_all h r payloads
  end.

(** The same, where a failure panics. *)
Fixpoint pub_each (h : InMemoryHub) (r : RoomId) (payloads : list string) : M W (option unit) :=
  match payloads with
  | [] => ret (Some tt)
  | p :: payloads =>
      do! sent <- pub h (msg r p);
      match sent with Ok _ => pub_each h r payloads | Err _ => ret None end
  end.

(** The versions of the next [n] messages. *)
Fixpoint next_versions (n : nat) (s : Stream) : M W (option (list Z)) :=
  match n with
  | O => ret (Some [])
  | S n =>
      live! received <- next s;
      live! rest <- next_versions n s;
      ret (Some (version received :: rest))
  end.

Definition every_message_gets_a_monotonic_room_version : Test W :=
  let hub := InMemoryHub_new in
  live! r <- ret (room_id "game:1");
  do! s <- sub hub r;
  expect! stream <- s;
  live! _ <- pub_each hub r ["a"; "b"; "c"];
  live! versions <- next_versions 3 stream;
  assert! bool_decide (versions = [1; 2; 3]);
  passed.

Definition a_reconnecting_subscriber_gets_exactly_what_it_missed : Test W :=
  let hub := InMemoryHub_new in
  live! r <- ret (room_id "game:1");
  do! s <- sub hub r;
  expect! _ <- s;
  do! _ <- pub_all hub r ["a"; "b"; "c"; "d"];
  do! s <- sub_since hub r (Some 2);
  expect! resumed <- s;
  match resumed.1 with
  | Replayed missed => assert! bool_decide (version <$> missed = [3; 4]); passed
  | _ => ret None
  end.

Definition falling_further_behind_than_the_backlog_is_reported_as_a_gap : Test W :=
  let hub := InMemoryHub_with_backlog 2 InMemoryHub_new in
  live! r <- ret (room_id "game:1");
  do! s <- sub hub r;
  expect! _ <- s;
  do! _ <- pub_all hub r ["a"; "b"; "c"; "d"];
  do! s <- sub_since hub r (Some 0);
  expect! resumed <- s;
  assert! bool_decide (resumed.1 = Gap 3);
  passed.

Definition a_collected_room_never_claims_the_client_is_up_to_date : Test W :=
  let hub := InMemoryHub_new in
  live! r <- ret (room_id "game:1");
  do! s <- sub hub r;
  expect! only_subscriber <- s;
  do! _ <- pub_all hub r ["a"; "b"];
  do! _ <- drop_stream only_subscriber;
  do! n <- room_count;
  assert! n =? 0;
  do! s <- sub_since hub r (Some 1);
  expect! resumed <- s;
  assert! bool_decide (resumed.1 = Unavailable);
  passed.

Definition resuming_at_the_head_replays_nothing : Test W :=
  let hub := InMemoryHub_new in
  live! r <- ret (room_id "game:1");
  do! s <- sub hub r;
  expect! _ <- s;
  do! _ <- pub_all hub r ["a"];
  do! s <- sub_since hub r (Some 1);
  expect! resumed <- s;
  assert! bool_decide (resumed.1 = Replayed []);
  passed.

Definition retention_is_bounded_per_room : Test W :=
  let hub := InMemoryHub_with_backlog 3 InMemoryHub_new in
  live! r <- ret (room_id "game:1");
  do! s <- sub hub r;
  expect! _ <- s;
  do! _ <- pub_all hub r ((fun index : nat => "m" +:+ pretty index) <$> seq 0 500);
  do! rooms <- mget;
  match (rooms : Rooms Sender) !! r with
  | Some entry => assert! (length (entry_backlog entry) =? 3)%nat; passed
  | None => ret None
  end.

Definition two_subscribers_on_the_same_room_both_receive_a_publish : Test W :=
  let hub := InMemoryHub_new in
  live! r <- ret (room_id "game:1");
  ptry! sub_a <- q (sub hub r);
  ptry! sub_b <- q (sub hub r);
  ptry! _ <- q (pub hub (msg r "hello"));
  live! received_a <- next sub_a;
  live! received_b <- next sub_b;
  assert! bool_decide (payload received_a = "hello");
  assert! bool_decide (payload received_b = "hello");
  passed.

Definition a_subscriber_on_a_different_room_does_not_receive_it : Test W :=
  let hub := InMemoryHub_new in
  live! room_a <- ret (room_id "game:a");
  live! room_b <- ret (room_id "game:b");
  ptry! sub_b <- q (sub hub room_b);
  ptry! _ <- q (pub hub (msg room_a "for-a-only"));
  ptry! _ <- q (pub hub (msg room_b "for-b"));
  live! received <- next sub_b;
  assert! bool_decide (payload received = "for-b");
  passed.

Definition publishing_with_no_subscribers_does_not_error : Test W :=
  let hub := InMemoryHub_new in
  live! r <- ret (room_id "game:empty");
  ptry! _ <- q (pub hub (msg r "nobody is listening"));
  do! n <- room_count;
  assert! n =? 0;
  passed.

Fixpoint subscribe_and_drop (h : InMemoryHub) (i n : nat) : M W (option (result unit string)) :=
  match n with
  | O => passed
  | S n =>
      live! r <- ret (room_id ("attacker:" +:+ pretty i));
      ptry! s <- q (sub h r);
      do! _ <- drop_stream s;
      subscribe_and_drop h (S i) n
  end.

Definition a_room_is_collected_when_its_last_subscriber_drops_even_without_a_publish : Test W :=
  await! _ <- subscribe_and_drop InMemoryHub_new 0 1000;
  do! n <- room_count;
  assert! n =? 0;
  passed.

Definition a_room_survives_until_its_last_subscriber_drops : Test W :=
  let hub := InMemoryHub_new in
  live! r <- ret (room_id "game:gc");
  ptry! first <- q (sub hub r);
  ptry! second <- q (sub hub r);
  do! n <- room_count;
  assert! n =? 1;
  do! _ <- drop_stream first;
  do! n <- room_count;
  assert! n =? 1;
  do! _ <- drop_stream second;
  do! n <- room_count;
  assert! n =? 0;
  passed.

Definition subscribing_past_the_room_ceiling_is_rejected : Test W :=
  let hub := InMemoryHub_with_limits 8 2 in
  live! room_a <- ret (room_id "room:a");
  live! room_b <- ret (room_id "room:b");
  live! room_c <- ret (room_id "room:c");
  ptry! _ <- q (sub hub room_a);
  ptry! _ <- q (sub hub room_b);
  do! refused <- sub hub room_c;
  assert! match refused with Err (ReCapacity _) => true | _ => false end;
  ptry! _ <- q (sub hub room_a);
  passed.

Definition hub_behind_arc_still_implements_realtime_hub : Test W :=
  ptry! r <- q (ret (RoomId_parse "game:2"));
  ptry! _ <- q (pub InMemoryHub_new (RealtimeMessage_new r "kind" "123"));
  passed.

Definition hub_tests : list (Test W) :=
  [every_message_gets_a_monotonic_room_version;
   a_reconnecting_subscriber_gets_exactly_what_it_missed;
   falling_further_behind_than_the_backlog_is_reported_as_a_gap;
   a_collected_room_never_claims_the_client_is_up_to_date;
   resuming_at_the_head_replays_nothing;
   retention_is_bounded_per_room;
   two_subscribers_on_the_same_room_both_receive_a_publish;
   a_subscriber_on_a_different_room_does_not_receive_it;
   publishing_with_no_subscribers_does_not_error;
   a_room_is_collected_when_its_last_subscriber_drops_even_without_a_publish;
   a_room_survives_until_its_last_subscriber_drops;
   subscribing_past_the_room_ceiling_is_rejected;
   hub_behind_arc_still_implements_realtime_hub].
End HubTests.

(** ** Identifiers and errors (hub.rs, auth.rs, ws.rs) *)

Section ValueTests.
Context {W : Type}.

Definition is_disallowed (r : result RoomId InvalidRoomId) : bool :=
  match r with Err (IRDisallowedCharacter _) => true | _ => false end.

Definition room_id_displays_as_its_inner_string : Test W :=
  live! r <- ret (room_id "game:abc-123");
  assert! bool_decide (as_str r = "game:abc-123");
  assert! bool_decide (RoomId_to_string r = "game:abc-123");
  passed.

Definition room_id_accepts_the_conventional_shapes : Test W :=
  assert! forallb (fun id => is_ok (RoomId_parse id))
            ["game:1"; "tenant/acme/orders"; "a.b-c_d"; "ABC123"];
  passed.

Definition room_id_rejects_nats_subject_wildcards : Test W :=
  assert! forallb (fun id => is_disallowed (RoomId_parse id)) [">"; "*"; "game:*"; "game:>"];
  passed.

Fixpoint str_repeat (n : nat) (s : string) : string :=
  match n with O => "" | S n => s +:+ str_repeat n s end.

(** A string with the byte [b] between its halves. *)
Definition around (s : string) (b : nat) (t : string) : string :=
  s +:+ String (Ascii.ascii_of_nat b) t.

Definition room_id_rejects_empty_oversized_and_control_characters : Test W :=
  assert! match RoomId_parse "" with Err IREmpty => true | _ => false end;
  assert! match RoomId_parse (str_repeat 129 "x") with
          | Err (IRTooLong len) => len =? MAX_ROOM_ID_LEN + 1
          | _ => false
          end;
  assert! forallb (fun id => is_disallowed (RoomId_parse id))
            [around "game" 10 "1"; around "game" 32 "1"; around "game" 9 "1"; around "game" 0 "1"];
  passed.

Definition identity_display_matches_its_inner_string : Test W :=
  let identity := Identity_new "player-42" in
  assert! bool_decide (identity_as_str identity = "player-42");
  assert! bool_decide (Identity_to_string identity = "player-42");
  passed.

(** The authenticator of the test refuses every request. *)
Definition AlwaysRejects : ConnectionAuthenticator W unit :=
  {| authenticate _ := ret (Err (ReUnauthorized "no credentials")) |}.

Definition rejecting_authenticator_surfaces_unauthorized : Test W :=
  do! result <- authenticate (ConnectionAuthenticator := AlwaysRejects) tt;
  assert! match result with Err (ReUnauthorized _) => true | _ => false end;
  passed.

Definition errors_map_to_the_status_that_tells_the_client_what_to_do : Test W :=
  assert! forallb (fun case => RealtimeError_status case.1 =? case.2)
            [(ReUnauthorized "no token", 401); (ReForbidden "player-1" "game:2", 403);
             (ReCapacity "too many rooms", 503)];
  passed.

Definition value_tests : list (Test W) :=
  [room_id_displays_as_its_inner_string;
   room_id_accepts_the_conventional_shapes;
   room_id_rejects_nats_subject_wildcards;
   room_id_rejects_empty_oversized_and_control_characters;
   identity_display_matches_its_inner_string;
   rejecting_authenticator_surfaces_unauthorized;
   errors_map_to_the_status_that_tells_the_client_what_to_do].
End ValueTests.

Definition hub_test_start : Rooms nat * Bus := (∅, mkBus [] []).

Theorem realtime_tests_pass :
  Forall (passes hub_test_start) (hub_tests (Sender := nat) (Receiver := nat) ++ value_tests).
Proof. repeat constructor; vm_compute; reflexivity. Qed.
