(* ===== verification/HttpTests.v ===== *)
(** * The unit tests of the dispatch seam and the HTTP layer, on the model

    Models the tests of crates/pharos-app/src: command.rs (lines 252 to 390),
    query.rs and tower_service.rs, and of crates/pharos-axum/src: lib.rs
    (lines 424 to 757) and observability.rs (247 to 404).

    Routing and the extraction of a JSON body are axum's: a request is the
    payload its route is handed, a response the status and what the route
    answered.  A captured log line is axum's and tracing's rendering of the
    span; the tests look for the values recorded on it. *)

From S2P Require Import Prelude Core AggregateStore Tenancy Dispatch Observability Contract TestKit.
Local Open Scope Z_scope.

(** ** Commands and queries (command.rs, query.rs, tower_service.rs) *)

Section Seam.
Context {W : Type}.

Record Increment := mkIncrement { increment_0 : Z }.

#[export] Instance Increment_command : Command Increment := Command_default Increment "Increment".

Definition IncrementHandler_handle : Handler W Increment Z Empty_set :=
  fun cmd => ret (Ok (u32_add (increment_0 cmd) 1)).

Definition dispatch_runs_handler_and_returns_output : Test W :=
  ptry! out <- q (dispatch IncrementHandler_handle (mkIncrement 41));
  assert! out =? 42;
  passed.

Record Rejecting := mkRejecting { rejecting_0 : Z }.

#[export] Instance Rejecting_command : Command Rejecting := {
  NAME := "Rejecting";
  INTERNAL_ONLY := false;
  validate_input c := if rejecting_0 c =? 0
                      then Err (ValidationError_violation "0" "value must be positive")
                      else Ok tt;
}.

Definition RejectingHandler_handle : Handler W Rejecting Z Empty_set :=
  fun cmd => ret (Ok (rejecting_0 cmd)).

Definition dispatch_rejects_invalid_input_before_the_handler_runs : Test W :=
  do! result <- dispatch RejectingHandler_handle (mkRejecting 0);
  match result with
  | Err (DispatchValidation error) =>
      assert! (length (violations error) =? 1)%nat;
      live! first <- ret (violations error !! 0%nat);
      assert! bool_decide (fv_path first = "0");
      ptry! out <- q (dispatch RejectingHandler_handle (mkRejecting 7));
      assert! out =? 7;
      passed
  | _ => ret None
  end.

Definition command_name_is_exposed_as_a_stable_label : Test W :=
  assert! bool_decide (NAME Increment = "Increment"); passed.

Definition validate_input_is_a_noop_by_default : Test W :=
  assert! is_ok (validate_input (mkIncrement 0)); passed.

Definition commands_are_http_reachable_by_default : Test W :=
  assert! negb (INTERNAL_ONLY Increment); passed.

Inductive Payout := PayoutCommand.

#[export] Instance Payout_command : Command Payout := {
  NAME := "Payout"; INTERNAL_ONLY := true; validate_input _ := Ok tt;
}.

Definition a_command_can_be_marked_internal_only : Test W :=
  assert! INTERNAL_ONLY Payout; passed.

Inductive SensitiveHandlerError := SensitiveHandler.

#[export] Instance SensitiveHandlerError_classified : ClassifiedError SensitiveHandlerError := {
  display _ := "permission denied for warehouse-7";
  kind _ := KForbidden;
  public_message _ := "forbidden";
}.

Definition dispatch_error_validation_classifies_as_validation_with_the_violation_text : Test W :=
  let error : DispatchError SensitiveHandlerError :=
    DispatchValidation (ValidationError_violation "qty" "must be positive") in
  assert! bool_decide (DispatchError_kind error = KValidation);
  assert! str_contains "must be positive" (DispatchError_public_message error);
  passed.

Definition dispatch_error_handler_delegates_classification_to_the_handler_error : Test W :=
  let error := DispatchHandler SensitiveHandler in
  assert! bool_decide (DispatchError_kind error = KForbidden);
  assert! bool_decide (DispatchError_public_message error = "forbidden");
  assert! negb (str_contains "warehouse-7" (DispatchError_public_message error));
  passed.

(** [Double] of query.rs *)
Definition DoubleHandler_handle : Handler W Z Z Empty_set := fun q => ret (Ok ((q * 2) mod 2 ^ 32)).

Definition dispatch_runs_handler_and_returns_result : Test W :=
  do! r <- query_dispatch DoubleHandler_handle 21;
  expect! out <- r;
  assert! out =? 42;
  passed.

(** [Greet] of tower_service.rs *)
Record GreetService := mkGreetService { greet_0 : string }.

#[export] Instance GreetService_command : Command GreetService := Command_default GreetService "Greet".

Definition GreetServiceHandler_handle : Handler W GreetService string Empty_set :=
  fun command => ret (Ok ("hello " +:+ greet_0 command)).

(** [service.oneshot(request)]: ready, then called. *)
Definition command_service_invokes_handler : Test W :=
  let service := CommandHandlerService_new GreetServiceHandler_handle in
  ptry! _ <- q (ret (CommandHandlerService_poll_ready service));
  ptry! output <- q (CommandHandlerService_call service (mkGreetService "pharos"));
  assert! bool_decide (output = "hello pharos");
  passed.

Definition query_service_invokes_handler : Test W :=
  let service := QueryHandlerService_new DoubleHandler_handle in
  expect! _ <- QueryHandlerService_poll_ready service;
  do! r <- QueryHandlerService_call service 21;
  expect! output <- r;
  assert! output =? 42;
  passed.

Definition seam_tests : list (Test W) :=
  [dispatch_runs_handler_and_returns_output;
   dispatch_rejects_invalid_input_before_the_handler_runs;
   command_name_is_exposed_as_a_stable_label;
   validate_input_is_a_noop_by_default;
   commands_are_http_reachable_by_default;
   a_command_can_be_marked_internal_only;
   dispatch_error_validation_classifies_as_validation_with_the_violation_text;
   dispatch_error_handler_delegates_classification_to_the_handler_error;
   dispatch_runs_handler_and_returns_result;
   command_service_invokes_handler;
   query_service_invokes_handler].
End Seam.

(** ** Routes (pharos-axum/src/lib.rs) *)

Section Routes.
Context {W : Type} `{!Tracing W, !Lens W Cells}.

Definition never (e : Empty_set) : string := match e with end.

Record Greet := mkGreet { greet_name : string }.
#[export] Instance Greet_command : Command Greet := Command_default Greet "Greet".
Record Greeting := mkGreeting { greeting_message : string }.

Definition GreetHandler_handle : Handler W Greet Greeting Empty_set :=
  fun command => ret (Ok (mkGreeting ("hello " +:+ greet_name command))).

Record Double := mkDouble { double_value : Z }.
Record Doubled := mkDoubled { doubled_value : Z }.

Definition LookupHandler_handle : Handler W Double Doubled Empty_set :=
  fun query => ret (Ok (mkDoubled ((double_value query * 2) mod 2 ^ 32))).

Definition greet_route (payload : Greet) : M W (result Greeting HttpError) :=
  run_command never GreetHandler_handle payload.

Definition query_route (params : Double) : M W (result Doubled HttpError) :=
  run_query never LookupHandler_handle params.

(** The status of the response to a route's answer. *)
Definition response_status {O} (r : result O HttpError) : Z :=
  match r with Ok _ => 200 | Err e => (HandlerError_into_response e).1 end.

Definition command_extractor_invokes_handler_from_state : Test W :=
  do! response <- greet_route (mkGreet "pharos");
  assert! response_status response =? 200;
  expect! payload <- response;
  assert! bool_decide (greeting_message payload = "hello pharos");
  passed.

Definition query_extractor_invokes_handler_from_state : Test W :=
  do! response <- query_route (mkDouble 21);
  assert! response_status response =? 200;
  expect! payload <- response;
  assert! doubled_value payload =? 42;
  passed.

Record ReleasePayout := mkReleasePayout { payout_amount : Z }.
#[export] Instance ReleasePayout_command : Command ReleasePayout := {
  NAME := "ReleasePayout"; INTERNAL_ONLY := true; validate_input _ := Ok tt;
}.

Definition PayoutHandler_handle (ran : nat) : Handler W ReleasePayout Greeting Empty_set :=
  fun _ => do! _ <- set_number ran 1; ret (Ok (mkGreeting "paid")).

Definition run_command_refuses_internal_only_commands : Test W :=
  do! ran <- new_number;
  do! response <- run_command never (PayoutHandler_handle ran) (mkReleasePayout 100);
  assert! response_status response =? 404;
  do! r <- number ran;
  assert! r =? 0;
  passed.

Definition command_handler_state_dispatch_also_refuses_internal_only_commands : Test W :=
  do! ran <- new_number;
  let state := CommandHandlerState_from_arc (PayoutHandler_handle ran) in
  do! result <- CommandHandlerState_dispatch (hs_handler _ state) (mkReleasePayout 0);
  assert! match result with Err (DispatchValidation _) => true | _ => false end;
  do! r <- number ran;
  assert! r =? 0;
  passed.

Inductive SensitiveAdapterError := SensitiveAdapter.

#[export] Instance SensitiveAdapterError_classified : ClassifiedError SensitiveAdapterError := {
  display _ := "connection to postgres://prod-db.internal:5432 refused";
  kind _ := KInternal;
  public_message _ := "internal error";
}.

Definition status_for_maps_every_kind_to_its_conventional_status : Test W :=
  assert! forallb (fun case => status_for case.1 =? case.2)
            [(KNotFound, 404); (KValidation, 422); (KConflict, 409); (KUnauthorized, 401);
             (KForbidden, 403); (KRateLimited, 429); (KUnavailable, 503); (KInternal, 500)];
  passed.

Definition from_classified_never_puts_the_adapter_error_text_in_the_response : Test W :=
  do! error <- HandlerError_from_classified SensitiveAdapter;
  assert! HandlerError_status error =? 500;
  assert! negb (str_contains "postgres://" (HandlerError_message error));
  assert! negb (str_contains "5432" (HandlerError_message error));
  assert! bool_decide (HandlerError_message error = "internal error");
  passed.

Definition from_classified_returns_domain_authored_text_for_non_internal_kinds : Test W :=
  do! error <- HandlerError_from_classified (Conflict "order already shipped");
  assert! HandlerError_status error =? 409;
  assert! str_contains "order already shipped" (HandlerError_message error);
  passed.

Definition route_tests : list (Test W) :=
  [command_extractor_invokes_handler_from_state;
   query_extractor_invokes_handler_from_state;
   run_command_refuses_internal_only_commands;
   command_handler_state_dispatch_also_refuses_internal_only_commands;
   status_for_maps_every_kind_to_its_conventional_status;
   from_classified_never_puts_the_adapter_error_text_in_the_response;
   from_classified_returns_domain_authored_text_for_non_internal_kinds].
End Routes.

(** ** Trace headers and spans (pharos-axum/src/observability.rs) *)

Section TraceTests.
Context {W : Type} {HV : Type} `{!HeaderText HV, !Lens W Span}.

Definition VALID : string := "00-4bf92f3577b34da6a3ce929d0e0e4736-00f067aa0ba902b7-01".

Definition parses_a_conformant_header : Test W :=
  ptry! tp <- ret (ok_or (Traceparent_parse VALID) "header is conformant");
  assert! bool_decide (trace_id tp = "4bf92f3577b34da6a3ce929d0e0e4736");
  assert! bool_decide (span_id tp = "00f067aa0ba902b7");
  assert! sampled tp;
  assert! bool_decide (to_header_value tp = VALID);
  passed.

Definition rejects_malformed_headers : Test W :=
  assert! forallb (fun bad => is_none (Traceparent_parse bad))
    [""; "not-a-traceparent";
     "00-00000000000000000000000000000000-00f067aa0ba902b7-01";
     "00-4bf92f3577b34da6a3ce929d0e0e4736-0000000000000000-01";
     "00-4bf92f35-00f067aa0ba902b7-01";
     "00-4bf92f3577b34da6a3ce929d0e0e4736-00f067aa-01";
     "00-4BF92F3577B34DA6A3CE929D0E0E4736-00f067aa0ba902b7-01";
     "ff-4bf92f3577b34da6a3ce929d0e0e4736-00f067aa0ba902b7-01"];
  passed.

Definition accepts_a_future_version_with_extra_fields : Test W :=
  ptry! tp <- ret (ok_or (Traceparent_parse
                            "01-4bf92f3577b34da6a3ce929d0e0e4736-00f067aa0ba902b7-01-something")
                     "a higher version must parse leniently");
  assert! bool_decide (trace_id tp = "4bf92f3577b34da6a3ce929d0e0e4736");
  passed.

Definition unsampled_flag_round_trips : Test W :=
  let header := "00-4bf92f3577b34da6a3ce929d0e0e4736-00f067aa0ba902b7-00" in
  ptry! tp <- ret (ok_or (Traceparent_parse header) "header is conformant");
  assert! negb (sampled tp);
  assert! bool_decide (to_header_value tp = header);
  passed.

Definition traceparent_value_refuses_malformed_ids : Test W :=
  assert! is_none (traceparent_value (HV := HV) "short" "00f067aa0ba902b7" true);
  assert! negb (is_none (traceparent_value (HV := HV) "4bf92f3577b34da6a3ce929d0e0e4736"
                           "00f067aa0ba902b7" true));
  passed.

(** The values a subscriber prints for the span a request was handled in,
    with [inside] run in it. *)
Definition span_line (request : Request HV) (inside : M W unit) : M W (list string) :=
  do! _ <- mput (request_span request);
  do! _ <- inside;
  do! s <- mget;
  ret (omap snd (map_to_list (span_fields s))).

Definition line_contains (needle : string) (line : list string) : bool :=
  existsb (str_contains needle) line.

Definition inbound_trace_id_carries_onto_the_span : Test W :=
  live! header <- ret (header_from_str VALID);
  do! line <- span_line (mkRequest "GET" "/orders" None {[TRACEPARENT_HEADER := header]}) (ret tt);
  assert! line_contains "4bf92f3577b34da6a3ce929d0e0e4736" line;
  passed.

Definition tenant_and_user_are_recorded_after_the_fact : Test W :=
  do! line <- span_line (mkRequest "GET" "/orders" None ∅)
                (do! _ <- record_tenant "acme"; record_user "carlos");
  assert! line_contains "acme" line && line_contains "carlos" line;
  passed.

Definition a_query_string_never_reaches_the_span : Test W :=
  do! line <- span_line (mkRequest "GET" "/ws/game:1" (Some "token=super-secret-session-token") ∅)
                (ret tt);
  assert! negb (line_contains "super-secret-session-token" line);
  assert! line_contains "/ws/game:1" line;
  passed.

Definition a_uri_with_no_query_string_is_unaffected : Test W :=
  assert! bool_decide (loggable_uri "/orders" None = "/orders"); passed.

Definition a_malformed_inbound_header_does_not_break_the_request : Test W :=
  live! header <- ret (header_from_str "garbage");
  do! line <- span_line (mkRequest "GET" "/orders" None {[TRACEPARENT_HEADER := header]}) (ret tt);
  assert! line_contains "/orders" line;
  passed.

Definition trace_tests : list (Test W) :=
  [parses_a_conformant_header; rejects_malformed_headers;
   accepts_a_future_version_with_extra_fields; unsampled_flag_round_trips;
   traceparent_value_refuses_malformed_ids; inbound_trace_id_carries_onto_the_span;
   tenant_and_user_are_recorded_after_the_fact; a_query_string_never_reaches_the_span;
   a_uri_with_no_query_string_is_unaffected;
   a_malformed_inbound_header_does_not_break_the_request].
End TraceTests.

(** ** They pass *)

#[local] Instance test_tracing {S} : Tracing (World S) := { tracing_error _ _ := ret tt }.
#[local] Instance ascii_headers : HeaderText string := {
  header_from_str s := if visible_ascii s then Some s else None;
  header_to_str s := Some s;
}.

Definition http_test_start : World (Cells * Span) := mkWorld env_start (no_cells, mkSpan ∅).

Theorem http_tests_pass :
  Forall (passes http_test_start) (seam_tests ++ route_tests ++ trace_tests (HV := string)).
Proof. repeat constructor; vm_compute; reflexivity. Qed.
