(* ===== verification/TenancyTests.v ===== *)
(** * The unit tests of tenancy and elevation, on the model

    Models the tests of crates/pharos-app/src: elevation.rs (lines 476 to
    659), tenant_iter.rs (91 to 186), tenant_local.rs (44 to 90), tenant.rs
    (104 to 129) and enrichment.rs (93 to 151).

    A task's two task-locals are the store [TaskLocals] of its world, and
    [spawned] runs what [tokio::spawn] is handed: a task of its own, with
    neither set.  The calling task awaits it at once or later; the tests
    spawn nothing whose order with the caller matters. *)

From S2P Require Import Prelude Core Messaging Upcast Tenancy Contract TestKit.
Local Open Scope Z_scope.

(** ** The world of a test *)

Record TaskLocals := mkTaskLocals {
  slot_tenant : option (option TenantContext);
  slot_elevation : option (option Elevation);
}.

(** The [Mutex<Vec<(TenantId, Option<TenantId>)>>] of tenant_iter.rs. *)
Record Visits := mkVisits { visits : list (TenantId * option TenantId) }.

Section Locals.
Context {W : Type} `{!Lens W TaskLocals}.

#[export] Instance tenant_local : TaskLocal W (option TenantContext) := {
  try_with := do! l <- mget (S := TaskLocals); ret (slot_tenant l);
  scope A t work :=
    do! l <- mget;
    do! _ <- mput (mkTaskLocals (Some t) (slot_elevation l));
    do! a <- work;
    do! l' <- mget;
    do! _ <- mput (mkTaskLocals (slot_tenant l) (slot_elevation l'));
    ret a;
}.

#[export] Instance elevation_local : TaskLocal W (option Elevation) := {
  try_with := do! l <- mget (S := TaskLocals); ret (slot_elevation l);
  scope A t work :=
    do! l <- mget;
    do! _ <- mput (mkTaskLocals (slot_tenant l) (Some t));
    do! a <- work;
    do! l' <- mget;
    do! _ <- mput (mkTaskLocals (slot_tenant l') (slot_elevation l));
    ret a;
}.

(** A task of its own. *)
Definition spawned {A} (work : M W A) : M W A :=
  do! l <- mget;
  do! _ <- mput (mkTaskLocals None None);
  do! a <- work;
  do! _ <- mput l;
  ret a.

(** Both task-locals obey what the theorems on scopes assume of them. *)
Context `{!LensLaws W TaskLocals}.

#[export] Instance tenant_local_laws : TaskLocalLaws W (option TenantContext).
Proof.
  refine {| tl_view w := slot_tenant (lget w);
            tl_put x w := lset (mkTaskLocals x (slot_elevation (lget w))) w |}.
  - intros x w. by rewrite lget_lset.
  - intros w. destruct (lget w) as [t e] eqn:E. cbn. by rewrite <- E, lset_lget.
  - intros x y w. by rewrite lget_lset, lset_lset.
  - done.
  - intros A t c w. cbn. unfold bind, mget, mput, ret. by destruct (c _).
Defined.

#[export] Instance elevation_local_laws : TaskLocalLaws W (option Elevation).
Proof.
  refine {| tl_view w := slot_elevation (lget w);
            tl_put x w := lset (mkTaskLocals (slot_tenant (lget w)) x) w |}.
  - intros x w. by rewrite lget_lset.
  - intros w. destruct (lget w) as [t e] eqn:E. cbn. by rewrite <- E, lset_lget.
  - intros x y w. by rewrite lget_lset, lset_lset.
  - done.
  - intros A t c w. cbn. unfold bind, mget, mput, ret. by destruct (c _).
Defined.

#[export] Instance locals_disjoint_elevation :
  TaskLocalDisjoint W (option TenantContext) (option Elevation).
Proof. constructor. intros x w. cbn. by rewrite lget_lset. Qed.
#[export] Instance locals_disjoint_tenant :
  TaskLocalDisjoint W (option Elevation) (option TenantContext).
Proof. constructor. intros x w. cbn. by rewrite lget_lset. Qed.
End Locals.

(** ** Elevation (elevation.rs) *)

Definition CONSOLE : string := "console".
Definition WORKER : string := "worker:queue".
Definition SUPPORT : string := "support".

(** The scalar values of an ASCII text. *)
Definition label (s : string) : list Z :=
  map (fun c => Z.of_N (Ascii.N_of_ascii c)) (String.list_ascii_of_string s).

#[export] Instance ElevationKind_eq_dec : EqDecision ElevationKind.
Proof. solve_decision. Defined.

Section Tests.
Context {W : Type} `{!Env W, !Lens W TaskLocals, !Lens W ElevatorCounter, !Lens W Cells}.
Context `{!Lens W (list ElevationAudit), !Lens W Visits, !UuidText}.

Definition tenant : M W TenantId := do! u <- uuid_now_v7; ret (mkTenantId u).

(** [current_tenant] of the tests of elevation.rs, [current] of the others. *)
Definition current : M W (option TenantId) :=
  do! t <- current_tenant; ret (option_map tenant_id t).

Definition test_policy : AllowPurposes :=
  AllowPurposes_allow_impersonation SUPPORT
    (AllowPurposes_allow WORKER
      (AllowPurposes_requiring_actor CONSOLE (AllowPurposes_allow CONSOLE AllowPurposes_new))).

(** The audit sink is the store of the world, empty at the start of a test. *)
Definition elevator : M W (Elevator W) :=
  Elevator_new (AllowPurposes_authorize test_policy) MemoryAudit_record.

(** [elevator.elevated(..).await] and [elevator.impersonating(..).await]. *)
Definition elevated {A} (e : Elevator W) (purpose : string) (actor : option string) (work : M W A)
  : M W (result A ElevationDenied) :=
  do! future <- Elevator_elevated e purpose (option_map label actor) "elevation.rs" work; future.
Definition impersonating {A} (e : Elevator W) (t : TenantId) (purpose actor : string) (work : M W A)
  : M W (result A ElevationDenied) :=
  do! future <- Elevator_impersonating e t purpose (label actor) "elevation.rs" work; future.

Definition a_granted_elevation_is_visible_inside_and_only_inside : Test W :=
  do! e <- elevator;
  do! before <- current_elevation;
  assert! is_none before;
  do! seen <- elevated e WORKER None current_elevation;
  match seen with
  | Ok (Some elevation) =>
      assert! bool_decide (el_purpose elevation = WORKER);
      assert! bool_decide (el_kind elevation = CrossTenant);
      do! after <- current_elevation;
      assert! is_none after;
      passed
  | _ => ret None
  end.

Definition a_refused_elevation_does_not_run_the_work : Test W :=
  do! e <- elevator;
  do! ran <- new_number;
  do! outcome <- elevated e "nobody-registered-this" None (set_number ran 1);
  assert! is_err outcome;
  do! r <- number ran;
  assert! r =? 0;
  passed.

Definition deny_all_refuses_everything : Test W :=
  do! e <- Elevator_new DenyAll_authorize NoAudit_record;
  do! first <- elevated e WORKER None (ret tt);
  assert! is_err first;
  do! t <- tenant;
  do! second <- impersonating e t SUPPORT "ana" (ret tt);
  assert! is_err second;
  passed.

Definition a_purpose_that_needs_an_actor_is_refused_without_one : Test W :=
  do! e <- elevator;
  do! none <- elevated e CONSOLE None (ret tt);
  assert! is_err none;
  do! blank <- elevated e CONSOLE (Some "   ") (ret tt);
  assert! is_err blank;
  do! ana <- elevated e CONSOLE (Some "ana") (ret tt);
  assert! is_ok ana;
  passed.

Definition every_request_is_recorded_granted_or_denied : Test W :=
  do! e <- elevator;
  do! _ <- elevated e CONSOLE (Some "ana") (ret tt);
  do! _ <- elevated e CONSOLE None (ret tt);
  do! entries <- mget (S := list ElevationAudit);
  assert! (length entries =? 2)%nat;
  live! first <- ret (entries !! 0%nat);
  assert! match au_outcome first with Granted => true | Denied _ => false end;
  assert! bool_decide (au_actor first = Some (label "ana"));
  assert! bool_decide (au_purpose first = CONSOLE);
  live! second <- ret (entries !! 1%nat);
  assert! match au_outcome second with Granted => false | Denied _ => true end;
  passed.

Definition an_impersonation_runs_as_the_tenant_with_the_actor_on_record : Test W :=
  do! e <- elevator;
  do! customer <- tenant;
  do! seen <- impersonating e customer SUPPORT "ana"
                (do! t <- current; do! el <- current_elevation; ret (t, el));
  match seen with
  | Ok (sc, Some elevation) =>
      assert! bool_decide (sc = Some customer);
      assert! bool_decide (el_actor elevation = Some (label "ana"));
      assert! bool_decide (el_kind elevation = Impersonation customer);
      do! t <- current;
      assert! is_none t;
      do! entries <- mget (S := list ElevationAudit);
      assert! (length entries =? 1)%nat;
      passed
  | _ => ret None
  end.

(** [Anything]: the policy that grants everything. *)
Definition Anything_authorize (_ : ElevationRequest) : M W (result unit string) := ret (Ok tt).

Definition an_impersonation_needs_an_actor_whatever_the_policy_says : Test W :=
  do! e <- Elevator_new Anything_authorize NoAudit_record;
  do! t <- tenant;
  do! r <- impersonating e t SUPPORT "  " (ret tt);
  assert! is_err r;
  passed.

Definition the_kind_of_crossing_is_checked_separately : Test W :=
  do! e <- elevator;
  do! first <- elevated e SUPPORT None (ret tt);
  assert! is_err first;
  do! t <- tenant;
  do! second <- impersonating e t WORKER "ana" (ret tt);
  assert! is_err second;
  passed.

Definition a_spawned_task_does_not_inherit_the_elevation : Test W :=
  do! e <- elevator;
  do! inherited <- elevated e WORKER None
                     (do! task <- spawn_scoped current_elevation; spawned task);
  expect! in_task <- inherited;
  assert! is_none in_task;
  passed.

Definition elevation_tests : list (Test W) :=
  [a_granted_elevation_is_visible_inside_and_only_inside;
   a_refused_elevation_does_not_run_the_work; deny_all_refuses_everything;
   a_purpose_that_needs_an_actor_is_refused_without_one;
   every_request_is_recorded_granted_or_denied;
   an_impersonation_runs_as_the_tenant_with_the_actor_on_record;
   an_impersonation_needs_an_actor_whatever_the_policy_says;
   the_kind_of_crossing_is_checked_separately; a_spawned_task_does_not_inherit_the_elevation].

(** ** Passes over the tenants (tenant_iter.rs) *)

Fixpoint ids (n : nat) : M W (list TenantId) :=
  match n with
  | O => ret []
  | S n' => do! t <- tenant; do! ts <- ids n'; ret (t :: ts)
  end.

Definition each_tenant_runs_in_its_own_scope_in_order : Test W :=
  do! tenants <- ids 3;
  do! outcome <- for_each_tenant (E := Empty_set) (FixedTenants_tenants (E := Empty_set) tenants)
    (fun t => do! c <- current;
              do! seen <- mget;
              do! _ <- mput (mkVisits (visits seen ++ [(t, c)]));
              ret (Ok tt));
  expect! report <- outcome;
  assert! succeeded report =? 3;
  do! seen <- mget;
  assert! bool_decide (visits seen = map (fun t => (t, Some t)) tenants);
  passed.

Definition one_tenants_failure_does_not_stop_the_others : Test W :=
  do! tenants <- ids 3;
  live! bad <- ret (tenants !! 1%nat);
  do! outcome <- for_each_tenant (FixedTenants_tenants (E := Empty_set) tenants)
    (fun t => ret (if decide (t = bad) then Err "boom" else Ok tt));
  expect! report <- outcome;
  assert! succeeded report =? 2;
  assert! ForEachReport_visited report =? 3;
  assert! (length (failed report) =? 1)%nat;
  live! first <- ret (failed report !! 0%nat);
  assert! bool_decide (first.1 = bad);
  passed.

Definition the_scope_does_not_leak_out_of_the_pass : Test W :=
  do! tenants <- ids 2;
  do! _ <- for_each_tenant (E := Empty_set) (FixedTenants_tenants (E := Empty_set) tenants)
             (fun _ => ret (Ok tt));
  do! t <- current;
  assert! is_none t;
  passed.

Inductive ListFailed := mkListFailed.

Definition BrokenSource_tenants : M W (result (list TenantId) ListFailed) := ret (Err mkListFailed).

Definition a_source_that_cannot_list_is_an_error_and_runs_nothing : Test W :=
  do! ran <- new_number;
  do! outcome <- for_each_tenant (E := Empty_set) BrokenSource_tenants
                   (fun _ => do! _ <- fetch_add ran 1; ret (Ok tt));
  assert! is_err outcome;
  do! n <- number ran;
  assert! n =? 0;
  passed.

Definition tenant_iter_tests : list (Test W) :=
  [each_tenant_runs_in_its_own_scope_in_order; one_tenants_failure_does_not_stop_the_others;
   the_scope_does_not_leak_out_of_the_pass;
   a_source_that_cannot_list_is_an_error_and_runs_nothing].

(** ** Spawned tasks (tenant_local.rs) *)

Definition new_context : M W TenantContext := do! t <- tenant; ret (mkTenantContext t).

Definition a_plain_spawn_loses_the_tenant_and_spawn_scoped_keeps_it : Test W :=
  do! tenant <- new_context;
  do! both <- scope (Some tenant)
                (do! plain <- spawned current_tenant;
                 do! task <- spawn_scoped current_tenant;
                 do! scoped <- spawned task;
                 ret (plain, scoped));
  assert! is_none both.1;
  assert! bool_decide (both.2 = Some tenant);
  passed.

Definition with_no_tenant_in_scope_the_task_has_none : Test W :=
  do! task <- spawn_scoped current_tenant;
  do! scoped <- spawned task;
  assert! is_none scoped;
  passed.

Definition the_spawned_task_keeps_the_tenant_it_was_spawned_under : Test W :=
  do! a <- new_context;
  do! b <- new_context;
  do! from_a <- scope (Some a) (spawn_scoped current_tenant);
  do! from_b <- scope (Some b) (spawn_scoped current_tenant);
  do! seen_a <- spawned from_a;
  assert! bool_decide (seen_a = Some a);
  do! seen_b <- spawned from_b;
  assert! bool_decide (seen_b = Some b);
  passed.

Definition tenant_local_tests : list (Test W) :=
  [a_plain_spawn_loses_the_tenant_and_spawn_scoped_keeps_it;
   with_no_tenant_in_scope_the_task_has_none;
   the_spawned_task_keeps_the_tenant_it_was_spawned_under].

(** ** Tenant ids (tenant.rs) *)

Definition parses_valid_tenant_ids_and_rejects_garbage : Test W :=
  do! uuid <- uuid_now_v7;
  ptry! parsed <- q (ret (TenantId_parse (uuid_to_string uuid)));
  assert! tenant_uuid parsed =? uuid;
  assert! is_err (TenantId_parse "acme");
  assert! is_err (TenantId_parse "");
  passed.

Definition stamps_integration_event_with_tenant : Test W :=
  do! uuid <- uuid_now_v7;
  let tenant := mkTenantContext (mkTenantId uuid) in
  assert! tenant_uuid (tenant_id tenant) =? uuid;
  do! e <- IntegrationEvent_new "OrderPlaced" 1 "orders" "payload";
  let event := TenantContext_stamp tenant e in
  assert! bool_decide (ie_tenant_id event = Some (uuid_to_string uuid));
  passed.

(** ** Message stamps (enrichment.rs) *)

Definition message : M W Message :=
  do! id <- uuid_now_v7; ret (Message_new id "orders" "" "application/json").

Definition a_stamped_message_reopens_the_producers_tenant_for_the_consumer : Test W :=
  do! t <- tenant;
  do! m <- message;
  do! stamped <- scope (Some (mkTenantContext t)) (TenantHeader_enrich m);
  do! before <- current;
  assert! is_none before;
  do! seen <- with_message_scope stamped current;
  assert! match seen with Ok c => bool_decide (c = Some t) | Err _ => false end;
  do! after <- current;
  assert! is_none after;
  passed.

Definition an_unstamped_message_runs_with_no_scope : Test W :=
  do! m <- message;
  do! seen <- with_message_scope m current;
  assert! match seen with Ok c => is_none c | Err _ => false end;
  passed.

Definition a_malformed_stamp_is_refused_and_the_work_never_runs : Test W :=
  do! m <- message;
  let bad := Message_with_header TENANT_HEADER "acme" m in
  do! ran <- new_number;
  do! outcome <- with_message_scope bad (set_number ran 1);
  assert! is_err outcome;
  do! r <- number ran;
  assert! r =? 0;
  passed.

Definition tenant_tests : list (Test W) :=
  [parses_valid_tenant_ids_and_rejects_garbage; stamps_integration_event_with_tenant;
   a_stamped_message_reopens_the_producers_tenant_for_the_consumer;
   an_unstamped_message_runs_with_no_scope;
   a_malformed_stamp_is_refused_and_the_work_never_runs].
End Tests.

(** ** They pass *)

#[local] Existing Instance hyphenated.

Definition tenancy_test_start
  : World (TaskLocals * (ElevatorCounter * (list ElevationAudit * (Visits * Cells)))) :=
  mkWorld env_start
    (mkTaskLocals None None, (mkElevatorCounter 1, ([], (mkVisits [], no_cells)))).

Theorem tenancy_tests_pass :
  Forall (passes tenancy_test_start)
    (elevation_tests ++ tenant_iter_tests ++ tenant_local_tests ++ tenant_tests).
Proof. repeat constructor; vm_compute; reflexivity. Qed.
