(* ===== verification/EventTests.v ===== *)
(** * The unit tests of integration events and their codecs, on the model

    Models the tests of crates/pharos-app/src: upcast.rs (lines 340 to 549),
    integration_event.rs (217 to 311) and serialization.rs (114 to 181), and
    of crates/pharos-proto/src: serializer.rs (117 to 262) and envelope.rs
    (146 to 200).

    The JSON of the tests is the type [J] with a printer and a parser of the
    texts the tests produce; the derives of [Serialize] and [Deserialize] for
    a payload are its [JsonPayload] instance.  Protobuf messages are written
    as in [ProtoWire]. *)

From S2P Require Import Prelude Core Upcast Tenancy Proto ProtoWire Contract TestKit.
From Stdlib Require Import Ascii.
Local Open Scope Z_scope.

(** ** JSON texts *)

Definition quote : Ascii.ascii := Ascii.ascii_of_nat 34.
Definition backslash : Ascii.ascii := Ascii.ascii_of_nat 92.

Fixpoint escape (s : string) : string :=
  match s with
  | EmptyString => String quote ""
  | String c s' => if decide (c = quote \/ c = backslash) then String backslash (String c (escape s'))
                   else String c (escape s')
  end.
Definition print_str (s : string) : string := String quote (escape s).

(** Objects nest less deeply than the fuel. *)
Fixpoint print_json (fuel : nat) (v : J) : string :=
  match v, fuel with
  | JNull, _ => "null"
  | JNum n, _ => pretty n
  | JStr s, _ => print_str s
  | JObj _, O => ""
  | JObj m, S fuel' =>
      "{" +:+ String.concat "," (map (fun e => print_str e.1 +:+ ":" +:+ print_json fuel' e.2)
                                   (map_to_list m)) +:+ "}"
  end.

Fixpoint parse_str_body (s : string) : option (string * string) :=
  match s with
  | EmptyString => None
  | String c s' =>
      if decide (c = quote) then Some ("", s')
      else if decide (c = backslash) then
        match s' with
        | EmptyString => None
        | String d s'' => '(a, r) ← parse_str_body s''; Some (String d a, r)
        end
      else '(a, r) ← parse_str_body s'; Some (String c a, r)
  end.

Definition digit (c : Ascii.ascii) : option Z :=
  let d := Z.of_N (Ascii.N_of_ascii c) - 48 in
  if (0 <=? d) && (d <? 10) then Some d else None.

Fixpoint parse_digits (acc : Z) (s : string) : Z * string :=
  match s with
  | EmptyString => (acc, "")
  | String c s' => match digit c with Some d => parse_digits (10 * acc + d) s' | None => (acc, s) end
  end.

Fixpoint parse_json (fuel : nat) (s : string) : option (J * string) :=
  match fuel, s with
  | S fuel', String c s' =>
      if decide (c = quote) then '(t, r) ← parse_str_body s'; Some (JStr t, r)
      else if decide (c = "{"%char) then
        match s' with
        | String "}"%char r => Some (JObj ∅, r)
        | _ => '(m, r) ← parse_members fuel' s'; Some (JObj m, r)
        end
      else if decide (c = "n"%char) then
        match s' with
        | String "u"%char (String "l"%char (String "l"%char r)) => Some (JNull, r)
        | _ => None
        end
      else match digit c with
           | Some d => let '(n, r) := parse_digits d s' in Some (JNum n, r)
           | None => None
           end
  | _, _ => None
  end
with parse_members (fuel : nat) (s : string) : option (gmap string J * string) :=
  match fuel, s with
  | S fuel', String c s' =>
      if decide (c = quote) then
        '(k, r) ← parse_str_body s';
        match r with
        | String ":"%char r =>
            '(v, r) ← parse_json fuel' r;
            match r with
            | String ","%char r => '(m, r) ← parse_members fuel' r; Some (<[k := v]> m, r)
            | String "}"%char r => Some ({[k := v]}, r)
            | _ => None
            end
        | _ => None
        end
      else None
  | _, _ => None
  end.

Definition to_text (v : J) : string := print_json 8 v.
Definition of_text (s : string) : result J string :=
  match parse_json (String.length s) s with
  | Some (v, EmptyString) => Ok v
  | Some _ => Err "trailing characters"
  | None => Err "expected value"
  end.

#[export] Instance json_texts : Json J := {
  as_object v := match v with JObj m => Some m | _ => None end;
  of_object := JObj;
  as_str := j_str;
  as_u64 := j_u64;
  from_u32 := JNum;
  json_from_slice := of_text;
}.

(** [Serialize] and [Deserialize] of a payload. *)
Class JsonPayload (P : Type) : Type := {
  payload_value : P -> J;
  payload_of : J -> option P;
}.

#[export] Instance json_serde {P} `{!JsonPayload P} : SerdeEvent P := {
  to_vec e := Ok (to_text (JObj (j_envelope
                (reshape e (ie_schema_version e) (payload_value (ie_payload e))))));
  from_slice s :=
    res! v <- of_text s;
    ok_or (m ← as_object v; e ← j_event m; p ← payload_of (ie_payload e);
           Some (reshape e (ie_schema_version e) p)) "invalid type";
}.

#[export] Instance json_from_value {P} `{!JsonPayload P} : FromValue J P := {
  from_value v := ok_or (m ← as_object v; e ← j_event m; p ← payload_of (ie_payload e);
                         Some (reshape e (ie_schema_version e) p)) "invalid type";
}.

(** [serde_json::Value] is a payload as it is. *)
#[export] Instance value_payload : JsonPayload J := { payload_value v := v; payload_of v := Some v }.

(** Of what the derive generates for a struct: one member. *)
Definition member (m : gmap string J) (k : string) : option J := m !! k.
Definition member_u32 (m : gmap string J) (k : string) : option Z :=
  n ← m !! k ≫= j_u64; if n <=? u32_max then Some n else None.
Definition member_str (m : gmap string J) (k : string) : option string := m !! k ≫= j_str.

(** ** Upcasting (upcast.rs) *)

Record V3 := mkV3 { v3_quantity : Z; v3_currency : string }.

#[export] Instance V3_eq_dec : EqDecision V3.
Proof. solve_decision. Defined.

#[export] Instance V3_payload : JsonPayload V3 := {
  payload_value p := JObj {[ "quantity" := JNum (v3_quantity p); "currency" := JStr (v3_currency p) ]};
  payload_of v := m ← as_object v; q ← member_u32 m "quantity"; c ← member_str m "currency";
                  Some (mkV3 q c);
}.

Record Other := mkOther { other_qty : Z }.

#[export] Instance Other_payload : JsonPayload Other := {
  payload_value p := JObj {[ "qty" := JNum (other_qty p) ]};
  payload_of v := m ← as_object v; q ← member_u32 m "qty"; Some (mkOther q);
}.

(** The upcaster from version 1: renames [qty]. *)
Definition qty_to_quantity (payload : J) : result J string :=
  match as_object payload with
  | None => Err "payload must be an object"
  | Some obj => match obj !! "qty" with
                | Some qty => Ok (JObj (<["quantity" := qty]> (delete "qty" obj)))
                | None => Ok payload
                end
  end.

(** The upcaster from version 2: a default currency. *)
Definition default_currency (payload : J) : result J string :=
  match as_object payload with
  | None => Err "payload must be an object"
  | Some obj => match obj !! "currency" with
                | Some _ => Ok payload
                | None => Ok (JObj (<["currency" := JStr "BRL"]> obj))
                end
  end.

Definition registry_v1_to_v3 : JsonUpcasterRegistry J :=
  with_upcaster "OrderPlaced" 2 default_currency
    (with_upcaster "OrderPlaced" 1 qty_to_quantity JsonUpcasterRegistry_new).

Section UpcastTests.
Context {W : Type} `{!Env W}.

Definition new_order (version : Z) (payload : gmap string J) : M W (IntegrationEvent J) :=
  IntegrationEvent_new "OrderPlaced" version "orders" (JObj payload).

Definition upcasts_v1_through_the_chain_to_the_latest_shape : Test W :=
  let codec := registry_v1_to_v3 in
  do! v1 <- new_order 1 {[ "qty" := JNum 3 ]};
  ptry! wire <- q (ret (codec_encode codec v1));
  live! outcome <- ret (codec_decode codec wire);
  ptry! decoded <- q (ret (A := result (IntegrationEvent V3) UpcastError) outcome);
  assert! ie_schema_version decoded =? 3;
  assert! bool_decide (ie_payload decoded = mkV3 3 "BRL");
  passed.

Definition current_version_passes_through_untouched : Test W :=
  let codec := registry_v1_to_v3 in
  do! v3 <- new_order 3 {[ "quantity" := JNum 5; "currency" := JStr "USD" ]};
  ptry! wire <- q (ret (codec_encode codec v3));
  live! outcome <- ret (codec_decode codec wire);
  ptry! decoded <- q (ret (A := result (IntegrationEvent V3) UpcastError) outcome);
  assert! ie_schema_version decoded =? 3;
  assert! bool_decide (v3_currency (ie_payload decoded) = "USD");
  passed.

Definition other_event_types_are_not_upcast : Test W :=
  let codec := registry_v1_to_v3 in
  do! event <- IntegrationEvent_new "OtherEvent" 1 "orders" (JObj {[ "qty" := JNum 7 ]});
  ptry! wire <- q (ret (codec_encode codec event));
  live! outcome <- ret (codec_decode codec wire);
  ptry! decoded <- q (ret (A := result (IntegrationEvent Other) UpcastError) outcome);
  assert! ie_schema_version decoded =? 1;
  assert! other_qty (ie_payload decoded) =? 7;
  passed.

Definition a_version_beyond_the_known_chain_is_rejected : Test W :=
  let codec := registry_v1_to_v3 in
  do! from_the_future <- new_order 99 {[ "quantity" := JNum 3; "currency" := JStr "BRL" ]};
  ptry! wire <- q (ret (codec_encode codec from_the_future));
  live! outcome <- ret (codec_decode codec wire);
  match outcome : result (IntegrationEvent V3) UpcastError with
  | Err (UeUnsupportedVersion event_type version known_up_to) =>
      assert! bool_decide (event_type = "OrderPlaced");
      assert! version =? 99;
      assert! known_up_to =? 3;
      passed
  | _ => ret None
  end.

Definition a_gap_in_the_middle_of_the_chain_is_rejected : Test W :=
  let codec := with_upcaster "OrderPlaced" 2 default_currency JsonUpcasterRegistry_new in
  do! v1 <- new_order 1 {[ "qty" := JNum 3 ]};
  ptry! wire <- q (ret (codec_encode codec v1));
  live! outcome <- ret (codec_decode codec wire);
  match outcome : result (IntegrationEvent V3) UpcastError with
  | Err (UeGapInChain event_type stopped_at known_up_to) =>
      assert! bool_decide (event_type = "OrderPlaced");
      assert! stopped_at =? 1;
      assert! known_up_to =? 3;
      passed
  | _ => ret None
  end.

Definition a_schema_version_that_overflows_u32_is_rejected : Test W :=
  let codec := registry_v1_to_v3 in
  let envelope := JObj {[
    "event_id" := JStr "018f9a2b-0000-7000-8000-000000000000";
    "event_type" := JStr "OrderPlaced";
    "schema_version" := JNum 4294967297;
    "occurred_at" := JStr "2024-01-01T00:00:00Z";
    "source" := JStr "test";
    "payload" := JObj {[ "qty" := JNum 3 ]};
    "metadata" := JObj ∅ ]} in
  let wire := mkSerializedEvent "application/json" (to_text envelope) in
  live! outcome <- ret (codec_decode codec wire);
  match outcome : result (IntegrationEvent J) UpcastError with
  | Err (UeVersionOutOfRange v) => assert! v =? 4294967297; passed
  | _ => ret None
  end.

Definition transform_failures_carry_event_type_and_version : Test W :=
  let codec := with_upcaster "OrderPlaced" 1 (fun _ => Err "cannot upgrade")
                 JsonUpcasterRegistry_new in
  do! v1 <- new_order 1 ∅;
  expect! wire <- codec_encode codec v1;
  live! outcome <- ret (codec_decode codec wire);
  match outcome : result (IntegrationEvent J) UpcastError with
  | Err (UeTransform event_type from_version _) =>
      assert! bool_decide (event_type = "OrderPlaced");
      assert! from_version =? 1;
      passed
  | _ => ret None
  end.

Definition upcast_tests : list (Test W) :=
  [upcasts_v1_through_the_chain_to_the_latest_shape; current_version_passes_through_untouched;
   other_event_types_are_not_upcast; a_version_beyond_the_known_chain_is_rejected;
   a_gap_in_the_middle_of_the_chain_is_rejected; a_schema_version_that_overflows_u32_is_rejected;
   transform_failures_carry_event_type_and_version].
End UpcastTests.

(** ** The envelope (integration_event.rs) *)

Record OrderPlaced := mkOrderPlaced { op_occurred_at : Instant; op_order_id : string }.

Section EnvelopeTests.
Context {W : Type} `{!Env W}.

Definition new_text_event (event_type source : string) : M W (IntegrationEvent string) :=
  IntegrationEvent_new event_type 1 source "payload".

Definition creates_envelope_with_operational_metadata : Test W :=
  do! e <- new_text_event "OrderPlaced" "orders";
  let event :=
    with_metadata "partition" "orders"
      (with_trace_id "trace-1"
        (with_tenant_id "tenant-1"
          (with_causation_id (mkCausationId "cmd-1")
            (with_correlation_id (mkCorrelationId "corr-1")
              (with_aggregate_id "order-1" e))))) in
  assert! get_version_num (ie_event_id event) =? 7;
  assert! bool_decide (ie_event_type event = "OrderPlaced");
  assert! ie_schema_version event =? 1;
  assert! bool_decide (ie_aggregate_id event = Some "order-1");
  assert! bool_decide (correlation_str <$> ie_correlation_id event = Some "corr-1");
  assert! bool_decide (causation_str <$> ie_causation_id event = Some "cmd-1");
  assert! bool_decide (ie_tenant_id event = Some "tenant-1");
  assert! bool_decide (ie_trace_id event = Some "trace-1");
  assert! bool_decide (ie_metadata event !! "partition" = Some "orders");
  passed.

Definition caused_by_chains_causation_and_propagates_correlation : Test W :=
  do! e <- new_text_event "OrderConfirmed" "orders";
  let root := with_correlation_id (mkCorrelationId "corr-1") e in
  do! e <- new_text_event "PaymentRequested" "billing";
  let child := caused_by root e in
  assert! bool_decide (causation_str <$> ie_causation_id child
                       = Some (uuid_to_string (ie_event_id root)));
  assert! bool_decide (correlation_str <$> ie_correlation_id child = Some "corr-1");
  do! orphan_root <- new_text_event "OrderConfirmed" "orders";
  do! e <- new_text_event "PaymentRequested" "billing";
  let child := caused_by orphan_root e in
  assert! bool_decide (correlation_str <$> ie_correlation_id child
                       = Some (uuid_to_string (ie_event_id orphan_root)));
  passed.

(** [Utc.with_ymd_and_hms(2026, 1, 2, 3, 4, 5)], in nanoseconds. *)
Definition new_year : Instant := 1767323045 * 10 ^ 9.

Definition creates_envelope_from_domain_event : Test W :=
  let domain_event := mkOrderPlaced new_year "order-123" in
  do! e <- from_domain_event "OrderPlaced" (op_occurred_at domain_event)
             (op_order_id domain_event) 2 "orders" "payload";
  assert! bool_decide (ie_event_type e = "OrderPlaced");
  assert! ie_schema_version e =? 2;
  assert! ie_occurred_at e =? new_year;
  assert! bool_decide (ie_aggregate_id e = Some "order-123");
  assert! bool_decide (ie_source e = "orders");
  passed.

Definition envelope_tests : list (Test W) :=
  [creates_envelope_with_operational_metadata;
   caused_by_chains_causation_and_propagates_correlation; creates_envelope_from_domain_event].
End EnvelopeTests.

(** ** The JSON codec (serialization.rs) *)

Record Payload := mkPayload { order_id : string }.

#[export] Instance Payload_eq_dec : EqDecision Payload.
Proof. solve_decision. Defined.

#[export] Instance Payload_payload : JsonPayload Payload := {
  payload_value p := JObj {[ "order_id" := JStr (order_id p) ]};
  payload_of v := m ← as_object v; id ← member_str m "order_id"; Some (mkPayload id);
}.

(** [None]: the decoder does not return. *)
Definition roundtrip_via_codec {C P E} `{!MessageCodec C P E} (codec : C) (event : IntegrationEvent P)
  : option (result (IntegrationEvent P) E) :=
  match codec_encode codec event with
  | Ok wire => codec_decode codec wire
  | Err e => Some (Err e)
  end.

Section JsonTests.
Context {W : Type} `{!Env W}.

Definition payload_event : M W (IntegrationEvent Payload) :=
  do! e <- IntegrationEvent_new "OrderPlaced" 1 "orders" (mkPayload "order-1");
  ret (with_correlation_id (mkCorrelationId "corr-1") e).

Definition json_serializer_implements_message_codec : Test W :=
  do! event <- payload_event;
  live! outcome <- ret (roundtrip_via_codec mkJsonEventSerializer event);
  ptry! recovered <- q (ret (outcome : result _ EventSerializationError));
  assert! ie_event_id recovered =? ie_event_id event;
  assert! bool_decide (ie_event_type recovered = "OrderPlaced");
  assert! bool_decide (ie_payload recovered = ie_payload event);
  assert! bool_decide (correlation_str <$> ie_correlation_id recovered = Some "corr-1");
  passed.

Definition serializes_and_deserializes_json_envelope : Test W :=
  do! event <- payload_event;
  ptry! serialized <- q (ret (JsonEventSerializer_serialize event));
  ptry! deserialized <- q (ret (JsonEventSerializer_deserialize (P := Payload) serialized));
  assert! bool_decide (se_content_type serialized = "application/json");
  assert! bool_decide (ie_event_type deserialized = "OrderPlaced");
  assert! ie_schema_version deserialized =? 1;
  assert! bool_decide (correlation_str <$> ie_correlation_id deserialized = Some "corr-1");
  assert! bool_decide (order_id (ie_payload deserialized) = "order-1");
  passed.
End JsonTests.

(** ** The Protobuf codec (serializer.rs, envelope.rs) *)

Record TestPayload := mkTestPayload { tp_id : string; tp_value : Z }.

#[export] Instance TestPayload_eq_dec : EqDecision TestPayload.
Proof. solve_decision. Defined.

Record SmallPayload := mkSmallPayload { sp_id : string; sp_value : Z }.

(** The [JsonPayload] of the size test. *)
#[export] Instance SmallPayload_payload : JsonPayload SmallPayload := {
  payload_value p := JObj {[ "id" := JStr (sp_id p); "value" := JNum (sp_value p) ]};
  payload_of v := m ← as_object v; id ← member_str m "id"; n ← m !! "value" ≫= j_u64;
                  Some (mkSmallPayload id n);
}.

(** ASCII, the only texts of the tests. *)
Fixpoint is_ascii (s : string) : bool :=
  match s with EmptyString => true | String c s' => (code c <? 128) && is_ascii s' end.

#[export] Instance TestPayload_fields : ProstFields TestPayload := {
  message_default := mkTestPayload "" 0;
  to_fields p := text_field 1 (tp_id p) ++ varint_field 2 (tp_value p);
  merge_field p f :=
    match f.1 with
    | 1 => read_text is_ascii f.2 (fun x => mkTestPayload x (tp_value p))
    | 2 => read_varint f.2 (fun n => mkTestPayload (tp_id p) n)
    | _ => Some p
    end;
}.

#[local] Instance test_envelope : ProstFields IntegrationEventEnvelope := envelope_fields is_ascii.

Section ProtoTests.
Context {W : Type} `{!Env W, !ChronoMillis, !UuidText}.

Definition make_event : M W (IntegrationEvent TestPayload) :=
  do! e <- IntegrationEvent_new "TestEvent" 1 "test-service" (mkTestPayload "abc-123" 42);
  ret (with_metadata "region" "us-east-1"
        (with_trace_id "trace-1"
          (with_tenant_id "tenant-1"
            (with_causation_id (mkCausationId "cause-1")
              (with_correlation_id (mkCorrelationId "corr-1") (with_aggregate_id "agg-1" e)))))).

Definition roundtrip_preserves_all_envelope_fields : Test W :=
  do! event <- make_event;
  ptry! serialized <- q (ret (ProtobufEventSerializer_serialize event));
  ptry! recovered <- q (ret (ProtobufEventSerializer_deserialize (P := TestPayload) serialized));
  assert! bool_decide (se_content_type serialized = APPLICATION_PROTOBUF);
  assert! ie_event_id recovered =? ie_event_id event;
  assert! bool_decide (ie_event_type recovered = "TestEvent");
  assert! ie_schema_version recovered =? 1;
  assert! timestamp_millis (ie_occurred_at recovered) =? timestamp_millis (ie_occurred_at event);
  assert! bool_decide (ie_aggregate_id recovered = Some "agg-1");
  assert! bool_decide (correlation_str <$> ie_correlation_id recovered = Some "corr-1");
  assert! bool_decide (causation_str <$> ie_causation_id recovered = Some "cause-1");
  assert! bool_decide (ie_tenant_id recovered = Some "tenant-1");
  assert! bool_decide (ie_trace_id recovered = Some "trace-1");
  assert! bool_decide (ie_source recovered = "test-service");
  assert! bool_decide (ie_metadata recovered !! "region" = Some "us-east-1");
  passed.

Definition roundtrip_preserves_payload_fields : Test W :=
  do! event <- make_event;
  ptry! serialized <- q (ret (ProtobufEventSerializer_serialize event));
  ptry! recovered <- q (ret (ProtobufEventSerializer_deserialize (P := TestPayload) serialized));
  assert! bool_decide (tp_id (ie_payload recovered) = "abc-123");
  assert! tp_value (ie_payload recovered) =? 42;
  passed.

Definition serialized_bytes_are_smaller_than_json_for_same_payload : Test W :=
  do! e <- IntegrationEvent_new "TestEvent" 1 "test-service" (mkSmallPayload "abc-123" 42);
  let json_event := with_correlation_id (mkCorrelationId "corr-1") (with_aggregate_id "agg-1" e) in
  do! proto_event <- make_event;
  ptry! json <- q (ret (JsonEventSerializer_serialize json_event));
  ptry! proto <- q (ret (ProtobufEventSerializer_serialize proto_event));
  assert! str_len (se_payload proto) <? str_len (se_payload json);
  passed.

Definition protobuf_serializer_implements_message_codec : Test W :=
  do! event <- make_event;
  live! outcome <- ret (roundtrip_via_codec mkProtobufEventSerializer event);
  ptry! recovered <- q (ret (outcome : result _ ProtobufSerializationError));
  assert! ie_event_id recovered =? ie_event_id event;
  assert! bool_decide (ie_event_type recovered = ie_event_type event);
  assert! bool_decide (ie_payload recovered = ie_payload event);
  passed.

Definition deserialize_rejects_corrupted_bytes : Test W :=
  let bad := mkSerializedEvent APPLICATION_PROTOBUF
               (String (byte 255) (String (byte 254) (String (byte 0) ""))) in
  assert! is_err (ProtobufEventSerializer_deserialize (P := TestPayload) bad);
  passed.

(** [pairs.iter().collect()]: a later pair replaces an earlier one. *)
Definition envelope_with_metadata (pairs : list (string * string)) : IntegrationEventEnvelope :=
  mkEnvelope "018ffc00-e489-7b82-8512-54d0383152b8" "TestEvent" 1 0 None None None "test" None None
    "" (foldl (fun m e => <[e.1 := e.2]> m) ∅ pairs).

Definition metadata_encodes_deterministically_regardless_of_insertion_order : Test W :=
  let forward := envelope_with_metadata [("a", "1"); ("m", "2"); ("z", "3")] in
  let backward := envelope_with_metadata [("z", "3"); ("m", "2"); ("a", "1")] in
  assert! bool_decide (encode_to_bytes forward = encode_to_bytes backward);
  passed.

Definition metadata_round_trips_through_encode_and_decode : Test W :=
  let original := envelope_with_metadata [("region", "us-east-1"); ("shard", "7")] in
  ptry! decoded <- q (ret (decode_from_bytes (encode_to_bytes original)));
  assert! bool_decide (env_metadata decoded !! "region" = Some "us-east-1");
  assert! bool_decide (env_metadata decoded !! "shard" = Some "7");
  passed.

Definition codec_tests : list (Test W) :=
  [json_serializer_implements_message_codec; serializes_and_deserializes_json_envelope;
   roundtrip_preserves_all_envelope_fields; roundtrip_preserves_payload_fields;
   serialized_bytes_are_smaller_than_json_for_same_payload;
   protobuf_serializer_implements_message_codec; deserialize_rejects_corrupted_bytes;
   metadata_encodes_deterministically_regardless_of_insertion_order;
   metadata_round_trips_through_encode_and_decode].
End ProtoTests.

(** ** They pass *)

#[local] Existing Instance hyphenated.

#[local] Instance test_millis : ChronoMillis := {
  timestamp_millis t := t / NANOS_PER_MILLI;
  from_timestamp_millis ms := Some (ms * NANOS_PER_MILLI);
}.

(** Identifiers of version 7 and times of this century. *)
Definition event_test_start : World unit :=
  mkWorld (mkEnvState 0 (fun n => new_year + Z.of_nat n) 0
             (fun n => Z.lor (Z.shiftl 7 76) (Z.of_nat n + 2 ^ 126)) 0 (fun _ => S754_zero false)) tt.

Theorem event_tests_pass :
  Forall (passes event_test_start) (upcast_tests ++ envelope_tests ++ codec_tests).
Proof. repeat constructor; vm_compute; reflexivity. Qed.
