(* ===== verification/CoreTests.v ===== *)
(** * The unit tests of the core types and of the log filter, on the model

    Models the tests of crates/pharos-core/src: money.rs (lines 314 to 414,
    but for the JSON around a serialised amount), allocation.rs, secret.rs,
    errors.rs, repository.rs and value_object.rs, and of
    crates/pharos-observability/src/filter.rs (83 to 140, but for the filter
    [tracing_subscriber] builds). *)

From S2P Require Import Prelude Core Money Observability Contract TestKit.
From Stdlib Require Import Ascii.
Local Open Scope Z_scope.

#[export] Instance Money_eq_dec : EqDecision Money.
Proof. solve_decision. Defined.
#[export] Instance CurrencyFault_eq_dec : EqDecision CurrencyFault.
Proof. solve_decision. Defined.
#[export] Instance MoneyError_eq_dec : EqDecision MoneyError.
Proof. solve_decision. Defined.
#[export] Instance AllocationError_eq_dec : EqDecision AllocationError.
Proof. solve_decision. Defined.

Section Tests.
Context {W : Type}.

(** [?] on a value at hand. *)
Notation "'let?' x <- r ; k" := (ptry! x <- q (ret r); k)
  (at level 10, x pattern, r at level 100, k at level 200).

(** ** Money (money.rs) *)

Definition currency_codes_are_validated : Test W :=
  assert! is_ok (Currency_new "BRL" 2);
  assert! is_ok (Currency_new "USDC0" 6);
  assert! is_err (Currency_new "b" 2);
  assert! is_err (Currency_new "TOOLONGCURRENCY" 2);
  assert! is_err (Currency_new "BRL" 39);
  passed.

Definition i128_MAX : Z := 2 ^ 127 - 1.
Definition i128_MIN : Z := - 2 ^ 127.

Definition checked_arithmetic_rejects_mismatch_and_overflow : Test W :=
  let a := Money_new 1000 Currency_brl in
  let b := Money_new 500 Currency_brl in
  let? sum <- Money_checked_add a b;
  assert! amount sum =? 1500;
  let? difference <- Money_checked_sub a b;
  assert! amount difference =? 500;
  let? product <- Money_checked_mul b 3;
  assert! amount product =? 1500;
  let usd := Money_new 500 Currency_usd in
  assert! bool_decide (Money_checked_add a usd = Err (CurrencyMismatch "BRL" "USD"));
  let max := Money_new i128_MAX Currency_brl in
  let one := Money_new 1 Currency_brl in
  assert! bool_decide (Money_checked_add max one = Err Overflow);
  assert! bool_decide (Money_checked_mul max 2 = Err Overflow);
  assert! bool_decide (Money_neg (Money_new i128_MIN Currency_brl) = Err Overflow);
  passed.

Definition covers_wei_magnitudes_beyond_u64 : Test W :=
  let wei := 1000000000 * 10 ^ 18 in
  assert! u64_max <? wei;
  let balance := Money_new wei Currency_eth in
  let? doubled <- Money_checked_mul balance 2;
  let? back <- Money_checked_sub doubled balance;
  assert! bool_decide (back = balance);
  assert! bool_decide (Money_fmt balance = "1000000000.000000000000000000 ETH");
  passed.

Definition allocate_never_creates_or_loses_units : Test W :=
  let total := Money_new 1001 Currency_brl in
  let? shares <- Money_allocate total 3;
  assert! bool_decide (map amount shares = [334; 334; 333]);
  assert! Zsum (map amount shares) =? 1001;
  let debt := Money_new (-10) Currency_brl in
  let? shares <- Money_allocate debt 3;
  assert! Zsum (map amount shares) =? -10;
  assert! bool_decide (Money_allocate total 0 = Err InvalidAllocation);
  passed.

Definition signs_and_display : Test W :=
  let money := Money_new (-350) Currency_brl in
  assert! Money_is_negative money;
  assert! negb (Money_is_zero money);
  let? abs <- Money_abs money;
  assert! amount abs =? 350;
  let? neg <- Money_neg money;
  assert! amount neg =? 350;
  assert! bool_decide (Money_fmt money = "-3.50 BRL");
  assert! bool_decide (Money_fmt (Money_new 5 Currency_brl) = "0.05 BRL");
  let? jpy <- Currency_new "JPY" 0;
  assert! bool_decide (Money_fmt (Money_new 7 jpy) = "7 JPY");
  assert! Money_is_zero (Money_zero Currency_usd);
  passed.

(** ** Allocation (allocation.rs) *)

Definition splits_evenly_when_divisible : Test W :=
  let? shares <- allocate_minor_units 100 4 10000;
  assert! bool_decide (shares = [25; 25; 25; 25]);
  passed.

Definition spreads_the_remainder_over_the_first_shares : Test W :=
  let? shares <- allocate_minor_units 10 3 10000;
  assert! bool_decide (shares = [4; 3; 3]);
  passed.

Definition sums_back_to_the_original_for_negative_totals : Test W :=
  let? shares <- allocate_minor_units (-10) 3 10000;
  assert! Zsum shares =? -10;
  passed.

Definition rejects_zero_parts : Test W :=
  assert! bool_decide (allocate_minor_units 100 0 10000 = Err InvalidAllocation_);
  passed.

Definition rejects_parts_over_the_caller_supplied_ceiling : Test W :=
  assert! bool_decide (allocate_minor_units 100 11 10 = Err (TooManyParts_ 11 10));
  passed.

(** ** Secrets (secret.rs) *)

Definition debug_and_display_do_not_reveal_the_value : Test W :=
  let s := Secret_from "hunter2" in
  assert! bool_decide (Secret_debug s = REDACTED);
  assert! bool_decide (Secret_display s = REDACTED);
  passed.

Definition value_stays_reachable_through_expose : Test W :=
  let s := Secret_from "hunter2" in
  assert! bool_decide (Secret_expose s = "hunter2");
  assert! bool_decide (Secret_into_inner s = "hunter2");
  passed.

Record Credentials := mkCredentials { username : string; password : Secret string }.

(** The derived [Debug]: the struct's name and each field's own [Debug]; that
    of a string is the text in quotes. *)
Definition Credentials_debug (c : Credentials) : string :=
  let quoted s := String (ascii_of_nat 34) (s +:+ String (ascii_of_nat 34) "") in
  "Credentials { username: " +:+ quoted (username c) +:+ ", password: "
  +:+ Secret_debug (password c) +:+ " }".

Definition does_not_leak_through_a_derived_debug : Test W :=
  let out := Credentials_debug (mkCredentials "admin" (Secret_from "hunter2")) in
  assert! str_contains "admin" out;
  assert! negb (str_contains "hunter2" out);
  passed.

(** ** Errors (errors.rs, repository.rs) *)

Definition each_variant_classifies_to_its_conventional_kind : Test W :=
  assert! bool_decide (kind (NotFound "x") = KNotFound);
  assert! bool_decide (kind (Validation "x") = KValidation);
  assert! bool_decide (kind (BusinessRule "x") = KConflict);
  assert! bool_decide (kind (Conflict "x") = KConflict);
  passed.

Definition public_message_matches_display_for_domain_authored_text : Test W :=
  let error := BusinessRule "credit limit exceeded" in
  assert! bool_decide (public_message error = display error);
  assert! str_contains "credit limit exceeded" (public_message error);
  passed.

Inductive SensitiveAdapterError := mkSensitiveAdapterError.

Definition SensitiveAdapterError_to_string (_ : SensitiveAdapterError) : string :=
  "connection to postgres://prod-db.internal:5432 refused".

#[local] Instance sensitive_classified : ClassifiedError (RepositoryError SensitiveAdapterError) :=
  RepositoryError_classified SensitiveAdapterError_to_string.

Definition concurrency_conflict_classifies_as_conflict_with_its_own_message : Test W :=
  let error := ConcurrencyConflict (E := SensitiveAdapterError) 3 (Some 4) in
  assert! bool_decide (kind error = KConflict);
  assert! str_contains "expected version 3" (public_message error);
  passed.

Definition storage_failure_never_leaks_the_adapter_error_into_the_public_message : Test W :=
  let error := Storage mkSensitiveAdapterError in
  assert! bool_decide (kind error = KInternal);
  assert! negb (str_contains "postgres://" (public_message error));
  assert! negb (str_contains "5432" (public_message error));
  assert! bool_decide (public_message error = "internal storage error");
  passed.

(** ** Value objects (value_object.rs) *)

Definition Quantity_new : Z -> result (ValueObject Z) DomainError :=
  value_object_new (fun v => 1 <=? v) "quantity must be at least 1".
Definition Name_valid (v : string) : bool := negb (bool_decide (v = "")).
Definition Name_new : string -> result (ValueObject string) DomainError :=
  value_object_new Name_valid "name cannot be empty".
Definition Name_try_from : string -> result (ValueObject string) DomainError :=
  value_object_try_from Name_valid "name cannot be empty".

Definition constructor_is_the_single_validation_point : Test W :=
  assert! is_err (Quantity_new 0);
  assert! is_err (Name_new "");
  let? quantity <- Quantity_new 3;
  assert! value_object_value quantity =? 3;
  assert! value_object_into_inner quantity =? 3;
  let? name <- Name_try_from "Rust book";
  assert! bool_decide (value_object_value name = "Rust book");
  assert! bool_decide (value_object_to_string (fun s => s) name = "Rust book");
  let? x <- Name_new "x";
  assert! bool_decide (value_object_into_inner x = "x");
  passed.

Definition core_tests : list (Test W) :=
  [currency_codes_are_validated; checked_arithmetic_rejects_mismatch_and_overflow;
   covers_wei_magnitudes_beyond_u64; allocate_never_creates_or_loses_units; signs_and_display;
   splits_evenly_when_divisible; spreads_the_remainder_over_the_first_shares;
   sums_back_to_the_original_for_negative_totals; rejects_zero_parts;
   rejects_parts_over_the_caller_supplied_ceiling; debug_and_display_do_not_reveal_the_value;
   value_stays_reachable_through_expose; does_not_leak_through_a_derived_debug;
   each_variant_classifies_to_its_conventional_kind;
   public_message_matches_display_for_domain_authored_text;
   concurrency_conflict_classifies_as_conflict_with_its_own_message;
   storage_failure_never_leaks_the_adapter_error_into_the_public_message;
   constructor_is_the_single_validation_point].

(** ** The log filter (filter.rs) *)

(** [str::starts_with] on scalar values, and [str::contains]. *)
Fixpoint text_prefix (needle s : list Z) : bool :=
  match needle, s with
  | [], _ => true
  | c :: needle', d :: s' => (c =? d) && text_prefix needle' s'
  | _, [] => false
  end.
Fixpoint text_contains (needle s : list Z) : bool :=
  text_prefix needle s || match s with [] => false | _ :: s' => text_contains needle s' end.

(** [merged.contains(..)] and [merged.starts_with(..)] with a literal. *)
Definition has (needle : string) (s : list Z) : bool := text_contains (text_of needle) s.

Definition adds_every_framework_target_when_absent : Test W :=
  let merged := merge_directives (text_of "my_app=info") in
  assert! forallb (fun target => text_contains (target ++ text_of "=info") merged) PHAROS_TARGETS;
  passed.

Definition never_overrules_a_target_the_caller_set : Test W :=
  let merged := merge_directives (text_of "my_app=info,pharos_app=debug") in
  assert! has "pharos_app=debug" merged;
  assert! negb (has "pharos_app=info" merged);
  passed.

Definition does_not_duplicate_on_repeated_merges : Test W :=
  let once := merge_directives (text_of "my_app=info") in
  assert! bool_decide (merge_directives once = once);
  passed.

Definition recognises_span_scoped_directives : Test W :=
  let merged := merge_directives (text_of "pharos_axum[request]=trace") in
  assert! has "pharos_axum[request]=trace" merged;
  assert! negb (has "pharos_axum=info" merged);
  passed.

Definition handles_a_bare_level : Test W :=
  let merged := merge_directives (text_of "warn") in
  assert! text_prefix (text_of "warn,") merged;
  assert! has "pharos_app=info" merged;
  passed.

Definition filter_tests : list (Test W) :=
  [adds_every_framework_target_when_absent; never_overrules_a_target_the_caller_set;
   does_not_duplicate_on_repeated_merges; recognises_span_scoped_directives; handles_a_bare_level].
End Tests.

Theorem core_tests_pass : Forall (passes tt) (core_tests ++ filter_tests).
Proof. repeat constructor; vm_compute; reflexivity. Qed.
