(* ===== verification/MessagingTests.v ===== *)
(** * The unit tests of messaging, its in-memory adapters and the order, on the model

    Models the tests of crates/pharos-messaging/src: messaging.rs (lines 384
    to 504), consumer_group.rs, dead_letter.rs, inbox.rs, outbox.rs and
    schema_registry.rs; of crates/pharos-memory/src:
    in_memory_consumer_group.rs, in_memory_dead_letter.rs, in_memory_inbox.rs,
    in_memory_messaging.rs, in_memory_outbox.rs and
    in_memory_schema_registry.rs; of crates/pharos-testing/src/lib.rs (257 to
    308); and of examples/order/src/domain/order.rs (201 to 275).

    The stores a test creates are those of its world, new at its start. *)

From S2P Require Import Prelude Core Messaging Outbox Inbox Registries EventBus Capture Orders Contract TestKit.
Local Open Scope Z_scope.

#[export] Instance RetryDecision_eq_dec : EqDecision RetryDecision.
Proof. solve_decision. Defined.
#[export] Instance FailureKind_eq_dec : EqDecision FailureKind.
Proof. solve_decision. Defined.

(** ** Messages and retries (messaging.rs) *)

Section MessagingTests.
Context {W : Type} `{!Env W}.

(** [Message::new] *)
Definition new_message (topic payload content_type : string) : M W Message :=
  do! id <- uuid_now_v7; ret (Message_new id topic payload content_type).

Definition message_uses_uuid_v7_and_preserves_headers : Test W :=
  do! m <- new_message "orders" "{}" "application/json";
  let message := Message_with_header "correlation_id" "corr-1" (Message_with_key "order-1" m) in
  assert! get_version_num (message_id message) =? 7;
  assert! bool_decide (topic message = "orders");
  assert! bool_decide (key message = Some "order-1");
  assert! bool_decide (headers message !! "correlation_id" = Some "corr-1");
  passed.

Definition retry_policy_dead_letters_after_max_attempts : Test W :=
  let policy := RetryPolicy_new 3 (from_secs 2) in
  live! first <- RetryPolicy_decide policy 1;
  assert! bool_decide (first = RetryAfter (from_secs 2));
  live! second <- RetryPolicy_decide policy 2;
  assert! bool_decide (second = RetryAfter (from_secs 2));
  live! third <- RetryPolicy_decide policy 3;
  assert! bool_decide (third = DeadLetter_);
  passed.

Definition decide_for_dead_letters_a_poisoned_message_on_the_first_attempt : Test W :=
  let policy := RetryPolicy_new 5 (from_secs 2) in
  live! plain <- RetryPolicy_decide policy 1;
  assert! bool_decide (plain = RetryAfter (from_secs 2));
  live! poisoned <- RetryPolicy_decide_for policy 1 Poison;
  assert! bool_decide (poisoned = DeadLetter_);
  passed.

Definition decide_for_treats_transient_failures_like_decide : Test W :=
  let policy := RetryPolicy_new 3 (from_secs 2) in
  live! first <- RetryPolicy_decide_for policy 1 Transient;
  assert! bool_decide (first = RetryAfter (from_secs 2));
  live! last <- RetryPolicy_decide_for policy 3 Transient;
  assert! bool_decide (last = DeadLetter_);
  passed.

Definition messaging_error_classifies_publish_poisoned_and_defaults_others_to_transient : Test W :=
  let poisoned := MessagingError_publish_poisoned "payload too large" in
  assert! bool_decide (MessagingError_failure_kind poisoned = Poison);
  let transient := Publish "connection refused" in
  assert! bool_decide (MessagingError_failure_kind transient = Transient);
  passed.

Definition exponential_backoff_grows_and_caps : Test W :=
  let policy := mkRetryPolicy 10
                  (Exponential (from_millis 100) (f64_of_Z 2) (from_secs 1) false) in
  live! first <- RetryPolicy_decide policy 1;
  assert! bool_decide (first = RetryAfter (from_millis 100));
  live! second <- RetryPolicy_decide policy 2;
  assert! bool_decide (second = RetryAfter (from_millis 200));
  live! third <- RetryPolicy_decide policy 3;
  assert! bool_decide (third = RetryAfter (from_millis 400));
  live! fifth <- RetryPolicy_decide policy 5;
  assert! bool_decide (fifth = RetryAfter (from_secs 1));
  passed.

Definition exponential_backoff_jitter_stays_within_bounds : Test W :=
  let policy := RetryPolicy_exponential 5 (from_millis 200) (f64_of_Z 2) (from_secs 10) in
  live! decision <- RetryPolicy_decide policy 3;
  match decision with
  | RetryAfter delay =>
      assert! from_millis 400 <=? delay;
      assert! delay <=? from_millis 800;
      passed
  | DeadLetter_ => ret None
  end.

(** ** Records (consumer_group.rs, dead_letter.rs, inbox.rs, outbox.rs,
    schema_registry.rs) *)

Definition creates_partition_assignment : Test W :=
  let assignment := mkPartitionAssignment "orders" "consumer-1" "order-events" 0 in
  assert! bool_decide (pa_group assignment = "orders");
  assert! bool_decide (pa_consumer_id assignment = "consumer-1");
  assert! bool_decide (pa_topic assignment = "order-events");
  assert! pa_partition assignment =? 0;
  passed.

Definition creates_dead_letter_message_with_uuid_v7 : Test W :=
  do! message <- new_message "orders" "payload" "text/plain";
  do! dead_letter <- DeadLetterMessage_new message "failed" 3;
  assert! get_version_num (dl_id dead_letter) =? 7;
  assert! bool_decide (dl_reason dead_letter = "failed");
  assert! dl_attempts dead_letter =? 3;
  passed.

Definition inbox_message_tracks_processing_status : Test W :=
  do! id <- uuid_now_v7;
  do! inbox <- InboxMessage_processing id "billing";
  assert! ib_message_id inbox =? id;
  assert! bool_decide (ib_consumer inbox = "billing");
  assert! bool_decide (ib_status inbox = IProcessing);
  do! inbox <- InboxMessage_mark_failed "temporary failure" inbox;
  assert! bool_decide (ib_status inbox = IFailed);
  assert! bool_decide (ib_last_error inbox = Some "temporary failure");
  do! inbox <- InboxMessage_mark_completed inbox;
  assert! bool_decide (ib_status inbox = ICompleted);
  assert! bool_decide (ib_last_error inbox = None);
  passed.

Definition outbox_message_tracks_status_and_attempts : Test W :=
  do! message <- new_message "orders" "{}" "application/json";
  do! outbox <- OutboxMessage_new message;
  assert! get_version_num (ob_id outbox) =? 7;
  assert! bool_decide (ob_status outbox = Pending);
  assert! ob_attempts outbox =? 0;
  do! outbox <- OutboxMessage_record_attempt outbox;
  assert! ob_attempts outbox =? 1;
  do! outbox <- OutboxMessage_mark_failed "broker unavailable" outbox;
  assert! bool_decide (ob_status outbox = Failed);
  assert! bool_decide (ob_last_error outbox = Some "broker unavailable");
  do! outbox <- OutboxMessage_mark_published outbox;
  assert! bool_decide (ob_status outbox = Outbox.Published);
  assert! bool_decide (ob_last_error outbox = None);
  passed.

Definition creates_event_schema_descriptor : Test W :=
  do! schema <- EventSchema_new "OrderConfirmed" 1 "json-schema" "{}";
  assert! bool_decide (sc_event_type schema = "OrderConfirmed");
  assert! sc_version schema =? 1;
  assert! bool_decide (sc_format schema = "json-schema");
  passed.

Definition messaging_tests : list (Test W) :=
  [message_uses_uuid_v7_and_preserves_headers; retry_policy_dead_letters_after_max_attempts;
   decide_for_dead_letters_a_poisoned_message_on_the_first_attempt;
   decide_for_treats_transient_failures_like_decide;
   messaging_error_classifies_publish_poisoned_and_defaults_others_to_transient;
   exponential_backoff_grows_and_caps; exponential_backoff_jitter_stays_within_bounds;
   creates_partition_assignment; creates_dead_letter_message_with_uuid_v7;
   inbox_message_tracks_processing_status; outbox_message_tracks_status_and_attempts;
   creates_event_schema_descriptor].
End MessagingTests.

(** ** The in-memory adapters *)

Section AdapterTests.
Context {W : Type} `{!Env W, !Chrono, !Lens W InMemoryConsumerGroups, !Lens W InMemoryInbox}.
Context `{!Lens W InMemoryDeadLetterQueue, !Lens W InMemoryMessageBroker, !Lens W InMemoryOutbox}.
Context `{!Lens W InMemorySchemaRegistry}.

Definition coordinates_assignments : Test W :=
  let topics := ["orders"; "payments"] in
  ptry! assignments <- q (group_join "workers" "consumer-1" topics);
  assert! (length assignments =? 2)%nat;
  ptry! held <- q (group_assignments "workers");
  assert! (length held =? 2)%nat;
  ptry! _ <- q (group_leave "workers" "consumer-1");
  ptry! left_ <- q (group_assignments "workers");
  assert! (length left_ =? 0)%nat;
  passed.

Definition stores_dead_letter_messages : Test W :=
  do! m <- new_message "orders" "payload" "text/plain";
  do! message <- DeadLetterMessage_new m "failed" 3;
  ptry! _ <- q (dead_letter message);
  ptry! messages <- q (dead_letter_list 10);
  assert! (length messages =? 1)%nat;
  live! first <- ret (messages !! 0%nat);
  assert! bool_decide (dl_reason first = "failed");
  passed.

(** [begin_processing] expected to answer [d]. *)
Definition begins (id : Uuid) (d : IdempotencyDecision) (k : Test W) : Test W :=
  ptry! decision <- q (InMemoryInbox_begin_processing id "billing");
  assert! bool_decide (decision = d);
  k.

Definition enforces_idempotency_decisions : Test W :=
  do! id <- uuid_now_v7;
  begins id StartProcessing (
  begins id AlreadyProcessing (
  ptry! _ <- q (InMemoryInbox_mark_failed id "billing" "temporary");
  begins id RetryPreviousFailure (
  ptry! _ <- q (InMemoryInbox_mark_completed id "billing");
  begins id AlreadyCompleted passed))).

Definition stale_processing_records_are_taken_over : Test W :=
  do! _ <- mput (InMemoryInbox_with_stale_after 0 InMemoryInbox_default);
  do! id <- uuid_now_v7;
  begins id StartProcessing (begins id StartProcessing passed).

Definition publishes_consumes_acks_and_requeues_messages : Test W :=
  do! message <- new_message "orders" "{}" "application/json";
  let id := message_id message in
  ptry! _ <- q (publish message);
  do! b <- mget;
  assert! (queued_len b "orders" =? 1)%nat;
  ptry! found <- q (next "orders");
  live! delivery <- ret found;
  assert! attempt delivery =? 1;
  assert! message_id (delivery_message delivery) =? id;
  ptry! _ <- q (nack delivery true);
  do! b <- mget;
  assert! was_nacked b id;
  ptry! found <- q (next "orders");
  live! redelivery <- ret found;
  assert! attempt redelivery =? 2;
  ptry! _ <- q (ack redelivery);
  do! b <- mget;
  assert! was_acked b id;
  passed.

Definition stores_and_updates_outbox_messages : Test W :=
  do! m <- new_message "orders" "{}" "application/json";
  do! outbox <- OutboxMessage_new m;
  let id := ob_id outbox in
  ptry! _ <- q (InMemoryOutbox_insert outbox);
  do! repo <- mget;
  assert! (InMemoryOutbox_len repo =? 1)%nat;
  ptry! claimed <- q (InMemoryOutbox_pending 10);
  assert! (length claimed =? 1)%nat;
  ptry! _ <- q (InMemoryOutbox_record_attempt id);
  ptry! _ <- q (InMemoryOutbox_mark_published id);
  do! repo <- mget;
  live! stored <- ret (InMemoryOutbox_get id repo);
  assert! ob_attempts stored =? 1;
  assert! bool_decide (ob_status stored = Outbox.Published);
  ptry! claimed <- q (InMemoryOutbox_pending 10);
  assert! (length claimed =? 0)%nat;
  passed.

Definition registers_and_finds_latest_schema : Test W :=
  do! v1 <- EventSchema_new "OrderConfirmed" 1 "json-schema" "{}";
  ptry! _ <- q (InMemorySchemaRegistry_register v1);
  do! v2 <- EventSchema_new "OrderConfirmed" 2 "json-schema" "{}";
  ptry! _ <- q (InMemorySchemaRegistry_register v2);
  ptry! latest <- q (InMemorySchemaRegistry_latest "OrderConfirmed");
  live! schema <- ret latest;
  assert! sc_version schema =? 2;
  passed.

Definition adapter_tests : list (Test W) :=
  [coordinates_assignments; stores_dead_letter_messages; enforces_idempotency_decisions;
   stale_processing_records_are_taken_over; publishes_consumes_acks_and_requeues_messages;
   stores_and_updates_outbox_messages; registers_and_finds_latest_schema].
End AdapterTests.

(** ** Captured events (pharos-testing/src/lib.rs) *)

Record Sample := mkSample { sample_id : string; sample_at : Instant }.

Inductive SampleTypes := SampleType.

#[export] Instance SampleTypes_eq_dec : EqDecision SampleTypes.
Proof. solve_decision. Defined.
#[export] Instance SampleTypes_countable : Countable SampleTypes.
Proof. refine (inj_countable' (fun _ => tt) (fun _ => SampleType) _). by intros []. Defined.
#[export] Instance SampleTypes_events : EventTypes SampleTypes := {
  carrier _ := Sample;
  event_type _ _ := "Sample";
  aggregate_id _ := sample_id;
}.

Section CaptureTests.
Context {W : Type} `{!Env W, !Lens W (EventCapture SampleType), !Serde SampleTypes}.

Definition captures_published_events : Test W :=
  let bus := capturing_event_bus SampleType "Sample" in
  do! empty <- EventCapture_is_empty SampleType;
  assert! empty;
  do! now <- utc_now;
  live! first <- pq (EventBus_publish bus SampleType (mkSample "a-1" now));
  ptry! _ <- ret first;
  do! now <- utc_now;
  live! second <- pq (EventBus_publish bus SampleType (mkSample "a-2" now));
  ptry! _ <- ret second;
  live! _ <- assert_event_published SampleType 2;
  do! events <- EventCapture_events SampleType;
  assert! bool_decide (map sample_id events = ["a-1"; "a-2"]);
  do! _ <- EventCapture_clear SampleType;
  do! empty <- EventCapture_is_empty SampleType;
  assert! empty;
  passed.
End CaptureTests.

(** ** The order (examples/order/src/domain/order.rs) *)

Section OrderTests.
Context {W : Type} `{!Env W}.

(** [new_order] *)
Definition with_new_order (k : Order -> Test W) : Test W :=
  do! customer <- uuid_now_v7;
  do! created <- Order_create customer;
  expect! order <- created;
  k order.

(** [p.add_item(..)?] with a price in reais. *)
Definition adding (description : string) (n : Z) (price : f64) (p : Order)
  : M W (result (result ItemId DomainError * Order) string) :=
  q (try! quantity <- ret (Quantity_new n);
     try! price <- ret (Money_brl price);
     do! r <- Order_add_item description quantity price p;
     ret (Ok (E := DomainError) r)).

Definition create_emits_event : Test W :=
  with_new_order (fun p =>
  assert! bool_decide (order_status p = Draft);
  assert! (length (pending_events p) =? 1)%nat;
  passed).

(** [10.10], the double nearest to it. *)
Definition ten_ten : f64 := f64_div (f64_of_Z 1010) (f64_of_Z 100).

Definition total_uses_integer_arithmetic : Test W :=
  with_new_order (fun p =>
  ptry! added <- adding "A" 3 ten_ten p;
  ptry! _ <- q (ret added.1);
  ptry! total <- q (ret (Order_total added.2));
  assert! Money_cents total =? 3030;
  passed).

Definition confirm_without_items_fails : Test W :=
  with_new_order (fun p =>
  do! confirmed <- Order_confirm p;
  assert! is_err confirmed.1;
  passed).

Definition does_not_add_item_after_confirmation : Test W :=
  with_new_order (fun p =>
  ptry! added <- adding "A" 1 (f64_of_Z 5) p;
  ptry! _ <- q (ret added.1);
  do! confirmed <- Order_confirm added.2;
  ptry! _ <- q (ret confirmed.1);
  ptry! r <- adding "B" 1 (f64_of_Z 5) confirmed.2;
  assert! is_err r.1;
  passed).

Definition cancel_changes_status_and_emits_event : Test W :=
  with_new_order (fun p =>
  let p := (drain_events p).2 in
  do! cancelled <- Order_cancel "customer changed their mind" p;
  ptry! _ <- q (ret cancelled.1);
  let p := cancelled.2 in
  assert! bool_decide (order_status p = Cancelled);
  assert! (length (order_items p) =? 0)%nat;
  assert! (length (pending_events p) =? 1)%nat;
  do! again <- Order_cancel "again" p;
  assert! is_err again.1;
  passed).

Definition exposed_getters : Test W :=
  with_new_order (fun p =>
  let customer := order_customer p in
  ptry! added <- adding "X" 1 (f64_of_Z 1) p;
  ptry! _ <- q (ret added.1);
  assert! (length (order_items added.2) =? 1)%nat;
  assert! order_customer added.2 =? customer;
  passed).

Definition drain_clears_events : Test W :=
  with_new_order (fun p =>
  let '(evs, p) := drain_events p in
  assert! (length evs =? 1)%nat;
  assert! (length (pending_events p) =? 0)%nat;
  passed).

Definition order_tests : list (Test W) :=
  [create_emits_event; total_uses_integer_arithmetic; confirm_without_items_fails;
   does_not_add_item_after_confirmation; cancel_changes_status_and_emits_event; exposed_getters;
   drain_clears_events].
End OrderTests.

(** ** They pass *)

#[local] Instance sample_text : Serde SampleTypes := {
  to_vec _ e := Ok (sample_id e);
  from_slice _ s := Ok (mkSample s 0);
}.

(** Identifiers of version 7. *)
Definition v7_env : EnvState :=
  mkEnvState 0 (fun n => Z.of_nat n * 1000) 0
    (fun n => Z.lor (Z.shiftl 7 76) (Z.of_nat n + 1)) 0 (fun _ => S754_zero false).

Definition messaging_test_start
  : World (InMemoryConsumerGroups * (InMemoryInbox * (InMemoryDeadLetterQueue *
      (InMemoryMessageBroker * (InMemoryOutbox * (InMemorySchemaRegistry *
        EventCapture SampleType)))))) :=
  mkWorld v7_env
    (mkConsumerGroups ∅, (InMemoryInbox_default, (mkInMemoryDeadLetterQueue [],
      (InMemoryMessageBroker_new, (InMemoryOutbox_default, (mkSchemas ∅,
        EventCapture_new SampleType)))))).

Theorem messaging_tests_pass :
  Forall (passes messaging_test_start)
    (messaging_tests ++ adapter_tests ++ [captures_published_events] ++ order_tests).
Proof. repeat constructor; vm_compute; reflexivity. Qed.
