(* ===== verification/DispatcherTests.v ===== *)
(** * The tests of the dispatcher over the in-memory outbox, on the model

    Models crates/pharos-memory/src/outbox_dispatcher_tests.rs: the three
    publishers the tests bring along (one that always fails, one that records,
    one that refuses some payloads) and the tests.  The lanes of a test run one
    after the other; that no other schedule changes the order of a key is
    [dispatch_per_key_order]. *)

From S2P Require Import Prelude Core Messaging Outbox OutboxDispatcher Contract TestKit.
Local Open Scope Z_scope.

(** ** The publishers *)

(** The [Mutex<Vec<_>>] of a publisher is its record in the world. *)
Record RecordingPublisher := mkRecordingPublisher { rp_seen : list (option string * string) }.

Record FailOnPayloadPublisher := mkFailOnPayloadPublisher {
  poison : gset string;
  fp_seen : list (option string * string);
}.

Definition AlwaysFailingPublisher_publish {W} (message : Message) : M W (result unit MessagingError) :=
  ret (Err (MessagingError_publish "broker down")).

Definition RecordingPublisher_publish {W} `{!Lens W RecordingPublisher} (message : Message)
  : M W (result unit MessagingError) :=
  do! p <- mget;
  do! _ <- mput (mkRecordingPublisher (rp_seen p ++ [(key message, payload message)]));
  ret (Ok tt).

Definition FailOnPayloadPublisher_publish {W} `{!Lens W FailOnPayloadPublisher} (message : Message)
  : M W (result unit MessagingError) :=
  do! p <- mget;
  if decide (payload message ∈ poison p)
  then ret (Err (MessagingError_publish "broker down for this message"))
  else
    do! _ <- mput (mkFailOnPayloadPublisher (poison p) (fp_seen p ++ [(key message, payload message)]));
    ret (Ok tt).

Definition always_failing {W} : MessagePublisher W := {| publish := AlwaysFailingPublisher_publish |}.
Definition recording {W} `{!Lens W RecordingPublisher} : MessagePublisher W :=
  {| publish := RecordingPublisher_publish |}.
Definition fail_on_payload {W} `{!Lens W FailOnPayloadPublisher} : MessagePublisher W :=
  {| publish := FailOnPayloadPublisher_publish |}.

(** ** The tests *)

Section Tests.
Context {W : Type} `{!Env W, !Lens W InMemoryOutbox, !Lens W InMemoryMessageBroker,
  !Lens W RecordingPublisher, !Lens W FailOnPayloadPublisher, !Chrono, !MapIter Uuid OutboxMessage}.

(** [tokio::time::sleep], as the clock of the world sees it. *)
Context (sleep : Duration -> M W unit).

(** [OutboxMessage::new(Message::new(..))] *)
Definition new_outbox_message (payload content_type : string) : M W OutboxMessage :=
  do! id <- uuid_now_v7;
  OutboxMessage_new (Message_new id "orders" payload content_type).

(** The loop that inserts one message per key and payload. *)
Fixpoint insert_keyed (rows : list (string * string)) : M W (result unit OutboxError) :=
  match rows with
  | [] => ret (Ok tt)
  | (k, payload) :: rows =>
      do! id <- uuid_now_v7;
      do! m <- OutboxMessage_new (Message_with_key k (Message_new id "orders" payload "text/plain"));
      try! _ <- InMemoryOutbox_insert m;
      insert_keyed rows
  end.

Definition dispatcher_keeps_message_pending_until_retries_exhausted : Test W :=
  do! outbox_message <- new_outbox_message "{}" "application/json";
  let outbox_id := ob_id outbox_message in
  ptry! _ <- q (InMemoryOutbox_insert outbox_message);
  let config := DispatchConfig_new 10 (RetryPolicy_new 2 (from_millis 1)) in
  let run := dispatch_batch (MessagePublisher0 := always_failing) config in
  live! first <- run;
  assert! (published first =? 0)%nat;
  assert! (DispatchResult_failure_count first =? 1)%nat;
  do! repo <- mget;
  ptry! stored <- q (ret (ok_or (InMemoryOutbox_get outbox_id repo) "outbox message not found"));
  assert! bool_decide (ob_status stored = Pending);
  assert! ob_attempts stored =? 1;
  do! _ <- sleep (from_millis 10);
  live! second <- run;
  assert! (DispatchResult_failure_count second =? 1)%nat;
  do! repo <- mget;
  ptry! stored <- q (ret (ok_or (InMemoryOutbox_get outbox_id repo) "outbox message not found"));
  assert! bool_decide (ob_status stored = Failed);
  assert! ob_attempts stored =? 2;
  passed.

Definition dispatcher_publishes_pending_outbox_messages : Test W :=
  do! outbox_message <- new_outbox_message "{}" "application/json";
  let outbox_id := ob_id outbox_message in
  ptry! _ <- q (InMemoryOutbox_insert outbox_message);
  live! result <- dispatch_pending (MessagePublisher0 := InMemoryMessageBroker_publisher) DispatchConfig_default 10;
  assert! DispatchResult_is_ok result;
  assert! (published result =? 1)%nat;
  do! broker <- mget;
  assert! (queued_len broker "orders" =? 1)%nat;
  do! repo <- mget;
  ptry! stored <- q (ret (ok_or (InMemoryOutbox_get outbox_id repo) "outbox message not found"));
  assert! bool_decide (ob_status stored = Published);
  assert! ob_attempts stored =? 1;
  passed.

(** The closure [per_key] of the test. *)
Definition per_key (seen : list (option string * string)) (k : string) : list string :=
  (filter (fun s => s.1 = Some k) seen).*2.

Definition concurrent_dispatch_preserves_per_key_ordering : Test W :=
  ptry! _ <- q (insert_keyed [("order-1", "a"); ("order-2", "x"); ("order-1", "b");
                              ("order-1", "c"); ("order-2", "y")]);
  do! _ <- mput (mkRecordingPublisher []);
  live! result <- dispatch_batch (MessagePublisher0 := recording)
                    (DispatchConfig_with_concurrency 8 DispatchConfig_default);
  assert! DispatchResult_is_ok result;
  assert! (published result =? 5)%nat;
  do! publisher <- mget;
  assert! bool_decide (per_key (rp_seen publisher) "order-1" = ["a"; "b"; "c"]);
  assert! bool_decide (per_key (rp_seen publisher) "order-2" = ["x"; "y"]);
  passed.

Definition a_failed_publish_blocks_the_rest_of_its_lane_head_of_line : Test W :=
  ptry! _ <- q (insert_keyed [("order-1", "a"); ("order-1", "b"); ("order-1", "c"); ("order-2", "x")]);
  do! _ <- mput (mkFailOnPayloadPublisher {["a"]} []);
  let config := DispatchConfig_with_concurrency 8
                  (DispatchConfig_new 10 (RetryPolicy_new 5 (from_secs 60))) in
  live! result <- dispatch_batch (MessagePublisher0 := fail_on_payload) config;
  assert! (published result =? 1)%nat;
  do! publisher <- mget;
  assert! bool_decide (fp_seen publisher = [(Some "order-2", "x")]);
  passed.

Definition dispatcher_tests : list (Test W) :=
  [dispatcher_keeps_message_pending_until_retries_exhausted;
   dispatcher_publishes_pending_outbox_messages;
   concurrent_dispatch_preserves_per_key_ordering;
   a_failed_publish_blocks_the_rest_of_its_lane_head_of_line].
End Tests.

(** ** They pass *)

(** The clock moves on by a microsecond a reading, and by what is slept. *)
Definition passing_sleep {S} (d : Duration) : M (World S) unit := fun w =>
  let e := w_env w in
  (tt, mkWorld (mkEnvState (ticks e) (fun n => clock_at e n + d) (drawn e) (uuid_at e) (rolled e) (random_at e))
         (w_stores w)).

Definition dispatcher_test_start
  : World (InMemoryOutbox * (InMemoryMessageBroker * (RecordingPublisher * FailOnPayloadPublisher))) :=
  mkWorld (mkEnvState 0 (fun n => Z.of_nat n * 1000) 0 (fun n => Z.of_nat n + 1) 0 (fun _ => S754_zero false))
    (InMemoryOutbox_default, (InMemoryMessageBroker_new, (mkRecordingPublisher [], mkFailOnPayloadPublisher ∅ []))).

Theorem dispatcher_tests_pass :
  Forall (passes dispatcher_test_start) (dispatcher_tests passing_sleep).
Proof. repeat constructor; vm_compute; reflexivity. Qed.
